(* ===== verification/_CoqProject ===== *)
-Q . S2P
Prelude.v
RustStd.v
StrFacts.v
Json.v
Net.v
Wp.v
Http.v
HttpFacts.v
HttpRead.v
ReaderProgress.v
HttpQuery.v
HttpResponse.v
Paths.v
Kernel.v
Sim.v
Host.v
Landlock.v
LandlockFacts.v
State.v
Samples.v
Replies.v
Uids.v
UidsFacts.v
Sandboxes.v
SandboxFacts.v
SandboxRaces.v
Exec.v
ExecFacts.v
ExecRaces.v
ExecSteps.v
ExecWatch.v
ExecPipe.v
Ledger.v
Fsutil.v
FsutilFacts.v
Fuzz.v
Files.v
FilesFacts.v
ListingFacts.v
Proxy.v
ProxyFacts.v
Tunnel.v
TunnelCode.v
SandboxHandlers.v
Server.v
ServerFacts.v
ServerLoop.v
UnitTests.v
MachineTests.v
