(* ===== verification/Prelude.v ===== *)
(** * sandbox-server: a verification development

    The program is an HTTP/1.1 server, written in Rust with blocking threads, that
    runs commands and moves files inside a container.  In dedicated mode the
    container is the sandbox.  In host mode one server keeps many sandboxes apart: a
    uid, a private home and a Landlock ruleset each.  This library models the eight
    files of src/src, with their unit tests, and the two fuzz targets of src/fuzz,
    and proves what each part promises to the others.

    ** The parts and the files that model them

    - src/http.rs: [Http] (reading and parsing requests, consuming bodies) and
      [HttpResponse] (fixed and chunked replies).  Theorems: [HttpFacts] (the
      parser), [HttpRead] and [ReaderProgress] (taking requests off a connection),
      [HttpQuery] (query strings), [HttpResponse] (framing of replies), [Replies]
      (one reply per request).
    - src/landlock.rs: [Landlock]; theorems in [LandlockFacts].
    - src/sandboxes.rs: [Uids] (the uid pool, /proc, the kill sweep), [Sandboxes]
      (the registry, the isolation of a command) and [SandboxHandlers]; theorems in
      [UidsFacts], [SandboxFacts] and, for interleaved requests, [SandboxRaces].
    - src/exec.rs: [Exec] (commands, the process registry, the handlers); theorems
      in [ExecFacts].  What the threads of a command do to each other is modelled by
      step relations with their invariants: [ExecPipe] (the two output readers, the
      waiter and the handler around the bounded channel), [ExecRaces] (signals
      against reaping, the orphan reaper against spawn and wait) and [ExecWatch] (the
      timeout watcher against the report); [ExecSteps] shows that [kill_tree],
      [wait_and_report] and [orphan_reaper] take the steps of [ExecRaces].
    - src/fsutil.rs: [Fsutil]; theorems in [FsutilFacts], with the call ledger of
      [Ledger].
    - src/files.rs: [Files]; theorems in [FilesFacts] and [ListingFacts].
    - src/proxy.rs: [Proxy]; theorems in [ProxyFacts].  The two threads of a tunnel
      are the step relation of [Tunnel]; [TunnelCode] shows that [splice] takes its
      steps.
    - src/main.rs: [Server] (credentials, router, connection loop, connection limit,
      start-up, watchdog); theorems in [ServerFacts] and [ServerLoop].
    - src/fuzz/fuzz_targets: [Fuzz], both targets with the proof that no assertion
      fails.
    - The #[test] functions of src/src: [UnitTests] (those that compute on values) and
      [MachineTests] (those that need files, processes or sockets, run on [Sim]).
    - The shared data ([SandboxEntry], [ProcRegistry], [State], ...) is in [State].

    Below them are the environment: [RustStd] and [Paths] (the std functions on
    strings, integers and paths), [Json] (serde_json, a class with its documented
    laws), [Net] (a connection's reads and writes), [Kernel] (the system calls, a
    class), [Host] (the kernel's state with the program's statics).  [Sim] is a small
    kernel that the examples and witnesses run on, with the inputs of [Samples].

    ** How code is modelled

    A function of the program is a Definition of the same name that reads and
    updates a state and may fail: [io S A], below, is [S -> result A io_error * S],
    and as in Rust what was done before an error stays done.  A component's code
    runs on the component's state and is lifted into a larger one by [io_lens]
    ([with_state], [with_resp], [ctx_host], ... of [State]).  Drop code is explicit:
    [io_finally] where a value is dropped on every path, [io_on_error] where it is
    kept on success.  [Mutex] and atomic fields of shared objects are cells in the
    registry that owns them, so every holder of an object sees a change.

    The kernel and the peer are arbitrary.  A [Kernel] answers each call from a
    state of its own, so a theorem for every [Kernel] holds whatever the other
    processes, the sandbox's own code included, do between two calls; [Traced]
    records the calls, and the confinement theorems are about that record.  The
    peer is a list of read events (bytes or errors, with their times) and a list of
    write outcomes.  Machine integers are [Z]; wrap-around is written out
    ([wrap_u64], [wrap_i64]), since the release profile does not check overflow.

    [Wp] gives a rule per combinator and the tactic [wp_step]; [Host] extends it to
    system calls ([wp_go]).  On top of it stand five judgements with their own rules
    and automation: [audit] and [keep] (allowed calls), [replies] and [replying] (one
    reply), [accounts] and [accounting] (whose bytes were read), [feeds] (reading
    moves forward), [serves] (a route's contract with the connection loop).

    ** What the theorems show

    - Requests: an accepted head is unambiguous, means what its bytes say and
      survives being written out again; requests and bodies come off the stream
      exactly, however it is cut into packets; draining keeps the framing.
    - Connections: [connection_in_step] composes all of it: every route of every
      handler answers once, framed, and the next head is read where the body ended.
      Around it, [accept_stream_runs]: every turn of the accept loop gives its slot
      back, and a stream over the limit is told so and no more.
    - Authority: [route_entitled] (nothing past a credential but one fixed reply),
      [start_fails_closed] (with the version of Landlock this start-up was told),
      [connections_bounded], [watchdog_spares_work] (a turn of the watchdog, against
      the exits recorded).
    - Isolation: what a ruleset grants, that a sandboxed command runs confined or not
      at all, that file and proxy requests never leave the home or leak a
      descriptor, and that a proxied request is the client's without its
      credentials.
    - Lifecycle: [create_spec] and [delete_spec] on every path, uids never shared or
      lost, capacity never exceeded under any interleaving ([races_safe], with
      [requests_are_steps] saying that the code's operations are such
      interleavings), nothing spawned in a deleted sandbox.
    - Commands: what is run is what was asked; output arrives in order and before the
      exit; a signal never reaches a recycled pid; the reaper never takes a command's
      status, unless a pid is recycled at one point ([reaper_never_steals]).  Signals and
      reaping are step relations; [signalling_refines] says the code takes their
      steps.  An exit whose status could be collected says [timed_out] exactly when the
      watcher signalled the command ([timed_out_truthful]).
    - Tunnels: under every interleaving each side gets a prefix of what the other
      sent, and all of it before the end is passed on ([tunnel_faithful]); a tunnel
      ends with its backend ([tunnel_ends]).  The code takes those steps in whatever
      order the calls of its threads return ([splice_refines]), and ends once the
      handler waits for the pump ([splice_ends]).
    - What the authors check: no input fails a fuzz target ([fuzz_request_head_passes],
      [fuzz_normalize_relative_passes]); the unit tests are examples of [UnitTests] and
      [MachineTests].
    - What a theorem shows to go wrong is part of its statement where the code does
      so: two files shown under one name lose one across pages ([pages_complete]), a
      /proc that cannot be listed looks empty ([kill_uid_sound]), a hugely negative
      timeout never fires ([watcher_delay_exact]).

    ** Fuel and bounds

    - [HEAD_FUEL] (64 KiB and one): each iteration of [read_head] adds a byte to a
      head of at most 64 KiB; [read_request_exact] shows it is never reached.
    - Body loops and [connection_loop] take [S (rd_size r)]: every iteration that
      does not end them takes at least one byte or event of the stream
      ([ReaderProgress]); [connection_in_step] shows the loop returns.
    - [chown_up] takes the length of the path, [take_free] the length of the free
      list, [take_fresh] the uid range, [copy_loop] the bytes to send; each shrinks.
    - [remove_dir_contents] takes a bound on the nesting of directories, which the
      code leaves to the stack; [remove_dir_contents_ends] says when it is enough, for
      a tree nested less deep ([ShrinkingTree]) and for any kernel.
    - [wait_peek] and [orphan_reaper] take how often the peek is interrupted and how
      many ticks the reaper makes; neither is bounded in the code.
    - [splice] takes the order in which the calls of its two threads return, a list of
      turns.  How long a tunnel lives is up to the two peers, so no list is enough
      for all: after its last turn the tunnel is still open, and the model stops with
      [fuel_error].  [splice_ends] says how many turns are enough once the handler
      waits for the pump.

    ** Not modelled

    - Log lines on stderr; exit messages are shortened.
    - The effect of a socket option, a timeout or a shutdown on the client's socket:
      the calls are made and may fail ([ClientNodelay], [ClientReadTimeout], ...), but
      what they cause reaches the model as read events and write outcomes.  A read of
      a tunnel that blocks is one whose turn has not come.
    - Reference counts: [drop_entry] and [drop_handle] are defined, when the last
      holder runs them is not.
    - [ReadDir] gives all names at once; [DirEntry::metadata] is [lstat] of the path;
      [write_all] on a file is one call.
    - The code of serde_json and of the kernel: parameters, as above.
    - Threads outside the files named *Races and *Pipe, [ExecWatch], [Tunnel], the two
      of [splice] and the slot relation of [ServerFacts]: a handler runs alone, but
      the kernel's answers are arbitrary and [connection_loop] takes what other
      connections did to the shared state between two requests as an argument. *)

From Stdlib Require Export Ascii.
From Stdlib Require String.
From Stdlib Require Export ZArith Lia.
From stdpp Require Export base tactics option list gmap strings sorting.

Open Scope Z_scope.

(** ** Byte strings

    [&str], [String], [&[u8]] and [Vec<u8>] are all byte sequences here: lists of
    8-bit [ascii] values.  A [str] in the Rust sense is one that also satisfies
    [utf8_valid] (file RustStd). *)

Abbreviation str := (list ascii) (only parsing).

Definition lit (s : String.string) : str := Stdlib.Strings.String.list_ascii_of_string s.
Arguments lit _%_string.

(** The value of a byte, 0 to 255. *)
Definition byte (c : ascii) : Z := Z.of_N (N_of_ascii c).

(** The byte with a given value (taken modulo 256). *)
Definition chr (z : Z) : ascii := ascii_of_N (Z.to_N (z mod 256)).

Definition slen (s : str) : Z := Z.of_nat (length s).

(** ** Machine integers

    A w-bit unsigned integer is a [Z] in [0, 2^w); the release profile of the
    crate does not enable overflow checks, so arithmetic wraps. *)

Definition u16_max : Z := 2 ^ 16 - 1.
Definition u32_max : Z := 2 ^ 32 - 1.
Definition u64_max : Z := 2 ^ 64 - 1.
Definition i32_min : Z := - 2 ^ 31.
Definition i32_max : Z := 2 ^ 31 - 1.
Definition i64_min : Z := - 2 ^ 63.
Definition i64_max : Z := 2 ^ 63 - 1.

Definition wrap_u64 (z : Z) : Z := z mod 2 ^ 64.
Definition wrap_i64 (z : Z) : Z := (z + 2 ^ 63) mod 2 ^ 64 - 2 ^ 63.

(** [saturating_sub] and [saturating_mul] of [u64]/[usize]. *)
Definition sat_sub (a b : Z) : Z := Z.max 0 (a - b).
Definition sat_mul_u64 (a b : Z) : Z := Z.min u64_max (a * b).

Definition in_u64 (z : Z) : Prop := 0 <= z <= u64_max.
Definition in_i64 (z : Z) : Prop := i64_min <= z <= i64_max.

(** ** Fallible code *)

Inductive result (A E : Type) : Type :=
| Ok (a : A)
| Err (e : E).
Arguments Ok {A E} a.
Arguments Err {A E} e.

Definition is_ok {A E} (r : result A E) : bool :=
  match r with Ok _ => true | Err _ => false end.

Definition ok_or {A E} (o : option A) (e : E) : result A E :=
  match o with Some a => Ok a | None => Err e end.

(** [std::io::ErrorKind], the kinds the program distinguishes or produces.
    [ModelFuel] is no kind of the standard library: it marks a loop of the model
    that ran out of fuel, and every loop has a theorem saying it is not reached. *)
Inductive ErrorKind : Type :=
| NotFound | PermissionDenied | AlreadyExists | InvalidInput | InvalidData
| TimedOut | WouldBlock | Interrupted | UnexpectedEof | BrokenPipe | Unsupported
| OtherError | ModelFuel.

#[export] Instance ErrorKind_eq_dec : EqDecision ErrorKind.
Proof. solve_decision. Defined.

(** [std::io::Error]: its kind, the OS error number it was made from if any, and
    the text [to_string] gives. *)
Record io_error : Type := IoError {
  err_kind : ErrorKind;
  raw_os_error : option Z;
  err_text : str;
}.

(** [io::Error::new(kind, message)]. *)
Definition error_new (k : ErrorKind) (message : str) : io_error := IoError k None message.

(** Code that reads and updates a state of type [S] and may fail; as in Rust,
    the updates made before the failure stay. *)
Definition io (S A : Type) : Type := S -> result A io_error * S.

Definition io_ret {S A} (a : A) : io S A := fun s => (Ok a, s).
Definition io_fail {S A} (e : io_error) : io S A := fun s => (Err e, s).
Definition io_bind {S A B} (m : io S A) (k : A -> io S B) : io S B :=
  fun s => match m s with
           | (Ok a, s') => k a s'
           | (Err e, s') => (Err e, s')
           end.
(** [let _ = m]: the outcome is dropped, the effects stay. *)
Definition io_ignore {S A} (m : io S A) : io S unit := fun s => (Ok tt, (m s).2).
(** [match m { Ok(a) => .., Err(e) => .. }]. *)
Definition io_try {S A} (m : io S A) : io S (result A io_error) := fun s => (Ok (m s).1, (m s).2).
Definition io_lift {S A} (r : result A io_error) : io S A := fun s => (r, s).
(** Drop code: [clean] runs when [m] has ended, in [io_on_error] only if it failed;
    its own outcome does not matter. *)
Definition io_finally {S A} (m : io S A) (clean : io S unit) : io S A :=
  fun s => let '(r, s1) := m s in (r, (clean s1).2).
Definition io_on_error {S A} (m : io S A) (clean : io S unit) : io S A :=
  fun s => match m s with
           | (Ok a, s1) => (Ok a, s1)
           | (Err e, s1) => (Err e, (clean s1).2)
           end.
Definition io_get {S} : io S S := fun s => (Ok s, s).
Definition io_gets {S A} (f : S -> A) : io S A := fun s => (Ok (f s), s).
Definition io_put {S} (s' : S) : io S unit := fun _ => (Ok tt, s').
Definition io_modify {S} (f : S -> S) : io S unit := fun s => (Ok tt, f s).
(** Run code on a component of the state. *)
Definition io_lens {S T A} (get : S -> T) (put : T -> S -> S) (m : io T A) : io S A :=
  fun s => let '(r, t) := m (get s) in (r, put t s).

Declare Scope io_scope.
Delimit Scope io_scope with io.
Notation "x <- c ;; k" := (io_bind c (fun x => k))
  (at level 20, c at level 99, k at level 200, right associativity) : io_scope.
Notation "c ;;; k" := (io_bind c (fun _ => k))
  (at level 100, k at level 200, right associativity) : io_scope.
Notation "'let?' x := c 'in' k" := (match c with Ok x => k | Err e => Err e end)
  (at level 10, x name, c at level 100, k at level 200) : io_scope.
Open Scope io_scope.

(** Runs of [io] code, one step at a time. *)
Lemma io_bind_ok {S A B} (m : io S A) (k : A -> io S B) s b s' :
  io_bind m k s = (Ok b, s') <-> exists a s1, m s = (Ok a, s1) /\ k a s1 = (Ok b, s').
Proof.
  unfold io_bind. destruct (m s) as [[a|e] s1]; split.
  - eauto.
  - by intros (? & ? & [= <- <-] & ?).
  - done.
  - by intros (? & ? & ? & ?).
Qed.

Lemma io_bind_run {S A B} (m : io S A) (k : A -> io S B) s a s1 :
  m s = (Ok a, s1) -> io_bind m k s = k a s1.
Proof. unfold io_bind. by intros ->. Qed.

Lemma io_bind_err {S A B} (m : io S A) (k : A -> io S B) s e s' :
  io_bind m k s = (Err e, s') ->
  m s = (Err e, s') \/ exists a s1, m s = (Ok a, s1) /\ k a s1 = (Err e, s').
Proof. unfold io_bind. destruct (m s) as [[a|e'] s1]; intros; simplify_eq; eauto. Qed.

(** A run from its outcome alone. *)
Lemma io_run {S A} (m : io S A) s r : (m s).1 = r -> m s = (r, (m s).2).
Proof. by intros <-; destruct (m s). Qed.

Lemma io_bind_gets {S A B} (f : S -> A) (k : A -> io S B) s : io_bind (io_gets f) k s = k (f s) s.
Proof. done. Qed.
Lemma io_bind_ret {S A B} (a : A) (k : A -> io S B) s : io_bind (io_ret a) k s = k a s.
Proof. done. Qed.
Lemma io_bind_modify {S B} (f : S -> S) (k : unit -> io S B) s : io_bind (io_modify f) k s = k tt (f s).
Proof. done. Qed.
Lemma io_bind_fail {S A B} e (k : A -> io S B) s : io_bind (io_fail e) k s = (Err e, s).
Proof. done. Qed.
Lemma io_bind_try {S A B} (m : io S A) (k : result A io_error -> io S B) s :
  io_bind (io_try m) k s = k (m s).1 (m s).2.
Proof. done. Qed.

Create Rewrite HintDb io.
#[export] Hint Rewrite @io_bind_gets @io_bind_ret @io_bind_modify @io_bind_fail @io_bind_try : io.
