(* ===== verification/RustStd.v ===== *)
(** * The parts of the Rust standard library the program uses

    Executable models of the [str], [u8], integer-parsing, formatting and UTF-8
    functions called under src/src, on byte strings, with the lemmas the
    component files share.  Nothing here models the program itself. *)

From S2P Require Import Prelude.

(** ** Bytes *)

Definition in_range (lo hi : Z) (c : ascii) : bool := (lo <=? byte c) && (byte c <=? hi).

Definition is_ascii_digit (c : ascii) : bool := in_range 48 57 c.
Definition is_ascii_uppercase (c : ascii) : bool := in_range 65 90 c.
Definition is_ascii_lowercase (c : ascii) : bool := in_range 97 122 c.
Definition is_ascii_alphabetic (c : ascii) : bool := is_ascii_uppercase c || is_ascii_lowercase c.
Definition is_ascii_alphanumeric (c : ascii) : bool := is_ascii_alphabetic c || is_ascii_digit c.

Definition to_lower (c : ascii) : ascii := if is_ascii_uppercase c then chr (byte c + 32) else c.
Definition to_upper (c : ascii) : ascii := if is_ascii_lowercase c then chr (byte c - 32) else c.
Definition to_ascii_lowercase (s : str) : str := map to_lower s.
Definition to_ascii_uppercase (s : str) : str := map to_upper s.

Definition CR : ascii := "013"%char.
Definition LF : ascii := "010"%char.
Definition CRLF : str := [CR; LF].
Definition HT : ascii := "009"%char.
Definition SP : ascii := " "%char.
Definition NUL : ascii := "000"%char.

(** ** Searching and splitting *)

Definition eqc (a b : ascii) : bool := bool_decide (a = b).
Definition eqs (a b : str) : bool := bool_decide (a = b).

Fixpoint starts_with (p s : str) : bool :=
  match p, s with
  | [], _ => true
  | a :: p', b :: s' => eqc a b && starts_with p' s'
  | _ :: _, [] => false
  end.

Definition is_empty (s : str) : bool := match s with [] => true | _ => false end.

Definition ends_with (p s : str) : bool := starts_with (rev p) (rev s).

(** [strip_prefix(p)]. *)
Definition strip_prefix (p s : str) : option str :=
  if starts_with p s then Some (drop (length p) s) else None.

(** [s.contains(p)] for a string pattern. *)
Fixpoint contains (p s : str) : bool :=
  starts_with p s || match s with [] => false | _ :: s' => contains p s' end.

(** [s.split(c)] for a char pattern, collected: never empty. *)
Fixpoint split_char (c : ascii) (s : str) : list str :=
  match s with
  | [] => [[]]
  | a :: s' =>
      if eqc a c then [] :: split_char c s'
      else match split_char c s' with
           | l :: ls => (a :: l) :: ls
           | [] => [[a]]
           end
  end.

(** [s.split("\r\n")], collected. *)
Fixpoint split_crlf (s : str) : list str :=
  match s with
  | [] => [[]]
  | a :: s' =>
      match s' with
      | b :: s'' =>
          if eqc a CR && eqc b LF then [] :: split_crlf s''
          else match split_crlf s' with
               | l :: ls => (a :: l) :: ls
               | [] => [[a]]
               end
      | [] => [[a]]
      end
  end.

(** [s.split_once(c)]. *)
Fixpoint split_once (c : ascii) (s : str) : option (str * str) :=
  match s with
  | [] => None
  | a :: s' => if eqc a c then Some ([], s')
               else match split_once c s' with
                    | Some (l, r) => Some (a :: l, r)
                    | None => None
                    end
  end.

(** Concatenation of strings with a separator ([join]). *)
Fixpoint join (sep : str) (ls : list str) : str :=
  match ls with
  | [] => []
  | [l] => l
  | l :: ls' => l ++ sep ++ join sep ls'
  end.

(** [trim_start_matches] and [trim_matches] for a character class. *)
Fixpoint trim_start (p : ascii -> bool) (s : str) : str :=
  match s with
  | a :: s' => if p a then trim_start p s' else s
  | [] => []
  end.
Definition trim_end (p : ascii -> bool) (s : str) : str := rev (trim_start p (rev s)).
Definition trim_matches (p : ascii -> bool) (s : str) : str := trim_end p (trim_start p s).

(** [s.trim_end_matches("\r\n\r\n")]: every trailing occurrence is removed. *)
Fixpoint strip_lfcr_twice (s : str) : str :=
  match s with
  | a :: b :: c :: d :: s' =>
      if eqc a LF && eqc b CR && eqc c LF && eqc d CR then strip_lfcr_twice s' else s
  | _ => s
  end.
Definition trim_end_blank (s : str) : str := rev (strip_lfcr_twice (rev s)).

(** Lexicographic comparison of strings, by byte value. *)
Fixpoint str_ltb (a b : str) : bool :=
  match a, b with
  | [], [] => false
  | [], _ :: _ => true
  | _ :: _, [] => false
  | x :: a', y :: b' => (byte x <? byte y) || ((byte x =? byte y) && str_ltb a' b')
  end.
Definition str_leb (a b : str) : bool := negb (str_ltb b a).

(** ** Numbers *)

(** [char::to_digit(radix)]. *)
Definition digit_val (radix : Z) (c : ascii) : option Z :=
  let v := if is_ascii_digit c then byte c - 48
           else if is_ascii_uppercase c then byte c - 55
           else if is_ascii_lowercase c then byte c - 87
           else radix in
  if v <? radix then Some v else None.

Fixpoint digits_val (radix : Z) (acc : Z) (s : str) : option Z :=
  match s with
  | [] => Some acc
  | c :: s' => match digit_val radix c with
               | Some d => digits_val radix (acc * radix + d) s'
               | None => None
               end
  end.

(** [uN::from_str_radix(s, radix)] with [max = 2^N - 1], errors dropped: a
    leading plus sign is accepted, the digits must be there and fit. *)
Definition from_str_radix (max radix : Z) (s : str) : option Z :=
  let body := match s with
              | c :: s' => if eqc c "+"%char then s' else s
              | [] => []
              end in
  match body with
  | [] => None
  | _ => match digits_val radix 0 body with
         | Some v => if v <=? max then Some v else None
         | None => None
         end
  end.

(** [s.parse::<uN>()]. *)
Definition parse_uint (max : Z) (s : str) : option Z := from_str_radix max 10 s.

(** [s.parse::<iN>()]: a leading minus sign is accepted too. *)
Definition parse_int (min max : Z) (s : str) : option Z :=
  match s with
  | c :: s' =>
      if eqc c "-"%char then
        match s' with
        | [] => None
        | _ => match digits_val 10 0 s' with
               | Some v => if min <=? - v then Some (- v) else None
               | None => None
               end
        end
      else from_str_radix max 10 s
  | [] => None
  end.

Definition digit_chr (d : Z) : ascii := if d <? 10 then chr (48 + d) else chr (87 + d).

Fixpoint digits (fuel : nat) (radix n : Z) (acc : str) : str :=
  match fuel with
  | O => acc
  | S fuel' =>
      let acc' := digit_chr (n mod radix) :: acc in
      if n <? radix then acc' else digits fuel' radix (n / radix) acc'
  end.

(** [{}], [{:x}] and [{:o}] of a non-negative integer. *)
Definition show_radix (radix n : Z) : str := digits (S (Z.to_nat (Z.log2 n))) radix n [].
Definition show (n : Z) : str := show_radix 10 n.
Definition show_hex (n : Z) : str := show_radix 16 n.
Definition show_oct (n : Z) : str := show_radix 8 n.
(** [{}] of a signed integer. *)
Definition show_int (n : Z) : str := if n <? 0 then "-"%char :: show (- n) else show n.

(** [{:02x}] of a byte. *)
Definition hex2 (c : ascii) : str := [digit_chr (byte c / 16); digit_chr (byte c mod 16)].

(** ** UTF-8 *)

Definition is_cont (c : ascii) : bool := in_range 128 191 c.

(** The bytes allowed after a leading byte of a 3- or 4-byte sequence. *)
Definition second_ok (b0 b1 : ascii) : bool :=
  let z := byte b0 in
  if z =? 224 then in_range 160 191 b1
  else if z =? 237 then in_range 128 159 b1
  else if z =? 240 then in_range 144 191 b1
  else if z =? 244 then in_range 128 143 b1
  else is_cont b1.

(** Width of the sequence a byte starts, 0 if it starts none. *)
Definition utf8_width (b0 : ascii) : nat :=
  if in_range 0 127 b0 then 1%nat
  else if in_range 194 223 b0 then 2%nat
  else if in_range 224 239 b0 then 3%nat
  else if in_range 240 244 b0 then 4%nat
  else 0%nat.

(** The first chunk of a non-empty string: whether it is a valid sequence, and
    its length; an invalid chunk is a maximal prefix of a valid sequence, at
    least one byte. *)
Definition utf8_chunk (b0 : ascii) (s : str) : bool * nat :=
  match utf8_width b0, s with
  | 1%nat, _ => (true, 1%nat)
  | 2%nat, b1 :: _ => if is_cont b1 then (true, 2%nat) else (false, 1%nat)
  | 3%nat, b1 :: s1 =>
      if second_ok b0 b1 then
        match s1 with
        | b2 :: _ => if is_cont b2 then (true, 3%nat) else (false, 2%nat)
        | [] => (false, 2%nat)
        end
      else (false, 1%nat)
  | 4%nat, b1 :: s1 =>
      if second_ok b0 b1 then
        match s1 with
        | b2 :: s2 =>
            if is_cont b2 then
              match s2 with
              | b3 :: _ => if is_cont b3 then (true, 4%nat) else (false, 3%nat)
              | [] => (false, 3%nat)
              end
            else (false, 2%nat)
        | [] => (false, 2%nat)
        end
      else (false, 1%nat)
  | _, _ => (false, 1%nat)
  end.

(** U+FFFD, the replacement character. *)
Definition REPLACEMENT : str := ["239"%char; "191"%char; "189"%char].

Fixpoint utf8_loop (fuel : nat) (s : str) : str * bool :=
  match fuel with
  | O => ([], true)
  | S fuel' =>
      match s with
      | [] => ([], true)
      | b0 :: s' =>
          let '(ok, n) := utf8_chunk b0 s' in
          let '(out, all_ok) := utf8_loop fuel' (drop n s) in
          ((if ok then take n s else REPLACEMENT) ++ out, ok && all_ok)
      end
  end.

(** [String::from_utf8_lossy(s).into_owned()]; every chunk is at least one byte,
    so [length s] iterations are enough. *)
Definition from_utf8_lossy (s : str) : str := (utf8_loop (length s) s).1.
(** Whether [std::str::from_utf8(s)] succeeds. *)
Definition utf8_valid (s : str) : bool := (utf8_loop (length s) s).2.
Definition from_utf8 (s : str) : option str := if utf8_valid s then Some s else None.

(** ** Facts about bytes *)

Lemma byte_range c : 0 <= byte c < 256.
Proof. unfold byte. pose proof (N_ascii_bounded c). lia. Qed.

Lemma chr_byte c : chr (byte c) = c.
Proof.
  unfold chr. rewrite Z.mod_small by apply byte_range.
  unfold byte. rewrite N2Z.id. apply ascii_N_embedding.
Qed.

Lemma byte_chr z : 0 <= z < 256 -> byte (chr z) = z.
Proof.
  intros. unfold byte, chr. rewrite Z.mod_small by done.
  rewrite N_ascii_embedding; lia.
Qed.

#[export] Instance byte_inj : Inj (=) (=) byte.
Proof. intros a b H. by rewrite <- (chr_byte a), H, chr_byte. Qed.

(** A decidable property of bytes is checked on the 256 of them. *)
Definition all_bytes : list ascii := map chr (seqZ 0 256).

Lemma elem_of_all_bytes c : c ∈ all_bytes.
Proof.
  unfold all_bytes. apply list_elem_of_fmap. exists (byte c). rewrite chr_byte. split; [done|].
  apply elem_of_seqZ. pose proof (byte_range c). lia.
Qed.

Lemma all_bytes_spec (P : ascii -> bool) : forallb P all_bytes = true -> forall c, P c = true.
Proof.
  intros H c. rewrite forallb_forall in H. apply H, list_elem_of_In, elem_of_all_bytes.
Qed.

(** Proves [forall c, P c] for an equation between executable terms in [c] under
    executable hypotheses. *)
Ltac by_bytes :=
  intros; cbv beta in *; repeat match goal with
  | H : ?x = _ |- _ =>
      lazymatch type of H with _ = _ :> bool => revert H | _ => fail end
  end;
  match goal with |- context [?c] => is_var c;
    lazymatch type of c with ascii => destruct c as [[] [] [] [] [] [] [] []] end end;
  vm_compute; intros; congruence.

Lemma eqc_true a b : eqc a b = true <-> a = b.
Proof. apply bool_decide_eq_true. Qed.
Lemma eqc_false a b : eqc a b = false <-> a <> b.
Proof. apply bool_decide_eq_false. Qed.
Lemma eqc_refl a : eqc a a = true.
Proof. by apply eqc_true. Qed.
Lemma eqs_true a b : eqs a b = true <-> a = b.
Proof. apply bool_decide_eq_true. Qed.
Lemma eqs_false a b : eqs a b = false <-> a <> b.
Proof. apply bool_decide_eq_false. Qed.
Lemma eqs_refl a : eqs a a = true.
Proof. by apply eqs_true. Qed.

Create Rewrite HintDb rust.
Create Rewrite HintDb rust_dec.
#[export] Hint Rewrite eqc_refl eqs_refl : rust.
#[export] Hint Rewrite eqc_true eqc_false eqs_true eqs_false : rust_dec.

(** ** Numbers: parsing undoes printing *)

Lemma digit_val_chr radix d : 0 <= d < radix -> radix <= 36 -> digit_val radix (digit_chr d) = Some d.
Proof.
  intros Hd Hr. assert (d ∈ seqZ 0 36) as Hin by (apply elem_of_seqZ; lia).
  assert (Hall : forallb (fun d => bool_decide (digit_val 36 (digit_chr d) = Some d)) (seqZ 0 36) = true)
    by (vm_compute; reflexivity).
  rewrite forallb_forall in Hall. apply list_elem_of_In, Hall, bool_decide_eq_true in Hin.
  revert Hin. unfold digit_val.
  repeat case_match; intros; simplify_eq; first [f_equal; lia | exfalso; lia].
Qed.

Lemma digits_spec fuel radix n acc :
  2 <= radix <= 36 -> 0 <= n -> Z.log2 n < Z.of_nat fuel ->
  digits_val radix 0 (digits fuel radix n acc) = digits_val radix n acc.
Proof.
  intros Hr. revert n acc. induction fuel as [|fuel IH]; intros n acc Hn Hf.
  { pose proof (Z.log2_nonneg n). lia. }
  cbn [digits]. destruct (Z.ltb_spec n radix).
  - rewrite Z.mod_small by lia. cbn [digits_val]. by rewrite digit_val_chr by lia.
  - assert (Z.log2 (n / radix) < Z.log2 n).
    { apply Z.le_lt_trans with (Z.log2 (n / 2)).
      - apply Z.log2_le_mono, Z.div_le_compat_l; lia.
      - rewrite <- Z.div2_div, Z.div2_spec, Z.log2_shiftr by lia.
        pose proof (Z.log2_pos n). lia. }
    rewrite IH by (try apply Z.div_pos; lia). cbn [digits_val].
    rewrite digit_val_chr by (try apply Z.mod_pos_bound; lia).
    f_equal. pose proof (Z.div_mod n radix). lia.
Qed.

Lemma digits_val_show radix n :
  2 <= radix <= 36 -> 0 <= n -> digits_val radix 0 (show_radix radix n) = Some n.
Proof.
  intros. unfold show_radix. rewrite digits_spec; [done|lia|lia|].
  pose proof (Z.log2_nonneg n). lia.
Qed.

Lemma digits_forall (P : ascii -> Prop) fuel radix n acc :
  0 < radix -> (forall d, 0 <= d < radix -> P (digit_chr d)) -> 0 <= n ->
  Forall P acc -> Forall P (digits fuel radix n acc).
Proof.
  intros Hr HP. revert n acc. induction fuel as [|fuel IH]; intros n acc Hn Hacc; [done|].
  cbn [digits]. assert (Forall P (digit_chr (n mod radix) :: acc))
    by (constructor; [apply HP, Z.mod_pos_bound; lia|done]).
  case_match; [done|]. apply IH; [apply Z.div_pos; lia|done].
Qed.

Lemma digits_nonempty fuel radix n acc : acc <> [] -> digits fuel radix n acc <> [].
Proof.
  revert n acc. induction fuel as [|fuel IH]; intros n acc Hacc; [done|].
  cbn [digits]. case_match; [done|]. by apply IH.
Qed.

Lemma show_radix_nonempty radix n : show_radix radix n <> [].
Proof. unfold show_radix. cbn [digits]. case_match; [done|]. by apply digits_nonempty. Qed.

Lemma show_digits n : 0 <= n -> Forall (fun c => is_ascii_digit c = true) (show n).
Proof.
  intros. apply digits_forall; [lia| |done|done]. intros d Hd.
  unfold digit_chr. rewrite (proj2 (Z.ltb_lt d 10)) by lia.
  unfold is_ascii_digit, in_range. rewrite byte_chr by lia. lia.
Qed.

Lemma digit_not_plus c : is_ascii_digit c = true -> eqc c "+"%char = false.
Proof. by_bytes. Qed.

(** [parse] undoes [to_string]. *)
Lemma parse_show max n : 0 <= n <= max -> parse_uint max (show n) = Some n.
Proof.
  intros Hn. unfold parse_uint, from_str_radix.
  pose proof (show_digits n ltac:(lia)) as Hd. pose proof (show_radix_nonempty 10 n) as Hne.
  pose proof (digits_val_show 10 n ltac:(lia) ltac:(lia)) as Hv. fold (show n) in *.
  destruct (show n) as [|c s]; [done|]. apply Forall_cons in Hd as [Hc _].
  rewrite (digit_not_plus _ Hc). rewrite Hv.
  by rewrite (proj2 (Z.leb_le _ _)) by lia.
Qed.

Lemma show_inj n m : 0 <= n -> 0 <= m -> show n = show m -> n = m.
Proof.
  intros Hn Hm H. unfold show in H.
  pose proof (digits_val_show 10 n ltac:(lia) Hn) as H1.
  pose proof (digits_val_show 10 m ltac:(lia) Hm) as H2.
  rewrite H in H1. congruence.
Qed.
