(* ===== verification/StrFacts.v ===== *)
(** * Lemmas about the string functions of RustStd

    Splitting and joining, trimming, prefixes, case folding and UTF-8. *)

From S2P Require Import Prelude RustStd.

(** A boolean test on every byte, as a proposition. *)
Lemma forallb_Forall {A} (p : A -> bool) (s : list A) : forallb p s = true <-> Forall (fun c => p c = true) s.
Proof. rewrite forallb_forall, List.Forall_forall. done. Qed.

Lemma existsb_false {A} (p : A -> bool) (s : list A) : existsb p s = false <-> Forall (fun c => p c = false) s.
Proof.
  induction s as [|c s IH]; simpl; [by split|].
  rewrite orb_false_iff, IH, Forall_cons. done.
Qed.

Lemma Forall_notin {A} (P : A -> Prop) (c : A) (s : list A) : Forall P s -> ~ P c -> c ∉ s.
Proof. intros Hs Hc Hin. rewrite Forall_forall in Hs. eauto. Qed.

Lemma is_empty_true s : is_empty s = true <-> s = [].
Proof. by destruct s. Qed.
Lemma is_empty_false s : is_empty s = false <-> s <> [].
Proof. by destruct s. Qed.

(** ** Prefixes *)

Lemma starts_with_app p s : starts_with p (p ++ s) = true.
Proof. induction p as [|a p IH]; simpl; [done|]. by rewrite eqc_refl. Qed.

Lemma starts_with_true p s : starts_with p s = true <-> exists s', s = p ++ s'.
Proof.
  split; [|intros [s' ->]; apply starts_with_app].
  revert s. induction p as [|a p IH]; intros [|b s]; simpl; intros H; try done; eauto.
  apply andb_prop in H as [Ha H]. apply eqc_true in Ha as ->.
  destruct (IH _ H) as [s' ->]. by exists s'.
Qed.

Lemma ends_with_true p s : ends_with p s = true <-> exists s', s = s' ++ p.
Proof.
  unfold ends_with. rewrite starts_with_true. split; intros [s' H].
  - exists (rev s'). by rewrite <- (rev_involutive s), H, rev_app_distr, rev_involutive.
  - exists (rev s'). by rewrite H, rev_app_distr.
Qed.

Lemma ends_with_app p s : ends_with p (s ++ p) = true.
Proof. apply ends_with_true. eauto. Qed.

Lemma ends_with_snoc p s c d : ends_with (p ++ [c]) (s ++ [d]) = eqc c d && ends_with p s.
Proof. unfold ends_with. by rewrite !rev_app_distr. Qed.

(** ** Splitting *)

Lemma split_once_Some c s l r : split_once c s = Some (l, r) <-> s = l ++ c :: r /\ c ∉ l.
Proof.
  revert l r. induction s as [|a s IH]; intros l r; simpl.
  { split; [done|]. intros [H _]. by destruct l. }
  destruct (eqc a c) eqn:Ha.
  - apply eqc_true in Ha as ->. split.
    + intros [= <- <-]. split; [done|set_solver].
    + intros [H Hni]. destruct l as [|b l]; simplify_eq/=; [done|set_solver].
  - apply eqc_false in Ha. split.
    + destruct (split_once c s) as [[l' r']|] eqn:Hs; intros; simplify_eq.
      destruct (proj1 (IH l' r) eq_refl) as [-> Hni]. split; [done|set_solver].
    + intros [H Hni]. destruct l as [|b l]; simplify_eq/=.
      rewrite (proj2 (IH l r)); [done|]. split; [done|set_solver].
Qed.

Lemma split_once_None c s : split_once c s = None <-> c ∉ s.
Proof.
  induction s as [|a s IH]; simpl; [set_solver|].
  destruct (eqc a c) eqn:Ha.
  - apply eqc_true in Ha as ->. set_solver.
  - apply eqc_false in Ha. destruct (split_once c s) as [[]|]; set_solver.
Qed.

Lemma split_char_notin c s : c ∉ s -> split_char c s = [s].
Proof.
  induction s as [|a s IH]; simpl; [done|]. intros Hni.
  rewrite (proj2 (eqc_false _ _)) by set_solver. rewrite IH by set_solver. done.
Qed.

Lemma split_char_app c l r : c ∉ l -> split_char c (l ++ c :: r) = l :: split_char c r.
Proof.
  induction l as [|a l IH]; simpl; intros Hni.
  - by rewrite eqc_refl.
  - rewrite (proj2 (eqc_false _ _)) by set_solver. rewrite IH by set_solver. done.
Qed.

Lemma split_char_cons c s : exists l ls, split_char c s = l :: ls.
Proof.
  destruct s as [|a s]; simpl; [eauto|]. case_match; [eauto|]. case_match; eauto.
Qed.

Lemma join_cons sep l ls : ls <> [] -> join sep (l :: ls) = l ++ sep ++ join sep ls.
Proof. by destruct ls. Qed.

Lemma join_split_char c s : join [c] (split_char c s) = s.
Proof.
  induction s as [|a s IH]; simpl; [done|].
  destruct (split_char_cons c s) as (l & ls & E). destruct (eqc a c) eqn:Ha.
  - apply eqc_true in Ha as ->. rewrite E in *. simpl. simpl in IH. by rewrite IH.
  - rewrite E in *. destruct ls; simpl in *; by rewrite <- IH.
Qed.

Lemma split_char_no_sep c s : Forall (fun l => c ∉ l) (split_char c s).
Proof.
  induction s as [|a s IH]; simpl; [repeat constructor; set_solver|].
  destruct (eqc a c) eqn:Ha; [constructor; [set_solver|done]|].
  apply eqc_false in Ha. destruct (split_char_cons c s) as (l & ls & E). rewrite E in *.
  apply Forall_cons in IH as [Hl IH]. constructor; [set_solver|done].
Qed.

(** Joining fields without the separator is undone by splitting. *)
Lemma split_char_join c ls :
  ls <> [] -> Forall (fun l => c ∉ l) ls -> split_char c (join [c] ls) = ls.
Proof.
  intros Hne Hf. induction Hf as [|l ls Hl Hls IH]; [done|].
  destruct ls as [|l' ls]; [by apply split_char_notin|].
  rewrite join_cons by done.
  change ([c] ++ join [c] (l' :: ls)) with (c :: join [c] (l' :: ls)).
  rewrite split_char_app by done. by rewrite IH.
Qed.

Lemma split_crlf_nolf l : LF ∉ l -> split_crlf l = [l].
Proof.
  induction l as [|a l IH]; [done|]. intros Hni. destruct l as [|b l]; [done|].
  change (split_crlf (a :: b :: l)) with
    (if eqc a CR && eqc b LF then [] :: split_crlf l
     else match split_crlf (b :: l) with l' :: ls => (a :: l') :: ls | [] => [[a]] end).
  rewrite (proj2 (eqc_false b LF)) by set_solver. rewrite andb_false_r.
  rewrite IH by set_solver. done.
Qed.

Lemma split_crlf_app l r : LF ∉ l -> split_crlf (l ++ CRLF ++ r) = l :: split_crlf r.
Proof.
  induction l as [|a l IH]; intros Hni; [done|].
  assert (exists b t, l ++ CRLF ++ r = b :: t /\ b <> LF) as (b & t & E & Hb).
  { destruct l as [|b l]; simpl; [by exists CR, (LF :: r)|]. eexists _, _. split; [done|set_solver]. }
  change ((a :: l) ++ CRLF ++ r) with (a :: (l ++ CRLF ++ r)).
  specialize (IH ltac:(set_solver)). rewrite E in *.
  change (split_crlf (a :: b :: t)) with
    (if eqc a CR && eqc b LF then [] :: split_crlf t
     else match split_crlf (b :: t) with l' :: ls => (a :: l') :: ls | [] => [[a]] end).
  rewrite (proj2 (eqc_false b LF)) by done. rewrite andb_false_r, IH. done.
Qed.

(** The lines of a head made of lines without line feeds. *)
Lemma split_crlf_join ls :
  ls <> [] -> Forall (fun l => LF ∉ l) ls -> split_crlf (join CRLF ls) = ls.
Proof.
  intros Hne Hf. induction Hf as [|l ls Hl Hls IH]; [done|].
  destruct ls as [|l' ls]; [by apply split_crlf_nolf|].
  rewrite join_cons by done. rewrite split_crlf_app by done. by rewrite IH.
Qed.

Lemma split_crlf_ind (P : str -> Prop) :
  P [] -> (forall a, P [a]) ->
  (forall a b s, P s -> P (b :: s) -> P (a :: b :: s)) -> forall s, P s.
Proof.
  intros H0 H1 H2 s. cut (P s /\ forall a, P (a :: s)); [by intros []|].
  induction s as [|b s [IH1 IH2]]; [split; auto|]. split; [apply IH2|]. intros a. by apply H2.
Qed.

Lemma split_crlf_cons s : exists l ls, split_crlf s = l :: ls.
Proof.
  destruct s as [|a [|b s]]; simpl; eauto. repeat case_match; eauto.
Qed.

Lemma join_split_crlf s : join CRLF (split_crlf s) = s.
Proof.
  induction s as [|a|a b s IH1 IH2] using split_crlf_ind; [done..|].
  change (split_crlf (a :: b :: s)) with
    (if eqc a CR && eqc b LF then [] :: split_crlf s
     else match split_crlf (b :: s) with l' :: ls => (a :: l') :: ls | [] => [[a]] end).
  destruct (eqc a CR && eqc b LF) eqn:E.
  - apply andb_prop in E as [->%eqc_true ->%eqc_true].
    destruct (split_crlf_cons s) as (l & ls & Hs). rewrite Hs in *.
    rewrite join_cons by done. by rewrite IH1.
  - destruct (split_crlf_cons (b :: s)) as (l & ls & Hs). rewrite Hs in *.
    destruct ls; simpl in *; by rewrite IH2.
Qed.

(** Bytes of the pieces are bytes of the whole. *)
Lemma join_Forall (P : ascii -> Prop) sep ls : Forall P (join sep ls) -> Forall (Forall P) ls.
Proof.
  induction ls as [|l ls IH]; [done|]. destruct ls as [|l' ls].
  - simpl. intros. by repeat constructor.
  - rewrite join_cons by done. rewrite !Forall_app. intros (? & ? & ?). constructor; auto.
Qed.

Lemma Forall_join (P : ascii -> Prop) sep ls : Forall P sep -> Forall (Forall P) ls -> Forall P (join sep ls).
Proof.
  intros Hs H. induction H as [|l ls Hl Hls IH]; [constructor|].
  destruct ls; [done|]. rewrite join_cons by done. by rewrite !Forall_app.
Qed.

(** ** Trimming *)

Lemma trim_start_suffix p s : exists l, s = l ++ trim_start p s /\ Forall (fun c => p c = true) l.
Proof.
  induction s as [|a s (l & IH & Hl)]; simpl; [by exists []|].
  destruct (p a) eqn:Ha; [exists (a :: l)|exists []]; simpl; [split; [congruence|auto]|auto].
Qed.

Lemma trim_start_head p s c s' : trim_start p s = c :: s' -> p c = false.
Proof.
  induction s as [|a s IH]; simpl; [done|]. case_match; [done|]. intros; by simplify_eq.
Qed.

Lemma trim_start_id p s : match s with c :: _ => p c = false | [] => True end -> trim_start p s = s.
Proof. destruct s as [|c s]; simpl; [done|]. by intros ->. Qed.

Lemma trim_start_Forall p (P : ascii -> Prop) s : Forall P s -> Forall P (trim_start p s).
Proof.
  intros H. destruct (trim_start_suffix p s) as (l & E & _).
  rewrite E, Forall_app in H. tauto.
Qed.

Lemma trim_end_Forall p (P : ascii -> Prop) s : Forall P s -> Forall P (trim_end p s).
Proof. intros. apply Forall_rev, trim_start_Forall. by apply Forall_rev. Qed.

Lemma trim_matches_Forall p (P : ascii -> Prop) s : Forall P s -> Forall P (trim_matches p s).
Proof. intros. by apply trim_end_Forall, trim_start_Forall. Qed.

(** A trimmed string starts and ends outside the class. *)
Definition trimmed (p : ascii -> bool) (s : str) : Prop :=
  match s with c :: _ => p c = false | [] => True end
  /\ match rev s with c :: _ => p c = false | [] => True end.

Lemma trim_matches_id p s : trimmed p s -> trim_matches p s = s.
Proof.
  intros [H1 H2]. unfold trim_matches, trim_end.
  rewrite (trim_start_id p s) by done. rewrite trim_start_id by done. apply rev_involutive.
Qed.

Lemma trim_matches_trimmed p s : trimmed p (trim_matches p s).
Proof.
  unfold trim_matches, trim_end, trimmed. rewrite rev_involutive.
  destruct (trim_start p (rev (trim_start p s))) as [|c t] eqn:E; [done|].
  split; [|by eapply trim_start_head].
  destruct (trim_start_suffix p (rev (trim_start p s))) as (l & El & _). rewrite E in El.
  destruct (rev (c :: t)) as [|d u] eqn:Er; [done|].
  assert (trim_start p s = d :: (u ++ rev l)) as Ht.
  { by rewrite <- (rev_involutive (trim_start p s)), El, rev_app_distr, Er. }
  by eapply trim_start_head.
Qed.

Lemma trim_matches_surround p l s r :
  Forall (fun c => p c = true) l -> Forall (fun c => p c = true) r -> trimmed p s ->
  trim_matches p (l ++ s ++ r) = s.
Proof.
  intros Hl Hr [H1 H2].
  assert (Hstart : forall t, trim_start p (l ++ t) = trim_start p t).
  { clear -Hl. intros t. induction Hl as [|c l Hc Hl IH]; [done|]. simpl. by rewrite Hc. }
  assert (Hrev : forall t, trim_start p (rev r ++ t) = trim_start p t).
  { clear -Hr. apply Forall_rev in Hr. intros t. induction Hr as [|c r' Hc Hr' IH]; [done|].
    simpl. by rewrite Hc. }
  unfold trim_matches, trim_end. rewrite Hstart. destruct s as [|c s].
  - simpl. assert (trim_start p r = []) as ->; [|done].
    clear -Hr. induction Hr as [|c r Hc Hr IH]; [done|]. simpl. by rewrite Hc.
  - rewrite (trim_start_id p ((c :: s) ++ r)) by done. rewrite rev_app_distr, Hrev.
    rewrite trim_start_id by done. apply rev_involutive.
Qed.

(** The blank line that ends a head is removed, once. *)
Lemma trim_end_blank_app s c :
  c <> LF -> trim_end_blank (s ++ [c] ++ CRLF ++ CRLF) = s ++ [c].
Proof.
  intros Hc. unfold trim_end_blank. rewrite !rev_app_distr. simpl app.
  change (strip_lfcr_twice (LF :: CR :: LF :: CR :: c :: rev s)) with
    (if eqc LF LF && eqc CR CR && eqc LF LF && eqc CR CR
     then strip_lfcr_twice (c :: rev s) else LF :: CR :: LF :: CR :: c :: rev s).
  rewrite !eqc_refl. cbn [andb].
  assert (strip_lfcr_twice (c :: rev s) = c :: rev s) as ->.
  { destruct (rev s) as [|x [|y [|z t]]]; try done. simpl.
    by rewrite (proj2 (eqc_false c LF)) by done. }
  simpl. by rewrite rev_involutive.
Qed.

(** ** Case folding *)

Lemma to_lower_idem c : to_lower (to_lower c) = to_lower c.
Proof. by_bytes. Qed.
Lemma to_lower_not_upper c : is_ascii_uppercase (to_lower c) = false.
Proof. by_bytes. Qed.
Lemma to_lower_id c : is_ascii_uppercase c = false -> to_lower c = c.
Proof. unfold to_lower. by intros ->. Qed.
Lemma to_upper_alphabetic c : is_ascii_alphabetic c = true -> is_ascii_uppercase (to_upper c) = true.
Proof. by_bytes. Qed.
Lemma to_upper_id c : is_ascii_lowercase c = false -> to_upper c = c.
Proof. unfold to_upper. by intros ->. Qed.
Lemma uppercase_not_lowercase c : is_ascii_uppercase c = true -> is_ascii_lowercase c = false.
Proof. by_bytes. Qed.

Lemma to_ascii_lowercase_idem s : to_ascii_lowercase (to_ascii_lowercase s) = to_ascii_lowercase s.
Proof. unfold to_ascii_lowercase. rewrite map_map. apply map_ext, to_lower_idem. Qed.

Lemma to_ascii_uppercase_id s :
  Forall (fun c => is_ascii_uppercase c = true) s -> to_ascii_uppercase s = s.
Proof.
  induction 1 as [|c s Hc Hs IH]; [done|]. simpl. rewrite IH.
  by rewrite to_upper_id by by apply uppercase_not_lowercase.
Qed.

(** ** UTF-8 *)

Definition ascii_only (s : str) : Prop := Forall (fun c => (128 <=? byte c) = false) s.

Lemma utf8_chunk_ascii b s : (128 <=? byte b) = false -> utf8_chunk b s = (true, 1%nat).
Proof.
  intros Hb. unfold utf8_chunk. assert (utf8_width b = 1%nat) as ->; [|done].
  revert Hb. by_bytes.
Qed.

Lemma utf8_loop_ascii fuel s : (length s <= fuel)%nat -> ascii_only s -> utf8_loop fuel s = (s, true).
Proof.
  intros Hf Hs. revert fuel Hf. induction Hs as [|b s Hb Hs IH]; intros [|fuel] Hf; simpl in *; try done; [lia|].
  rewrite utf8_chunk_ascii by done. simpl. rewrite skipn_O, IH by lia. done.
Qed.

Lemma from_utf8_ascii s : ascii_only s -> from_utf8 s = Some s.
Proof. intros. unfold from_utf8, utf8_valid. by rewrite utf8_loop_ascii. Qed.

Lemma from_utf8_lossy_ascii s : ascii_only s -> from_utf8_lossy s = s.
Proof. intros. unfold from_utf8_lossy. by rewrite utf8_loop_ascii. Qed.

Lemma utf8_chunk_len b s ok n : utf8_chunk b s = (ok, n) -> (1 <= n <= S (length s))%nat.
Proof.
  unfold utf8_chunk. intros H. repeat case_match; simplify_eq; simpl; lia.
Qed.

(** Decoding changes nothing in a valid string. *)
Lemma from_utf8_lossy_valid s : utf8_valid s = true -> from_utf8_lossy s = s.
Proof.
  unfold utf8_valid, from_utf8_lossy. generalize (Nat.le_refl (length s)).
  generalize (length s) at 2 3 4 as fuel. intros fuel. revert s.
  induction fuel as [|fuel IH]; intros [|b s] Hf; simpl in *; try done; [lia|].
  destruct (utf8_chunk b s) as [ok n] eqn:E. apply utf8_chunk_len in E.
  specialize (IH (drop n (b :: s))). rewrite length_drop in IH. simpl length in IH.
  destruct (utf8_loop fuel (drop n (b :: s))) as [out all_ok]. simpl in *.
  intros [-> ->]%andb_prop. rewrite IH by (done || lia). apply take_drop.
Qed.

Arguments starts_with : simpl never.
Arguments ends_with : simpl never.
Arguments contains : simpl never.
Arguments lit : simpl never.
Arguments split_char : simpl never.
Arguments split_crlf : simpl never.
Arguments split_once : simpl never.
Arguments show_radix : simpl never.

(** ** Numbers read from text *)

Lemma digit_val_nonneg radix c d : 0 <= radix -> digit_val radix c = Some d -> 0 <= d.
Proof.
  intros Hr. unfold digit_val, is_ascii_digit, is_ascii_uppercase, is_ascii_lowercase, in_range.
  repeat case_match; intros; simplify_eq; lia.
Qed.

Lemma digits_val_nonneg radix acc s v : 0 <= radix -> 0 <= acc -> digits_val radix acc s = Some v -> 0 <= v.
Proof.
  intros Hr. revert acc. induction s as [|c s IH]; simpl; intros acc Ha H; [by simplify_eq|].
  destruct (digit_val radix c) as [d|] eqn:Hd; [|done]. apply digit_val_nonneg in Hd; [|done].
  eapply IH; [|exact H]. nia.
Qed.

Lemma parse_uint_range max s v : parse_uint max s = Some v -> 0 <= v <= max.
Proof.
  unfold parse_uint, from_str_radix. intros H. repeat case_match; simplify_eq;
    (split; [eapply digits_val_nonneg; [| |eassumption]; lia|lia]).
Qed.
