(* ===== verification/Json.v ===== *)
(** * The interface to serde_json

    serde_json is a dependency whose code is not in the repository, so it is a
    parameter here: [Value] is its public enum, the class [SerdeJson] names the
    functions the program calls and [SerdeJsonLaws] states the documented
    behaviour the program relies on.  An instance at the end shows that the laws
    can hold, and lets the components be evaluated. *)

From Stdlib Require Import SpecFloat.
From S2P Require Import Prelude RustStd.

(** [serde_json::Value]; [N] is [serde_json::Number]. *)
#[universes(template)]
Inductive Value (N : Type) : Type :=
| VNull
| VBool (b : bool)
| VNumber (n : N)
| VString (s : str)
| VArray (items : list (Value N))
| VObject (fields : list (str * Value N)).
Arguments VNull {N}.
Arguments VBool {N} b.
Arguments VNumber {N} n.
Arguments VString {N} s.
Arguments VArray {N} items.
Arguments VObject {N} fields.

Class SerdeJson : Type := {
  Number : Type;
  (** [Number::from] of an integer the [json!] macro is given. *)
  number_of_int : Z -> Number;
  (** [from_slice::<Value>]; an error carries its message. *)
  from_slice : str -> result (Value Number) str;
  (** [to_vec(&value)], and [value.to_string()]. *)
  to_vec : Value Number -> str;
  get : Value Number -> str -> option (Value Number);
  as_str : Value Number -> option str;
  as_bool : Value Number -> option bool;
  as_u64 : Value Number -> option Z;
  as_i64 : Value Number -> option Z;
  as_f64 : Value Number -> option spec_float;
  as_object : Value Number -> option (list (str * Value Number));
}.

Section Macros.
Context {SJ : SerdeJson}.

(** The values the [json!] macro builds from Rust data. *)
Definition jint (z : Z) : Value Number := VNumber (number_of_int z).
Definition jopt {A} (f : A -> Value Number) (o : option A) : Value Number :=
  match o with Some a => f a | None => VNull end.
Definition jobj (fields : list (String.string * Value Number)) : Value Number :=
  VObject (map (fun '(k, v) => (lit k, v)) fields).
End Macros.

(** What serde_json documents of the functions above. *)
Class SerdeJsonLaws (SJ : SerdeJson) : Prop := {
  get_object : forall fields k v,
    NoDup fields.*1 -> (k, v) ∈ fields -> get (VObject fields) k = Some v;
  get_absent : forall fields k, k ∉ fields.*1 -> get (VObject fields) k = None;
  as_str_string : forall s, as_str (VString s) = Some s;
  as_str_other : forall v s, as_str v = Some s -> v = VString s;
  as_bool_bool : forall b, as_bool (VBool b) = Some b;
  as_bool_other : forall v b, as_bool v = Some b -> v = VBool b;
  as_u64_range : forall v n, as_u64 v = Some n -> in_u64 n;
  as_i64_range : forall v n, as_i64 v = Some n -> in_i64 n;
  as_object_object : forall fields, as_object (VObject fields) = Some fields;
  as_object_other : forall v fields, as_object v = Some fields -> v = VObject fields;
}.

(** ** A concrete instance: integer numbers, a writer, and a reader of nothing
    but the empty object.  It only witnesses that the laws are satisfiable and
    makes the components executable. *)
Module Sample.
Fixpoint assoc {A} (k : str) (l : list (str * A)) : option A :=
  match l with
  | [] => None
  | (k', v) :: l' => if eqs k k' then Some v else assoc k l'
  end.

Definition QUOTE : ascii := "034"%char.
Definition quote (s : str) : str := QUOTE :: s ++ [QUOTE].

Fixpoint write (v : Value Z) : str :=
  match v with
  | VNull => lit "null"
  | VBool b => if b then lit "true" else lit "false"
  | VNumber n => show_int n
  | VString s => quote s
  | VArray items => lit "[" ++ join (lit ",") (map write items) ++ lit "]"
  | VObject fields =>
      lit "{" ++ join (lit ",") (map (fun f => quote f.1 ++ lit ":" ++ write f.2) fields) ++ lit "}"
  end.

(** The functions around a reader [f]. *)
Definition reading (f : str -> result (Value Z) str) : SerdeJson := {|
  Number := Z;
  number_of_int := fun z => z;
  from_slice := f;
  to_vec := write;
  get := fun v k => match v with VObject fields => assoc k fields | _ => None end;
  as_str := fun v => match v with VString s => Some s | _ => None end;
  as_bool := fun v => match v with VBool b => Some b | _ => None end;
  as_u64 := fun v => match v with
                     | VNumber n => if (0 <=? n) && (n <=? u64_max) then Some n else None
                     | _ => None end;
  as_i64 := fun v => match v with
                     | VNumber n => if (i64_min <=? n) && (n <=? i64_max) then Some n else None
                     | _ => None end;
  as_f64 := fun v => match v with
                     | VNumber n => Some (binary_normalize 53 1024 n 0 false)
                     | _ => None end;
  as_object := fun v => match v with VObject fields => Some fields | _ => None end
|}.

#[export] Instance sample : SerdeJson :=
  reading (fun s => if eqs s (lit "{}") then Ok (VObject []) else Err (lit "not an object")).
End Sample.

Lemma assoc_elem {A} k (v : A) l :
  NoDup l.*1 -> (k, v) ∈ l -> Sample.assoc k l = Some v.
Proof.
  induction l as [|[k' v'] l IH]; simpl; intros Hnd Hin; [set_solver|].
  apply NoDup_cons in Hnd as [Hni Hnd]. unfold eqs. case_bool_decide as Hk.
  - subst k'. apply elem_of_cons in Hin as [Hin|Hin]; [congruence|].
    destruct Hni. apply (list_elem_of_fmap_2 fst l (k, v)) in Hin. done.
  - apply elem_of_cons in Hin as [Hin|Hin]; [congruence|auto].
Qed.

Lemma assoc_not_elem {A} k (l : list (str * A)) :
  k ∉ l.*1 -> Sample.assoc k l = None.
Proof.
  induction l as [|[k' v'] l IH]; simpl; intros Hni; [done|].
  unfold eqs. case_bool_decide; set_solver.
Qed.

#[export] Instance reading_laws f : SerdeJsonLaws (Sample.reading f).
Proof.
  split; simpl; intros; repeat case_match; simplify_eq; try done;
    eauto using assoc_elem, assoc_not_elem; unfold in_u64, in_i64; lia.
Qed.

#[export] Instance sample_laws : SerdeJsonLaws Sample.sample.
Proof. apply reading_laws. Qed.
