(* ===== verification/Net.v ===== *)
(** * Sockets as the program sees them

    The environment of one connection: what the peer's bytes look like to
    [BufReader<TcpStream>], when they arrive, and which writes to
    [BufWriter<TcpStream>] succeed.  The peer is arbitrary, so both are inputs of
    the model: a list of read events and a list of write outcomes. *)

From S2P Require Import Prelude RustStd.

(** One [read] of the socket: some bytes (none means end of stream) or an error,
    with the time, in milliseconds, at which the call returned. *)
Inductive rd_event : Type :=
| RData (t : Z) (s : str)
| RErr (t : Z) (e : io_error).

(** [BufReader<TcpStream>]: the bytes already prefetched ([reader.buffer()]), the
    socket's future, and the clock.  A socket with no event left is closed. *)
Record Reader : Type := {
  rd_buf : str;
  rd_events : list rd_event;
  rd_clock : Z;
}.

(** [reader.read(&mut buf[..max])], giving the bytes read.  The end of a stream is
    final: once a socket has reported it, every later read does. *)
Definition read (max : nat) : io Reader str := fun r =>
  match rd_buf r with
  | [] =>
      match rd_events r with
      | [] => (Ok [], r)
      | RData t s :: ev =>
          (Ok (take max s), {| rd_buf := drop max s; rd_events := if is_empty s then [] else ev;
                               rd_clock := Z.max (rd_clock r) t |})
      | RErr t e :: ev =>
          (Err e, {| rd_buf := []; rd_events := ev; rd_clock := Z.max (rd_clock r) t |})
      end
  | b => (Ok (take max b), {| rd_buf := drop max b; rd_events := rd_events r; rd_clock := rd_clock r |})
  end.

(** The bytes the peer sends before the stream ends, whatever errors come between. *)
Fixpoint events_bytes (ev : list rd_event) : str :=
  match ev with
  | RData _ (c :: s) :: ev' => (c :: s) ++ events_bytes ev'
  | RErr _ _ :: ev' => events_bytes ev'
  | _ => []
  end.
Definition rd_bytes (r : Reader) : str := rd_buf r ++ events_bytes (rd_events r).

(** Nothing is left: the socket has reported the end of the stream. *)
Definition at_end (r : Reader) : Prop := rd_buf r = [] /\ rd_events r = [].

(** A bound on the number of reads that return something. *)
Fixpoint events_size (ev : list rd_event) : nat :=
  match ev with
  | RData _ s :: ev' => (S (length s) + events_size ev')%nat
  | RErr _ _ :: ev' => S (events_size ev')
  | [] => 0%nat
  end.
Definition rd_size (r : Reader) : nat := (length (rd_buf r) + events_size (rd_events r))%nat.

(** The stream never fails: it is data until it ends. *)
Fixpoint events_clean (ev : list rd_event) : Prop :=
  match ev with
  | [] => True
  | RData _ s :: ev' => s <> [] /\ events_clean ev'
  | RErr _ _ :: _ => False
  end.

(** Every event arrives by time [t]. *)
Definition events_by (t : Z) (ev : list rd_event) : Prop :=
  Forall (fun e => match e with RData t' _ | RErr t' _ => t' <= t end) ev.

Definition eof_error (m : String.string) : io_error := error_new UnexpectedEof (lit m).
Definition fuel_error : io_error := error_new ModelFuel [].

(** [BufWriter<TcpStream>]: the bytes accepted so far, in order, and the outcome
    of the coming calls: [None] succeeds, [Some k] fails after [k] bytes.  Past
    the end of the list every call succeeds. *)
Record Writer : Type := {
  w_out : str;
  w_outcomes : list (option nat);
}.

Definition broken_pipe : io_error := error_new BrokenPipe (lit "Broken pipe").

Definition write_all (data : str) : io Writer unit := fun w =>
  match w_outcomes w with
  | [] => (Ok tt, {| w_out := w_out w ++ data; w_outcomes := [] |})
  | None :: rest => (Ok tt, {| w_out := w_out w ++ data; w_outcomes := rest |})
  | Some k :: rest => (Err broken_pipe, {| w_out := w_out w ++ take k data; w_outcomes := rest |})
  end.

(** [flush] writes nothing new, but can fail like a write. *)
Definition flush_writer : io Writer unit := write_all [].

(** ** Reading a stream *)

Lemma read_total max r : exists o r', read max r = (o, r').
Proof. destruct (read max r); eauto. Qed.

Lemma read_ok_bytes max r s r' :
  read max r = (Ok s, r') -> s <> [] -> rd_bytes r = s ++ rd_bytes r'.
Proof.
  unfold read, rd_bytes. destruct (rd_buf r) as [|b bs] eqn:Hb; intros H Hs.
  - destruct (rd_events r) as [|[t d|t e] ev] eqn:He; simplify_eq; simpl; try done.
    destruct d as [|c d]; [by rewrite take_nil in Hs|].
    rewrite app_assoc, take_drop. done.
  - simplify_eq. simpl rd_buf. by rewrite app_assoc, take_drop.
Qed.

Lemma read_err_bytes max r e r' : read max r = (Err e, r') -> rd_bytes r = rd_bytes r'.
Proof. unfold read, rd_bytes. intros H. repeat case_match; by simplify_eq/=. Qed.

(** A read of at least one byte that gives none has found the end. *)
Lemma read_end max r r' : (0 < max)%nat -> read max r = (Ok [], r') -> at_end r' /\ rd_bytes r = [].
Proof.
  intros Hm H. unfold read, rd_bytes, at_end in *. destruct max; [lia|].
  destruct r as [[|b bs] [|[t [|c d]|t e] ev] clock]; by simplify_eq/=.
Qed.

Lemma at_end_bytes r : at_end r -> rd_bytes r = [].
Proof. unfold at_end, rd_bytes. by intros [-> ->]. Qed.

Lemma read_ok_length max r s r' :
  read max r = (Ok s, r') -> (length s <= max)%nat.
Proof.
  unfold read. repeat case_match; intros; simplify_eq; rewrite ?length_take; simpl; lia.
Qed.

Lemma read_ok_size max r s r' :
  read max r = (Ok s, r') -> s <> [] -> (rd_size r' + length s <= rd_size r)%nat.
Proof.
  unfold read, rd_size. intros H Hs.
  destruct r as [[|b bs] [|[t [|c d]|t e] ev] clock]; cbn [rd_buf rd_events] in H; simplify_eq;
    cbn [rd_buf rd_events events_size is_empty]; rewrite ?take_nil in *; try done;
    rewrite ?length_take, ?length_drop; simpl length; lia.
Qed.

Lemma read_clean max r :
  (0 < max)%nat -> events_clean (rd_events r) ->
  exists s r', read max r = (Ok s, r') /\ events_clean (rd_events r')
    /\ (s = [] -> rd_bytes r = [] /\ r' = r)
    /\ (forall t, rd_clock r <= t -> events_by t (rd_events r) ->
          rd_clock r' <= t /\ events_by t (rd_events r')).
Proof.
  intros Hm Hc. unfold read, rd_bytes. destruct max; [lia|].
  destruct r as [[|b bs] [|[t [|c d]|t e] ev] clock]; simpl in *; try done; try (by destruct Hc);
    eexists _, _; split_and!; try done; try apply Hc.
  intros t' ? Hby. apply Forall_cons in Hby as [? ?]. simpl in *. split; [lia|done].
Qed.

(** ** Writing *)

Lemma write_all_ok data w w' :
  write_all data w = (Ok tt, w') -> w_out w' = w_out w ++ data.
Proof. unfold write_all. repeat case_match; intros; by simplify_eq. Qed.

Lemma write_all_prefix data w o w' :
  write_all data w = (o, w') -> exists k, w_out w' = w_out w ++ take k data.
Proof.
  unfold write_all. intros H. repeat case_match; simplify_eq; simpl.
  1,3: exists (length data); by rewrite firstn_all.
  eauto.
Qed.
