(* ===== verification/Wp.v ===== *)
(** * Reasoning about [io] code

    Weakest preconditions of the state-and-error monad of file Prelude: [wp m s Q]
    says that running [m] from [s] ends with a result and a state that satisfy
    [Q].  One lemma per combinator, and a tactic that steps through a program. *)

From S2P Require Import Prelude.

Definition wp {S A} (m : io S A) (s : S) (Q : result A io_error -> S -> Prop) : Prop :=
  Q (m s).1 (m s).2.

Section Wp.
Context {S : Type}.
Implicit Types s : S.

Lemma wp_mono {A} (m : io S A) s (P Q : result A io_error -> S -> Prop) :
  wp m s P -> (forall r s', P r s' -> Q r s') -> wp m s Q.
Proof. unfold wp. auto. Qed.

Lemma wp_conj {A} (m : io S A) s (P Q : result A io_error -> S -> Prop) :
  wp m s P -> wp m s Q -> wp m s (fun r s' => P r s' /\ Q r s').
Proof. unfold wp. auto. Qed.

Lemma wp_bind {A B} (m : io S A) (k : A -> io S B) s Q :
  wp m s (fun r s1 => match r with Ok a => wp (k a) s1 Q | Err e => Q (Err e) s1 end) ->
  wp (io_bind m k) s Q.
Proof. unfold wp, io_bind. by destruct (m s) as [[a|e] s1]. Qed.

Lemma wp_ret {A} (a : A) s (Q : result A io_error -> S -> Prop) : Q (Ok a) s -> wp (io_ret a) s Q.
Proof. done. Qed.
Lemma wp_fail {A} e s (Q : result A io_error -> S -> Prop) : Q (Err e) s -> wp (io_fail e) s Q.
Proof. done. Qed.
Lemma wp_get s Q : Q (Ok s) s -> wp io_get s Q.
Proof. done. Qed.
Lemma wp_gets {A} (f : S -> A) s Q : Q (Ok (f s)) s -> wp (io_gets f) s Q.
Proof. done. Qed.
Lemma wp_put s s' Q : Q (Ok tt) s' -> wp (io_put s') s Q.
Proof. done. Qed.
Lemma wp_modify (f : S -> S) s Q : Q (Ok tt) (f s) -> wp (io_modify f) s Q.
Proof. done. Qed.
Lemma wp_try {A} (m : io S A) s Q : wp m s (fun r s' => Q (Ok r) s') -> wp (io_try m) s Q.
Proof. done. Qed.
Lemma wp_ignore {A} (m : io S A) s Q : wp m s (fun _ s' => Q (Ok tt) s') -> wp (io_ignore m) s Q.
Proof. done. Qed.
Lemma wp_lift {A} (r : result A io_error) s (Q : result A io_error -> S -> Prop) : Q r s -> wp (io_lift r) s Q.
Proof. done. Qed.
Lemma wp_finally {A} (m : io S A) (clean : io S unit) s Q :
  wp m s (fun r s1 => wp clean s1 (fun _ s2 => Q r s2)) -> wp (io_finally m clean) s Q.
Proof. unfold wp, io_finally. by destruct (m s). Qed.
Lemma wp_on_error {A} (m : io S A) (clean : io S unit) s Q :
  wp m s (fun r s1 => match r with Ok _ => Q r s1 | Err _ => wp clean s1 (fun _ s2 => Q r s2) end) ->
  wp (io_on_error m clean) s Q.
Proof. unfold wp, io_on_error. by destruct (m s) as [[a|e] s1]. Qed.
Lemma wp_lens {T A} (get : S -> T) (put : T -> S -> S) (m : io T A) s Q :
  wp m (get s) (fun r t => Q r (put t s)) -> wp (io_lens get put m) s Q.
Proof. unfold wp, io_lens. by destruct (m (get s)). Qed.

Lemma wp_ex {A} (m : io S A) s Q : wp m s Q -> exists r s', m s = (r, s') /\ Q r s'.
Proof. unfold wp. destruct (m s). eauto. Qed.

Lemma wp_run {A} (m : io S A) s r s' Q : m s = (r, s') -> wp m s Q -> Q r s'.
Proof. unfold wp. by intros ->. Qed.

Lemma wp_intro {A} (m : io S A) s Q : (forall r s', m s = (r, s') -> Q r s') -> wp m s Q.
Proof. unfold wp. destruct (m s) as [r s']. auto. Qed.

(** When nothing is known of [m]. *)
Lemma wp_any {A} (m : io S A) s (Q : result A io_error -> S -> Prop) : (forall r s', Q r s') -> wp m s Q.
Proof. unfold wp. auto. Qed.

End Wp.

(** One step of a program whose head is a combinator. *)
Ltac wp_step :=
  lazymatch goal with
  | |- wp (io_bind _ _) _ _ => apply wp_bind
  | |- wp (io_ret _) _ _ => apply wp_ret
  | |- wp (io_fail _) _ _ => apply wp_fail
  | |- wp io_get _ _ => apply wp_get
  | |- wp (io_gets _) _ _ => apply wp_gets
  | |- wp (io_put _) _ _ => apply wp_put
  | |- wp (io_modify _) _ _ => apply wp_modify
  | |- wp (io_try _) _ _ => apply wp_try
  | |- wp (io_ignore _) _ _ => apply wp_ignore
  | |- wp (io_lens _ _ _) _ _ => apply wp_lens
  | |- wp (io_lift _) _ _ => apply wp_lift
  | |- wp (io_finally _ _) _ _ => apply wp_finally
  | |- wp (io_on_error _ _) _ _ => apply wp_on_error
  | |- wp (if ?b then _ else _) _ _ => destruct b eqn:?
  | |- wp (match ?x with _ => _ end) _ _ => destruct x eqn:?
  end.
