(* ===== verification/Http.v ===== *)
(** * src/http.rs: requests

    The request head reader and parser, the query string decoder and the request
    body readers.  Responses are in file HttpResponse, the theorems about the
    parser in file HttpFacts. *)

From S2P Require Import Prelude RustStd Net.

Definition MAX_HEADER_BYTES : Z := 64 * 1024.
Definition MAX_HEADERS : Z := 100.
(** Durations are in milliseconds. *)
Definition HEAD_TIMEOUT : Z := 10 * 1000.
Definition BODY_TIMEOUT : Z := 60 * 1000.
Definition WRITE_TIMEOUT : Z := 120 * 1000.
Definition MAX_DRAIN_BYTES : Z := 1024 * 1024.
Definition CHUNK : Z := 64 * 1024.

Record Request : Type := mkRequest {
  method : str;
  path : str;
  params : gmap str str;
  raw_query : str;
  headers : gmap str str;
  content_length : Z;
  body_consumed : Z;
  keep_alive : bool;
}.

Definition header (request : Request) (name : str) : option str :=
  headers request !! to_ascii_lowercase name.

Definition bool_param (params : gmap str str) (key : str) (default : bool) : bool :=
  match params !! key with
  | Some v => if eqs v (lit "true") || eqs v (lit "1") then true
              else if eqs v (lit "false") || eqs v (lit "0") then false
              else default
  | None => default
  end.

(** ** The query string *)

Fixpoint urldecode_bytes (bytes : str) : str :=
  match bytes with
  | [] => []
  | b :: t =>
      if eqc b "%"%char then
        match t with
        | h1 :: h2 :: rest =>
            let hex := match from_utf8 [h1; h2] with Some h => h | None => lit "zz" end in
            match from_str_radix 255 16 hex with
            | Some v => chr v :: urldecode_bytes rest
            | None => b :: urldecode_bytes t
            end
        | _ => b :: urldecode_bytes t
        end
      else if eqc b "+"%char then SP :: urldecode_bytes t
      else b :: urldecode_bytes t
  end.

Definition urldecode (s : str) : str := from_utf8_lossy (urldecode_bytes s).

Definition insert_pair (m : gmap str str) (pair : str) : gmap str str :=
  let '(k, v) := match split_once "="%char pair with Some kv => kv | None => (pair, []) end in
  <[urldecode k := urldecode v]> m.

Definition parse_url (url : str) : str * gmap str str * str :=
  let '(path, query) := match split_once "?"%char url with Some pq => pq | None => (url, []) end in
  let pairs := List.filter (fun p => negb (is_empty p)) (split_char "&"%char query) in
  (path, fold_left insert_pair pairs ∅, query).

(** ** The request head *)

Definition bad (message : String.string) : io_error := error_new InvalidData (lit message).

(** RFC 9110 token characters. *)
Definition is_token_byte (b : ascii) : bool :=
  is_ascii_alphanumeric b || existsb (eqc b) (lit "!#$%&'*+-.^_`|~").

Definition is_blank (c : ascii) : bool := eqc c SP || eqc c HT.

Definition is_bad_value_byte (b : ascii) : bool :=
  ((byte b <? 32) && negb (eqc b HT)) || (byte b =? 127).

Definition is_bad_target_byte (b : ascii) : bool := (byte b <=? 32) || (byte b =? 127).

(** One header line of the loop of [parse_head]. *)
Definition add_header (headers : gmap str str) (line : str) : result (gmap str str) io_error :=
  if starts_with [SP] line || starts_with [HT] line then
    Err (bad "obsolete line folding is not supported")
  else match split_once ":"%char line with
  | None => Err (bad "header line without a colon")
  | Some (name, value) =>
      if is_empty name || ends_with [SP] name || ends_with [HT] name then
        Err (bad "bad header name")
      else if negb (forallb is_token_byte name) then
        Err (bad "illegal character in header name")
      else
        let name := to_ascii_lowercase name in
        if existsb is_bad_value_byte value then
          Err (bad "illegal control character in header value")
        else
          let value := trim_matches is_blank value in
          match headers !! name with
          | Some existing =>
              if negb (eqs existing value) then Err (bad "conflicting duplicate header")
              else Ok headers
          | None => Ok (<[name := value]> headers)
          end
  end.

Fixpoint parse_headers (lines : list str) (count : Z) (headers : gmap str str)
    : result (gmap str str) io_error :=
  match lines with
  | [] => Ok headers
  | line :: rest =>
      if is_empty line then parse_headers rest count headers
      else
        let count := count + 1 in
        if MAX_HEADERS <? count then Err (bad "too many headers")
        else let? headers := add_header headers line in parse_headers rest count headers
  end.

(** The body length the headers announce. *)
Definition framing (headers : gmap str str) : result Z io_error :=
  if bool_decide (is_Some (headers !! lit "content-length"))
     && bool_decide (is_Some (headers !! lit "transfer-encoding")) then
    Err (bad "Content-Length and Transfer-Encoding must not both be present")
  else match headers !! lit "content-length" with
  | None => Ok 0
  | Some raw =>
      if is_empty raw || negb (forallb is_ascii_digit raw) then Err (bad "malformed Content-Length")
      else ok_or (parse_uint u64_max raw) (bad "Content-Length out of range")
  end.

Definition keep_alive_of (headers : gmap str str) (version : str) : bool :=
  match to_ascii_lowercase <$> headers !! lit "connection" with
  | Some c => if contains (lit "close") c then false
              else if contains (lit "keep-alive") c then true
              else eqs version (lit "HTTP/1.1")
  | None => eqs version (lit "HTTP/1.1")
  end.

Definition parse_request_line (request_line : str) : result (str * str * str) io_error :=
  match split_char SP request_line with
  | [method; url; version] =>
      if is_empty method || negb (forallb is_ascii_alphabetic method) then Err (bad "bad method")
      else if negb (eqs version (lit "HTTP/1.0") || eqs version (lit "HTTP/1.1")) then
        Err (bad "unsupported HTTP version")
      else if negb (starts_with (lit "/") url) || existsb is_bad_target_byte url then
        Err (bad "invalid request target")
      else Ok (to_ascii_uppercase method, url, version)
  | _ => Err (bad "request line must be exactly 'METHOD TARGET VERSION'")
  end.

Definition parse_head (head : str) : result Request io_error :=
  if existsb (fun b => 128 <=? byte b) head then Err (bad "non-ASCII byte in request head")
  else match from_utf8 head with
  | None => Err (bad "request head is not valid UTF-8")
  | Some head =>
      let lines := split_crlf (trim_end_blank head) in
      let '(request_line, lines) := match lines with l :: ls => (l, ls) | [] => ([], []) end in
      let? mut := parse_request_line request_line in
      let '(method, url, version) := mut in
      let? headers := parse_headers lines 0 ∅ in
      let? content_length := framing headers in
      let '(path, params, raw_query) := parse_url url in
      Ok {| method := method; path := path; params := params; raw_query := raw_query;
            headers := headers; content_length := content_length; body_consumed := 0;
            keep_alive := keep_alive_of headers version |}
  end.

(** The loop of [read_request]: one byte per iteration, until the blank line. *)
Fixpoint read_head (fuel : nat) (deadline : Z) (head : str) : io Reader (option str) :=
  match fuel with
  | O => io_fail fuel_error
  | S fuel' =>
      now <- io_gets rd_clock ;;
      if deadline <? now then
        io_fail (error_new TimedOut (lit "timed out reading the request head"))
      else
        got <- read 1 ;;
        match got with
        | [] => if is_empty head then io_ret None
                else io_fail (eof_error "eof in request head")
        | b :: _ =>
            let head := head ++ [b] in
            if MAX_HEADER_BYTES <? slen head then
              io_fail (error_new InvalidData (lit "request head too large"))
            else if ends_with (CRLF ++ CRLF) head then io_ret (Some head)
            else read_head fuel' deadline head
        end
  end.

(** Each iteration adds a byte to the head or ends the loop, so one more
    iteration than the longest head is enough. *)
Definition HEAD_FUEL : nat := Z.to_nat (MAX_HEADER_BYTES + 1).

Definition read_request : io Reader (option Request) :=
  start <- io_gets rd_clock ;;
  head <- read_head HEAD_FUEL (start + HEAD_TIMEOUT) [] ;;
  match head with
  | None => io_ret None
  | Some head => match parse_head head with
                 | Ok request => io_ret (Some request)
                 | Err e => io_fail e
                 end
  end.

(** ** The request body *)

(** Every iteration of the loops below that does not end them reads at least one
    byte of the stream. *)
Definition body_fuel : io Reader nat := io_gets (fun r => S (rd_size r)).

Fixpoint read_body_loop (fuel : nat) (length : Z) (body : str) : io Reader str :=
  match fuel with
  | O => io_fail fuel_error
  | S fuel' =>
      if slen body <? length then
        got <- read (Z.to_nat (Z.min (length - slen body) CHUNK)) ;;
        match got with
        | [] => io_fail (eof_error "eof in request body")
        | _ => read_body_loop fuel' length (body ++ got)
        end
      else io_ret body
  end.

(** The state the body readers update: the request's [body_consumed] and the
    reader. *)
Abbreviation Body := (Request * Reader)%type (only parsing).

Definition set_consumed (n : Z) (request : Request) : Request :=
  {| method := method request; path := path request; params := params request;
     raw_query := raw_query request; headers := headers request;
     content_length := content_length request; body_consumed := n;
     keep_alive := keep_alive request |}.

Definition on_reader {A} (m : io Reader A) : io Body A := io_lens snd (fun r s => (s.1, r)) m.
Definition consume (n : Z) : io Body unit := io_modify (fun s => (set_consumed n s.1, s.2)).

Definition read_body (max : Z) : io Body str :=
  request <- io_gets fst ;;
  if max <? content_length request then
    io_fail (error_new InvalidData (lit "body too large"))
  else
    fuel <- on_reader body_fuel ;;
    body <- on_reader (read_body_loop fuel (content_length request) []) ;;
    consume (content_length request) ;;;
    io_ret body.

Section StreamBody.
(** [f], the consumer of the chunks, with the state it updates. *)
Context {W : Type} (f : str -> io W unit).

Definition on_body {A} (m : io Body A) : io (Body * W) A := io_lens fst (fun b s => (b, s.2)) m.
Definition on_sink {A} (m : io W A) : io (Body * W) A := io_lens snd (fun w s => (s.1, w)) m.

Fixpoint stream_loop (fuel : nat) (remaining : Z) : io (Body * W) unit :=
  match fuel with
  | O => io_fail fuel_error
  | S fuel' =>
      if 0 <? remaining then
        got <- on_body (on_reader (read (Z.to_nat (Z.min CHUNK remaining)))) ;;
        match got with
        | [] => io_fail (eof_error "eof in request body")
        | _ =>
            on_sink (f got) ;;;
            request <- io_gets (fun s => s.1.1) ;;
            on_body (consume (body_consumed request + slen got)) ;;;
            stream_loop fuel' (remaining - slen got)
        end
      else io_ret tt
  end.

Definition stream_body : io (Body * W) Z :=
  request <- io_gets (fun s => s.1.1) ;;
  fuel <- on_body (on_reader body_fuel) ;;
  stream_loop fuel (wrap_u64 (content_length request - body_consumed request)) ;;;
  io_ret (content_length request).
End StreamBody.

(** [io::copy(&mut reader.take(limit), &mut io::sink())]: reads until the limit
    or the end of the stream, retrying interrupted reads. *)
Fixpoint copy_to_sink (fuel : nat) (limit : Z) : io Reader unit :=
  match fuel with
  | O => io_fail fuel_error
  | S fuel' =>
      if 0 <? limit then
        got <- io_try (read (Z.to_nat (Z.min limit 8192))) ;;
        match got with
        | Ok [] => io_ret tt
        | Ok s => copy_to_sink fuel' (limit - slen s)
        | Err e => if bool_decide (err_kind e = Interrupted) then copy_to_sink fuel' limit
                   else io_fail e
        end
      else io_ret tt
  end.

Definition drain_body : io Body unit :=
  request <- io_gets fst ;;
  let remaining := wrap_u64 (content_length request - body_consumed request) in
  if remaining =? 0 then io_ret tt
  else if MAX_DRAIN_BYTES <? remaining then
    io_fail (error_new InvalidData (lit "undrained body too large; closing"))
  else
    fuel <- on_reader body_fuel ;;
    on_reader (copy_to_sink fuel remaining) ;;;
    consume (content_length request).
