(* ===== verification/HttpFacts.v ===== *)
(** * Theorems about the request parser of src/http.rs

    What an accepted head guarantees to the router and the proxy, that every
    well-formed head is accepted and means what it says, and that ambiguous
    framing is refused. *)

From S2P Require Import Prelude RustStd StrFacts Net Http.

(** ** What [parse_head] promises *)

(** A header as the maps of a [Request] hold it. *)
Definition header_ok (name value : str) : Prop :=
  name <> [] /\ Forall (fun c => is_token_byte c = true) name
  /\ to_ascii_lowercase name = name
  /\ Forall (fun c => is_bad_value_byte c = false) value /\ trimmed is_blank value
  /\ ascii_only value.

Record wf_request (r : Request) : Prop := {
  wf_method : method r <> [] /\ Forall (fun c => is_ascii_uppercase c = true) (method r);
  wf_headers : map_Forall header_ok (headers r);
  wf_count : Z.of_nat (size (headers r)) <= MAX_HEADERS;
  wf_not_both : headers r !! lit "content-length" = None
                \/ headers r !! lit "transfer-encoding" = None;
  wf_length : match headers r !! lit "content-length" with
              | None => content_length r = 0
              | Some raw => raw <> [] /\ Forall (fun c => is_ascii_digit c = true) raw
                            /\ parse_uint u64_max raw = Some (content_length r)
              end;
  wf_path : (exists p, path r = "/"%char :: p) /\ ("?"%char ∉ path r)
            /\ Forall (fun c => is_bad_target_byte c = false) (path r)
            /\ Forall (fun c => is_bad_target_byte c = false) (raw_query r)
            /\ ascii_only (path r) /\ ascii_only (raw_query r);
  wf_consumed : body_consumed r = 0;
}.

(** A header line stands for a name and a value. *)
Definition line_header (line name value : str) : Prop :=
  exists n v, line = n ++ ":"%char :: v /\ (":"%char ∉ n)
    /\ name = to_ascii_lowercase n /\ value = trim_matches is_blank v.

(** The head a request is written as: what a client sends, and what the proxy
    forwards. *)
Definition render_header (h : str * str) : str := h.1 ++ lit ": " ++ h.2 ++ CRLF.
Definition render_head (method url version : str) (hs : list (str * str)) : str :=
  method ++ [SP] ++ url ++ [SP] ++ version ++ CRLF ++ concat (map render_header hs) ++ CRLF.

(** ** Header lines *)

Lemma is_token_byte_lower c : is_token_byte c = true -> is_token_byte (to_lower c) = true.
Proof. by_bytes. Qed.

Lemma token_not_colon : is_token_byte ":"%char = false.
Proof. reflexivity. Qed.

Lemma add_header_ok headers line headers' :
  ascii_only line -> add_header headers line = Ok headers' ->
  exists name value,
    line_header line name value /\ header_ok name value
    /\ headers' = <[name := value]> headers
    /\ (headers !! name = None \/ headers !! name = Some value).
Proof.
  unfold add_header. intros Hascii H.
  destruct (starts_with [SP] line || starts_with [HT] line); [done|].
  destruct (split_once ":"%char line) as [[n v]|] eqn:Hs; [|done].
  apply split_once_Some in Hs as [-> Hn].
  destruct (is_empty n || _ || _) eqn:He; [done|].
  rewrite !orb_false_iff, is_empty_false in He. destruct He as [[He _] _].
  destruct (forallb is_token_byte n) eqn:Ht; simpl in H; [|done].
  apply forallb_Forall in Ht.
  destruct (existsb is_bad_value_byte v) eqn:Hv; [done|]. apply existsb_false in Hv.
  exists (to_ascii_lowercase n), (trim_matches is_blank v). split_and!.
  - by exists n, v.
  - split_and!.
    + by destruct n.
    + unfold to_ascii_lowercase. apply Forall_map. eapply Forall_impl; [done|].
      intros c. apply is_token_byte_lower.
    + apply to_ascii_lowercase_idem.
    + by apply trim_matches_Forall.
    + apply trim_matches_trimmed.
    + apply trim_matches_Forall. apply Forall_app in Hascii as [_ Hascii].
      by apply Forall_cons in Hascii as [_ Hascii].
  - destruct (headers !! to_ascii_lowercase n) as [w|] eqn:Hw; [|by simplify_eq].
    destruct (eqs w (trim_matches is_blank v)) eqn:E; simplify_eq/=.
    apply eqs_true in E as ->. by rewrite insert_id.
  - destruct (headers !! to_ascii_lowercase n) as [w|] eqn:Hw; [|by left].
    destruct (eqs w (trim_matches is_blank v)) eqn:E; simplify_eq/=.
    apply eqs_true in E as ->. by right.
Qed.

(** The loop over the lines only adds: an entry once there keeps its value. *)
Lemma parse_headers_mono lines count headers headers' :
  Forall ascii_only lines -> parse_headers lines count headers = Ok headers' ->
  forall k v, headers !! k = Some v -> headers' !! k = Some v.
Proof.
  revert count headers. induction lines as [|line rest IH]; simpl; intros count headers Hasc H k v Hk.
  { by simplify_eq. }
  apply Forall_cons in Hasc as [Hline Hasc].
  destruct (is_empty line); [by eauto|]. case_match; [done|].
  destruct (add_header headers line) as [h1|e] eqn:Ha; [|done].
  apply add_header_ok in Ha; [|done]; destruct Ha as (name & value & _ & _ & -> & Hold).
  eapply IH; [done..|]. destruct (decide (name = k)) as [->|Hne].
  - rewrite lookup_insert_eq. destruct Hold; congruence.
  - by rewrite lookup_insert_ne.
Qed.

Lemma parse_headers_sound lines count headers headers' :
  Forall ascii_only lines -> parse_headers lines count headers = Ok headers' ->
  map_Forall header_ok headers -> map_Forall header_ok headers'.
Proof.
  revert count headers. induction lines as [|line rest IH]; simpl; intros count headers Hasc H Hok.
  { by simplify_eq. }
  apply Forall_cons in Hasc as [Hline Hasc].
  destruct (is_empty line); [by eauto|]. case_match; [done|].
  destruct (add_header headers line) as [h1|e] eqn:Ha; [|done].
  apply add_header_ok in Ha; [|done]; destruct Ha as (name & value & _ & Hh & -> & _).
  eapply IH; [done..|]. by apply map_Forall_insert_2.
Qed.

Lemma parse_headers_size lines count headers headers' :
  Forall ascii_only lines -> parse_headers lines count headers = Ok headers' ->
  Z.of_nat (size headers) <= count <= MAX_HEADERS -> Z.of_nat (size headers') <= MAX_HEADERS.
Proof.
  revert count headers. induction lines as [|line rest IH]; simpl; intros count headers Hasc H Hs.
  { simplify_eq. lia. }
  apply Forall_cons in Hasc as [Hline Hasc].
  destruct (is_empty line); [by eauto|].
  destruct (MAX_HEADERS <? count + 1) eqn:Hc; [done|]. apply Z.ltb_ge in Hc.
  destruct (add_header headers line) as [h1|e] eqn:Ha; [|done].
  apply add_header_ok in Ha; [|done]; destruct Ha as (name & value & _ & _ & -> & _).
  eapply IH; [done..|]. split; [|lia].
  rewrite map_size_insert. case_match; simpl; lia.
Qed.

(** Every line is kept, with its own value. *)
Lemma parse_headers_lines lines count headers headers' :
  Forall ascii_only lines -> parse_headers lines count headers = Ok headers' ->
  forall line, line ∈ lines -> line <> [] ->
  exists name value, line_header line name value /\ headers' !! name = Some value.
Proof.
  revert count headers. induction lines as [|l rest IH]; simpl; intros count headers Hasc H line Hin Hne.
  { set_solver. }
  apply Forall_cons in Hasc as [Hline Hasc].
  destruct (is_empty l) eqn:He.
  { apply is_empty_true in He as ->. apply elem_of_cons in Hin as [->|Hin]; [done|eauto]. }
  case_match; [done|].
  destruct (add_header headers l) as [h1|e] eqn:Ha; [|done].
  apply elem_of_cons in Hin as [->|Hin]; [|by eauto].
  apply add_header_ok in Ha; [|done]; destruct Ha as (name & value & Hl & _ & -> & _).
  exists name, value. split; [done|].
  by apply (parse_headers_mono _ _ _ _ Hasc H), lookup_insert_eq.
Qed.

(** And nothing else is. *)
Lemma parse_headers_only lines count headers headers' :
  Forall ascii_only lines -> parse_headers lines count headers = Ok headers' ->
  forall name value, headers' !! name = Some value ->
  headers !! name = Some value \/ exists line, line ∈ lines /\ line_header line name value.
Proof.
  revert count headers. induction lines as [|l rest IH]; simpl; intros count headers Hasc H name value Hk.
  { simplify_eq. by left. }
  apply Forall_cons in Hasc as [Hline Hasc].
  destruct (is_empty l) eqn:He.
  { destruct (IH _ _ Hasc H _ _ Hk) as [?|(line & ? & ?)]; [by left|right]. exists line. set_solver. }
  case_match; [done|].
  destruct (add_header headers l) as [h1|e] eqn:Ha; [|done].
  apply add_header_ok in Ha; [|done]; destruct Ha as (n1 & v1 & Hl & _ & -> & _).
  destruct (IH _ _ Hasc H _ _ Hk) as [Hn|(line & ? & ?)]; [|right; exists line; set_solver].
  destruct (decide (n1 = name)) as [->|Hne].
  - rewrite lookup_insert_eq in Hn. simplify_eq. right. exists l. set_solver.
  - rewrite lookup_insert_ne in Hn by done. by left.
Qed.

(** ** The request line *)

Lemma parse_request_line_ok l m url v :
  parse_request_line l = Ok (m, url, v) ->
  exists m0, m0 <> [] /\ Forall (fun c => is_ascii_alphabetic c = true) m0
    /\ m = to_ascii_uppercase m0
    /\ l = m0 ++ [SP] ++ url ++ [SP] ++ v
    /\ (v = lit "HTTP/1.0" \/ v = lit "HTTP/1.1")
    /\ (exists u, url = "/"%char :: u)
    /\ Forall (fun c => is_bad_target_byte c = false) url.
Proof.
  unfold parse_request_line. intros H. pose proof (join_split_char SP l) as Hj.
  destruct (split_char SP l) as [|m0 [|u [|v0 [|]]]]; try done.
  destruct (is_empty m0 || _) eqn:E1; [done|].
  apply orb_false_iff in E1 as [E1%is_empty_false E1'%negb_false_iff].
  destruct (eqs v0 _ || eqs v0 _) eqn:E2; simpl in H; [|done].
  destruct (starts_with (lit "/") u) eqn:E3; simpl in H; [|done].
  destruct (existsb is_bad_target_byte u) eqn:E4; [done|]. simplify_eq.
  apply forallb_Forall in E1'. apply existsb_false in E4.
  apply orb_true_iff in E2. rewrite !eqs_true in E2.
  apply starts_with_true in E3 as [u' ->]. exists m0. split_and!; eauto.
Qed.

Lemma parse_url_ok url p params q :
  parse_url url = (p, params, q) ->
  ("?"%char ∉ p) /\ ((url = p /\ q = []) \/ url = p ++ "?"%char :: q).
Proof.
  unfold parse_url. destruct (split_once "?"%char url) as [[l r]|] eqn:E; intros; simplify_eq.
  - apply split_once_Some in E as [-> ?]. eauto.
  - apply split_once_None in E. eauto.
Qed.

Lemma framing_ok headers n :
  framing headers = Ok n ->
  (headers !! lit "content-length" = None \/ headers !! lit "transfer-encoding" = None)
  /\ match headers !! lit "content-length" with
     | None => n = 0
     | Some raw => raw <> [] /\ Forall (fun c => is_ascii_digit c = true) raw
                   /\ parse_uint u64_max raw = Some n
     end.
Proof.
  unfold framing. case_match eqn:E; [done|].
  rewrite andb_false_iff, !bool_decide_eq_false, <- !eq_None_not_Some in E.
  destruct (headers !! lit "content-length") as [raw|]; intros H; [|split; [by left|by simplify_eq]].
  destruct (is_empty raw || _) eqn:E1; [done|].
  apply orb_false_iff in E1 as [E1%is_empty_false E2%negb_false_iff].
  apply forallb_Forall in E2.
  destruct (parse_uint u64_max raw) eqn:E3; simplify_eq/=. split; [tauto|done].
Qed.

(** ** Accepted heads *)

Lemma ascii_only_test head : existsb (fun b => 128 <=? byte b) head = false <-> ascii_only head.
Proof. apply existsb_false. Qed.

Lemma trim_end_blank_prefix (P : ascii -> Prop) s : Forall P s -> Forall P (trim_end_blank s).
Proof.
  intros H. unfold trim_end_blank. apply Forall_rev in H. apply Forall_rev.
  assert (Hp : exists l, rev s = l ++ strip_lfcr_twice (rev s)).
  { generalize (rev s) as t. intros t. remember (length t) as n eqn:En.
    revert t En. induction (lt_wf n) as [n _ IH]. intros t ->.
    destruct t as [|a [|b [|c [|d t]]]]; try by exists [].
    cbn [strip_lfcr_twice]. case_match; [|by exists []].
    edestruct (IH (length t)) as [l Hl]; [simpl; lia|done|].
    exists (a :: b :: c :: d :: l). simpl. by rewrite <- Hl. }
  destruct Hp as [l Hl]. rewrite Hl, Forall_app in H. tauto.
Qed.

(** The lines of a head, as [parse_head] sees them. *)
Definition head_lines (head : str) : list str := tail (split_crlf (trim_end_blank head)).

Lemma parse_head_inv head r :
  parse_head head = Ok r ->
  ascii_only head
  /\ exists line url version,
       parse_request_line line = Ok (method r, url, version)
       /\ ascii_only line /\ Forall ascii_only (head_lines head)
       /\ parse_headers (head_lines head) 0 ∅ = Ok (headers r)
       /\ framing (headers r) = Ok (content_length r)
       /\ parse_url url = (path r, params r, raw_query r)
       /\ keep_alive r = keep_alive_of (headers r) version
       /\ body_consumed r = 0.
Proof.
  unfold parse_head. destruct (existsb _ head) eqn:Ha; [done|].
  apply ascii_only_test in Ha. rewrite from_utf8_ascii by done.
  unfold head_lines. destruct (split_crlf_cons (trim_end_blank head)) as (l & ls & E). rewrite E.
  assert (Forall ascii_only (l :: ls)) as Hls.
  { rewrite <- E. apply (join_Forall _ CRLF). rewrite join_split_crlf.
    by apply trim_end_blank_prefix. }
  apply Forall_cons in Hls as [Hl Hls].
  destruct (parse_request_line l) as [[[m u] v]|e] eqn:E1; [|done].
  destruct (parse_headers ls 0 ∅) as [hs|e] eqn:E2; [|done].
  destruct (framing hs) as [n|e] eqn:E3; [|done].
  destruct (parse_url u) as [[p ps] q] eqn:E4. intros H. simplify_eq.
  split; [done|]. exists l, u, v. split_and!; done.
Qed.

Lemma accepted_wf head r : parse_head head = Ok r -> wf_request r.
Proof.
  intros H. apply parse_head_inv in H as (Ha & l & u & v & H1 & Hl & Hls & H2 & H3 & H4 & _ & H5).
  apply parse_request_line_ok in H1 as (m0 & Hm0 & Hal & Hm & El & _ & [u' Hu] & Hut).
  apply parse_url_ok in H4 as [Hq Hu2]. apply framing_ok in H3 as [Hnb Hlen].
  assert (ascii_only u) as Hua.
  { rewrite El in Hl. unfold ascii_only in *. rewrite !Forall_app in Hl. tauto. }
  assert (Hsplit : forall P : ascii -> Prop, Forall P u -> Forall P (path r) /\ Forall P (raw_query r)).
  { intros P HP. destruct Hu2 as [[<- ->]|Hu2]; [done|].
    rewrite Hu2, Forall_app, Forall_cons in HP. tauto. }
  split.
  - rewrite Hm. split; [by destruct m0|]. apply Forall_map.
    eapply Forall_impl; [done|]. intros c. apply to_upper_alphabetic.
  - eapply parse_headers_sound; [done..|]. apply map_Forall_empty.
  - eapply parse_headers_size; [done..|]. rewrite map_size_empty. unfold MAX_HEADERS. lia.
  - done.
  - done.
  - destruct (Hsplit _ Hut) as [? ?]. destruct (Hsplit _ Hua) as [? ?]. split_and!; try done.
    destruct Hu2 as [[<- _]|Hu2]; [by eauto|]. subst u.
    destruct (path r) as [|c p]; simplify_eq/=; eauto.
  - done.
Qed.

(** C19: a request head is accepted only if it is unambiguous: whatever bytes come
    in, an accepted request has an upper-case method, a target that starts with a
    slash and holds no blank or control character, header names that are
    lower-case tokens, values without control characters or surrounding blanks,
    at most 100 of them, never both framing headers, and a body length that is
    exactly the decimal number of its only Content-Length, or 0 without one. *)
Theorem parse_head_wf head r : parse_head head = Ok r -> wf_request r.
Proof. apply accepted_wf. Qed.

(** No header is dropped, merged or invented: every non-empty header line of
    an accepted head is in the header map with its own value, and every entry of
    the map comes from a line; so two lines for one name must agree. *)
Theorem parse_head_headers head r :
  parse_head head = Ok r ->
  (forall line, line ∈ head_lines head -> line <> [] ->
     exists name value, line_header line name value /\ headers r !! name = Some value)
  /\ (forall name value, headers r !! name = Some value ->
        exists line, line ∈ head_lines head /\ line_header line name value).
Proof.
  intros H. apply parse_head_inv in H as (_ & l & u & v & _ & _ & Hls & H2 & _). split.
  - intros line Hin Hne. by eapply parse_headers_lines.
  - intros name value Hk. destruct (parse_headers_only _ _ _ _ Hls H2 _ _ Hk) as [Hn|]; [|done].
    by rewrite lookup_empty in Hn.
Qed.

(** Every refusal is an [InvalidData] error, which the connection loop answers
    with status 400. *)
Ltac err_kind_cases :=
  intros; repeat case_match; simplify_eq/=; done.

Lemma add_header_err_kind headers line e : add_header headers line = Err e -> err_kind e = InvalidData.
Proof. unfold add_header. err_kind_cases. Qed.

Lemma parse_headers_err_kind lines count headers e :
  parse_headers lines count headers = Err e -> err_kind e = InvalidData.
Proof.
  revert count headers. induction lines as [|line rest IH]; simpl; intros count headers H; [done|].
  destruct (is_empty line); [by eauto|]. case_match; [by simplify_eq|].
  destruct (add_header headers line) eqn:Ha; [by eauto|]. simplify_eq. by eapply add_header_err_kind.
Qed.

Lemma parse_head_err_kind head e : parse_head head = Err e -> err_kind e = InvalidData.
Proof.
  unfold parse_head. intros H. destruct (existsb _ head); [by simplify_eq|].
  destruct (from_utf8 head); [|by simplify_eq].
  destruct (split_crlf _) as [|l1 ls];
  (destruct (parse_request_line _) as [[[m u] v]|e1] eqn:E1;
    [|simplify_eq; revert E1; unfold parse_request_line; err_kind_cases]);
  (destruct (parse_headers _ _ _) as [hs|e2] eqn:E2; [|simplify_eq; by eapply parse_headers_err_kind]);
  (destruct (framing hs) as [n|e3] eqn:E3;
    [by destruct (parse_url u) as [[]]|simplify_eq; revert E3; unfold framing, ok_or; err_kind_cases]).
Qed.

(** ** Well-formed heads are accepted *)

Lemma header_ok_no_lf name value : header_ok name value -> LF ∉ name ++ lit ": " ++ value.
Proof.
  intros (_ & Ht & _ & Hv & _) Hin. rewrite !elem_of_app in Hin. destruct Hin as [Hin|[Hin|Hin]].
  - rewrite Forall_forall in Ht. by specialize (Ht _ Hin).
  - by vm_compute in Hin; repeat (apply elem_of_cons in Hin as [Hin|Hin]); try apply elem_of_nil in Hin.
  - rewrite Forall_forall in Hv. by specialize (Hv _ Hin).
Qed.

Lemma header_name_not_blank name c :
  Forall (fun c => is_token_byte c = true) name -> is_token_byte c = false ->
  ends_with [c] name = false /\ starts_with [c] name = false.
Proof.
  intros Ht Hc. split; apply not_true_iff_false.
  - intros [s' ->]%ends_with_true. apply Forall_app in Ht as [_ Ht].
    apply Forall_cons in Ht as [Ht _]. congruence.
  - intros [s' ->]%starts_with_true. apply Forall_cons in Ht as [Ht _]. congruence.
Qed.

Lemma add_header_render headers name value :
  header_ok name value -> headers !! name = None ->
  add_header headers (name ++ lit ": " ++ value) = Ok (<[name := value]> headers).
Proof.
  intros (Hne & Ht & Hlow & Hv & Htr & _) Hfresh. unfold add_header.
  assert (Hstart : forall c, is_token_byte c = false ->
            starts_with [c] (name ++ lit ": " ++ value) = false).
  { intros c Hc. destruct (header_name_not_blank name c Ht Hc) as [_ Hs].
    destruct name as [|a name]; [done|]. exact Hs. }
  rewrite !Hstart by done. cbn [orb].
  rewrite (proj2 (split_once_Some ":"%char _ name (SP :: value))).
  2:{ split; [done|]. by eapply Forall_notin. }
  rewrite (proj2 (is_empty_false name)) by done.
  rewrite (proj1 (header_name_not_blank name SP Ht eq_refl)).
  rewrite (proj1 (header_name_not_blank name HT Ht eq_refl)).
  rewrite (proj2 (forallb_Forall _ _)) by done. cbn [orb negb].
  rewrite (proj2 (existsb_false _ _)) by (constructor; done).
  rewrite Hlow, Hfresh. f_equal. f_equal.
  rewrite <- (app_nil_r value) at 1. change (SP :: value ++ []) with ([SP] ++ value ++ []).
  apply trim_matches_surround; [by repeat constructor|constructor|done].
Qed.

Lemma parse_headers_render hs count headers :
  Forall (fun h => header_ok h.1 h.2) hs -> NoDup hs.*1 ->
  (forall k, k ∈ hs.*1 -> headers !! k = None) ->
  0 <= count -> count + Z.of_nat (length hs) <= MAX_HEADERS ->
  parse_headers (map (fun h => h.1 ++ lit ": " ++ h.2) hs) count headers
    = Ok (list_to_map hs ∪ headers).
Proof.
  intros Hok. revert count headers. induction Hok as [|[n v] hs Hh Hok IH]; intros count headers Hnd Hf Hc Hm.
  { simpl. by rewrite (left_id_L ∅ (∪)). }
  cbn [map parse_headers fst snd]. simpl in Hnd. apply NoDup_cons in Hnd as [Hn Hnd].
  rewrite (proj2 (is_empty_false _)).
  2:{ destruct Hh as [Hne _]. simpl in Hne. by destruct n. }
  simpl length in Hm. rewrite (proj2 (Z.ltb_ge _ _)) by lia.
  rewrite add_header_render by (try done; apply Hf; simpl; set_solver).
  rewrite IH; [|done| |lia|lia].
  - simpl. rewrite <- insert_union_r by by apply not_elem_of_list_to_map_1.
    by rewrite insert_union_l.
  - intros k Hk. rewrite lookup_insert_ne by (intros ->; done). apply Hf. simpl. set_solver.
Qed.

Lemma render_head_join m url version hs :
  render_head m url version hs
  = join CRLF ((m ++ [SP] ++ url ++ [SP] ++ version) :: map (fun h => h.1 ++ lit ": " ++ h.2) hs)
    ++ CRLF ++ CRLF.
Proof.
  unfold render_head. set (l := m ++ [SP] ++ url ++ [SP] ++ version).
  replace (m ++ [SP] ++ url ++ [SP] ++ version ++ CRLF ++ concat (map render_header hs) ++ CRLF)
    with (l ++ CRLF ++ concat (map render_header hs) ++ CRLF)
    by (unfold l; by rewrite <- !app_assoc).
  clearbody l. revert l. induction hs as [|[n v] hs IH]; intros l; [done|].
  change (map (fun h : list ascii * list ascii => h.1 ++ lit ": " ++ h.2) ((n, v) :: hs))
    with ((n ++ lit ": " ++ v) :: map (fun h : list ascii * list ascii => h.1 ++ lit ": " ++ h.2) hs).
  rewrite join_cons by done. rewrite <- !app_assoc, <- IH.
  cbn [map concat]. unfold render_header at 1. cbn [fst snd]. by rewrite <- !app_assoc.
Qed.

(** The last byte before the blank line is not a line feed. *)
Lemma join_last_not_lf l ls :
  (forall x, x ∈ l :: ls -> x <> [] /\ LF ∉ x) ->
  exists s c, join CRLF (l :: ls) = s ++ [c] /\ c <> LF.
Proof.
  revert l. induction ls as [|l' ls IH]; intros l Hall.
  - destruct (Hall l ltac:(set_solver)) as [Hne Hni]. simpl.
    destruct (exists_last Hne) as (s & c & ->). exists s, c. split; [done|]. set_solver.
  - rewrite join_cons by done. destruct (IH l') as (s & c & -> & Hc); [set_solver|].
    exists (l ++ CRLF ++ s), c. by rewrite <- !app_assoc.
Qed.

(** A request as a client states it. *)
Record wf_head (m url version : str) (hs : list (str * str)) : Prop := {
  wh_method : m <> [] /\ Forall (fun c => is_ascii_alphabetic c = true) m;
  wh_url : (exists u, url = "/"%char :: u)
           /\ Forall (fun c => is_bad_target_byte c = false) url /\ ascii_only url;
  wh_version : version = lit "HTTP/1.0" \/ version = lit "HTTP/1.1";
  wh_headers : Forall (fun h => header_ok h.1 h.2) hs /\ NoDup hs.*1
               /\ Z.of_nat (length hs) <= MAX_HEADERS;
}.

Lemma alphabetic_facts c : is_ascii_alphabetic c = true ->
  (128 <=? byte c) = false /\ c <> SP /\ c <> LF.
Proof. intros H. split_and!; [revert H; by_bytes| |]; intros ->; discriminate. Qed.

Lemma token_ascii c : is_token_byte c = true -> (128 <=? byte c) = false.
Proof. by_bytes. Qed.

Lemma header_line_ascii name value : header_ok name value -> ascii_only (name ++ lit ": " ++ value).
Proof.
  intros (_ & Ht & _ & _ & _ & Hv). unfold ascii_only. rewrite !Forall_app. split_and!; [|by repeat constructor|done].
  eapply Forall_impl; [done|]. apply token_ascii.
Qed.

Lemma request_line_facts m url version hs :
  wf_head m url version hs ->
  let l := m ++ [SP] ++ url ++ [SP] ++ version in
  ascii_only l /\ (LF ∉ l) /\ l <> []
  /\ parse_request_line l = Ok (to_ascii_uppercase m, url, version).
Proof.
  intros [[Hm Hal] ([u Hu] & Hut & Hua) Hver _] l.
  assert (ascii_only version /\ (SP ∉ version) /\ (LF ∉ version)) as (Hva & Hvs & Hvl).
  { destruct Hver as [->| ->]; split_and!; try (by repeat constructor); by vm_compute; set_solver. }
  assert ((SP ∉ m) /\ (LF ∉ m)) as [Hms Hml].
  { split; eapply Forall_notin; [exact Hal|done|exact Hal|done]. }
  assert ((SP ∉ url) /\ (LF ∉ url)) as [Hus Hul].
  { split; eapply Forall_notin; [exact Hut|done|exact Hut|done]. }
  split_and!.
  - unfold l, ascii_only. rewrite !Forall_app. split_and!; try done; try by repeat constructor.
    eapply Forall_impl; [exact Hal|]. intros c Hc. by apply alphabetic_facts.
  - unfold l. rewrite !not_elem_of_app. split_and!; try done; set_solver.
  - unfold l. by destruct m.
  - unfold parse_request_line, l.
    change (m ++ [SP] ++ url ++ [SP] ++ version) with (m ++ SP :: url ++ SP :: version).
    rewrite !split_char_app by done. rewrite split_char_notin by done.
    rewrite (proj2 (is_empty_false m)) by done. rewrite (proj2 (forallb_Forall _ _)) by done.
    cbn [orb negb]. assert (eqs version (lit "HTTP/1.0") || eqs version (lit "HTTP/1.1") = true) as ->.
    { rewrite orb_true_iff, !eqs_true. done. }
    cbn [negb]. assert (starts_with (lit "/") url = true) as ->.
    { rewrite Hu. apply starts_with_true. by exists u. }
    by rewrite (proj2 (existsb_false _ _)) by done.
Qed.

(** The general form of the round trip: parsing the rendering of a well-formed
    head. *)
Lemma parse_render m url version hs n :
  wf_head m url version hs -> framing (list_to_map hs) = Ok n ->
  parse_head (render_head m url version hs)
  = Ok {| method := to_ascii_uppercase m; path := (parse_url url).1.1; params := (parse_url url).1.2;
          raw_query := (parse_url url).2; headers := list_to_map hs; content_length := n;
          body_consumed := 0; keep_alive := keep_alive_of (list_to_map hs) version |}.
Proof.
  intros Hwf Hn. destruct (request_line_facts _ _ _ _ Hwf) as (Hla & Hll & Hlne & Hrl).
  destruct Hwf as [_ _ _ (Hok & Hnd & Hcount)].
  rewrite render_head_join. set (l := m ++ _) in *.
  set (ls := map (fun h : list ascii * list ascii => h.1 ++ lit ": " ++ h.2) hs).
  assert (Hall : forall x, x ∈ l :: ls -> x <> [] /\ (LF ∉ x) /\ ascii_only x).
  { intros x [->|Hx]%elem_of_cons; [done|]. apply list_elem_of_fmap in Hx as ([k v] & -> & Hkv).
    rewrite Forall_forall in Hok. specialize (Hok _ Hkv). split_and!.
    - destruct Hok as [Hk _]. simpl in *. by destruct k.
    - by apply header_ok_no_lf.
    - by apply header_line_ascii. }
  destruct (join_last_not_lf l ls) as (s & c & Ej & Hc); [intros x Hx; by destruct (Hall x Hx) as (?&?&?)|].
  unfold parse_head.
  assert (ascii_only (join CRLF (l :: ls))) as Hja.
  { apply Forall_join; [by repeat constructor|]. apply Forall_forall. intros x Hx. by apply Hall. }
  rewrite (proj2 (ascii_only_test _)).
  2:{ unfold ascii_only. rewrite !Forall_app. split_and!; [done|by repeat constructor..]. }
  rewrite from_utf8_ascii.
  2:{ unfold ascii_only. rewrite !Forall_app. split_and!; [done|by repeat constructor..]. }
  assert (Ht : trim_end_blank (join CRLF (l :: ls) ++ CRLF ++ CRLF) = join CRLF (l :: ls)).
  { rewrite Ej, <- app_assoc. by apply trim_end_blank_app. }
  rewrite Ht.
  rewrite split_crlf_join; [|done|apply Forall_forall; intros x Hx; by apply Hall].
  rewrite Hrl. unfold ls. rewrite parse_headers_render; [|done|done|by intros; apply lookup_empty|lia|lia].
  rewrite (right_id_L ∅ (∪)). rewrite Hn. by destruct (parse_url url) as [[]].
Qed.

(** The target a request came with, up to an empty query. *)
Definition target_of (r : Request) : str :=
  match raw_query r with [] => path r | q => path r ++ "?"%char :: q end.

Lemma parse_url_join p q :
  "?"%char ∉ p ->
  parse_url (match q with [] => p | c :: q' => p ++ "?"%char :: c :: q' end)
  = (p, fold_left insert_pair (List.filter (fun p => negb (is_empty p)) (split_char "&"%char q)) ∅, q).
Proof.
  intros Hp. unfold parse_url. destruct q as [|c q].
  - by rewrite (proj2 (split_once_None _ _)).
  - by rewrite (proj2 (split_once_Some _ _ p (c :: q))).
Qed.

Lemma parse_url_params url p ps q :
  parse_url url = (p, ps, q) ->
  ps = fold_left insert_pair (List.filter (fun p => negb (is_empty p)) (split_char "&"%char q)) ∅.
Proof. unfold parse_url. destruct (split_once _ _) as [[]|]; intros; by simplify_eq. Qed.

Lemma wf_request_head r target version hs :
  wf_request r -> hs ≡ₚ map_to_list (headers r) ->
  (exists u, target = "/"%char :: u) ->
  Forall (fun c => is_bad_target_byte c = false) target -> ascii_only target ->
  version = lit "HTTP/1.0" \/ version = lit "HTTP/1.1" ->
  wf_head (method r) target version hs.
Proof.
  intros [[Hm Hup] Hhs Hc _ _ _ _] Hp Hu Ht Ha Hv. split; [| |done|].
  - split; [done|]. eapply Forall_impl; [done|]. intros c. by_bytes.
  - done.
  - split_and!.
    + rewrite Hp. apply map_Forall_to_list in Hhs. by eapply Forall_impl; [done|]; intros [].
    + rewrite Hp. apply NoDup_fst_map_to_list.
    + rewrite Hp. by rewrite length_map_to_list.
Qed.

Lemma target_of_facts r : wf_request r ->
  (exists u, target_of r = "/"%char :: u)
  /\ Forall (fun c => is_bad_target_byte c = false) (target_of r) /\ ascii_only (target_of r).
Proof.
  intros [_ _ _ _ _ ([p Hp] & _ & H1 & H2 & H3 & H4) _]. unfold target_of.
  destruct (raw_query r) as [|c q] eqn:Eq; [rewrite Hp in *; split_and!; by eauto|].
  rewrite Hp in *. split_and!; [by eexists| |];
    apply (Forall_app_2 _ ("/"%char :: p)); (done || by constructor).
Qed.

Lemma framing_wf r : wf_request r -> framing (headers r) = Ok (content_length r).
Proof.
  intros [_ _ _ Hnb Hlen _ _]. unfold framing.
  rewrite (proj2 (andb_false_iff _ _)).
  2:{ rewrite !bool_decide_eq_false, <- !eq_None_not_Some. done. }
  destruct (headers r !! lit "content-length") as [raw|]; [|by rewrite Hlen].
  destruct Hlen as (H1 & H2 & H3). rewrite (proj2 (is_empty_false _)) by done.
  rewrite (proj2 (forallb_Forall _ _)) by done. simpl. by rewrite H3.
Qed.

(** C31: writing an accepted request out again, with its headers in any order, and
    parsing the result gives the same request back: same method, path, query,
    parameters, headers and body length.  So a second parser that reads what this
    one would write cannot disagree about where the body is. *)
Theorem parse_head_roundtrip head r version hs :
  parse_head head = Ok r -> hs ≡ₚ map_to_list (headers r) ->
  version = lit "HTTP/1.0" \/ version = lit "HTTP/1.1" ->
  parse_head (render_head (method r) (target_of r) version hs)
  = Ok {| method := method r; path := path r; params := params r; raw_query := raw_query r;
          headers := headers r; content_length := content_length r; body_consumed := 0;
          keep_alive := keep_alive_of (headers r) version |}.
Proof.
  intros H Hp Hv. pose proof H as Hinv.
  apply parse_head_inv in Hinv as (_ & l & u & v & _ & _ & _ & _ & _ & Hurl & _).
  assert (wf_request r) as Hwf by by eapply accepted_wf.
  destruct (target_of_facts r Hwf) as (Hu & Ht & Ha).
  assert (Hmap : list_to_map hs = headers r).
  { rewrite <- (list_to_map_to_list (headers r)). apply list_to_map_proper; [|done].
    rewrite Hp. apply NoDup_fst_map_to_list. }
  rewrite (parse_render _ _ _ _ (content_length r)).
  - rewrite Hmap. unfold target_of. rewrite parse_url_join.
    2:{ by destruct (wf_path _ Hwf) as (_ & ? & _). }
    cbn [fst snd]. rewrite (parse_url_params _ _ _ _ Hurl).
    rewrite to_ascii_uppercase_id by by destruct (wf_method _ Hwf). done.
  - by apply wf_request_head.
  - rewrite Hmap. by apply framing_wf.
Qed.

Definition sample_head : str :=
  lit "get /v1/files/read?path=/a%20b HTTP/1.1" ++ CRLF ++ lit "X-Sandbox-Token:  abc " ++ CRLF
  ++ lit "Content-Length: 3" ++ CRLF ++ CRLF.

Definition sample_request : Request :=
  match parse_head sample_head with Ok r => r | Err _ => mkRequest [] [] ∅ [] ∅ 0 0 false end.

Lemma sample_head_ok : parse_head sample_head = Ok sample_request.
Proof. vm_compute. reflexivity. Qed.

Lemma parse_head_wf_witness :
  content_length sample_request = 3 /\ wf_request sample_request.
Proof. split; [vm_compute; reflexivity|]. exact (parse_head_wf sample_head _ sample_head_ok). Defined.

Lemma parse_head_headers_witness :
  exists line, line ∈ head_lines sample_head
    /\ line_header line (lit "x-sandbox-token") (lit "abc").
Proof.
  destruct (parse_head_headers sample_head _ sample_head_ok) as [_ H].
  apply H. vm_compute. reflexivity.
Defined.

Lemma parse_head_roundtrip_witness :
  (keep_alive <$> match parse_head (render_head (lit "GET") (lit "/v1/files/read?path=/a%20b")
      (lit "HTTP/1.1") (map_to_list (headers sample_request))) with Ok r => Some r | Err _ => None end)
  = Some true.
Proof.
  change (lit "GET") with (method sample_request).
  change (lit "/v1/files/read?path=/a%20b") with (target_of sample_request).
  rewrite (parse_head_roundtrip sample_head sample_request (lit "HTTP/1.1") _ sample_head_ok);
    [vm_compute; reflexivity|reflexivity|by right].
Defined.
