(* ===== verification/HttpRead.v ===== *)
(** * Theorems about reading requests off a connection

    The head reader takes exactly the bytes of one head off the stream, however
    the peer chops it up; the body readers take exactly the announced bytes; the
    drain leaves the connection at the start of the next request or fails. *)

From S2P Require Import Prelude RustStd StrFacts Net Http HttpFacts.

Definition BLANK : str := CRLF ++ CRLF.

(** [h] is one head at the front of the stream: it ends with the first blank
    line. *)
Definition first_head (h : str) : Prop :=
  ends_with BLANK h = true
  /\ forall p c q, h = p ++ c :: q -> ends_with BLANK p = false.

(** Errors of the environment are real ones. *)
Definition real_error (e : io_error) : Prop := err_kind e <> ModelFuel.
Definition real_errors (r : Reader) : Prop :=
  Forall (fun ev => match ev with RErr _ e => real_error e | RData _ _ => True end) (rd_events r).

Lemma read_real_errors max r o r' : real_errors r -> read max r = (o, r') -> real_errors r'.
Proof.
  unfold real_errors, read. intros Hr H.
  destruct r as [[|b bs] [|[t [|c d]|t e] ev] clock]; simpl in *; simplify_eq; simpl; try done;
    try by apply Forall_cons in Hr as [_ Hr].
Qed.

Lemma read_err_real max r e r' : real_errors r -> read max r = (Err e, r') -> real_error e.
Proof.
  unfold real_errors, read. intros Hr H.
  destruct r as [[|b bs] [|[t d|t e'] ev] c]; simpl in *; simplify_eq.
  by apply Forall_cons in Hr as [? _].
Qed.

Lemma slen_app s t : slen (s ++ t) = slen s + slen t.
Proof. unfold slen. rewrite length_app. lia. Qed.
Lemma slen_nonneg s : 0 <= slen s.
Proof. unfold slen. lia. Qed.

(** ** The head *)

Lemma read_head_S fuel deadline head r :
  read_head (S fuel) deadline head r =
  if deadline <? rd_clock r then
    (Err (error_new TimedOut (lit "timed out reading the request head")), r)
  else match read 1 r with
       | (Err e, r') => (Err e, r')
       | (Ok [], r') => (if is_empty head then Ok None else Err (eof_error "eof in request head"), r')
       | (Ok (b :: _), r') =>
           if MAX_HEADER_BYTES <? slen (head ++ [b]) then
             (Err (error_new InvalidData (lit "request head too large")), r')
           else if ends_with BLANK (head ++ [b]) then (Ok (Some (head ++ [b])), r')
           else read_head fuel deadline (head ++ [b]) r'
       end.
Proof.
  cbn [read_head]. unfold io_bind at 1. cbn [io_gets]. case_match; [done|].
  unfold io_bind. destruct (read 1 r) as [[[|b got]|e] r']; try done.
  - by destruct (is_empty head).
  - change (CRLF ++ CRLF) with BLANK. destruct (MAX_HEADER_BYTES <? _); [done|].
    by destruct (ends_with BLANK _).
Qed.
#[global] Arguments read_head : simpl never.

Lemma read_one r b bs r' : read 1 r = (Ok (b :: bs), r') -> bs = [] /\ rd_bytes r = b :: rd_bytes r'.
Proof.
  intros H. pose proof (read_ok_length _ _ _ _ H) as Hl. destruct bs; [|simpl in Hl; lia].
  split; [done|]. by apply read_ok_bytes in H.
Qed.

Lemma read_head_sound fuel deadline head r h r' :
  read_head fuel deadline head r = (Ok (Some h), r') ->
  exists p, h = head ++ p /\ rd_bytes r = p ++ rd_bytes r'
    /\ ends_with BLANK h = true /\ slen h <= MAX_HEADER_BYTES.
Proof.
  revert head r. induction fuel as [|fuel IH]; intros head r; [done|].
  rewrite read_head_S. destruct (deadline <? rd_clock r); [done|].
  destruct (read 1 r) as [[[|b bs]|e] r1] eqn:E; try done; [by case_match|].
  apply read_one in E as [-> Hb]. destruct (MAX_HEADER_BYTES <? _) eqn:Hm; [done|].
  apply Z.ltb_ge in Hm. destruct (ends_with BLANK (head ++ [b])) eqn:He.
  - intros. simplify_eq. exists [b]. split_and!; done.
  - intros H. apply IH in H as (p & -> & Hp & Hh & Hl). exists (b :: p).
    rewrite <- app_assoc in *. split_and!; try done. by rewrite Hb, Hp.
Qed.

(** Before the end of the head the loop sees no blank line. *)
Lemma read_head_first fuel deadline head r h r' :
  read_head fuel deadline head r = (Ok (Some h), r') ->
  forall p c q, h = head ++ p ++ c :: q -> p <> [] -> ends_with BLANK (head ++ p) = false.
Proof.
  revert head r. induction fuel as [|fuel IH]; intros head r; [done|].
  rewrite read_head_S. destruct (deadline <? rd_clock r); [done|].
  destruct (read 1 r) as [[[|b bs]|e] r1] eqn:E; try done; [by case_match|].
  destruct (MAX_HEADER_BYTES <? _); [done|]. destruct (ends_with BLANK (head ++ [b])) eqn:He.
  - intros [= <- <-] p c q Heq Hp. apply (inj (app head)) in Heq. destruct p; [done|]. simplify_eq/=.
    by destruct p.
  - intros H2 p c q Heq Hp. destruct p as [|b' p]; [done|].
    pose proof (read_head_sound _ _ _ _ _ _ H2) as (p1 & Hh & _).
    assert (b' = b) as ->.
    { rewrite Hh, <- app_assoc in Heq. apply (inj (app head)) in Heq. by simplify_eq/=. }
    destruct p as [|b2 p]; [done|].
    change (head ++ b :: b2 :: p) with (head ++ [b] ++ b2 :: p). rewrite app_assoc.
    eapply IH; [done| |done]. rewrite Heq. rewrite <- app_assoc. done.
Qed.

Lemma read_head_fuel fuel deadline head r e r' :
  real_errors r -> slen head <= MAX_HEADER_BYTES < slen head + Z.of_nat fuel ->
  read_head fuel deadline head r = (Err e, r') -> real_error e.
Proof.
  revert head r. induction fuel as [|fuel IH]; intros head r Hr Hl; [lia|].
  rewrite read_head_S. destruct (deadline <? rd_clock r); [by intros; simplify_eq|].
  destruct (read 1 r) as [[[|b bs]|e1] r1] eqn:E.
  - destruct (is_empty head); by intros; simplify_eq.
  - destruct (MAX_HEADER_BYTES <? _) eqn:Hm; [by intros; simplify_eq|]. apply Z.ltb_ge in Hm.
    destruct (ends_with _ _); [done|]. apply IH; [by eapply read_real_errors|].
    rewrite slen_app in *. unfold slen in *. simpl in *. lia.
  - intros. simplify_eq. by eapply read_err_real.
Qed.

Lemma read_head_complete fuel deadline head r p rest :
  rd_bytes r = p ++ rest -> p <> [] -> ends_with BLANK (head ++ p) = true ->
  (forall p1 c q, p = p1 ++ c :: q -> p1 <> [] -> ends_with BLANK (head ++ p1) = false) ->
  slen (head ++ p) <= MAX_HEADER_BYTES -> (length p <= fuel)%nat ->
  events_clean (rd_events r) -> rd_clock r <= deadline -> events_by deadline (rd_events r) ->
  exists r', read_head fuel deadline head r = (Ok (Some (head ++ p)), r') /\ rd_bytes r' = rest
    /\ events_clean (rd_events r').
Proof.
  revert head r p. induction fuel as [|fuel IH]; intros head r p Hb Hp He Hmin Hl Hf Hc Hclk Hby.
  { by destruct p; simpl in *; [|lia]. }
  rewrite read_head_S. rewrite (proj2 (Z.ltb_ge _ _)) by done.
  destruct (read_clean 1 r ltac:(lia) Hc) as (got & r1 & E & Hc1 & Hemp & Htime). rewrite E.
  destruct (Htime _ Hclk Hby) as [Hclk1 Hby1].
  destruct got as [|b bs].
  { destruct (Hemp eq_refl) as [H0 _]. rewrite H0 in Hb. by destruct p. }
  apply read_one in E as [-> E]. destruct p as [|b' p]; [done|].
  rewrite Hb in E. simpl in E. injection E as -> E.
  rewrite (proj2 (Z.ltb_ge _ _)).
  2:{ rewrite slen_app in *. unfold slen in *. simpl in *. lia. }
  destruct p as [|c p].
  { rewrite He. eauto. }
  rewrite (Hmin [b] c p eq_refl ltac:(done)).
  destruct (IH (head ++ [b]) r1 (c :: p)) as (r' & Hrun & Hrest & Hcl); try done.
  - by rewrite <- app_assoc.
  - intros p1 d q Heq Hp1. rewrite <- app_assoc. apply (Hmin ([b] ++ p1) d q); [|by destruct p1].
    by rewrite Heq.
  - by rewrite <- app_assoc.
  - simpl in *. lia.
  - exists r'. by rewrite Hrun, <- app_assoc.
Qed.

(** C21: a request comes off the connection exactly: if [read_request] returns one,
    the stream starts with a head of at most 64 KiB that ends at its first blank
    line and parses to that request, and the reader is left at the first byte
    after it; and the only errors are real ones, so the loop ends by one of its
    own exits for every sequence of reads. *)
Theorem read_request_exact r :
  real_errors r ->
  (forall q r', read_request r = (Ok (Some q), r') ->
     exists h, rd_bytes r = h ++ rd_bytes r' /\ first_head h
       /\ slen h <= MAX_HEADER_BYTES /\ parse_head h = Ok q)
  /\ (forall e r', read_request r = (Err e, r') -> real_error e).
Proof.
  intros Hr. unfold read_request. split.
  - intros q r' H. apply io_bind_ok in H as (start & r1 & [= <- <-] & H).
    apply io_bind_ok in H as (o & r2 & Hh & H). destruct o as [h|]; [|done].
    destruct (parse_head h) as [q'|e] eqn:Hp; [|done]. injection H as -> ->.
    pose proof (read_head_first _ _ _ _ _ _ Hh) as Hfirst.
    apply read_head_sound in Hh as (p & -> & Hb & He & Hl). simpl in *.
    exists p. split_and!; try done. split; [done|]. intros p1 c p2 Heq.
    destruct p1 as [|a p1]; [done|]. by eapply (Hfirst (a :: p1)).
  - intros e r' H. apply io_bind_err in H as [H|(start & r1 & [= <- <-] & H)]; [done|].
    apply io_bind_err in H as [H|(o & r2 & Hh & H)].
    + eapply read_head_fuel; [done| |done]. unfold HEAD_FUEL.
      change (slen []) with 0. unfold MAX_HEADER_BYTES. lia.
    + destruct o as [h|]; [|done]. destruct (parse_head h) as [|e'] eqn:Hp; [done|].
      injection H as -> ->. unfold real_error. by rewrite (parse_head_err_kind _ _ Hp).
Qed.

(** C30: and it comes off the connection whenever it is there: however the peer
    splits its bytes into packets, if the stream starts with a head of at most
    64 KiB and its bytes arrive before the head deadline, [read_request] gives
    exactly what [parse_head] says of that head and leaves the rest unread. *)
Theorem read_request_complete r h rest :
  rd_bytes r = h ++ rest -> first_head h -> slen h <= MAX_HEADER_BYTES ->
  events_clean (rd_events r) -> events_by (rd_clock r + HEAD_TIMEOUT) (rd_events r) ->
  exists r', rd_bytes r' = rest /\ events_clean (rd_events r')
    /\ read_request r = (match parse_head h with Ok q => Ok (Some q) | Err e => Err e end, r').
Proof.
  intros Hb [He Hfirst] Hl Hc Hby.
  assert (h <> []) as Hne by by intros ->.
  destruct (read_head_complete HEAD_FUEL (rd_clock r + HEAD_TIMEOUT) [] r h rest) as (r' & Hrun & Hrest & Hcl);
    try done.
  - intros p1 c q Hq _. by eapply Hfirst.
  - unfold HEAD_FUEL, MAX_HEADER_BYTES, slen in *. lia.
  - unfold HEAD_TIMEOUT. lia.
  - exists r'. split_and!; try done. unfold read_request.
    rewrite io_bind_gets. rewrite (io_bind_run _ _ _ _ _ Hrun).
    change ([] ++ h) with h. by destruct (parse_head h).
Qed.

(** ** The body *)

Lemma read_body_loop_S fuel n body r :
  read_body_loop (S fuel) n body r =
  if slen body <? n then
    match read (Z.to_nat (Z.min (n - slen body) CHUNK)) r with
    | (Err e, r') => (Err e, r')
    | (Ok [], r') => (Err (eof_error "eof in request body"), r')
    | (Ok (b :: got), r') => read_body_loop fuel n (body ++ b :: got) r'
    end
  else (Ok body, r).
Proof.
  cbn [read_body_loop]. destruct (slen body <? n); [|done].
  unfold io_bind. by destruct (read _ r) as [[[|b got]|e] r'].
Qed.
#[global] Arguments read_body_loop : simpl never.

Lemma read_body_loop_sound fuel n body r b r' :
  slen body <= n -> read_body_loop fuel n body r = (Ok b, r') ->
  exists p, b = body ++ p /\ rd_bytes r = p ++ rd_bytes r' /\ slen b = n.
Proof.
  revert body r. induction fuel as [|fuel IH]; intros body r Hl; [done|].
  rewrite read_body_loop_S. destruct (slen body <? n) eqn:Hn.
  - destruct (read _ r) as [[[|c got]|e] r1] eqn:E; try done.
    pose proof (read_ok_length _ _ _ _ E) as Hlen. apply read_ok_bytes in E; [|done].
    intros H. apply IH in H as (p & -> & Hp & Hs).
    + exists ((c :: got) ++ p). rewrite <- app_assoc, E, Hp. by rewrite <- app_assoc in *.
    + rewrite slen_app. unfold slen in *. lia.
  - apply Z.ltb_ge in Hn. intros. simplify_eq. exists []. rewrite app_nil_r. split_and!; [done..|lia].
Qed.

Lemma read_body_loop_complete fuel n body r :
  slen body <= n -> n - slen body <= slen (rd_bytes r) ->
  events_clean (rd_events r) -> (rd_size r < fuel)%nat ->
  exists b r', read_body_loop fuel n body r = (Ok b, r') /\ events_clean (rd_events r').
Proof.
  revert body r. induction fuel as [|fuel IH]; intros body r Hl Hs Hc Hf; [lia|].
  rewrite read_body_loop_S. destruct (slen body <? n) eqn:Hn; [|by eauto].
  apply Z.ltb_lt in Hn.
  destruct (read_clean (Z.to_nat (Z.min (n - slen body) CHUNK)) r) as (got & r1 & E & Hc1 & Hemp & _);
    [unfold CHUNK; lia|done|].
  rewrite E. destruct got as [|c got].
  { destruct (Hemp eq_refl) as [H0 _]. rewrite H0 in Hs. unfold slen in *. simpl in *. lia. }
  pose proof (read_ok_length _ _ _ _ E) as Hlen.
  pose proof (read_ok_size _ _ _ _ E ltac:(done)) as Hsize.
  apply read_ok_bytes in E; [|done]. rewrite E, slen_app in Hs.
  apply IH; try done; rewrite ?slen_app; unfold slen in *; simpl in *; lia.
Qed.

Lemma on_reader_run {A} (m : io Reader A) q r o r' :
  m r = (o, r') -> on_reader m (q, r) = (o, (q, r')).
Proof. unfold on_reader, io_lens. simpl. by intros ->. Qed.

Lemma on_reader_ok {A} (m : io Reader A) s a s' :
  on_reader m s = (Ok a, s') -> exists r', m s.2 = (Ok a, r') /\ s' = (s.1, r').
Proof. unfold on_reader, io_lens. destruct (m s.2) as [o r'] eqn:E. intros. simplify_eq. eauto. Qed.

Lemma read_body_takes max q r body s' :
  0 <= content_length q -> read_body max (q, r) = (Ok body, s') ->
  s'.1 = set_consumed (content_length q) q /\ rd_bytes r = body ++ rd_bytes s'.2
  /\ slen body = content_length q /\ content_length q <= max.
Proof.
  intros Hn H. unfold read_body in H. apply io_bind_ok in H as (q1 & s1 & [= <- <-] & H). simpl in H.
  destruct (max <? content_length q) eqn:Hmax; [done|]. apply Z.ltb_ge in Hmax.
  apply io_bind_ok in H as (fuel & s2 & Hf & H). apply on_reader_ok in Hf as (r2 & [= <- <-] & ->).
  apply io_bind_ok in H as (b & s3 & Hb & H). apply on_reader_ok in Hb as (r3 & Hb & ->). simpl in *.
  apply read_body_loop_sound in Hb as (p & -> & Hb & Hlen); [|unfold slen; simpl; lia].
  injection H as <- <-. done.
Qed.

(** [read_body] returns the body and nothing else: on success it is the next
    Content-Length bytes of the stream, all of them, and the request is marked
    consumed; a body over the limit is refused before a byte of it is read; and
    when the peer sends the whole body it is always read. *)
Theorem read_body_exact max q r :
  0 <= content_length q ->
  (forall body s', read_body max (q, r) = (Ok body, s') ->
     s'.1 = set_consumed (content_length q) q /\ rd_bytes r = body ++ rd_bytes s'.2
     /\ slen body = content_length q /\ content_length q <= max)
  /\ (max < content_length q ->
        read_body max (q, r) = (Err (error_new InvalidData (lit "body too large")), (q, r)))
  /\ (content_length q <= max -> content_length q <= slen (rd_bytes r) -> events_clean (rd_events r) ->
        exists body s', read_body max (q, r) = (Ok body, s')).
Proof.
  intros Hn. split; [intros; by apply read_body_takes|]. unfold read_body. split.
  - intros Hmax. rewrite io_bind_gets. simpl.
    by rewrite (proj2 (Z.ltb_lt _ _)) by done.
  - intros Hmax Hlen Hc. rewrite io_bind_gets. simpl.
    rewrite (proj2 (Z.ltb_ge _ _)) by done.
    rewrite (io_bind_run _ _ _ _ _ (on_reader_run body_fuel q r _ _ eq_refl)).
    destruct (read_body_loop_complete (S (rd_size r)) (content_length q) [] r) as (b & r' & Hrun & _);
      [by (unfold slen; simpl; lia)|by (unfold slen in *; simpl; lia)|done|lia|].
    rewrite (io_bind_run _ _ _ _ _ (on_reader_run _ q r _ _ Hrun)).
    eexists _, _. reflexivity.
Qed.

(** Feeding chunks to a consumer, one after the other. *)
Fixpoint feed {W} (f : str -> io W unit) (cs : list str) : io W unit :=
  match cs with
  | [] => io_ret tt
  | c :: cs' => f c ;;; feed f cs'
  end.

Section StreamFacts.
Context {W : Type} (f : str -> io W unit).

Lemma stream_loop_S fuel remaining q r w :
  stream_loop f (S fuel) remaining ((q, r), w) =
  if 0 <? remaining then
    match read (Z.to_nat (Z.min CHUNK remaining)) r with
    | (Err e, r') => (Err e, ((q, r'), w))
    | (Ok [], r') => (Err (eof_error "eof in request body"), ((q, r'), w))
    | (Ok (b :: got), r') =>
        match f (b :: got) w with
        | (Err e, w') => (Err e, ((q, r'), w'))
        | (Ok _, w') =>
            stream_loop f fuel (remaining - slen (b :: got))
              ((set_consumed (body_consumed q + slen (b :: got)) q, r'), w')
        end
    end
  else (Ok tt, ((q, r), w)).
Proof.
  cbn [stream_loop]. destruct (0 <? remaining); [|done].
  unfold io_bind at 1, on_body at 1, on_reader at 1, io_lens. cbn [fst snd].
  destruct (read _ r) as [[[|b got]|e] r']; try done.
  unfold io_bind at 1, on_sink, io_lens. cbn [fst snd].
  by destruct (f (b :: got) w) as [[[]|e] w'].
Qed.
#[global] Arguments stream_loop {W} f : simpl never.

Lemma stream_loop_sound fuel remaining q r w o s' :
  0 <= remaining -> stream_loop f fuel remaining ((q, r), w) = (Ok o, s') ->
  exists cs, rd_bytes r = concat cs ++ rd_bytes s'.1.2 /\ slen (concat cs) = remaining
    /\ feed f cs w = (Ok tt, s'.2)
    /\ s'.1.1 = set_consumed (body_consumed q + remaining) q.
Proof.
  revert remaining q r w. induction fuel as [|fuel IH]; intros n q r w Hn; [done|].
  rewrite stream_loop_S. destruct (0 <? n) eqn:Hpos.
  - destruct (read _ r) as [[[|b got]|e] r1] eqn:E; try done.
    pose proof (read_ok_length _ _ _ _ E) as Hlen. apply read_ok_bytes in E; [|done].
    destruct (f (b :: got) w) as [[[]|e] w1] eqn:Hf; [|done].
    intros H. apply IH in H as (cs & Hb & Hl & Hfeed & Hq).
    + exists ((b :: got) :: cs). split_and!.
      * rewrite E, Hb. cbn [concat]. by rewrite <- app_assoc.
      * cbn [concat]. rewrite slen_app. lia.
      * cbn [feed]. by rewrite (io_bind_run _ _ _ _ _ Hf).
      * rewrite Hq. unfold set_consumed. simpl. f_equal. lia.
    + apply Z.ltb_lt in Hpos. unfold slen, CHUNK in *. lia.
  - apply Z.ltb_ge in Hpos. intros. simplify_eq. exists []. split_and!; [done|unfold slen; simpl; lia|done|].
    destruct q. unfold set_consumed. simpl. f_equal. lia.
Qed.

(** An upload gets the body and nothing else: when [stream_body] succeeds,
    the chunks it passed to its consumer, in order, are the unread part of the
    body, whatever the packet boundaries, and the consumer accepted each. *)
Lemma stream_body_takes q r w n s' :
  0 <= body_consumed q <= content_length q -> content_length q <= u64_max ->
  stream_body f ((q, r), w) = (Ok n, s') ->
  exists cs, rd_bytes r = concat cs ++ rd_bytes s'.1.2
    /\ slen (concat cs) = content_length q - body_consumed q
    /\ feed f cs w = (Ok tt, s'.2)
    /\ s'.1.1 = set_consumed (content_length q) q /\ n = content_length q.
Proof.
  intros Hq Hmax H. unfold stream_body in H.
  apply io_bind_ok in H as (q1 & s1 & [= <- <-] & H). simpl in H.
  apply io_bind_ok in H as (fuel & s2 & Hf & H). injection Hf as <- <-.
  apply io_bind_ok in H as ([] & s3 & Hl & H). injection H as <- <-.
  unfold wrap_u64 in Hl.
  rewrite (Z.mod_small (content_length q - body_consumed q)) in Hl by (unfold u64_max in *; lia).
  apply stream_loop_sound in Hl as (cs & Hb & Hlen & Hfeed & Hs); [|lia].
  exists cs. split_and!; try done. rewrite Hs. f_equal. lia.
Qed.
End StreamFacts.

(** ** Draining *)

Lemma copy_to_sink_S fuel limit r :
  copy_to_sink (S fuel) limit r =
  if 0 <? limit then
    match read (Z.to_nat (Z.min limit 8192)) r with
    | (Ok [], r') => (Ok tt, r')
    | (Ok (b :: got), r') => copy_to_sink fuel (limit - slen (b :: got)) r'
    | (Err e, r') => if bool_decide (err_kind e = Interrupted) then copy_to_sink fuel limit r' else (Err e, r')
    end
  else (Ok tt, r).
Proof.
  cbn [copy_to_sink]. destruct (0 <? limit); [|done]. unfold io_bind, io_try.
  destruct (read _ r) as [[[|b got]|e] r']; simpl; try done. by case_bool_decide.
Qed.
#[global] Arguments copy_to_sink : simpl never.

(** A failure of the socket that is not a mere interruption. *)
Definition broken (r : Reader) (e : io_error) : Prop :=
  err_kind e <> Interrupted /\ exists t, RErr t e ∈ rd_events r.

Lemma read_err_broken max r e r' :
  read max r = (Err e, r') -> (exists t, RErr t e ∈ rd_events r) /\ forall e', broken r' e' -> broken r e'.
Proof.
  unfold read, broken. intros H. destruct r as [[|b bs] [|[t d|t e0] ev] clock]; simplify_eq/=.
  split; [exists t; set_solver|]. intros e' [? [t' ?]]. split; [done|]. exists t'. set_solver.
Qed.

Lemma read_ok_broken max r s r' e : read max r = (Ok s, r') -> broken r' e -> broken r e.
Proof.
  unfold read, broken. intros H [Hk [t' Hin]]. split; [done|]. exists t'.
  destruct r as [[|b bs] [|[t [|c d]|t e0] ev] clock]; simplify_eq/=; set_solver.
Qed.

(** [n] bytes of what [r] has to come are skipped, fewer only if the stream has ended. *)
Definition skips (n : Z) (r r' : Reader) : Prop :=
  exists skipped, rd_bytes r = skipped ++ rd_bytes r'
    /\ (slen skipped = n \/ (slen skipped < n /\ at_end r')).

Lemma skips_more n r r1 r' got :
  rd_bytes r = got ++ rd_bytes r1 -> skips (n - slen got) r1 r' -> skips n r r'.
Proof.
  intros Hb (p & Hp & Hd). exists (got ++ p). rewrite Hb, Hp, app_assoc, slen_app. split; [done|].
  destruct Hd as [Hd|[Hd ?]]; [left|right; split; [|done]]; lia.
Qed.

(** Success means the bytes are gone; a failure is the socket's own. *)
Lemma copy_to_sink_spec fuel limit r :
  0 <= limit -> (rd_size r < fuel)%nat ->
  match copy_to_sink fuel limit r with
  | (Ok _, r') => skips limit r r'
  | (Err e, _) => broken r e
  end.
Proof.
  revert limit r. induction fuel as [|fuel IH]; intros limit r Hl Hf; [lia|].
  rewrite copy_to_sink_S. destruct (Z.ltb_spec 0 limit) as [Hpos|Hpos].
  - destruct (read _ r) as [[[|b got]|e] r1] eqn:E.
    + apply read_end in E as [Hend Hb]; [|lia]. exists []. rewrite Hb, at_end_bytes by done.
      split; [done|]. right. by split.
    + pose proof (read_ok_length _ _ _ _ E) as Hlen. pose proof (read_ok_size _ _ _ _ E ltac:(done)) as Hsize.
      pose proof (read_ok_bytes _ _ _ _ E ltac:(done)) as Hb.
      specialize (IH (limit - slen (b :: got)) r1 ltac:(unfold slen; lia) ltac:(simpl in *; lia)).
      destruct (copy_to_sink _ _ r1) as [[u|e] r']; [by eapply skips_more|by eapply read_ok_broken].
    + destruct (read_err_broken _ _ _ _ E) as [Hin Hbr]. case_bool_decide as Hk; [|by split].
      assert (Hsize : (rd_size r1 < fuel)%nat).
      { pose proof E as E'. unfold read, rd_size in *.
        destruct r as [[|c bs] [|[t d|t e0] ev] clock]; simplify_eq/=. lia. }
      specialize (IH limit r1 Hl Hsize). destruct (copy_to_sink _ _ r1) as [[u|e'] r']; [|by apply Hbr].
      eapply (skips_more limit r r1 r' []); [by eapply read_err_bytes|]. by rewrite Z.sub_0_r.
  - exists []. split; [done|]. left. unfold slen. simpl. lia.
Qed.

Lemma drain_body_small q r :
  0 <= body_consumed q <= content_length q -> content_length q <= u64_max ->
  content_length q - body_consumed q <= MAX_DRAIN_BYTES ->
  exists o r', drain_body (q, r) = (o, ((if is_ok o then set_consumed (content_length q) q else q), r'))
    /\ match o with Ok _ => skips (content_length q - body_consumed q) r r' | Err e => broken r e end.
Proof.
  intros Hq Hmax Hr. unfold drain_body, wrap_u64. rewrite io_bind_gets. simpl fst.
  rewrite (Z.mod_small (content_length q - body_consumed q)) by (unfold u64_max in *; lia).
  destruct (Z.eqb_spec (content_length q - body_consumed q) 0) as [H0|H0].
  - exists (Ok tt), r. split; [|exists []; split; [done|left; unfold slen; simpl; lia]].
    unfold io_ret. destruct q. unfold set_consumed. simpl in *. do 4 f_equal. lia.
  - rewrite (proj2 (Z.ltb_ge _ _)) by done.
    rewrite (io_bind_run _ _ _ _ _ (on_reader_run body_fuel q r _ _ eq_refl)).
    pose proof (copy_to_sink_spec (S (rd_size r)) (content_length q - body_consumed q) r ltac:(lia) ltac:(lia)) as Hs.
    destruct (copy_to_sink _ _ r) as [[[]|e] r'] eqn:Hrun.
    + rewrite (io_bind_run _ _ _ _ _ (on_reader_run _ q r _ _ Hrun)). by exists (Ok tt), r'.
    + exists (Err e), r'. split; [|done]. unfold io_bind. by rewrite (on_reader_run _ q r _ _ Hrun).
Qed.

Lemma drain_body_large q r :
  0 <= body_consumed q <= content_length q -> content_length q <= u64_max ->
  MAX_DRAIN_BYTES < content_length q - body_consumed q -> exists e, drain_body (q, r) = (Err e, (q, r)).
Proof.
  intros Hq Hmax Hr. unfold drain_body, wrap_u64. rewrite io_bind_gets. simpl fst.
  rewrite (Z.mod_small (content_length q - body_consumed q)) by (unfold u64_max in *; lia).
  rewrite (proj2 (Z.eqb_neq _ _)) by (unfold MAX_DRAIN_BYTES in *; lia).
  rewrite (proj2 (Z.ltb_lt _ _)) by done. by eexists.
Qed.

(** C18: draining keeps the framing, whatever the network does: after a handler that
    read [body_consumed] of the announced bytes, a [drain_body] that succeeds has
    skipped exactly the rest, so that the next request is read from the byte after
    the body, or has reached the end of the stream, so that there is no next one; it
    fails, and the caller closes, only because the socket failed, or because the
    rest is over 1 MiB, of which nothing is read. *)
Theorem drain_body_framed q r :
  0 <= body_consumed q <= content_length q -> content_length q <= u64_max ->
  let remaining := content_length q - body_consumed q in
  if MAX_DRAIN_BYTES <? remaining then exists e, drain_body (q, r) = (Err e, (q, r))
  else exists o r', drain_body (q, r) = (o, ((if is_ok o then set_consumed (content_length q) q else q), r'))
    /\ match o with Ok _ => skips remaining r r' | Err e => broken r e end.
Proof.
  intros Hq Hmax remaining. destruct (Z.ltb_spec MAX_DRAIN_BYTES remaining); [by apply drain_body_large|by apply drain_body_small].
Qed.

(** ** The theorems at a concrete connection: a head in three packets, then a
    three-byte body in two, then the next request. *)

Definition sample_reader : Reader :=
  {| rd_buf := [];
     rd_events := [RData 1 (take 10 sample_head); RData 2 (drop 10 sample_head ++ lit "a");
                   RData 3 (lit "b"); RData 4 (lit "cGET")];
     rd_clock := 0 |}.
Definition sample_after_head : Reader :=
  {| rd_buf := lit "a"; rd_events := [RData 3 (lit "b"); RData 4 (lit "cGET")]; rd_clock := 2 |}.
Definition sample_after_body : Reader := {| rd_buf := lit "GET"; rd_events := []; rd_clock := 4 |}.

Lemma sample_first_head : first_head sample_head.
Proof.
  split; [vm_compute; reflexivity|].
  intros p c q H. assert (length p < length sample_head)%nat as Hp.
  { rewrite H, length_app. simpl. lia. }
  assert (p = take (length p) sample_head) as ->.
  { rewrite H. by rewrite take_app_length. }
  revert Hp. generalize (length p). clear. intros n Hn.
  assert (Hall : forallb (fun n => negb (ends_with BLANK (take n sample_head)))
    (seq 0 (length sample_head)) = true)
    by (vm_compute; reflexivity).
  rewrite forallb_forall in Hall. apply negb_true_iff, Hall, in_seq. lia.
Qed.

Lemma read_request_exact_witness :
  real_errors sample_reader /\
  exists h, rd_bytes sample_reader = h ++ lit "abcGET" /\ first_head h.
Proof.
  assert (Hr : real_errors sample_reader) by (repeat constructor).
  assert (E : read_request sample_reader = (Ok (Some sample_request), sample_after_head))
    by (vm_compute; reflexivity).
  split; [exact Hr|].
  destruct (proj1 (read_request_exact sample_reader Hr) _ _ E) as (h & Hb & Hf & _).
  exists h. split; [|exact Hf]. rewrite Hb. reflexivity.
Defined.

Lemma read_request_complete_witness :
  exists r', rd_bytes r' = lit "abcGET" /\ (read_request sample_reader).2 = r'.
Proof.
  destruct (read_request_complete sample_reader sample_head (lit "abcGET")) as (r' & Hb & _ & E);
    [reflexivity|exact sample_first_head|vm_compute; discriminate|repeat (split; [discriminate|]); done| |].
  - repeat constructor; vm_compute; discriminate.
  - exists r'. split; [exact Hb|]. rewrite E. reflexivity.
Defined.

Lemma read_body_exact_witness :
  exists body s', read_body 100 (sample_request, sample_after_head) = (Ok body, s')
    /\ slen body = 3 /\ body = lit "abc".
Proof.
  destruct (read_body_exact 100 sample_request sample_after_head) as (Hok & _ & Hall);
    [vm_compute; discriminate|].
  destruct Hall as (body & s' & E); [vm_compute; discriminate..|repeat (split; [discriminate|]); done|].
  exists body, s'. destruct (Hok _ _ E) as (_ & _ & Hl & _). split; [exact E|]. split; [exact Hl|].
  revert E. vm_compute. intros E. congruence.
Defined.

(** A consumer that appends to a buffer. *)
Definition append_sink (c : str) : io str unit := io_modify (fun w => w ++ c).

Example stream_body_sample :
  exists cs, lit "abcGET" = concat cs ++ lit "GET" /\ slen (concat cs) = 3.
Proof.
  assert (E : stream_body append_sink (sample_request, sample_after_head, [])
    = (Ok 3, (set_consumed 3 sample_request, sample_after_body, lit "abc"))) by (vm_compute; reflexivity).
  assert (H1 : 0 <= body_consumed sample_request <= content_length sample_request)
    by (vm_compute; split; discriminate).
  assert (H2 : content_length sample_request <= u64_max) by (vm_compute; discriminate).
  destruct (stream_body_takes append_sink _ _ _ _ _ H1 H2 E) as (cs & Hb & Hl & _).
  exists cs. split; [exact Hb|]. rewrite Hl. vm_compute. reflexivity.
Defined.

Lemma drain_body_framed_witness :
  exists r', drain_body (sample_request, sample_after_head) = (Ok tt, (set_consumed 3 sample_request, r'))
    /\ skips 3 sample_after_head r' /\ rd_bytes r' = lit "GET".
Proof.
  destruct (drain_body_framed sample_request sample_after_head) as (o & r' & E & Hs).
  - vm_compute. split; discriminate.
  - vm_compute. discriminate.
  - exists r'. assert (Hr : (drain_body (sample_request, sample_after_head)).1 = Ok tt) by (vm_compute; reflexivity).
    rewrite E in Hr. simpl in Hr. subst o. split; [exact E|]. split; [exact Hs|].
    apply (f_equal (fun x => rd_bytes x.2.2)) in E. simpl in E. rewrite <- E. vm_compute. reflexivity.
Defined.
