(* ===== verification/ReaderProgress.v ===== *)
(** * Reading only moves forward

    What every function that reads the connection leaves: a later point of the same
    stream.  This bounds the connection loop of file Server. *)

From S2P Require Import Prelude RustStd Net Wp Http HttpRead.

(** [r'] is [r] some reads later. *)
Definition fed (r r' : Reader) : Prop :=
  (exists pre, rd_events r = pre ++ rd_events r') /\ (rd_size r' <= rd_size r)%nat.

#[export] Instance fed_preorder : PreOrder fed.
Proof.
  split.
  - intros r. split; [by exists []|done].
  - intros r1 r2 r3 [[p1 H1] S1] [[p2 H2] S2]. split; [|lia]. exists (p1 ++ p2). by rewrite H1, H2, app_assoc.
Qed.

Lemma fed_refl r : fed r r.
Proof. reflexivity. Qed.
#[local] Hint Resolve fed_refl : core.

Lemma fed_real r r' : fed r r' -> real_errors r -> real_errors r'.
Proof. intros [[pre H] _]. unfold real_errors. rewrite H, Forall_app. by intros [_ ?]. Qed.

Lemma read_fed max r : wp (read max) r (fun _ r' => fed r r').
Proof.
  unfold wp, read, fed, rd_size. destruct r as [[|b buf] [|[t [|c s]|t e] ev] clock]; simpl; split;
    try (by exists []); try (by eexists [_]); try (exists (RData t [] :: ev); by rewrite app_nil_r);
    rewrite ?length_drop, ?drop_nil; simpl; lia.
Qed.

(** Code whose every outcome is a later point. *)
Definition feeds {A} (m : io Reader A) : Prop := forall r, wp m r (fun _ r' => fed r r').

Lemma read_head_feeds fuel deadline head : feeds (read_head fuel deadline head).
Proof.
  revert head. induction fuel as [|fuel IH]; intros head r; [exact (fed_refl r)|].
  unfold wp. rewrite read_head_S. destruct (deadline <? rd_clock r); [done|].
  pose proof (read_fed 1 r) as H. unfold wp in H. destruct (read 1 r) as [[[|b got]|e] r1]; simpl in H; [done| |done].
  destruct (MAX_HEADER_BYTES <? _); [done|]. destruct (ends_with _ _); [done|]. etransitivity; [exact H|apply IH].
Qed.

(** A head takes at least one byte. *)
Lemma read_head_eats fuel deadline head r h r' :
  read_head fuel deadline head r = (Ok (Some h), r') -> (rd_size r' < rd_size r)%nat.
Proof.
  destruct fuel as [|fuel]; [done|]. rewrite read_head_S. destruct (deadline <? rd_clock r); [done|].
  destruct (read 1 r) as [[[|b got]|e] r1] eqn:E; [by destruct (is_empty head)| |done].
  apply read_ok_size in E; [|done]. simpl in E.
  destruct (MAX_HEADER_BYTES <? _); [done|]. destruct (ends_with _ _); [intros [= _ <-]; lia|].
  intros H. pose proof (read_head_feeds fuel deadline (head ++ [b]) r1) as [_ Hs]. rewrite H in Hs. simpl in Hs. lia.
Qed.

Lemma read_request_feeds : feeds read_request.
Proof.
  intros r. unfold read_request. apply wp_bind, wp_gets, wp_bind.
  eapply wp_mono; [apply read_head_feeds|]. intros [[h|]|e] r' H; [|done|done].
  destruct (parse_head h); done.
Qed.

Lemma read_request_eats r q r' : read_request r = (Ok (Some q), r') -> (rd_size r' < rd_size r)%nat.
Proof.
  unfold read_request. rewrite io_bind_gets. intros H. apply io_bind_ok in H as ([h|] & r1 & Hh & H); [|done].
  apply read_head_eats in Hh. destruct (parse_head h); [|done]. by injection H as _ <-.
Qed.

Lemma read_body_loop_feeds fuel n body : feeds (read_body_loop fuel n body).
Proof.
  revert body. induction fuel as [|fuel IH]; intros body r; [exact (fed_refl r)|]. unfold wp. rewrite read_body_loop_S.
  destruct (slen body <? n); [|done]. pose proof (read_fed (Z.to_nat (Z.min (n - slen body) CHUNK)) r) as H.
  unfold wp in H. destruct (read _ r) as [[[|b got]|e] r1]; simpl in H; [done| |done]. etransitivity; [exact H|apply IH].
Qed.

Lemma read_body_feeds max q r : wp (read_body max) (q, r) (fun _ s => fed r s.2).
Proof.
  unfold read_body. apply wp_bind, wp_gets. simpl. destruct (max <? content_length q); [by apply wp_fail|].
  apply wp_bind, wp_lens, wp_gets, wp_bind, wp_lens. simpl.
  eapply wp_mono; [apply read_body_loop_feeds|]. by intros [body|e] r' H.
Qed.

Lemma stream_loop_feeds {W} (f : str -> io W unit) fuel n q r w :
  wp (stream_loop f fuel n) ((q, r), w) (fun _ s => fed r s.1.2).
Proof.
  revert n q r w. induction fuel as [|fuel IH]; intros n q r w; [exact (fed_refl r)|]. unfold wp. rewrite stream_loop_S.
  destruct (0 <? n); [|done]. pose proof (read_fed (Z.to_nat (Z.min CHUNK n)) r) as H. unfold wp in H.
  destruct (read _ r) as [[[|b got]|e] r1]; simpl in H; [done| |done].
  destruct (f (b :: got) w) as [[[]|e] w1]; [|done]. etransitivity; [exact H|apply IH].
Qed.

Lemma stream_body_feeds {W} (f : str -> io W unit) q r w :
  wp (stream_body f) ((q, r), w) (fun _ s => fed r s.1.2).
Proof.
  unfold stream_body. apply wp_bind, wp_gets, wp_bind, wp_lens, wp_lens, wp_gets, wp_bind. simpl.
  eapply wp_mono; [apply stream_loop_feeds|]. by intros [u|e] s H.
Qed.

Lemma copy_to_sink_feeds fuel n : feeds (copy_to_sink fuel n).
Proof.
  revert n. induction fuel as [|fuel IH]; intros n r; [exact (fed_refl r)|]. unfold wp. rewrite copy_to_sink_S.
  destruct (0 <? n); [|done]. pose proof (read_fed (Z.to_nat (Z.min n 8192)) r) as H. unfold wp in H.
  destruct (read _ r) as [[[|b got]|e] r1]; simpl in H; [done| |].
  - etransitivity; [exact H|apply IH].
  - case_bool_decide; [etransitivity; [exact H|apply IH]|done].
Qed.

Lemma drain_body_feeds q r : wp drain_body (q, r) (fun _ s => fed r s.2).
Proof.
  unfold drain_body. apply wp_bind, wp_gets. cbn [fst].
  destruct (_ =? 0); [by apply wp_ret|]. destruct (MAX_DRAIN_BYTES <? _); [by apply wp_fail|].
  apply wp_bind, wp_lens, wp_gets, wp_bind, wp_lens. simpl.
  eapply wp_mono; [apply copy_to_sink_feeds|]. by intros [u|e] r' H.
Qed.
