(* ===== verification/HttpQuery.v ===== *)
(** * Theorems about the query string decoder of src/http.rs *)

From S2P Require Import Prelude RustStd StrFacts Net Http HttpFacts.

(** Percent-encoding as a client does it: every byte escaped. *)
Definition urlencode (s : str) : str := concat (map (fun c => "%"%char :: hex2 c) s).

Definition encode_pair (kv : str * str) : str := urlencode kv.1 ++ "="%char :: urlencode kv.2.

Lemma hex2_escape c :
  from_utf8 (hex2 c) = Some (hex2 c) /\ from_str_radix 255 16 (hex2 c) = Some (byte c).
Proof. split; by_bytes. Qed.

Lemma urldecode_bytes_escape c s : urldecode_bytes ("%"%char :: hex2 c ++ s) = c :: urldecode_bytes s.
Proof.
  destruct (hex2_escape c) as [H1 H2]. unfold hex2 in *. cbn [app urldecode_bytes].
  change (eqc "%" "%") with true. cbn iota. rewrite H1, H2. by rewrite chr_byte.
Qed.

Lemma urldecode_encode_bytes s : urldecode_bytes (urlencode s) = s.
Proof.
  induction s as [|c s IH]; [done|].
  change (urlencode (c :: s)) with ("%"%char :: hex2 c ++ urlencode s).
  by rewrite urldecode_bytes_escape, IH.
Qed.

Lemma urldecode_urlencode s : utf8_valid s = true -> urldecode (urlencode s) = s.
Proof. intros. unfold urldecode. rewrite urldecode_encode_bytes. by apply from_utf8_lossy_valid. Qed.

Lemma urlencode_chars (P : ascii -> Prop) s :
  P "%"%char -> (forall d, 0 <= d < 16 -> P (digit_chr d)) -> Forall P (urlencode s).
Proof.
  intros H1 H2. induction s as [|c s IH]; [constructor|].
  change (urlencode (c :: s)) with ("%"%char :: hex2 c ++ urlencode s).
  pose proof (byte_range c). unfold hex2. repeat constructor; [done| | |done]; apply H2.
  - split; [apply Z.div_pos; lia|apply Z.div_lt_upper_bound; lia].
  - apply Z.mod_pos_bound. lia.
Qed.

Lemma urlencode_safe c s :
  negb (eqc "%"%char c) && forallb (fun d => negb (eqc (digit_chr d) c)) (seqZ 0 16) = true ->
  c ∉ urlencode s.
Proof.
  intros [H1%negb_true_iff%eqc_false H2]%andb_prop.
  apply (Forall_notin (fun x => x <> c)); [|by intros []].
  apply urlencode_chars; [done|]. intros d Hd. rewrite forallb_forall in H2.
  apply eqc_false, negb_true_iff, H2, list_elem_of_In, elem_of_seqZ. lia.
Qed.

Lemma encode_pair_split kv : split_once "="%char (encode_pair kv) = Some (urlencode kv.1, urlencode kv.2).
Proof. apply split_once_Some. split; [done|]. by apply urlencode_safe. Qed.

Lemma insert_encoded m kv :
  utf8_valid kv.1 = true -> utf8_valid kv.2 = true ->
  insert_pair m (encode_pair kv) = <[kv.1 := kv.2]> m.
Proof.
  intros. unfold insert_pair. rewrite encode_pair_split. by rewrite !urldecode_urlencode.
Qed.

Definition insert_kv (m : gmap str str) (kv : str * str) : gmap str str := <[kv.1 := kv.2]> m.

(** Parameters survive the query string: for any keys and values, arbitrary
    Unicode text included, percent-encoding them and joining the pairs with
    ampersands gives a query from which [parse_url] recovers exactly those
    parameters (the last value of a repeated key), with the path untouched. *)
Theorem parse_url_roundtrip p kvs :
  "?"%char ∉ p ->
  Forall (fun kv => utf8_valid kv.1 = true /\ utf8_valid kv.2 = true) kvs ->
  (parse_url (p ++ "?"%char :: join (lit "&") (map encode_pair kvs))).1
  = (p, fold_left insert_kv kvs ∅).
Proof.
  intros Hp Hkvs. unfold parse_url. rewrite (proj2 (split_once_Some _ _ _ _)) by (split; done).
  cbn [fst]. f_equal. generalize (∅ : gmap str str) as m. intros m.
  assert (Hsplit : List.filter (fun p => negb (is_empty p)) (split_char "&"%char (join (lit "&") (map encode_pair kvs)))
                   = map encode_pair kvs).
  { destruct kvs as [|kv kvs']; [reflexivity|].
    rewrite split_char_join.
    - apply List.forallb_filter_id. apply forallb_Forall, Forall_map, Forall_forall.
      intros kv' _. unfold encode_pair. by destruct (urlencode kv'.1).
    - done.
    - apply Forall_map, Forall_forall. intros kv' _. unfold encode_pair.
      rewrite not_elem_of_app, not_elem_of_cons. split_and!; [by apply urlencode_safe|done|by apply urlencode_safe]. }
  rewrite Hsplit. clear Hsplit Hp. revert m. induction Hkvs as [|kv kvs [H1 H2] Hkvs IH]; intros m; [done|].
  cbn [map fold_left]. rewrite insert_encoded by done. apply IH.
Qed.

Lemma parse_url_roundtrip_witness :
  (parse_url (lit "/v1/files/read" ++ "?"%char ::
     join (lit "&") (map encode_pair [(lit "path", lit "/a b&c=d?"); (lit "offset", lit "+5")]))).1.2
    !! lit "path" = Some (lit "/a b&c=d?").
Proof.
  rewrite (parse_url_roundtrip (lit "/v1/files/read") [(lit "path", lit "/a b&c=d?"); (lit "offset", lit "+5")]).
  - reflexivity.
  - apply (bool_decide_unpack _). vm_compute. exact I.
  - repeat constructor.
Defined.

(** [u8::from_str_radix] accepts a sign, so a percent sign followed by a plus sign
    and one hexadecimal digit is decoded as an escape, although it is none: the
    text [%+5] comes out as the single byte 5 instead of itself with the plus
    sign turned into a blank. *)
Lemma urldecode_signed_escape : urldecode (lit "%+5") = [chr 5].
Proof. reflexivity. Qed.
