(* ===== verification/HttpResponse.v ===== *)
(** * src/http.rs: responses

    [ResponseWriter], with fixed-length and chunked framing, and the theorems
    that what it writes is what an HTTP/1.1 client decodes. *)

From S2P Require Import Prelude RustStd StrFacts Net Json.

Definition status_text (code : Z) : str :=
  if code =? 200 then lit "OK"
  else if code =? 400 then lit "Bad Request"
  else if code =? 403 then lit "Forbidden"
  else if code =? 404 then lit "Not Found"
  else if code =? 405 then lit "Method Not Allowed"
  else if code =? 408 then lit "Request Timeout"
  else if code =? 409 then lit "Conflict"
  else if code =? 411 then lit "Length Required"
  else if code =? 500 then lit "Internal Server Error"
  else if code =? 503 then lit "Service Unavailable"
  else if code =? 505 then lit "HTTP Version Not Supported"
  else lit "Unknown".

Record ResponseWriter : Type := mkResponseWriter {
  writer : Writer;
  rw_keep_alive : bool;
  started : bool;
  chunked : bool;
  hijacked : bool;
}.

Definition response_new (w : Writer) (keep_alive : bool) : ResponseWriter :=
  {| writer := w; rw_keep_alive := keep_alive; started := false; chunked := false; hijacked := false |}.

Definition set_writer (w : Writer) (rw : ResponseWriter) : ResponseWriter :=
  {| writer := w; rw_keep_alive := rw_keep_alive rw; started := started rw;
     chunked := chunked rw; hijacked := hijacked rw |}.
Definition set_started (rw : ResponseWriter) : ResponseWriter :=
  {| writer := writer rw; rw_keep_alive := rw_keep_alive rw; started := true;
     chunked := chunked rw; hijacked := hijacked rw |}.
Definition set_chunked (rw : ResponseWriter) : ResponseWriter :=
  {| writer := writer rw; rw_keep_alive := rw_keep_alive rw; started := started rw;
     chunked := true; hijacked := hijacked rw |}.
Definition set_hijacked (rw : ResponseWriter) : ResponseWriter :=
  {| writer := writer rw; rw_keep_alive := rw_keep_alive rw; started := true;
     chunked := chunked rw; hijacked := true |}.

Definition on_writer {A} (m : io Writer A) : io ResponseWriter A := io_lens writer set_writer m.

(** The socket clone that [hijack] ends with is made by its caller (file Proxy): the
    bytes written to it follow the ones written before. *)
Definition hijack : io ResponseWriter unit :=
  on_writer flush_writer ;;; io_modify set_hijacked.

Definition head_start (status : Z) (content_type : str) (keep_alive : bool) : str :=
  lit "HTTP/1.1 " ++ show status ++ lit " " ++ status_text status ++ CRLF
  ++ lit "Content-Type: " ++ content_type ++ CRLF
  ++ lit "Connection: " ++ (if keep_alive then lit "keep-alive" else lit "close") ++ CRLF.

Definition write_head (status : Z) (content_type : str) (length : option Z) : io ResponseWriter unit :=
  io_modify set_started ;;;
  conn <- io_gets rw_keep_alive ;;
  on_writer (write_all (head_start status content_type conn)) ;;;
  match length with
  | Some n => on_writer (write_all (lit "Content-Length: " ++ show n ++ CRLF ++ CRLF))
  | None =>
      io_modify set_chunked ;;;
      on_writer (write_all (lit "Transfer-Encoding: chunked" ++ CRLF
                            ++ lit "X-Accel-Buffering: no" ++ CRLF ++ CRLF))
  end.

Definition fixed (status : Z) (content_type body : str) : io ResponseWriter unit :=
  write_head status content_type (Some (slen body)) ;;;
  on_writer (write_all body) ;;;
  on_writer flush_writer.

Definition start_stream (status : Z) (content_type : str) : io ResponseWriter unit :=
  write_head status content_type None ;;;
  on_writer flush_writer.

Definition start_fixed (status : Z) (content_type : str) (length : Z) : io ResponseWriter unit :=
  write_head status content_type (Some length).

Definition raw (data : str) : io ResponseWriter unit := on_writer (write_all data).

Definition flush : io ResponseWriter unit := on_writer flush_writer.

Definition chunk (data : str) : io ResponseWriter unit :=
  match data with
  | [] => io_ret tt
  | _ =>
      on_writer (write_all (show_hex (slen data) ++ CRLF)) ;;;
      on_writer (write_all data) ;;;
      on_writer (write_all CRLF) ;;;
      on_writer flush_writer
  end.

Definition finish : io ResponseWriter unit :=
  is_chunked <- io_gets chunked ;;
  if (is_chunked : bool) then
    on_writer (write_all (lit "0" ++ CRLF ++ CRLF)) ;;;
    on_writer flush_writer
  else io_ret tt.

Section Json.
Context {SJ : SerdeJson}.

Definition json (status : Z) (body : Value Number) : io ResponseWriter unit :=
  fixed status (lit "application/json") (to_vec body).

Definition error (status : Z) (message : str) : io ResponseWriter unit :=
  json status (jobj [("error"%string, VString message)]).
End Json.

(** Several [chunk] calls in a row. *)
Fixpoint chunks (ds : list str) : io ResponseWriter unit :=
  match ds with
  | [] => io_ret tt
  | d :: ds' => chunk d ;;; chunks ds'
  end.

(** ** The decoder of a client (RFC 9112, chunked transfer coding without
    extensions or trailers): the payload, and what follows it. *)

Fixpoint take_line (s : str) : option (str * str) :=
  match s with
  | [] => None
  | a :: s' =>
      match s' with
      | b :: s'' => if eqc a CR && eqc b LF then Some ([], s'')
                    else match take_line s' with
                         | Some (l, rest) => Some (a :: l, rest)
                         | None => None
                         end
      | [] => None
      end
  end.

Fixpoint dechunk (fuel : nat) (s : str) : option (str * str) :=
  match fuel with
  | O => None
  | S fuel' =>
      match take_line s with
      | None => None
      | Some (size, rest) =>
          match (if is_empty size then None else digits_val 16 0 size) with
          | None => None
          | Some n =>
              if n =? 0 then
                match take_line rest with
                | Some ([], rest') => Some ([], rest')
                | _ => None
                end
              else
                let data := take (Z.to_nat n) rest in
                match take_line (drop (Z.to_nat n) rest) with
                | Some ([], rest') =>
                    if slen data =? n then
                      match dechunk fuel' rest' with
                      | Some (payload, rest'') => Some (data ++ payload, rest'')
                      | None => None
                      end
                    else None
                | _ => None
                end
          end
      end
  end.

(** ** What the calls write *)

Definition out (rw : ResponseWriter) : str := w_out (writer rw).

Lemma on_writer_ok d rw u rw' :
  on_writer (write_all d) rw = (Ok u, rw') ->
  out rw' = out rw ++ d /\ chunked rw' = chunked rw /\ hijacked rw' = hijacked rw
  /\ started rw' = started rw /\ rw_keep_alive rw' = rw_keep_alive rw.
Proof.
  unfold on_writer, io_lens, out. destruct (write_all d (writer rw)) as [o w'] eqn:E.
  intros H. simplify_eq. destruct u. apply write_all_ok in E. done.
Qed.

Lemma write_head_ok status ct len rw u rw' :
  write_head status ct len rw = (Ok u, rw') ->
  out rw' = out rw ++ head_start status ct (rw_keep_alive rw)
    ++ match len with
       | Some n => lit "Content-Length: " ++ show n ++ CRLF ++ CRLF
       | None => lit "Transfer-Encoding: chunked" ++ CRLF ++ lit "X-Accel-Buffering: no" ++ CRLF ++ CRLF
       end
  /\ chunked rw' = match len with Some _ => chunked rw | None => true end
  /\ started rw' = true /\ hijacked rw' = hijacked rw.
Proof.
  unfold write_head. rewrite io_bind_modify, io_bind_gets. intros H.
  apply io_bind_ok in H as (u1 & rw1 & H1 & H). apply on_writer_ok in H1 as (Ho & Hc & Hh & Hs & _).
  destruct len as [n|].
  - apply on_writer_ok in H as (Ho' & Hc' & Hh' & Hs' & _).
    rewrite Ho', Ho, <- app_assoc. split_and!; simpl in *; first [reflexivity | congruence].
  - rewrite io_bind_modify in H. apply on_writer_ok in H as (Ho' & Hc' & Hh' & Hs' & _).
    change (out (set_chunked rw1)) with (out rw1) in Ho'.
    rewrite Ho', Ho, <- app_assoc. split_and!; simpl in *; first [reflexivity | congruence].
Qed.

Definition encode_chunk (d : str) : str :=
  match d with [] => [] | _ => show_hex (slen d) ++ CRLF ++ d ++ CRLF end.

Lemma chunk_ok d rw u rw' :
  chunk d rw = (Ok u, rw') -> out rw' = out rw ++ encode_chunk d /\ chunked rw' = chunked rw.
Proof.
  unfold chunk, encode_chunk. destruct d as [|c d]; [intros [= <- <-]; by rewrite app_nil_r|].
  intros H.
  apply io_bind_ok in H as (u1 & rw1 & H1 & H). apply on_writer_ok in H1 as (Ho1 & Hc1 & _).
  apply io_bind_ok in H as (u2 & rw2 & H2 & H). apply on_writer_ok in H2 as (Ho2 & Hc2 & _).
  apply io_bind_ok in H as (u3 & rw3 & H3 & H). apply on_writer_ok in H3 as (Ho3 & Hc3 & _).
  apply on_writer_ok in H as (Ho4 & Hc4 & _).
  rewrite Ho4, Ho3, Ho2, Ho1, app_nil_r. split; [by rewrite <- !app_assoc|congruence].
Qed.

Lemma chunks_ok ds rw u rw' :
  chunks ds rw = (Ok u, rw') ->
  out rw' = out rw ++ concat (map encode_chunk ds) /\ chunked rw' = chunked rw.
Proof.
  revert rw. induction ds as [|d ds IH]; intros rw H; simpl in *.
  { injection H as <- <-. by rewrite app_nil_r. }
  apply io_bind_ok in H as (u1 & rw1 & H1 & H). apply chunk_ok in H1 as [Ho Hc].
  apply IH in H as [Ho' Hc']. rewrite Ho', Ho, <- app_assoc. split; [done|congruence].
Qed.

Lemma finish_ok rw u rw' :
  finish rw = (Ok u, rw') -> out rw' = out rw ++ (if chunked rw then lit "0" ++ CRLF ++ CRLF else []).
Proof.
  unfold finish. rewrite io_bind_gets. destruct (chunked rw).
  - intros H. apply io_bind_ok in H as (u1 & rw1 & H1 & H). apply on_writer_ok in H1 as (Ho1 & _).
    apply on_writer_ok in H as (Ho & _). by rewrite Ho, Ho1, app_nil_r.
  - intros [= <- <-]. by rewrite app_nil_r.
Qed.

(** ** Decoding undoes encoding *)

Lemma take_line_app l rest : LF ∉ l -> take_line (l ++ CRLF ++ rest) = Some (l, rest).
Proof.
  induction l as [|a l IH]; intros Hni; [done|].
  assert (exists b t, l ++ CRLF ++ rest = b :: t /\ b <> LF) as (b & t & E & Hb).
  { destruct l as [|b l]; simpl; [by exists CR, (LF :: rest)|]. eexists _, _. split; [done|set_solver]. }
  specialize (IH ltac:(set_solver)).
  change ((a :: l) ++ CRLF ++ rest) with (a :: (l ++ CRLF ++ rest)). rewrite E in *.
  change (take_line (a :: b :: t)) with
    (if eqc a CR && eqc b LF then Some ([], t)
     else match take_line (b :: t) with Some (l, rest) => Some (a :: l, rest) | None => None end).
  rewrite (proj2 (eqc_false b LF)) by done. by rewrite andb_false_r, IH.
Qed.

Lemma show_hex_no_lf n : 0 <= n -> LF ∉ show_hex n.
Proof.
  intros Hn. apply (Forall_notin (fun c => c <> LF)); [|by intros []].
  apply digits_forall; [lia| |done|done]. intros d Hd.
  assert (Hall : forallb (fun d => negb (eqc (digit_chr d) LF)) (seqZ 0 16) = true) by (vm_compute; reflexivity).
  rewrite forallb_forall in Hall.
  assert (In d (seqZ 0 16)) as Hin by (apply list_elem_of_In, elem_of_seqZ; lia).
  apply Hall, negb_true_iff, eqc_false in Hin. done.
Qed.

Lemma dechunk_end fuel rest :
  dechunk (S fuel) (lit "0" ++ CRLF ++ CRLF ++ rest) = Some ([], rest).
Proof. reflexivity. Qed.

Lemma dechunk_chunk fuel d rest :
  d <> [] ->
  dechunk (S fuel) (encode_chunk d ++ rest)
  = match dechunk fuel rest with Some (p, r) => Some (d ++ p, r) | None => None end.
Proof.
  intros Hd. unfold encode_chunk. destruct d as [|c d]; [done|]. cbn [dechunk].
  rewrite <- !app_assoc. rewrite take_line_app by (apply show_hex_no_lf; unfold slen; lia).
  rewrite (proj2 (is_empty_false _)) by apply show_radix_nonempty.
  unfold show_hex. rewrite digits_val_show by (unfold slen; lia).
  rewrite (proj2 (Z.eqb_neq _ _)) by (unfold slen; simpl; lia).
  assert (Hn : Z.to_nat (slen (c :: d)) = length (c :: d)) by (unfold slen; lia). rewrite Hn.
  rewrite take_app_length, drop_app_length. change (CRLF ++ rest) with ([] ++ CRLF ++ rest).
  rewrite take_line_app by set_solver. by rewrite Z.eqb_refl.
Qed.

Lemma dechunk_chunks ds rest :
  dechunk (S (length ds)) (concat (map encode_chunk ds) ++ lit "0" ++ CRLF ++ CRLF ++ rest)
  = Some (concat ds, rest).
Proof.
  assert (Hgen : forall fuel, (length ds < fuel)%nat ->
    dechunk fuel (concat (map encode_chunk ds) ++ lit "0" ++ CRLF ++ CRLF ++ rest) = Some (concat ds, rest)).
  { induction ds as [|d ds IH]; intros fuel Hf; simpl in Hf.
    - destruct fuel; [lia|]. apply dechunk_end.
    - cbn [map concat]. destruct d as [|c d]; [apply IH; lia|].
      destruct fuel; [lia|]. rewrite <- app_assoc, dechunk_chunk by done. by rewrite IH by lia. }
  apply Hgen. lia.
Qed.

(** C32: a streamed response arrives intact: whatever pieces a handler passes to
    [chunk], empty ones included, and whatever is written on the connection
    afterwards, a client that reads past the response head decodes exactly their
    concatenation and stops exactly at the end of the response. *)
Theorem chunked_roundtrip status ct ds rw rw' rest :
  (start_stream status ct ;;; chunks ds ;;; finish) rw = (Ok tt, rw') ->
  exists coded,
    out rw' = out rw ++ head_start status ct (rw_keep_alive rw)
      ++ lit "Transfer-Encoding: chunked" ++ CRLF ++ lit "X-Accel-Buffering: no" ++ CRLF ++ CRLF ++ coded
    /\ dechunk (S (length ds)) (coded ++ rest) = Some (concat ds, rest).
Proof.
  intros H. apply io_bind_ok in H as (u1 & rw1 & H1 & H).
  unfold start_stream in H1. apply io_bind_ok in H1 as (u0 & rw0 & H0 & H1).
  apply write_head_ok in H0 as (Ho0 & Hc0 & _). apply on_writer_ok in H1 as (Ho1 & Hc1 & _).
  apply io_bind_ok in H as (u2 & rw2 & H2 & H). apply chunks_ok in H2 as [Ho2 Hc2].
  apply finish_ok in H. rewrite Hc2, Hc1, Hc0 in H.
  exists (concat (map encode_chunk ds) ++ lit "0" ++ CRLF ++ CRLF). split.
  - rewrite H, Ho2, Ho1, Ho0, app_nil_r. by rewrite <- !app_assoc.
  - rewrite <- !app_assoc. apply dechunk_chunks.
Qed.

(** A fixed-length response announces exactly what it sends: the bytes after
    the head are the body, the Content-Length parses back to its length, and
    [finish] adds nothing. *)
Theorem fixed_framing status ct body rw rw' :
  chunked rw = false -> slen body <= u64_max ->
  (fixed status ct body ;;; finish) rw = (Ok tt, rw') ->
  exists announced,
    out rw' = out rw ++ head_start status ct (rw_keep_alive rw)
      ++ lit "Content-Length: " ++ announced ++ CRLF ++ CRLF ++ body
    /\ parse_uint u64_max announced = Some (slen body).
Proof.
  intros Hchunked Hlen H. apply io_bind_ok in H as (u1 & rw1 & H1 & H). unfold fixed in H1.
  apply io_bind_ok in H1 as (u0 & rw0 & H0 & H1). apply write_head_ok in H0 as (Ho0 & Hc0 & _).
  apply io_bind_ok in H1 as (u2 & rw2 & H2 & H1). apply on_writer_ok in H2 as (Ho2 & Hc2 & _).
  apply on_writer_ok in H1 as (Ho1 & Hc1 & _). apply finish_ok in H.
  rewrite Hc1, Hc2, Hc0, Hchunked, app_nil_r in H. exists (show (slen body)). split.
  - rewrite H, Ho1, Ho2, Ho0, app_nil_r. by rewrite <- !app_assoc.
  - apply parse_show. unfold slen in *. lia.
Qed.

Definition fresh_response (keep_alive : bool) : ResponseWriter :=
  response_new {| w_out := []; w_outcomes := [] |} keep_alive.

Lemma chunked_roundtrip_witness :
  exists coded, dechunk 4 (coded ++ lit "HTTP/1.1 200 OK") = Some (lit "hello world", lit "HTTP/1.1 200 OK").
Proof.
  edestruct (chunked_roundtrip 200 (lit "text/plain") [lit "hello"; []; lit " world"] (fresh_response true))
    as (coded & _ & H); [vm_compute; reflexivity|].
  exists coded. exact (H).
Defined.

Lemma fixed_framing_witness :
  exists announced, parse_uint u64_max announced = Some 5.
Proof.
  edestruct (fixed_framing 200 (lit "text/plain") (lit "hello") (fresh_response true))
    as (announced & _ & H); [reflexivity|vm_compute; discriminate|vm_compute; reflexivity|].
  exists announced. exact H.
Defined.
