(* ===== verification/Paths.v ===== *)
(** * std::path on Unix

    [Path] and [PathBuf] as the program uses them: components, parent, file name,
    push, pop and join, on the bytes of the path. *)

From S2P Require Import Prelude RustStd StrFacts.

Definition SLASH : ascii := "/"%char.
Definition DOT : str := lit ".".
Definition DOTDOT : str := lit "..".

(** A [Prefix] only exists on Windows. *)
Inductive Component : Type := RootDir | CurDir | ParentDir | Normal (name : str).

#[export] Instance Component_eq_dec : EqDecision Component.
Proof. solve_decision. Defined.

Definition is_absolute (p : str) : bool := starts_with [SLASH] p.

(** A piece between separators; [CurDir] is only kept at the start. *)
Definition component_of (piece : str) : list Component :=
  if is_empty piece || eqs piece DOT then []
  else if eqs piece DOTDOT then [ParentDir] else [Normal piece].

Definition components (p : str) : list Component :=
  match split_char SLASH p with
  | first :: rest =>
      (if is_absolute p then [RootDir]
       else if eqs first DOT then [CurDir] else component_of first)
      ++ concat (map component_of rest)
  | [] => []
  end.

(** The pieces without the empty and [.] ones at their end. *)
Fixpoint trim_back (pieces : list str) : list str :=
  match pieces with
  | piece :: rest => if is_empty piece || eqs piece DOT then trim_back rest else pieces
  | [] => []
  end.
Definition trim_pieces (pieces : list str) : list str := rev (trim_back (rev pieces)).

(** [Path::parent]: without the last component and the separators before it. *)
Definition parent (p : str) : option str :=
  match split_char SLASH p with
  | [] => None
  | first :: rest =>
      if is_absolute p then
        match rev (trim_pieces rest) with
        | [] => None
        | _ :: up => match trim_pieces (rev up) with
                     | [] => Some [SLASH]
                     | pieces => Some (join [SLASH] (first :: pieces))
                     end
        end
      else if eqs first DOT then
        match rev (trim_pieces rest) with
        | [] => Some []
        | _ :: up => Some (join [SLASH] (first :: trim_pieces (rev up)))
        end
      else
        match rev (trim_pieces (first :: rest)) with
        | [] => None
        | _ :: up => Some (join [SLASH] (trim_pieces (rev up)))
        end
  end.

(** [Path::file_name]: the last component, when it is a normal one. *)
Definition file_name (p : str) : option str :=
  match rev (components p) with Normal name :: _ => Some name | _ => None end.

(** [PathBuf::push], and [Path::join] built on it. *)
Definition push_path (base p : str) : str :=
  if is_absolute p then p
  else match rev base with
       | [] => p
       | c :: _ => if eqc c SLASH then base ++ p else base ++ SLASH :: p
       end.
Definition join_path : str -> str -> str := push_path.

(** [PathBuf::pop]. *)
Definition pop_path (p : str) : str := match parent p with Some q => q | None => p end.

(** [Path::starts_with], by components. *)
Fixpoint prefix_comps (a b : list Component) : bool :=
  match a, b with
  | [], _ => true
  | x :: a', y :: b' => bool_decide (x = y) && prefix_comps a' b'
  | _ :: _, [] => false
  end.
Definition path_starts_with (p base : str) : bool := prefix_comps (components base) (components p).
Definition path_eq (p q : str) : bool := bool_decide (components p = components q).

(** ** Paths made of names *)

(** What a directory entry can be called. *)
Definition normal_name (n : str) : Prop := n <> [] /\ n <> DOT /\ n <> DOTDOT /\ SLASH ∉ n.

#[export] Instance normal_name_dec n : Decision (normal_name n).
Proof. unfold normal_name. apply _. Defined.

Lemma component_normal n : normal_name n -> component_of n = [Normal n].
Proof.
  intros (H1 & H2 & H3 & _). unfold component_of.
  rewrite (proj2 (eqs_false n DOT)), (proj2 (eqs_false n DOTDOT)) by done. by destruct n.
Qed.

Lemma component_of_names p c : c ∈ component_of p -> forall n, c = Normal n -> n = p /\ p <> [] /\ p <> DOT /\ p <> DOTDOT.
Proof.
  unfold component_of. destruct p as [|a p]; simpl; [set_solver|].
  destruct (eqs (a :: p) DOT) eqn:H1; [set_solver|]. destruct (eqs (a :: p) DOTDOT) eqn:H2.
  - intros ->%list_elem_of_singleton. done.
  - intros ->%list_elem_of_singleton n [= <-]. apply eqs_false in H1, H2. done.
Qed.

(** Every normal component is a name. *)
Lemma components_names p n : Normal n ∈ components p -> normal_name n.
Proof.
  unfold components. pose proof (split_char_no_sep SLASH p) as Hsep.
  destruct (split_char SLASH p) as [|first rest]; [set_solver|].
  apply Forall_cons in Hsep as [Hfirst Hrest].
  assert (Hname : forall p, SLASH ∉ p -> Normal n ∈ component_of p -> normal_name n).
  { intros q Hq Hin. destruct (component_of_names q _ Hin n eq_refl) as (-> & ? & ? & ?). done. }
  rewrite elem_of_app. intros [Hin|Hin].
  - destruct (is_absolute p); [set_solver|]. destruct (eqs first DOT); [set_solver|]. eauto.
  - apply list_elem_of_In, in_concat in Hin as (cs & Hcs & Hin).
    apply list_elem_of_In in Hin. apply list_elem_of_In, list_elem_of_fmap in Hcs as (q & -> & Hq).
    rewrite Forall_forall in Hrest. eauto.
Qed.

Lemma join_first names : names <> [] -> Forall normal_name names -> is_absolute (join [SLASH] names) = false.
Proof.
  intros Hne Hf. destruct Hf as [|n names (H1 & _ & _ & Hs) Hf]; [done|]. destruct n as [|c n]; [done|].
  unfold is_absolute. apply not_true_is_false. intros [s' E]%starts_with_true.
  apply Hs. destruct names; simpl in E; injection E as -> _; set_solver.
Qed.

Lemma components_join names : Forall normal_name names -> components (join [SLASH] names) = map Normal names.
Proof.
  intros Hf. destruct (decide (names = [])) as [->|Hne]; [done|].
  unfold components. rewrite split_char_join; [|done|].
  2:{ eapply Forall_impl; [exact Hf|]. intros ? (_ & _ & _ & ?). done. }
  rewrite (join_first names) by done. destruct Hf as [|n names Hn Hf]; [done|].
  rewrite (proj2 (eqs_false n DOT)) by apply Hn. rewrite component_normal by done. simpl. f_equal.
  induction Hf as [|m names Hm Hf IH]; simpl; [done|]. rewrite component_normal by done. simpl. f_equal.
  apply IH. done.
Qed.

Lemma join_snoc sep names n : names <> [] -> join sep (names ++ [n]) = join sep names ++ sep ++ n.
Proof.
  intros Hne. induction names as [|m names IH]; [done|]. destruct (decide (names = [])) as [->|Hn]; [done|].
  rewrite <- app_comm_cons, (join_cons sep m (names ++ [n])) by (by destruct names).
  rewrite IH by done. rewrite (join_cons sep m names) by done. by rewrite <- !app_assoc.
Qed.

Lemma rev_snoc_inv {A} (l : list A) : l <> [] -> exists l' x, l = l' ++ [x].
Proof. intros Hne. destruct (exists_last Hne) as (l' & x & ->). eauto. Qed.

(** Names joined by separators neither start nor end with one. *)
Lemma push_join names n :
  Forall normal_name names -> normal_name n ->
  push_path (join [SLASH] names) n = join [SLASH] (names ++ [n]).
Proof.
  intros Hf Hn. unfold push_path.
  assert (Hrel : is_absolute n = false) by (apply (join_first [n]); [done|by constructor]).
  rewrite Hrel. destruct (decide (names = [])) as [->|Hne]; [done|].
  rewrite join_snoc by done. destruct (rev_snoc_inv names Hne) as (ns & m & ->).
  apply Forall_app in Hf as [_ Hm%Forall_inv]. destruct Hm as (Hm & _ & _ & Hs).
  destruct (rev_snoc_inv m Hm) as (m' & c & ->).
  assert (Hj : exists s, join [SLASH] (ns ++ [m' ++ [c]]) = s ++ [c]).
  { destruct (decide (ns = [])) as [->|Hns]; [by exists m'|]. rewrite join_snoc by done.
    exists (join [SLASH] ns ++ [SLASH] ++ m'). by rewrite <- !app_assoc. }
  destruct Hj as [s ->]. rewrite rev_unit.
  assert (Hc : eqc c SLASH = false) by (apply eqc_false; set_solver). by rewrite Hc.
Qed.

Lemma normal_not_trimmed n : normal_name n -> is_empty n || eqs n DOT = false.
Proof. intros (H1 & H2 & _). rewrite (proj2 (eqs_false n DOT)) by done. by destruct n. Qed.

Lemma trim_back_normal names : Forall normal_name names -> trim_back names = names.
Proof. destruct 1 as [|n names Hn _]; [done|]. simpl. by rewrite normal_not_trimmed. Qed.

Lemma trim_pieces_normal names : Forall normal_name names -> trim_pieces names = names.
Proof. intros Hf. unfold trim_pieces. rewrite trim_back_normal by (by apply Forall_rev). apply rev_involutive. Qed.

Lemma split_join_normal names : names <> [] -> Forall normal_name names -> split_char SLASH (join [SLASH] names) = names.
Proof.
  intros Hne Hf. apply split_char_join; [done|]. eapply Forall_impl; [exact Hf|]. intros ? (_ & _ & _ & ?). done.
Qed.

Lemma pop_join names :
  Forall normal_name names -> pop_path (join [SLASH] names) = join [SLASH] (removelast names).
Proof.
  intros Hf. destruct (decide (names = [])) as [->|Hne]; [done|]. unfold pop_path, parent.
  rewrite split_join_normal, (join_first names) by done. destruct names as [|n names]; [done|].
  assert (Hdot : eqs n DOT = false) by (apply eqs_false, (Forall_inv Hf)). rewrite Hdot.
  rewrite trim_pieces_normal by done. destruct (rev_snoc_inv (n :: names) Hne) as (up & last & E).
  rewrite E in *. rewrite rev_unit, removelast_last. apply Forall_app in Hf as [Hup _].
  by rewrite rev_involutive, trim_pieces_normal.
Qed.
