(* ===== verification/Kernel.v ===== *)
(** * The operating system as the program sees it

    The kernel is not part of the repository, so it is a parameter.  [call] lists
    the system calls (and the std functions that are loops of them, such as
    [create_dir_all]) the program makes, with what each returns; [Kernel] is any
    system that answers them.  A kernel answers from a state of its own, [World],
    which also holds whatever the rest of the machine does meanwhile, so a theorem
    for every [Kernel] holds for every behaviour of the other processes.

    [Traced] records the calls a piece of code makes, whatever the answers. *)

From S2P Require Import Prelude RustStd Paths.

(** ** Constants of the libc crate (x86_64 Linux) *)

Definition O_RDONLY : Z := 0.
Definition O_WRONLY : Z := 1.
Definition O_CREAT : Z := 64.
Definition O_TRUNC : Z := 512.
Definition O_NONBLOCK : Z := 2048.
Definition O_DIRECTORY : Z := 65536.
Definition O_NOFOLLOW : Z := 131072.
Definition O_CLOEXEC : Z := 524288.
Definition O_PATH : Z := 2097152.
Definition AT_REMOVEDIR : Z := 512.

Definition S_IFMT : Z := 61440.
Definition S_IFSOCK : Z := 49152.
Definition S_IFLNK : Z := 40960.
Definition S_IFREG : Z := 32768.
Definition S_IFDIR : Z := 16384.
Definition S_IFIFO : Z := 4096.

Definition EPERM : Z := 1.
Definition ENOENT : Z := 2.
Definition EINTR : Z := 4.
Definition ENXIO : Z := 6.
Definition EAGAIN : Z := 11.
Definition EACCES : Z := 13.
Definition EEXIST : Z := 17.
Definition ENOTDIR : Z := 20.
Definition EISDIR : Z := 21.
Definition EINVAL : Z := 22.
Definition EPIPE : Z := 32.
Definition ENOSYS : Z := 38.
Definition ELOOP : Z := 40.
Definition EOPNOTSUPP : Z := 95.
Definition ETIMEDOUT : Z := 110.

Definition SHUT_RD : Z := 0.
Definition SHUT_WR : Z := 1.
Definition SHUT_RDWR : Z := 2.

Definition SIGKILL : Z := 9.
Definition PR_SET_CHILD_SUBREAPER : Z := 36.
Definition PR_SET_NO_NEW_PRIVS : Z := 38.
Definition RLIMIT_CPU : Z := 0.
Definition RLIMIT_FSIZE : Z := 1.
Definition RLIMIT_CORE : Z := 4.
Definition RLIMIT_NPROC : Z := 6.
Definition RLIMIT_NOFILE : Z := 7.
Definition RLIMIT_AS : Z := 9.

(** ** Data the calls exchange *)

(** [std::fs::Metadata]: [st_mode], [st_uid], [st_size] and the modification time
    in nanoseconds since the epoch. *)
Record Metadata : Type := mkMetadata {
  m_mode : Z;
  m_uid : Z;
  m_size : Z;
  m_mtime_ns : Z;
}.

Definition has_type (t : Z) (m : Metadata) : bool := Z.land (m_mode m) S_IFMT =? t.
Definition is_dir : Metadata -> bool := has_type S_IFDIR.
Definition is_file : Metadata -> bool := has_type S_IFREG.
Definition is_symlink : Metadata -> bool := has_type S_IFLNK.

(** The ruleset attributes landlock_create_ruleset(2) takes. *)
Record RulesetAttr : Type := mkRulesetAttr {
  handled_access_fs : Z;
  handled_access_net : Z;
  scoped : Z;
}.

(** What the closure a command runs between fork and exec captured. *)
Record Isolation : Type := mkIsolation {
  iso_max_procs : Z;
  iso_max_mem : Z;
  iso_confinement : option Z;
}.

(** [std::process::Command] once it is configured. *)
Record Command : Type := mkCommand {
  program : str;
  args : list str;
  stdin_piped : bool;
  process_group : option Z;
  env_cleared : bool;
  envs : list (str * str);
  cmd_uid : option Z;
  cmd_gid : option Z;
  pre_exec : option Isolation;
  current_dir : option str;
}.

(** [ExitStatus]: an exit code or the signal that ended the process. *)
Inductive ExitStatus : Type := Exited (code : Z) | Signaled (signal : Z).

Inductive call : Type :=
(* time and randomness *)
| Clock
| Sleep (ms : Z)
| ReadRandom (n : nat)
(* files, by path *)
| CreateDirAll (path : str)
| SetPermissions (path : str) (mode : Z)
| RemoveDirAll (path : str)
| RemoveDir (path : str)
| RemoveFile (path : str)
| Chown (path : str) (uid gid : Z)
| ReadFile (path : str)
| ReadDir (path : str)
| Lstat (path : str)
| Open (path : str) (flags mode : Z)
(* files, by descriptor *)
| Openat (dirfd : Z) (name : str) (flags mode : Z)
| Mkdirat (dirfd : Z) (name : str) (mode : Z)
| Unlinkat (dirfd : Z) (name : str) (flags : Z)
| Fchown (fd : Z) (uid gid : Z)
| Fchmod (fd : Z) (mode : Z)
| DupFd (fd : Z)
| Fstat (fd : Z)
| ReadFd (fd : Z) (n : nat)
| WriteFd (fd : Z) (data : str)
| Lseek (fd : Z) (offset : Z)
| Ftruncate (fd : Z) (length : Z)
| Close (fd : Z)
(* landlock *)
| LandlockAbi
| LandlockCreateRuleset (attr : RulesetAttr)
| LandlockAddRule (ruleset_fd parent_fd allowed_access : Z)
| LandlockRestrictSelf (ruleset_fd : Z)
(* processes *)
| Prctl (option arg : Z)
| Setrlimit (resource cur max : Z)
| Kill (pid signal : Z)
| Spawn (command : Command)
| FeedStdin (pid : Z) (data : str)
| RemoveVar (name : str)
| PidfdOpen (pid : Z)
| PidfdSendSignal (pidfd signal : Z)
| WaitidPeek (pid : Z)
| WaitidPeekAny
| WaitPid (pid : Z)
| WaitChild (pid : Z)
(* sockets *)
| ConnectUnix (path : str)
| ConnectTcp (port : Z)
| PeerUid (fd : Z)
| DupSocket (fd : Z)
| SendAll (fd : Z) (data : str)
| Shutdown (fd how : Z)
(* the socket of the connection that is served *)
| ClientNodelay
| ClientReadTimeout (ms : option Z)
| ClientWriteTimeout (ms : option Z)
| ClientClone.

(** [FeedStdin] is the thread that writes a command's one-shot input and closes the
    pipe; [RemoveVar] changes the server's own environment.
    [ReadDir] gives the entry names, each of which can fail; [ReadRandom n] is the
    [n] bytes read from /dev/urandom; [WaitidPeekAny] gives the pid found, 0 when
    nothing has exited; [ClientClone] duplicates the descriptor of the connection's
    own socket, whose timeouts all its descriptors share. *)
Definition answer (c : call) : Type :=
  match c with
  | Clock | Open _ _ _ | Openat _ _ _ _ | DupFd _ | LandlockAbi | LandlockCreateRuleset _
  | Spawn _ | PidfdOpen _ | WaitidPeekAny | WaitPid _ | ConnectUnix _ | ConnectTcp _
  | PeerUid _ | DupSocket _ | ClientClone => Z
  | ReadRandom _ | ReadFile _ | ReadFd _ _ => str
  | ReadDir _ => list (result str Z)
  | Lstat _ | Fstat _ => Metadata
  | WaitChild _ => ExitStatus
  | _ => unit
  end.

Class Kernel : Type := {
  World : Type;
  (** The text of an OS error number. *)
  strerror : Z -> str;
  (** A call either returns or fails with an error number. *)
  syscall : forall c : call, World -> result (answer c) Z * World;
}.

(** What listing a directory can give: names of entries, never one with a separator,
    and neither [.] nor [..], which [std::fs::read_dir] leaves out. *)
Definition entry_ok (n : result str Z) : Prop :=
  match n with Ok name => normal_name name | Err _ => True end.
Class DirNames (K : Kernel) : Prop :=
  dir_names_ok : forall path w names w', syscall (ReadDir path) w = (Ok names, w') -> Forall entry_ok names.

(** A call and what the kernel answered. *)
Record event : Type := Event {
  ev_call : call;
  ev_result : result (answer ev_call) Z;
}.

(** The kernel [K], recording the calls made and its answers, in order. *)
Definition Traced (K : Kernel) : Kernel := {|
  World := World * list event;
  strerror := strerror;
  syscall := fun c '(w, tr) =>
    let '(r, w') := syscall c w in (r, (w', tr ++ [Event c r]));
|}.

(** ** Errors of the standard library *)

(** [std::sys::decode_error_kind], for the kinds the program distinguishes. *)
Definition decode_error_kind (errno : Z) : ErrorKind :=
  if errno =? ENOENT then NotFound
  else if (errno =? EPERM) || (errno =? EACCES) then PermissionDenied
  else if errno =? EEXIST then AlreadyExists
  else if errno =? EINTR then Interrupted
  else if errno =? EAGAIN then WouldBlock
  else if errno =? EINVAL then InvalidInput
  else if errno =? EPIPE then BrokenPipe
  else if errno =? ETIMEDOUT then TimedOut
  else if (errno =? ENOSYS) || (errno =? EOPNOTSUPP) then Unsupported
  else OtherError.

Section WithKernel.
Context {K : Kernel}.

(** [io::Error::from_raw_os_error], and what its [Display] prints. *)
Definition from_raw_os_error (errno : Z) : io_error :=
  IoError (decode_error_kind errno) (Some errno)
    (strerror errno ++ lit " (os error " ++ show_int errno ++ lit ")").

(** A call whose failure becomes an [io::Error]. *)
Definition sys (c : call) : io World (answer c) := fun w =>
  match syscall c w with
  | (Ok a, w') => (Ok a, w')
  | (Err errno, w') => (Err (from_raw_os_error errno), w')
  end.

(** A call whose outcome the program ignores. *)
Definition sys_ (c : call) : io World unit := io_ignore (sys c).

(** [SystemTime::now()] cannot fail. *)
Definition now_ms : io World Z := fun w =>
  match syscall Clock w with
  | (Ok t, w') => (Ok (wrap_i64 t), w')
  | (Err _, w') => (Ok 0, w')
  end.

Lemma sys_run c w : sys c w = (match (syscall c w).1 with
                               | Ok a => Ok a | Err e => Err (from_raw_os_error e) end,
                               (syscall c w).2).
Proof. unfold sys. by destruct (syscall c w) as [[a|e] w']. Qed.

Lemma now_ms_ok w : exists t w', now_ms w = (Ok t, w').
Proof. unfold now_ms. destruct (syscall Clock w) as [[t|e] w']; eauto. Qed.

End WithKernel.
