(* ===== verification/Sim.v ===== *)
(** * A small simulated kernel

    An instance of [Kernel] to evaluate the components on: a tree of inodes with
    descriptors, a process table, a clock and the list of sockets that listen.  It
    is used by witnesses and examples only; no theorem is about it. *)

From S2P Require Import Prelude RustStd Kernel Paths.

Inductive node : Type :=
| NDir (uid mode : Z) (entries : list (str * Z))
| NFile (uid mode : Z) (data : str)
| NLink (target : str)
| NSock (uid : Z)
| NFifo (uid mode : Z).

Record SimWorld : Type := mkSim {
  s_clock : Z;
  s_nodes : gmap Z node;
  (** Descriptor to inode and file position. *)
  s_fds : gmap Z (Z * Z);
  (** The next inode, descriptor or pid. *)
  s_next : Z;
  (** Pid to the uid it runs under. *)
  s_procs : gmap Z Z;
  s_abi : Z;
}.

Definition ROOT : Z := 1.

Definition with_nodes (n : gmap Z node) (w : SimWorld) : SimWorld :=
  mkSim (s_clock w) n (s_fds w) (s_next w) (s_procs w) (s_abi w).
Definition with_fds (f : gmap Z (Z * Z)) (w : SimWorld) : SimWorld :=
  mkSim (s_clock w) (s_nodes w) f (s_next w) (s_procs w) (s_abi w).
Definition with_next (w : SimWorld) : SimWorld :=
  mkSim (s_clock w) (s_nodes w) (s_fds w) (s_next w + 1) (s_procs w) (s_abi w).
Definition with_clock (t : Z) (w : SimWorld) : SimWorld :=
  mkSim t (s_nodes w) (s_fds w) (s_next w) (s_procs w) (s_abi w).
Definition with_procs (p : gmap Z Z) (w : SimWorld) : SimWorld :=
  mkSim (s_clock w) (s_nodes w) (s_fds w) (s_next w) p (s_abi w).

Fixpoint lookup_name (name : str) (entries : list (str * Z)) : option Z :=
  match entries with
  | [] => None
  | (n, i) :: rest => if eqs n name then Some i else lookup_name name rest
  end.

Definition child (w : SimWorld) (dir : Z) (name : str) : option Z :=
  match s_nodes w !! dir with
  | Some (NDir _ _ entries) => if eqs name (lit ".") then Some dir else lookup_name name entries
  | _ => None
  end.

Fixpoint walk (w : SimWorld) (dir : Z) (names : list str) : option Z :=
  match names with
  | [] => Some dir
  | [] :: rest => walk w dir rest
  | name :: rest => match child w dir name with Some i => walk w i rest | None => None end
  end.
Definition resolve (w : SimWorld) (path : str) : option Z := walk w ROOT (split_char "/"%char path).

Definition node_metadata (n : node) : Metadata :=
  match n with
  | NDir uid mode _ => mkMetadata (S_IFDIR + mode) uid 0 0
  | NFile uid mode data => mkMetadata (S_IFREG + mode) uid (slen data) 0
  | NLink target => mkMetadata (S_IFLNK + 511) 0 (slen target) 0
  | NSock uid => mkMetadata (S_IFSOCK + 511) uid 0 0
  | NFifo uid mode => mkMetadata (S_IFIFO + mode) uid 0 0
  end.

Definition new_fd (inode : Z) (w : SimWorld) : result Z Z * SimWorld :=
  (Ok (s_next w), with_next (with_fds (<[s_next w := (inode, 0)]> (s_fds w)) w)).

(** Add [n] under [name] in directory [dir]. *)
Definition new_node (dir : Z) (name : str) (n : node) (w : SimWorld) : Z * SimWorld :=
  let i := s_next w in
  let nodes := match s_nodes w !! dir with
               | Some (NDir uid mode entries) => <[dir := NDir uid mode (entries ++ [(name, i)])]> (s_nodes w)
               | _ => s_nodes w
               end in
  (i, with_next (with_nodes (<[i := n]> nodes) w)).

Definition flag (f flags : Z) : bool := negb (Z.land flags f =? 0).

(** Open inode [i] with [flags]: never through a symlink. *)
Definition open_inode (i : Z) (flags : Z) (w : SimWorld) : result Z Z * SimWorld :=
  match s_nodes w !! i with
  | None => (Err ENOENT, w)
  | Some (NLink _) => if flag O_PATH flags then new_fd i w else (Err ELOOP, w)
  | Some (NDir _ _ _) => if flag O_WRONLY flags then (Err EISDIR, w) else new_fd i w
  | Some n =>
      if flag O_DIRECTORY flags then (Err ENOTDIR, w)
      else match n with
           | NFile uid mode _ =>
               if flag O_TRUNC flags then new_fd i (with_nodes (<[i := NFile uid mode []]> (s_nodes w)) w)
               else new_fd i w
           | NFifo _ _ =>
               (* never blocks with O_NONBLOCK: a writer is refused while nobody reads *)
               if flag O_WRONLY flags && negb (flag O_PATH flags) then (Err ENXIO, w) else new_fd i w
           | _ => if flag O_PATH flags then new_fd i w else (Err ENXIO, w)
           end
  end.

Definition fd_inode (w : SimWorld) (fd : Z) : option Z := fst <$> s_fds w !! fd.

Definition remove_entry (dir : Z) (name : str) (w : SimWorld) : SimWorld :=
  match s_nodes w !! dir with
  | Some (NDir uid mode entries) =>
      with_nodes (<[dir := NDir uid mode (List.filter (fun e => negb (eqs e.1 name)) entries)]> (s_nodes w)) w
  | _ => w
  end.

(** The parent directory and the last component of an absolute path. *)
Definition split_last (path : str) : list str * str :=
  match rev (split_char "/"%char path) with
  | [] => ([], [])
  | name :: dirs => (rev dirs, name)
  end.

Fixpoint make_dirs (dir : Z) (names : list str) (w : SimWorld) : result unit Z * SimWorld :=
  match names with
  | [] => (Ok tt, w)
  | [] :: rest => make_dirs dir rest w
  | name :: rest =>
      match child w dir name with
      | Some i => make_dirs i rest w
      | None => let '(i, w) := new_node dir name (NDir 0 493 []) w in make_dirs i rest w
      end
  end.

Definition chown_node (uid : Z) (n : node) : node :=
  match n with
  | NDir _ mode entries => NDir uid mode entries
  | NFile _ mode data => NFile uid mode data
  | NSock _ => NSock uid
  | NFifo _ mode => NFifo uid mode
  | n => n
  end.

Definition chmod_node (mode : Z) (n : node) : node :=
  match n with
  | NDir uid _ entries => NDir uid mode entries
  | NFile uid _ data => NFile uid mode data
  | n => n
  end.

Definition update_inode (i : option Z) (f : node -> node) (w : SimWorld) : result unit Z * SimWorld :=
  match i with
  | Some i => (Ok tt, with_nodes (alter f i (s_nodes w)) w)
  | None => (Err ENOENT, w)
  end.

Definition proc_status (uid : Z) : str :=
  lit "State:" ++ HT :: lit "S (sleeping)" ++ [LF] ++ lit "Uid:" ++ HT :: show uid ++ HT :: show uid ++ [LF].

Definition proc_path (pid : Z) : str := lit "/proc/" ++ show pid ++ lit "/status".
Definition fd_path (fd : Z) : str := lit "/proc/self/fd/" ++ show fd.

(** What a directory shows: never [.], [..] or a name with a separator. *)
Definition shown (names : list str) : list (result str Z) :=
  map Ok (filter normal_name names).

Definition dir_names (w : SimWorld) (i : option Z) : result (list (result str Z)) Z :=
  match i with
  | Some i => match s_nodes w !! i with
              | Some (NDir _ _ entries) => Ok (shown entries.*1)
              | Some _ => Err ENOTDIR
              | None => Err ENOENT
              end
  | None => Err ENOENT
  end.

Definition find_fd (w : SimWorld) (path : str) : option Z :=
  fst <$> List.find (fun e => eqs (fd_path e.1) path) (map_to_list (s_fds w)).

Definition splice (data chunk : str) (pos : nat) : str :=
  take pos (data ++ replicate (pos - length data) NUL) ++ chunk ++ drop (pos + length chunk) data.

Definition sim_syscall (c : call) (w : SimWorld) : result (answer c) Z * SimWorld :=
  match c with
  | Clock => (Ok (s_clock w), with_clock (s_clock w + 1) w)
  | Sleep ms => (Ok tt, with_clock (s_clock w + ms) w)
  | ReadRandom n => (Ok (map (fun k => chr (s_next w + Z.of_nat k)) (seq 0 n)), with_next w)
  | CreateDirAll path => make_dirs ROOT (split_char "/"%char path) w
  | SetPermissions path mode => update_inode (resolve w path) (chmod_node mode) w
  | RemoveDirAll path | RemoveDir path | RemoveFile path =>
      match resolve w path with
      | None => (Err ENOENT, w)
      | Some _ => match walk w ROOT (split_last path).1 with
                  | Some dir => (Ok tt, remove_entry dir (split_last path).2 w)
                  | None => (Err ENOENT, w)
                  end
      end
  | Chown path uid _ => update_inode (resolve w path) (chown_node uid) w
  | ReadFile path =>
      match List.find (fun e => eqs (proc_path e.1) path) (map_to_list (s_procs w)) with
      | Some (_, uid) => (Ok (proc_status uid), w)
      | None => match resolve w path ≫= fun i => s_nodes w !! i with
                | Some (NFile _ _ data) => (Ok data, w)
                | _ => (Err ENOENT, w)
                end
      end
  | ReadDir path =>
      if eqs path (lit "/proc") then
        (Ok (shown (map (fun e => show e.1) (map_to_list (s_procs w)))), w)
      else match find_fd w path with
           | Some fd => (dir_names w (fd_inode w fd), w)
           | None => (dir_names w (resolve w path), w)
           end
  | Lstat path =>
      match resolve w path ≫= fun i => s_nodes w !! i with
      | Some n => (Ok (node_metadata n), w)
      | None => (Err ENOENT, w)
      end
  | Open path flags mode =>
      match resolve w path with
      | Some i => open_inode i flags w
      | None => (Err ENOENT, w)
      end
  | Openat dirfd name flags mode =>
      match fd_inode w dirfd with
      | None => (Err EINVAL, w)
      | Some dir =>
          match child w dir name with
          | Some i => open_inode i flags w
          | None => if flag O_CREAT flags then
                      let '(i, w) := new_node dir name (NFile 0 mode []) w in new_fd i w
                    else (Err ENOENT, w)
          end
      end
  | Mkdirat dirfd name mode =>
      match fd_inode w dirfd with
      | None => (Err EINVAL, w)
      | Some dir => match child w dir name with
                    | Some _ => (Err EEXIST, w)
                    | None => (Ok tt, (new_node dir name (NDir 0 mode []) w).2)
                    end
      end
  | Unlinkat dirfd name flags =>
      match fd_inode w dirfd ≫= fun dir => (fun i => (dir, i)) <$> child w dir name with
      | None => (Err ENOENT, w)
      | Some (dir, i) =>
          match s_nodes w !! i with
          | Some (NDir _ _ entries) =>
              if flag AT_REMOVEDIR flags then
                match entries with [] => (Ok tt, remove_entry dir name w) | _ => (Err EEXIST, w) end
              else (Err EISDIR, w)
          | _ => if flag AT_REMOVEDIR flags then (Err ENOTDIR, w) else (Ok tt, remove_entry dir name w)
          end
      end
  | Fchown fd uid _ => update_inode (fd_inode w fd) (chown_node uid) w
  | Fchmod fd mode => update_inode (fd_inode w fd) (chmod_node mode) w
  | DupFd fd => match fd_inode w fd with Some i => new_fd i w | None => (Err EINVAL, w) end
  | Fstat fd => match fd_inode w fd ≫= fun i => s_nodes w !! i with
                | Some n => (Ok (node_metadata n), w)
                | None => (Err EINVAL, w)
                end
  | ReadFd fd n =>
      match s_fds w !! fd with
      | Some (i, pos) =>
          match s_nodes w !! i with
          | Some (NFile _ _ data) =>
              let got := take n (drop (Z.to_nat pos) data) in
              (Ok got, with_fds (<[fd := (i, pos + slen got)]> (s_fds w)) w)
          | _ => (Err EISDIR, w)
          end
      | None => (Err EINVAL, w)
      end
  | WriteFd fd chunk =>
      match s_fds w !! fd with
      | Some (i, pos) =>
          match s_nodes w !! i with
          | Some (NFile uid mode data) =>
              (Ok tt, with_fds (<[fd := (i, pos + slen chunk)]> (s_fds w))
                        (with_nodes (<[i := NFile uid mode (splice data chunk (Z.to_nat pos))]> (s_nodes w)) w))
          | _ => (Err EISDIR, w)
          end
      | None => (Err EINVAL, w)
      end
  | Lseek fd offset =>
      match s_fds w !! fd with
      | Some (i, _) => if offset <? 0 then (Err EINVAL, w)
                       else (Ok tt, with_fds (<[fd := (i, offset)]> (s_fds w)) w)
      | None => (Err EINVAL, w)
      end
  | Ftruncate fd length =>
      update_inode (fd_inode w fd) (fun n => match n with
        | NFile uid mode data => NFile uid mode (splice (take (Z.to_nat length) data) [] (Z.to_nat length))
        | n => n end) w
  | Close fd => (Ok tt, with_fds (delete fd (s_fds w)) w)
  | LandlockAbi => (Ok (s_abi w), w)
  | LandlockCreateRuleset _ => new_fd 0 w
  | LandlockAddRule _ _ _ | LandlockRestrictSelf _ | Prctl _ _ | Setrlimit _ _ _ => (Ok tt, w)
  | Kill pid _ => (Ok tt, with_procs (delete (Z.abs pid) (s_procs w)) w)
  | Spawn command =>
      (Ok (s_next w), with_next (with_procs (<[s_next w := default 0 (cmd_uid command)]> (s_procs w)) w))
  | PidfdOpen pid => (Ok (1000 + pid), w)
  | PidfdSendSignal pidfd _ => (Ok tt, with_procs (delete (pidfd - 1000) (s_procs w)) w)
  | WaitidPeek _ | FeedStdin _ _ | RemoveVar _ => (Ok tt, w)
  | WaitidPeekAny => (Ok 0, w)
  | WaitPid pid => (Ok pid, w)
  | WaitChild _ => (Ok (Exited 0), w)
  | ConnectUnix path =>
      match find_fd w path ≫= fd_inode w with Some i => new_fd i w | None => (Err ENOENT, w) end
  | ConnectTcp _ => new_fd 0 w
  | PeerUid fd => match fd_inode w fd ≫= fun i => s_nodes w !! i with
                  | Some (NSock uid) => (Ok uid, w)
                  | _ => (Err EINVAL, w)
                  end
  | DupSocket fd => match fd_inode w fd with Some i => new_fd i w | None => (Err EINVAL, w) end
  | SendAll _ _ | Shutdown _ _ | ClientNodelay | ClientReadTimeout _ | ClientWriteTimeout _ => (Ok tt, w)
  | ClientClone => new_fd 0 w
  end.

Definition sim : Kernel := {|
  World := SimWorld;
  strerror := fun errno => lit "error " ++ show errno;
  syscall := sim_syscall;
|}.

(** The law of directory listings holds of it. *)
#[export] Instance sim_dir_names : DirNames sim.
Proof.
  assert (Hshown : forall l, Forall entry_ok (shown l)).
  { intros l. unfold shown. apply Forall_fmap, Forall_forall. intros n Hn. apply list_elem_of_filter in Hn. apply Hn. }
  intros path w names w' H. simpl in H.
  unfold dir_names in H. repeat case_match; simplify_eq; auto.
Qed.

(** An empty machine: a root directory, no process, the newest Landlock. *)
Definition boot : SimWorld :=
  mkSim 1000 {[ ROOT := NDir 0 493 [] ]} ∅ 10 ∅ 6.

(** It with a directory [/h], inode 2. *)
Definition boot_home : SimWorld :=
  with_nodes {[ ROOT := NDir 0 493 [(lit "h", 2)]; 2 := NDir 20000 448 [] ]} boot.
