(* ===== verification/Host.v ===== *)
(** * The server's process

    [Host] is the kernel's state with the program's statics: what every
    kernel-facing component reads and updates.  The second half is about the system
    calls such code makes when the kernel is traced. *)

From S2P Require Import Prelude RustStd Kernel Sim Wp.

(** The statics: [ABI] and [RULES] of src/landlock.rs, [OWNED_PIDS] of src/exec.rs. *)
Record Host {K : Kernel} : Type := mkHost {
  world : World;
  ABI : option Z;
  RULES : option (list (Z * Z));
  OWNED_PIDS : gset Z;
}.

Section HostCode.
Context {K : Kernel}.

Definition set_world (w : World) (h : Host) : Host :=
  {| world := w; ABI := ABI h; RULES := RULES h; OWNED_PIDS := OWNED_PIDS h |}.
Definition on_world {A} (m : io World A) : io Host A := io_lens world set_world m.

(** A system call of the server's own process. *)
Definition hsys (c : call) : io Host (answer c) := on_world (sys c).
Definition hsys_ (c : call) : io Host unit := on_world (sys_ c).
Definition hnow : io Host Z := on_world now_ms.

(** A std function given a path: one with a NUL byte is refused. *)
Definition path_sys (path : str) (c : call) : io Host (answer c) :=
  if existsb (eqc NUL) path then
    io_fail (error_new InvalidInput (lit "file name contained an unexpected NUL byte"))
  else hsys c.

End HostCode.

(** ** The system calls made *)

Section Tracing.
Context {K : Kernel}.
Abbreviation TK := (Traced K).

Definition trace (h : @Host TK) : list event := (world h).2.

(** [h'] comes after [h], and all calls made between satisfy [P]. *)
Definition extends (P : event -> Prop) (h h' : @Host TK) : Prop :=
  exists evs, trace h' = trace h ++ evs /\ Forall P evs.

Lemma extends_refl P h : extends P h h.
Proof. exists []. by rewrite app_nil_r. Qed.

Lemma extends_trans P h1 h2 h3 : extends P h1 h2 -> extends P h2 h3 -> extends P h1 h3.
Proof.
  intros (e1 & H1 & F1) (e2 & H2 & F2). exists (e1 ++ e2).
  rewrite H2, H1, app_assoc. split; [done|]. by apply Forall_app.
Qed.

Lemma extends_mono (P Q : event -> Prop) h h' : (forall e, P e -> Q e) -> extends P h h' -> extends Q h h'.
Proof. intros HPQ (evs & H & F). exists evs. split; [done|]. by eapply Forall_impl. Qed.

(** The state after one call. *)
Definition after (c : call) (r : result (answer c) Z) (w : @World K) (h : @Host TK) : @Host TK :=
  set_world (K:=TK) (w, trace h ++ [Event c r]) h.

Lemma trace_after c r w h : trace (after c r w h) = trace h ++ [Event c r].
Proof. done. Qed.

Lemma extends_after (P : event -> Prop) c r w h : P (Event c r) -> extends P h (after c r w h).
Proof. intros HP. exists [Event c r]. split; [done|]. by apply Forall_singleton. Qed.

Lemma wp_hsys c h Q :
  (forall r w, Q (match r with Ok a => Ok a | Err e => Err (from_raw_os_error e) end) (after c r w h)) ->
  wp (hsys (K:=TK) c) h Q.
Proof.
  intros HQ. unfold hsys, on_world. apply wp_lens. unfold wp. rewrite (sys_run (K:=TK)).
  unfold after, trace in HQ. destruct h as [[w tr] a ru o]. simpl in *.
  destruct (syscall c w) as [r w']. apply HQ.
Qed.

Lemma wp_hsys_ c h Q :
  (forall r w, Q (Ok tt) (after c r w h)) -> wp (hsys_ (K:=TK) c) h Q.
Proof.
  intros HQ. unfold hsys_, on_world, sys_. apply wp_lens, wp_ignore. unfold wp. rewrite (sys_run (K:=TK)).
  unfold after, trace in HQ. destruct h as [[w tr] a ru o]. simpl in *.
  destruct (syscall c w) as [r w']. apply HQ.
Qed.

(** The calls made between two states. *)
Definition new_calls h h' (cs : list call) : Prop :=
  exists evs, trace h' = trace h ++ evs /\ map ev_call evs = cs.

Lemma hsys_runs (c : call) h :
  exists a w, hsys (K:=TK) c h = (match a with Ok x => Ok x | Err e => Err (from_raw_os_error e) end, after c a w h).
Proof.
  unfold hsys, on_world, io_lens. rewrite (sys_run (K:=TK)). unfold after, trace.
  destruct h as [[w tr] ab ru ow]. simpl. destruct (syscall c w) as [a w']. by exists a, w'.
Qed.

Lemma hsys_calls (c : call) h : exists a h', hsys (K:=TK) c h = (a, h')
  /\ new_calls h h' [c] /\ OWNED_PIDS h' = OWNED_PIDS h.
Proof.
  destruct (hsys_runs c h) as (a & w & ->). eexists _, _. split; [reflexivity|]. split; [|done].
  eexists. split; [apply trace_after|done].
Qed.

Lemma clock_calls h : exists now h', hnow (K:=TK) h = (Ok now, h')
  /\ new_calls h h' [Clock] /\ OWNED_PIDS h' = OWNED_PIDS h.
Proof.
  unfold hnow, on_world, io_lens, now_ms. destruct h as [[w tr] ab ru ow]. simpl.
  destruct (syscall Clock w) as [[x|e] w'] eqn:E; simpl; (eexists _, _; split; [reflexivity|]; split; [|done]);
    (eexists; split; [reflexivity|done]).
Qed.

Lemma new_calls_nil h : new_calls h h [].
Proof. exists []. by rewrite app_nil_r. Qed.

Lemma new_calls_app h1 h2 h3 cs ds :
  new_calls h1 h2 cs -> new_calls h2 h3 ds -> new_calls h1 h3 (cs ++ ds).
Proof.
  intros (e1 & H1 & <-) (e2 & H2 & <-). exists (e1 ++ e2). by rewrite H2, H1, app_assoc, map_app.
Qed.

Lemma io_try_run {S A} (m : io S A) s a s' : m s = (a, s') -> io_try m s = (Ok a, s').
Proof. unfold io_try. by intros ->. Qed.

Lemma hsys_ignored (c : call) h : exists h', hsys_ (K:=TK) c h = (Ok tt, h')
  /\ new_calls h h' [c] /\ OWNED_PIDS h' = OWNED_PIDS h.
Proof.
  destruct (hsys_calls c h) as (a & h' & E & T & O). exists h'. split; [|done].
  unfold hsys, hsys_, on_world, sys_, io_lens, io_ignore in *. destruct (sys _ _). by injection E as _ <-.
Qed.

End Tracing.

#[export] Instance extends_preorder {K : Kernel} P : PreOrder (@extends K P).
Proof. split; [intros h; apply extends_refl | intros h1 h2 h3; apply extends_trans]. Qed.

(** Steps through kernel-facing code, calls included. *)
Ltac wp_go :=
  repeat first
    [ wp_step
    | lazymatch goal with
      | |- wp (hsys ?c) ?h ?Q => apply (wp_hsys c h Q); intros ? ?
      | |- wp (hsys_ ?c) ?h ?Q => apply (wp_hsys_ c h Q); intros ? ?
      end
    | progress simpl ].

(** The simulated machine when the server has just started, without and with the
    trace. *)
Definition sim_host (w : SimWorld) : @Host sim := @mkHost sim w None None ∅.
Definition traced_host (w : SimWorld) : @Host (Traced sim) := @mkHost (Traced sim) (w, []) None None ∅.
