(* ===== verification/Landlock.v ===== *)
(** * src/landlock.rs: per-sandbox confinement

    The access bits each Landlock ABI lets the server control, the rules of the
    system directories (opened once per process) and the ruleset of one sandbox. *)

From S2P Require Import Prelude RustStd Kernel Host.

Definition FS_EXECUTE : Z := Z.shiftl 1 0.
Definition FS_WRITE_FILE : Z := Z.shiftl 1 1.
Definition FS_READ_FILE : Z := Z.shiftl 1 2.
Definition FS_READ_DIR : Z := Z.shiftl 1 3.
Definition FS_REFER : Z := Z.shiftl 1 13.
Definition FS_TRUNCATE : Z := Z.shiftl 1 14.
Definition FS_IOCTL_DEV : Z := Z.shiftl 1 15.
Definition FS_BASE : Z := Z.shiftl 1 13 - 1.
Definition NET_BIND_TCP : Z := Z.shiftl 1 0.
Definition SCOPED_ABSTRACT_UNIX_SOCKET : Z := Z.shiftl 1 0.
Definition FULL_ABI : Z := 6.

Definition handled_fs_for (abi : Z) : Z :=
  let handled := FS_BASE in
  let handled := if 2 <=? abi then Z.lor handled FS_REFER else handled in
  let handled := if 3 <=? abi then Z.lor handled FS_TRUNCATE else handled in
  if 5 <=? abi then Z.lor handled FS_IOCTL_DEV else handled.

Definition features (abi : Z) : list str :=
  (if 1 <=? abi then [lit "fs"] else [])
  ++ (if 2 <=? abi then [lit "refer"] else [])
  ++ (if 3 <=? abi then [lit "truncate"] else [])
  ++ (if 4 <=? abi then [lit "no_tcp_bind"] else [])
  ++ (if 5 <=? abi then [lit "ioctl_dev"] else [])
  ++ (if 6 <=? abi then [lit "scoped_abstract_unix"] else []).

(** The grants of [system_dir_rules], before they are masked. *)
Definition ro_access : Z := Z.lor (Z.lor FS_EXECUTE FS_READ_FILE) FS_READ_DIR.
Definition rd_access : Z := Z.lor FS_READ_FILE FS_READ_DIR.
Definition dev_node_access : Z := Z.lor (Z.lor FS_READ_FILE FS_WRITE_FILE) FS_IOCTL_DEV.
Definition dev_dir_access : Z := Z.lor (Z.lor (Z.lor FS_READ_FILE FS_WRITE_FILE) FS_READ_DIR) FS_IOCTL_DEV.

Definition ro_dirs : list str :=
  map lit ["/usr"; "/bin"; "/sbin"; "/lib"; "/lib64"; "/lib32"; "/libx32"; "/etc"; "/opt"; "/run"]%string.
Definition rd_dirs : list str := map lit ["/proc"; "/sys"]%string.
Definition dev_nodes : list str :=
  map lit ["/dev/null"; "/dev/zero"; "/dev/full"; "/dev/random"; "/dev/urandom"; "/dev/tty"; "/dev/ptmx"]%string.
Definition dev_dirs : list str := map lit ["/dev/pts"; "/dev/fd"; "/dev/shm/../fd"]%string.

Section Landlock.
Context {K : Kernel}.

(** The static is set by the first call and never changes.  A failing call is the
    raw syscall's -1. *)
Definition cached_abi : io Host Z := fun h =>
  match ABI h with
  | Some abi => (Ok abi, h)
  | None =>
      let '(abi, w) := match syscall LandlockAbi (world h) with
                       | (Ok v, w) => (v, w)
                       | (Err _, w) => (-1, w)
                       end in
      (Ok abi, {| world := w; ABI := Some abi; RULES := RULES h; OWNED_PIDS := OWNED_PIDS h |})
  end.

Definition available : io Host bool := abi <- cached_abi ;; io_ret (1 <=? abi).
Definition abi : io Host Z := cached_abi.

(** [None] when the path is absent, or holds a NUL byte. *)
Definition open_o_path (path : str) : io Host (option Z) :=
  if existsb (eqc NUL) path then io_ret None
  else
    r <- io_try (hsys (Open path (Z.lor O_PATH O_CLOEXEC) 0)) ;;
    io_ret (match r with Ok fd => Some fd | Err _ => None end).

Definition add_fd_rule (ruleset_fd parent_fd access : Z) : io Host unit :=
  hsys (LandlockAddRule ruleset_fd parent_fd access).

Definition add_path_rule (ruleset_fd : Z) (path : str) (access : Z) : io Host unit :=
  fd <- open_o_path path ;;
  match fd with
  | None => io_fail (error_new NotFound
                       (lit "cannot open " ++ path ++ lit " to build a landlock rule"))
  | Some fd =>
      result <- io_try (add_fd_rule ruleset_fd fd access) ;;
      hsys_ (Close fd) ;;;
      match result with Ok _ => io_ret tt | Err e => io_fail e end
  end.

(** One of the four loops: the directories that open get the grant. *)
Fixpoint open_rules (dirs : list str) (access : Z) (rules : list (Z * Z)) : io Host (list (Z * Z)) :=
  match dirs with
  | [] => io_ret rules
  | dir :: rest =>
      fd <- open_o_path dir ;;
      open_rules rest access (match fd with Some fd => rules ++ [(fd, access)] | None => rules end)
  end.

Definition system_dir_rules : io Host (list (Z * Z)) :=
  cached <- io_gets RULES ;;
  match cached with
  | Some rules => io_ret rules
  | None =>
      abi <- cached_abi ;;
      let handled_fs := handled_fs_for abi in
      rules <- open_rules ro_dirs (Z.land ro_access handled_fs) [] ;;
      rules <- open_rules rd_dirs (Z.land rd_access handled_fs) rules ;;
      rules <- open_rules dev_nodes (Z.land dev_node_access handled_fs) rules ;;
      rules <- open_rules dev_dirs (Z.land dev_dir_access handled_fs) rules ;;
      io_modify (fun h => {| world := world h; ABI := ABI h; RULES := Some rules;
                             OWNED_PIDS := OWNED_PIDS h |}) ;;;
      io_ret rules
  end.

(** A system rule that does not attach is only logged. *)
Fixpoint add_system_rules (ruleset_fd : Z) (rules : list (Z * Z)) : io Host unit :=
  match rules with
  | [] => io_ret tt
  | (parent_fd, access) :: rest =>
      io_ignore (add_fd_rule ruleset_fd parent_fd access) ;;;
      add_system_rules ruleset_fd rest
  end.

Definition ruleset_attr (abi : Z) : RulesetAttr := {|
  handled_access_fs := handled_fs_for abi;
  handled_access_net := if 4 <=? abi then NET_BIND_TCP else 0;
  scoped := if 6 <=? abi then SCOPED_ABSTRACT_UNIX_SOCKET else 0;
|}.

Definition build_ruleset (home : str) : io Host Z :=
  abi <- cached_abi ;;
  if abi <? 1 then
    io_fail (error_new Unsupported (lit "landlock is unavailable on this kernel"))
  else
    ruleset_fd <- hsys (LandlockCreateRuleset (ruleset_attr abi)) ;;
    rules <- system_dir_rules ;;
    add_system_rules ruleset_fd rules ;;;
    r <- io_try (add_path_rule ruleset_fd home (handled_fs_for abi)) ;;
    match r with
    | Err e => hsys_ (Close ruleset_fd) ;;; io_fail e
    | Ok _ => io_ret ruleset_fd
    end.

(** Run in the child, so on a [World] of its own. *)
Definition restrict_self (ruleset_fd : Z) : io World unit := sys (LandlockRestrictSelf ruleset_fd).

End Landlock.
