(* ===== verification/LandlockFacts.v ===== *)
(** * src/landlock.rs: the ruleset a sandbox gets

    What every rule of a sandbox's ruleset grants, and what the ABI versions
    deliver. *)

From S2P Require Import Prelude RustStd Kernel Sim Wp Host Landlock.

Definition subset_bits (a b : Z) : Prop := Z.land a b = a.

(** A system rule grants nothing the ABI does not handle, never creates, removes,
    renames or truncates anything, and never both writes and executes. *)
Definition sys_rule_ok (abi access : Z) : Prop :=
  subset_bits access (handled_fs_for abi)
  /\ subset_bits access (Z.lor (Z.lor ro_access FS_WRITE_FILE) FS_IOCTL_DEV)
  /\ ~ (Z.testbit access 0 = true /\ Z.testbit access 1 = true).

(** What the sandboxes may share, as paths and bits: execute is bit 0, write 1, read 2,
    read a directory 3, ioctl on a device 15. *)
Definition system_grants : list (list String.string * Z) :=
  [(["/usr"; "/bin"; "/sbin"; "/lib"; "/lib64"; "/lib32"; "/libx32"; "/etc"; "/opt"; "/run"], 1 + 4 + 8);
   (["/proc"; "/sys"], 4 + 8);
   (["/dev/null"; "/dev/zero"; "/dev/full"; "/dev/random"; "/dev/urandom"; "/dev/tty"; "/dev/ptmx"], 2 + 4 + 32768);
   (["/dev/pts"; "/dev/fd"; "/dev/shm/../fd"], 2 + 4 + 8 + 32768)]%string.

Definition granted (abi : Z) (path : str) (access : Z) : Prop :=
  exists dirs bits, (dirs, bits) ∈ system_grants /\ path ∈ map lit dirs /\ access = Z.land bits (handled_fs_for abi).

(** Everything that ABI [abi] can control is controlled: the thirteen rights of the
    first, then refer, truncate and ioctl; TCP binds; abstract sockets. *)
Definition controls_all (abi : Z) (attr : RulesetAttr) : Prop :=
  (forall bit, Z.testbit (handled_access_fs attr) bit =
     ((0 <=? bit) && (bit <=? 12)) || ((bit =? 13) && (2 <=? abi)) || ((bit =? 14) && (3 <=? abi))
     || ((bit =? 15) && (5 <=? abi)))
  /\ handled_access_net attr = (if 4 <=? abi then 1 else 0)
  /\ scoped attr = (if 6 <=? abi then 1 else 0).

(** ** The access bits *)

Ltac abi_cases := unfold handled_fs_for; repeat case_match; try lia; try done.

Lemma granted_rule_ok abi path access : granted abi path access -> sys_rule_ok abi access.
Proof.
  intros (dirs & bits & Hin & _ & ->). unfold sys_rule_ok, subset_bits. split_and!.
  - rewrite <- Z.land_assoc, Z.land_diag. done.
  - unfold system_grants in Hin. rewrite !elem_of_cons in Hin. abi_cases;
      destruct Hin as [[= _ ->]|[[= _ ->]|[[= _ ->]|[[= _ ->]|Hin]]]]; (done || (by apply not_elem_of_nil in Hin)).
  - unfold system_grants in Hin. rewrite !elem_of_cons in Hin. abi_cases;
      destruct Hin as [[= _ ->]|[[= _ ->]|[[= _ ->]|[[= _ ->]|Hin]]]];
      (by apply not_elem_of_nil in Hin) || (by intros [? ?]).
Qed.

Lemma small_bits n b : 0 <= n < 2 ^ 16 -> Z.testbit n b = ((0 <=? b) && (b <=? 15)) && Z.testbit n b.
Proof.
  intros Hn. destruct (Z.leb_spec 0 b); [|by rewrite Z.testbit_neg_r by lia].
  destruct (Z.leb_spec b 15); [done|]. simpl. destruct (Z.eq_dec n 0) as [->|]; [apply Z.bits_0|].
  apply Z.bits_above_log2; [lia|]. assert (Z.log2 n < 16); [|lia]. apply Z.log2_lt_pow2; lia.
Qed.

Lemma ruleset_attr_controls abi : controls_all abi (ruleset_attr abi).
Proof.
  split_and!; [|unfold ruleset_attr; simpl; by case_match..]. intros bit. cbn [ruleset_attr handled_access_fs].
  rewrite small_bits by (unfold handled_fs_for; repeat case_match; vm_compute; split; congruence).
  destruct (Z.leb_spec 0 bit); cbn [andb].
  2:{ rewrite !(proj2 (Z.eqb_neq bit _)) by lia. done. }
  destruct (Z.leb_spec bit 15); cbn [andb].
  2:{ rewrite !(proj2 (Z.eqb_neq bit _)), (proj2 (Z.leb_gt bit 12)) by lia. done. }
  assert (Hb : bit ∈ seqZ 0 16) by (apply elem_of_seqZ; lia).
  unfold handled_fs_for. destruct (2 <=? abi), (3 <=? abi), (5 <=? abi); revert bit Hb H H0;
    vm_compute; intros bit Hb _ _; repeat (apply elem_of_cons in Hb as [->|Hb]; [done|]); by apply not_elem_of_nil in Hb.
Qed.

Lemma handled_mono a b : a <= b -> subset_bits (handled_fs_for a) (handled_fs_for b).
Proof. intros. unfold subset_bits. abi_cases. Qed.

Lemma feature_mono k a b (x f : str) :
  a <= b -> f ∈ (if k <=? a then [x] else []) -> f ∈ (if k <=? b then [x] else []).
Proof. intros Hab. destruct (Z.leb_spec k a), (Z.leb_spec k b); try lia; set_solver. Qed.

Lemma features_mono a b : a <= b -> features a ⊆ features b.
Proof.
  intros Hab f. unfold features. rewrite !elem_of_app.
  intros [H|[H|[H|[H|[H|H]]]]]; apply (feature_mono _ a b _ f Hab) in H; tauto.
Qed.

(** ** The calls of [build_ruleset] *)

Section Facts.
Context {K : Kernel}.
Abbreviation TK := (Traced K).
Implicit Types h : @Host TK.

(** A call that neither makes a ruleset nor adds a rule to one. *)
Definition setup_call (e : event) : Prop :=
  match ev_call e with
  | LandlockAddRule _ _ _ | LandlockCreateRuleset _ => False
  | _ => True
  end.

(** [h'] differs from [h] by calls satisfying [P] only. *)
Definition after_calls (P : event -> Prop) h h' : Prop :=
  extends P h h' /\ ABI h' = ABI h /\ RULES h' = RULES h.

Lemma after_calls_step (P : event -> Prop) c r w h h' :
  P (Event c r) -> after_calls P (after c r w h) h' -> after_calls P h h'.
Proof.
  intros HP (He & Ha & Hr). split_and!; [|done..]. etrans; [|done]. by apply extends_after.
Qed.

Lemma after_calls_refl P h : after_calls P h h.
Proof. split_and!; [apply extends_refl|done..]. Qed.

Lemma open_o_path_spec path h :
  wp (open_o_path (K:=TK) path) h (fun r h' =>
    exists o, r = Ok o /\ after_calls setup_call h h'
      /\ (forall fd, o = Some fd ->
            exists evs, trace h' = trace h ++ evs
              /\ Event (Open path (Z.lor O_PATH O_CLOEXEC) 0) (Ok fd) ∈ evs)).
Proof.
  unfold open_o_path. wp_go.
  - eexists. split_and!; [done|apply after_calls_refl|done].
  - eexists. split_and!; [done|by eapply after_calls_step, after_calls_refl|].
    intros fd Hfd. destruct r as [fd'|]; [|done]. injection Hfd as ->.
    eexists. split; [done|]. set_solver.
Qed.

Lemma after_calls_trans P h1 h2 h3 : after_calls P h1 h2 -> after_calls P h2 h3 -> after_calls P h1 h3.
Proof. intros (? & ? & ?) (? & ? & ?). split_and!; [by etrans|congruence..]. Qed.

(** A rule's descriptor was opened, as what may be shared, in the history [tr]. *)
Definition sys_rule (abi : Z) (tr : list event) (rule : Z * Z) : Prop :=
  exists path, granted abi path rule.2 /\ Event (Open path (Z.lor O_PATH O_CLOEXEC) 0) (Ok rule.1) ∈ tr.

(** The statics hold such rules, of the ABI they were opened for. *)
Definition statics_ok h : Prop :=
  match RULES h with
  | None => True
  | Some rules => exists abi, ABI h = Some abi /\ Forall (sys_rule abi (trace h)) rules
  end.

Lemma sys_rules_later abi tr tr' rules : tr ⊆ tr' -> Forall (sys_rule abi tr) rules -> Forall (sys_rule abi tr') rules.
Proof. intros Hsub F. eapply Forall_impl; [exact F|]. intros r (path & Hg & Hin). exists path. auto. Qed.

Lemma extends_sub P h h' : extends P h h' -> trace h ⊆ trace h'.
Proof. intros (evs & -> & _). set_solver. Qed.

Lemma statics_later h h' :
  statics_ok h -> trace h ⊆ trace h' -> RULES h' = RULES h -> (forall a, ABI h = Some a -> ABI h' = Some a) -> statics_ok h'.
Proof.
  unfold statics_ok. intros Hok Hsub HR HA. rewrite HR. destruct (RULES h); [|done].
  destruct Hok as (a & Ha & F). exists a. split; [by apply HA|by eapply sys_rules_later].
Qed.

Lemma open_rules_spec abi dirs access rules h :
  Forall (fun dir => granted abi dir access) dirs -> Forall (sys_rule abi (trace h)) rules ->
  wp (open_rules (K:=TK) dirs access rules) h (fun r h' =>
    exists rules', r = Ok rules' /\ Forall (sys_rule abi (trace h')) rules' /\ after_calls setup_call h h').
Proof.
  intros Hd. revert rules h. induction Hd as [|dir dirs Hg _ IH]; intros rules h Hr; simpl.
  - apply wp_ret. eexists. split_and!; [done..|apply after_calls_refl].
  - apply wp_bind. eapply wp_mono; [apply open_o_path_spec|].
    intros r h1 (o & -> & H1 & Hopen). simpl.
    assert (Hr1 : Forall (sys_rule abi (trace h1)) rules)
      by (eapply sys_rules_later; [|exact Hr]; destruct H1 as [H1 _]; by eapply extends_sub).
    eapply wp_mono; [apply IH|].
    + destruct o as [fd|]; [|done]. apply Forall_app. split; [done|]. apply Forall_singleton.
      destruct (Hopen fd eq_refl) as (evs & -> & Hin). exists dir. split; [done|]. set_solver.
    + intros r2 h2 (rules' & -> & Hf & H2). eexists. split_and!; [done..|by eapply after_calls_trans].
Qed.

Lemma cached_abi_spec h :
  wp (cached_abi (K:=TK)) h (fun r h' =>
    exists abi, r = Ok abi /\ ABI h' = Some abi /\ RULES h' = RULES h
      /\ extends setup_call h h' /\ (forall a, ABI h = Some a -> abi = a)).
Proof.
  unfold wp, cached_abi. destruct h as [[w tr] a ru o]. destruct a as [a|]; simpl.
  - eexists. split_and!; [done..|apply extends_refl|]. by intros ? [= ->].
  - destruct (syscall LandlockAbi w) as [r w'].
    destruct r; simpl; (eexists; split_and!; [done..|eexists; split; [done|]; by apply Forall_singleton|done]).
Qed.

Lemma system_dir_rules_spec h a :
  statics_ok h -> ABI h = Some a ->
  wp (system_dir_rules (K:=TK)) h (fun r h' =>
    exists rules, r = Ok rules /\ Forall (sys_rule a (trace h')) rules
      /\ ABI h' = Some a /\ statics_ok h' /\ extends setup_call h h').
Proof.
  intros Hok HA. unfold system_dir_rules. do 2 wp_step. pose proof Hok as Hok'. unfold statics_ok in Hok'.
  destruct (RULES h) as [rules|] eqn:HR.
  - wp_step. destruct Hok' as (abi & HA' & Hf). simplify_eq. exists rules. by split_and!.
  - wp_step. eapply wp_mono; [apply cached_abi_spec|].
    intros r h1 (abi & -> & HA1 & HR1 & E1 & Heq). specialize (Heq _ HA). subst abi.
    assert (Hall : forall access rules dirs h0, Forall (fun dir => granted a dir (Z.land access (handled_fs_for a))) dirs ->
      Forall (sys_rule a (trace h0)) rules -> ABI h0 = Some a -> extends setup_call h h0 ->
      wp (open_rules (K:=TK) dirs (Z.land access (handled_fs_for a)) rules) h0 (fun r h' =>
        exists rules', r = Ok rules' /\ Forall (sys_rule a (trace h')) rules'
          /\ ABI h' = Some a /\ extends setup_call h h')).
    { intros access rules dirs h0 Hg Hf HA0 E0.
      eapply wp_mono; [by apply open_rules_spec|].
      intros r h' (rules' & -> & Hf' & E & HA' & _). exists rules'.
      split_and!; [done..|congruence|by etrans]. }
    assert (Hg : forall dirs bits, (dirs, bits) ∈ system_grants ->
      Forall (fun dir => granted a dir (Z.land bits (handled_fs_for a))) (map lit dirs)).
    { intros dirs bits Hin. apply Forall_forall. intros dir Hdir. by exists dirs, bits. }
    do 4 (wp_step; eapply wp_mono; [apply Hall; [eapply Hg; set_solver|done || by apply Forall_nil|done|done]|];
          intros ? ? (? & -> & ? & ? & ?)).
    wp_go. eexists. split_and!; [done..| |].
    + unfold statics_ok. simpl. eauto.
    + done.
Qed.

(** Every rule put into ruleset [fd] of ABI [abi] satisfies [P] on its parent,
    its access and its outcome; nothing else is made. *)
Definition rule_calls (fd : Z) (P : Z -> Z -> result unit Z -> Prop) (e : event) : Prop :=
  match e with
  | Event (LandlockAddRule r parent access) res => r = fd /\ P parent access res
  | Event (LandlockCreateRuleset _) _ => False
  | _ => True
  end.

Lemma setup_rule_calls fd P e : setup_call e -> rule_calls fd P e.
Proof. destruct e as [[] ?]; simpl; try done; by intros []. Qed.

Lemma add_system_rules_spec fd abi tr rules h :
  Forall (sys_rule abi tr) rules ->
  wp (add_system_rules (K:=TK) fd rules) h (fun r h' =>
    r = Ok tt /\ after_calls (rule_calls fd (fun parent access _ => sys_rule abi tr (parent, access))) h h').
Proof.
  revert h. induction rules as [|[parent access] rules IH]; intros h Hf; simpl.
  - wp_step. split; [done|apply after_calls_refl].
  - apply Forall_cons in Hf as [H1 Hf]. unfold add_fd_rule. wp_go.
    eapply wp_mono; [by apply IH|]. intros r0 h' [-> ?]. split; [done|].
    eapply after_calls_step; [|done]. done.
Qed.

Lemma add_path_rule_spec fd path access h :
  wp (add_path_rule (K:=TK) fd path access) h (fun r h' =>
    exists evs, trace h' = trace h ++ evs /\ ABI h' = ABI h /\ RULES h' = RULES h
      /\ Forall (rule_calls fd (fun parent a res => a = access
           /\ Event (Open path (Z.lor O_PATH O_CLOEXEC) 0) (Ok parent) ∈ evs
           /\ (r = Ok tt -> res = Ok tt))) evs
      /\ (r = Ok tt -> exists parent, Event (LandlockAddRule fd parent access) (Ok tt) ∈ evs
            /\ Event (Open path (Z.lor O_PATH O_CLOEXEC) 0) (Ok parent) ∈ evs)).
Proof.
  unfold add_path_rule. wp_step. eapply wp_mono; [apply open_o_path_spec|].
  intros r h1 (o & -> & ((evs1 & HT1 & F1) & HA1 & HR1) & Hopen). destruct o as [parent|].
  - destruct (Hopen parent) as (evs' & HT' & Hin); [done|].
    assert (evs' = evs1) as -> by (apply (app_inv_head (trace h)); congruence).
    unfold add_fd_rule. wp_go.
    all: exists (evs1 ++ [Event (LandlockAddRule fd parent access) r] ++ [Event (Close parent) r0]).
    all: rewrite !trace_after, HT1, <- !app_assoc; split_and!; [done..| |].
    all: rewrite ?Forall_app, ?Forall_singleton; try split_and!.
    all: try (eapply Forall_impl; [exact F1|]; intros; by apply setup_rule_calls).
    all: simpl; try done.
    all: try (split_and!; [done..|set_solver|]).
    all: destruct r as [[]|]; try done.
    exists parent. split; set_solver.
  - wp_go. exists evs1. split_and!; [done..| |done].
    eapply Forall_impl; [exact F1|]. intros. by apply setup_rule_calls.
Qed.

(** The calls of one [build_ruleset], in the history [tr]: one ruleset, which controls
    everything, and in it rules on what may be shared and on the sandbox's home. *)
Definition sandbox_rule (abi : Z) (home : str) (fd : Z) (tr : list event) (e : event) : Prop :=
  match ev_call e with
  | LandlockCreateRuleset attr => controls_all abi attr
  | LandlockAddRule r parent access =>
      r = fd /\ (sys_rule_ok abi access /\ sys_rule abi tr (parent, access)
                 \/ access = handled_fs_for abi
                    /\ Event (Open home (Z.lor O_PATH O_CLOEXEC) 0) (Ok parent) ∈ tr)
  | _ => True
  end.

(** The ruleset an event made, if it made one. *)
Definition ruleset_made (e : event) : option Z :=
  match e with Event (LandlockCreateRuleset _) (Ok fd) => Some fd | _ => None end.

Lemma setup_sandbox_rule abi home fd evs e : setup_call e -> sandbox_rule abi home fd evs e.
Proof. destruct e as [[] ?]; simpl; try done; by intros []. Qed.

Lemma setup_makes_none e fd attr : Forall setup_call e -> ~ @Event (LandlockCreateRuleset attr) (Ok fd) ∈ e.
Proof. intros F Hin. rewrite Forall_forall in F. by apply (F _ Hin). Qed.
Lemma rule_calls_make_none e ruleset P fd attr :
  Forall (rule_calls ruleset P) e -> ~ @Event (LandlockCreateRuleset attr) (Ok fd) ∈ e.
Proof. intros F Hin. rewrite Forall_forall in F. by apply (F _ Hin). Qed.
Lemma one_event_makes e fd attr : @Event (LandlockCreateRuleset attr) (Ok fd) ∈ [e] -> ruleset_made e = Some fd.
Proof. by intros <-%list_elem_of_singleton. Qed.

Lemma setup_sandbox_rules abi home fd evs e : Forall setup_call e -> Forall (sandbox_rule abi home fd evs) e.
Proof. intros F. eapply Forall_impl; [exact F|]. intros. by apply setup_sandbox_rule. Qed.
Lemma system_sandbox_rules abi home fd tr evs e : tr ⊆ evs ->
  Forall (rule_calls fd (fun parent access _ => sys_rule abi tr (parent, access))) e ->
  Forall (sandbox_rule abi home fd evs) e.
Proof.
  intros Hsub F. eapply Forall_impl; [exact F|]. intros [[] ?]; simpl; try done. intros [-> (path & Hg & Hin)].
  unfold sandbox_rule. simpl. split; [done|]. left. split; [by eapply granted_rule_ok|]. exists path. auto.
Qed.
Lemma home_sandbox_rules abi home fd evs (e : list event) P :
  Forall (rule_calls fd (fun parent a res => a = handled_fs_for abi
    /\ Event (Open home (Z.lor O_PATH O_CLOEXEC) 0) (Ok parent) ∈ e /\ P res)) e ->
  e ⊆ evs -> Forall (sandbox_rule abi home fd evs) e.
Proof.
  intros F Hsub. eapply Forall_impl; [exact F|]. intros [[] ?]; simpl; try done. intros (-> & -> & Hin & _).
  unfold sandbox_rule. simpl. split; [done|]. right. split; [done|]. set_solver.
Qed.

(** What [build_ruleset] has done when it ends with [r]. *)
Definition built (home : str) h (r : result Z io_error) h' : Prop :=
  statics_ok h' /\ exists evs, trace h' = trace h ++ evs /\
  match r with
  | Ok fd => exists abi attr, ABI h' = Some abi /\ 1 <= abi /\ controls_all abi attr
      /\ Event (LandlockCreateRuleset attr) (Ok fd) ∈ evs
      /\ Forall (sandbox_rule abi home fd (trace h')) evs
      /\ exists parent, Event (LandlockAddRule fd parent (handled_access_fs attr)) (Ok tt) ∈ evs
           /\ Event (Open home (Z.lor O_PATH O_CLOEXEC) 0) (Ok parent) ∈ evs
  | Err _ => forall fd attr, Event (LandlockCreateRuleset attr) (Ok fd) ∈ evs ->
              exists res, Event (Close fd) res ∈ evs
  end.

Lemma build_ruleset_spec home h : statics_ok h -> wp (build_ruleset (K:=TK) home) h (built home h).
Proof.
  intros Hok. unfold build_ruleset. wp_step. eapply wp_mono; [apply cached_abi_spec|].
  intros r h1 (abi & -> & HA1 & HR1 & (e1 & HT1 & F1) & Heq). simpl.
  assert (Hok1 : statics_ok h1).
  { eapply statics_later; [exact Hok|rewrite HT1; set_solver|done|]. intros a Ha. by rewrite HA1, (Heq _ Ha). }
  destruct (abi <? 1) eqn:Habi.
  { wp_step. split; [done|]. exists e1. split; [done|]. intros fd attr Hin. by apply setup_makes_none in Hin. }
  wp_step. apply (wp_hsys (LandlockCreateRuleset (ruleset_attr abi))). intros r w1.
  set (h2 := after _ _ _ h1).
  assert (Hok2 : statics_ok h2).
  { eapply statics_later; [exact Hok1|unfold h2; rewrite trace_after; set_solver|done|done]. }
  destruct r as [fd|err]; simpl.
  2:{ split; [done|]. exists (e1 ++ [Event (LandlockCreateRuleset (ruleset_attr abi)) (Err err)]).
      unfold h2. rewrite trace_after, HT1, <- app_assoc. split; [done|]. intros fd attr Hin.
      apply elem_of_app in Hin as [Hin|Hin]; [by apply setup_makes_none in Hin|].
      by apply one_event_makes in Hin. }
  wp_step.
  eapply wp_mono; [apply (system_dir_rules_spec h2 abi); done|].
  intros r h3 (rules & -> & Hf & HA3 & Hok3 & (e3 & HT3 & F3)).
  wp_step. eapply wp_mono; [by apply (add_system_rules_spec fd abi (trace h3))|].
  intros r h4 (-> & ((e4 & HT4 & F4) & HA4 & HR4)).
  wp_step. wp_step. eapply wp_mono; [apply add_path_rule_spec|].
  intros r h5 (e5 & HT5 & HA5 & HR5 & F5 & Hhome).
  assert (Hok5 : statics_ok h5).
  { eapply statics_later; [exact Hok3|rewrite HT5, HT4; set_solver|congruence|congruence]. }
  assert (HT : trace h5 = trace h ++ e1 ++ [Event (LandlockCreateRuleset (ruleset_attr abi)) (Ok fd)]
                 ++ e3 ++ e4 ++ e5).
  { rewrite HT5, HT4, HT3. unfold h2. rewrite trace_after, HT1, <- !app_assoc. done. }
  destruct r as [[]|err].
  - wp_step. split; [done|]. eexists. split; [exact HT|]. exists abi, (ruleset_attr abi). split_and!.
    + congruence.
    + apply Z.ltb_ge in Habi. lia.
    + apply ruleset_attr_controls.
    + set_solver.
    + rewrite !Forall_app, Forall_singleton. split_and!.
      * by apply setup_sandbox_rules.
      * apply ruleset_attr_controls.
      * by apply setup_sandbox_rules.
      * eapply system_sandbox_rules; [|exact F4]. rewrite HT5, HT4. set_solver.
      * eapply home_sandbox_rules; [exact F5|]. rewrite HT5. set_solver.
    + destruct Hhome as (parent & Hp & Ho); [done|]. exists parent. split; set_solver.
  - wp_go. split; [by eapply statics_later; [exact Hok5|rewrite trace_after; set_solver|..]|].
    eexists. split; [rewrite trace_after, HT, <- !app_assoc; reflexivity|].
    intros fd' attr Hin. exists r. rewrite !elem_of_app in Hin.
    destruct Hin as [Hin|[Hin|[Hin|[Hin|[Hin|Hin]]]]].
    + by apply setup_makes_none in Hin.
    + apply one_event_makes in Hin. injection Hin as ->. set_solver.
    + by apply setup_makes_none in Hin.
    + by apply (rule_calls_make_none _ _ _ _ _ F4) in Hin.
    + by apply (rule_calls_make_none _ _ _ _ _ F5) in Hin.
    + by apply one_event_makes in Hin.
Qed.


End Facts.

(** [FULL_ABI] is the least ABI that delivers what the isolation model
    documents: exactly from it on does a ruleset refuse TCP binds and scope abstract
    sockets, and a later ABI never loses a controlled access or a feature. *)
Theorem full_abi_least abi abi' :
  (FULL_ABI <= abi <->
     handled_access_net (ruleset_attr abi) = NET_BIND_TCP
     /\ scoped (ruleset_attr abi) = SCOPED_ABSTRACT_UNIX_SOCKET)
  /\ (FULL_ABI <= abi <-> features FULL_ABI ⊆ features abi)
  /\ (abi <= abi' -> subset_bits (handled_fs_for abi) (handled_fs_for abi') /\ features abi ⊆ features abi').
Proof.
  split_and!.
  - unfold ruleset_attr, FULL_ABI. simpl. destruct (Z.leb_spec 4 abi), (Z.leb_spec 6 abi); split; try lia; try done;
      by intros [? ?].
  - split; [apply features_mono|]. intros Hsub. specialize (Hsub (lit "scoped_abstract_unix")).
    destruct (Z.leb_spec FULL_ABI abi) as [|Hlt]; [done|]. exfalso.
    assert (Hin : lit "scoped_abstract_unix" ∈ features 5).
    { apply (features_mono abi); [unfold FULL_ABI in *; lia|]. apply Hsub.
      apply (bool_decide_unpack _). by vm_compute. }
    revert Hin. apply (bool_decide_unpack _). by vm_compute.
  - split; [by apply handled_mono|by apply features_mono].
Qed.

Abbreviation sample_build := (build_ruleset (K:=Traced sim) (lit "/h")).


Lemma full_abi_least_witness :
  4 <= 5 /\ features 4 ⊆ features 5.
Proof. split; [lia|]. apply (proj2 (proj2 (full_abi_least 4 5))). lia. Defined.
