(* ===== verification/State.v ===== *)
(** * The server's shared state

    The data of src/sandboxes.rs, src/exec.rs and src/main.rs.  Values behind an
    [Arc] are immutable but for their [Mutex] and atomic fields; such a field is an
    address here, and the registry that owns the object keeps the cells, so that
    every holder of the object sees a change. *)

From S2P Require Import Prelude RustStd Json Net Http HttpResponse Kernel Host.

(** ** src/sandboxes.rs *)

Inductive Confinement : Type := ByLandlock (fd : Z) | UidOnly.

Record SandboxEntry : Type := mkEntry {
  id : str;
  uid : Z;
  home : str;
  created_at_ms : Z;
  env : gmap str str;
  max_procs : Z;
  max_mem_mb : Z;
  token : str;
  confinement : Confinement;
  (** Addresses of the [deleted] and [last_activity_ms] cells. *)
  deleted : Z;
  entry_activity : Z;
  idle_timeout_ms : Z;
}.

Inductive CreateError : Type := Full | CreateIo (e : io_error).

(** [free] is a [Vec] whose end is the last element of the list. *)
Record UidPool : Type := mkUidPool {
  next : Z;
  free : list Z;
  quarantined : list Z;
}.

Record SandboxRegistry : Type := mkSandboxRegistry {
  sandbox_map : gmap str SandboxEntry;
  capacity : Z;
  reserved : Z;
  allow_unconfined : bool;
  uids : UidPool;
  (** The cells of the entries, by address, and the next address. *)
  deleted_cells : gmap Z bool;
  activity_cells : gmap Z Z;
  next_cell : Z;
}.

(** ** src/exec.rs *)

Record ExitInfo : Type := mkExitInfo {
  exit_code : option Z;
  signal : option Z;
  timed_out : bool;
  duration_ms : Z;
}.

(** [running] is the address of the mutex that serializes signalling with
    reaping. *)
Record ProcHandle : Type := mkProcHandle {
  handle_pid : Z;
  pidfd : option Z;
  running : Z;
}.

Record Proc {SJ : SerdeJson} : Type := mkProc {
  proc_id : str;
  pid : Z;
  handle : ProcHandle;
  tag : option str;
  cmd_json : Value Number;
  started_at : Z;
  sandbox_id : option str;
  (** Address of the cell of [state.exit]. *)
  exit_cell : Z;
}.

Record ProcRegistry {SJ : SerdeJson} : Type := mkProcRegistry {
  procs : list Proc;
  seq : Z;
  active : Z;
  exit_cells : gmap Z (option ExitInfo);
  running_cells : gmap Z bool;
  proc_next_cell : Z;
}.

Arguments mkProc {SJ}.
Arguments mkProcRegistry {SJ}.

(** ** src/main.rs *)

Inductive Auth : Type := Required (expected : str) | DisabledForDevelopment.

Record State {SJ : SerdeJson} {K : Kernel} : Type := mkState {
  auth : Auth;
  started_at_ms : Z;
  last_activity_ms : Z;
  proc_registry : ProcRegistry;
  sandboxes : SandboxRegistry;
  host_mode : bool;
  host : Host;
}.

(** What a handler works on: the shared state, the request, the connection's
    reader and the response. *)
Record Ctx {SJ : SerdeJson} {K : Kernel} : Type := mkCtx {
  state : State;
  request : Request;
  reader : Reader;
  resp : ResponseWriter;
}.

Arguments mkState {SJ K}.
Arguments mkCtx {SJ K}.

Section Updates.
Context {SJ : SerdeJson} {K : Kernel}.

Definition set_map (m : gmap str SandboxEntry) (r : SandboxRegistry) : SandboxRegistry :=
  mkSandboxRegistry m (capacity r) (reserved r) (allow_unconfined r) (uids r)
    (deleted_cells r) (activity_cells r) (next_cell r).
Definition set_reserved (n : Z) (r : SandboxRegistry) : SandboxRegistry :=
  mkSandboxRegistry (sandbox_map r) (capacity r) n (allow_unconfined r) (uids r)
    (deleted_cells r) (activity_cells r) (next_cell r).
Definition set_uids (p : UidPool) (r : SandboxRegistry) : SandboxRegistry :=
  mkSandboxRegistry (sandbox_map r) (capacity r) (reserved r) (allow_unconfined r) p
    (deleted_cells r) (activity_cells r) (next_cell r).
Definition set_deleted (cell : Z) (b : bool) (r : SandboxRegistry) : SandboxRegistry :=
  mkSandboxRegistry (sandbox_map r) (capacity r) (reserved r) (allow_unconfined r) (uids r)
    (<[cell := b]> (deleted_cells r)) (activity_cells r) (next_cell r).
Definition set_entry_activity (cell t : Z) (r : SandboxRegistry) : SandboxRegistry :=
  mkSandboxRegistry (sandbox_map r) (capacity r) (reserved r) (allow_unconfined r) (uids r)
    (deleted_cells r) (<[cell := t]> (activity_cells r)) (next_cell r).

Definition set_procs (l : list Proc) (r : ProcRegistry) : ProcRegistry :=
  mkProcRegistry l (seq r) (active r) (exit_cells r) (running_cells r) (proc_next_cell r).
Definition set_active (n : Z) (r : ProcRegistry) : ProcRegistry :=
  mkProcRegistry (procs r) (seq r) n (exit_cells r) (running_cells r) (proc_next_cell r).
Definition set_seq (n : Z) (r : ProcRegistry) : ProcRegistry :=
  mkProcRegistry (procs r) n (active r) (exit_cells r) (running_cells r) (proc_next_cell r).
Definition set_exit (cell : Z) (e : option ExitInfo) (r : ProcRegistry) : ProcRegistry :=
  mkProcRegistry (procs r) (seq r) (active r) (<[cell := e]> (exit_cells r)) (running_cells r) (proc_next_cell r).
Definition set_running (cell : Z) (b : bool) (r : ProcRegistry) : ProcRegistry :=
  mkProcRegistry (procs r) (seq r) (active r) (exit_cells r) (<[cell := b]> (running_cells r)) (proc_next_cell r).

Definition set_host (h : Host) (s : State) : State :=
  mkState (auth s) (started_at_ms s) (last_activity_ms s) (proc_registry s) (sandboxes s) (host_mode s) h.
Definition set_sandboxes (r : SandboxRegistry) (s : State) : State :=
  mkState (auth s) (started_at_ms s) (last_activity_ms s) (proc_registry s) r (host_mode s) (host s).
Definition set_proc_registry (r : ProcRegistry) (s : State) : State :=
  mkState (auth s) (started_at_ms s) (last_activity_ms s) r (sandboxes s) (host_mode s) (host s).
Definition set_last_activity (t : Z) (s : State) : State :=
  mkState (auth s) (started_at_ms s) t (proc_registry s) (sandboxes s) (host_mode s) (host s).

Definition set_state (s : State) (c : Ctx) : Ctx := mkCtx s (request c) (reader c) (resp c).
Definition set_request (q : Request) (c : Ctx) : Ctx := mkCtx (state c) q (reader c) (resp c).
Definition set_reader (r : Reader) (c : Ctx) : Ctx := mkCtx (state c) (request c) r (resp c).
Definition set_resp (rw : ResponseWriter) (c : Ctx) : Ctx := mkCtx (state c) (request c) (reader c) rw.

(** Code of a component, run in a larger state. *)
Definition with_state {A} (m : io State A) : io Ctx A := io_lens state set_state m.
Definition with_host {A} (m : io Host A) : io State A := io_lens host set_host m.
Definition with_resp {A} (m : io ResponseWriter A) : io Ctx A := io_lens resp set_resp m.
Definition with_body {A} (m : io (Request * Reader) A) : io Ctx A :=
  io_lens (fun c => (request c, reader c)) (fun qr c => set_reader qr.2 (set_request qr.1 c)) m.
Definition ctx_host {A} (m : io Host A) : io Ctx A := with_state (with_host m).

(** The registry operations of src/sandboxes.rs run on the registry and the
    process, those of src/exec.rs likewise. *)
Definition with_sandboxes {A} (m : io (SandboxRegistry * Host) A) : io State A :=
  io_lens (fun s => (sandboxes s, host s)) (fun rh s => set_host rh.2 (set_sandboxes rh.1 s)) m.
Definition with_procs {A} (m : io (ProcRegistry * Host) A) : io State A :=
  io_lens (fun s => (proc_registry s, host s)) (fun rh s => set_host rh.2 (set_proc_registry rh.1 s)) m.

Definition on_fst {S T A} (m : io S A) : io (S * T) A := io_lens fst (fun x s => (x, s.2)) m.
Definition on_snd {S T A} (m : io T A) : io (S * T) A := io_lens snd (fun x s => (s.1, x)) m.

End Updates.

Definition label (c : Confinement) : str :=
  match c with ByLandlock _ => lit "landlock" | UidOnly => lit "uid-only" end.
