(* ===== verification/Samples.v ===== *)
(** * Inputs for the examples

    A sandbox, requests and a whole server on the simulated machine, for the
    witnesses of the handlers' theorems. *)

From S2P Require Import Prelude RustStd Json Net Http HttpResponse Kernel Sim Host State.

(** The sandbox [a], at home in [/h]. *)
Definition a_sandbox : SandboxEntry := {|
  id := lit "a"; uid := 20000; home := lit "/h"; created_at_ms := 0; env := ∅; max_procs := 16;
  max_mem_mb := 64; token := lit "t"; confinement := UidOnly; deleted := 0; entry_activity := 1;
  idle_timeout_ms := 0 |}.

Definition a_registry : SandboxRegistry :=
  mkSandboxRegistry {[ lit "a" := a_sandbox ]} 4 1 true {| next := 1; free := []; quarantined := [] |}
    {[ 0 := false ]} {[ 1 := 0 ]} 2.

Definition a_request (method path : String.string) (ps : list (str * str)) (token : String.string) : Request := {|
  method := lit method; path := lit path; params := list_to_map ps; raw_query := [];
  headers := {[ lit "x-sandbox-token" := lit token ]}; content_length := 0; body_consumed := 0; keep_alive := true |}.

Definition a_response : ResponseWriter := response_new {| w_out := []; w_outcomes := [] |} true.

Definition a_state {K : Kernel} (host_mode : bool) (h : @Host K) : @State Sample.sample K :=
  mkState (Required (lit "host")) 0 0 (mkProcRegistry [] 0 0 ∅ ∅ 0) a_registry host_mode h.

(** The server with [h] below it, at the moment a handler gets request [q]. *)
Definition a_ctx {K : Kernel} (host_mode : bool) (h : @Host K) (q : Request) : @Ctx Sample.sample K :=
  mkCtx (a_state host_mode h) q {| rd_buf := []; rd_events := []; rd_clock := 0 |} a_response.
