(* ===== verification/Replies.v ===== *)
(** * One reply per request

    What a handler may do to the response: nothing ([silent]), or exactly one reply
    that says where it ends ([replies]).  Both are judgements on handlers, with a
    rule per way of composing them. *)

From S2P Require Import Prelude RustStd Json Net Wp Http HttpResponse Kernel Host State.

Definition fixed_reply (status : Z) (content_type : str) (keep_alive : bool) (body : str) : str :=
  head_start status content_type keep_alive
  ++ lit "Content-Length: " ++ show (slen body) ++ CRLF ++ CRLF ++ body.

Definition stream_reply (status : Z) (content_type : str) (keep_alive : bool) (ds : list str) : str :=
  head_start status content_type keep_alive
  ++ lit "Transfer-Encoding: chunked" ++ CRLF ++ lit "X-Accel-Buffering: no" ++ CRLF ++ CRLF
  ++ concat (map encode_chunk ds).

(** A complete response with its framing. *)
Definition message (keep_alive : bool) (s : str) : Prop :=
  exists status ct, (exists body, s = fixed_reply status ct keep_alive body)
    \/ (exists ds, s = stream_reply status ct keep_alive ds ++ lit "0" ++ CRLF ++ CRLF).

(** One reply was written, which [finish] completes. *)
Inductive replied (rw rw' : ResponseWriter) : Prop :=
| replied_fixed status ct body :
    out rw' = out rw ++ fixed_reply status ct (rw_keep_alive rw) body -> chunked rw' = chunked rw -> replied rw rw'
| replied_stream status ct ds :
    out rw' = out rw ++ stream_reply status ct (rw_keep_alive rw) ds -> chunked rw' = true -> replied rw rw'.

Lemma replied_finish rw rw1 rw' :
  chunked rw = false -> replied rw rw1 -> finish rw1 = (Ok tt, rw') ->
  exists s, out rw' = out rw ++ s /\ message (rw_keep_alive rw) s.
Proof.
  intros Hc Hr Hf. apply finish_ok in Hf.
  destruct Hr as [status ct body Ho Hc1|status ct ds Ho Hc1]; rewrite Hf, Ho, Hc1.
  - rewrite Hc, app_nil_r. eexists. split; [reflexivity|]. exists status, ct. left. by exists body.
  - rewrite <- app_assoc. eexists. split; [reflexivity|]. exists status, ct. right. by exists ds.
Qed.

Lemma fixed_replied status ct body rw u rw' : fixed status ct body rw = (Ok u, rw') -> replied rw rw'.
Proof.
  intros H. unfold fixed in H.
  apply io_bind_ok in H as (u0 & rw0 & H0 & H). apply write_head_ok in H0 as (Ho0 & Hc0 & _).
  apply io_bind_ok in H as (u2 & rw2 & H2 & H). apply on_writer_ok in H2 as (Ho2 & Hc2 & _).
  apply on_writer_ok in H as (Ho1 & Hc1 & _). apply (replied_fixed _ _ status ct body); [|congruence].
  rewrite Ho1, Ho2, Ho0, app_nil_r. unfold fixed_reply. by rewrite <- !app_assoc.
Qed.

(** [m] writes [x], or a beginning of it if a write fails. *)
Definition writes (m : io ResponseWriter unit) (x : str) : Prop :=
  forall rw, wp m rw (fun r rw' => rw_keep_alive rw' = rw_keep_alive rw
    /\ exists p, out rw' = out rw ++ p /\ p `prefix_of` x /\ (is_ok r = true -> p = x)).

Lemma writes_all d : writes (on_writer (write_all d)) d.
Proof.
  intros rw. apply wp_lens, wp_intro. intros r w H. split; [done|]. destruct r as [[]|e].
  - exists d. apply write_all_ok in H. done.
  - apply write_all_prefix in H as [k H]. exists (take k d). split_and!; [done|apply prefix_take|done].
Qed.

Lemma writes_bind m k x y : writes m x -> writes k y -> writes (m ;;; k) (x ++ y).
Proof.
  intros Hm Hk rw. apply wp_bind. eapply wp_mono; [apply Hm|]. intros [[]|e] rw1 (Hka & p & Ho & Hp & Hx).
  - rewrite (Hx eq_refl) in Ho. eapply wp_mono; [apply Hk|]. intros r rw2 (Hka2 & p2 & Ho2 & Hp2 & Hx2).
    split; [congruence|]. exists (x ++ p2). rewrite Ho2, Ho, <- app_assoc. split_and!; [done|by apply prefix_app|].
    intros Hr. by rewrite (Hx2 Hr).
  - split; [done|]. exists p. split_and!; [done|by apply prefix_app_r|done].
Qed.

Lemma fixed_writes status ct body rw :
  wp (fixed status ct body) rw (fun _ rw' =>
    exists p, out rw' = out rw ++ p /\ p `prefix_of` fixed_reply status ct (rw_keep_alive rw) body).
Proof.
  unfold fixed, write_head. set (start := head_start status ct (rw_keep_alive rw)).
  set (m := on_writer (write_all start) ;;; on_writer (write_all (lit "Content-Length: " ++ show (slen body) ++ CRLF ++ CRLF))).
  change (wp (m ;;; (on_writer (write_all body) ;;; on_writer flush_writer)) (set_started rw) (fun _ rw' =>
    exists p, out rw' = out rw ++ p /\ p `prefix_of` fixed_reply status ct (rw_keep_alive rw) body)).
  eapply wp_mono; [repeat apply writes_bind; apply writes_all|].
  intros r rw' (_ & p & Ho & Hp & _). exists p. split; [done|].
  revert Hp. unfold fixed_reply. by rewrite app_nil_r, <- !app_assoc.
Qed.

Section Handlers.
Context {SJ : SerdeJson} {K : Kernel}.

Definition silent {A} (m : io Ctx A) : Prop := forall c, wp m c (fun _ c' => resp c' = resp c).
Definition replies (m : io Ctx unit) : Prop :=
  forall c, wp m c (fun r c' => r = Ok tt -> replied (resp c) (resp c')).

Lemma silent_bind {A B} (m : io Ctx A) (k : A -> io Ctx B) : silent m -> (forall a, silent (k a)) -> silent (io_bind m k).
Proof.
  intros Hm Hk c. apply wp_bind. eapply wp_mono; [apply Hm|]. intros [a|e] c' Hr; [|done].
  eapply wp_mono; [apply Hk|]. intros. congruence.
Qed.
Lemma silent_ret {A} (a : A) : silent (io_ret a).
Proof. by intros c. Qed.
Lemma silent_fail {A} e : silent (io_fail (A:=A) e).
Proof. by intros c. Qed.
Lemma silent_gets {A} (f : Ctx -> A) : silent (io_gets f).
Proof. by intros c. Qed.
Lemma silent_try {A} (m : io Ctx A) : silent m -> silent (io_try m).
Proof. intros Hm c. apply wp_try. apply Hm. Qed.
Lemma silent_ignore {A} (m : io Ctx A) : silent m -> silent (io_ignore m).
Proof. intros Hm c. apply wp_ignore. apply Hm. Qed.
Lemma silent_state {A} (m : io State A) : silent (with_state m).
Proof. intros c. apply wp_lens. by apply wp_any. Qed.
Lemma silent_host {A} (m : io Host A) : silent (ctx_host m).
Proof. apply silent_state. Qed.
Lemma silent_body {A} (m : io (Request * Reader) A) : silent (with_body m).
Proof. intros c. apply wp_lens. by apply wp_any. Qed.

Lemma replies_bind {A} (m : io Ctx A) (k : A -> io Ctx unit) :
  silent m -> (forall a, replies (k a)) -> replies (io_bind m k).
Proof.
  intros Hm Hk c. apply wp_bind. eapply wp_mono; [apply Hm|]. intros [a|e] c' Hr; [|done].
  rewrite <- Hr. apply Hk.
Qed.
Lemma replies_fail e : replies (io_fail e).
Proof. by intros c. Qed.
Lemma replies_finally m clean : replies m -> silent clean -> replies (io_finally m clean).
Proof.
  intros Hm Hc c. apply wp_finally. eapply wp_mono; [apply Hm|]. intros r c1 Hr. simpl.
  eapply wp_mono; [apply Hc|]. intros _ c2 ->. apply Hr.
Qed.
Lemma replies_json status v : replies (with_resp (json status v)).
Proof.
  intros c. apply wp_lens, wp_intro. intros r rw Hr ->. simpl. by eapply fixed_replied.
Qed.
Lemma replies_error status message : replies (with_resp (error status message)).
Proof. apply replies_json. Qed.

End Handlers.

Create HintDb replies.
#[export] Hint Resolve silent_ret silent_fail silent_gets silent_state silent_host silent_body
  replies_fail replies_json replies_error : replies.

(** Steps through a handler: the state around the response is left aside. *)
Ltac replying :=
  repeat lazymatch goal with
    | |- forall _, _ => intro
    | |- _ (let _ := _ in _) => cbv zeta
    | |- replies (io_bind _ _) => apply replies_bind
    | |- silent (io_bind _ _) => apply silent_bind
    | |- silent (io_try _) => apply silent_try
    | |- silent (io_ignore _) => apply silent_ignore
    | |- replies (io_finally _ _) => apply replies_finally
    | |- _ (if ?b then _ else _) => destruct b
    | |- _ (match ?x with _ => _ end) => destruct x
    | |- _ => solve [eauto with replies]
    end.
