(* ===== verification/Uids.v ===== *)
(** * src/sandboxes.rs: uids and the processes under them

    Reading /proc and /etc/passwd, the kill sweep, and the pool that decides which
    uid a sandbox gets. *)

From S2P Require Import Prelude RustStd StrFacts Json Kernel Host State.

Definition UID_BASE : Z := 20000.
Definition UID_MAX : Z := 65000.

(** ** Text files *)

(** [str::lines]: split at line feeds, without a final empty line, each line
    without one carriage return at its end. *)
Definition strip_cr (l : str) : str :=
  match rev l with c :: r => if eqc c CR then rev r else l | [] => [] end.
Definition lines (s : str) : list str :=
  let ls := split_char LF s in
  map strip_cr (match rev ls with [] :: r => rev r | _ => ls end).

(** The length of the whitespace character [s] starts with, if it does: the
    code points with the White_Space property. *)
Definition white_space (s : str) : option nat :=
  match map byte s with
  | a :: rest =>
      if (9 <=? a) && (a <=? 13) || (a =? 32) then Some 1%nat
      else match rest with
      | b :: rest' =>
          if (a =? 194) && ((b =? 133) || (b =? 160)) then Some 2%nat
          else match rest' with
          | c :: _ =>
              if (a =? 225) && (b =? 154) && (c =? 128)
                 || (a =? 226) && (b =? 128)
                    && ((128 <=? c) && (c <=? 138) || (c =? 168) || (c =? 169) || (c =? 175))
                 || (a =? 226) && (b =? 129) && (c =? 159)
                 || (a =? 227) && (b =? 128) && (c =? 128)
              then Some 3%nat else None
          | [] => None
          end
      | [] => None
      end
  | [] => None
  end.

(** [str::split_whitespace]: the maximal runs of other characters.  [skip] counts
    the bytes left of the whitespace character being passed over. *)
Fixpoint split_ws (skip : nat) (word : str) (s : str) : list str :=
  match s with
  | [] => if is_empty word then [] else [rev word]
  | c :: t =>
      match skip with
      | S k => split_ws k word t
      | O => match white_space s with
             | Some n => (if is_empty word then [] else [rev word]) ++ split_ws (n - 1) [] t
             | None => split_ws 0 (c :: word) t
             end
      end
  end.
Definition split_whitespace (s : str) : list str := split_ws 0 [] s.

(** [v.parse::<u32>()] and [s.parse::<i32>()]. *)
Definition parse_u32 (s : str) : option Z := parse_uint u32_max s.
Definition parse_i32 (s : str) : option Z := parse_int i32_min i32_max s.

Definition in_uid_range (uid : Z) : bool := (UID_BASE <=? uid) && (uid <? UID_MAX).

(** The uid field of a line of /etc/passwd. *)
Definition passwd_uid (line : str) : option Z := split_char ":"%char line !! 2%nat ≫= parse_u32.

(** The first line of /proc/<pid>/status that starts with [key], its second word. *)
Definition status_field (key : String.string) (status : str) : option str :=
  List.find (starts_with (lit key)) (lines status) ≫= fun l => split_whitespace l !! 1%nat.

Definition real_uid (status : str) : option Z := status_field "Uid:" status ≫= parse_u32.
Definition is_zombie (status : str) : bool :=
  match status_field "State:" status with Some s => eqs s (lit "Z") | None => false end.

Section Procfs.
Context {K : Kernel}.

Definition contains_z (x : Z) (l : list Z) : bool := bool_decide (x ∈ l).

(** [std::fs::read_to_string], where only its failing matters. *)
Definition read_to_string (path : str) : io Host (option str) :=
  r <- io_try (hsys (ReadFile path)) ;;
  io_ret (match r with Ok s => from_utf8 s | Err _ => None end).

(** The pids among the names of /proc, with the status of each that has one. *)
Fixpoint proc_statuses (names : list (result str Z)) : io Host (list (Z * str)) :=
  match names with
  | [] => io_ret []
  | Err _ :: rest => proc_statuses rest
  | Ok name :: rest =>
      match from_utf8 name ≫= parse_i32 with
      | None => proc_statuses rest
      | Some pid =>
          status <- read_to_string (lit "/proc/" ++ show_int pid ++ lit "/status") ;;
          others <- proc_statuses rest ;;
          io_ret (match status with Some s => (pid, s) :: others | None => others end)
      end
  end.

Definition all_statuses : io Host (list (Z * str)) :=
  entries <- io_try (hsys (ReadDir (lit "/proc"))) ;;
  match entries with
  | Ok names => proc_statuses names
  | Err _ => io_ret []
  end.

(** A live process with this real uid. *)
Definition live_with (uid : Z) (status : str) : bool :=
  bool_decide (real_uid status = Some uid) && negb (is_zombie status).

Definition pids_of_uid (uid : Z) : io Host (list Z) :=
  statuses <- all_statuses ;;
  io_ret (map fst (List.filter (fun ps => live_with uid ps.2) statuses)).

Definition add_used (used : list Z) (status : str) : list Z :=
  match real_uid status with
  | Some uid => if in_uid_range uid && negb (contains_z uid used) then used ++ [uid] else used
  | None => used
  end.

Definition uids_already_in_use : io Host (list Z) :=
  passwd <- read_to_string (lit "/etc/passwd") ;;
  let used := match passwd with
              | Some passwd =>
                  List.filter in_uid_range (omap passwd_uid (lines passwd))
              | None => []
              end in
  statuses <- all_statuses ;;
  io_ret (fold_left add_used (map snd statuses) used).

(** ** The kill sweep *)

Fixpoint kill_all (pids : list Z) : io Host unit :=
  match pids with
  | [] => io_ret tt
  | pid :: rest => hsys_ (Kill pid SIGKILL) ;;; kill_all rest
  end.

(** [attempts] sweeps are left of the [100]. *)
Fixpoint kill_sweeps (attempts : nat) (uid : Z) : io Host bool :=
  match attempts with
  | O =>
      pids <- pids_of_uid uid ;;
      io_ret (bool_decide (pids = []))
  | S attempts' =>
      let attempt := 100 - Z.of_nat attempts in
      pids <- pids_of_uid uid ;;
      match pids with
      | [] => io_ret true
      | _ =>
          kill_all pids ;;;
          hsys_ (Sleep (if attempt <? 10 then 5 else 10)) ;;;
          kill_sweeps attempts' uid
      end
  end.

Definition kill_uid (uid : Z) : io Host bool := kill_sweeps 100 uid.

(** ** The pool *)

Definition with_reserved (reserved : list Z) : UidPool :=
  {| next := 0; free := []; quarantined := reserved |}.

Definition release (uid : Z) (p : UidPool) : UidPool :=
  {| next := next p; free := free p ++ [uid]; quarantined := quarantined p |}.

Definition quarantine (uid : Z) (p : UidPool) : UidPool :=
  {| next := next p; free := free p; quarantined := quarantined p ++ [uid] |}.

(** The second loop: the next never-used uid that is not quarantined. *)
Fixpoint take_fresh (fuel : nat) (p : UidPool) : option Z * UidPool :=
  match fuel with
  | O => (None, p)
  | S fuel' =>
      let uid := UID_BASE + next p in
      if UID_MAX <=? uid then (None, p)
      else
        let p := {| next := next p + 1; free := free p; quarantined := quarantined p |} in
        if negb (contains_z uid (quarantined p)) then (Some uid, p) else take_fresh fuel' p
  end.

(** Each iteration advances [next], so the range is enough fuel. *)
Definition FRESH_FUEL : nat := Z.to_nat (UID_MAX - UID_BASE + 1).

Definition pop (l : list Z) : option (Z * list Z) :=
  match rev l with [] => None | x :: r => Some (x, rev r) end.

(** The first loop: the uids of [free] from its end, [fuel] of them at most. *)
Fixpoint take_free (fuel : nat) : io (UidPool * Host) (option Z) :=
  match fuel with
  | O => io_ret None
  | S fuel' =>
      p <- io_gets fst ;;
      match pop (free p) with
      | None => io_ret None
      | Some (uid, rest) =>
          pids <- on_snd (pids_of_uid uid) ;;
          if bool_decide (pids = []) then
            io_modify (fun s => ({| next := next p; free := rest; quarantined := quarantined p |}, s.2)) ;;;
            io_ret (Some uid)
          else
            io_modify (fun s => ({| next := next p; free := rest;
                                    quarantined := quarantined p ++ [uid] |}, s.2)) ;;;
            take_free fuel'
      end
  end.

Definition take_uid : io (UidPool * Host) (option Z) :=
  p <- io_gets fst ;;
  reused <- take_free (S (length (free p))) ;;
  match reused with
  | Some uid => io_ret (Some uid)
  | None =>
      fun s => let '(uid, p) := take_fresh FRESH_FUEL s.1 in (Ok uid, (p, s.2))
  end.

End Procfs.
