(* ===== verification/UidsFacts.v ===== *)
(** * src/sandboxes.rs: no uid is shared, no uid is lost

    The pool's accounting, the kill sweep, and what the parser of /proc reads. *)

From S2P Require Import Prelude RustStd StrFacts Kernel Sim Wp Host State Uids.

(** ** The pool *)

(** The pool when the sandboxes using the uids of [live] exist: the three kinds of
    uid are apart, and every uid ever handed out is of one of them. *)
Record pool_ok (live : gset Z) (p : UidPool) : Prop := {
  next_range : 0 <= next p <= UID_MAX - UID_BASE;
  free_range u : u ∈ free p -> UID_BASE <= u < UID_BASE + next p;
  live_range u : u ∈ live -> UID_BASE <= u < UID_BASE + next p;
  free_nodup : NoDup (free p);
  free_live u : u ∈ free p -> u ∉ live;
  quarantined_apart u : u ∈ quarantined p -> u ∉ live /\ u ∉ free p;
  accounted u : UID_BASE <= u < UID_BASE + next p -> u ∈ live \/ u ∈ free p \/ u ∈ quarantined p;
}.

Lemma pool_ok_new reserved : pool_ok ∅ (with_reserved reserved).
Proof.
  split; simpl; unfold UID_MAX, UID_BASE; try set_solver; try lia; try constructor; set_solver.
Qed.

Lemma pool_ok_release live u p : pool_ok live p -> u ∈ live -> pool_ok (live ∖ {[u]}) (release u p).
Proof.
  intros [] Hu. split; simpl; try done.
  - intros v. rewrite elem_of_app, list_elem_of_singleton. intros [?| ->]; auto.
  - set_solver.
  - apply NoDup_app. split_and!; [done| |by apply NoDup_singleton].
    intros v Hv. rewrite list_elem_of_singleton. intros ->. by apply (free_live0 u).
  - intros v. rewrite elem_of_app, list_elem_of_singleton. set_solver.
  - intros v Hv. destruct (quarantined_apart0 v Hv). set_solver.
  - intros v Hv. destruct (decide (v = u)) as [->|]; [set_solver|].
    destruct (accounted0 v Hv) as [?|[?|?]]; set_solver.
Qed.

Lemma pool_ok_quarantine live u p : pool_ok live p -> u ∈ live -> pool_ok (live ∖ {[u]}) (quarantine u p).
Proof.
  intros [] Hu. split; simpl; try done.
  - set_solver.
  - set_solver.
  - intros v. rewrite elem_of_app, list_elem_of_singleton. intros [Hv| ->].
    + destruct (quarantined_apart0 v Hv). set_solver.
    + split; [set_solver|]. intros Hf. by apply (free_live0 u).
  - intros v Hv. destruct (decide (v = u)) as [->|]; [set_solver|].
    destruct (accounted0 v Hv) as [?|[?|?]]; set_solver.
Qed.

Lemma take_fresh_spec fuel live p o p' :
  pool_ok live p -> (Z.to_nat (UID_MAX - UID_BASE - next p) < fuel)%nat ->
  take_fresh fuel p = (o, p') ->
  free p' = free p /\ quarantined p' = quarantined p /\
  match o with
  | Some u => UID_BASE + next p <= u < UID_MAX /\ u ∉ live /\ u ∉ free p /\ pool_ok ({[u]} ∪ live) p'
  | None => pool_ok live p' /\ next p' = UID_MAX - UID_BASE
  end.
Proof.
  revert p. induction fuel as [|fuel IH]; intros p Hok Hfuel Ht; [lia|]. simpl in Ht.
  pose proof (next_range _ _ Hok) as Hn.
  destruct (Z.leb_spec UID_MAX (UID_BASE + next p)) as [Hle|Hlt].
  { simplify_eq. split_and!; try done. lia. }
  set (q := {| next := next p + 1; free := free p; quarantined := quarantined p |}) in *.
  assert (Hnew : UID_BASE + next p ∉ live /\ UID_BASE + next p ∉ free p).
  { split; intros H; [apply (live_range _ _ Hok) in H|apply (free_range _ _ Hok) in H]; lia. }
  unfold contains_z in Ht. case_bool_decide as Hq; simpl in Ht.
  - assert (Hokq : pool_ok live q).
    { destruct Hok. split; simpl; try done; try lia.
      - intros u Hu. specialize (free_range0 u Hu). lia.
      - intros u Hu. specialize (live_range0 u Hu). lia.
      - intros u Hu. destruct (decide (u = UID_BASE + next p)) as [->|]; [tauto|]. apply accounted0. lia. }
    apply IH in Ht; [|done|simpl; lia]. destruct Ht as (Hf & Hqu & Ht). split_and!; [done..|].
    destruct o; simpl in *; [|tauto]. destruct Ht as (? & ? & ? & ?). split_and!; try done; lia.
  - simplify_eq. split_and!; try done; try lia; [tauto..|].
    destruct Hok. split; simpl; try done; try lia.
    + intros u Hu. specialize (free_range0 u Hu). lia.
    + intros u Hu. apply elem_of_union in Hu as [Hu|Hu]; [|specialize (live_range0 u Hu); lia].
      apply elem_of_singleton in Hu. lia.
    + intros u Hu. rewrite not_elem_of_union, not_elem_of_singleton. split; [|auto].
      intros ->. tauto.
    + intros u Hu. destruct (quarantined_apart0 u Hu). split; [|done].
      rewrite not_elem_of_union, not_elem_of_singleton. split; [|done]. by intros ->.
    + intros u Hu. destruct (decide (u = UID_BASE + next p)) as [->|]; [set_solver|].
      destruct (accounted0 u ltac:(lia)) as [?|[?|?]]; set_solver.
Qed.

#[global] Arguments take_fresh : simpl never.

Lemma pop_spec l : match pop l with None => l = [] | Some (x, r) => l = r ++ [x] end.
Proof.
  unfold pop. destruct (rev l) as [|x r] eqn:E.
  - rewrite <- (rev_involutive l), E. done.
  - rewrite <- (rev_involutive l), E. done.
Qed.

Lemma free_snoc live p rest u :
  pool_ok live p -> free p = rest ++ [u] ->
  NoDup rest /\ u ∉ rest /\ (forall v, v ∈ free p <-> v = u \/ v ∈ rest).
Proof.
  intros Hok Hp. pose proof (free_nodup _ _ Hok) as Hnd. rewrite Hp in Hnd.
  apply NoDup_app in Hnd as (Hnd & Hap & _). clear Hok. split_and!; [done| |].
  - intros Hin. apply (Hap u Hin), list_elem_of_singleton. done.
  - intros v. rewrite Hp, elem_of_app, list_elem_of_singleton. tauto.
Qed.

(** Popping a uid that is clean, and one that is not. *)
Lemma pool_ok_reuse live p rest u :
  pool_ok live p -> free p = rest ++ [u] ->
  pool_ok ({[u]} ∪ live) {| next := next p; free := rest; quarantined := quarantined p |}.
Proof.
  intros Hok Hp. destruct (free_snoc _ _ _ _ Hok Hp) as (Hnd & Hnin & Hfree). clear Hp.
  destruct Hok as [Hn Hf Hl _ Hfl Hq Ha]. split; simpl; try done.
  - intros v Hv. apply Hf, Hfree. auto.
  - intros v. rewrite elem_of_union, elem_of_singleton. intros [->|Hv]; [|auto]. apply Hf, Hfree. auto.
  - intros v Hv. rewrite elem_of_union, elem_of_singleton. intros [->|Hv']; [done|].
    apply (Hfl v); [apply Hfree|]; auto.
  - intros v Hv. destruct (Hq v Hv) as [H1 H2]. rewrite Hfree in H2.
    rewrite elem_of_union, elem_of_singleton. tauto.
  - intros v Hv. specialize (Ha v Hv). rewrite Hfree in Ha. rewrite elem_of_union, elem_of_singleton. tauto.
Qed.

Lemma pool_ok_suspect live p rest u :
  pool_ok live p -> free p = rest ++ [u] ->
  pool_ok live {| next := next p; free := rest; quarantined := quarantined p ++ [u] |}.
Proof.
  intros Hok Hp. destruct (free_snoc _ _ _ _ Hok Hp) as (Hnd & Hnin & Hfree). clear Hp.
  destruct Hok as [Hn Hf Hl _ Hfl Hq Ha]. split; simpl; try done.
  - intros v Hv. apply Hf, Hfree. auto.
  - intros v Hv. apply (Hfl v), Hfree. auto.
  - intros v. rewrite elem_of_app, list_elem_of_singleton. intros [Hv| ->].
    + destruct (Hq v Hv) as [H1 H2]. rewrite Hfree in H2. tauto.
    + split; [|done]. apply Hfl, Hfree. auto.
  - intros v Hv. specialize (Ha v Hv). rewrite Hfree in Ha. rewrite elem_of_app, list_elem_of_singleton. tauto.
Qed.

Section Take.
Context {K : Kernel}.
Implicit Types h : @Host K.

Lemma all_statuses_ok h : exists l h', all_statuses h = (Ok l, h').
Proof.
  unfold all_statuses, hsys, on_world, io_lens, io_bind, io_try.
  destruct (sys _ (world h)) as [[names|e] w]; simpl; [|eauto].
  generalize (set_world w h). induction names as [|[name|e] names IH]; intros h1; simpl; [by eauto| |apply IH].
  destruct (from_utf8 name ≫= parse_i32); [|apply IH].
  unfold read_to_string, hsys, on_world, io_lens, io_bind, io_try.
  destruct (sys _ (world h1)) as [r w1]. simpl.
  edestruct IH as (l & h2 & ->). destruct r; simpl; repeat case_match; eauto.
Qed.

Lemma pids_of_uid_ok u h : exists l h', pids_of_uid u h = (Ok l, h').
Proof.
  unfold pids_of_uid, io_bind. destruct (all_statuses_ok h) as (l & h' & ->). eauto.
Qed.

Lemma take_free_spec fuel live p h :
  pool_ok live p -> (length (free p) < fuel)%nat ->
  wp (take_free (K:=K) fuel) (p, h) (fun r s =>
    quarantined p ⊆ quarantined s.1 /\ next s.1 = next p /\ exists o, r = Ok o /\
    match o with
    | Some u => u ∈ free p /\ u ∉ live /\ pool_ok ({[u]} ∪ live) s.1
        /\ exists h1, pids_of_uid u h1 = (Ok [], s.2)
    | None => free s.1 = [] /\ pool_ok live s.1
    end).
Proof.
  revert p h. induction fuel as [|fuel IH]; intros p h Hok Hlen; [lia|]. simpl.
  do 2 wp_step. simpl. pose proof (pop_spec (free p)) as Hp. destruct (pop (free p)) as [[u rest]|].
  2:{ wp_step. simpl. split_and!; [done|done|]. exists None. done. }
  wp_step. unfold on_snd. wp_step. simpl. unfold wp at 1.
  destruct (pids_of_uid_ok u h) as (pids & h1 & Hpids). rewrite Hpids. simpl.
  assert (Hu : u ∈ free p) by (rewrite Hp; set_solver).
  case_bool_decide as Hnil.
  - subst pids. do 3 wp_step. simpl. split_and!; [done|done|]. exists (Some u). split_and!; try done.
    + by apply (free_live _ _ Hok).
    + by apply pool_ok_reuse.
    + eauto.
  - do 2 wp_step. simpl. set (q := {| next := next p; free := rest; quarantined := quarantined p ++ [u] |}).
    eapply wp_mono; [apply (IH q)|].
    + by apply pool_ok_suspect.
    + simpl. rewrite Hp, length_app in Hlen. simpl in Hlen. lia.
    + intros r [p' h'] (Hq & Hn & o & -> & Ho). simpl in *. split_and!; [set_solver|done|].
      exists o. split; [done|]. destruct o; [|done]. destruct Ho as (Hin & ?). split; [|done].
      rewrite Hp. set_solver.
Qed.

Lemma take_uid_spec live p h :
  pool_ok live p ->
  wp (take_uid (K:=K)) (p, h) (fun r s =>
    quarantined p ⊆ quarantined s.1 /\ exists o, r = Ok o /\
    match o with
    | Some u => UID_BASE <= u < UID_MAX /\ u ∉ live /\ pool_ok ({[u]} ∪ live) s.1
        /\ (u ∈ free p -> exists h1, pids_of_uid u h1 = (Ok [], s.2))
    | None => pool_ok live s.1 /\ forall u, UID_BASE <= u < UID_MAX -> u ∈ live \/ u ∈ quarantined s.1
    end).
Proof.
  intros Hok. unfold take_uid. do 3 wp_step. eapply wp_mono; [apply take_free_spec; [done|simpl; lia]|].
  intros r [p1 h1] (Hq & Hn & o & -> & Ho). simpl in *. pose proof (next_range _ _ Hok).
  destruct o as [u|].
  - destruct Ho as (Hu & Hl & Hok1 & Hp). apply wp_ret. split; [done|]. eexists. split; [done|]. simpl.
    pose proof (free_range _ _ Hok u Hu). split_and!; try done; lia.
  - destruct Ho as [Hf Hok1]. unfold wp. simpl.
    destruct (take_fresh FRESH_FUEL p1) as [o p2] eqn:Ht. simpl.
    apply (take_fresh_spec _ live) in Ht; [|done|].
    2:{ unfold FRESH_FUEL. pose proof (next_range _ _ Hok1). lia. }
    destruct Ht as (Hf2 & Hq2 & Ht). rewrite Hq2. split; [done|]. eexists. split; [done|].
    destruct o as [u|].
    + destruct Ht as (Hr & Hl & Hnf & Hok2). split_and!; try done; try lia.
      intros Hin. pose proof (free_range _ _ Hok u Hin). lia.
    + destruct Ht as [Hok2 Hn2]. split; [done|]. intros u Hu.
      destruct (accounted _ _ Hok2 u) as [?|[Hin|?]]; [rewrite Hn2; lia|auto| |by rewrite Hq2 in *; auto].
      rewrite Hf2, Hf in Hin. by apply not_elem_of_nil in Hin.
Qed.

(** C15: the pool never hands out a uid that is in use or quarantined, and never
    loses one: [take] gives a uid inside the range that no live sandbox has and that
    the pool does not count as free or quarantined afterwards (a reused one had no
    live process just before); it fails only when every uid of the range is live or
    quarantined; and quarantine is for good. *)
Theorem take_uid_sound live p h :
  pool_ok live p ->
  exists o p' h', take_uid (p, h) = (Ok o, (p', h')) /\ quarantined p ⊆ quarantined p' /\
  match o with
  | Some u => UID_BASE <= u < UID_MAX /\ u ∉ live /\ pool_ok ({[u]} ∪ live) p'
      /\ (u ∈ free p -> exists h1, pids_of_uid u h1 = (Ok [], h'))
  | None => pool_ok live p' /\ forall u, UID_BASE <= u < UID_MAX -> u ∈ live \/ u ∈ quarantined p'
  end.
Proof.
  intros Hok. destruct (wp_ex _ _ _ (take_uid_spec _ _ h Hok)) as (r & [p' h'] & -> & Hq & o & -> & Ho). eauto 10.
Qed.

End Take.

(** ** The text of /proc/<pid>/status *)

Definition text_of (ls : list str) : str := concat (map (fun l => l ++ [LF]) ls).

Lemma split_text ls : Forall (fun l => LF ∉ l) ls -> split_char LF (text_of ls) = ls ++ [[]].
Proof.
  induction 1 as [|l ls Hl Hls IH]; [done|]. unfold text_of in *. simpl.
  rewrite <- app_assoc. simpl. by rewrite split_char_app, IH.
Qed.

Lemma lines_text ls : Forall (fun l => LF ∉ l /\ CR ∉ l) ls -> lines (text_of ls) = ls.
Proof.
  intros Hf. unfold lines. rewrite split_text by (eapply Forall_impl; [exact Hf|]; by intros ? [? ?]).
  rewrite rev_app_distr. simpl. rewrite rev_involutive.
  induction Hf as [|l ls [_ Hl] Hls IH]; simpl; [done|]. rewrite IH. f_equal.
  unfold strip_cr. destruct (rev l) as [|c r] eqn:E; [by apply (f_equal (@rev _)) in E; rewrite rev_involutive in E|].
  rewrite (proj2 (eqc_false _ _)); [done|]. intros ->. apply Hl.
  rewrite <- (rev_involutive l), E. simpl. set_solver.
Qed.

Definition graphic (c : ascii) : Prop := 33 <= byte c < 128.

Lemma white_space_graphic c t : graphic c -> white_space (c :: t) = None.
Proof.
  unfold graphic, white_space. simpl. intros Hc.
  rewrite (proj2 (orb_false_iff _ _)) by (split; [apply andb_false_iff; right|]; lia).
  destruct (map byte t) as [|b t']; [done|].
  rewrite (proj2 (Z.eqb_neq (byte c) 194)) by lia. simpl. destruct t' as [|d t']; [done|].
  rewrite (proj2 (Z.eqb_neq (byte c) 225)), (proj2 (Z.eqb_neq (byte c) 226)), (proj2 (Z.eqb_neq (byte c) 227)) by lia.
  done.
Qed.

Lemma split_ws_word w l t : Forall graphic l -> split_ws 0 w (l ++ t) = split_ws 0 (rev l ++ w) t.
Proof.
  intros Hf. revert w. induction Hf as [|c l Hc Hl IH]; intros w; [done|].
  rewrite <- app_comm_cons. cbn [split_ws]. rewrite white_space_graphic by done. rewrite IH. simpl.
  by rewrite <- app_assoc.
Qed.

Lemma split_ws_blank w c t : c = HT \/ c = SP -> w <> [] -> split_ws 0 w (c :: t) = rev w :: split_ws 0 [] t.
Proof. intros [-> | ->] Hw; simpl; by destruct w. Qed.

(** The second word of a line [key \t word <blank> ...]. *)
Lemma second_word key word c t :
  Forall graphic key -> Forall graphic word -> key <> [] -> word <> [] -> c = HT \/ c = SP ->
  split_whitespace (key ++ HT :: word ++ c :: t) !! 1%nat = Some word.
Proof.
  intros Hk Hw Hk0 Hw0 Hc. unfold split_whitespace. rewrite split_ws_word by done.
  rewrite split_ws_blank; [|auto|rewrite app_nil_r; by intros E%(f_equal (@rev _)); rewrite rev_involutive in E].
  rewrite split_ws_word by done.
  rewrite split_ws_blank; [|done|rewrite app_nil_r; by intros E%(f_equal (@rev _)); rewrite rev_involutive in E].
  simpl. by rewrite app_nil_r, rev_involutive.
Qed.

Lemma digits_graphic s : Forall (fun c => is_ascii_digit c = true) s -> Forall graphic s.
Proof. intros Hf. eapply Forall_impl; [exact Hf|]. intros c. unfold is_ascii_digit, in_range, graphic. lia. Qed.

(** A status file in the kernel's format: lines, of which the [Uid:] line gives the
    real uid [r] and the [State:] line gives a letter. *)
Definition kernel_status (r : Z) (letter : ascii) (status : str) : Prop :=
  exists ls e d, status = text_of ls /\ Forall (fun l => LF ∉ l /\ CR ∉ l) ls
    /\ 0 <= r <= u32_max /\ graphic letter
    /\ List.find (starts_with (lit "Uid:")) ls = Some (lit "Uid:" ++ HT :: show r ++ HT :: e)
    /\ List.find (starts_with (lit "State:")) ls = Some (lit "State:" ++ HT :: letter :: SP :: d).

(** The reader of /proc/<pid>/status is right about that format: a process counts
    as live under [uid] exactly when [r] is that uid and the letter is not Z. *)
Lemma kernel_status_live r letter status uid :
  kernel_status r letter status -> live_with uid status = (r =? uid) && negb (eqc letter "Z"%char).
Proof.
  intros (ls & e & d & -> & Hf & Hr & Hl & Huid & Hstate). unfold live_with, real_uid, is_zombie, status_field.
  rewrite lines_text by done. rewrite Huid, Hstate. cbn [mbind option_bind].
  rewrite (second_word (lit "Uid:") (show r)); [|by repeat constructor|by apply digits_graphic, show_digits; lia
    |done|apply show_radix_nonempty|auto].
  change (letter :: SP :: d) with ([letter] ++ SP :: d).
  rewrite (second_word (lit "State:") [letter]); [|by repeat constructor|by constructor|done|done|auto].
  cbn [mbind option_bind]. unfold parse_u32. rewrite parse_show by done. f_equal.
  - destruct (Z.eqb_spec r uid); case_bool_decide; congruence.
  - unfold eqs, eqc. f_equal. apply bool_decide_ext. split; [by intros [= ->]|by intros ->].
Qed.

Definition sample_status : str := text_of
  [lit "Name:" ++ HT :: lit "sh"; lit "State:" ++ HT :: lit "S (sleeping)";
   lit "Uid:" ++ HT :: lit "20001" ++ HT :: lit "20001"].

Example sample_status_kernel : kernel_status 20001 "S"%char sample_status.
Proof.
  eexists _, _, _. split_and!; [reflexivity|by apply (bool_decide_unpack _); vm_compute|unfold u32_max; lia..| | |];
    [unfold graphic; vm_compute; split; congruence|reflexivity..].
Qed.

(** ** The kill sweep *)

Section Kill.
Context {K : Kernel}.
Abbreviation TK := (Traced K).
Implicit Types h : @Host TK.

Definition status_path (pid : Z) : str := lit "/proc/" ++ show_int pid ++ lit "/status".

Definition not_kill (e : event) : Prop := match ev_call e with Kill _ _ => False | _ => True end.

(** Process [pid] was seen alive under [uid] by one of the calls. *)
Definition seen_alive (uid : Z) (evs : list event) (pid : Z) : Prop :=
  exists status, Event (ReadFile (status_path pid)) (Ok status) ∈ evs /\ live_with uid status = true.

(** Every process seen alive under [uid] is signalled with SIGKILL. *)
Definition all_killed (uid : Z) (evs : list event) : Prop :=
  forall path status, Event (ReadFile path) (Ok status) ∈ evs -> from_utf8 status = Some status ->
  live_with uid status = true ->
  exists pid res, path = status_path pid /\ Event (Kill pid SIGKILL) res ∈ evs.

(** How often /proc was looked at. *)
Definition looks (evs : list event) : nat :=
  length (List.filter (fun e => match ev_call e with ReadDir _ => true | _ => false end) evs).

Lemma looks_app e1 e2 : looks (e1 ++ e2) = (looks e1 + looks e2)%nat.
Proof. unfold looks. by rewrite List.filter_app, length_app. Qed.

(** Only processes seen alive under [uid] are signalled, with SIGKILL. *)
Definition kills_justified (uid : Z) (evs : list event) : Prop :=
  forall pid sig res, Event (Kill pid sig) res ∈ evs -> sig = SIGKILL /\ seen_alive uid evs pid.

Lemma kills_justified_app uid e1 e2 :
  kills_justified uid e1 -> kills_justified uid e2 -> kills_justified uid (e1 ++ e2).
Proof.
  intros H1 H2 pid sig res Hin.
  assert (Hw : forall e, kills_justified uid e -> (forall x, x ∈ e -> x ∈ e1 ++ e2) ->
            Event (Kill pid sig) res ∈ e -> sig = SIGKILL /\ seen_alive uid (e1 ++ e2) pid).
  { intros e He Hsub Hin'. destruct (He _ _ _ Hin') as (? & status & ? & ?). split; [done|].
    exists status. auto. }
  apply elem_of_app in Hin as [Hin|Hin]; [apply (Hw e1)|apply (Hw e2)]; auto;
    intros x; rewrite elem_of_app; auto.
Qed.

Lemma not_kill_justified uid evs : Forall not_kill evs -> kills_justified uid evs.
Proof. intros Hf pid sig res Hin. rewrite Forall_forall in Hf. by apply Hf in Hin. Qed.

Lemma from_utf8_id s t : from_utf8 s = Some t -> t = s.
Proof. unfold from_utf8. case_match; intros; by simplify_eq. Qed.

(** The file a call read, and what it gave. *)
Definition file_read (e : event) : option (str * result str Z) :=
  match e with Event (ReadFile path) r => Some (path, r) | _ => None end.

(** Reads of files, and nothing else. *)
Definition reads_only (evs : list event) : Prop := Forall (fun e => is_Some (file_read e)) evs.

Lemma reads_not_kill evs : reads_only evs -> Forall not_kill evs.
Proof. intros Hf. eapply Forall_impl; [exact Hf|]. intros [[] r] [x Hx]; done. Qed.

(** The process directories named in a listing of /proc are all looked at. *)
Definition all_read (names : list (result str Z)) (look : list event) : Prop :=
  forall pid, 0 <= pid <= i32_max -> Ok (show pid) ∈ names ->
  exists r, Event (ReadFile (status_path pid)) r ∈ look.

(** What is read of /proc: only status files, those of all the pids listed; each
    status that is text is kept, and nothing else is. *)
Definition read_statuses names h (r : result (list (Z * str)) io_error) h' : Prop :=
  exists l evs, r = Ok l /\ trace h' = trace h ++ evs /\ reads_only evs /\ all_read names evs
    /\ (forall pid s, (pid, s) ∈ l -> Event (ReadFile (status_path pid)) (Ok s) ∈ evs /\ from_utf8 s = Some s)
    /\ (forall path s, Event (ReadFile path) (Ok s) ∈ evs -> from_utf8 s = Some s ->
          exists pid, path = status_path pid /\ (pid, s) ∈ l).

Lemma parse_i32_show pid : 0 <= pid <= i32_max -> from_utf8 (show pid) ≫= parse_i32 = Some pid.
Proof.
  intros Hp. pose proof (show_digits pid ltac:(lia)) as Hd. rewrite from_utf8_ascii.
  2:{ eapply Forall_impl; [exact Hd|]. intros c. unfold is_ascii_digit, in_range. lia. }
  pose proof (parse_show i32_max pid Hp) as Hs. unfold parse_uint in Hs. simpl. unfold parse_i32, parse_int.
  destruct (show pid) as [|c s]; [by vm_compute in Hs|]. apply Forall_cons in Hd as [Hc _].
  destruct (eqc c "-"%char) eqn:E; [|exact Hs]. apply eqc_true in E. by subst c.
Qed.

Lemma proc_statuses_seen names h : wp (proc_statuses (K:=TK) names) h (read_statuses names h).
Proof.
  revert h. induction names as [|[name|e] names IH]; intros h; simpl.
  - apply wp_ret. exists [], []. rewrite app_nil_r. unfold reads_only, all_read. split_and!; try done; set_solver.
  - destruct (from_utf8 name ≫= parse_i32) as [pid|] eqn:Hpid.
    2:{ eapply wp_mono; [apply IH|]. intros r h' (l & evs & ? & ? & ? & Ha & ? & ?). exists l, evs. split_and!; try done.
        intros pid Hp [Heq|Hin]%elem_of_cons; [|by apply Ha]. injection Heq as <-. by rewrite parse_i32_show in Hpid. }
    unfold read_to_string. do 3 wp_step. apply (wp_hsys (ReadFile (status_path pid))). intros r w.
    apply wp_ret. wp_step. eapply wp_mono; [apply IH|].
    intros r' h' (l & evs & -> & Ht & Hf & Ha & Hin & Hback). apply wp_ret.
    exists (match (match r with Ok s => from_utf8 s | Err _ => None end) with
            | Some s => (pid, s) :: l | None => l end),
      (Event (ReadFile (status_path pid)) r :: evs).
    rewrite Ht, trace_after, <- app_assoc. split_and!.
    + destruct r; simpl; [|done]. by destruct (from_utf8 _).
    + done.
    + by constructor.
    + intros pid' Hp [Heq|Hin']%elem_of_cons.
      * injection Heq as <-. rewrite parse_i32_show in Hpid by done. injection Hpid as <-. exists r. left.
      * destruct (Ha _ Hp Hin') as [r' Hr']. exists r'. by right.
    + intros pid' s' Hin'. setoid_rewrite elem_of_cons. destruct r as [s|]; simpl in Hin'; [|by edestruct Hin; eauto].
      destruct (from_utf8 s) as [t|] eqn:Hs; [|by edestruct Hin; eauto].
      pose proof (from_utf8_id _ _ Hs) as ->. apply elem_of_cons in Hin' as [Heq|Hin']; [|by edestruct Hin; eauto].
      injection Heq as -> ->. auto.
    + intros path s [Heq|Hin']%elem_of_cons Hs.
      * apply (f_equal file_read) in Heq. simpl in Heq. injection Heq as -> <-. simpl. rewrite Hs. exists pid. split; [done|left].
      * destruct (Hback _ _ Hin' Hs) as (pid' & Hpath & Hp'). exists pid'. split; [done|].
        destruct (match r with Ok s => from_utf8 s | Err _ => None end); [by right|done].
  - eapply wp_mono; [apply IH|]. intros r h' (l & evs & ? & ? & ? & Ha & ? & ?). exists l, evs. split_and!; try done.
    intros pid Hp [Heq|Hin]%elem_of_cons; [done|by apply Ha].
Qed.

(** One look at /proc for the live processes of a uid: the listing, then the
    status file of every pid listed; it [found] some exactly when one of those
    files is text that reads as a live process of the uid.  A listing that fails
    ends the look, which found nothing. *)
Definition looked (uid : Z) (evs : list event) (found : bool) : Prop :=
  exists names look, evs = Event (ReadDir (lit "/proc")) names :: look /\ reads_only look
    /\ match names with Ok names => all_read names look | Err _ => look = [] end
    /\ (found = true <-> exists path status, Event (ReadFile path) (Ok status) ∈ look
          /\ from_utf8 status = Some status /\ live_with uid status = true).

Lemma looked_not_kill u evs found : looked u evs found -> Forall not_kill evs.
Proof. intros (names & look & -> & Hr & _). constructor; [done|]. by apply reads_not_kill. Qed.

Lemma pids_of_uid_seen u h :
  wp (pids_of_uid (K:=TK) u) h (fun r h' => exists pids evs, r = Ok pids /\ trace h' = trace h ++ evs
    /\ looked u evs (negb (bool_decide (pids = []))) /\ (forall pid, pid ∈ pids -> seen_alive u evs pid)
    /\ forall path status, Event (ReadFile path) (Ok status) ∈ evs -> from_utf8 status = Some status ->
         live_with u status = true -> exists pid, path = status_path pid /\ pid ∈ pids).
Proof.
  unfold pids_of_uid, all_statuses. do 3 wp_step. apply (wp_hsys (ReadDir (lit "/proc"))). intros r w.
  destruct r as [names|e]; simpl.
  - eapply wp_mono; [apply proc_statuses_seen|].
    intros r1 h1 (l & evs & -> & Ht & Hf & Ha & Hin & Hback). apply wp_ret.
    set (pids := map fst (List.filter (fun ps => live_with u ps.2) l)).
    assert (Hpids : forall pid, pid ∈ pids <-> exists s, (pid, s) ∈ l /\ live_with u s = true).
    { intros pid. unfold pids. rewrite list_elem_of_fmap. setoid_rewrite list_elem_of_In. setoid_rewrite filter_In.
      split; [intros ([p s] & -> & ? & ?); eauto|]. intros (s & ? & ?). by exists (pid, s). }
    exists pids, (Event (ReadDir (lit "/proc")) (Ok names) :: evs).
    split_and!; [done|by rewrite Ht, trace_after, <- app_assoc| | |].
    + exists (Ok names), evs. split_and!; [done..|]. rewrite negb_true_iff, bool_decide_eq_false. split.
      * intros Hne. destruct pids as [|pid pids'] eqn:E; [done|]. destruct (proj1 (Hpids pid)) as (s & Hs & Hl); [left|].
        destruct (Hin _ _ Hs). eauto.
      * intros (path & s & Hev & Hu & Hl) Hnil. destruct (Hback _ _ Hev Hu) as (pid & _ & Hp).
        assert (Hx : pid ∈ pids) by (apply Hpids; eauto). rewrite Hnil in Hx. by apply not_elem_of_nil in Hx.
    + intros pid (s & Hs & Hl)%Hpids. destruct (Hin _ _ Hs). exists s. split; [by right|done].
    + intros path s [Heq|Hev]%elem_of_cons Hu Hl; [by apply (f_equal file_read) in Heq|].
      destruct (Hback _ _ Hev Hu) as (pid & Hpath & Hp). exists pid. split; [done|]. apply Hpids. eauto.
  - do 2 wp_step. exists [], [Event (ReadDir (lit "/proc")) (Err e)]. split_and!; [done|apply trace_after| |set_solver|].
    2:{ intros path s Hev%list_elem_of_singleton. by apply (f_equal file_read) in Hev. }
    exists (Err e), []. unfold reads_only. split_and!; try done. simpl. split; [done|]. set_solver.
Qed.

Lemma kill_all_spec pids h :
  wp (kill_all (K:=TK) pids) h (fun r h' => r = Ok tt /\ exists evs, trace h' = trace h ++ evs
    /\ Forall (fun e => exists pid, pid ∈ pids /\ ev_call e = Kill pid SIGKILL) evs
    /\ forall pid, pid ∈ pids -> exists res, Event (Kill pid SIGKILL) res ∈ evs).
Proof.
  revert h. induction pids as [|pid pids IH]; intros h; simpl.
  - apply wp_ret. split; [done|]. exists []. rewrite app_nil_r. split_and!; [done|done|set_solver].
  - wp_step. apply (wp_hsys_ (Kill pid SIGKILL)). intros r w. eapply wp_mono; [apply IH|].
    intros r' h' (-> & evs & Ht & Hf & Hall). split; [done|]. exists (Event (Kill pid SIGKILL) r :: evs).
    rewrite Ht, trace_after, <- app_assoc. split_and!; [done| |].
    2:{ intros p [->|Hp]%elem_of_cons; [exists r; left|]. destruct (Hall p Hp) as [res Hres]. exists res. by right. }
    constructor.
    + exists pid. split; [set_solver|done].
    + eapply Forall_impl; [exact Hf|]. intros e (p & ? & ?). exists p. split; [set_solver|done].
Qed.

(** The outcome of [n] sweeps: its calls end with a look at /proc, which is the
    answer; what the looks before that found was killed, and it does not give up
    early. *)
Definition swept n u h (r : result bool io_error) h' : Prop :=
  exists b before last, r = Ok b /\ trace h' = trace h ++ before ++ last
    /\ kills_justified u (before ++ last) /\ all_killed u before /\ looked u last (negb b)
    /\ (b = false -> looks (before ++ last) = S n).

Lemma looked_once u evs found : looked u evs found -> looks evs = 1%nat.
Proof.
  intros (names & look & -> & Hr & _). unfold looks. simpl. f_equal.
  induction Hr as [|e look [x Hx] _ IH]; [done|]. simpl. by destruct e as [[] a].
Qed.

Lemma kill_sweeps_spec n u h : wp (kill_sweeps (K:=TK) n u) h (swept n u h).
Proof.
  assert (Hlook : forall h (Q : result bool io_error -> @Host TK -> Prop) (k : list Z -> io (@Host TK) bool),
    (forall pids h1 evs, trace h1 = trace h ++ evs -> looked u evs (negb (bool_decide (pids = []))) ->
       (forall pid, pid ∈ pids -> seen_alive u evs pid) ->
       (forall path status, Event (ReadFile path) (Ok status) ∈ evs -> from_utf8 status = Some status ->
         live_with u status = true -> exists pid, path = status_path pid /\ pid ∈ pids) -> wp (k pids) h1 Q) ->
    wp (io_bind (pids_of_uid (K:=TK) u) k) h Q).
  { intros h0 Q k Hk. wp_step. eapply wp_mono; [apply pids_of_uid_seen|]. intros r h1 (pids & evs & -> & ? & ? & ? & ?). eauto. }
  revert h. induction n as [|n IH]; intros h; simpl; apply Hlook; intros pids h1 evs Ht Hl Hs Hall.
  - apply wp_ret. exists (bool_decide (pids = [])), [], evs. split_and!; [done..| |intros ?; set_solver|done|].
    + by eapply not_kill_justified, looked_not_kill.
    + intros _. by eapply looked_once.
  - destruct pids as [|pid pids].
    { apply wp_ret. exists true, [], evs. split_and!; [done..| |intros ?; set_solver|done|done].
      by eapply not_kill_justified, looked_not_kill. }
    wp_step. eapply wp_mono; [apply kill_all_spec|]. intros r h2 (-> & e2 & Ht2 & Hf2 & Hk2).
    wp_step. apply wp_hsys_. intros r w. eapply wp_mono; [apply IH|].
    intros r' h' (b & before & last & -> & Ht3 & Hj3 & Hk3 & Hlast & Hn3).
    set (pause := Event (Sleep (if 100 - Z.of_nat (S n) <? 10 then 5 else 10)) r) in *.
    exists b, ((evs ++ e2) ++ pause :: before), last. split_and!; [done| | | |done|].
    + rewrite Ht3, trace_after, Ht2, Ht, <- !app_assoc. reflexivity.
    + rewrite <- app_assoc. apply kills_justified_app.
      * intros p sig res [Hin|Hin]%elem_of_app.
        -- apply looked_not_kill in Hl. rewrite Forall_forall in Hl. by apply Hl in Hin.
        -- rewrite Forall_forall in Hf2. destruct (Hf2 _ Hin) as (q & Hq & [= <- <-]). split; [done|].
           destruct (Hs _ Hq) as (status & ? & ?). exists status. set_solver.
      * rewrite <- app_comm_cons. intros p sig res [Heq|Hin]%elem_of_cons; [by apply (f_equal ev_call) in Heq|].
        destruct (Hj3 _ _ _ Hin) as (? & status & ? & ?). split; [done|]. exists status. split; [by right|done].
    + intros path status Hin Hu Hlive. rewrite !elem_of_app, elem_of_cons in Hin. setoid_rewrite elem_of_app.
      setoid_rewrite elem_of_app. setoid_rewrite elem_of_cons. destruct Hin as [[Hin|Hin]|[Heq|Hin]].
      * destruct (Hall _ _ Hin Hu Hlive) as (p & -> & Hp). destruct (Hk2 p Hp) as [res Hres]. eauto 10.
      * rewrite Forall_forall in Hf2. by destruct (Hf2 _ Hin) as (q & _ & [=]).
      * by apply (f_equal file_read) in Heq.
      * destruct (Hk3 _ _ Hin Hu Hlive) as (p & res & -> & Hp). eauto 10.
    + intros Hb. specialize (Hn3 Hb). rewrite looks_app in Hn3. rewrite !looks_app.
      change (looks (pause :: before)) with (looks before). rewrite (looked_once _ _ _ Hl).
      assert (He2 : looks e2 = 0%nat); [|lia]. unfold looks. clear -Hf2.
      induction Hf2 as [|e e2 (q & _ & Hq) _ IH]; [done|]. simpl. by rewrite Hq.
Qed.

(** C16: the kill sweep ends, and its answer is what the calls it made show.  Its
    last calls are a listing of /proc and then, of every process listed, a read of
    /proc/<pid>/status.  It answers [false] exactly when one of the files read there
    is UTF-8 text of a live process of the uid, so after [true] none was: a status
    file with real uid [uid] and a state other than Z was not among them; and only
    after 100 sweeps.  In those it sends SIGKILL to every process whose status it had
    read as live under that uid, and signals nothing else.  Two blind spots of the code show: a /proc that cannot be listed
    counts as an empty one, and a process whose status is not UTF-8 (its name can be
    any bytes) is passed over. *)
Theorem kill_uid_sound u h :
  exists b h' before names look, kill_uid (K:=TK) u h = (Ok b, h')
    /\ trace h' = trace h ++ before ++ Event (ReadDir (lit "/proc")) names :: look
    /\ kills_justified u (before ++ Event (ReadDir (lit "/proc")) names :: look) /\ all_killed u before
    /\ (b = false -> looks (before ++ Event (ReadDir (lit "/proc")) names :: look) = 101%nat)
    /\ (forall e, e ∈ look -> exists path r, e = Event (ReadFile path) r)
    /\ (match names with
        | Ok names => forall pid, 0 <= pid <= i32_max -> Ok (show pid) ∈ names ->
            exists r, Event (ReadFile (status_path pid)) r ∈ look
        | Err _ => b = true /\ look = []
        end)
    /\ (b = false <-> exists path status, Event (ReadFile path) (Ok status) ∈ look
          /\ from_utf8 status = Some status /\ live_with u status = true)
    /\ (forall letter status, kernel_status u letter status -> letter <> "Z"%char ->
          live_with u status = true)
    /\ (forall r letter status, kernel_status r letter status -> live_with u status = true ->
          r = u /\ letter <> "Z"%char).
Proof.
  unfold kill_uid. destruct (kill_sweeps 100 u h) as [r h'] eqn:Hrun.
  destruct (wp_run _ _ _ _ _ Hrun (kill_sweeps_spec 100 u h))
    as (b & before & last & -> & Ht & Hj & Hk & (names & look & -> & Hr & Hall & Hb) & Hn).
  rewrite negb_true_iff in Hb. exists b, h', before, names, look. split_and!; try done.
  - intros e He. unfold reads_only in Hr. rewrite Forall_forall in Hr. destruct (Hr _ He) as [x Hx].
    destruct e as [[] a]; try done. eauto.
  - destruct names as [names|e]; [exact Hall|]. subst look. split; [|done].
    destruct b; [done|]. destruct (proj1 Hb eq_refl) as (path & s & Hin & _). by apply not_elem_of_nil in Hin.
  - intros letter status Hs Hz. rewrite (kernel_status_live _ _ _ _ Hs), Z.eqb_refl. by apply negb_true_iff, eqc_false.
  - intros r letter status Hs. rewrite (kernel_status_live _ _ _ _ Hs), andb_true_iff, negb_true_iff, eqc_false, Z.eqb_eq. done.
Qed.

End Kill.

Definition one_live : gset Z := {[ 20000 ]}.
Definition sample_pool : UidPool := {| next := 2; free := [20001]; quarantined := [] |}.

Lemma sample_pool_ok : pool_ok one_live sample_pool.
Proof.
  unfold one_live. split; simpl; unfold UID_BASE, UID_MAX; try lia; try set_solver.
  - intros u Hu. apply list_elem_of_singleton in Hu. lia.
  - apply NoDup_singleton.
  - intros u Hu. rewrite elem_of_singleton, list_elem_of_singleton. lia.
Qed.

Lemma take_uid_sound_witness :
  exists o p' h', take_uid (K:=Sim.sim) (sample_pool, sim_host Sim.boot) = (Ok o, (p', h'))
    /\ o <> Some 20000.
Proof.
  destruct (take_uid_sound (K:=Sim.sim) one_live sample_pool (sim_host Sim.boot) sample_pool_ok)
    as (o & p' & h' & Hrun & _ & Ho).
  exists o, p', h'. split; [exact Hrun|]. destruct o as [u|]; [|discriminate].
  destruct Ho as (_ & Hl & _). intros [= ->]. apply Hl. by apply elem_of_singleton.
Defined.

(** A machine where pid 77 runs under uid 20001. *)
Definition one_process : @Host (Traced Sim.sim) := traced_host (Sim.with_procs {[ 77 := 20001 ]} Sim.boot).

(** The process is killed, and then the sweep sees none. *)
Lemma kill_uid_sound_witness :
  exists h', kill_uid 20001 one_process = (Ok true, h') /\ kills_justified 20001 (trace h')
    /\ existsb (fun e => match ev_call e with Kill pid _ => pid =? 77 | _ => false end) (trace h') = true.
Proof.
  destruct (kill_uid_sound 20001 one_process) as (b & h' & before & names & look & Hrun & Ht & Hj & _).
  set (killed := fun x : result bool io_error * @Host (Traced Sim.sim) =>
    match x with
    | (Ok true, h') => existsb (fun e => match ev_call e with Kill pid _ => pid =? 77 | _ => false end) (trace h')
    | _ => false
    end).
  assert (Hb : killed (kill_uid 20001 one_process) = true) by (vm_compute; reflexivity).
  rewrite Hrun in Hb. destruct b; [|discriminate Hb]. exists h'. split; [exact Hrun|]. split; [|exact Hb].
  rewrite Ht. exact Hj.
Defined.
