(* ===== verification/Sandboxes.v ===== *)
(** * src/sandboxes.rs: the registry

    Creating, finding and deleting sandboxes.  [create] and [delete] are composed of
    the atomic pieces named first, each of which one lock or one atomic operation
    makes indivisible; file SandboxRaces interleaves those pieces. *)

From S2P Require Import Prelude RustStd Json Kernel Host Landlock Paths State Uids.

Definition HOMES_DIR : str := lit "/sbx/homes".
Definition PROXY_SUBDIR : str := lit ".sbx/proxy".
Definition DEFAULT_MAX_PROCS : Z := 256.
Definition DEFAULT_MAX_MEM_MB : Z := 2048.
Definition MAX_PROCS_CEILING : Z := 4096.
Definition MAX_MEM_MB_CEILING : Z := 1024 * 1024.
Definition DEFAULT_MAX_FILES : Z := 4096.
Definition DEFAULT_MAX_FILE_SIZE_MB : Z := 8192.
Definition DEFAULT_MAX_CPU_SECS : Z := 24 * 3600.
Definition MAX_ENV_BYTES : Z := 64 * 1024.

(** The registry with the process it runs in. *)
Abbreviation SB := (SandboxRegistry * Host)%type (only parsing).

Section Registry.
Context {SJ : SerdeJson} {K : Kernel}.

Definition random_hex (n : nat) : io Host str :=
  buf <- hsys (ReadRandom n) ;;
  if Nat.eqb (length buf) n then io_ret (concat (map hex2 buf))
  else io_fail (error_new UnexpectedEof (lit "failed to fill whole buffer")).

Definition chown (path : str) (uid : Z) : io Host unit :=
  if existsb (eqc NUL) path then io_ret tt else hsys_ (Chown path uid uid).

(** [target] and its ancestors below [home]; each step shortens the path. *)
Fixpoint chown_up (fuel : nat) (home cur : str) (uid : Z) : io Host unit :=
  match fuel with
  | O => io_ret tt
  | S fuel' =>
      if path_eq cur home || negb (path_starts_with cur home) then io_ret tt
      else
        chown cur uid ;;;
        match parent cur with
        | Some up => chown_up fuel' home up uid
        | None => io_ret tt
        end
  end.
Definition chown_into_home (home target : str) (uid : Z) : io Host unit :=
  chown_up (S (length target)) home target uid.

(** ** Atomic pieces *)

(** [reserved.fetch_add(1) >= capacity]. *)
Definition reserve_slot (r : SandboxRegistry) : bool * SandboxRegistry :=
  (negb (capacity r <=? reserved r), set_reserved (wrap_u64 (reserved r + 1)) r).
(** [reserved.fetch_sub(1)]. *)
Definition unreserve (r : SandboxRegistry) : SandboxRegistry :=
  set_reserved (wrap_u64 (reserved r - 1)) r.

Definition insert_entry (e : SandboxEntry) (r : SandboxRegistry) : SandboxRegistry :=
  set_map (<[id e := e]> (sandbox_map r)) r.

Definition remove_entry (id : str) (r : SandboxRegistry) : option SandboxEntry * SandboxRegistry :=
  (sandbox_map r !! id, set_map (base.delete id (sandbox_map r)) r).

(** A fresh entry's mutable fields: [Mutex::new(false)] and [AtomicI64::new(now)]. *)
Definition new_cells (now : Z) (r : SandboxRegistry) : (Z * Z) * SandboxRegistry :=
  let c := next_cell r in
  ((c, c + 1),
   mkSandboxRegistry (sandbox_map r) (capacity r) (reserved r) (allow_unconfined r) (uids r)
     (<[c := false]> (deleted_cells r)) (<[c + 1 := now]> (activity_cells r)) (c + 2)).

Definition is_deleted (e : SandboxEntry) (r : SandboxRegistry) : bool :=
  default false (deleted_cells r !! deleted e).
Definition last_activity (e : SandboxEntry) (r : SandboxRegistry) : Z :=
  default 0 (activity_cells r !! entry_activity e).

Definition update {A} (f : SandboxRegistry -> A * SandboxRegistry) : io SB A :=
  fun s => let '(a, r) := f s.1 in (Ok a, (r, s.2)).
Definition change (f : SandboxRegistry -> SandboxRegistry) : io SB unit :=
  io_modify (fun s => (f s.1, s.2)).

(** [self.uids.lock().take()]. *)
Definition take_locked : io SB (option Z) := fun s =>
  let '(o, ph) := take_uid (uids s.1, s.2) in (o, (set_uids ph.1 s.1, ph.2)).
Definition release_locked (uid : Z) : io SB unit := change (fun r => set_uids (release uid (uids r)) r).
Definition quarantine_locked (uid : Z) : io SB unit :=
  change (fun r => set_uids (quarantine uid (uids r)) r).

(** ** [SandboxRegistry::new] *)

Definition registry_new (capacity : Z) (allow_unconfined : bool) : io Host SandboxRegistry :=
  reserved <- uids_already_in_use ;;
  io_ret (mkSandboxRegistry ∅ capacity 0 allow_unconfined (with_reserved reserved) ∅ ∅ 0).

(** ** Creation *)

(** The home directory tree of [create_inner], owned by [uid]. *)
Definition make_home (home : str) (uid : Z) : io Host unit :=
  path_sys home (CreateDirAll home) ;;;
  path_sys home (SetPermissions home 448) ;;;
  let tmp := home ++ lit "/.tmp" in
  path_sys tmp (CreateDirAll tmp) ;;;
  let proxy_dir := home ++ lit "/" ++ PROXY_SUBDIR in
  path_sys proxy_dir (CreateDirAll proxy_dir) ;;;
  hsys_ (Chown home uid uid) ;;;
  hsys_ (Chown tmp uid uid) ;;;
  chown_into_home home proxy_dir uid.

Definition confine (home : str) (allow_unconfined : bool) : io Host Confinement :=
  r <- io_try (build_ruleset home) ;;
  match r with
  | Ok fd => io_ret (ByLandlock fd)
  | Err e =>
      if allow_unconfined then io_ret UidOnly
      else
        io_ignore (path_sys home (RemoveDirAll home)) ;;;
        io_fail (error_new OtherError (lit "cannot confine sandbox: " ++ err_text e))
  end.

Definition create_inner (uid : Z) (env : gmap str str) (max_procs max_mem_mb : option Z)
    (idle_timeout_ms : Z) : io SB SandboxEntry :=
  id <- on_snd (random_hex 8) ;;
  token <- on_snd (random_hex 32) ;;
  let home := HOMES_DIR ++ lit "/" ++ id in
  on_snd (make_home home uid) ;;;
  allow <- io_gets (fun s => allow_unconfined s.1) ;;
  confinement <- on_snd (confine home allow) ;;
  created_at <- on_snd hnow ;;
  active_at <- on_snd hnow ;;
  cells <- update (new_cells active_at) ;;
  let entry := {| id := id; uid := uid; home := home; created_at_ms := created_at; env := env;
                  max_procs := default DEFAULT_MAX_PROCS max_procs;
                  max_mem_mb := default DEFAULT_MAX_MEM_MB max_mem_mb;
                  token := token; confinement := confinement;
                  deleted := cells.1; entry_activity := cells.2;
                  idle_timeout_ms := idle_timeout_ms |} in
  change (insert_entry entry) ;;;
  io_ret entry.

Definition create (env : gmap str str) (max_procs max_mem_mb : option Z) (idle_timeout_ms : Z)
    : io SB (result SandboxEntry CreateError) :=
  granted <- update reserve_slot ;;
  if negb granted then change unreserve ;;; io_ret (Err Full)
  else
    uid <- take_locked ;;
    match uid with
    | None => change unreserve ;;; io_ret (Err Full)
    | Some uid =>
        r <- io_try (create_inner uid env max_procs max_mem_mb idle_timeout_ms) ;;
        match r with
        | Ok entry => io_ret (Ok entry)
        | Err e =>
            change unreserve ;;;
            release_locked uid ;;;
            io_ret (Err (CreateIo e))
        end
    end.

(** ** Lookup *)

Definition get (id : str) (r : SandboxRegistry) : option SandboxEntry := sandbox_map r !! id.

(** The iteration order of a [HashMap] is unspecified; this is one. *)
Definition entries (r : SandboxRegistry) : list SandboxEntry := (map_to_list (sandbox_map r)).*2.
Definition ids (r : SandboxRegistry) : list str := (map_to_list (sandbox_map r)).*1.

Definition touch (id : str) : io SB unit :=
  e <- io_gets (fun s => get id s.1) ;;
  match e with
  | Some entry =>
      now <- on_snd hnow ;;
      change (set_entry_activity (entry_activity entry) now)
  | None => io_ret tt
  end.

Definition is_idle (now : Z) (r : SandboxRegistry) (e : SandboxEntry) : bool :=
  (0 <? idle_timeout_ms e) && (idle_timeout_ms e <? wrap_i64 (now - last_activity e r)).

Definition idle_candidates (now : Z) (r : SandboxRegistry) : list str :=
  map id (List.filter (is_idle now r) (entries r)).

Definition count (r : SandboxRegistry) : Z := Z.of_nat (size (sandbox_map r)).

Definition remaining_capacity (r : SandboxRegistry) : Z := Z.min (sat_sub (capacity r) (reserved r)) 4096.

Definition list_json (r : SandboxRegistry) : Value Number :=
  VArray (map (fun s => jobj [("id", VString (id s)); ("uid", jint (uid s)); ("home", VString (home s));
                              ("created_at_ms", jint (created_at_ms s));
                              ("confinement", VString (label (confinement s)))]%string) (entries r)).

(** ** Deletion *)

Definition survived_message (id : str) (uid : Z) : str :=
  lit "sandbox " ++ id ++ lit " was removed but processes under uid " ++ show uid
  ++ lit " survived the kill sweep".

(** What [delete] does once the entry is out of the map. *)
Definition teardown (id : str) (entry : SandboxEntry) : io SB (result unit str) :=
  change (set_deleted (deleted entry) true) ;;;
  change unreserve ;;;
  converged <- on_snd (kill_uid (uid entry)) ;;
  removed <- io_try (on_snd (path_sys (home entry) (RemoveDirAll (home entry)))) ;;
  if negb converged then
    quarantine_locked (uid entry) ;;;
    io_ret (Err (survived_message id (uid entry)))
  else match removed with
  | Err e =>
      quarantine_locked (uid entry) ;;;
      io_ret (Err (lit "sandbox " ++ id ++ lit " was removed but its home could not be deleted: " ++ err_text e))
  | Ok _ =>
      release_locked (uid entry) ;;;
      io_ret (Ok tt)
  end.

Definition delete (id : str) : io SB (option (result unit str)) :=
  removed <- update (remove_entry id) ;;
  match removed with
  | None => io_ret None
  | Some entry => outcome <- teardown id entry ;; io_ret (Some outcome)
  end.

(** [Drop for SandboxEntry]: run when the last holder lets go. *)
Definition drop_entry (e : SandboxEntry) : io Host unit :=
  match confinement e with
  | ByLandlock fd => hsys_ (Close fd)
  | UidOnly => io_ret tt
  end.

(** ** The commands' environment *)

(** The closure [pre_exec_isolation] returns, by what it captures. *)
Definition pre_exec_isolation (e : SandboxEntry) : Isolation := {|
  iso_max_procs := max_procs e;
  iso_max_mem := sat_mul_u64 (max_mem_mb e) (1024 * 1024);
  iso_confinement := match confinement e with ByLandlock fd => Some fd | UidOnly => None end;
|}.

Definition limit_ (resource value : Z) : io World unit := sys_ (Setrlimit resource value value).

(** Its body, run by the child between fork and exec. *)
Definition run_isolation (i : Isolation) : io World unit :=
  sys (Prctl PR_SET_NO_NEW_PRIVS 1) ;;;
  match iso_confinement i with
  | Some fd => restrict_self fd
  | None => io_ret tt
  end ;;;
  sys (Setrlimit RLIMIT_NPROC (iso_max_procs i) (iso_max_procs i)) ;;;
  sys (Setrlimit RLIMIT_AS (iso_max_mem i) (iso_max_mem i)) ;;;
  limit_ RLIMIT_CORE 0 ;;;
  limit_ RLIMIT_NOFILE DEFAULT_MAX_FILES ;;;
  limit_ RLIMIT_FSIZE (DEFAULT_MAX_FILE_SIZE_MB * 1024 * 1024) ;;;
  limit_ RLIMIT_CPU DEFAULT_MAX_CPU_SECS.

Definition base_env (e : SandboxEntry) : list (str * str) :=
  [(lit "PATH", home e ++ lit "/.local/bin:/usr/local/sbin:/usr/local/bin:/usr/sbin:/usr/bin:/sbin:/bin");
   (lit "HOME", home e);
   (lit "TMPDIR", home e ++ lit "/.tmp");
   (lit "USER", lit "sbx-" ++ id e);
   (lit "LOGNAME", lit "sbx-" ++ id e);
   (lit "SBX_SANDBOX_ID", id e);
   (lit "SBX_PROXY_DIR", home e ++ lit "/" ++ PROXY_SUBDIR)]
  ++ map_to_list (env e).

End Registry.
