(* ===== verification/SandboxFacts.v ===== *)
(** * src/sandboxes.rs: what create and delete do

    The invariant of a settled registry and the effect of each operation on it,
    on every path. *)

From S2P Require Import Prelude RustStd Json Kernel Sim Wp Host Landlock State Uids UidsFacts Sandboxes.

(** The uids of the sandboxes of [m]. *)
Definition live_uids (m : gmap str SandboxEntry) : gset Z := map_img (uid <$> m).

Lemma elem_of_live m u : u ∈ live_uids m <-> exists i e, m !! i = Some e /\ uid e = u.
Proof.
  unfold live_uids. rewrite elem_of_map_img. split.
  - intros (i & Hi). rewrite lookup_fmap in Hi. apply fmap_Some in Hi as (e & ? & ->). eauto.
  - intros (i & e & Hi & <-). exists i. by rewrite lookup_fmap, Hi.
Qed.

(** No two sandboxes share a uid. *)
Definition uids_distinct (m : gmap str SandboxEntry) : Prop :=
  forall i j e f, m !! i = Some e -> m !! j = Some f -> uid e = uid f -> i = j.

Lemma live_insert m i e : m !! i = None -> live_uids (<[i := e]> m) = {[uid e]} ∪ live_uids m.
Proof.
  intros Hi. apply set_eq. intros u. rewrite elem_of_union, elem_of_singleton, !elem_of_live. split.
  - intros (j & f & Hj & <-). apply lookup_insert_Some in Hj as [[<- <-]|[Hne Hj]]; [auto|right; eauto].
  - intros [->|(j & f & Hj & <-)].
    + exists i, e. by rewrite lookup_insert_eq.
    + exists j, f. rewrite lookup_insert_ne; [done|congruence].
Qed.

Lemma live_delete m i e : uids_distinct m -> m !! i = Some e -> live_uids (base.delete i m) = live_uids m ∖ {[uid e]}.
Proof.
  intros Hd Hi. apply set_eq. intros u. rewrite elem_of_difference, elem_of_singleton, !elem_of_live. split.
  - intros (j & f & Hj & <-). apply lookup_delete_Some in Hj as [Hne Hj]. split; [eauto|].
    intros Heq. by apply Hne, (Hd i j e f).
  - intros [(j & f & Hj & <-) Hne]. exists j, f. rewrite lookup_delete_ne; [done|congruence].
Qed.

Lemma distinct_insert m i e : uids_distinct m -> uid e ∉ live_uids m -> uids_distinct (<[i := e]> m).
Proof.
  intros Hd He j k f g Hj Hk Heq. rewrite elem_of_live in He.
  apply lookup_insert_Some in Hj as [[Hj <-]|[_ Hj]]; apply lookup_insert_Some in Hk as [[Hk <-]|[_ Hk]].
  - congruence.
  - destruct He. eauto.
  - destruct He. eauto.
  - by apply (Hd j k f g).
Qed.

Lemma distinct_delete m i : uids_distinct m -> uids_distinct (base.delete i m).
Proof. intros Hd j k e f [_ Hj]%lookup_delete_Some [_ Hk]%lookup_delete_Some. by apply Hd. Qed.

(** A registry no operation is in the middle of. *)
Record registry_ok (r : SandboxRegistry) : Prop := {
  capacity_range : 0 <= capacity r <= u64_max;
  reserved_count : reserved r = Z.of_nat (size (sandbox_map r));
  reserved_bound : reserved r <= capacity r;
  entries_keyed i e : sandbox_map r !! i = Some e -> id e = i;
  entries_distinct : uids_distinct (sandbox_map r);
  pool_accounts : pool_ok (live_uids (sandbox_map r)) (uids r);
  cells_old i e : sandbox_map r !! i = Some e -> deleted e < next_cell r;
  cells_apart i j e f : sandbox_map r !! i = Some e -> sandbox_map r !! j = Some f ->
    deleted e = deleted f -> i = j;
  not_deleted i e : sandbox_map r !! i = Some e -> is_deleted e r = false;
}.

Section Ops.
Context {SJ : SerdeJson} {K : Kernel}.
Implicit Types (h : @Host K) (r : SandboxRegistry).

Lemma wp_on_snd {S T A} (m : io T A) (s : S * T) Q :
  wp m s.2 (fun o t => Q o (s.1, t)) -> wp (on_snd m) s Q.
Proof. intros. by apply wp_lens. Qed.

Lemma wp_update {A} (f : SandboxRegistry -> A * SandboxRegistry) (s : SandboxRegistry * @Host K) Q :
  Q (Ok (f s.1).1) ((f s.1).2, s.2) -> wp (update f) s Q.
Proof. unfold wp, update. by destruct (f s.1). Qed.

(** [s] is the hexadecimal form of [n] bytes of /dev/urandom. *)
Definition drawn (n : nat) h (s : str) h' : Prop :=
  exists bytes, hsys (ReadRandom n) h = (Ok bytes, h') /\ length bytes = n /\ s = concat (map hex2 bytes).

Lemma drawn_length n h s h' : drawn n h s h' -> length s = (2 * n)%nat.
Proof.
  intros (bytes & _ & Hn & ->). rewrite <- Hn. clear Hn. induction bytes as [|b bytes IH]; simpl; [done|]. rewrite IH. lia.
Qed.

Lemma wp_random_hex n h (Q : result str io_error -> @Host K -> Prop) :
  (forall s h', drawn n h s h' -> Q (Ok s) h') -> (forall e h', Q (Err e) h') -> wp (random_hex n) h Q.
Proof.
  intros Hok Herr. unfold random_hex. wp_step. apply wp_intro. intros [buf|e] h1 Hb; [|auto].
  destruct (Nat.eqb_spec (length buf) n) as [Hn|]; [|by apply wp_fail].
  apply wp_ret, Hok. by exists buf.
Qed.

(** What an entry made by [create_inner] from the host [h] looks like: 64 random bits
    of id, 256 of token, a home of the uid's own, and the ruleset built for that home
    then and there. *)
Record made_for (u : Z) (env0 : gmap str str) (mp mm : option Z) (idle : Z) (r : SandboxRegistry) h
    (e : SandboxEntry) : Prop := {
  made_uid : uid e = u;
  made_home : home e = HOMES_DIR ++ lit "/" ++ id e;
  made_run : exists h1 h2 h3 h4 ruleset, drawn 8 h (id e) h1 /\ drawn 32 h1 (token e) h2
    /\ make_home (home e) u h2 = (Ok tt, h3) /\ build_ruleset (home e) h3 = (ruleset, h4)
    /\ match confinement e with
       | UidOnly => allow_unconfined r = true /\ is_ok ruleset = false
       | ByLandlock fd => ruleset = Ok fd
       end;
  made_env : env e = env0;
  made_procs : max_procs e = default DEFAULT_MAX_PROCS mp;
  made_mem : max_mem_mb e = default DEFAULT_MAX_MEM_MB mm;
  made_idle : idle_timeout_ms e = idle;
}.

Lemma create_inner_spec u env0 mp mm idle r h :
  wp (create_inner u env0 mp mm idle) (r, h) (fun res s =>
    match res with
    | Ok e => made_for u env0 mp mm idle r h e
        /\ exists t, s.1 = insert_entry e (new_cells t r).2 /\ (deleted e, entry_activity e) = (new_cells t r).1
    | Err _ => s.1 = r
    end).
Proof.
  unfold create_inner, change. wp_step. apply wp_on_snd, wp_random_hex; [|done]. intros i h1 Hi. simpl.
  wp_step. apply wp_on_snd, wp_random_hex; [|done]. intros t h2 Ht. simpl.
  wp_step. apply wp_on_snd, wp_intro. intros [[]|] h3 Hhome; [|done]. simpl.
  do 2 wp_step. simpl.
  wp_step. apply wp_on_snd. unfold confine.
  do 2 wp_step. apply wp_intro. intros [fd|e] h4 Hb.
  - wp_step. wp_step. apply wp_on_snd, wp_any. intros [t1|] h5; [|done]. simpl.
    wp_step. apply wp_on_snd, wp_any. intros [t2|] h6; [|done]. simpl.
    wp_step. apply wp_update. do 3 wp_step. simpl. split; [|by exists t2].
    split; simpl; try done. by exists h1, h2, h3, h4, (Ok fd).
  - destruct (allow_unconfined r) eqn:Ha.
    + wp_step. wp_step. apply wp_on_snd, wp_any. intros [t1|] h5; [|done]. simpl.
      wp_step. apply wp_on_snd, wp_any. intros [t2|] h6; [|done]. simpl.
      wp_step. apply wp_update. do 3 wp_step. simpl. split.
      * split; simpl; try done. by exists h1, h2, h3, h4, (Err e).
      * exists t2. unfold new_cells. rewrite Ha. done.
    + do 2 wp_step. apply wp_any. intros ? h5. by wp_step.
Qed.

(** Adding a made entry keeps the registry in order; [r] has reserved the slot and
    taken the uid. *)
Lemma registry_insert r e t p :
  registry_ok r -> reserved r < capacity r -> sandbox_map r !! id e = None ->
  uid e ∉ live_uids (sandbox_map r) -> pool_ok ({[uid e]} ∪ live_uids (sandbox_map r)) p ->
  let r1 := set_uids p (set_reserved (wrap_u64 (reserved r + 1)) r) in
  (deleted e, entry_activity e) = (new_cells t r1).1 ->
  registry_ok (insert_entry e (new_cells t r1).2).
Proof.
  intros Hok Hlt Hnone Hlive Hp r1 Hcells. injection Hcells as Hd _. simpl in Hd.
  destruct Hok as [Hc Hr Hb Hk Hdist Hpool Hold Hapart Hnd].
  unfold r1. split; simpl; try done.
  - rewrite map_size_insert_None by done. unfold wrap_u64. rewrite Z.mod_small; unfold u64_max in *; lia.
  - unfold wrap_u64. rewrite Z.mod_small; unfold u64_max in *; lia.
  - intros i f [[<- <-]|[_ Hf]]%lookup_insert_Some; auto.
  - by apply distinct_insert.
  - by rewrite live_insert.
  - intros i f [[<- <-]|[_ Hf]]%lookup_insert_Some; [lia|]. specialize (Hold i f Hf). lia.
  - intros i j f g [[<- <-]|[_ Hf]]%lookup_insert_Some [[<- <-]|[_ Hg]]%lookup_insert_Some Heq; try done.
    + specialize (Hold _ _ Hg). lia.
    + specialize (Hold _ _ Hf). lia.
    + by apply (Hapart i j f g).
  - intros i f [[<- <-]|[_ Hf]]%lookup_insert_Some; unfold is_deleted; simpl.
    + by rewrite Hd, lookup_insert_eq.
    + specialize (Hold _ _ Hf). rewrite lookup_insert_ne by lia. by apply (Hnd i).
Qed.

Lemma unreserve_back r : registry_ok r ->
  unreserve (set_reserved (wrap_u64 (reserved r + 1)) r) = r.
Proof.
  intros [Hc Hr Hb _ _ _ _ _ _]. destruct r as [m c n a p d ac nx]. simpl in *. unfold unreserve, set_reserved.
  simpl. f_equal. unfold wrap_u64, u64_max in *.
  rewrite Zminus_mod_idemp_l. replace (n + 1 - 1) with n by lia. apply Z.mod_small. lia.
Qed.

Lemma unreserve_uids r p : registry_ok r ->
  unreserve (set_uids p (set_reserved (wrap_u64 (reserved r + 1)) r)) = set_uids p r.
Proof.
  intros Hok. pose proof (unreserve_back r Hok) as H. apply (f_equal (set_uids p)) in H. exact H.
Qed.

Lemma registry_set_uids r p :
  registry_ok r -> pool_ok (live_uids (sandbox_map r)) p -> registry_ok (set_uids p r).
Proof. intros [] Hp. by split. Qed.

(** C12: a create either adds one sandbox or changes nothing a client can see.  It
    always answers.  On success the new sandbox has a uid no other one has, an id of
    64 and a token of 256 fresh random bits, its limits, and is confined by a ruleset
    built for its own home (or that failed and the operator allowed otherwise); one
    more slot is taken, at most [capacity] in all, and the registry stays in order
    unless the new id, which the code does not compare, was already in use.  A host
    at capacity is reported without side effects, an exhausted uid range only when
    every uid is live or quarantined; after any other failure the registry is as it
    was but for the uid, which is back on the free list. *)
Theorem create_spec r h env0 mp mm idle :
  registry_ok r ->
  exists res r' h', create env0 mp mm idle (r, h) = (Ok res, (r', h')) /\
  match res with
  | Ok e => reserved r < capacity r /\ UID_BASE <= uid e < UID_MAX
      /\ uid e ∉ live_uids (sandbox_map r)
      /\ (exists p h1, take_uid (uids r, h) = (Ok (Some (uid e)), (p, h1)) /\ uids r' = p
            /\ made_for (uid e) env0 mp mm idle r h1 e)
      /\ sandbox_map r' = <[id e := e]> (sandbox_map r) /\ reserved r' = reserved r + 1
      /\ (sandbox_map r !! id e = None -> registry_ok r')
  | Err Full => registry_ok r' /\ sandbox_map r' = sandbox_map r /\
      (capacity r <= reserved r /\ r' = r /\ h' = h
       \/ forall u, UID_BASE <= u < UID_MAX -> u ∈ live_uids (sandbox_map r) \/ u ∈ quarantined (uids r'))
  | Err (CreateIo _) => registry_ok r' /\
      exists u p h1, take_uid (uids r, h) = (Ok (Some u), (p, h1))
        /\ r' = set_uids {| next := next p; free := free p ++ [u]; quarantined := quarantined p |} r
  end.
Proof.
  intros Hok. unfold create, io_bind at 1, update at 1, reserve_slot. simpl.
  destruct (Z.leb_spec (capacity r) (reserved r)) as [Hfull|Hlt]; simpl.
  { exists (Err Full), r, h. split; [|split_and!; [done|done|by left]]. exact (f_equal (fun x => (Ok (Err Full), (x, h))) (unreserve_back r Hok)). }
  set (r0 := set_reserved (wrap_u64 (reserved r + 1)) r).
  unfold io_bind at 1, take_locked. simpl.
  destruct (wp_ex _ _ _ (take_uid_spec _ _ h (pool_accounts _ Hok))) as (? & [p h1] & Htake & _ & o & -> & Ho).
  change (uids r0) with (uids r). rewrite Htake. simpl. destruct o as [u|].
  2:{ destruct Ho as [Hp Hall]. exists (Err Full), (set_uids p r), h1.
      split; [exact (f_equal (fun x => (Ok (Err Full), (x, h1))) (unreserve_uids r p Hok))|].
      split_and!; [by apply registry_set_uids|done|auto]. }
  destruct Ho as (Hrange & Hlive & Hp & _). unfold io_bind at 1, io_try at 1.
  pose proof (create_inner_spec u env0 mp mm idle (set_uids p r0) h1) as Hinner. unfold wp in Hinner.
  destruct (create_inner _ _ _ _ _ _) as [[e|err] [r2 h2]]; simpl in *.
  - eexists (Ok e), _, _. split; [reflexivity|]. destruct Hinner as (Hmade & t & -> & Hcells).
    pose proof (made_uid _ _ _ _ _ _ _ _ Hmade) as Hu. rewrite Hu. split_and!; try done; try lia.
    + exists p, h1. split_and!; [done|done|]. by destruct Hmade; split.
    + simpl. unfold wrap_u64. pose proof (capacity_range _ Hok). pose proof (reserved_count _ Hok).
      rewrite Z.mod_small; unfold u64_max in *; lia.
    + intros Hnone. rewrite <- Hu in *. by apply registry_insert.
  - subst r2. exists (Err (CreateIo err)), (set_uids (release u p) r), h2.
    split; [exact (f_equal (fun x => (Ok (Err (CreateIo err)), (set_uids (release u p) x, h2))) (unreserve_uids r p Hok))|].
    split; [|by exists u, p, h1]. apply registry_set_uids; [done|].
    replace (live_uids (sandbox_map r)) with (({[u]} ∪ live_uids (sandbox_map r)) ∖ {[u]}) by set_solver.
    apply pool_ok_release; [done|set_solver].
Qed.

(** The registry once an entry is gone, its cell is set and its slot is free. *)
Lemma registry_remove r i e p :
  registry_ok r -> sandbox_map r !! i = Some e -> pool_ok (live_uids (sandbox_map r) ∖ {[uid e]}) p ->
  registry_ok (set_uids p (unreserve (set_deleted (deleted e) true
    (set_map (base.delete i (sandbox_map r)) r)))).
Proof.
  intros [Hc Hr Hb Hk Hdist Hpool Hold Hapart Hnd] Hi Hp.
  assert (Hsize : Z.of_nat (size (base.delete i (sandbox_map r))) = Z.of_nat (size (sandbox_map r)) - 1).
  { rewrite map_size_delete_Some by eauto. assert (size (sandbox_map r) <> 0%nat); [|lia].
    rewrite map_size_non_empty_iff. by intros Hem; rewrite Hem, lookup_empty in Hi. }
  assert (Hwrap : wrap_u64 (reserved r - 1) = reserved r - 1).
  { unfold wrap_u64. apply Z.mod_small. unfold u64_max in *. lia. }
  split; simpl; rewrite ?Hwrap; try done; try lia.
  - intros j f [_ Hf]%lookup_delete_Some. auto.
  - by apply distinct_delete.
  - rewrite live_delete with (e := e); done.
  - intros j f [_ Hf]%lookup_delete_Some. eauto.
  - intros j k f g [_ Hf]%lookup_delete_Some [_ Hg]%lookup_delete_Some. eauto.
  - intros j f [Hne Hf]%lookup_delete_Some. unfold is_deleted. simpl.
    rewrite lookup_insert_ne; [by apply (Hnd j)|]. intros Heq. by apply Hne, (Hapart i j e f).
Qed.

Lemma kill_uid_ok u h : exists b h', kill_uid u h = (Ok b, h').
Proof.
  unfold kill_uid. generalize 100%nat. intros n. revert h. induction n as [|n IH]; intros h; cbn [kill_sweeps].
  - unfold io_bind. destruct (pids_of_uid_ok u h) as (l & h' & ->). eauto.
  - unfold io_bind at 1. destruct (pids_of_uid_ok u h) as (l & h' & ->). destruct l as [|pid l]; [eauto|].
    assert (Hk : forall l h, exists h', kill_all l h = (Ok tt, h')).
    { clear. induction l as [|p l IHl]; intros h; simpl; [by eexists|].
      unfold io_bind, hsys_, sys_, on_world, io_lens, io_ignore. simpl. apply IHl. }
    unfold io_bind at 1. destruct (Hk (pid :: l) h') as (h2 & ->).
    unfold io_bind, hsys_, sys_, on_world, io_lens, io_ignore at 1. simpl. apply IH.
Qed.

(** C11: a delete always answers and always takes the sandbox out of service: it is
    off the map, marked deleted and its slot is free again.  Success is claimed only
    when the kill sweep converged and the home is gone, and only then is the uid up
    for reuse; otherwise the uid is quarantined.  An unknown id changes nothing. *)
Theorem delete_spec r h i :
  registry_ok r ->
  exists res r' h', delete i (r, h) = (Ok res, (r', h')) /\ registry_ok r' /\
  match sandbox_map r !! i with
  | None => res = None /\ r' = r /\ h' = h
  | Some e => sandbox_map r' = base.delete i (sandbox_map r) /\ is_deleted e r' = true
      /\ reserved r' = reserved r - 1
      /\ exists h0 h1 converged out, kill_uid (uid e) h0 = (Ok converged, h1)
         /\ path_sys (home e) (RemoveDirAll (home e)) h1 = (out, h')
         /\ match res with
            | Some (Ok _) => converged = true /\ out = Ok tt /\ uid e ∈ free (uids r')
            | Some (Err _) => (converged = false \/ exists err, out = Err err) /\ uid e ∈ quarantined (uids r')
            | None => False
            end
  end.
Proof.
  intros Hok. unfold delete, io_bind at 1, update at 1, remove_entry. simpl.
  destruct (sandbox_map r !! i) as [e|] eqn:Hi.
  2:{ eexists None, _, _. split; [reflexivity|]. simpl.
      rewrite delete_id by done. replace (set_map (sandbox_map r) r) with r by (by destruct r). auto. }
  assert (Hu : uid e ∈ live_uids (sandbox_map r)) by (apply elem_of_live; eauto).
  pose proof (pool_accounts _ Hok) as Hpool.
  pose proof (registry_remove r i e _ Hok Hi (pool_ok_release _ _ _ Hpool Hu)) as Hfree.
  pose proof (registry_remove r i e _ Hok Hi (pool_ok_quarantine _ _ _ Hpool Hu)) as Hquar.
  assert (Hres : wrap_u64 (reserved r - 1) = reserved r - 1).
  { unfold wrap_u64. apply Z.mod_small. pose proof (capacity_range _ Hok). pose proof (reserved_bound _ Hok).
    pose proof (reserved_count _ Hok). assert (size (sandbox_map r) <> 0%nat).
    { rewrite map_size_non_empty_iff. by intros Hem; rewrite Hem, lookup_empty in Hi. }
    unfold u64_max in *. lia. }
  unfold teardown, io_bind, change, io_modify, on_snd, io_lens, io_try. simpl.
  destruct (kill_uid_ok (uid e) h) as (b & h1 & Hkill). rewrite Hkill. simpl.
  destruct (path_sys (home e) (RemoveDirAll (home e)) h1) as [out h2] eqn:Hrm. simpl.
  destruct b, out as [[]|err]; simpl.
  all: eexists _, _, _; split; [reflexivity|]; simpl; split; [first [exact Hfree|exact Hquar]|].
  all: split_and!; [done|unfold is_deleted; simpl; by rewrite lookup_insert_eq|done|].
  all: eexists h, h1, _, _; split_and!; [exact Hkill|exact Hrm|..]; try done; try (by eauto); set_solver.
Qed.

End Ops.

(** ** Concrete registries *)

(** What [SandboxRegistry::new] gives, before anything is created. *)
Definition empty_registry (capacity : Z) (allow : bool) (taken : list Z) : SandboxRegistry :=
  mkSandboxRegistry ∅ capacity 0 allow (with_reserved taken) ∅ ∅ 0.

Lemma registry_ok_empty c a taken : 0 <= c <= u64_max -> registry_ok (empty_registry c a taken).
Proof.
  intros Hc. split; simpl; try done; try lia.
  replace (live_uids ∅) with (∅ : gset Z).
  - apply pool_ok_new.
  - apply set_eq. intros u. rewrite elem_of_live. split; [set_solver|].
    intros (i & e & Hi & _). by rewrite lookup_empty in Hi.
Qed.

Lemma registry_new_ok {K : Kernel} c a h : 0 <= c <= u64_max ->
  exists r h', registry_new c a h = (Ok r, h') /\ registry_ok r.
Proof.
  intros Hc. unfold registry_new, io_bind.
  destruct (uids_already_in_use h) as [[taken|e] h'] eqn:E.
  - eexists _, _. split; [reflexivity|]. by apply registry_ok_empty.
  - exfalso. revert E. unfold uids_already_in_use, read_to_string, hsys, on_world, io_lens, io_bind, io_try, io_ret.
    destruct (sys _ (world h)) as [x w]. simpl. destruct (all_statuses_ok (set_world w h)) as (l & h2 & ->). done.
Qed.

Definition sample_entry : SandboxEntry := {|
  id := lit "a"; uid := 20000; home := lit "/sbx/homes/a"; created_at_ms := 0; env := ∅;
  max_procs := 1; max_mem_mb := 1; token := lit "t"; confinement := UidOnly;
  deleted := 0; entry_activity := 1; idle_timeout_ms := 0;
|}.

Definition sample_registry : SandboxRegistry :=
  mkSandboxRegistry {[ lit "a" := sample_entry ]} 4 1 true {| next := 2; free := [20001]; quarantined := [] |}
    {[ 0 := false ]} {[ 1 := 0 ]} 2.

Lemma sample_registry_ok : registry_ok sample_registry.
Proof.
  assert (Hm : forall i e, sandbox_map sample_registry !! i = Some e -> i = lit "a" /\ e = sample_entry).
  { intros i e Hi. simpl in Hi. apply lookup_singleton_Some in Hi as [<- <-]. done. }
  split.
  - simpl. unfold u64_max. lia.
  - simpl. by rewrite map_size_singleton.
  - simpl. lia.
  - intros i e [-> ->]%Hm. done.
  - intros i j e f [-> ->]%Hm [-> ->]%Hm _. done.
  - simpl. replace (live_uids _) with one_live; [apply sample_pool_ok|].
    apply set_eq. intros u. rewrite elem_of_live. unfold one_live. rewrite elem_of_singleton. split.
    + intros ->. exists (lit "a"), sample_entry. split; [apply lookup_singleton_eq|done].
    + intros (i & e & [-> ->]%Hm & <-). done.
  - intros i e [-> ->]%Hm. simpl. lia.
  - intros i j e f [-> ->]%Hm [-> ->]%Hm _. done.
  - intros i e [-> ->]%Hm. unfold is_deleted. simpl. by rewrite lookup_singleton_eq.
Qed.

Lemma create_spec_witness :
  exists res r' h', create (K:=Sim.sim) ∅ None None 0 (sample_registry, sim_host Sim.boot) = (Ok res, (r', h'))
    /\ match res with Ok e => uid e <> 20000 | Err _ => True end.
Proof.
  destruct (create_spec (K:=Sim.sim) sample_registry (sim_host Sim.boot) ∅ None None 0 sample_registry_ok)
    as (res & r' & h' & Hrun & Hres).
  exists res, r', h'. split; [exact Hrun|]. destruct res as [e|[|err]]; [|exact I..].
  destruct Hres as (_ & _ & Hlive & _). intros Hu. apply Hlive, elem_of_live.
  exists (lit "a"), sample_entry. split; [apply lookup_singleton_eq|exact (eq_sym Hu)].
Defined.

Lemma delete_spec_witness :
  exists res r' h', delete (K:=Sim.sim) (lit "a") (sample_registry, sim_host Sim.boot) = (Ok res, (r', h'))
    /\ registry_ok r'.
Proof.
  destruct (delete_spec (K:=Sim.sim) sample_registry (sim_host Sim.boot) (lit "a") sample_registry_ok)
    as (res & r' & h' & Hrun & Hok & _).
  exists res, r', h'. split; [exact Hrun|exact Hok].
Defined.
