(* ===== verification/SandboxRaces.v ===== *)
(** * src/sandboxes.rs under concurrency

    Any number of threads create and delete at once.  Between the atomic pieces of
    file Sandboxes other threads may run, so a thread is the point it has reached
    and a step is one piece.  [create] and [delete] are shown to be runs of these
    steps, and the invariant holds in every reachable state. *)

From Stdlib Require Import Relations.Relation_Operators Relations.Operators_Properties.
From S2P Require Import Prelude RustStd Json Kernel Sim Wp Host Landlock State Uids UidsFacts Sandboxes.
From S2P Require Import SandboxFacts.

Inductive thread : Type :=
| Idle
(** [create]: after [fetch_add]; with a uid; without one; after a failed
    [create_inner]; with the slot given back. *)
| Reserved (granted : bool)
| Taken (u : Z)
| NoUid
| Failing (u : Z)
| Releasing (u : Z)
(** [delete]: the entry is off the map; marked; its slot is free. *)
| Removed (e : SandboxEntry)
| Marked (e : SandboxEntry)
| Sweeping (e : SandboxEntry).

(** What a thread adds to [reserved], whether it holds a granted slot, and the uid
    it answers for. *)
Definition counts (t : thread) : Z :=
  match t with Idle | Releasing _ | Sweeping _ => 0 | _ => 1 end.
Definition holds (t : thread) : Z :=
  match t with Reserved false => 0 | _ => counts t end.
Definition owner (t : thread) : option Z :=
  match t with
  | Taken u | Failing u | Releasing u => Some u
  | Removed e | Marked e | Sweeping e => Some (uid e)
  | _ => None
  end.

Section Races.
Context {SJ : SerdeJson} {K : Kernel}.

(** One atomic piece of one thread. *)
Inductive act : SandboxRegistry -> thread -> SandboxRegistry -> thread -> Prop :=
| act_reserve r : act r Idle (reserve_slot r).2 (Reserved (reserve_slot r).1)
| act_full r : act r (Reserved false) (unreserve r) Idle
| act_take r h o r' h' :
    take_locked (K:=K) (r, h) = (Ok o, (r', h')) ->
    act r (Reserved true) r' (match o with Some u => Taken u | None => NoUid end)
| act_no_uid r : act r NoUid (unreserve r) Idle
| act_insert r u e t :
    (* the code does not compare: 64 random bits are taken not to repeat *)
    sandbox_map r !! id e = None -> uid e = u -> (deleted e, entry_activity e) = (new_cells t r).1 ->
    act r (Taken u) (insert_entry e (new_cells t r).2) Idle
| act_fail r u : act r (Taken u) r (Failing u)
| act_give_back r u : act r (Failing u) (unreserve r) (Releasing u)
| act_release r u : act r (Releasing u) (set_uids (release u (uids r)) r) Idle
| act_remove r i e :
    sandbox_map r !! i = Some e -> act r Idle (remove_entry i r).2 (Removed e)
| act_mark r e : act r (Removed e) (set_deleted (deleted e) true r) (Marked e)
| act_free_slot r e : act r (Marked e) (unreserve r) (Sweeping e)
| act_reuse r e : act r (Sweeping e) (set_uids (release (uid e) (uids r)) r) Idle
| act_quarantine r e : act r (Sweeping e) (set_uids (quarantine (uid e) (uids r)) r) Idle.

Abbreviation config := (SandboxRegistry * list thread)%type (only parsing).

Inductive step : config -> config -> Prop :=
| step_thread r ts k t r' t' :
    ts !! k = Some t -> act r t r' t' -> step (r, ts) (r', <[k := t']> ts).

Abbreviation steps := (clos_refl_trans_1n _ step).

Definition total (f : thread -> Z) (ts : list thread) : Z := foldr (fun t n => f t + n) 0 ts.
Fixpoint owners (ts : list thread) : list Z :=
  match ts with
  | [] => []
  | t :: ts => match owner t with Some u => u :: owners ts | None => owners ts end
  end.

(** [n] bounds the threads: [reserved] then never wraps. *)
Record races_ok (n : Z) (r : SandboxRegistry) (ts : list thread) : Prop := {
  no_wrap : 0 <= capacity r /\ capacity r + n <= u64_max /\ Z.of_nat (length ts) <= n;
  reserved_total : reserved r = Z.of_nat (size (sandbox_map r)) + total counts ts;
  within_capacity : Z.of_nat (size (sandbox_map r)) + total holds ts <= capacity r;
  map_distinct : uids_distinct (sandbox_map r);
  owners_distinct : NoDup (owners ts);
  owners_apart u : u ∈ owners ts -> u ∉ live_uids (sandbox_map r);
  all_accounted : pool_ok (list_to_set (owners ts) ∪ live_uids (sandbox_map r)) (uids r);
}.

(** ** The order of the threads does not matter *)

Lemma total_perm f ts ts' : ts ≡ₚ ts' -> total f ts = total f ts'.
Proof. induction 1; simpl; lia. Qed.

Lemma owners_perm ts ts' : ts ≡ₚ ts' -> owners ts ≡ₚ owners ts'.
Proof.
  induction 1 as [|t ts ts' _ IH|t t' ts|]; simpl; [done|..].
  - destruct (owner t); [by constructor|done].
  - destruct (owner t), (owner t'); try done. constructor.
  - by etrans.
Qed.

Lemma races_perm n r ts ts' : ts ≡ₚ ts' -> races_ok n r ts -> races_ok n r ts'.
Proof.
  intros Hp [Hn Hr Hc Hd Ho Ha Hk]. pose proof (owners_perm _ _ Hp) as Hop.
  assert (Hset : (list_to_set (owners ts) : gset Z) = list_to_set (owners ts')) by (by rewrite Hop).
  split.
  - by rewrite <- Hp.
  - by rewrite <- (total_perm counts _ _ Hp).
  - by rewrite <- (total_perm holds _ _ Hp).
  - done.
  - by rewrite <- Hop.
  - intros u. rewrite <- Hop. apply Ha.
  - by rewrite <- Hset.
Qed.

Lemma insert_perm {A} (l : list A) k x y : l !! k = Some x ->
  exists rest, l ≡ₚ x :: rest /\ <[k := y]> l ≡ₚ y :: rest.
Proof.
  intros Hk. exists (take k l ++ drop (S k) l). pose proof (lookup_lt_Some _ _ _ Hk).
  split.
  - rewrite <- (take_drop_middle l k x Hk) at 1. by rewrite Permutation_middle.
  - rewrite insert_take_drop by done. by rewrite Permutation_middle.
Qed.

Lemma counts_bound t : 0 <= holds t <= counts t /\ counts t <= 1.
Proof. destruct t as [|[]| | | | | | |]; simpl; lia. Qed.

Lemma total_bound ts : 0 <= total holds ts <= total counts ts /\ total counts ts <= Z.of_nat (length ts).
Proof.
  induction ts as [|t ts IH]; simpl; [lia|]. pose proof (counts_bound t). lia.
Qed.

(** ** Every piece keeps the invariant *)

Lemma wrap_up n r t rest :
  races_ok n r (t :: rest) -> counts t = 0 -> wrap_u64 (reserved r + 1) = reserved r + 1.
Proof.
  intros [Hn Hr Hc _ _ _ _] Ht. unfold wrap_u64. apply Z.mod_small. simpl in *.
  pose proof (total_bound rest). pose proof (counts_bound t). unfold u64_max in *. lia.
Qed.

Lemma wrap_down n r t rest :
  races_ok n r (t :: rest) -> counts t = 1 -> wrap_u64 (reserved r - 1) = reserved r - 1.
Proof.
  intros [Hn Hr Hc _ _ _ _] Ht. unfold wrap_u64. apply Z.mod_small. simpl in *.
  pose proof (total_bound rest). pose proof (counts_bound t). unfold u64_max in *. lia.
Qed.

(** A piece that neither moves a uid nor touches map or pool. *)
Lemma races_slot n r t t' rest r' :
  races_ok n r (t :: rest) -> owner t = owner t' ->
  capacity r' = capacity r -> sandbox_map r' = sandbox_map r -> uids r' = uids r ->
  reserved r' - counts t' = reserved r - counts t ->
  Z.of_nat (size (sandbox_map r)) + total holds (t' :: rest) <= capacity r ->
  races_ok n r' (t' :: rest).
Proof.
  intros [Hn Hr Hc Hd Ho Ha Hk] Hown Hcap Hmap Huids Hres Hhold.
  assert (He : owners (t' :: rest) = owners (t :: rest)) by (simpl; by rewrite Hown).
  split; rewrite ?Hcap, ?Hmap, ?Huids, ?He; try done. simpl in *. lia.
Qed.

(** A piece that gives up the thread's uid, to one list of the pool or the other. *)
Lemma races_drop_uid n r t u rest p :
  races_ok n r (t :: rest) -> owner t = Some u -> counts t = 0 ->
  (forall live, pool_ok live (uids r) -> u ∈ live -> pool_ok (live ∖ {[u]}) p) ->
  races_ok n (set_uids p r) (Idle :: rest).
Proof.
  intros [Hn Hr Hc Hd Ho Ha Hk] Hown Ht Hp. simpl in *. rewrite Hown in *.
  apply NoDup_cons in Ho as [Hu Ho]. simpl in *.
  assert (Hlive : u ∉ live_uids (sandbox_map r)) by (apply Ha; set_solver).
  pose proof (counts_bound t). split; simpl; try done; try lia.
  - intros v Hv. apply Ha. set_solver.
  - replace (list_to_set (owners rest) ∪ live_uids (sandbox_map r))
      with (({[u]} ∪ list_to_set (owners rest) ∪ live_uids (sandbox_map r)) ∖ {[u]}).
    + apply Hp; [exact Hk|set_solver].
    + apply set_eq. intros v. rewrite elem_of_difference, !elem_of_union, elem_of_singleton, elem_of_list_to_set.
      destruct (decide (v = u)) as [->|]; [|tauto]. split; [tauto|]. intros [?|?]; done.
Qed.

Lemma take_preserves n r h o r' h' rest :
  take_locked (K:=K) (r, h) = (Ok o, (r', h')) -> races_ok n r (Reserved true :: rest) ->
  races_ok n r' (match o with Some u => Taken u | None => NoUid end :: rest).
Proof.
  intros H Hok. pose proof (total_bound rest) as Htot.
  destruct (wp_ex _ _ _ (take_uid_spec (K:=K) _ (uids r) h (all_accounted _ _ _ Hok))) as (? & [p h1] & Htake & _ & o' & -> & Ho).
  unfold take_locked in H. simpl in H. rewrite Htake in H. simpl in H. injection H as <- <- <-.
  destruct Hok as [Hn Hr Hc Hd Hod Ha Hk]. simpl in *. destruct o' as [u|].
  + destruct Ho as (_ & Hu & Hp & _). rewrite not_elem_of_union, elem_of_list_to_set in Hu.
    split; simpl; try done; try lia.
    * apply NoDup_cons. tauto.
    * intros v [->|Hv]%elem_of_cons; [tauto|auto].
    * replace ({[u]} ∪ list_to_set (owners rest) ∪ live_uids (sandbox_map r))
        with ({[u]} ∪ (list_to_set (owners rest) ∪ live_uids (sandbox_map r))) by set_solver.
      done.
  + destruct Ho as [Hp _]. split; simpl; try done; lia.
Qed.

Lemma insert_preserves n r e t rest :
  sandbox_map r !! id e = None -> races_ok n r (Taken (uid e) :: rest) ->
  races_ok n (insert_entry e (new_cells t r).2) (Idle :: rest).
Proof.
  intros H Hok. pose proof (total_bound rest) as Htot.
  destruct Hok as [Hn Hr Hc Hd Hod Ha Hk]. simpl in *.
  apply NoDup_cons in Hod as [Hu Hod]. assert (Hlive : uid e ∉ live_uids (sandbox_map r)) by (apply Ha; set_solver).
  split; simpl; try done; rewrite ?map_size_insert_None by done; try lia.
  + by apply distinct_insert.
  + intros v Hv. rewrite live_insert, not_elem_of_union, not_elem_of_singleton by done.
    split; [by intros ->|]. apply Ha. set_solver.
  + rewrite live_insert by done.
    replace (list_to_set (owners rest) ∪ ({[uid e]} ∪ live_uids (sandbox_map r)))
      with ({[uid e]} ∪ list_to_set (owners rest) ∪ live_uids (sandbox_map r)) by set_solver.
    done.
Qed.

Lemma remove_preserves n r i e rest :
  sandbox_map r !! i = Some e -> races_ok n r (Idle :: rest) -> races_ok n (remove_entry i r).2 (Removed e :: rest).
Proof.
  intros H Hok. pose proof (total_bound rest) as Htot. unfold remove_entry. rewrite H. cbn [snd].
  destruct Hok as [Hn Hr Hc Hd Hod Ha Hk]. simpl in *.
  assert (He : uid e ∈ live_uids (sandbox_map r)) by (apply elem_of_live; eauto).
  assert (Hsize : Z.of_nat (size (base.delete i (sandbox_map r))) = Z.of_nat (size (sandbox_map r)) - 1).
  { rewrite map_size_delete_Some by eauto. assert (size (sandbox_map r) <> 0%nat); [|lia].
    rewrite map_size_non_empty_iff. intros Hem. by rewrite Hem, lookup_empty in H. }
  split; simpl; rewrite ?(live_delete _ _ e) by done; try done; try lia.
  + by apply distinct_delete.
  + apply NoDup_cons. split; [|done]. intros Hin. by apply (Ha _ Hin).
  + intros v [->|Hv]%elem_of_cons; [set_solver|]. specialize (Ha v Hv). set_solver.
  + replace ({[uid e]} ∪ list_to_set (owners rest) ∪ live_uids (sandbox_map r) ∖ {[uid e]})
      with (list_to_set (owners rest) ∪ live_uids (sandbox_map r)); [done|].
    apply set_eq. intros v. rewrite !elem_of_union, elem_of_difference, elem_of_singleton.
    destruct (decide (v = uid e)) as [->|]; [|tauto]. tauto.
Qed.

Lemma act_preserves n r t r' t' rest :
  act r t r' t' -> races_ok n r (t :: rest) -> races_ok n r' (t' :: rest).
Proof.
  intros Hact Hok. pose proof (total_bound rest) as Htot. pose proof (within_capacity _ _ _ Hok) as Hcap.
  destruct Hact; simpl in Hcap.
  - (* fetch_add *)
    pose proof (wrap_up _ _ _ _ Hok eq_refl) as Hw. pose proof (reserved_total _ _ _ Hok) as Hr. simpl in Hr.
    eapply races_slot; try exact Hok; simpl; try done; rewrite ?Hw; try lia.
    destruct (Z.leb_spec (capacity r) (reserved r)); simpl; lia.
  - pose proof (wrap_down _ _ _ _ Hok eq_refl) as Hw.
    eapply races_slot; try exact Hok; simpl; try done; rewrite ?Hw; lia.
  - by eapply take_preserves.
  - pose proof (wrap_down _ _ _ _ Hok eq_refl) as Hw.
    eapply races_slot; try exact Hok; simpl; try done; rewrite ?Hw; lia.
  - subst u. by apply insert_preserves.
  - eapply races_slot; try exact Hok; simpl; try done; lia.
  - pose proof (wrap_down _ _ _ _ Hok eq_refl) as Hw.
    eapply races_slot; try exact Hok; simpl; try done; rewrite ?Hw; lia.
  - eapply races_drop_uid; [exact Hok|done|done|]. intros. by apply pool_ok_release.
  - by apply remove_preserves.
  - eapply races_slot; try exact Hok; simpl; try done; lia.
  - pose proof (wrap_down _ _ _ _ Hok eq_refl) as Hw.
    eapply races_slot; try exact Hok; simpl; try done; rewrite ?Hw; lia.
  - eapply races_drop_uid; [exact Hok|done|done|]. intros. by apply pool_ok_release.
  - eapply races_drop_uid; [exact Hok|done|done|]. intros. by apply pool_ok_quarantine.
Qed.

Lemma step_preserves n r ts r' ts' : step (r, ts) (r', ts') -> races_ok n r ts -> races_ok n r' ts'.
Proof.
  intros Hs Hok. inversion Hs as [? ? k t ? t' Hk Hact]; subst.
  destruct (insert_perm ts k t t' Hk) as (rest & H1 & H2).
  eapply races_perm; [symmetry; exact H2|]. eapply act_preserves; [exact Hact|].
  by eapply races_perm.
Qed.

Lemma steps_preserve n c c' : steps c c' -> races_ok n c.1 c.2 -> races_ok n c'.1 c'.2.
Proof.
  induction 1 as [|[r ts] [r' ts'] c'' Hs _ IH]; [done|]. simpl in *. intros. apply IH. by eapply step_preserves.
Qed.

Lemma races_start cap allow reserved n :
  0 <= cap -> cap + Z.of_nat n <= u64_max ->
  races_ok (Z.of_nat n) (empty_registry cap allow reserved) (replicate n Idle).
Proof.
  intros Hc Hn.
  assert (Hown : owners (replicate n Idle) = []) by (clear; induction n; [done|exact IHn]).
  assert (Htot : forall f, f Idle = 0 -> total f (replicate n Idle) = 0).
  { intros f Hf. clear - Hf. induction n; simpl; [done|]. lia. }
  assert (Hlive : live_uids ∅ = ∅).
  { apply set_eq. intros u. rewrite elem_of_live. split; [|set_solver].
    intros (i & e & Hi & _). by rewrite lookup_empty in Hi. }
  split; rewrite ?Hown; simpl; rewrite ?Hlive, ?Htot by done.
  - rewrite length_replicate. lia.
  - done.
  - rewrite map_size_empty. lia.
  - done.
  - constructor.
  - set_solver.
  - rewrite union_empty_r_L. apply pool_ok_new.
Qed.

(** C7: no interleaving of creates and deletes over-commits the host or shares a
    uid: from a fresh registry, however [n] threads take turns at their atomic
    steps, the sandboxes on the map together with those being made or torn down
    hold at most [capacity] slots, their uids are pairwise different and none of
    them is free for reuse, and once every thread is idle the slots counted are
    exactly the live sandboxes.  (A new sandbox is taken to have an id that is not on
    the map: the code inserts its 64 random bits without comparing, and an insertion
    over another sandbox would drop that one from the map.) *)
Theorem races_safe cap allow taken n r ts :
  0 <= cap -> cap + Z.of_nat n <= u64_max ->
  steps (empty_registry cap allow taken, replicate n Idle) (r, ts) ->
  Z.of_nat (size (sandbox_map r)) + total holds ts <= cap
  /\ uids_distinct (sandbox_map r) /\ NoDup (owners ts)
  /\ (forall u, u ∈ owners ts -> u ∉ live_uids (sandbox_map r))
  /\ (forall u, u ∈ free (uids r) -> u ∉ owners ts /\ u ∉ live_uids (sandbox_map r))
  /\ (Forall (eq Idle) ts -> reserved r = Z.of_nat (size (sandbox_map r))).
Proof.
  intros Hc Hn Hsteps.
  assert (Hcap : forall c c', steps c c' -> capacity c'.1 = capacity c.1).
  { clear. induction 1 as [|c [r' ts'] c'' Hs _ IH]; [done|]. rewrite IH. simpl.
    inversion Hs as [? ? ? ? ? ? ? Hact]; subst. simpl. destruct Hact; try done.
    lazymatch goal with H : take_locked _ = _ |- _ => unfold take_locked in H; simpl in H;
      destruct (take_uid _) as [? [? ?]]; by simplify_eq end. }
  apply Hcap in Hsteps as Hcap'. simpl in Hcap'.
  destruct (steps_preserve _ _ _ Hsteps (races_start cap allow taken n Hc Hn)) as [_ Hr Hb Hd Ho Ha Hk].
  simpl in *. rewrite <- Hcap'. split_and!; try done.
  - intros u Hu. pose proof (free_live _ _ Hk u Hu) as Hnot.
    rewrite not_elem_of_union, elem_of_list_to_set in Hnot. tauto.
  - intros Hidle. rewrite Hr. assert (Ht : total counts ts = 0); [|lia].
    clear - Hidle. induction Hidle as [|t ts <- _ IH]; simpl; [done|]. lia.
Qed.

(** ** [create] and [delete] are made of these steps *)

(** One thread's pieces in a row. *)
Inductive acts : SandboxRegistry -> thread -> SandboxRegistry -> thread -> Prop :=
| acts_nil r t : acts r t r t
| acts_cons r t r1 t1 r2 t2 : act r t r1 t1 -> acts r1 t1 r2 t2 -> acts r t r2 t2.

Lemma acts_steps r t r' t' ts k :
  acts r t r' t' -> ts !! k = Some t -> steps (r, ts) (r', <[k := t']> ts).
Proof.
  intros Ha. revert ts. induction Ha as [r t|r t r1 t1 r2 t2 Hact _ IH]; intros ts Hk.
  - rewrite list_insert_id by done. constructor.
  - econstructor; [by eapply step_thread|].
    specialize (IH (<[k := t1]> ts)). rewrite list_insert_insert in IH.
    rewrite decide_True in IH by done. apply IH. apply list_lookup_insert_eq. by eapply lookup_lt_Some.
Qed.

Lemma acts_last r t r1 t1 r2 t2 : acts r t r1 t1 -> act r1 t1 r2 t2 -> acts r t r2 t2.
Proof. induction 1; intros; econstructor; eauto using acts_nil. Qed.

Lemma create_run r h env0 mp mm idle :
  create env0 mp mm idle (r, h) =
    let '(granted, r0) := reserve_slot r in
    if negb granted then (Ok (Err Full), (unreserve r0, h))
    else match take_locked (r0, h) with
         | (Err e, s) => (Err e, s)
         | (Ok None, (r1, h1)) => (Ok (Err Full), (unreserve r1, h1))
         | (Ok (Some u), (r1, h1)) =>
             match create_inner u env0 mp mm idle (r1, h1) with
             | (Ok e, s) => (Ok (Ok e), s)
             | (Err err, (r2, h2)) =>
                 (Ok (Err (CreateIo err)), (set_uids (release u (uids (unreserve r2))) (unreserve r2), h2))
             end
         end.
Proof.
  unfold create, io_bind at 1, update at 1. cbn [fst snd]. destruct (reserve_slot r) as [[] r0]; [|done].
  cbn [negb]. unfold io_bind at 1. destruct (take_locked (r0, h)) as [[[u|]|e] [r1 h1]]; try done.
  unfold io_bind at 1, io_try. by destruct (create_inner u env0 mp mm idle (r1, h1)) as [[e|err] [r2 h2]].
Qed.

Lemma create_acts r h env0 mp mm idle res r' h' :
  create env0 mp mm idle (r, h) = (Ok res, (r', h')) ->
  match res with Ok e => sandbox_map r !! id e = None | Err _ => True end ->
  acts r Idle r' Idle.
Proof.
  rewrite create_run. intros Hrun Hfresh.
  eapply acts_cons; [apply act_reserve|]. destruct (reserve_slot r) as [granted r0] eqn:Hres. cbn [fst snd].
  assert (Hmap0 : sandbox_map r0 = sandbox_map r) by (unfold reserve_slot in Hres; by simplify_eq).
  destruct granted; cbn [negb] in Hrun.
  2:{ injection Hrun as _ <- _. eapply acts_cons; [apply act_full|apply acts_nil]. }
  destruct (take_locked (r0, h)) as [[o|e] [r1 h1]] eqn:Htake; [|done].
  eapply acts_cons; [by eapply act_take|].
  assert (Hmap1 : sandbox_map r1 = sandbox_map r0).
  { unfold take_locked in Htake. destruct (take_uid _) as [? [? ?]]. by simplify_eq. }
  destruct o as [u|].
  2:{ injection Hrun as _ <- _. eapply acts_cons; [apply act_no_uid|apply acts_nil]. }
  pose proof (create_inner_spec u env0 mp mm idle r1 h1) as Hinner. unfold wp in Hinner.
  destruct (create_inner _ _ _ _ _ _) as [[e|err] [r2 h2]]; cbn [fst snd] in *.
  - injection Hrun as <- <- <-. destruct Hinner as (Hmade & t & -> & Hcells).
    eapply acts_cons; [apply act_insert with (t := t)|apply acts_nil]; [|by destruct Hmade|done].
    by rewrite Hmap1, Hmap0.
  - subst r2. injection Hrun as _ <- _.
    eapply acts_cons; [apply act_fail|]. eapply acts_cons; [apply act_give_back|].
    eapply acts_cons; [apply act_release|apply acts_nil].
Qed.

Lemma delete_run r h i e :
  sandbox_map r !! i = Some e ->
  exists p res h', delete i (r, h) = (Ok res, (set_uids p (unreserve (set_deleted (deleted e) true (remove_entry i r).2)), h'))
    /\ (p = release (uid e) (uids r) \/ p = quarantine (uid e) (uids r)).
Proof.
  intros He. unfold delete, io_bind at 1, update at 1. cbn [fst snd].
  replace (remove_entry i r) with (Some e, (remove_entry i r).2) by (unfold remove_entry; by rewrite He).
  unfold io_bind at 1, teardown, change.
  rewrite !io_bind_modify. unfold io_bind at 1, on_snd at 1, io_lens at 1. cbn [fst snd].
  destruct (kill_uid_ok (uid e) h) as (b & h1 & ->).
  unfold io_bind at 1, io_try, on_snd, io_lens. cbn [fst snd].
  destruct (path_sys (home e) (RemoveDirAll (home e)) h1) as [[[]|err] h2]; destruct b; cbn [fst snd negb];
    (eexists _, _, _; split; [reflexivity|]; simpl; auto).
Qed.

Lemma delete_acts r h i res r' h' :
  delete i (r, h) = (Ok res, (r', h')) -> sandbox_map r !! i <> None -> acts r Idle r' Idle.
Proof.
  intros Hrun Hi. destruct (sandbox_map r !! i) as [e|] eqn:He; [clear Hi|done].
  destruct (delete_run r h i e He) as (p & res' & h2 & Hrun' & Hp). rewrite Hrun in Hrun'.
  injection Hrun' as _ -> _.
  eapply acts_cons; [by apply act_remove with (i := i)|].
  eapply acts_cons; [apply act_mark|]. eapply acts_cons; [apply act_free_slot|].
  destruct Hp as [-> | ->].
  - eapply acts_cons; [apply act_reuse|apply acts_nil].
  - eapply acts_cons; [apply act_quarantine|apply acts_nil].
Qed.

(** C22: what a request does is one of the interleaved runs: a call of [create]
    (whose random id is new) or of [delete] by one thread, whatever the others are
    doing, is a sequence of the atomic steps that ends with the same registry. *)
Theorem requests_are_steps r h r' h' ts k env0 mp mm idle i :
  ts !! k = Some Idle ->
  (forall res, create env0 mp mm idle (r, h) = (Ok res, (r', h')) ->
     match res with Ok e => sandbox_map r !! id e = None | Err _ => True end ->
     steps (r, ts) (r', ts))
  /\ (forall res, delete i (r, h) = (Ok res, (r', h')) -> sandbox_map r !! i <> None ->
     steps (r, ts) (r', ts)).
Proof.
  intros Hk. assert (Hid : <[k := Idle]> ts = ts) by (by apply list_insert_id).
  split; intros res Hrun Hpre; rewrite <- Hid at 2; eapply acts_steps; try exact Hk.
  - by eapply create_acts.
  - by eapply delete_acts.
Qed.

End Races.

Lemma races_safe_witness :
  exists r ts, clos_refl_trans_1n _ (step (K:=sim)) (empty_registry 1 true [], replicate 2 Idle) (r, ts)
    /\ Z.of_nat (size (sandbox_map r)) + total holds ts <= 1.
Proof.
  assert (Hs : clos_refl_trans_1n _ (step (K:=sim)) (empty_registry 1 true [], replicate 2 Idle)
    ((reserve_slot (empty_registry 1 true [])).2, <[0%nat := Reserved true]> (replicate 2 Idle))).
  { econstructor; [|constructor]. eapply step_thread; [reflexivity|].
    exact (act_reserve (empty_registry 1 true [])). }
  eexists _, _. split; [exact Hs|].
  apply (races_safe (K:=sim) 1 true [] 2 _ _ ltac:(lia) ltac:(unfold u64_max; lia) Hs).
Defined.

Lemma requests_are_steps_witness :
  exists r', clos_refl_trans_1n _ (step (K:=sim)) (sample_registry, [Idle]) (r', [Idle]).
Proof.
  destruct (delete (K:=sim) (lit "a") (sample_registry, sim_host boot)) as [o [r' h']] eqn:Hrun.
  exists r'. destruct o as [res|e].
  - apply (proj2 (requests_are_steps (K:=sim) sample_registry (sim_host boot) r' h' [Idle] 0 ∅ None None 0 (lit "a")
      eq_refl) res Hrun).
    simpl. rewrite lookup_singleton_eq. discriminate.
  - exfalso. destruct (delete_run (K:=sim) sample_registry (sim_host boot) (lit "a") sample_entry (lookup_singleton_eq _ _))
      as (p & res & h2 & Hrun2 & _). rewrite Hrun in Hrun2. discriminate.
Defined.
