(* ===== verification/Exec.v ===== *)
(** * src/exec.rs: commands and the process registry

    Parsing a command, spawning it, the registry of background processes and the
    handlers.  What the threads of one command do to each other (readers, waiter,
    killers, reaper) is in files ExecPipe and ExecRaces. *)

From Stdlib Require Import SpecFloat.
From S2P Require Import Prelude RustStd Json Net Http HttpResponse Kernel Host State Sandboxes.

(** Milliseconds. *)
Definition PING_INTERVAL : Z := 15 * 1000.
Definition OUTPUT_DRAIN_TIMEOUT : Z := 2 * 1000.
Definition OUTPUT_QUEUE_CHUNKS : nat := 64.
Definition MAX_FINISHED_PROCS : nat := 256.
Definition MAX_EXEC_BODY : Z := 16 * 1024 * 1024.

Definition QUOTE : ascii := "034"%char.
(** The double quotes of a literal, which is written with single ones. *)
Definition quoted (s : String.string) : str :=
  map (fun c => if eqc c "'"%char then QUOTE else c) (lit s).

Definition PING_CHUNK : str := quoted "{'event':'ping'}" ++ [LF].

Inductive Event : Type :=
| Stdout (data : str)
| Stderr (data : str)
| Exit (info : ExitInfo).

(** A value borrowed as a JSON [null] when absent. *)
Definition jint_opt {SJ : SerdeJson} (o : option Z) : Value Number := jopt jint o.
Definition jstr_opt {SJ : SerdeJson} (o : option str) : Value Number := jopt VString o.

Record ExecSpec {SJ : SerdeJson} : Type := mkExecSpec {
  argv : list str;
  spec_cmd : Value Number;
  spec_env : gmap str str;
  cwd : option str;
  timeout_secs : option spec_float;
  stdin : option str;
  background : bool;
  spec_tag : option str;
  spec_sandbox : option SandboxEntry;
}.

(** A command that runs: the child with its pid, and its handle. *)
Record SpawnedCommand : Type := mkSpawned {
  child_pid : Z;
  child_handle : ProcHandle;
}.

(** What a [recv_timeout] of the event channel gives. *)
Inductive recv : Type := Got (e : Event) | Timeout | Disconnected.

Section Exec.
Context {SJ : SerdeJson} {K : Kernel}.

Definition event_json (e : Event) : Value Number :=
  match e with
  | Stdout d => jobj [("event", VString (lit "stdout")); ("data", VString d)]%string
  | Stderr d => jobj [("event", VString (lit "stderr")); ("data", VString d)]%string
  | Exit info =>
      jobj [("event", VString (lit "exit")); ("exit_code", jint_opt (exit_code info));
            ("signal", jint_opt (signal info)); ("timed_out", VBool (timed_out info));
            ("duration_ms", jint (duration_ms info))]%string
  end.

Definition to_line (e : Event) : str := to_vec (event_json e) ++ [LF].

(** ** [ExecSpec::from_json] *)

(** src/main.rs: an object of strings, other values read as empty strings. *)
Definition json_string_map (value : Value Number) (key : str) : gmap str str :=
  match Json.get value key ≫= as_object with
  | Some fields =>
      fold_left (fun m f => <[f.1 := default [] (as_str f.2)]> m) fields ∅
  | None => ∅
  end.

Fixpoint string_items (items : list (Value Number)) : result (list str) str :=
  match items with
  | [] => Ok []
  | v :: rest =>
      let? s := ok_or (as_str v) (lit "cmd array items must be strings") in
      let? others := string_items rest in
      Ok (s :: others)
  end.

Definition parse_argv (shell : option bool) (cmd : option (Value Number)) : result (list str) str :=
  match shell, cmd with
  | Some true, Some (VString s) | None, Some (VString s) => Ok [lit "/bin/sh"; lit "-c"; s]
  | Some false, Some (VArray items) | None, Some (VArray items) =>
      let? argv := string_items items in
      match argv with
      | [] => Err (lit "cmd array must not be empty")
      | _ => Ok argv
      end
  | Some true, _ => Err (lit "shell=true requires 'cmd' to be a string")
  | Some false, _ => Err (lit "shell=false requires 'cmd' to be an array of strings")
  | None, _ => Err (lit "missing 'cmd' (string or array of strings)")
  end.

Definition from_json (body : Value Number) : result ExecSpec str :=
  let shell := Json.get body (lit "shell") ≫= as_bool in
  let? argv := parse_argv shell (Json.get body (lit "cmd")) in
  Ok {| argv := argv;
        spec_cmd := default VNull (Json.get body (lit "cmd"));
        spec_env := json_string_map body (lit "env");
        cwd := Json.get body (lit "cwd") ≫= as_str;
        timeout_secs := Json.get body (lit "timeout") ≫= as_f64;
        stdin := Json.get body (lit "stdin") ≫= as_str;
        background := default false (Json.get body (lit "background") ≫= as_bool);
        spec_tag := Json.get body (lit "tag") ≫= as_str;
        spec_sandbox := None |}.

Definition in_sandbox (sandbox : option SandboxEntry) (spec : ExecSpec) : ExecSpec := {|
  argv := argv spec; spec_cmd := spec_cmd spec; spec_env := spec_env spec; cwd := cwd spec;
  timeout_secs := timeout_secs spec; stdin := stdin spec; background := background spec;
  spec_tag := spec_tag spec; spec_sandbox := sandbox;
|}.

(** ** Handles *)

Abbreviation PR := (ProcRegistry * Host)%type (only parsing).

Definition is_running (h : ProcHandle) (r : ProcRegistry) : bool :=
  default false (running_cells r !! running h).
Definition exit_of (p : Proc) (r : ProcRegistry) : option ExitInfo :=
  default None (exit_cells r !! exit_cell p).
Definition is_finished (r : ProcRegistry) (p : Proc) : bool := bool_decide (is_Some (exit_of p r)).

(** [ProcHandle::open]: a pidfd when the kernel has them. *)
Definition handle_open (pid : Z) : io PR ProcHandle :=
  fd <- on_snd (io_try (hsys (PidfdOpen pid))) ;;
  cell <- io_gets (fun s => proc_next_cell s.1) ;;
  io_modify (fun s => (mkProcRegistry (procs s.1) (seq s.1) (active s.1) (exit_cells s.1)
                         (<[cell := true]> (running_cells s.1)) (cell + 1), s.2)) ;;;
  io_ret {| handle_pid := pid; pidfd := match fd with Ok fd => Some fd | Err _ => None end; running := cell |}.

Definition signal_leader (h : ProcHandle) (sig : Z) : io PR bool :=
  r <- on_snd (io_try (match pidfd h with
                       | Some fd => hsys (PidfdSendSignal fd sig)
                       | None => hsys (Kill (handle_pid h) sig)
                       end)) ;;
  io_ret (is_ok r).

(** Under the mutex [running].  The flag is [timed_out], when the caller has one. *)
Definition kill_tree (h : ProcHandle) (sig : Z) (flag : option bool) : io PR (bool * option bool) :=
  running <- io_gets (fun s => is_running h s.1) ;;
  if negb running then io_ret (false, flag)
  else
    let flag := match flag with Some _ => Some true | None => None end in
    on_snd (hsys_ (Kill (- handle_pid h) sig)) ;;;
    killed <- signal_leader h sig ;;
    io_ret (killed, flag).

(** [Drop for ProcHandle]. *)
Definition drop_handle (h : ProcHandle) : io Host unit :=
  match pidfd h with Some fd => hsys_ (Close fd) | None => io_ret tt end.

(** ** The registry *)

Fixpoint finished_indices (r : ProcRegistry) (i : nat) (l : list Proc) : list nat :=
  match l with
  | [] => []
  | p :: rest => (if is_finished r p then [i] else []) ++ finished_indices r (S i) rest
  end.

Fixpoint retain_indices (doomed : list nat) (i : nat) (l : list Proc) : list Proc :=
  match l with
  | [] => []
  | p :: rest =>
      (if bool_decide (i ∈ doomed) then [] else [p]) ++ retain_indices doomed (S i) rest
  end.

Definition insert (p : Proc) (r : ProcRegistry) : ProcRegistry :=
  let l := procs r ++ [p] in
  let finished := finished_indices r 0 l in
  if (MAX_FINISHED_PROCS <? length finished)%nat then
    let drop_count := (length finished - MAX_FINISHED_PROCS)%nat in
    set_procs (retain_indices (take drop_count finished) 0 l) r
  else set_procs l r.

Definition alloc_id (r : ProcRegistry) : str * ProcRegistry :=
  (lit "p-" ++ show (seq r), set_seq (wrap_u64 (seq r + 1)) r).

(** Owned by the sandbox, or any process when none is given. *)
Definition in_scope (sandbox : option str) (p : Proc) : bool :=
  match sandbox with None => true | Some _ => bool_decide (sandbox_id p = sandbox) end.

Fixpoint remove_first (f : Proc -> bool) (l : list Proc) : option (Proc * list Proc) :=
  match l with
  | [] => None
  | p :: rest => if f p then Some (p, rest)
                 else match remove_first f rest with
                      | Some (q, rest') => Some (q, p :: rest')
                      | None => None
                      end
  end.

Definition remove_by_id (id : str) (sandbox : option str) (r : ProcRegistry) : option Proc * ProcRegistry :=
  match remove_first (fun p => eqs (proc_id p) id && in_scope sandbox p) (procs r) with
  | Some (p, l) => (Some p, set_procs l r)
  | None => (None, r)
  end.

Definition remove_for_sandbox (id : str) (r : ProcRegistry) : ProcRegistry :=
  set_procs (List.filter (fun p => negb (bool_decide (sandbox_id p = Some id))) (procs r)) r.

Definition active_ops (r : ProcRegistry) : Z := active r.
Definition begin_op (r : ProcRegistry) : ProcRegistry := set_active (wrap_u64 (active r + 1)) r.
Definition end_op (r : ProcRegistry) : ProcRegistry := set_active (wrap_u64 (active r - 1)) r.

Definition running_count (r : ProcRegistry) : Z :=
  Z.of_nat (length (List.filter (fun p => negb (is_finished r p)) (procs r))).
Definition running_count_for (id : str) (r : ProcRegistry) : Z :=
  Z.of_nat (length (List.filter
    (fun p => bool_decide (sandbox_id p = Some id) && negb (is_finished r p)) (procs r))).

Definition proc_json (r : ProcRegistry) (p : Proc) : Value Number :=
  jobj [("id", VString (proc_id p)); ("pid", jint (pid p)); ("cmd", cmd_json p); ("tag", jstr_opt (tag p));
        ("started_at_ms", jint (started_at p)); ("running", VBool (negb (is_finished r p)));
        ("exit_code", jint_opt (exit_of p r ≫= exit_code))]%string.

Definition list_processes (sandbox : option str) (r : ProcRegistry) : Value Number :=
  VArray (map (proc_json r) (List.filter (in_scope sandbox) (procs r))).

(** ** Spawning *)

Definition build_command (spec : ExecSpec) : Command :=
  let program := match argv spec with a :: _ => a | [] => [] end in
  let arguments := match argv spec with _ :: rest => rest | [] => [] end in
  match spec_sandbox spec with
  | Some sbx =>
      mkCommand program arguments (bool_decide (is_Some (stdin spec))) (Some 0)
        true (base_env sbx ++ map_to_list (spec_env spec)) (Some (uid sbx)) (Some (uid sbx))
        (Some (pre_exec_isolation sbx)) (Some (default (home sbx) (cwd spec)))
  | None =>
      mkCommand program arguments (bool_decide (is_Some (stdin spec))) (Some 0)
        false (map_to_list (spec_env spec)) None None None (cwd spec)
  end.

Definition track_owned (pid : Z) (h : Host) : Host :=
  {| world := world h; ABI := ABI h; RULES := RULES h; OWNED_PIDS := {[ pid ]} ∪ OWNED_PIDS h |}.
Definition untrack_owned (pid : Z) (h : Host) : Host :=
  {| world := world h; ABI := ABI h; RULES := RULES h; OWNED_PIDS := OWNED_PIDS h ∖ {[ pid ]} |}.

(** The [deleted] mutex of the sandbox is held to the end. *)
Definition spawn (spec : ExecSpec) : io State (result SpawnedCommand str) :=
  deleted <- io_gets (fun s => match spec_sandbox spec with
                               | Some sbx => is_deleted sbx (sandboxes s)
                               | None => false
                               end) ;;
  if deleted then io_ret (Err (lit "sandbox has been deleted"))
  else
    let command := build_command spec in
    r <- io_try (with_host (hsys (Spawn command))) ;;
    match r with
    | Err e => io_ret (Err (lit "failed to spawn '" ++ program command ++ lit "': " ++ err_text e))
    | Ok pid =>
        with_host (io_modify (track_owned pid)) ;;;
        handle <- with_procs (handle_open pid) ;;
        (match stdin spec with
         | Some input => with_host (hsys_ (FeedStdin pid input))
         | None => io_ret tt
         end) ;;;
        io_ret (Ok {| child_pid := pid; child_handle := handle |})
    end.

(** ** Waiting *)

(** [secs as i64] of an [f64]: truncated and saturated. *)
Definition f64_to_i64 (x : spec_float) : Z :=
  let clamp z := Z.max i64_min (Z.min i64_max z) in
  match x with
  | S754_zero _ | S754_nan => 0
  | S754_infinity neg => if neg then i64_min else i64_max
  | S754_finite neg m e =>
      let v := if 0 <=? e then Z.shiftl (Zpos m) e else Z.shiftr (Zpos m) (- e) in
      clamp (if neg then - v else v)
  end.

Definition THOUSAND : spec_float := binary_normalize 53 1024 1000 0 false.
Definition timeout_ms (secs : spec_float) : Z := f64_to_i64 (SFmul 53 1024 secs THOUSAND).

(** How long the watcher sleeps before it kills the command. *)
Definition watcher_delay (secs : spec_float) (started_at now : Z) : Z :=
  let deadline := wrap_i64 (started_at + timeout_ms secs) in
  Z.max 0 (wrap_i64 (deadline - now)).

Definition status_code (s : ExitStatus) : option Z := match s with Exited c => Some c | Signaled _ => None end.
Definition status_signal (s : ExitStatus) : option Z := match s with Exited _ => None | Signaled n => Some n end.

Definition exit_info (status : result ExitStatus io_error) (timed_out : bool) (duration : Z) : ExitInfo :=
  match status with
  | Ok s => {| exit_code := status_code s; signal := status_signal s; timed_out := timed_out; duration_ms := duration |}
  | Err _ => {| exit_code := None; signal := None; timed_out := false; duration_ms := duration |}
  end.

(** [wait_and_report] once the peek has returned: reap under the mutex, note that
    the command no longer runs, forget its pid. *)
Definition reap (command : SpawnedCommand) (started_at : Z) (timed_out : bool) : io PR ExitInfo :=
  status <- on_snd (io_try (hsys (WaitChild (child_pid command)))) ;;
  io_modify (fun s => (set_running (running (child_handle command)) false s.1, s.2)) ;;;
  io_modify (fun s => (s.1, untrack_owned (child_pid command) s.2)) ;;;
  now <- on_snd hnow ;;
  io_ret (exit_info status timed_out (wrap_i64 (now - started_at))).

(** The peek that leaves a zombie: repeated while it is interrupted, at most [n]
    times here. *)
Fixpoint wait_peek (n : nat) (pid : Z) : io Host unit :=
  match n with
  | O => io_ret tt
  | S n' =>
      rc <- io_try (hsys (WaitidPeek pid)) ;;
      match rc with
      | Ok _ => io_ret tt
      | Err e => if bool_decide (err_kind e = Interrupted) then wait_peek n' pid else io_ret tt
      end
  end.

(** The thread of a command up to its last event; the watcher and the output readers
    are in files ExecWatch and ExecPipe. *)
Definition wait_and_report (n : nat) (command : SpawnedCommand) (started_at : Z) (timed_out : bool) : io PR Event :=
  on_snd (wait_peek n (child_pid command)) ;;;
  info <- reap command started_at timed_out ;;
  io_ret (Exit info).

(** [pump_background] on the events it receives: only the exit is kept. *)
Fixpoint pump_background (p : Proc) (rx : list Event) (r : ProcRegistry) : ProcRegistry :=
  match rx with
  | [] => r
  | Exit info :: _ => set_exit (exit_cell p) (Some info) r
  | _ :: rest => pump_background p rest r
  end.

(** One tick of [spawn_orphan_reaper], of at most [n] reaps, under the lock on
    [OWNED_PIDS]. *)
Fixpoint reaper_tick (n : nat) : io Host unit :=
  match n with
  | O => io_ret tt
  | S n' =>
      owned <- io_gets OWNED_PIDS ;;
      peek <- io_try (hsys WaitidPeekAny) ;;
      match peek with
      | Err _ => io_ret tt
      | Ok pid =>
          if pid =? 0 then io_ret tt
          else if bool_decide (pid ∈ owned) then io_ret tt
          else
            r <- io_try (hsys (WaitPid pid)) ;;
            match r with
            | Err _ => io_ret tt
            | Ok got => if got <=? 0 then io_ret tt else reaper_tick n'
            end
      end
  end.
Definition REAPS_PER_TICK : nat := 256.

(** The thread of [spawn_orphan_reaper], for some ticks. *)
Fixpoint orphan_reaper (ticks : nat) : io Host unit :=
  match ticks with
  | O => io_ret tt
  | S ticks' => reaper_tick REAPS_PER_TICK ;;; hsys_ (Sleep 1000) ;;; orphan_reaper ticks'
  end.

(** ** Handlers *)

Definition with_registry {A} (f : ProcRegistry -> A * ProcRegistry) : io State A := fun s =>
  let '(a, r) := f (proc_registry s) in (Ok a, set_proc_registry r s).

Definition touch_activity : io State unit :=
  now <- with_host hnow ;; io_modify (set_last_activity now).

(** The channel closes when the list of outcomes ends. *)
Fixpoint stream_events (rx : list recv) : io Ctx unit :=
  match rx with
  | [] | Disconnected :: _ => io_ret tt
  | Got event :: rest =>
      with_resp (chunk (to_line event)) ;;;
      with_state touch_activity ;;;
      match event with
      | Exit _ => io_ret tt
      | _ => stream_events rest
      end
  | Timeout :: rest =>
      with_resp (chunk PING_CHUNK) ;;;
      stream_events rest
  end.

Definition start_background (spec : ExecSpec) : io State (result Proc str) :=
  started_at <- with_host hnow ;;
  spawned <- spawn spec ;;
  match spawned with
  | Err e => io_ret (Err e)
  | Ok command =>
      id <- with_registry alloc_id ;;
      cell <- with_registry (fun r => (proc_next_cell r,
        mkProcRegistry (procs r) (seq r) (active r) (<[proc_next_cell r := None]> (exit_cells r))
          (running_cells r) (proc_next_cell r + 1))) ;;
      let proc := {| proc_id := id; pid := child_pid command; handle := child_handle command;
                     tag := spec_tag spec; cmd_json := spec_cmd spec; started_at := started_at;
                     sandbox_id := State.id <$> spec_sandbox spec; exit_cell := cell |} in
      with_registry (fun r => (tt, insert proc r)) ;;;
      io_ret (Ok proc)
  end.

(** The body as a spec, or the reply that refuses it. *)
Definition parse_spec (body : str) : result ExecSpec str :=
  match from_slice body with
  | Err e => Err (lit "invalid JSON body: " ++ e)
  | Ok json => from_json json
  end.

(** [_op], dropped when the handler returns, whatever it returns. *)
Definition with_op {A} (m : io Ctx A) : io Ctx A := fun c =>
  let run f c := set_state (set_proc_registry (f (proc_registry (state c))) (state c)) c in
  let '(r, c) := m (run begin_op c) in (r, run end_op c).

(** [rx] is what the command's channel gives while the handler listens. *)
Definition handle_exec (rx : list recv) (sandbox : option SandboxEntry) : io Ctx unit :=
  body <- with_body (read_body MAX_EXEC_BODY) ;;
  match parse_spec body with
  | Err e => with_resp (error 400 e)
  | Ok spec =>
      let spec := in_sandbox sandbox spec in
      if background spec then
        r <- with_state (start_background spec) ;;
        match r with
        | Ok p => with_resp (json 200 (jobj [("id", VString (proc_id p)); ("pid", jint (pid p));
                                             ("tag", jstr_opt (tag p))]%string))
        | Err e => with_resp (error 400 e)
        end
      else
        ctx_host hnow ;;;
        spawned <- with_state (spawn spec) ;;
        match spawned with
        | Err e => with_resp (error 400 e)
        | Ok command =>
            with_op (
              with_resp (start_stream 200 (lit "application/x-ndjson")) ;;;
              with_resp (chunk (to_vec (jobj [("event", VString (lit "start"));
                                              ("pid", jint (child_pid command))]%string) ++ [LF])) ;;;
              stream_events rx)
        end
  end.

Definition handle_process_start (sandbox : option SandboxEntry) : io Ctx unit :=
  body <- with_body (read_body MAX_EXEC_BODY) ;;
  match parse_spec body with
  | Err e => with_resp (error 400 e)
  | Ok spec =>
      r <- with_state (start_background (in_sandbox sandbox spec)) ;;
      match r with
      | Ok p => with_resp (json 200 (jobj [("id", VString (proc_id p)); ("pid", jint (pid p));
                                           ("cmd", cmd_json p); ("tag", jstr_opt (tag p))]%string))
      | Err e => with_resp (error 400 e)
      end
  end.

Definition is_opaque_process_id (id : str) : bool :=
  match strip_prefix (lit "p-") id with
  | Some n => negb (is_empty n) && forallb is_ascii_digit n
  | None => false
  end.

Definition not_an_id_message (id : str) : str :=
  lit "'" ++ id ++ lit "' is not a process id. Use the opaque `id` from the create response (e.g. 'p-3'), not the OS pid.".

Definition handle_process_delete (id : str) (sandbox : option str) : io Ctx unit :=
  if negb (is_opaque_process_id id) then with_resp (error 400 (not_an_id_message id))
  else
    removed <- with_state (with_registry (remove_by_id id sandbox)) ;;
    match removed with
    | None => with_resp (json 200 (jobj [("id", VString id); ("killed", VBool false)]%string))
    | Some p =>
        killed <- with_state (with_procs (kill_tree (handle p) SIGKILL None)) ;;
        with_resp (json 200 (jobj [("id", VString id); ("killed", VBool killed.1)]%string))
    end.

End Exec.
