(* ===== verification/ExecFacts.v ===== *)
(** * src/exec.rs: what commands and the registry do

    Parsing, the registry's bound, isolation of a sandboxed command, and the
    streamed reply. *)

From Stdlib Require Import SpecFloat Relations.Relation_Operators.
From S2P Require Import Prelude RustStd StrFacts Json Net Http HttpResponse Kernel Sim Wp Host Landlock State.
From S2P Require Import Uids UidsFacts Sandboxes SandboxFacts SandboxRaces HttpRead Exec.

(** ** Parsing *)

Section Parsing.
Context {SJ : SerdeJson} {SL : SerdeJsonLaws SJ}.

Lemma string_items_ok items ss : string_items items = Ok ss -> items = map VString ss.
Proof.
  revert ss. induction items as [|v items IH]; intros ss; simpl; [by intros [= <-]|].
  destruct (as_str v) as [s|] eqn:Hv; simpl; [|done].
  destruct (string_items items) as [others|]; [|done]. intros [= <-]. simpl.
  f_equal; [by apply as_str_other|by apply IH].
Qed.

(** C38: an accepted command has an argument vector that can be spawned (never empty)
    and means what its JSON says: a string is run by the shell, an array of strings
    is run as it is, [shell] when given decides which of the two is required, and
    the [cmd] value is kept as it was sent. *)
Theorem from_json_command body spec :
  from_json body = Ok spec ->
  argv spec <> [] /\ Json.get body (lit "cmd") = Some (spec_cmd spec) /\
  let shell := Json.get body (lit "shell") ≫= as_bool in
  ((shell <> Some false /\ exists s, spec_cmd spec = VString s /\ argv spec = [lit "/bin/sh"; lit "-c"; s])
   \/ (shell <> Some true /\ spec_cmd spec = VArray (map VString (argv spec)))).
Proof.
  unfold from_json. set (shell := Json.get body (lit "shell") ≫= as_bool). cbn zeta.
  destruct (parse_argv shell (Json.get body (lit "cmd"))) as [a|e] eqn:Ha; [|done]. intros [= <-]. simpl.
  assert (Hitems : forall items, match string_items items with
      | Ok [] => Err (lit "cmd array must not be empty") | Ok l => Ok l | Err e => Err e end = Ok a ->
      a <> [] /\ VArray items = VArray (map VString a)).
  { intros items. destruct (string_items items) as [[|x l]|] eqn:Hs; [done| |done].
    intros [= <-]. split; [done|]. by rewrite (string_items_ok _ _ Hs). }
  unfold parse_argv in Ha.
  destruct shell as [[]|], (Json.get body (lit "cmd")) as [[| | |s|items|]|]; try done; simpl.
  all: try (injection Ha as <-; split_and!; [done|done|left; split; [done|eauto]]).
  all: destruct (Hitems items Ha) as [Hne Heq]; split_and!; [done|done|right; by split].
Qed.

End Parsing.

(** ** The registry *)

Section Registry.
Context {SJ : SerdeJson}.
Implicit Types (r : ProcRegistry) (l : list Proc).

Lemma retain_none d i l : (forall j, j ∈ d -> (j < i)%nat) -> retain_indices d i l = l.
Proof.
  revert i. induction l as [|p l IH]; intros i Hd; simpl; [done|].
  rewrite bool_decide_false by (intros Hin; apply Hd in Hin; lia). simpl. f_equal.
  apply IH. intros j Hj. apply Hd in Hj. lia.
Qed.

Lemma finished_indices_bound r i l j : j ∈ finished_indices r i l -> (i <= j)%nat.
Proof.
  revert i. induction l as [|p l IH]; intros i; simpl; [set_solver|].
  rewrite elem_of_app. intros [H|H]; [|apply IH in H; lia].
  destruct (is_finished r p); [|set_solver]. apply list_elem_of_singleton in H. lia.
Qed.

Lemma finished_indices_length r i l :
  length (finished_indices r i l) = length (List.filter (is_finished r) l).
Proof.
  revert i. induction l as [|p l IH]; intros i; simpl; [done|].
  rewrite length_app, IH. by destruct (is_finished r p).
Qed.

Lemma retain_below d j i l : (j < i)%nat -> retain_indices (j :: d) i l = retain_indices d i l.
Proof.
  revert i. induction l as [|p l IH]; intros i Hj; simpl; [done|]. rewrite IH by lia. f_equal.
  destruct (decide (i ∈ d)) as [Hd|Hd].
  - rewrite !bool_decide_true; [done|done|set_solver].
  - rewrite !bool_decide_false; [done|done|]. rewrite not_elem_of_cons. split; [lia|done].
Qed.

(** Dropping the first [k] finished processes. *)
Lemma retain_spec r k i l :
  let kept := retain_indices (take k (finished_indices r i l)) i l in
  sublist kept l
  /\ List.filter (fun p => negb (is_finished r p)) kept = List.filter (fun p => negb (is_finished r p)) l
  /\ List.filter (is_finished r) kept = drop k (List.filter (is_finished r) l).
Proof.
  revert k i. induction l as [|p l IH]; intros k i; simpl.
  { rewrite drop_nil. split_and!; [constructor|done|done]. }
  destruct (is_finished r p) eqn:Hp; simpl.
  - destruct k as [|k]; simpl.
    + rewrite retain_none by (intros j Hj; by apply not_elem_of_nil in Hj).
      cbn [List.filter app]. rewrite Hp. cbn. split_and!; done.
    + rewrite bool_decide_true by set_solver. simpl. rewrite retain_below by lia.
      destruct (IH k (S i)) as (H1 & H2 & H3). split_and!; [by constructor|done|done].
  - rewrite bool_decide_false.
    2:{ intros Hin. apply elem_of_take in Hin as (n & Hn & _). apply list_elem_of_lookup_2 in Hn.
        apply finished_indices_bound in Hn. lia. }
    simpl. rewrite Hp. simpl. destruct (IH k (S i)) as (H1 & H2 & H3).
    split_and!; [by constructor|by f_equal|done].
Qed.

(** The registry is bounded without forgetting anything that runs: inserting a
    process keeps every process that has not finished and the order of all of them,
    drops the oldest finished ones only, and leaves the newest 256 of those. *)
Theorem insert_bounded p r :
  let l := procs r ++ [p] in
  let kept := procs (insert p r) in
  sublist kept l
  /\ List.filter (fun q => negb (is_finished r q)) kept = List.filter (fun q => negb (is_finished r q)) l
  /\ List.filter (is_finished r) kept
     = drop (length (List.filter (is_finished r) l) - MAX_FINISHED_PROCS) (List.filter (is_finished r) l)
  /\ (length (List.filter (is_finished r) kept) <= MAX_FINISHED_PROCS)%nat.
Proof.
  intros l kept. unfold kept, insert. fold l. rewrite finished_indices_length.
  destruct (Nat.ltb_spec MAX_FINISHED_PROCS (length (List.filter (is_finished r) l))) as [Hlt|Hle].
  - simpl. destruct (retain_spec r (length (List.filter (is_finished r) l) - MAX_FINISHED_PROCS) 0 l) as (H1 & H2 & H3).
    split_and!; [done..|]. rewrite H3, length_drop. lia.
  - simpl. split_and!; [done|done| |done].
    by replace (length _ - MAX_FINISHED_PROCS)%nat with 0%nat by lia.
Qed.

Lemma remove_first_spec f l :
  match remove_first f l with
  | Some (p, l') => exists pre post, l = pre ++ p :: post /\ l' = pre ++ post /\ f p = true
      /\ Forall (fun q => f q = false) pre
  | None => Forall (fun q => f q = false) l
  end.
Proof.
  induction l as [|p l IH]; simpl; [done|]. destruct (f p) eqn:Hp.
  - by exists [], l.
  - destruct (remove_first f l) as [[q l']|].
    + destruct IH as (pre & post & -> & -> & Hq & Hf). exists (p :: pre), post. split_and!; [done..|].
      by constructor.
    + by constructor.
Qed.

(** C33: process ids do not cross sandboxes: removing by id under a sandbox removes
    the first process with that id which the sandbox owns and nothing else, and
    otherwise changes nothing; listing shows that sandbox's processes only; and
    forgetting a sandbox drops exactly its own. *)
Theorem registry_scoped i s r :
  match remove_by_id i (Some s) r with
  | (Some p, r') => proc_id p = i /\ sandbox_id p = Some s
      /\ exists pre post, procs r = pre ++ p :: post /\ r' = set_procs (pre ++ post) r
         /\ Forall (fun q => ~ (proc_id q = i /\ sandbox_id q = Some s)) pre
  | (None, r') => r' = r /\ Forall (fun q => ~ (proc_id q = i /\ sandbox_id q = Some s)) (procs r)
  end
  /\ list_processes (Some s) r = VArray (map (proc_json r) (List.filter (fun p => bool_decide (sandbox_id p = Some s)) (procs r)))
  /\ (forall p, p ∈ procs (remove_for_sandbox s r) <-> p ∈ procs r /\ sandbox_id p <> Some s).
Proof.
  assert (Hno : forall q, eqs (proc_id q) i && in_scope (Some s) q = false ->
                  ~ (proc_id q = i /\ sandbox_id q = Some s)).
  { intros q Hq [H1 H2]. unfold in_scope in Hq. rewrite H1, eqs_refl, bool_decide_true in Hq; done. }
  split_and!; [|done|].
  - unfold remove_by_id.
    pose proof (remove_first_spec (fun p => eqs (proc_id p) i && in_scope (Some s) p) (procs r)) as Hspec.
    destruct (remove_first _ _) as [[p l]|].
    + destruct Hspec as (pre & post & Hl & -> & Hp & Hf). apply andb_prop in Hp as [H1 H2].
      apply eqs_true in H1. apply bool_decide_eq_true in H2. split_and!; [done..|].
      exists pre, post. split_and!; [done..|]. eapply Forall_impl; [exact Hf|]. exact Hno.
    + split; [done|]. eapply Forall_impl; [exact Hspec|]. exact Hno.
  - intros p. unfold remove_for_sandbox. simpl. rewrite !list_elem_of_In, filter_In.
    rewrite negb_true_iff, bool_decide_eq_false. done.
Qed.

(** The ids the server assigns are the ones the route accepts: an id is of the
    accepted form exactly when it is p- and a number, an allocated one always is,
    and two allocations differ as long as the counter has not gone round. *)
Theorem allocated_ids_accepted i r :
  (is_opaque_process_id i = true <->
     exists n, i = lit "p-" ++ n /\ n <> [] /\ Forall (fun c => is_ascii_digit c = true) n)
  /\ (in_u64 (seq r) -> is_opaque_process_id (alloc_id r).1 = true)
  /\ (0 <= seq r < u64_max -> (alloc_id r).1 <> (alloc_id (alloc_id r).2).1).
Proof.
  assert (Hform : is_opaque_process_id i = true <->
     exists n, i = lit "p-" ++ n /\ n <> [] /\ Forall (fun c => is_ascii_digit c = true) n).
  { unfold is_opaque_process_id, strip_prefix. destruct (starts_with (lit "p-") i) eqn:Hs.
    - apply starts_with_true in Hs as [n ->]. rewrite drop_app_length. split.
      + intros [Hn Hd]%andb_prop. apply negb_true_iff, is_empty_false in Hn. apply forallb_Forall in Hd. eauto.
      + intros (m & Heq & Hm & Hd). apply app_inv_head in Heq as <-.
        apply andb_true_intro. split; [by apply negb_true_iff, is_empty_false|by apply forallb_Forall].
    - split; [done|]. intros (n & -> & _). by rewrite starts_with_app in Hs. }
  split_and!; [exact Hform| |].
  - intros [Hr _]. unfold is_opaque_process_id, strip_prefix.
    change (alloc_id r).1 with (lit "p-" ++ show (seq r)).
    rewrite starts_with_app, drop_app_length. apply andb_true_intro. split.
    + apply negb_true_iff, is_empty_false, show_radix_nonempty.
    + by apply forallb_Forall, show_digits.
  - intros Hr Heq. change (lit "p-" ++ show (seq r) = lit "p-" ++ show (wrap_u64 (seq r + 1))) in Heq.
    apply app_inv_head in Heq. unfold wrap_u64 in Heq.
    rewrite Z.mod_small in Heq by (unfold u64_max in *; lia). apply show_inj in Heq; lia.
Qed.

End Registry.

(** ** Deleted sandboxes *)

Section Deleted.
Context {SJ : SerdeJson} {K : Kernel}.

Lemma act_keeps_deleted e r t r' t' :
  act (K:=K) r t r' t' -> is_deleted e r = true -> deleted e < next_cell r ->
  is_deleted e r' = true /\ deleted e < next_cell r'.
Proof.
  intros Hact Hd Hn. destruct Hact; try done.
  - unfold take_locked in H. destruct (take_uid _) as [? [? ?]]. by simplify_eq.
  - unfold is_deleted in *. simpl. rewrite lookup_insert_ne by lia. split; [done|lia].
  - unfold is_deleted in *. simpl. destruct (decide (deleted e0 = deleted e)) as [->|Hne].
    + by rewrite lookup_insert_eq.
    + by rewrite lookup_insert_ne.
Qed.

Lemma steps_keep_deleted e c c' :
  clos_refl_trans_1n _ (step (K:=K)) c c' -> is_deleted e c.1 = true -> deleted e < next_cell c.1 ->
  is_deleted e c'.1 = true.
Proof.
  induction 1 as [|[r ts] [r1 ts1] c2 Hs _ IH]; [done|]. intros Hd Hn. simpl in *.
  inversion Hs as [? ? ? ? ? ? ? Hact]; subst. destruct (act_keeps_deleted e _ _ _ _ Hact Hd Hn) as [H1 H2].
  by apply IH.
Qed.

(** C10: nothing runs in a deleted sandbox: once [delete] has returned, a request
    that still holds the sandbox cannot spawn in it, whatever creations and
    deletions happen before it tries; it gets an error and makes no system call. *)
Theorem deleted_never_spawns r h i e res r' h' ts c st spec :
  registry_ok r -> sandbox_map r !! i = Some e -> delete i (r, h) = (Ok res, (r', h')) ->
  clos_refl_trans_1n _ (step (K:=K)) (r', ts) c -> sandboxes st = c.1 -> spec_sandbox spec = Some e ->
  spawn spec st = (Ok (Err (lit "sandbox has been deleted")), st).
Proof.
  intros Hok Hi Hrun Hsteps Hst Hspec.
  destruct (delete_run r h i e Hi) as (p & res' & h2 & Hrun' & _). rewrite Hrun in Hrun'.
  injection Hrun' as _ -> _.
  assert (Hdel : is_deleted e (sandboxes st) = true).
  { rewrite Hst. eapply steps_keep_deleted; [exact Hsteps|..]; simpl.
    - unfold is_deleted. simpl. by rewrite lookup_insert_eq.
    - by apply (cells_old _ Hok i). }
  unfold spawn, io_bind, io_gets. rewrite Hspec, Hdel. done.
Qed.

End Deleted.

(** ** Isolation of a command *)

Section Isolated.
Context {K : Kernel}.
Abbreviation TK := (Traced K).

(** The calls of the child before its exec, in order. *)
Definition isolation_calls (i : Isolation) : list call :=
  [Prctl PR_SET_NO_NEW_PRIVS 1]
  ++ (match iso_confinement i with Some fd => [LandlockRestrictSelf fd] | None => [] end)
  ++ [Setrlimit RLIMIT_NPROC (iso_max_procs i) (iso_max_procs i); Setrlimit RLIMIT_AS (iso_max_mem i) (iso_max_mem i)].
Definition tightening_calls : list call :=
  [Setrlimit RLIMIT_CORE 0 0; Setrlimit RLIMIT_NOFILE DEFAULT_MAX_FILES DEFAULT_MAX_FILES;
   Setrlimit RLIMIT_FSIZE (DEFAULT_MAX_FILE_SIZE_MB * 1024 * 1024) (DEFAULT_MAX_FILE_SIZE_MB * 1024 * 1024);
   Setrlimit RLIMIT_CPU DEFAULT_MAX_CPU_SECS DEFAULT_MAX_CPU_SECS].

Definition succeeded (e : event) : Prop := is_ok (ev_result e) = true.

Lemma wp_sys c (w : @World TK) Q :
  (forall r w', Q (match r with Ok a => Ok a | Err e => Err (from_raw_os_error e) end)
                  ((w', w.2 ++ [Kernel.Event c r]) : @World TK)) -> wp (sys (K:=TK) c) w Q.
Proof.
  intros HQ. unfold wp. rewrite (sys_run (K:=TK)). destruct w as [w tr]. simpl in *.
  destruct (syscall c w) as [r w']. apply HQ.
Qed.

Ltac child_call :=
  lazymatch goal with
  | |- wp (sys ?c) ?w ?Q => apply (wp_sys c w Q); intros [[]|] ?
  end.
Ltac failed_last :=
  lazymatch goal with
  | |- exists d f, [?a] = _ /\ _ => exists [], a
  | |- exists d f, [?a; ?b] = _ /\ _ => exists [a], b
  | |- exists d f, [?a; ?b; ?c] = _ /\ _ => exists [a; b], c
  | |- exists d f, [?a; ?b; ?c; ?e] = _ /\ _ => exists [a; b; c], e
  end.
Ltac child_done := eexists; split; [cbn [snd]; rewrite <- ?app_assoc; reflexivity|].

(** A chain of calls that all have to succeed, then ones whose outcome is ignored. *)
Lemma isolation_run (i : Isolation) (w : @World TK) :
  wp (run_isolation i) w (fun r w' => exists evs, w'.2 = w.2 ++ evs /\
    match r with
    | Ok _ => map ev_call evs = isolation_calls i ++ tightening_calls
        /\ Forall succeeded (take (length (isolation_calls i)) evs)
    | Err _ => (length evs <= length (isolation_calls i))%nat
        /\ map ev_call evs = take (length evs) (isolation_calls i)
        /\ exists done failed, evs = done ++ [failed] /\ Forall succeeded done /\ ~ succeeded failed
    end).
Proof.
  unfold run_isolation, limit_, sys_, restrict_self, isolation_calls, tightening_calls.
  destruct (iso_confinement i) as [fd|]; repeat first [wp_step | child_call]; child_done; simpl.
  all: try (split_and!; [lia|done|]; failed_last; split_and!; [done|repeat constructor|by intros H]).
  all: split; [done|repeat constructor].
Qed.

(** C3: a command of a sandbox runs isolated or not at all.  It gets the sandbox's
    uid and gid, an environment with nothing of the server's, a process group of
    its own, and before its exec the child gives up privileges, enters the sandbox's
    Landlock ruleset when it has one, and takes the process and memory limits, in
    that order: if one of these calls fails the child stops there with the error;
    otherwise all succeeded, and the further limits are set as far as possible. *)
Theorem sandboxed_command_isolated {SJ : SerdeJson} spec sbx (w w' : @World TK) r :
  spec_sandbox spec = Some sbx ->
  let c := build_command spec in
  let i := pre_exec_isolation sbx in
  run_isolation i w = (r, w') ->
  cmd_uid c = Some (uid sbx) /\ cmd_gid c = Some (uid sbx) /\ env_cleared c = true
  /\ process_group c = Some 0 /\ pre_exec c = Some i
  /\ (forall k v, (k, v) ∈ envs c -> (k, v) ∈ base_env sbx \/ spec_env spec !! k = Some v)
  /\ (forall fd, confinement sbx = ByLandlock fd -> LandlockRestrictSelf fd ∈ isolation_calls i)
  /\ exists evs, w'.2 = w.2 ++ evs /\
    match r with
    | Ok _ => map ev_call evs = isolation_calls i ++ tightening_calls
        /\ Forall succeeded (take (length (isolation_calls i)) evs)
    | Err _ => map ev_call evs = take (length evs) (isolation_calls i)
        /\ exists done failed, evs = done ++ [failed] /\ Forall succeeded done /\ ~ succeeded failed
    end.
Proof.
  intros Hspec c i Hrun. unfold c, build_command. rewrite Hspec. split_and!; try done.
  - intros k v Hin. change (envs _) with (base_env sbx ++ map_to_list (spec_env spec)) in Hin.
    apply elem_of_app in Hin as [Hin|Hin]; [auto|]. right. by apply elem_of_map_to_list.
  - intros fd Hfd. unfold isolation_calls, i, pre_exec_isolation. simpl. rewrite Hfd. set_solver.
  - destruct (wp_run _ _ _ _ _ Hrun (isolation_run i w)) as (evs & Ht & Hr). exists evs. split; [done|].
    destruct r; tauto.
Qed.

End Isolated.

(** ** The streamed reply *)

Section Streaming.
Context {SJ : SerdeJson} {K : Kernel}.

(** The lines of the reply: every event up to the exit, a ping per silence. *)
Fixpoint stream_lines (rx : list recv) : list str :=
  match rx with
  | [] | Disconnected :: _ => []
  | Timeout :: rest => PING_CHUNK :: stream_lines rest
  | Got (Exit info) :: _ => [to_line (Exit info)]
  | Got e :: rest => to_line e :: stream_lines rest
  end.

Definition start_line (pid : Z) : str :=
  to_vec (jobj [("event", VString (lit "start")); ("pid", jint pid)]%string) ++ [LF].

#[local] Arguments encode_chunk : simpl never.

Lemma with_resp_ok {A} (m : io ResponseWriter A) (c : Ctx) a c' :
  with_resp m c = (Ok a, c') -> exists rw, m (resp c) = (Ok a, rw) /\ c' = set_resp rw c.
Proof.
  unfold with_resp, io_lens. destruct (m (resp c)) as [o rw]. intros [= -> <-]. eauto.
Qed.

Lemma with_state_ok {A} (m : io State A) (c : Ctx) a c' :
  with_state m c = (Ok a, c') -> exists s, m (state c) = (Ok a, s) /\ c' = set_state s c.
Proof.
  unfold with_state, io_lens. destruct (m (state c)) as [o s]. intros [= -> <-]. eauto.
Qed.

Lemma touch_activity_procs (s : State) u s' :
  touch_activity s = (Ok u, s') -> proc_registry s' = proc_registry s.
Proof.
  unfold touch_activity. intros H. apply io_bind_ok in H as (t & s1 & H1 & H).
  unfold with_host, io_lens in H1. destruct (hnow (host s)). simplify_eq.
  injection H as <- <-. done.
Qed.

Lemma stream_events_ok rx (c : Ctx) u c' :
  stream_events rx c = (Ok u, c') ->
  out (resp c') = out (resp c) ++ concat (map encode_chunk (stream_lines rx))
  /\ chunked (resp c') = chunked (resp c) /\ proc_registry (state c') = proc_registry (state c).
Proof.
  revert c. induction rx as [|[e| |] rx IH]; intros c H; cbn [stream_events] in H.
  - injection H as _ <-. by rewrite app_nil_r.
  - apply io_bind_ok in H as (u1 & c1 & H1 & H). apply with_resp_ok in H1 as (rw & H1 & ->).
    apply chunk_ok in H1 as [Ho Hc].
    apply io_bind_ok in H as (u2 & c2 & H2 & H). apply with_state_ok in H2 as (s & H2 & ->).
    apply touch_activity_procs in H2. simpl in H2.
    assert (Hmore : stream_events rx (set_state s (set_resp rw c)) = (Ok u, c') ->
      out (resp c') = out (resp c) ++ encode_chunk (to_line e) ++ concat (map encode_chunk (stream_lines rx))
      /\ chunked (resp c') = chunked (resp c) /\ proc_registry (state c') = proc_registry (state c)).
    { intros Hr. destruct (IH _ Hr) as (Ho' & Hc' & Hp'). simpl in *.
      rewrite Ho', Ho, <- app_assoc. split_and!; congruence. }
    destruct e as [d|d|info]; [by apply Hmore|by apply Hmore|].
    injection H as _ <-. simpl. rewrite app_nil_r. split_and!; congruence.
  - apply io_bind_ok in H as (u1 & c1 & H1 & H). apply with_resp_ok in H1 as (rw & H1 & ->).
    apply chunk_ok in H1 as [Ho Hc]. destruct (IH _ H) as (Ho' & Hc' & Hp'). simpl in *.
    rewrite Ho', Ho, <- app_assoc. split_and!; [done|congruence..].
  - injection H as _ <-. by rewrite app_nil_r.
Qed.

(** The reply of a foreground command, with the operation counted while it lasts. *)
Definition reply_stream (rx : list recv) (pid : Z) : io Ctx unit :=
  with_op (
    with_resp (start_stream 200 (lit "application/x-ndjson")) ;;;
    with_resp (chunk (start_line pid)) ;;;
    stream_events rx).

Lemma reply_stream_ok rx pid (c : Ctx) c' :
  reply_stream rx pid c = (Ok tt, c') ->
  out (resp c') = out (resp c) ++ head_start 200 (lit "application/x-ndjson") (rw_keep_alive (resp c))
    ++ lit "Transfer-Encoding: chunked" ++ CRLF ++ lit "X-Accel-Buffering: no" ++ CRLF ++ CRLF
    ++ concat (map encode_chunk (start_line pid :: stream_lines rx))
  /\ chunked (resp c') = true
  /\ proc_registry (state c') = end_op (begin_op (proc_registry (state c))).
Proof.
  unfold reply_stream, with_op. set (c0 := set_state _ c).
  destruct ((_ ;;; _)%io c0) as [o c1] eqn:Hrun. intros [= -> <-].
  apply io_bind_ok in Hrun as (u1 & c2 & H1 & Hrun). apply with_resp_ok in H1 as (rw1 & H1 & ->).
  unfold start_stream in H1. apply io_bind_ok in H1 as (u0 & rw0 & H0 & H1).
  apply write_head_ok in H0 as (Ho0 & Hc0 & _). apply on_writer_ok in H1 as (Ho1 & Hc1 & _).
  apply io_bind_ok in Hrun as (u2 & c3 & H2 & Hrun). apply with_resp_ok in H2 as (rw2 & H2 & ->).
  apply chunk_ok in H2 as [Ho2 Hc2]. apply stream_events_ok in Hrun as (Ho & Hc & Hp). cbn [resp state set_resp set_state c0 proc_registry set_proc_registry] in *.
  rewrite app_nil_r in Ho1. split_and!.
  - rewrite Ho, Ho2, Ho1, Ho0. by rewrite <- !app_assoc.
  - congruence.
  - by rewrite Hp.
Qed.

(** C26: a foreground command's output reaches the client in order and complete: the
    handler's reply, once finished, decodes to the start line, then one line per
    event received and a ping per silence, up to and including the exit and nothing
    after it; and the operation it counted for the idle watchdog is uncounted. *)
Theorem foreground_stream rx sandbox (c c0 c1 c2 c3 c' : Ctx) body spec t cmd rest :
  with_body (read_body MAX_EXEC_BODY) c = (Ok body, c0) -> parse_spec body = Ok spec ->
  background spec = false -> ctx_host hnow c0 = (Ok t, c1) ->
  with_state (spawn (in_sandbox sandbox spec)) c1 = (Ok (Ok cmd), c2) ->
  handle_exec rx sandbox c = (Ok tt, c3) -> with_resp finish c3 = (Ok tt, c') ->
  (exists coded,
     out (resp c') = out (resp c) ++ head_start 200 (lit "application/x-ndjson") (rw_keep_alive (resp c))
       ++ lit "Transfer-Encoding: chunked" ++ CRLF ++ lit "X-Accel-Buffering: no" ++ CRLF ++ CRLF ++ coded
     /\ dechunk (S (S (length (stream_lines rx)))) (coded ++ rest)
        = Some (concat (start_line (child_pid cmd) :: stream_lines rx), rest))
  /\ proc_registry (state c') = end_op (begin_op (proc_registry (state c2))).
Proof.
  intros Hbody Hspec Hbg Hnow Hspawn Hrun Hfin.
  assert (Hresp : resp c2 = resp c).
  { unfold with_body, io_lens in Hbody. destruct (read_body _ _). injection Hbody as _ <-.
    unfold ctx_host in Hnow. apply with_state_ok in Hnow as (s1 & _ & ->).
    apply with_state_ok in Hspawn as (s2 & _ & ->). done. }
  unfold handle_exec in Hrun. rewrite (io_bind_run _ _ _ _ _ Hbody), Hspec in Hrun.
  simpl in Hrun. rewrite Hbg in Hrun. rewrite (io_bind_run _ _ _ _ _ Hnow), (io_bind_run _ _ _ _ _ Hspawn) in Hrun.
  change (reply_stream rx (child_pid cmd) c2 = (Ok tt, c3)) in Hrun.
  apply reply_stream_ok in Hrun as (Ho & Hc & Hp). apply with_resp_ok in Hfin as (rw & Hfin & ->).
  apply finish_ok in Hfin. rewrite Hc in Hfin. split; [|done].
  exists (concat (map encode_chunk (start_line (child_pid cmd) :: stream_lines rx)) ++ lit "0" ++ CRLF ++ CRLF).
  split.
  - change (resp (set_resp rw c3)) with rw. rewrite Hfin, Ho, Hresp. by rewrite <- !app_assoc.
  - rewrite <- !app_assoc. apply (dechunk_chunks (start_line (child_pid cmd) :: stream_lines rx)).
Qed.

End Streaming.

(** ** The timeout *)

(** C39: the watcher sleeps what is left of the timeout.  At [elapsed] milliseconds
    after the start, with [left] the timeout in milliseconds (truncated, saturated to
    an i64) less the time passed, the delay is [left], never negative; the
    wrap-around of the deadline cancels out, so a huge timeout waits for its time and
    does not fire at once.  There is one exception: when [left] is below the least
    i64, which takes a timeout about as negative as an i64 can be, the difference
    wraps to the other end, and the command, instead of being killed at once, is left
    alone for the remaining range of an i64. *)
Theorem watcher_delay_exact secs started_at elapsed :
  in_i64 started_at -> in_i64 (started_at + elapsed) -> 0 <= elapsed ->
  let left := timeout_ms secs - elapsed in
  watcher_delay secs started_at (started_at + elapsed) = Z.max 0 (if i64_min <=? left then left else left + 2 ^ 64)
  /\ (left < i64_min -> i64_max - elapsed < left + 2 ^ 64 <= i64_max).
Proof.
  intros Hs Hn He left. unfold left. clear left. assert (Ht : i64_min <= timeout_ms secs <= i64_max).
  { unfold timeout_ms, f64_to_i64. unfold i64_min, i64_max. repeat case_match; lia. }
  unfold watcher_delay. unfold in_i64, i64_min, i64_max, wrap_i64 in *. split; [|lia].
  replace ((started_at + timeout_ms secs + 2 ^ 63) mod 2 ^ 64 - 2 ^ 63 - (started_at + elapsed) + 2 ^ 63)
    with ((started_at + timeout_ms secs + 2 ^ 63) mod 2 ^ 64 - (started_at + elapsed)) by lia.
  rewrite Zminus_mod_idemp_l.
  replace (started_at + timeout_ms secs + 2 ^ 63 - (started_at + elapsed))
    with (timeout_ms secs - elapsed + 2 ^ 63) by lia.
  destruct (Z.leb_spec (- 2 ^ 63) (timeout_ms secs - elapsed)).
  - rewrite Z.mod_small; lia.
  - replace (timeout_ms secs - elapsed + 2 ^ 63) with (timeout_ms secs - elapsed + 2 ^ 63 + 2 ^ 64 + (-1) * 2 ^ 64) by lia.
    rewrite Z_mod_plus_full, Z.mod_small; lia.
Qed.

(** ** Concrete runs *)

(** A JSON reader that always finds the same command. *)
Definition one_command : SerdeJson :=
  Sample.reading (fun _ => Ok (VObject [(lit "cmd", VString (lit "ls"))])).

Definition no_procs {SJ : SerdeJson} : ProcRegistry := mkProcRegistry [] 0 0 ∅ ∅ 0.

Definition sample_state {SJ : SerdeJson} (host_mode : bool) : State :=
  mkState (K:=sim) (Required (lit "host")) 0 0 no_procs sample_registry host_mode (sim_host boot).

Definition plain_request : Request := {|
  method := lit "POST"; path := lit "/v1/exec"; params := ∅; raw_query := []; headers := ∅;
  content_length := 0; body_consumed := 0; keep_alive := true;
|}.

Definition sample_ctx {SJ : SerdeJson} (host_mode : bool) : Ctx :=
  mkCtx (sample_state host_mode) plain_request {| rd_buf := []; rd_events := []; rd_clock := 0 |} (fresh_response true).

Lemma from_json_command_witness :
  exists spec, from_json (SJ:=Sample.sample) (VObject [(lit "cmd", VString (lit "ls"))]) = Ok spec
    /\ argv spec <> [].
Proof.
  eexists. split; [reflexivity|].
  refine (proj1 (from_json_command (SJ:=Sample.sample) (VObject [(lit "cmd", VString (lit "ls"))]) _ _)).
  reflexivity.
Defined.

Lemma allocated_ids_accepted_witness :
  is_opaque_process_id (alloc_id (SJ:=Sample.sample) no_procs).1 = true.
Proof.
  apply (proj1 (proj2 (allocated_ids_accepted (SJ:=Sample.sample) [] no_procs))).
  unfold in_u64, u64_max. simpl. lia.
Defined.

Definition sandboxed_spec : ExecSpec := mkExecSpec Sample.sample [lit "ls"] VNull ∅ None None None false None (Some sample_entry).

Lemma deleted_never_spawns_witness :
  exists st, spawn (K:=sim) sandboxed_spec st = (Ok (Err (lit "sandbox has been deleted")), st).
Proof.
  destruct (delete_run (K:=sim) sample_registry (sim_host boot) (lit "a") sample_entry (lookup_singleton_eq _ _))
    as (p & res & h' & Hrun & _).
  set (r' := set_uids p _) in Hrun. exists (mkState (K:=sim) (Required (lit "host")) 0 0 no_procs r' true (sim_host boot)).
  apply (deleted_never_spawns (K:=sim) sample_registry (sim_host boot) (lit "a") sample_entry res r' h' [] (r', [])
    (mkState (K:=sim) (Required (lit "host")) 0 0 no_procs r' true (sim_host boot)) sandboxed_spec sample_registry_ok).
  - apply lookup_singleton_eq.
  - exact Hrun.
  - apply rt1n_refl.
  - reflexivity.
  - reflexivity.
Defined.

Lemma sandboxed_command_isolated_witness :
  pre_exec (build_command sandboxed_spec) = Some (pre_exec_isolation sample_entry)
  /\ exists evs, ((run_isolation (K:=Traced sim) (pre_exec_isolation sample_entry) (boot, [])).2).2 = [] ++ evs.
Proof.
  destruct (sandboxed_command_isolated (K:=sim) (SJ:=Sample.sample) sandboxed_spec sample_entry (boot, [])
    _ _ eq_refl (io_run _ _ _ eq_refl)) as (_ & _ & _ & _ & Hpre & _ & _ & evs & Ht & _).
  split; [exact Hpre|]. exists evs. exact Ht.
Defined.

Definition ls_spec : ExecSpec :=
  mkExecSpec one_command [lit "/bin/sh"; lit "-c"; lit "ls"] (VString (lit "ls")) ∅ None None None false None None.

Lemma foreground_stream_witness :
  exists coded, dechunk 3 (coded ++ lit "HTTP")
    = Some (concat [start_line (SJ:=one_command) 10; PING_CHUNK], lit "HTTP").
Proof.
  pose (c := @sample_ctx one_command false).
  assert (H1 : (with_body (read_body MAX_EXEC_BODY) c).1 = Ok []) by (vm_compute; reflexivity).
  assert (H2 : parse_spec (SJ:=one_command) [] = Ok ls_spec) by reflexivity.
  apply io_run in H1. set (c0 := (with_body _ c).2) in H1.
  assert (H3 : (ctx_host hnow c0).1 = Ok 1000) by (vm_compute; reflexivity).
  apply io_run in H3. set (c1 := (ctx_host hnow c0).2) in H3.
  assert (H4 : (with_state (spawn (in_sandbox None ls_spec)) c1).1 = Ok (Ok (mkSpawned 10 (mkProcHandle 10 (Some 1010) 0))))
    by (vm_compute; reflexivity).
  apply io_run in H4. set (c2 := (with_state _ c1).2) in H4.
  assert (H5 : (handle_exec [Timeout] None c).1 = Ok tt) by (vm_compute; reflexivity).
  apply io_run in H5. set (c3 := (handle_exec _ _ c).2) in H5.
  assert (H6 : (with_resp finish c3).1 = Ok tt) by (vm_compute; reflexivity).
  apply io_run in H6.
  destruct (foreground_stream [Timeout] None c c0 c1 c2 c3 _ _ _ _ _ (lit "HTTP") H1 H2 eq_refl H3 H4 H5 H6)
    as [(coded & _ & Hd) _].
  exists coded. exact Hd.
Defined.

(** Three seconds, after half of one; and a timeout of about minus 10^19 seconds, a
    millisecond after the start: the greatest i64. *)
Lemma watcher_delay_exact_witness :
  watcher_delay (S754_finite false 3 0) 1000 (1000 + 500) = 2500
  /\ watcher_delay (S754_finite true 1 63) 1000 (1000 + 1) = i64_max.
Proof.
  split.
  - rewrite (proj1 (watcher_delay_exact (S754_finite false 3 0) 1000 500 ltac:(unfold in_i64, i64_min, i64_max; lia)
      ltac:(unfold in_i64, i64_min, i64_max; lia) ltac:(lia))). vm_compute. reflexivity.
  - rewrite (proj1 (watcher_delay_exact (S754_finite true 1 63) 1000 1 ltac:(unfold in_i64, i64_min, i64_max; lia)
      ltac:(unfold in_i64, i64_min, i64_max; lia) ltac:(lia))). vm_compute. reflexivity.
Defined.
