(* ===== verification/ExecRaces.v ===== *)
(** * src/exec.rs: signals, reaping and recycled pids

    Two races over one pid.  In the first, any number of [kill_tree] calls meet the
    thread that reaps the command: the mutex [running] keeps a signal from reaching a
    pid that is no longer the command's.  In the second, the orphan reaper meets the
    threads that spawn and wait: [OWNED_PIDS] keeps it from taking an exit status
    that a waiter needs, as long as the kernel does not hand a pid out again between
    its [wait] and its [untrack_owned]. *)

From Stdlib Require Import Relations.Relation_Operators.
From S2P Require Import Prelude RustStd.

(** ** [kill_tree] against [wait_and_report] *)

(** What a pid stands for: the command, its zombie, nothing, or a stranger. *)
Inductive pid_status : Type := Alive | Zombie | Reaped | Recycled.

Inductive holder : Type := ByWaiter | ByKiller (k : nat).

(** [wait_and_report]: before the peek returns; after it; with the mutex; after
    [child.wait()]; after [*running = false] and the unlock. *)
Inductive waiter : Type := WPeek | WPeeked | WLocked | WWaited | WOver.

(** [kill_tree]: before the lock; with it; having seen [*running]; after the signal
    to the group; returned. *)
Inductive killer : Type := KStart | KLocked | KChecked | KGroup | KOver.

Record kill_state : Type := mkKill {
  status : pid_status;
  is_running : bool;
  mutex : option holder;
  the_waiter : waiter;
  killers : list killer;
  (** What the pid stood for at each signal sent to it. *)
  hits : list pid_status;
}.

Definition with_killer (k : nat) (x : killer) (s : kill_state) : list killer := <[k := x]> (killers s).

Inductive kill_step : kill_state -> kill_state -> Prop :=
(* the kernel *)
| ks_exit s : status s = Alive ->
    kill_step s (mkKill Zombie (is_running s) (mutex s) (the_waiter s) (killers s) (hits s))
| ks_recycle s : status s = Reaped ->
    kill_step s (mkKill Recycled (is_running s) (mutex s) (the_waiter s) (killers s) (hits s))
(* the waiter: the peek also returns on an error, then [wait] blocks until the exit *)
| ks_peek s : the_waiter s = WPeek ->
    kill_step s (mkKill (status s) (is_running s) (mutex s) WPeeked (killers s) (hits s))
| ks_wait_lock s : the_waiter s = WPeeked -> mutex s = None ->
    kill_step s (mkKill (status s) (is_running s) (Some ByWaiter) WLocked (killers s) (hits s))
| ks_wait s : the_waiter s = WLocked -> status s = Zombie ->
    kill_step s (mkKill Reaped (is_running s) (mutex s) WWaited (killers s) (hits s))
| ks_wait_fails s : the_waiter s = WLocked ->
    kill_step s (mkKill (status s) (is_running s) (mutex s) WWaited (killers s) (hits s))
| ks_wait_done s : the_waiter s = WWaited ->
    kill_step s (mkKill (status s) false None WOver (killers s) (hits s))
(* a killer *)
| ks_kill_lock s k : killers s !! k = Some KStart -> mutex s = None ->
    kill_step s (mkKill (status s) (is_running s) (Some (ByKiller k)) (the_waiter s)
                   (with_killer k KLocked s) (hits s))
| ks_kill_check s k : killers s !! k = Some KLocked -> is_running s = true ->
    kill_step s (mkKill (status s) (is_running s) (mutex s) (the_waiter s) (with_killer k KChecked s) (hits s))
| ks_kill_late s k : killers s !! k = Some KLocked -> is_running s = false ->
    kill_step s (mkKill (status s) (is_running s) None (the_waiter s) (with_killer k KOver s) (hits s))
| ks_kill_group s k : killers s !! k = Some KChecked ->
    kill_step s (mkKill (status s) (is_running s) (mutex s) (the_waiter s) (with_killer k KGroup s)
                   (hits s ++ [status s]))
| ks_kill_leader s k : killers s !! k = Some KGroup ->
    kill_step s (mkKill (status s) (is_running s) None (the_waiter s) (with_killer k KOver s)
                   (hits s ++ [status s])).

Definition kill_start (n : nat) : kill_state := mkKill Alive true None WPeek (replicate n KStart) [].

Definition own_process (x : pid_status) : Prop := x = Alive \/ x = Zombie.

(** The points of [kill_tree] where it holds the mutex. *)
Definition in_section (x : killer) : Prop := x = KLocked \/ x = KChecked \/ x = KGroup.

(** The lock is held by whoever is in a critical section. *)
Record kill_ok (s : kill_state) : Prop := {
  ko_waiter : (the_waiter s = WLocked \/ the_waiter s = WWaited) <-> mutex s = Some ByWaiter;
  ko_killer k x : killers s !! k = Some x -> in_section x <-> mutex s = Some (ByKiller k);
  ko_checked k x : killers s !! k = Some x -> x = KChecked \/ x = KGroup -> is_running s = true;
  ko_running : is_running s = true -> the_waiter s <> WOver;
  ko_status : status s = Reaped \/ status s = Recycled -> the_waiter s = WWaited \/ the_waiter s = WOver;
  ko_hits : Forall own_process (hits s);
}.

Lemma kill_ok_start n : kill_ok (kill_start n).
Proof.
  split; simpl; try done.
  - split; [intros [?|?]|]; done.
  - intros k x Hx. apply lookup_replicate in Hx as [-> _]. split; [intros [?|[?|?]]|]; done.
  - intros [?|?]; done.
Qed.

(** A signal is sent with the lock and [running] seen. *)
Lemma signal_own s k x : kill_ok s -> killers s !! k = Some x -> x = KChecked \/ x = KGroup -> own_process (status s).
Proof.
  intros Hok Hk Hx. pose proof (ko_checked _ Hok k x Hk Hx) as Hrun.
  pose proof (ko_running _ Hok Hrun) as Hover.
  assert (Hlock : mutex s = Some (ByKiller k)) by (apply (ko_killer _ Hok k x Hk); unfold in_section; destruct Hx; auto).
  assert (Hno : ~ (status s = Reaped \/ status s = Recycled)).
  { intros Hb. destruct (ko_status _ Hok Hb) as [Hw|Hw]; [|done].
    assert (mutex s = Some ByWaiter) by (apply (ko_waiter _ Hok); auto). congruence. }
  unfold own_process. destruct (status s); auto; destruct Hno; auto.
Qed.

Lemma killers_after s k x y (P : nat -> killer -> Prop) :
  killers s !! k = Some x -> P k y -> (forall j z, j <> k -> killers s !! j = Some z -> P j z) ->
  forall j z, with_killer k y s !! j = Some z -> P j z.
Proof.
  intros Hk Hy Hrest j z Hj. unfold with_killer in Hj.
  apply list_lookup_insert_Some in Hj as [(-> & -> & _)|[Hne Hj]]; auto.
Qed.

Lemma locked_after s k x y m :
  killers s !! k = Some x -> (in_section y <-> m = Some (ByKiller k)) ->
  (forall j z, j <> k -> killers s !! j = Some z -> in_section z <-> m = Some (ByKiller j)) ->
  forall j z, with_killer k y s !! j = Some z -> in_section z <-> m = Some (ByKiller j).
Proof. intros Hk. apply (killers_after s k x y (fun j z => in_section z <-> m = Some (ByKiller j)) Hk). Qed.

Lemma checked_after s k x y (b : bool) :
  killers s !! k = Some x -> (y = KChecked \/ y = KGroup -> b = true) ->
  (forall j z, killers s !! j = Some z -> z = KChecked \/ z = KGroup -> b = true) ->
  forall j z, with_killer k y s !! j = Some z -> z = KChecked \/ z = KGroup -> b = true.
Proof.
  intros Hk Hy Hrest. apply (killers_after s k x y (fun _ z => z = KChecked \/ z = KGroup -> b = true) Hk Hy).
  intros j z _. apply Hrest.
Qed.

(** One goal per field of [kill_ok], in its order. *)
Ltac kill_fields Hok := destruct Hok as [Hw Hkl Hck Hr Hst Hh]; split; simpl.

(** A killer goes on inside its section, or leaves it. *)
Lemma killer_stays s k x y hs :
  kill_ok s -> killers s !! k = Some x -> in_section x -> in_section y -> is_running s = true -> Forall own_process hs ->
  kill_ok (mkKill (status s) (is_running s) (mutex s) (the_waiter s) (with_killer k y s) hs).
Proof.
  intros Hok Hk Hx Hy Hrun Hhs.
  kill_fields Hok; [done|eapply locked_after; [exact Hk| |]|eapply checked_after; [exact Hk|done|exact Hck]|done|done|done].
  - rewrite <- (Hkl k _ Hk). tauto.
  - intros j z _ Hj. apply (Hkl j z Hj).
Qed.

Lemma killer_leaves s k x hs :
  kill_ok s -> killers s !! k = Some x -> in_section x -> Forall own_process hs ->
  kill_ok (mkKill (status s) (is_running s) None (the_waiter s) (with_killer k KOver s) hs).
Proof.
  intros Hok Hk Hx Hhs. assert (Hlock : mutex s = Some (ByKiller k)) by (by apply (ko_killer _ Hok k _ Hk)).
  kill_fields Hok; [|eapply locked_after; [exact Hk| |]|eapply checked_after; [exact Hk|by intros [?|?]|exact Hck]
                    |done|done|done].
  - rewrite Hw, Hlock. done.
  - split; [intros [?|[?|?]]|]; done.
  - intros j z Hne Hj. rewrite (Hkl j z Hj), Hlock. split; [intros [= ->]; done|done].
Qed.

Lemma kill_step_ok s s' : kill_step s s' -> kill_ok s -> kill_ok s'.
Proof.
  intros Hs Hok. destruct Hs as [s H|s H|s H|s H Hm|s H Hz|s H|s H|s k H Hm|s k H Hm|s k H Hm|s k H|s k H].
  - kill_fields Hok; [done|done|done|done| |done]. intros [?|?]; done.
  - kill_fields Hok; [done|done|done|done| |done]. intros _. apply Hst. auto.
  - kill_fields Hok; [|done|done|done| |done].
    + rewrite <- Hw, H. split; intros [?|?]; done.
    + intros Hb. specialize (Hst Hb). rewrite H in Hst. destruct Hst; done.
  - kill_fields Hok; [tauto| |done|done| |done].
    + intros k x Hx. rewrite (Hkl k x Hx), Hm. done.
    + intros Hb. specialize (Hst Hb). rewrite H in Hst. destruct Hst; done.
  - kill_fields Hok; [|done|done|done|auto|done]. rewrite <- Hw, H. split; auto.
  - kill_fields Hok; [|done|done|done|auto|done]. rewrite <- Hw, H. split; auto.
  - assert (Hlock : mutex s = Some ByWaiter) by (apply (ko_waiter _ Hok); auto).
    kill_fields Hok; [| | |done|auto|done].
    + split; [intros [?|?]|]; done.
    + intros k x Hx. rewrite (Hkl k x Hx), Hlock. done.
    + intros k x Hx Hc. assert (mutex s = Some (ByKiller k)) by (apply (Hkl k x Hx); unfold in_section; destruct Hc; auto).
      congruence.
  - kill_fields Hok; [|eapply locked_after; [exact H| |]|eapply checked_after; [exact H|by intros [?|?]|exact Hck]
                      |done|done|done].
    + rewrite Hw, Hm. done.
    + split; [done|left; done].
    + intros j z Hne Hj. rewrite (Hkl j z Hj), Hm. split; [done|intros [= ->]; done].
  - eapply killer_stays; try done; [by left|by right; left|by apply Hok].
  - eapply killer_leaves; try done; [by left|by apply Hok].
  - pose proof (signal_own s k _ Hok H ltac:(auto)). pose proof (ko_checked _ Hok k _ H ltac:(auto)) as Hrun.
    eapply killer_stays; try done; [by right; left|by right; right|].
    apply Forall_app. split; [apply Hok|by apply Forall_singleton].
  - pose proof (signal_own s k _ Hok H ltac:(auto)). eapply killer_leaves; try done; [by right; right|].
    apply Forall_app. split; [apply Hok|by apply Forall_singleton].
Qed.

(** C8: a signal never reaches a stranger: however the kills of a command (its
    timeout, a DELETE) interleave with its exit, its reaping and the recycling of
    its pid, every signal sent to the pid finds the command itself or its zombie. *)
Theorem kill_never_stale n s :
  clos_refl_trans_1n _ kill_step (kill_start n) s -> Forall own_process (hits s).
Proof.
  intros Hsteps. apply ko_hits. revert Hsteps. generalize (kill_ok_start n). generalize (kill_start n).
  intros s0 Hok Hsteps. induction Hsteps as [|s0 s1 s Hs _ IH]; [done|]. apply IH. by eapply kill_step_ok.
Qed.

Lemma kill_never_stale_witness :
  exists s, clos_refl_trans_1n _ kill_step (kill_start 1) s /\ hits s = [Alive] /\ Forall own_process (hits s).
Proof.
  assert (Hs : clos_refl_trans_1n _ kill_step (kill_start 1)
    (mkKill Alive true (Some (ByKiller 0)) WPeek [KGroup] [Alive])).
  { eapply rt1n_trans; [by apply (ks_kill_lock _ 0)|]. eapply rt1n_trans; [by apply (ks_kill_check _ 0)|].
    eapply rt1n_trans; [by apply (ks_kill_group _ 0)|]. apply rt1n_refl. }
  eexists. split; [exact Hs|]. split; [reflexivity|]. exact (kill_never_stale 1 _ Hs).
Defined.

(** ** The orphan reaper against spawn and wait *)

(** A child of the server: spawned by it or adopted; exited or not. *)
Record kid : Type := mkKid { ours : bool; exited : bool }.

(** [to_untrack] are the pids waited for whose [untrack_owned] is still to come;
    [stolen] becomes true when the reaper takes the status of a spawned child. *)
Record reap_state : Type := mkReap {
  owned : gset Z;
  kids : gmap Z kid;
  to_untrack : list Z;
  stolen : bool;
}.

(** With [reuse] the kernel may hand out a pid that is still to be untracked. *)
Inductive reap_step (reuse : bool) : reap_state -> reap_state -> Prop :=
| rs_spawn s p : kids s !! p = None -> (reuse = false -> p ∉ to_untrack s) ->
    reap_step reuse s (mkReap ({[ p ]} ∪ owned s) (<[p := mkKid true false]> (kids s)) (to_untrack s) (stolen s))
| rs_adopt s p : kids s !! p = None ->
    reap_step reuse s (mkReap (owned s) (<[p := mkKid false false]> (kids s)) (to_untrack s) (stolen s))
| rs_exit s p o : kids s !! p = Some (mkKid o false) ->
    reap_step reuse s (mkReap (owned s) (<[p := mkKid o true]> (kids s)) (to_untrack s) (stolen s))
| rs_wait s p : kids s !! p = Some (mkKid true true) ->
    reap_step reuse s (mkReap (owned s) (delete p (kids s)) (p :: to_untrack s) (stolen s))
| rs_untrack s p l1 l2 : to_untrack s = l1 ++ p :: l2 ->
    reap_step reuse s (mkReap (owned s ∖ {[ p ]}) (kids s) (l1 ++ l2) (stolen s))
| rs_reap s p o : kids s !! p = Some (mkKid o true) -> p ∉ owned s ->
    reap_step reuse s (mkReap (owned s) (delete p (kids s)) (to_untrack s) (stolen s || o)).

Definition reap_start : reap_state := mkReap ∅ ∅ [] false.

Abbreviation reap_steps reuse := (clos_refl_trans_1n _ (reap_step reuse)).

Lemma reap_owned s :
  reap_steps false reap_start s ->
  stolen s = false /\ forall p x, kids s !! p = Some (mkKid true x) -> p ∈ owned s.
Proof.
  intros Hsteps.
  assert (Hinv : stolen s = false /\ forall p x, kids s !! p = Some (mkKid true x) ->
    p ∈ owned s /\ p ∉ to_untrack s).
  2:{ destruct Hinv as [H1 H2]. split; [done|]. intros p x Hp. by apply (H2 p x). }
  assert (H0 : stolen reap_start = false /\ forall p x, kids reap_start !! p = Some (mkKid true x) ->
    p ∈ owned reap_start /\ p ∉ to_untrack reap_start).
  { split; [done|]. intros p x Hp. simpl in Hp. by rewrite lookup_empty in Hp. }
  revert H0. induction Hsteps as [|s0 s1 s Hs _ IH]; [done|]. intros [Hst Hk]. apply IH. clear IH.
  destruct Hs as [s0 p Hp Hf|s0 p Hp|s0 p o Hp|s0 p Hp|s0 p l1 l2 Hl|s0 p o Hp Hno]; simpl.
  - split; [done|]. intros q x [[<- _]|[Hne Hq]]%lookup_insert_Some; [set_solver|].
    destruct (Hk q x Hq). set_solver.
  - split; [done|]. intros q x [[_ ?]|[Hne Hq]]%lookup_insert_Some; [done|]. by apply (Hk q x).
  - split; [done|]. intros q x [[<- [= -> <-]]|[Hne Hq]]%lookup_insert_Some; [|by apply (Hk q x)].
    by apply (Hk p false).
  - split; [done|]. intros q x [Hne Hq]%lookup_delete_Some. destruct (Hk q x Hq). set_solver.
  - split; [done|]. intros q x Hq. destruct (Hk q x Hq) as [H1 H2]. rewrite Hl in H2. set_solver.
  - split.
    + destruct o; [|by rewrite Hst]. destruct (Hk p true Hp). done.
    + intros q x [Hne Hq]%lookup_delete_Some. by apply (Hk q x).
Qed.

(** The pid of a reaped command goes to a new one before [untrack_owned] has run for
    the old one, which drops the new one from [OWNED_PIDS]. *)
Lemma reaper_can_steal : exists s, reap_steps true reap_start s /\ stolen s = true.
Proof.
  eexists (mkReap _ _ _ true). split; [|done].
  eapply rt1n_trans; [apply (rs_spawn true reap_start 7); [apply lookup_empty|done]|].
  eapply rt1n_trans; [apply (rs_exit true _ 7 true); simpl; apply lookup_insert_eq|].
  eapply rt1n_trans; [apply (rs_wait true _ 7); simpl; apply lookup_insert_eq|].
  eapply rt1n_trans; [apply (rs_spawn true _ 7); simpl; [apply lookup_delete_eq|done]|].
  eapply rt1n_trans; [apply (rs_untrack true _ 7 [] []); reflexivity|].
  eapply rt1n_trans; [apply (rs_exit true _ 7 true); simpl; apply lookup_insert_eq|].
  eapply rt1n_trans; [apply (rs_reap true _ 7 true); simpl; [apply lookup_insert_eq|set_solver]|].
  simpl. apply rt1n_refl.
Qed.

(** C34: the orphan reaper never takes the exit status of a command, as long as the
    kernel does not give a pid out again while its [untrack_owned] is pending: every
    spawned child that has not been waited for is on [OWNED_PIDS], so the reaper
    leaves it to its waiter, under every interleaving.  Without that assumption it
    can take one: [untrack_owned] comes after the [wait] that frees the pid. *)
Theorem reaper_never_steals :
  (forall s, reap_steps false reap_start s ->
    stolen s = false /\ forall p x, kids s !! p = Some (mkKid true x) -> p ∈ owned s)
  /\ exists s, reap_steps true reap_start s /\ stolen s = true.
Proof. split; [exact reap_owned|exact reaper_can_steal]. Qed.

Lemma reaper_never_steals_witness :
  exists s, reap_steps false reap_start s /\ kids s <> ∅ /\ stolen s = false.
Proof.
  assert (Hs : reap_steps false reap_start
    (mkReap ({[ 7 ]} ∪ ∅) (<[7 := mkKid true false]> ∅) [] false)).
  { eapply rt1n_trans; [|apply rt1n_refl]. apply (rs_spawn false reap_start 7); [apply lookup_empty|].
    intros _. apply not_elem_of_nil. }
  eexists. split; [exact Hs|]. split; [|exact (proj1 (proj1 reaper_never_steals _ Hs))].
  simpl. intros Hem. apply (f_equal (lookup 7)) in Hem. rewrite lookup_insert_eq, lookup_empty in Hem. discriminate.
Defined.
