(* ===== verification/ExecSteps.v ===== *)
(** * src/exec.rs: the code behind the races

    File ExecRaces states the two races over a pid as step relations.  Here the code
    of file Exec is shown to take those steps and no others: [kill_tree] is a
    killer's path, [wait_and_report] the waiter's, and [orphan_reaper] reaps under
    the guard of [rs_reap].  The system calls are read off the trace. *)

From Stdlib Require Import Relations.Relation_Operators.
From S2P Require Import Prelude RustStd Json Kernel Sim Host State.
From S2P Require Import Samples Sandboxes Exec ExecRaces.

Abbreviation kill_steps := (clos_refl_trans_1n _ kill_step).

(** ** Paths of the model *)

(** Killer [k] has returned, having sent [n] signals. *)
Definition kill_returned (k n : nat) (s : kill_state) : kill_state :=
  mkKill (status s) (ExecRaces.is_running s) None (the_waiter s) (with_killer k KOver s)
    (hits s ++ replicate n (status s)).

(** The waiter has reaped the command and let the mutex go. *)
Definition waiter_over (s : kill_state) : kill_state :=
  mkKill Reaped false None WOver (killers s) (hits s).

Lemma killer_moves s k x : killers s !! k = Some x -> forall y, with_killer k y s !! k = Some y.
Proof. intros Hk y. apply list_lookup_insert_eq. by eapply lookup_lt_Some. Qed.

Lemma killer_late s k :
  killers s !! k = Some KStart -> mutex s = None -> ExecRaces.is_running s = false ->
  kill_steps s (kill_returned k 0 s).
Proof.
  intros Hk Hm Hr. eapply rt1n_trans; [by apply (ks_kill_lock _ k)|].
  eapply rt1n_trans; [apply (ks_kill_late _ k); [by eapply killer_moves|done]|].
  unfold kill_returned, with_killer. simpl. rewrite list_insert_insert_eq, app_nil_r. apply rt1n_refl.
Qed.

Lemma killer_signals s k :
  killers s !! k = Some KStart -> mutex s = None -> ExecRaces.is_running s = true ->
  kill_steps s (kill_returned k 2 s).
Proof.
  intros Hk Hm Hr. pose proof (killer_moves _ _ _ Hk) as Hy.
  eapply rt1n_trans; [by apply (ks_kill_lock _ k)|].
  eapply rt1n_trans; [apply (ks_kill_check _ k); [apply Hy|done]|].
  eapply rt1n_trans; [apply (ks_kill_group _ k); by eapply killer_moves, Hy|].
  eapply rt1n_trans; [apply (ks_kill_leader _ k); eapply killer_moves, killer_moves, Hy|].
  unfold kill_returned, with_killer. simpl. rewrite !list_insert_insert_eq, <- app_assoc. apply rt1n_refl.
Qed.

Lemma waiter_reaps s :
  the_waiter s = WPeeked -> mutex s = None -> status s = Zombie -> kill_steps s (waiter_over s).
Proof.
  intros Hw Hm Hz. eapply rt1n_trans; [by apply ks_wait_lock|].
  eapply rt1n_trans; [by apply ks_wait|]. eapply rt1n_trans; [by apply ks_wait_done|]. apply rt1n_refl.
Qed.

Lemma waiter_reports s :
  the_waiter s = WPeek -> mutex s = None -> status s = Zombie -> kill_steps s (waiter_over s).
Proof. intros Hw Hm Hz. eapply rt1n_trans; [by apply ks_peek|]. by apply (waiter_reaps (mkKill _ _ _ _ _ _)). Qed.

Section Steps.
Context {SJ : SerdeJson} {K : Kernel}.
Abbreviation TK := (Traced K).
Implicit Types (r : ProcRegistry) (hst : @Host TK).

(** ** The signals of [kill_tree] *)

(** The calls that signal the command of [h]: its group, then its leader. *)
Definition leader_signal (h : ProcHandle) (sig : Z) : call :=
  match pidfd h with Some fd => PidfdSendSignal fd sig | None => Kill (handle_pid h) sig end.
Definition signals (h : ProcHandle) (sig : Z) : list call := [Kill (- handle_pid h) sig; leader_signal h sig].

Lemma on_snd_run {A} (m : io (@Host TK) A) r hst a hst' :
  m hst = (a, hst') -> on_snd m (r, hst) = (a, (r, hst')).
Proof. unfold on_snd, io_lens. simpl. by intros ->. Qed.

Lemma signal_leader_runs h sig r hst : exists sent hst',
  signal_leader (K:=TK) h sig (r, hst) = (Ok sent, (r, hst')) /\ new_calls hst hst' [leader_signal h sig].
Proof.
  unfold signal_leader, leader_signal.
  destruct (pidfd h) as [fd|]; (edestruct hsys_calls as (a & hst' & E & T & _); exists (is_ok a), hst'; split; [|exact T]);
    by erewrite io_bind_run by (apply on_snd_run, io_try_run, E).
Qed.

Lemma kill_tree_runs h sig flag r hst :
  let live := Exec.is_running h r in
  exists killed hst',
    kill_tree (K:=TK) h sig flag (r, hst) = (Ok (killed, if live then (fun _ => true) <$> flag else flag), (r, hst'))
    /\ new_calls hst hst' (if live then signals h sig else []) /\ (live = false -> killed = false).
Proof.
  intros live. unfold kill_tree. rewrite io_bind_gets. cbn [fst]. fold live. destruct live; cbn [negb].
  - destruct (hsys_ignored (Kill (- handle_pid h) sig) hst) as (h1 & E1 & T1 & _).
    destruct (signal_leader_runs h sig r h1) as (sent & h2 & E2 & T2). exists sent, h2.
    rewrite (io_bind_run _ _ _ _ _ (on_snd_run _ _ _ _ _ E1)), (io_bind_run _ _ _ _ _ E2).
    split; [by destruct flag|]. split; [|done]. exact (new_calls_app _ _ _ _ _ T1 T2).
  - eexists _, _. split; [reflexivity|]. split; [apply new_calls_nil|done].
Qed.

(** ** The wait of [reap] *)

Lemma reap_runs command started_at timed_out r hst : exists info hst',
  reap (K:=TK) command started_at timed_out (r, hst) = (Ok info, (set_running (running (child_handle command)) false r, hst'))
  /\ new_calls hst hst' [WaitChild (child_pid command); Clock]
  /\ OWNED_PIDS hst' = OWNED_PIDS hst ∖ {[ child_pid command ]}.
Proof.
  unfold reap. destruct (hsys_calls (WaitChild (child_pid command)) hst) as (a & h1 & E1 & T1 & O1).
  rewrite (io_bind_run _ _ _ _ _ (on_snd_run _ _ _ _ _ (io_try_run _ _ _ _ E1))).
  rewrite !io_bind_modify. cbn [fst snd].
  destruct (clock_calls (untrack_owned (child_pid command) h1)) as (now & h2 & E2 & T2 & O2).
  rewrite (io_bind_run _ _ _ _ _ (on_snd_run _ _ _ _ _ E2)).
  eexists _, _. split; [reflexivity|]. split; [exact (new_calls_app _ _ _ _ _ T1 T2)|].
  rewrite O2. simpl. by rewrite O1.
Qed.

(** ** The guard of [reaper_tick] *)

(** What the reaper may call, when the pids in [owned] are the server's own. *)
Definition reaper_call (owned : gset Z) (c : call) : Prop :=
  match c with WaitidPeekAny | Sleep _ => True | WaitPid p => p ∉ owned | _ => False end.
Definition is_reap (c : call) : bool := match c with WaitPid _ => true | _ => false end.

(** Between the two states: at most [n] reaps, all under the guard. *)
Definition reaps (n : nat) hst hst' : Prop := exists cs,
  new_calls hst hst' cs /\ OWNED_PIDS hst' = OWNED_PIDS hst
  /\ Forall (reaper_call (OWNED_PIDS hst)) cs /\ (length (List.filter is_reap cs) <= n)%nat.

Lemma reaps_refl n hst : reaps n hst hst.
Proof. exists []. split_and!; [apply new_calls_nil|done|done|simpl; lia]. Qed.

Lemma reaps_call n m c a hst hst1 hst2 :
  new_calls hst hst1 [c] -> OWNED_PIDS hst1 = OWNED_PIDS hst -> reaper_call (OWNED_PIDS hst) c ->
  (n = if is_reap c then S m else m) -> a = hst1 -> reaps m a hst2 -> reaps n hst hst2.
Proof.
  intros T O Hc -> -> (cs & T2 & O2 & F & L). exists (c :: cs). rewrite O in *.
  split_and!; [exact (new_calls_app _ _ _ _ _ T T2)|done|by constructor|]. simpl. destruct (is_reap c); simpl; lia.
Qed.

Lemma reaper_tick_runs n hst : exists hst', reaper_tick (K:=TK) n hst = (Ok tt, hst') /\ reaps n hst hst'.
Proof.
  revert hst. induction n as [|n IH]; intros hst; cbn [reaper_tick]; [eexists; split; [done|apply reaps_refl]|].
  rewrite io_bind_gets. destruct (hsys_calls WaitidPeekAny hst) as (a & h1 & E1 & T1 & O1).
  rewrite (io_bind_run _ _ _ _ _ (io_try_run _ _ _ _ E1)).
  assert (H1 : forall h', reaps (S n) h1 h' -> reaps (S n) hst h') by (intros; by eapply reaps_call).
  destruct a as [pid|]; [|eauto using reaps_refl]. destruct (pid =? 0); [eauto using reaps_refl|].
  case_bool_decide as Hown; [eauto using reaps_refl|]. rewrite <- O1 in Hown.
  destruct (hsys_calls (WaitPid pid) h1) as (b & h2 & E2 & T2 & O2).
  rewrite (io_bind_run _ _ _ _ _ (io_try_run _ _ _ _ E2)).
  assert (H2 : forall h', reaps n h2 h' -> reaps (S n) hst h') by (intros; eapply H1, reaps_call; eauto).
  destruct b as [got|]; [|eauto using reaps_refl]. destruct (got <=? 0); [eauto using reaps_refl|].
  destruct (IH h2) as (h3 & E3 & R3). eauto.
Qed.

Lemma reaps_trans n m hst1 hst2 hst3 : reaps n hst1 hst2 -> reaps m hst2 hst3 -> reaps (n + m) hst1 hst3.
Proof.
  intros (cs & T & O & F & L) (ds & T2 & O2 & F2 & L2). exists (cs ++ ds). rewrite O in *. split_and!.
  - by eapply new_calls_app.
  - done.
  - by apply Forall_app.
  - rewrite List.filter_app, length_app. lia.
Qed.

Lemma orphan_reaper_runs ticks hst : exists hst',
  orphan_reaper (K:=TK) ticks hst = (Ok tt, hst') /\ reaps (ticks * REAPS_PER_TICK) hst hst'.
Proof.
  revert hst. induction ticks as [|ticks IH]; intros hst; [eexists; split; [done|apply reaps_refl]|].
  cbn [orphan_reaper]. destruct (reaper_tick_runs REAPS_PER_TICK hst) as (h1 & E1 & R1).
  destruct (hsys_ignored (Sleep 1000) h1) as (h2 & E2 & T2 & O2). destruct (IH h2) as (h3 & E3 & R3).
  exists h3. rewrite (io_bind_run _ _ _ _ _ E1), (io_bind_run _ _ _ _ _ E2). split; [exact E3|].
  eapply reaps_trans; [exact R1|]. by eapply reaps_call.
Qed.

(** ** The peek of [wait_and_report] *)

Lemma wait_peek_runs n pid hst : exists hst' peeks,
  wait_peek (K:=TK) n pid hst = (Ok tt, hst')
  /\ new_calls hst hst' (replicate peeks (WaitidPeek pid)) /\ OWNED_PIDS hst' = OWNED_PIDS hst
  /\ (peeks <= n)%nat.
Proof.
  revert hst. induction n as [|n IH]; intros hst; cbn [wait_peek]; [exists hst, 0%nat; split_and!; [done|apply new_calls_nil|done|lia]|].
  destruct (hsys_calls (WaitidPeek pid) hst) as (a & h1 & E1 & T1 & O1).
  rewrite (io_bind_run _ _ _ _ _ (io_try_run _ _ _ _ E1)).
  assert (Hone : exists h' peeks, (Ok tt, h1) = (Ok tt, h') :> result unit io_error * _
    /\ new_calls hst h' (replicate peeks (WaitidPeek pid)) /\ OWNED_PIDS h' = OWNED_PIDS hst /\ (peeks <= S n)%nat)
    by (exists h1, 1%nat; split_and!; [done|exact T1|done|lia]).
  destruct a as [[]|e]; [exact Hone|]. case_bool_decide; [|exact Hone].
  destruct (IH h1) as (h2 & peeks & E2 & T2 & O2 & L). exists h2, (S peeks).
  split_and!; [exact E2|exact (new_calls_app _ _ _ [WaitidPeek pid] _ T1 T2)|congruence|lia].
Qed.

(** ** The refinement *)

(** C23: the code takes the steps of the two models, so what they exclude it
    excludes.  A [kill_tree] that runs while the mutex is free is a killer's path:
    two signals, to the group and to the leader, when it sees [*running], and none
    and no [timed_out] otherwise.  [wait_and_report] peeks, however often it is
    interrupted, then waits once: the waiter's path from its start and, on the pids,
    [rs_wait] then [rs_untrack].  The thread of the reaper only takes pids that are
    not on [OWNED_PIDS], and every tick of it ends, after at most 256 of them. *)
Theorem signalling_refines h sig flag command started_at timed_out n ticks k r hst s x :
  mutex s = None -> owned x = OWNED_PIDS hst ->
  (killers s !! k = Some KStart -> ExecRaces.is_running s = Exec.is_running h r ->
   exists killed hst' cs,
     kill_tree (K:=TK) h sig flag (r, hst)
       = (Ok (killed, if ExecRaces.is_running s then (fun _ => true) <$> flag else flag), (r, hst'))
     /\ new_calls hst hst' cs /\ cs = (if ExecRaces.is_running s then signals h sig else [])
     /\ kill_steps s (kill_returned k (length cs) s))
  /\ (the_waiter s = WPeek -> status s = Zombie -> kids x !! child_pid command = Some (mkKid true true) ->
      exists info r' hst' peeks,
        wait_and_report (K:=TK) n command started_at timed_out (r, hst) = (Ok (Exit info), (r', hst'))
        /\ new_calls hst hst' (replicate peeks (WaitidPeek (child_pid command)) ++ [WaitChild (child_pid command); Clock])
        /\ (peeks <= n)%nat
        /\ kill_steps s (waiter_over s)
        /\ Exec.is_running (child_handle command) r' = ExecRaces.is_running (waiter_over s)
        /\ reap_steps false x (mkReap (OWNED_PIDS hst') (base.delete (child_pid command) (kids x)) (to_untrack x) (stolen x)))
  /\ exists hst', orphan_reaper (K:=TK) ticks hst = (Ok tt, hst') /\ reaps (ticks * REAPS_PER_TICK) hst hst'.
Proof.
  intros Hm Hx. split_and!; [| |apply orphan_reaper_runs].
  - intros Hk Hr. destruct (kill_tree_runs h sig flag r hst) as (killed & hst' & E & T & _). rewrite <- Hr in E, T.
    eexists killed, hst', _. split; [exact E|]. split; [exact T|]. split; [done|].
    destruct (ExecRaces.is_running s) eqn:Hlive; [by apply killer_signals|by apply killer_late].
  - intros Hw Hz Hp. destruct (wait_peek_runs n (child_pid command) hst) as (h1 & peeks & E1 & T1 & O1 & L).
    destruct (reap_runs command started_at timed_out r h1) as (info & hst' & E & T & O). rewrite O1 in O.
    eexists info, _, hst', peeks. split.
    { unfold wait_and_report. by rewrite (io_bind_run _ _ _ _ _ (on_snd_run _ _ _ _ _ E1)), (io_bind_run _ _ _ _ _ E). }
    split; [by eapply new_calls_app|]. split; [done|]. split; [by apply waiter_reports|].
    split; [unfold Exec.is_running, set_running; simpl; by rewrite lookup_insert_eq|].
    eapply rt1n_trans; [by apply (rs_wait false _ (child_pid command))|].
    eapply rt1n_trans; [by apply (rs_untrack false _ (child_pid command) [] (to_untrack x))|].
    simpl. rewrite O, Hx. apply rt1n_refl.
Qed.
End Steps.

(** A live command on the traced machine, killed. *)
Definition live_handle : ProcHandle := mkProcHandle 7 (Some 3) 0.
Definition live_registry : ProcRegistry := mkProcRegistry (SJ:=Sample.sample) [] 0 0 ∅ {[ 0 := true ]} 1.

Lemma signalling_refines_witness :
  exists killed hst', kill_tree (K:=Traced sim) live_handle SIGKILL None (live_registry, traced_host boot)
      = (Ok (killed, None), (live_registry, hst'))
    /\ map ev_call (trace hst') = [Kill (-7) SIGKILL; PidfdSendSignal 3 SIGKILL]
    /\ kill_steps (kill_start 1) (kill_returned 0 2 (kill_start 1)).
Proof.
  destruct (signalling_refines (K:=sim) live_handle SIGKILL None (mkSpawned 7 live_handle) 0 false 1 1 0
    live_registry (traced_host boot) (kill_start 1) (mkReap ∅ ∅ [] false) eq_refl eq_refl) as (H & _ & _).
  destruct (H eq_refl eq_refl) as (killed & hst' & cs & E & (evs & Ht & Hevs) & Hcs & Hsteps).
  exists killed, hst'. split; [exact E|]. split; [rewrite Ht; simpl; rewrite Hevs; exact Hcs|].
  rewrite Hcs in Hsteps. exact Hsteps.
Defined.
