(* ===== verification/ExecWatch.v ===== *)
(** * src/exec.rs: the timeout and the report

    [wait_and_report] with its watcher, on top of the race of file ExecRaces: the
    watcher is the killer that stores [timed_out] before it signals, and it starts
    only if its sleep ends before the child is reaped and the channel dropped.  What
    the exit event then says of the timeout is what happened. *)

From Stdlib Require Import Relations.Relation_Operators.
From S2P Require Import Prelude RustStd ExecRaces.

(** The watcher is killer 0 of [race]. *)
Definition WATCHER : nat := 0.

Record report_state : Type := mkReport {
  race : kill_state;
  (** [recv_timeout] has returned [Timeout]. *)
  fired : bool;
  (** [child.wait()] has given a status. *)
  waited : bool;
  (** [cancel_tx] has been dropped. *)
  cancelled : bool;
  (** The cell [timed_out], and what [wait_and_report] loaded from it. *)
  flag : bool;
  loaded : option bool;
  (** The signals the watcher has sent. *)
  sent_by_watcher : nat;
}.

Definition stores (y : killer) : bool := match y with KChecked => true | _ => false end.
Definition signals_from (x : killer) : nat := match x with KChecked | KGroup => 1 | _ => 0 end.

(** The step in which the waiter collects the status. *)
Definition collects (s r : kill_state) : bool :=
  match status s, status r with Zombie, Reaped => true | _, _ => false end.

Inductive report_step : report_state -> report_state -> Prop :=
(* the kernel, the waiter up to its unlock, the other killers *)
| rp_others s r : kill_step (race s) r -> killers r !! WATCHER = killers (race s) !! WATCHER ->
    report_step s (mkReport r (fired s) (waited s || collects (race s) r) (cancelled s) (flag s) (loaded s)
                     (sent_by_watcher s))
(* the sleep ends *)
| rp_fire s : cancelled s = false ->
    report_step s (mkReport (race s) true (waited s) (cancelled s) (flag s) (loaded s) (sent_by_watcher s))
(* [kill_tree(SIGKILL, Some(&timed_out))], under the mutex from its first step on *)
| rp_watch s r x y : kill_step (race s) r ->
    killers (race s) !! WATCHER = Some x -> killers r !! WATCHER = Some y -> x <> y ->
    (x = KStart -> fired s = true) ->
    report_step s (mkReport r (fired s) (waited s) (cancelled s) (flag s || stores y) (loaded s)
                     (sent_by_watcher s + signals_from x))
(* [drop(cancel_tx)], after the unlock; [timed_out.load()], or [false] when [wait]
   failed *)
| rp_cancel s : the_waiter (race s) = WOver ->
    report_step s (mkReport (race s) (fired s) (waited s) true (flag s) (loaded s) (sent_by_watcher s))
| rp_load s : cancelled s = true -> loaded s = None ->
    report_step s (mkReport (race s) (fired s) (waited s) (cancelled s) (flag s) (Some (waited s && flag s))
                     (sent_by_watcher s)).

(** [n] killers, the watcher among them. *)
Definition report_start (n : nat) : report_state := mkReport (kill_start n) false false false false None 0.

(** What the watcher has done so far, by where it is. *)
Definition watched (x : option killer) (flag : bool) (sent : nat) : Prop :=
  match x with
  | Some KChecked => flag = true /\ sent = 0%nat
  | Some KGroup => flag = true /\ sent = 1%nat
  | Some KOver => flag = true /\ sent = 2%nat \/ flag = false /\ sent = 0%nat
  | _ => flag = false /\ sent = 0%nat
  end.

Record report_ok (s : report_state) : Prop := {
  ro_race : kill_ok (race s);
  ro_watch : watched (killers (race s) !! WATCHER) (flag s) (sent_by_watcher s);
  ro_cancel : cancelled s = true -> the_waiter (race s) = WOver;
  ro_load b : loaded s = Some b -> cancelled s = true /\ b = waited s && flag s;
}.

Lemma waiter_stays_over s s' : kill_step s s' -> the_waiter s = WOver -> the_waiter s' = WOver.
Proof. destruct 1; simpl; congruence. Qed.

(** The status is collected before the waiter is over. *)
Lemma over_collects s s' : kill_step s s' -> the_waiter s = WOver -> collects s s' = false.
Proof. unfold collects. destruct 1; simpl; intros Hw; try congruence; repeat case_match; congruence. Qed.

(** How one killer moves. *)
Lemma killer_move s s' k x y :
  kill_step s s' -> killers s !! k = Some x -> killers s' !! k = Some y -> x <> y ->
  (x = KStart /\ y = KLocked) \/ (x = KLocked /\ y = KChecked /\ is_running s = true)
  \/ (x = KLocked /\ y = KOver) \/ (x = KChecked /\ y = KGroup) \/ (x = KGroup /\ y = KOver).
Proof.
  intros Hs Hx Hy Hne. destruct Hs as [s H|s H|s H|s H Hm|s H Hz|s H|s H|s j H Hm|s j H Hm|s j H Hm|s j H|s j H];
    simpl in Hy; try congruence.
  all: unfold with_killer in Hy; apply list_lookup_insert_Some in Hy as [(-> & <- & _)|[_ Hy]]; [|congruence].
  all: rewrite H in Hx; injection Hx as <-; auto 10.
Qed.

Lemma report_step_ok s s' : report_step s s' -> report_ok s -> report_ok s'.
Proof.
  intros Hs [Hr Hw Hc Hl]. destruct Hs as [s r Hk Heq|s Hf|s r x y Hk Hx Hy Hne Hfire|s H|s H Hn]; split; simpl; auto.
  - by eapply kill_step_ok.
  - by rewrite Heq.
  - intros H. eapply waiter_stays_over; eauto.
  - intros b Hb. destruct (Hl b Hb) as [H ->]. split; [done|]. by rewrite (over_collects _ _ Hk (Hc H)), orb_false_r.
  - by eapply kill_step_ok.
  - rewrite Hx in Hw. rewrite Hy. destruct (killer_move _ _ _ _ _ Hk Hx Hy Hne)
      as [[-> ->]|[(-> & -> & _)|[[-> ->]|[[-> ->]|[-> ->]]]]]; simpl in *; destruct Hw as [-> ->]; auto.
  - intros H. eapply waiter_stays_over; eauto.
  - intros b Hb. destruct (Hl b Hb) as [H ->]. split; [done|].
    destruct (killer_move _ _ _ _ _ Hk Hx Hy Hne) as [[-> ->]|[(-> & -> & Hrun)|[[-> ->]|[[-> ->]|[-> ->]]]]];
      simpl; rewrite ?orb_false_r; try done.
    by pose proof (ko_running _ Hr Hrun) (Hc H).
  - intros b Hb. destruct (Hl b Hb). auto.
  - by intros b [= <-].
Qed.

(** C9: the exit event tells the truth about the timeout, once the status of the
    command could be collected: it says [timed_out] exactly when the watcher sent its
    signals, both of them, and then they reached the command or its zombie; when it
    says not, the watcher has sent none and, as the command is reaped, never will.
    If [wait] fails it says not, whatever the watcher did (none of its signals or
    both).  All this under every interleaving with the exit, other kills and the
    recycling of the pid. *)
Theorem timed_out_truthful n s b :
  clos_refl_trans_1n _ report_step (report_start n) s -> loaded s = Some b ->
  (if waited s then sent_by_watcher s = (if b then 2 else 0)%nat
   else b = false /\ (sent_by_watcher s = 0 \/ sent_by_watcher s = 2)%nat)
  /\ Forall own_process (hits (race s)).
Proof.
  intros Hsteps. assert (Hok : report_ok s).
  { assert (H0 : report_ok (report_start n)).
    { split; [apply kill_ok_start| |done|done]. simpl. destruct (replicate n KStart !! WATCHER) as [x|] eqn:E; [|done].
      by apply lookup_replicate in E as [-> _]. }
    revert H0. induction Hsteps as [|s0 s1 s Hs _ IH]; [done|]. intros H0. apply IH. by eapply report_step_ok. }
  destruct Hok as [Hr Hw Hc Hl]. intros Hb. destruct (Hl b Hb) as [Hcan ->]. split; [|by apply ko_hits].
  pose proof (ko_checked _ Hr WATCHER) as Hck.
  assert (Hno : forall x, killers (race s) !! WATCHER = Some x -> x = KChecked \/ x = KGroup -> False).
  { intros x Hx Hin. by pose proof (ko_running _ Hr (Hck x Hx Hin)) (Hc Hcan). }
  destruct (killers (race s) !! WATCHER) as [[]|]; simpl in Hw.
  3,4: by destruct (Hno _ eq_refl); auto.
  all: repeat match goal with H : _ \/ _ |- _ => destruct H | H : _ /\ _ |- _ => destruct H end;
    subst; simplify_eq; destruct (waited s), (flag s); auto; done.
Qed.

(** A command that runs into its timeout. *)
Definition timed_out_run : report_state :=
  mkReport (mkKill Reaped false None WOver [KOver] [Alive; Alive]) true true true true (Some true) 2.

Tactic Notation "others" uconstr(step) :=
  eapply rt1n_trans; [eapply rp_others; [simpl; eapply step; reflexivity|reflexivity]|simpl].
Tactic Notation "watches" uconstr(step) :=
  eapply rt1n_trans; [eapply rp_watch; [simpl; eapply step; reflexivity|reflexivity|reflexivity|discriminate|reflexivity || discriminate]|simpl].

Lemma times_out : clos_refl_trans_1n _ report_step (report_start 1) timed_out_run.
Proof.
  eapply rt1n_trans; [by apply rp_fire|].
  watches (ks_kill_lock _ 0%nat). watches (ks_kill_check _ 0%nat).
  watches (ks_kill_group _ 0%nat). watches (ks_kill_leader _ 0%nat).
  others ks_exit. others ks_peek. others ks_wait_lock. others ks_wait. others ks_wait_done.
  eapply rt1n_trans; [by apply rp_cancel|]. eapply rt1n_trans; [by apply rp_load|]. apply rt1n_refl.
Qed.

Lemma timed_out_truthful_witness :
  sent_by_watcher timed_out_run = 2%nat /\ Forall own_process (hits (race timed_out_run)).
Proof. exact (timed_out_truthful 1 timed_out_run true times_out eq_refl). Defined.
