(* ===== verification/ExecPipe.v ===== *)
(** * src/exec.rs: from the command's pipes to the client

    The threads of one foreground command: two readers ([spawn_reader]), the waiter
    ([wait_and_report] with [drain_output_readers]), and the handler that receives
    ([stream_events]), around one bounded channel.  A step is one send, receive or
    read; the kernel decides what the pipes yield. *)

From Stdlib Require Import Relations.Relation_Operators.
From S2P Require Import Prelude RustStd State Exec.

Inductive stream : Type := OnStdout | OnStderr.

#[export] Instance stream_eq_dec : EqDecision stream.
Proof. solve_decision. Defined.

Definition make (k : stream) (data : str) : Event :=
  match k with OnStdout => Stdout (from_utf8_lossy data) | OnStderr => Stderr (from_utf8_lossy data) end.

(** [spawn_reader]: about to read, with what the pipe will yield before it ends; a
    chunk in hand; past the loop; its [done_tx.send] made. *)
Inductive reader_pc : Type :=
| RRead (pipe : list str)
| RSend (data : str) (pipe : list str)
| RDone
| ROver.

(** [wait_and_report]: the child runs; draining, with so many readers to hear from;
    about to send the exit; finished. *)
Inductive waiter_pc : Type := WChild | WDrain (left : nat) | WSend (info : ExitInfo) | WEnd.

Record pipe_state : Type := mkPipe {
  readers : stream -> reader_pc;
  (** Messages on [output_done] not received yet. *)
  done_msgs : nat;
  wait_pc : waiter_pc;
  (** The drain gave up at its deadline. *)
  drain_expired : bool;
  queue : list Event;
  (** The handler still listens. *)
  listening : bool;
  received : list Event;
}.

Definition set_pc (k : stream) (r : reader_pc) (f : stream -> reader_pc) : stream -> reader_pc :=
  fun j => if decide (j = k) then r else f j.

Definition is_exit (e : Event) : bool := match e with Exit _ => true | _ => false end.

(** The bound of the [sync_channel]. *)
Definition room (s : pipe_state) : Prop := (length (queue s) < OUTPUT_QUEUE_CHUNKS)%nat.

Inductive pipe_step : pipe_state -> pipe_state -> Prop :=
| ps_read s k d pipe : readers s k = RRead (d :: pipe) ->
    pipe_step s (mkPipe (set_pc k (RSend d pipe) (readers s)) (done_msgs s) (wait_pc s)
                   (drain_expired s) (queue s) (listening s) (received s))
| ps_eof s k : readers s k = RRead [] ->
    pipe_step s (mkPipe (set_pc k RDone (readers s)) (done_msgs s) (wait_pc s)
                   (drain_expired s) (queue s) (listening s) (received s))
| ps_send s k d pipe : readers s k = RSend d pipe -> listening s = true -> room s ->
    pipe_step s (mkPipe (set_pc k (RRead pipe) (readers s)) (done_msgs s) (wait_pc s)
                   (drain_expired s) (queue s ++ [make k d]) (listening s) (received s))
| ps_send_closed s k d pipe : readers s k = RSend d pipe -> listening s = false ->
    pipe_step s (mkPipe (set_pc k RDone (readers s)) (done_msgs s) (wait_pc s)
                   (drain_expired s) (queue s) (listening s) (received s))
| ps_done s k : readers s k = RDone ->
    pipe_step s (mkPipe (set_pc k ROver (readers s)) (S (done_msgs s)) (wait_pc s)
                   (drain_expired s) (queue s) (listening s) (received s))
| ps_exited s : wait_pc s = WChild ->
    pipe_step s (mkPipe (readers s) (done_msgs s) (WDrain 2) (drain_expired s) (queue s) (listening s) (received s))
| ps_drain s n m : wait_pc s = WDrain (S n) -> done_msgs s = S m ->
    pipe_step s (mkPipe (readers s) m (WDrain n) (drain_expired s) (queue s) (listening s) (received s))
| ps_expire s n info : wait_pc s = WDrain (S n) ->
    pipe_step s (mkPipe (readers s) (done_msgs s) (WSend info) true (queue s) (listening s) (received s))
| ps_drained s info : wait_pc s = WDrain 0 ->
    pipe_step s (mkPipe (readers s) (done_msgs s) (WSend info) (drain_expired s) (queue s) (listening s) (received s))
| ps_exit s info : wait_pc s = WSend info -> listening s = true -> room s ->
    pipe_step s (mkPipe (readers s) (done_msgs s) WEnd (drain_expired s) (queue s ++ [Exit info]) (listening s) (received s))
| ps_exit_closed s info : wait_pc s = WSend info -> listening s = false ->
    pipe_step s (mkPipe (readers s) (done_msgs s) WEnd (drain_expired s) (queue s) (listening s) (received s))
| ps_recv s e q : listening s = true -> queue s = e :: q ->
    pipe_step s (mkPipe (readers s) (done_msgs s) (wait_pc s) (drain_expired s) q
                   (negb (is_exit e)) (received s ++ [e]))
(* the connection broke: the handler returns and the channel closes *)
| ps_hang_up s : listening s = true ->
    pipe_step s (mkPipe (readers s) (done_msgs s) (wait_pc s) (drain_expired s) (queue s) false (received s)).

Definition pipe_start (yield : stream -> list str) : pipe_state :=
  mkPipe (fun k => RRead (yield k)) 0 WChild false [] true [].

(** The events of one stream. *)
Definition of_stream (k : stream) (e : Event) : bool :=
  match k, e with OnStdout, Stdout _ | OnStderr, Stderr _ => true | _, _ => false end.
Definition only (k : stream) (es : list Event) : list Event := List.filter (of_stream k) es.

(** What a reader has still to send, and whether it is past its loop. *)
Definition pending (k : stream) (r : reader_pc) : list Event :=
  match r with
  | RRead pipe => map (make k) pipe
  | RSend d pipe => make k d :: map (make k) pipe
  | _ => []
  end.
Definition over (r : reader_pc) : nat := match r with ROver => 1 | _ => 0 end.

(** How many [output_done] messages the waiter has received, unless it gave up. *)
Definition heard (w : waiter_pc) : nat :=
  match w with WChild => 0 | WDrain n => 2 - n | _ => 2 end.

Definition no_exit (es : list Event) : Prop := Forall (fun e => is_exit e = false) es.

(** The order and completeness of what the handler has received or will receive. *)
Record pipe_ok (yield : stream -> list str) (s : pipe_state) : Prop := {
  po_bound : (length (queue s) <= OUTPUT_QUEUE_CHUNKS)%nat;
  po_flow k : listening s = true ->
    only k (received s ++ queue s) ++ pending k (readers s k) = map (make k) (yield k);
  po_prefix k : exists rest, only k (received s) ++ rest = map (make k) (yield k);
  po_drain n : wait_pc s = WDrain n -> (n <= 2)%nat;
  po_heard : drain_expired s = false ->
    (heard (wait_pc s) + done_msgs s = over (readers s OnStdout) + over (readers s OnStderr))%nat;
  po_none_yet : wait_pc s <> WEnd -> no_exit (received s ++ queue s);
  po_none_read : listening s = true -> no_exit (received s);
  po_last : listening s = true -> wait_pc s = WEnd -> drain_expired s = false ->
    exists es info, received s ++ queue s = es ++ [Exit info] /\ no_exit es;
  po_complete : drain_expired s = false -> ~ no_exit (received s) ->
    (exists es info, received s = es ++ [Exit info] /\ no_exit es)
    /\ forall k, only k (received s) = map (make k) (yield k);
}.

Lemma only_app k a b : only k (a ++ b) = only k a ++ only k b.
Proof. apply List.filter_app. Qed.

Lemma only_make k d : only k [make k d] = [make k d].
Proof. by destruct k. Qed.

Lemma only_other k j d : j <> k -> only k [make j d] = [].
Proof. by destruct k, j. Qed.

Lemma make_no_exit k d : is_exit (make k d) = false.
Proof. by destruct k. Qed.

Lemma set_pc_eq k r f : set_pc k r f k = r.
Proof. unfold set_pc. by rewrite decide_True. Qed.

Lemma set_pc_ne k j r f : j <> k -> set_pc k r f j = f j.
Proof. intros. unfold set_pc. by rewrite decide_False. Qed.

Lemma pipe_start_ok yield : pipe_ok yield (pipe_start yield).
Proof.
  split; simpl; try done; try (by intros; constructor).
  - lia.
  - intros k. by eexists.
  - intros _ H. destruct H. constructor.
Qed.

(** What changes in what a reader has to send. *)
Lemma pending_set k r f j :
  pending k r = pending k (f k) -> pending j (set_pc k r f j) = pending j (f j).
Proof. intros H. destruct (decide (j = k)) as [->|Hne]; [by rewrite set_pc_eq|by rewrite set_pc_ne]. Qed.

Lemma over_set k r f : over r = over (f k) ->
  (over (set_pc k r f OnStdout) + over (set_pc k r f OnStderr))%nat = (over (f OnStdout) + over (f OnStderr))%nat.
Proof. intros H. destruct k; unfold set_pc; simpl; rewrite H; done. Qed.

Lemma over_done k f : over (f k) = 0%nat ->
  (over (set_pc k ROver f OnStdout) + over (set_pc k ROver f OnStderr))%nat
  = S (over (f OnStdout) + over (f OnStderr))%nat.
Proof. intros H. destruct k; unfold set_pc; simpl; lia. Qed.

Lemma over_le r : (over r <= 1)%nat.
Proof. destruct r; simpl; lia. Qed.

Lemma over_pending k r : over r = 1%nat -> pending k r = [].
Proof. by destruct r. Qed.

(** Both readers are over once the waiter has heard from them. *)
Lemma heard_all yield s : pipe_ok yield s -> drain_expired s = false -> heard (wait_pc s) = 2%nat ->
  forall k, pending k (readers s k) = [].
Proof.
  intros Hok Hex Hh k. pose proof (po_heard _ _ Hok Hex) as H.
  pose proof (over_le (readers s OnStdout)). pose proof (over_le (readers s OnStderr)).
  apply over_pending. destruct k; lia.
Qed.

Lemma no_exit_app a b : no_exit (a ++ b) <-> no_exit a /\ no_exit b.
Proof. apply Forall_app. Qed.

Lemma step_bound yield s s' : pipe_ok yield s -> pipe_step s s' -> (length (queue s') <= OUTPUT_QUEUE_CHUNKS)%nat.
Proof.
  intros Hok Hs. pose proof (po_bound _ _ Hok). destruct Hs; simpl; try done;
    unfold room in *; rewrite ?length_app; simpl; try lia.
  match goal with H : queue _ = _ |- _ => rewrite H in *; simpl in *; lia end.
Qed.

Lemma step_flow yield s s' k : pipe_ok yield s -> pipe_step s s' -> listening s' = true ->
  only k (received s' ++ queue s') ++ pending k (readers s' k) = map (make k) (yield k).
Proof.
  intros Hok Hs Hl. pose proof (po_flow _ _ Hok k) as Hf.
  destruct Hs as [s j d pipe Hr|s j Hr|s j d pipe Hr Ho Hroom|s j d pipe Hr Ho|s j Hr|s Hw|s n m Hw Hm
    |s n info Hw|s info Hw|s info Hw Ho Hroom|s info Hw Ho|s e q Ho Hq|s Ho]; simpl in *;
    try (by apply Hf); try congruence.
  - rewrite pending_set; [by apply Hf|]. by rewrite Hr.
  - rewrite pending_set; [by apply Hf|]. by rewrite Hr.
  - rewrite <- (Hf Ho), app_assoc, only_app, <- app_assoc. f_equal.
    destruct (decide (j = k)) as [->|Hne].
    + by rewrite set_pc_eq, only_make, Hr.
    + by rewrite set_pc_ne, (only_other k j).
  - rewrite pending_set; [by apply Hf|]. by rewrite Hr.
  - rewrite <- (Hf Ho), app_assoc, only_app. by destruct k; rewrite app_nil_r.
  - rewrite <- app_assoc. rewrite Hq in Hf. by apply Hf.
Qed.

Lemma step_prefix yield s s' k : pipe_ok yield s -> pipe_step s s' ->
  exists rest, only k (received s') ++ rest = map (make k) (yield k).
Proof.
  intros Hok Hs. pose proof (po_prefix _ _ Hok k) as Hp. pose proof (po_flow _ _ Hok k) as Hf.
  destruct Hs; simpl; try done.
  match goal with H : queue _ = _ |- _ => rewrite H in Hf end.
  rewrite <- Hf by done. eexists. change (e :: q) with ([e] ++ q). rewrite (app_assoc (received s) [e] q), (only_app k _ q).
  by rewrite <- app_assoc.
Qed.

Lemma step_heard yield s s' : pipe_ok yield s -> pipe_step s s' -> drain_expired s' = false ->
  (heard (wait_pc s') + done_msgs s' = over (readers s' OnStdout) + over (readers s' OnStderr))%nat.
Proof.
  intros Hok Hs Hex. pose proof (po_heard _ _ Hok) as Hh. pose proof (po_drain _ _ Hok) as Hd.
  destruct Hs as [s j d pipe Hr|s j Hr|s j d pipe Hr Ho Hroom|s j d pipe Hr Ho|s j Hr|s Hw|s n m Hw Hm
    |s n info Hw|s info Hw|s info Hw Ho Hroom|s info Hw Ho|s e q Ho Hq|s Ho]; simpl in *;
    try (by apply Hh); try congruence.
  1-4: rewrite over_set; [by apply Hh|by rewrite Hr].
  - rewrite over_done by (by rewrite Hr). specialize (Hh Hex). lia.
  - rewrite Hw in Hh. simpl in Hh. specialize (Hh Hex). lia.
  - rewrite Hw in Hh, Hd. specialize (Hh Hex). specialize (Hd _ eq_refl). simpl in Hh. lia.
  - rewrite Hw in Hh. specialize (Hh Hex). simpl in Hh. lia.
  - rewrite Hw in Hh. specialize (Hh Hex). simpl in Hh. lia.
  - rewrite Hw in Hh. specialize (Hh Hex). simpl in Hh. lia.
Qed.

Lemma step_none_yet yield s s' : pipe_ok yield s -> pipe_step s s' -> wait_pc s' <> WEnd ->
  no_exit (received s' ++ queue s').
Proof.
  intros Hok Hs Hw'. pose proof (po_none_yet _ _ Hok) as Hn.
  destruct Hs; simpl in *; try done; try (apply Hn; congruence).
  - rewrite app_assoc. apply no_exit_app. split; [by apply Hn|]. constructor; [apply make_no_exit|constructor].
  - rewrite <- app_assoc. match goal with H : queue _ = _ |- _ => rewrite H in Hn end. by apply Hn.
Qed.

Lemma step_none_read yield s s' : pipe_ok yield s -> pipe_step s s' -> listening s' = true -> no_exit (received s').
Proof.
  intros Hok Hs Hl. pose proof (po_none_read _ _ Hok) as Hn.
  destruct Hs; simpl in *; try (by apply Hn); try congruence.
  apply no_exit_app. split; [by apply Hn|]. constructor; [by destruct (is_exit e)|constructor].
Qed.

Lemma step_last yield s s' : pipe_ok yield s -> pipe_step s s' ->
  listening s' = true -> wait_pc s' = WEnd -> drain_expired s' = false ->
  exists es info, received s' ++ queue s' = es ++ [Exit info] /\ no_exit es.
Proof.
  intros Hok Hs Hl Hw Hex. pose proof (po_last _ _ Hok) as Hn.
  destruct Hs as [s j d pipe Hr|s j Hr|s j d pipe Hr Ho Hroom|s j d pipe Hr Ho|s j Hr|s Hw'|s n m Hw' Hm
    |s n info Hw'|s info Hw'|s info Hw' Ho Hroom|s info Hw' Ho|s e q Ho Hq|s Ho]; simpl in *;
    try (by apply Hn); try congruence.
  - pose proof (heard_all _ _ Hok Hex) as Hp. rewrite Hw in Hp. specialize (Hp eq_refl j). by rewrite Hr in Hp.
  - exists (received s ++ queue s), info. rewrite app_assoc. split; [done|]. apply (po_none_yet _ _ Hok). by rewrite Hw'.
  - rewrite <- app_assoc. rewrite Hq in Hn. by apply Hn.
Qed.

(** Where the exit is the only one and comes last, nothing follows it. *)
Lemma exit_last (es a b : list Event) info e :
  no_exit es -> a ++ e :: b = es ++ [Exit info] -> is_exit e = true -> a = es /\ e = Exit info /\ b = [].
Proof.
  intros Hes E He. revert es E Hes. induction a as [|x a IH]; intros [|y es] E Hes; simpl in E.
  - by injection E as -> ->.
  - injection E as -> _. apply Forall_cons in Hes as [Hy _]. congruence.
  - injection E as _ E. by destruct a.
  - injection E as -> E. apply Forall_cons in Hes as [_ Hes].
    destruct (IH _ E Hes) as (-> & -> & ->). done.
Qed.

Lemma step_complete yield s s' : pipe_ok yield s -> pipe_step s s' ->
  drain_expired s' = false -> ~ no_exit (received s') ->
  (exists es info, received s' = es ++ [Exit info] /\ no_exit es)
  /\ forall k, only k (received s') = map (make k) (yield k).
Proof.
  intros Hok Hs Hex Hno. pose proof (po_complete _ _ Hok) as Hc.
  destruct Hs as [s j d pipe Hr|s j Hr|s j d pipe Hr Ho Hroom|s j d pipe Hr Ho|s j Hr|s Hw'|s n m Hw' Hm
    |s n info Hw'|s info Hw'|s info Hw' Ho Hroom|s info Hw' Ho|s e q Ho Hq|s Ho]; simpl in *;
    try (by apply Hc); try congruence.
  pose proof (po_none_read _ _ Hok Ho) as Hnr.
  assert (He : is_exit e = true).
  { destruct (is_exit e) eqn:He; [done|]. destruct Hno. apply no_exit_app. split; [done|]. by constructor. }
  assert (Hw : wait_pc s = WEnd).
  { destruct (wait_pc s) eqn:Hw; try done; exfalso;
      pose proof (po_none_yet _ _ Hok) as Hn; rewrite Hw, Hq in Hn;
      (specialize (Hn ltac:(discriminate)); apply no_exit_app in Hn as [_ Hn];
       apply Forall_cons in Hn as [Hn _]; congruence). }
  destruct (po_last _ _ Hok Ho Hw Hex) as (es & info & E & Hes). rewrite Hq in E.
  destruct (exit_last _ _ _ _ _ Hes E He) as (Ha & -> & Hb). subst. split; [by exists (received s), info|].
  intros k. rewrite <- (po_flow _ _ Hok k Ho), Hq, (heard_all _ _ Hok Hex) by (by rewrite Hw).
  by rewrite app_nil_r.
Qed.

Lemma pipe_step_ok yield s s' : pipe_ok yield s -> pipe_step s s' -> pipe_ok yield s'.
Proof.
  intros Hok Hs. split; eauto using step_bound, step_flow, step_prefix, step_heard, step_none_yet,
    step_none_read, step_last, step_complete.
  intros n. pose proof (po_drain _ _ Hok) as Hd. destruct Hs; simpl; intros Hw; simplify_eq; eauto.
  match goal with H : wait_pc _ = WDrain (S _) |- _ => apply Hd in H; lia end.
Qed.

Abbreviation pipe_steps := (clos_refl_trans_1n _ pipe_step).

Lemma pipe_steps_ok yield s s' : pipe_steps s s' -> pipe_ok yield s -> pipe_ok yield s'.
Proof. induction 1; eauto using pipe_step_ok. Qed.

(** C13: what the client of a foreground command is sent, under every interleaving of
    the two readers, the waiter and the handler: at most 64 events wait in between;
    of each stream it gets a prefix of what the pipe yielded, in order and nothing
    twice; and if it gets an exit event while the drain did not time out, that is
    the last event, the only exit, and all output of both streams came before it. *)
Theorem output_before_exit yield s :
  pipe_steps (pipe_start yield) s ->
  (length (queue s) <= OUTPUT_QUEUE_CHUNKS)%nat
  /\ (forall k, exists rest, only k (received s) ++ rest = map (make k) (yield k))
  /\ (drain_expired s = false -> ~ no_exit (received s) ->
      (exists es info, received s = es ++ [Exit info] /\ no_exit es)
      /\ forall k, only k (received s) = map (make k) (yield k)).
Proof.
  intros Hs. pose proof (pipe_steps_ok yield _ _ Hs (pipe_start_ok yield)) as Hok.
  split; [apply Hok|]. split; [intros k; by apply po_prefix|]. by apply po_complete.
Qed.

Definition echo_yield (k : stream) : list str := match k with OnStdout => [lit "hi"] | OnStderr => [] end.

Definition ok_exit : ExitInfo :=
  {| exit_code := Some 0; signal := None; timed_out := false; duration_ms := 3 |}.

(** One step by a named rule, its conditions decided. *)
Tactic Notation "pipe_by" uconstr(rule) :=
  eapply rt1n_trans; [eapply rule; unfold room; simpl; try reflexivity; unfold OUTPUT_QUEUE_CHUNKS; lia|]; simpl.

Lemma output_before_exit_witness :
  exists s, pipe_steps (pipe_start echo_yield) s
    /\ received s = [Stdout (lit "hi"); Exit ok_exit]
    /\ drain_expired s = false /\ ~ no_exit (received s)
    /\ forall k, only k (received s) = map (make k) (echo_yield k).
Proof.
  assert (Hs : exists s, pipe_steps (pipe_start echo_yield) s
    /\ received s = [Stdout (lit "hi"); Exit ok_exit] /\ drain_expired s = false).
  { eexists. split.
    - unfold pipe_start. pipe_by (ps_read _ OnStdout). pipe_by (ps_send _ OnStdout).
      pipe_by (ps_eof _ OnStdout). pipe_by (ps_eof _ OnStderr). pipe_by ps_exited.
      pipe_by (ps_done _ OnStdout). pipe_by (ps_done _ OnStderr). pipe_by ps_drain. pipe_by ps_drain.
      pipe_by (ps_drained _ ok_exit). pipe_by ps_exit. pipe_by ps_recv. pipe_by ps_recv. apply rt1n_refl.
    - split; reflexivity. }
  destruct Hs as (s & Hs & Hr & Hd).
  assert (Hno : ~ no_exit (received s)).
  { rewrite Hr. intros H. apply Forall_inv_tail, Forall_inv in H. discriminate. }
  exists s. repeat (split; [done|]).
  exact (proj2 (proj2 (proj2 (output_before_exit echo_yield s Hs)) Hd Hno)).
Defined.
