(* ===== verification/Ledger.v ===== *)
(** * Auditing the system calls of a piece of code

    A book is kept of the calls as they are made: [step] is how one call changes
    it, [None] when the call is not allowed.  [audit] is a Hoare-style judgement:
    from book [D], code [m] only makes allowed calls and ends with a result and a
    book that satisfy [Q], whatever the kernel answers. *)

From S2P Require Import Prelude RustStd Kernel Wp Host.

Section Books.
Context {L : Type} (step : L -> event -> option L).

Fixpoint ledger (D : L) (evs : list event) : option L :=
  match evs with
  | [] => Some D
  | e :: rest => match step D e with Some D' => ledger D' rest | None => None end
  end.

Lemma ledger_app D evs1 evs2 :
  ledger D (evs1 ++ evs2) = ledger D evs1 ≫= fun D' => ledger D' evs2.
Proof.
  revert D. induction evs1 as [|e evs1 IH]; intros D; simpl; [done|]. destruct (step D e); simpl; auto.
Qed.

(** The state [m] runs on and the trace in it. *)
Section Judgement.
Context {S : Type} (tr : S -> list event).
Definition audit {A} (D : L) (m : io S A) (Q : result A io_error -> L -> Prop) : Prop :=
  forall s, wp m s (fun r s' => exists evs D', tr s' = tr s ++ evs /\ ledger D evs = Some D' /\ Q r D').

Implicit Types D : L.

Lemma audit_mono {A} D (m : io S A) (P Q : result A io_error -> L -> Prop) :
  audit D m P -> (forall r D', P r D' -> Q r D') -> audit D m Q.
Proof.
  intros Hm HPQ s. eapply wp_mono; [apply Hm|]. simpl. intros r s' (evs & D' & ? & ? & ?). eauto 6.
Qed.

Lemma audit_quiet {A} D (m : io S A) Q :
  (forall s, wp m s (fun r s' => tr s' = tr s /\ Q r D)) -> audit D m Q.
Proof.
  intros Hm s. eapply wp_mono; [apply Hm|]. simpl. intros r s' [Ht HQ]. exists [], D. by rewrite app_nil_r.
Qed.

Lemma audit_ret {A} D (a : A) (Q : result A io_error -> L -> Prop) : Q (Ok a) D -> audit D (io_ret a) Q.
Proof. intros HQ. apply audit_quiet. intros s. by split. Qed.
Lemma audit_fail {A} D e (Q : result A io_error -> L -> Prop) : Q (Err e) D -> audit D (io_fail e) Q.
Proof. intros HQ. apply audit_quiet. intros s. by split. Qed.
Lemma audit_lift {A} D (r : result A io_error) (Q : result A io_error -> L -> Prop) :
  Q r D -> audit D (io_lift r) Q.
Proof. intros HQ. apply audit_quiet. intros s. by split. Qed.
Lemma audit_gets {A} D (f : S -> A) (Q : result A io_error -> L -> Prop) :
  (forall a, Q (Ok a) D) -> audit D (io_gets f) Q.
Proof. intros HQ. apply audit_quiet. intros s. split; [done|apply HQ]. Qed.

(** One piece of code after another. *)
Lemma audit_then {A B} D (m : io S A) (P : result A io_error -> L -> Prop)
    (k : result A io_error -> io S B) Q :
  audit D m P -> (forall r D', P r D' -> audit D' (k r) Q) ->
  audit D (fun s => k (m s).1 (m s).2) Q.
Proof.
  intros Hm Hk s. unfold wp. destruct (Hm s) as (e1 & D1 & Ht1 & Hl1 & HP).
  destruct (Hk _ _ HP (m s).2) as (e2 & D2 & Ht2 & Hl2 & HQ).
  exists (e1 ++ e2), D2. rewrite Ht2, Ht1, app_assoc, ledger_app, Hl1. done.
Qed.

Lemma audit_bind {A B} D (m : io S A) (k : A -> io S B) P Q :
  audit D m P ->
  (forall a D', P (Ok a) D' -> audit D' (k a) Q) ->
  (forall e D', P (Err e) D' -> Q (Err e) D') ->
  audit D (io_bind m k) Q.
Proof.
  intros Hm Hk He s.
  pose proof (audit_then D m P (fun r => match r with Ok a => k a | Err e => io_fail e end) Q Hm) as H.
  assert (Hall : forall r D', P r D' -> audit D' (match r with Ok a => k a | Err e => io_fail e end) Q).
  { intros [a|e] D' HP; [by apply Hk|]. apply audit_fail. by apply He. }
  specialize (H Hall s). unfold wp in *. unfold io_bind. by destruct (m s) as [[a|e] s'].
Qed.

Lemma audit_try {A} D (m : io S A) Q : audit D m (fun r D' => Q (Ok r) D') -> audit D (io_try m) Q.
Proof. intros Hm s. apply wp_try. apply Hm. Qed.
Lemma audit_ignore {A} D (m : io S A) Q : audit D m (fun _ D' => Q (Ok tt) D') -> audit D (io_ignore m) Q.
Proof. intros Hm s. apply wp_ignore. apply Hm. Qed.

Lemma audit_finally {A} D (m : io S A) clean P Q :
  audit D m P -> (forall r D', P r D' -> audit D' clean (fun _ D'' => Q r D'')) ->
  audit D (io_finally m clean) Q.
Proof.
  intros Hm Hc s.
  pose proof (audit_then D m P (fun r s1 => (r, (clean s1).2)) Q Hm) as H.
  assert (Hall : forall r D', P r D' -> audit D' (fun s1 => (r, (clean s1).2)) Q).
  { intros r D' HP s1. specialize (Hc r D' HP s1). unfold wp in *. simpl. done. }
  specialize (H Hall s). unfold wp in *. unfold io_finally. by destruct (m s).
Qed.

Lemma audit_on_error {A} D (m : io S A) clean P Q :
  audit D m P -> (forall a D', P (Ok a) D' -> Q (Ok a) D') ->
  (forall e D', P (Err e) D' -> audit D' clean (fun _ D'' => Q (Err e) D'')) ->
  audit D (io_on_error m clean) Q.
Proof.
  intros Hm Ho He s.
  pose proof (audit_then D m P
    (fun r s1 => match r with Ok a => (Ok a, s1) | Err e => (Err e, (clean s1).2) end) Q Hm) as H.
  assert (Hall : forall r D', P r D' ->
    audit D' (fun s1 => match r with Ok a => (Ok a, s1) | Err e => (Err e, (clean s1).2) end) Q).
  { intros [a|e] D' HP; [by apply audit_quiet; intros; split; [|apply Ho]|].
    intros s1. specialize (He e D' HP s1). unfold wp in *. simpl. done. }
  specialize (H Hall s). unfold wp in *. unfold io_on_error. by destruct (m s) as [[a|e] s'].
Qed.
End Judgement.


(** Code that leaves the book as it was; code whose outcome is also ignored. *)
Definition keeps {A} (D : L) (r : result A io_error) (D' : L) : Prop := D' = D.
Definition surely (D : L) (r : result unit io_error) (D' : L) : Prop := r = Ok tt /\ D' = D.

End Books.

(** One call, as the kernel [K] answers it. *)
Lemma audit_call {K : Kernel} {L} (step : L -> event -> option L) D c Q :
  (forall r w w', syscall (Kernel:=K) c w = (r, w') -> exists D', step D (Event c r) = Some D'
     /\ Q (match r with Ok a => Ok a | Err e => Err (from_raw_os_error e) end) D') ->
  audit step (@trace K) D (hsys c) Q.
Proof.
  intros HQ h. unfold wp, hsys, on_world, io_lens. rewrite (sys_run (K:=Traced K)).
  destruct h as [[w t] a ru o]. simpl. destruct (syscall c w) as [r w'] eqn:E. simpl.
  destruct (HQ r w w' E) as (D' & Hl & Hq). exists [Event c r], D'. cbn [ledger]. by rewrite Hl.
Qed.


Lemma audit_call_ {K : Kernel} {L} (step : L -> event -> option L) D c Q :
  (forall r, exists D', step D (Event c r) = Some D' /\ Q (Ok tt) D') ->
  audit step (@trace K) D (hsys_ c) Q.
Proof.
  intros HQ h. apply wp_hsys_. intros r w. destruct (HQ r) as (D' & Hl & Hq).
  exists [Event c r], D'. cbn [ledger]. by rewrite Hl.
Qed.
