(* ===== verification/Fsutil.v ===== *)
(** * src/fsutil.rs

    Files and directories by descriptor.  A [File] is its descriptor; dropping it
    closes it, so every function says when each of its files is closed.  The
    theorems are in file FsutilFacts. *)

From S2P Require Import Prelude RustStd Kernel Host Paths.

Definition BASE_FLAGS : Z := Z.lor (Z.lor O_CLOEXEC O_NOFOLLOW) O_NONBLOCK.

Definition c_path (path : str) : result str io_error :=
  if existsb (eqc NUL) path then Err (error_new InvalidInput (lit "path contains NUL")) else Ok path.

Definition proc_fd_path (file : Z) : str := lit "/proc/self/fd/" ++ show_int file.

(** [PathBuf] operations on the lexical resolution of a request's path. *)
Definition normalize_component (result : str) (component : Component) : str :=
  match component with
  | Normal name => push_path result name
  | ParentDir => pop_path result
  | _ => result
  end.
Definition normalize_relative (path : str) : str := fold_left normalize_component (components path) [].

Definition components_of (path : str) : list str :=
  omap (fun component => match component with Normal name => Some name | _ => None end) (components path).

(** The home directory of one sandbox, open. *)
Record ScopedRoot : Type := mkScopedRoot {
  root_home : str;
  dir : Z;
  root_uid : Z;
}.

Record Located : Type := mkLocated {
  loc_parent : Z;
  loc_name : option str;
}.

Definition EISDIR_ERROR {K : Kernel} : io_error := from_raw_os_error EISDIR.
Definition not_regular : io_error := error_new InvalidInput (lit "not a regular file").

Section Fsutil.
Context {K : Kernel}.

Definition close (file : Z) : io Host unit := hsys_ (Close file).

Definition open_at (dirfd : Z) (name : str) (flags mode : Z) : io Host Z :=
  name <- io_lift (c_path name) ;;
  hsys (Openat dirfd name (Z.lor flags BASE_FLAGS) mode).

Definition open_dir_at (dirfd : Z) (name : str) : io Host Z := open_at dirfd name (Z.lor O_RDONLY O_DIRECTORY) 0.
Definition open_path_at (dirfd : Z) (name : str) : io Host Z := open_at dirfd name O_PATH 0.

Definition mkdir_at (dirfd : Z) (name : str) (mode : Z) : io Host unit :=
  name <- io_lift (c_path name) ;;
  r <- io_try (hsys (Mkdirat dirfd name mode)) ;;
  match r with
  | Ok _ => io_ret tt
  | Err err => if bool_decide (err_kind err = AlreadyExists) then io_ret tt else io_fail err
  end.

Definition unlink_at (dirfd : Z) (name : str) (dir : bool) : io Host unit :=
  name <- io_lift (c_path name) ;;
  hsys (Unlinkat dirfd name (if dir then AT_REMOVEDIR else 0)).

Definition fchown (file uid : Z) : io Host unit := hsys (Fchown file uid uid).
Definition fchmod (file mode : Z) : io Host unit := hsys (Fchmod file mode).
Definition file_metadata (file : Z) : io Host Metadata := hsys (Fstat file).

(** [open_path_at(..)?.metadata()]: the file is dropped with the statement. *)
Definition metadata_at (dirfd : Z) (name : str) : io Host Metadata :=
  handle <- open_path_at dirfd name ;;
  io_finally (file_metadata handle) (close handle).

(** ** [ScopedRoot] *)

Definition scoped_open (home : str) (uid : Z) : io Host ScopedRoot :=
  c_home <- io_lift (c_path home) ;;
  fd <- hsys (Open c_home (Z.lor (Z.lor (Z.lor O_RDONLY O_DIRECTORY) O_CLOEXEC) O_NOFOLLOW) 0) ;;
  io_ret (mkScopedRoot home fd uid).

Definition dir_fd (root : ScopedRoot) : Z := dir root.
Definition display (root : ScopedRoot) (rel : str) : str := join_path (root_home root) rel.
Definition dup_dir (root : ScopedRoot) : io Host Z := hsys (DupFd (dir root)).

(** The loop of [locate], holding [parent]. *)
Fixpoint descend (uid parent : Z) (components : list str) (create_dirs : bool) : io Host Z :=
  match components with
  | [] => io_ret parent
  | component :: rest =>
      next <- io_on_error
        ((if create_dirs then mkdir_at parent component 448 else io_ret tt) ;;;
         open_dir_at parent component)
        (close parent) ;;
      (if create_dirs then io_ignore (fchown next uid) else io_ret tt) ;;;
      close parent ;;;
      descend uid next rest create_dirs
  end.

Definition locate (root : ScopedRoot) (rel : str) (create_dirs : bool) : io Host Located :=
  match rev (components_of rel) with
  | [] => parent <- dup_dir root ;; io_ret (mkLocated parent None)
  | name :: up =>
      parent <- dup_dir root ;;
      parent <- descend (root_uid root) parent (rev up) create_dirs ;;
      io_ret (mkLocated parent (Some name))
  end.

(** [locate], and the rest of the function that holds its result. *)
Definition locating {A} (root : ScopedRoot) (rel : str) (create_dirs : bool)
    (rest : Z -> option str -> io Host A) : io Host A :=
  located <- locate root rel create_dirs ;;
  io_finally (rest (loc_parent located) (loc_name located)) (close (loc_parent located)).

Definition open_read (root : ScopedRoot) (rel : str) : io Host Z :=
  locating root rel false (fun parent name =>
    match name with
    | None => io_fail EISDIR_ERROR
    | Some name =>
        file <- open_at parent name O_RDONLY 0 ;;
        io_on_error
          (metadata <- file_metadata file ;;
           if is_dir metadata then io_fail EISDIR_ERROR
           else if negb (is_file metadata) then io_fail not_regular
           else io_ret file)
          (close file)
    end).

Definition open_write (root : ScopedRoot) (rel : str) (create_parents : bool) (offset : option Z) : io Host Z :=
  locating root rel create_parents (fun parent name =>
    match name with
    | None => io_fail EISDIR_ERROR
    | Some name =>
        let flags := Z.lor O_WRONLY O_CREAT in
        let flags := match offset with None => Z.lor flags O_TRUNC | Some _ => flags end in
        file <- open_at parent name flags 384 ;;
        io_on_error
          (metadata <- file_metadata file ;;
           if negb (is_file metadata) then io_fail not_regular
           else io_ignore (fchown file (root_uid root)) ;;; io_ret file)
          (close file)
    end).

Definition metadata (root : ScopedRoot) (rel : str) : io Host Metadata :=
  locating root rel false (fun parent name =>
    match name with
    | None => file_metadata parent
    | Some name => metadata_at parent name
    end).

(** The loop of [list] over the entries of directory [dir]. *)
Fixpoint list_entries (shown : str -> str) (dir : Z) (names : list (result str Z)) : io Host (list (str * Metadata)) :=
  match names with
  | [] => io_ret []
  | Err e :: _ => io_fail (from_raw_os_error e)
  | Ok name :: rest =>
      found <- io_try (metadata_at dir name) ;;
      others <- list_entries shown dir rest ;;
      io_ret (match found with Ok metadata => (shown name, metadata) :: others | Err _ => others end)
  end.

Definition list_dir (root : ScopedRoot) (rel : str) : io Host (list (str * Metadata)) :=
  locating root rel false (fun parent name =>
    dir <- match name with
           | None => dup_dir root
           | Some name => open_dir_at parent name
           end ;;
    io_finally
      (names <- hsys (ReadDir (proc_fd_path dir)) ;;
       list_entries (fun name => display root (join_path rel name)) dir names)
      (close dir)).

(** The first loop of [remove_dir_contents]: what is no directory goes, the
    directories are left for the second. *)
Fixpoint unlink_files (dir : Z) (names : list (result str Z)) : io Host (list str) :=
  match names with
  | [] => io_ret []
  | Err e :: _ => io_fail (from_raw_os_error e)
  | Ok name :: rest =>
      m <- io_try (metadata_at dir name) ;;
      if match m with Ok m => is_dir m | Err _ => false end then
        subdirs <- unlink_files dir rest ;; io_ret (name :: subdirs)
      else
        unlink_at dir name false ;;;
        unlink_files dir rest
  end.

Section Subdirs.
(** The second loop, around the recursive call. *)
Variable remove_contents : Z -> io Host unit.
Fixpoint remove_subdirs (dir : Z) (subdirs : list str) : io Host unit :=
  match subdirs with
  | [] => io_ret tt
  | name :: rest =>
      child <- open_dir_at dir name ;;
      io_finally (remove_contents child) (close child) ;;;
      unlink_at dir name true ;;;
      remove_subdirs dir rest
  end.
End Subdirs.

(** [depth] bounds the nesting of the directories, which the code does not bound. *)
Fixpoint remove_dir_contents (depth : nat) (dir : Z) : io Host unit :=
  match depth with
  | O => io_fail (error_new ModelFuel [])
  | S depth' =>
      names <- hsys (ReadDir (proc_fd_path dir)) ;;
      subdirs <- unlink_files dir names ;;
      remove_subdirs (remove_dir_contents depth') dir subdirs
  end.

Definition delete_at (depth : nat) (root : ScopedRoot) (rel : str) (recursive : bool) : io Host unit :=
  locating root rel false (fun parent name =>
    match name with
    | None => io_fail (error_new PermissionDenied (lit "cannot delete the sandbox home"))
    | Some name =>
        handle <- open_path_at parent name ;;
        m <- io_finally (io_try (file_metadata handle)) (close handle) ;;
        if negb (match m with Ok m => is_dir m | Err _ => false end) then unlink_at parent name false
        else
          (if recursive then
             dir <- open_dir_at parent name ;;
             io_finally (remove_dir_contents depth dir) (close dir)
           else io_ret tt) ;;;
          unlink_at parent name true
    end).

Definition mkdir_all (root : ScopedRoot) (rel : str) : io Host unit :=
  locating root rel true (fun parent name =>
    match name with
    | None => io_ret tt
    | Some name =>
        mkdir_at parent name 448 ;;;
        dir <- open_dir_at parent name ;;
        io_ignore (fchown dir (root_uid root)) ;;;
        close dir
    end).

End Fsutil.
