(* ===== verification/FsutilFacts.v ===== *)
(** * Descriptor-relative operations stay below the root

    A ledger of the descriptors a piece of code holds, checked call by call: the
    code may only name one entry of a directory it holds, with [O_NOFOLLOW], or act
    on a descriptor it holds.  Every function of file Fsutil passes this check, and
    holds at its end what it held at its start plus the file it returns. *)

From stdpp Require Import gmultiset.
From S2P Require Import Prelude RustStd Kernel Sim Wp Host Ledger Paths Fsutil.

Create HintDb confined.

Definition nofollow (flags : Z) : bool := negb (Z.land flags O_NOFOLLOW =? 0).

(** The ledger after one call, [None] when the call is not allowed.  [home] is the
    one path that may be opened by name, and then only as a directory. *)
Definition ledger_step (home : str) (D : gmultiset Z) (e : event) : option (gmultiset Z) :=
  let opened (allowed : bool) (r : result Z Z) :=
    if allowed then Some (match r with Ok fd => {[+ fd +]} ⊎ D | Err _ => D end) else None in
  let acted (allowed : bool) := if allowed then Some D else None in
  let held fd := bool_decide (fd ∈ D) in
  match e with
  | Event c r =>
      match c return result (answer c) Z -> option (gmultiset Z) with
      | Open path flags _ => opened (eqs path home && nofollow flags && negb (Z.land flags O_DIRECTORY =? 0))
      | Openat d name flags _ => opened (held d && bool_decide (normal_name name) && nofollow flags)
      | DupFd d => opened (held d)
      | Mkdirat d name _ | Unlinkat d name _ => fun _ => acted (held d && bool_decide (normal_name name))
      | DupSocket fd => opened (held fd)
      | ClientClone => opened true
      | ClientReadTimeout _ | ClientWriteTimeout _ => fun _ => Some D
      | ConnectUnix path => opened (existsb (fun fd => eqs path (proc_fd_path fd)) (elements D))
      | Fchown fd _ _ | Fchmod fd _ | Fstat fd | ReadFd fd _ | WriteFd fd _ | Lseek fd _ | Ftruncate fd _
      | PeerUid fd | SendAll fd _ | Shutdown fd _ =>
          fun _ => acted (held fd)
      | ReadDir path => fun _ => acted (existsb (fun fd => eqs path (proc_fd_path fd)) (elements D))
      | Close fd => fun _ => if held fd then Some (D ∖ {[+ fd +]}) else None
      | _ => fun _ => None
      end r
  end.

Definition gives (D : gmultiset Z) (r : result Z io_error) (D' : gmultiset Z) : Prop :=
  match r with Ok fd => D' = {[+ fd +]} ⊎ D | Err _ => D' = D end.

Lemma nofollow_lor a b : nofollow b = true -> nofollow (Z.lor a b) = true.
Proof.
  unfold nofollow. intros H%negb_true_iff%Z.eqb_neq. apply negb_true_iff, Z.eqb_neq. intros E. apply H.
  assert (Hs : Z.land b O_NOFOLLOW = Z.land (Z.land (Z.lor a b) O_NOFOLLOW) b).
  { apply Z.bits_inj'. intros n _. rewrite !Z.land_spec, Z.lor_spec.
    destruct (Z.testbit a n), (Z.testbit b n), (Z.testbit O_NOFOLLOW n); done. }
  rewrite Hs, E. done.
Qed.

Lemma held_add fd (D : gmultiset Z) : fd ∈ {[+ fd +]} ⊎ D.
Proof. multiset_solver. Qed.
Lemma held_more fd x (D : gmultiset Z) : fd ∈ D -> fd ∈ {[+ x +]} ⊎ D.
Proof. multiset_solver. Qed.
Lemma drop_add fd (D : gmultiset Z) : ({[+ fd +]} ⊎ D) ∖ {[+ fd +]} = D.
Proof. multiset_solver. Qed.
Lemma drop_second fd x (D : gmultiset Z) : ({[+ x +]} ⊎ ({[+ fd +]} ⊎ D)) ∖ {[+ fd +]} = {[+ x +]} ⊎ D.
Proof. multiset_solver. Qed.
#[export] Hint Resolve held_add held_more : confined.

Lemma components_of_normal p : Forall normal_name (components_of p).
Proof.
  apply Forall_forall. intros n Hn. unfold components_of in Hn. apply list_elem_of_omap in Hn as (c & Hc & E).
  destruct c; try done. injection E as ->. by eapply components_names.
Qed.

Section Calls.
Context {K : Kernel} {HD : DirNames K} (home : str).
Implicit Types D : gmultiset Z.
Abbreviation confined_h := (audit (ledger_step home) (@trace K)).

(** Settles what the ledger says of one call. *)
Ltac call :=
  unfold fchown, fchmod, file_metadata, dup_dir;
  lazymatch goal with |- audit _ _ ?D (hsys ?c) ?Q => apply (audit_call _ D c Q) end;
  intros r w w' E; cbn [ledger_step];
  rewrite ?bool_decide_eq_true_2 by (eauto with confined);
  rewrite ?nofollow_lor by reflexivity; cbn [andb]; eexists; split; [reflexivity|].

Lemma confined_c_path name D :
  confined_h D (io_lift (c_path name)) (fun r D' => D' = D /\ (r = Ok name \/ exists e, r = Err e)).
Proof. apply audit_lift. split; [done|]. unfold c_path. case_match; eauto. Qed.

Lemma open_at_gives d name flags mode D :
  d ∈ D -> normal_name name -> confined_h D (open_at d name flags mode) (gives D).
Proof.
  intros Hd Hn. eapply audit_bind; [apply confined_c_path| |].
  - intros a D' [-> [[= ->]|[? ?]]]; [|done]. call. by destruct r.
  - intros e D' [-> _]. done.
Qed.

Lemma mkdir_at_keeps d name mode D :
  d ∈ D -> normal_name name -> confined_h D (mkdir_at d name mode) (keeps D).
Proof.
  intros Hd Hn. eapply audit_bind; [apply confined_c_path| |].
  - intros a D' [-> [[= ->]|[? ?]]]; [|done].
    eapply audit_bind with (P := keeps D); [apply audit_try; call; done| |done].
    intros r D' ->. destruct r; [by apply audit_ret|]. case_bool_decide; [by apply audit_ret|by apply audit_fail].
  - intros e D' [-> _]. done.
Qed.

Lemma unlink_at_keeps d name b D :
  d ∈ D -> normal_name name -> confined_h D (unlink_at d name b) (keeps D).
Proof.
  intros Hd Hn. eapply audit_bind; [apply confined_c_path| |].
  - intros a D' [-> [[= ->]|[? ?]]]; [|done]. call. done.
  - intros e D' [-> _]. done.
Qed.

Lemma fchown_keeps fd uid D : fd ∈ D -> confined_h D (fchown fd uid) (keeps D).
Proof. intros Hd. call. done. Qed.
Lemma ignored_fchown fd uid D : fd ∈ D -> confined_h D (io_ignore (fchown fd uid)) (surely D).
Proof. intros Hd. apply audit_ignore. eapply audit_mono; [by apply fchown_keeps|done]. Qed.
Lemma fchmod_keeps fd mode D : fd ∈ D -> confined_h D (fchmod fd mode) (keeps D).
Proof. intros Hd. call. done. Qed.
Lemma file_metadata_keeps fd D : fd ∈ D -> confined_h D (file_metadata fd) (keeps D).
Proof. intros Hd. call. done. Qed.

Lemma close_drops fd D : confined_h ({[+ fd +]} ⊎ D) (close fd) (surely D).
Proof.
  unfold close, hsys_, sys_. intros h. unfold wp, on_world, io_lens, io_ignore. rewrite (sys_run (K:=Traced K)).
  destruct h as [[w t] a ru o]. simpl. destruct (syscall (Close fd) w) as [r w'].
  exists [Event (Close fd) r], D. simpl. rewrite bool_decide_eq_true_2, drop_add by (eauto with confined). done.
Qed.

Lemma close_under fd x D : confined_h ({[+ x +]} ⊎ ({[+ fd +]} ⊎ D)) (close fd) (surely ({[+ x +]} ⊎ D)).
Proof.
  replace ({[+ x +]} ⊎ ({[+ fd +]} ⊎ D)) with ({[+ fd +]} ⊎ ({[+ x +]} ⊎ D)) by multiset_solver. apply close_drops.
Qed.

(** A file held for the duration of [m]. *)
Lemma confined_holding {A} fd (m : io (@Host (Traced K)) A) D :
  confined_h ({[+ fd +]} ⊎ D) m (keeps ({[+ fd +]} ⊎ D)) ->
  confined_h ({[+ fd +]} ⊎ D) (io_finally m (close fd)) (keeps D).
Proof.
  intros Hm. eapply audit_finally; [apply Hm|]. intros r D' ->.
  eapply audit_mono; [apply close_drops|]. by intros _ D' [_ ->].
Qed.

Lemma metadata_at_keeps d name D : d ∈ D -> normal_name name -> confined_h D (metadata_at d name) (keeps D).
Proof.
  intros Hd Hn. eapply audit_bind; [by apply open_at_gives| |done].
  intros fd D' ->. apply confined_holding. apply file_metadata_keeps. auto with confined.
Qed.

Lemma descend_gives uid parent comps create_dirs D :
  Forall normal_name comps ->
  confined_h ({[+ parent +]} ⊎ D) (descend uid parent comps create_dirs) (gives D).
Proof.
  intros Hn. revert parent. induction Hn as [|name comps Hname Hn IH]; intros parent; cbn [descend].
  { by apply audit_ret. }
  eapply audit_bind with (P := fun r D' => match r with
    | Ok next => D' = {[+ next +]} ⊎ ({[+ parent +]} ⊎ D) | Err _ => D' = D end); [| |done].
  - eapply audit_on_error with (P := gives ({[+ parent +]} ⊎ D)).
    + eapply audit_bind with (P := keeps ({[+ parent +]} ⊎ D)); [| |done].
      * destruct create_dirs; [apply mkdir_at_keeps; auto with confined|by apply audit_ret].
      * intros _ D' ->. apply open_at_gives; auto with confined.
    + done.
    + intros e D' ->. eapply audit_mono; [apply close_drops|]. by intros _ D' [_ ->].
  - intros next D' ->. eapply audit_bind with (P := surely ({[+ next +]} ⊎ ({[+ parent +]} ⊎ D))); [| |by intros e D' [[=] _]].
    + destruct create_dirs; [apply ignored_fchown; auto with confined|by apply audit_ret].
    + intros _ D' [_ ->]. eapply audit_bind with (P := surely ({[+ next +]} ⊎ D)); [apply close_under| |by intros e D' [[=] _]].
      intros _ D' [_ ->]. apply IH.
Qed.

(** What [locate] leaves: the parent is held, the name is one name. *)
Definition located_in D (r : result Located io_error) (D' : gmultiset Z) : Prop :=
  match r with
  | Ok l => D' = {[+ loc_parent l +]} ⊎ D /\ forall n, loc_name l = Some n -> normal_name n
  | Err _ => D' = D
  end.

Lemma dup_dir_gives root D : dir root ∈ D -> confined_h D (dup_dir root) (gives D).
Proof. intros Hd. call. by destruct r. Qed.

Lemma locate_in root rel create_dirs D :
  dir root ∈ D -> confined_h D (locate root rel create_dirs) (located_in D).
Proof.
  intros Hd. unfold locate. pose proof (components_of_normal rel) as Hn. apply Forall_rev in Hn.
  destruct (rev (components_of rel)) as [|name up].
  - eapply audit_bind; [by apply dup_dir_gives| |done].
    intros parent D' ->. by apply audit_ret.
  - apply Forall_cons in Hn as [Hname Hup]. eapply audit_bind; [by apply dup_dir_gives| |done].
    intros parent D' ->. eapply audit_bind; [by apply descend_gives, Forall_rev| |done].
    intros q D' ->. apply audit_ret. split; [done|]. by intros n [= <-].
Qed.

Lemma confined_locating {A} root rel create_dirs (rest : Z -> option str -> io (@Host (Traced K)) A) D Q :
  dir root ∈ D -> (forall e, Q (Err e) D) ->
  (forall parent name, (forall n, name = Some n -> normal_name n) ->
     confined_h ({[+ parent +]} ⊎ D) (rest parent name) (fun r D' => exists D0, D' = {[+ parent +]} ⊎ D0 /\ Q r D0)) ->
  confined_h D (locating root rel create_dirs rest) Q.
Proof.
  intros Hd He Hr. eapply audit_bind; [by apply locate_in| |by intros e D' ->].
  intros l D' [-> Hn]. eapply audit_finally; [by apply Hr|]. intros r D' (D0 & -> & HQ).
  eapply audit_mono; [apply close_drops|]. by intros _ D' [_ ->].
Qed.

(** [locating] for code that gives the parent back as it got it. *)
Lemma locating_keeps {A} root rel create_dirs (rest : Z -> option str -> io (@Host (Traced K)) A) D :
  dir root ∈ D ->
  (forall parent name, (forall n, name = Some n -> normal_name n) ->
     confined_h ({[+ parent +]} ⊎ D) (rest parent name) (keeps ({[+ parent +]} ⊎ D))) ->
  confined_h D (locating root rel create_dirs rest) (keeps D).
Proof.
  intros Hd Hr. apply confined_locating; [done|done|]. intros parent name Hn.
  eapply audit_mono; [by apply Hr|]. intros r D' ->. by exists D.
Qed.

Lemma locating_gives root rel create_dirs (rest : Z -> option str -> io (@Host (Traced K)) Z) D :
  dir root ∈ D ->
  (forall parent name, (forall n, name = Some n -> normal_name n) ->
     confined_h ({[+ parent +]} ⊎ D) (rest parent name) (gives ({[+ parent +]} ⊎ D))) ->
  confined_h D (locating root rel create_dirs rest) (gives D).
Proof.
  intros Hd Hr. apply confined_locating; [done|done|]. intros parent name Hn.
  eapply audit_mono; [by apply Hr|]. intros [fd|e] D' ->; [|by exists D].
  exists ({[+ fd +]} ⊎ D). split; [multiset_solver|done].
Qed.

(** A file just opened, vetted, then returned or dropped. *)
Lemma vetted_gives fd (m : io (@Host (Traced K)) Z) D :
  confined_h ({[+ fd +]} ⊎ D) m (fun r D' => D' = {[+ fd +]} ⊎ D /\ forall got, r = Ok got -> got = fd) ->
  confined_h ({[+ fd +]} ⊎ D) (io_on_error m (close fd)) (gives D).
Proof.
  intros Hm. eapply audit_on_error; [apply Hm| |].
  - intros got D' [-> Hg]. by rewrite (Hg got eq_refl).
  - intros e D' [-> _]. eapply audit_mono; [apply close_drops|]. by intros _ D' [_ ->].
Qed.

Lemma open_read_gives root rel D : dir root ∈ D -> confined_h D (open_read root rel) (gives D).
Proof.
  intros Hd. apply locating_gives; [done|]. intros parent [name|] Hn; [|by apply audit_fail].
  eapply audit_bind; [apply open_at_gives; auto with confined| |done].
  intros fd D' ->. apply vetted_gives.
  eapply audit_bind; [apply file_metadata_keeps; auto with confined| |by intros e D' ->].
  intros m D' ->. destruct (is_dir m); [by apply audit_fail|]. destruct (is_file m); simpl; [|by apply audit_fail].
  apply audit_ret. split; [done|]. by intros got [= <-].
Qed.

Lemma open_write_gives root rel parents offset D : dir root ∈ D -> confined_h D (open_write root rel parents offset) (gives D).
Proof.
  intros Hd. apply locating_gives; [done|]. intros parent [name|] Hn; [|by apply audit_fail].
  eapply audit_bind; [apply open_at_gives; auto with confined| |done].
  intros fd D' ->. apply vetted_gives.
  eapply audit_bind; [apply file_metadata_keeps; auto with confined| |by intros e D' ->].
  intros m D' ->. destruct (is_file m); simpl; [|by apply audit_fail].
  eapply audit_bind; [apply ignored_fchown; auto with confined| |by intros e D' [[=] _]].
  intros _ D' [_ ->]. apply audit_ret. split; [done|]. by intros got [= <-].
Qed.

Lemma metadata_keeps root rel D : dir root ∈ D -> confined_h D (metadata root rel) (keeps D).
Proof.
  intros Hd. apply locating_keeps; [done|]. intros parent [name|] Hn.
  - apply metadata_at_keeps; auto with confined.
  - apply file_metadata_keeps. auto with confined.
Qed.

(** The path of a descriptor that is held. *)
Lemma held_path fd D : fd ∈ D -> existsb (fun x => eqs (proc_fd_path fd) (proc_fd_path x)) (elements D) = true.
Proof.
  intros Hd. apply existsb_exists. exists fd. split; [|apply eqs_refl].
  by apply list_elem_of_In, gmultiset_elem_of_elements.
Qed.

(** Reading a directory that is held gives entry names. *)
Lemma read_dir_keeps fd D : fd ∈ D ->
  confined_h D (hsys (ReadDir (proc_fd_path fd)))
    (fun r D' => D' = D /\ forall names, r = Ok names -> Forall entry_ok names).
Proof.
  intros Hd. lazymatch goal with |- audit _ _ ?D (hsys ?c) ?Q => apply (audit_call _ D c Q) end.
  intros r w w' E. exists D. cbn [ledger_step].
  rewrite held_path by done. split; [done|split; [done|]].
  destruct r; [|done]. intros names [= <-]. by eapply dir_names_ok.
Qed.

Lemma list_entries_keeps shown d names D :
  d ∈ D -> Forall entry_ok names -> confined_h D (list_entries shown d names) (keeps D).
Proof.
  intros Hd. induction 1 as [|[name|e] names Hn _ IH]; cbn [list_entries];
    [by apply audit_ret| |by apply audit_fail].
  eapply audit_bind with (P := keeps D); [by apply audit_try, metadata_at_keeps| |done].
  intros found D' ->. eapply audit_bind; [apply IH| |done].
  intros others D' ->. by apply audit_ret.
Qed.

Lemma list_dir_keeps root rel D : dir root ∈ D -> confined_h D (list_dir root rel) (keeps D).
Proof.
  intros Hd. apply locating_keeps; [done|]. intros parent name Hn.
  eapply audit_bind with (P := gives _); [| |done].
  - destruct name; [apply open_at_gives; auto with confined|apply dup_dir_gives; auto with confined].
  - intros fd D' ->. apply confined_holding. eapply audit_bind;
      [apply read_dir_keeps; auto with confined| |by intros e D' [-> _]].
    intros names D' [-> Hnames]. apply list_entries_keeps; auto with confined.
Qed.

Lemma unlink_files_keeps d names D :
  d ∈ D -> Forall entry_ok names ->
  confined_h D (unlink_files d names) (fun r D' => D' = D /\ forall l, r = Ok l -> Forall normal_name l).
Proof.
  intros Hd. induction 1 as [|[name|e] names Hn _ IH]; cbn [unlink_files];
    [|  |by apply audit_fail].
  { apply audit_ret. split; [done|]. intros l [= <-]. constructor. }
  eapply audit_bind with (P := keeps D); [by apply audit_try, metadata_at_keeps| |by intros e D' ->].
  intros m D' ->. destruct (match m with Ok m => is_dir m | Err _ => false end).
  - eapply audit_bind; [apply IH| |by intros e D' [-> _]]. intros l D' [-> Hl].
    apply audit_ret. split; [done|]. intros l' [= <-]. constructor; auto.
  - eapply audit_bind; [by apply unlink_at_keeps| |by intros e D' ->]. intros _ D' ->. apply IH.
Qed.

Lemma remove_subdirs_keeps f d subdirs D :
  (forall fd D, confined_h ({[+ fd +]} ⊎ D) (f fd) (keeps ({[+ fd +]} ⊎ D))) ->
  d ∈ D -> Forall normal_name subdirs -> confined_h D (remove_subdirs f d subdirs) (keeps D).
Proof.
  intros Hf Hd. induction 1 as [|name subdirs Hn _ IH]; cbn [remove_subdirs]; [by apply audit_ret|].
  eapply audit_bind; [by apply open_at_gives| |done]. intros fd D' ->.
  eapply audit_bind; [apply confined_holding, Hf| |done]. intros _ D' ->.
  eapply audit_bind; [by apply unlink_at_keeps| |done]. intros _ D' ->. apply IH.
Qed.

Lemma remove_dir_contents_keeps depth fd D :
  confined_h ({[+ fd +]} ⊎ D) (remove_dir_contents depth fd) (keeps ({[+ fd +]} ⊎ D)).
Proof.
  revert fd D. induction depth as [|depth IH]; intros fd D; cbn [remove_dir_contents]; [by apply audit_fail|].
  eapply audit_bind; [apply read_dir_keeps; auto with confined| |by intros e D' [-> _]].
  intros names D' [-> Hn]. eapply audit_bind; [apply unlink_files_keeps; auto with confined| |by intros e D' [-> _]].
  intros l D' [-> Hl]. apply remove_subdirs_keeps; auto with confined.
Qed.

Lemma delete_at_keeps depth root rel recursive D :
  dir root ∈ D -> confined_h D (delete_at depth root rel recursive) (keeps D).
Proof.
  intros Hd. apply locating_keeps; [done|]. intros parent [name|] Hn; [|by apply audit_fail].
  eapply audit_bind; [apply open_at_gives; auto with confined| |done]. intros fd D' ->.
  eapply audit_bind with (P := keeps _); [apply confined_holding, audit_try, file_metadata_keeps; auto with confined| |done].
  intros m D' ->. destruct (negb _); [apply unlink_at_keeps; auto with confined|].
  eapply audit_bind with (P := keeps ({[+ parent +]} ⊎ D)); [| |done].
  - destruct recursive; [|by apply audit_ret].
    eapply audit_bind; [apply open_at_gives; auto with confined| |done]. intros d D' ->.
    apply confined_holding, remove_dir_contents_keeps.
  - intros _ D' ->. apply unlink_at_keeps; auto with confined.
Qed.

Lemma mkdir_all_keeps root rel D : dir root ∈ D -> confined_h D (mkdir_all root rel) (keeps D).
Proof.
  intros Hd. apply locating_keeps; [done|]. intros parent [name|] Hn; [|by apply audit_ret].
  eapply audit_bind; [apply mkdir_at_keeps; auto with confined| |done]. intros _ D' ->.
  eapply audit_bind; [apply open_at_gives; auto with confined| |done]. intros fd D' ->.
  eapply audit_bind; [apply ignored_fchown; auto with confined| |by intros e D' [[=] _]].
  intros _ D' [_ ->]. eapply audit_mono; [apply close_drops|]. by intros r D' [_ ->].
Qed.

End Calls.

(** ** The recursion of [remove_dir_contents] ends *)

(** A book that counts the directories listed. *)
Definition count_listing (n : nat) (e : event) : option nat :=
  Some (match ev_call e with ReadDir _ => S n | _ => n end).

Definition is_listing (e : event) : bool := match ev_call e with ReadDir _ => true | _ => false end.
Definition listings (evs : list event) : nat := length (List.filter is_listing evs).

Lemma count_listings n evs : ledger count_listing n evs = Some (n + listings evs)%nat.
Proof.
  revert n. unfold listings. induction evs as [|e evs IH]; intros n; cbn [ledger List.filter].
  { simpl. by rewrite Nat.add_0_r. }
  unfold count_listing at 1, is_listing at 1. destruct (ev_call e); rewrite IH; simpl; f_equal; lia.
Qed.

(** Running out of depth takes [d] listings. *)
Definition spends {A} (d n : nat) (r : result A io_error) (n' : nat) : Prop :=
  (n <= n')%nat /\ forall e, r = Err e -> err_kind e = ModelFuel -> (n + d <= n')%nat.

Lemma os_error_real {K : Kernel} errno : err_kind (from_raw_os_error errno) <> ModelFuel.
Proof. simpl. unfold decode_error_kind. by repeat case_match. Qed.

Section Depth.
Context {K : Kernel}.
Abbreviation counted := (audit count_listing (@trace K)).

Lemma spends_bind {A B} d n (m : io (@Host (Traced K)) A) (k : A -> io (@Host (Traced K)) B) :
  counted n m (spends d n) -> (forall a n', counted n' (k a) (spends d n')) ->
  counted n (io_bind m k) (spends d n).
Proof.
  intros Hm Hk. eapply audit_bind; [apply Hm| |].
  - intros a n1 [Hn1 _]. eapply audit_mono; [apply Hk|]. intros r n2 [Hn2 Hf]. split; [lia|].
    intros e Hr He. specialize (Hf e Hr He). lia.
  - intros e n1 [Hn1 Hf]. split; [done|]. intros e' [= <-]. by apply Hf.
Qed.

Lemma spends_ret {A} d n (a : A) : counted n (io_ret a) (spends d n).
Proof. apply audit_ret. by split. Qed.

Lemma spends_fail {A} d n e : err_kind e <> ModelFuel -> counted n (io_fail (A:=A) e) (spends d n).
Proof. intros He. apply audit_fail. split; [done|]. by intros ? [= <-]. Qed.

Lemma spends_call d n c : counted n (hsys c) (spends d n).
Proof.
  apply audit_call. intros r w w' _. eexists. split; [reflexivity|]. split.
  - destruct c; simpl; lia.
  - intros e He Hk. destruct r; [done|]. injection He as <-. by apply os_error_real in Hk.
Qed.

Lemma spends_call_ d n c : counted n (hsys_ c) (spends d n).
Proof.
  apply audit_call_. intros r. eexists. split; [reflexivity|]. split; [destruct c; simpl; lia|done].
Qed.

(** The leaf case, whose answer type is computed. *)
Ltac spent := lazymatch goal with |- audit _ _ ?n (hsys ?c) (spends ?d _) => exact (spends_call d n c) end.

Lemma spends_c_path d n name : counted n (io_lift (c_path name)) (spends d n).
Proof. apply audit_lift. split; [done|]. unfold c_path. intros e. case_match; by intros [= <-]. Qed.

Lemma spends_finally {A} d n (m : io (@Host (Traced K)) A) fd :
  counted n m (spends d n) -> counted n (io_finally m (close fd)) (spends d n).
Proof.
  intros Hm. eapply audit_finally; [apply Hm|]. intros r n1 [Hn1 Hf].
  eapply audit_mono; [apply (spends_call_ d)|]. intros _ n2 [Hn2 _]. split; [lia|].
  intros e Hr He. specialize (Hf e Hr He). lia.
Qed.

Lemma spends_try {A} d n (m : io (@Host (Traced K)) A) : counted n m (spends d n) -> counted n (io_try m) (spends d n).
Proof. intros Hm. apply audit_try. eapply audit_mono; [apply Hm|]. intros r n' [Hn _]. by split. Qed.

Lemma spends_open_at d n fd name flags mode : counted n (open_at fd name flags mode) (spends d n).
Proof. apply spends_bind; [apply spends_c_path|intros; spent]. Qed.

Lemma spends_unlink_at d n fd name b : counted n (unlink_at fd name b) (spends d n).
Proof. apply spends_bind; [apply spends_c_path|intros; spent]. Qed.

Lemma spends_metadata_at d n fd name : counted n (metadata_at fd name) (spends d n).
Proof. apply spends_bind; [apply spends_open_at|]. intros h n'. apply spends_finally. unfold file_metadata. spent. Qed.

Lemma spends_unlink_files d n fd names : counted n (unlink_files fd names) (spends d n).
Proof.
  revert n. induction names as [|[name|e] names IH]; intros n; cbn [unlink_files];
    [apply spends_ret| |apply spends_fail, os_error_real].
  apply spends_bind; [apply spends_try, spends_metadata_at|]. intros m n'.
  destruct (match m with Ok m => is_dir m | Err _ => false end).
  - apply spends_bind; [apply IH|]. intros. apply spends_ret.
  - apply spends_bind; [apply spends_unlink_at|]. intros. apply IH.
Qed.

Lemma spends_remove_subdirs f d n fd subdirs :
  (forall fd n, counted n (f fd) (spends d n)) -> counted n (remove_subdirs f fd subdirs) (spends d n).
Proof.
  intros Hf. revert n. induction subdirs as [|name subdirs IH]; intros n; cbn [remove_subdirs]; [apply spends_ret|].
  apply spends_bind; [apply spends_open_at|]. intros child n1.
  apply spends_bind; [apply spends_finally, Hf|]. intros _ n2.
  apply spends_bind; [apply spends_unlink_at|]. intros. apply IH.
Qed.

Lemma spends_remove depth fd n : counted n (remove_dir_contents depth fd) (spends depth n).
Proof.
  revert fd n. induction depth as [|depth IH]; intros fd n; cbn [remove_dir_contents].
  { apply audit_fail. split; [done|]. intros. lia. }
  eapply audit_bind with (P := fun r n' => (S n <= n')%nat /\ forall e, r = Err e -> err_kind e <> ModelFuel).
  - apply audit_call. intros r w w' _. eexists. split; [reflexivity|]. split; [simpl; lia|].
    destruct r; [done|]. intros err [= <-]. apply os_error_real.
  - intros names n1 [Hn1 _]. eapply audit_mono.
    { apply (spends_bind depth); [apply spends_unlink_files|]. intros. by apply spends_remove_subdirs. }
    intros r n2 [Hn2 Hf]. split; [lia|]. intros e Hr He. specialize (Hf e Hr He). lia.
  - intros e n1 [Hn1 Hf]. split; [lia|]. intros e' [= <-] He. by apply Hf in He.
Qed.

End Depth.

(** *** On a tree *)

(** A file system with a finite tree below each descriptor, to which nobody adds while
    it is looked at and removed from: [nesting w fd] bounds how deep directories are
    nested below [fd].  What is opened through a descriptor is a level further down,
    and neither that nor the other calls of a removal put anything on top. *)
Class ShrinkingTree (K : Kernel) := {
  nesting : @World K -> Z -> nat;
  nesting_open w fd name flags mode r w' :
    Z.land flags O_CREAT = 0 -> syscall (Openat fd name flags mode) w = (r, w') ->
    (forall x, r <> Ok x -> (nesting w' x <= nesting w x)%nat) /\ (forall x, r = Ok x -> (nesting w' x < nesting w fd)%nat);
  nesting_other c w r w' x :
    match c with ReadDir _ | Fstat _ | Close _ | Unlinkat _ _ _ => True | _ => False end ->
    syscall c w = (r, w') -> (nesting w' x <= nesting w x)%nat;
}.

Section Tree.
Context {K : Kernel} {T : ShrinkingTree K}.
Implicit Types h : @Host K.

Abbreviation nested h fd := (nesting (world h) fd).

(** Between two moments nothing came up from level [n]. *)
Definition settled (n : nat) h h' : Prop := forall x, (nested h' x <= Nat.max (nested h x) n)%nat.

Lemma settled_trans n h1 h2 h3 : settled n h1 h2 -> settled n h2 h3 -> settled n h1 h3.
Proof. intros H1 H2 x. specialize (H1 x). specialize (H2 x). lia. Qed.
Lemma settled_weaken n m h h' : settled n h h' -> (n <= m)%nat -> settled m h h'.
Proof. intros H Hn x. specialize (H x). lia. Qed.
Lemma settled_below n fd h h' : settled n h h' -> (nested h fd <= S n)%nat -> (nested h' fd <= S n)%nat.
Proof. intros H Hn. specialize (H fd). lia. Qed.

(** Code below descriptor [fd], which has at most [n] levels: it never runs out of
    depth, and gives only descriptors with fewer than [n]. *)
Definition descends {A} (n : nat) (fd : Z) (m : io (@Host K) A) (low : A -> option Z) : Prop :=
  forall h, (nested h fd <= n)%nat -> wp m h (fun r h' => settled (n - 1) h h'
    /\ (forall e, r = Err e -> err_kind e <> ModelFuel)
    /\ forall a x, r = Ok a -> low a = Some x -> (1 <= n)%nat /\ (nested h' x <= n - 1)%nat).

Abbreviation nothing := (fun _ => None).

Lemma descends_stays n fd h h' : settled (n - 1) h h' -> (nested h fd <= n)%nat -> (nested h' fd <= n)%nat.
Proof. intros H Hn. specialize (H fd). lia. Qed.

Lemma descends_bind {A B} n fd (m : io (@Host K) A) low (k : A -> io (@Host K) B) low' :
  descends n fd m low -> (forall a, low a = None -> descends n fd (k a) low') -> (forall a, low a = None) ->
  descends n fd (io_bind m k) low'.
Proof.
  intros Hm Hk Hl h Hn. apply wp_bind. eapply wp_mono; [by apply Hm|]. intros [a|e] h1 (H1 & He & _).
  - eapply wp_mono; [apply Hk; [done|by eapply descends_stays]|]. intros r h2 (H2 & Hr). split; [by eapply settled_trans|done].
  - split_and!; [done|by intros e' [= <-]; apply He|done].
Qed.

Lemma descends_ret {A} n fd (a : A) : descends n fd (io_ret a) nothing.
Proof. intros h Hn. apply wp_ret. split_and!; [intros x; lia|done|done]. Qed.
Lemma descends_fail {A} n fd e : err_kind e <> ModelFuel -> descends n fd (io_fail (A:=A) e) nothing.
Proof. intros He h Hn. apply wp_fail. split_and!; [intros x; lia|by intros ? [= <-]|done]. Qed.
Lemma descends_try {A} n fd (m : io (@Host K) A) : descends n fd m nothing -> descends n fd (io_try m) nothing.
Proof. intros Hm h Hn. apply wp_try. eapply wp_mono; [by apply Hm|]. intros r h' (H & _). by split_and!. Qed.

Lemma hsys_step c h : hsys c h = (match (syscall c (world h)).1 with
    | Ok a => Ok a | Err e => Err (from_raw_os_error e) end, set_world (syscall c (world h)).2 h).
Proof. unfold hsys, on_world, io_lens. by rewrite sys_run. Qed.

Lemma descends_call n fd c :
  match c with ReadDir _ | Fstat _ | Close _ | Unlinkat _ _ _ => True | _ => False end -> descends n fd (hsys c) nothing.
Proof.
  intros Hc h Hn. unfold wp. rewrite hsys_step. destruct (syscall c (world h)) as [r w] eqn:E. cbn [fst snd].
  split_and!; [intros x; pose proof (nesting_other _ _ _ _ x Hc E); simpl; lia| |done].
  intros e. destruct r; [done|]. intros [= <-]. apply os_error_real.
Qed.

Lemma descends_open n fd name flags mode :
  Z.land (Z.lor flags BASE_FLAGS) O_CREAT = 0 -> descends n fd (open_at fd name flags mode) Some.
Proof.
  intros Hf h Hn. apply wp_bind, wp_lift. unfold c_path.
  destruct (existsb _ _); cbn beta iota; [split_and!; [intros x; lia|by intros ? [= <-]|done]|].
  unfold wp. rewrite hsys_step. destruct (syscall _ (world h)) as [r w] eqn:E. cbn [fst snd].
  destruct (nesting_open _ _ _ _ _ _ _ Hf E) as [H1 H2]. split_and!.
  - intros x. simpl. destruct r as [y|e]; [destruct (decide (y = x)) as [->|Hne]|]; [specialize (H2 x eq_refl)|specialize (H1 x ltac:(congruence))|specialize (H1 x ltac:(done))]; lia.
  - intros e. destruct r; [done|]. intros [= <-]. apply os_error_real.
  - intros a x Ha [= <-]. destruct r as [y|e]; [|done]. injection Ha as ->. specialize (H2 a eq_refl). simpl. lia.
Qed.

Lemma descends_unlink n fd name b : descends n fd (unlink_at fd name b) nothing.
Proof.
  intros h Hn. apply wp_bind, wp_lift. unfold c_path.
  destruct (existsb _ _); cbn beta iota; [split_and!; [intros x; lia|by intros ? [= <-]|done]|].
  by apply (descends_call n fd (Unlinkat _ _ _)).
Qed.

Lemma close_settles n fd h : wp (close fd) h (fun _ h' => settled n h h').
Proof.
  unfold close, hsys_, on_world, sys_. apply wp_lens, wp_ignore. unfold wp. rewrite sys_run.
  destruct (syscall (Close fd) (world h)) as [r w] eqn:E. intros x. pose proof (nesting_other (Close fd) _ _ _ x I E). simpl. lia.
Qed.

(** A descriptor a level down, held for the duration of [m]. *)
Lemma descends_holding {A} n fd name flags mode (m : Z -> io (@Host K) A) :
  Z.land (Z.lor flags BASE_FLAGS) O_CREAT = 0 -> (forall child, (1 <= n)%nat -> descends (n - 1) child (m child) nothing) ->
  descends n fd (child <- open_at fd name flags mode ;; io_finally (m child) (close child)) nothing.
Proof.
  intros Hf Hm h Hn. apply wp_bind. eapply wp_mono; [by apply descends_open|]. intros [child|e] h1 (H1 & He & Hlow).
  - destruct (Hlow child child eq_refl eq_refl) as [Hpos Hc]. apply wp_finally.
    eapply wp_mono; [by apply Hm|]. intros r h2 (H2 & Hr & _). eapply wp_mono; [apply (close_settles (n - 1))|].
    intros ? h3 H3. split_and!; [|done|done]. eapply settled_trans; [exact H1|].
    eapply settled_trans; [|exact H3]. eapply settled_weaken; [exact H2|lia].
  - split_and!; [done|by intros e' [= <-]; apply He|done].
Qed.

Lemma descends_unlink_files n fd names : descends n fd (unlink_files fd names) nothing.
Proof.
  induction names as [|[name|e] names IH]; cbn [unlink_files]; [apply descends_ret| |apply descends_fail, os_error_real].
  eapply descends_bind; [apply descends_try, descends_holding; [done|]| |done].
  { intros child _. by apply (descends_call _ _ (Fstat child)). }
  intros m _. destruct (match m with Ok m => is_dir m | Err _ => false end).
  - eapply descends_bind; [exact IH| |done]. intros. apply descends_ret.
  - eapply descends_bind; [apply descends_unlink| |done]. by intros.
Qed.

Lemma io_bind_assoc_finally {A B} (o : io (@Host K) Z) (m : Z -> io (@Host K) A) (k : io (@Host K) B) h :
  (x <- o ;; io_finally (m x) (close x) ;;; k) h = ((x <- o ;; io_finally (m x) (close x)) ;;; k) h.
Proof. unfold io_bind. by destruct (o h) as [[x|e] h1]. Qed.

Lemma descends_ext {A} n fd (m m' : io (@Host K) A) low : (forall h, m h = m' h) -> descends n fd m low -> descends n fd m' low.
Proof. intros He Hm h Hn. specialize (Hm h Hn). unfold wp in *. by rewrite <- He. Qed.

Lemma descends_remove depth n fd : (n < depth)%nat -> descends n fd (remove_dir_contents depth fd) nothing.
Proof.
  revert n fd. induction depth as [|depth IH]; intros n fd Hd; [lia|]. cbn [remove_dir_contents].
  eapply descends_bind; [by apply (descends_call n fd (ReadDir _))| |done]. intros names _.
  eapply descends_bind; [apply descends_unlink_files| |done]. intros subdirs _.
  induction subdirs as [|name subdirs IHs]; cbn [remove_subdirs]; [apply descends_ret|].
  eapply descends_ext; [intros h; symmetry; apply io_bind_assoc_finally|].
  eapply descends_bind; [apply descends_holding; [done|]| |done].
  { intros child Hn. apply IH. lia. }
  intros _ _. eapply descends_bind; [apply descends_unlink| |done]. by intros.
Qed.
End Tree.


(** ** Lexical resolution *)

(** A path's names with [..] resolved, on a stack that never goes below its bottom. *)
Definition lexical_step (names : list str) (c : Component) : list str :=
  match c with Normal n => names ++ [n] | ParentDir => removelast names | _ => names end.
Definition lexical (comps : list Component) : list str := fold_left lexical_step comps [].

Lemma normalize_lexical comps names :
  Forall normal_name names -> (forall n, Normal n ∈ comps -> normal_name n) ->
  fold_left normalize_component comps (join [SLASH] names) = join [SLASH] (fold_left lexical_step comps names)
  /\ Forall normal_name (fold_left lexical_step comps names).
Proof.
  revert names. induction comps as [|c comps IH]; intros names Hf Hc; [done|]. cbn [fold_left].
  assert (Hstep : normalize_component (join [SLASH] names) c = join [SLASH] (lexical_step names c)
                  /\ Forall normal_name (lexical_step names c)).
  { destruct c; simpl; try done.
    - rewrite pop_join by done. split; [done|]. destruct (decide (names = [])) as [->|Hne]; [done|].
      destruct (rev_snoc_inv names Hne) as (up & x & ->). rewrite removelast_last. by apply Forall_app in Hf as [? _].
    - assert (normal_name name) by (apply Hc; set_solver). rewrite push_join by done. split; [done|].
      apply Forall_app. split; [done|]. by constructor. }
  destruct Hstep as [-> Hf']. apply IH; [done|]. intros n Hn. apply Hc. set_solver.
Qed.

Lemma omap_normal names :
  omap (fun component => match component with Normal name => Some name | _ => None end) (map Normal names) = names.
Proof. induction names as [|n names IH]; [done|]. cbn. f_equal. exact IH. Qed.

(** The path of [names] is what [normalize_relative] gives, and their components. *)
Lemma normalize_joins p :
  let names := lexical (components p) in
  normalize_relative p = join [SLASH] names /\ Forall normal_name names.
Proof.
  intros names. destruct (normalize_lexical (components p) [] (Forall_nil_2 _)) as [Hn Hf]; [|done].
  intros n. apply components_names.
Qed.

Lemma lexical_names names : lexical (map Normal names) = names.
Proof.
  unfold lexical. assert (Hid : forall ns acc, fold_left lexical_step (map Normal ns) acc = acc ++ ns); [|apply Hid].
  induction ns as [|n ns IH]; intros acc; simpl; [by rewrite app_nil_r|]. by rewrite IH, <- app_assoc.
Qed.

Lemma normalize_of_names names : Forall normal_name names -> normalize_relative (join [SLASH] names) = join [SLASH] names.
Proof. intros Hf. by rewrite (proj1 (normalize_joins _)), components_join, lexical_names. Qed.

(** A request's path becomes the names it resolves to lexically: [..] drops the
    name before it and stops at the root, a leading separator, [.] and empty pieces
    count for nothing.  The result has only entry names for components, so it is
    relative and never climbs, and normalizing it again changes nothing. *)
Theorem normalize_relative_lexical p :
  let names := lexical (components p) in
  normalize_relative p = join [SLASH] names /\ Forall normal_name names
  /\ components (normalize_relative p) = map Normal names
  /\ components_of (normalize_relative p) = names
  /\ normalize_relative (normalize_relative p) = normalize_relative p.
Proof.
  intros names. destruct (normalize_joins p) as [Hn Hf]. fold names in Hn, Hf. rewrite Hn. split_and!; try done.
  - by apply components_join.
  - unfold components_of. rewrite components_join by done. apply omap_normal.
  - by apply normalize_of_names.
Qed.

(** ** The simulated machine *)

(** [/h] with directory [a] holding file [b], and file [f]; descriptor 7 is [/h]. *)
Definition tree : SimWorld :=
  mkSim 1000 {[ ROOT := NDir 0 493 [(lit "h", 2)]; 2 := NDir 20000 448 [(lit "a", 3); (lit "f", 4)];
                3 := NDir 20000 448 [(lit "b", 5)]; 4 := NFile 20000 384 (lit "x"); 5 := NFile 20000 384 (lit "y") ]}
    {[ 7 := (2, 0) ]} 10 ∅ 6.

(** A kernel with one chain of nested directories: descriptor [n] is the one with [n]
    below it, each with the single entry [d]. *)
Definition chain_call (c : call) : result (answer c) Z :=
  match c with
  | ReadDir path => Ok (if eqs path (proc_fd_path 0) then [] else [Ok (lit "d")])
  | Openat fd _ _ _ => if 0 <? fd then Ok (fd - 1) else Err ENOENT
  | Fstat _ => Ok (mkMetadata (S_IFDIR + 448) 0 0 0)
  | Close _ => Ok tt
  | Unlinkat _ _ _ => Ok tt
  | _ => Err ENOSYS
  end.
Definition chain : Kernel := {| World := unit; strerror := fun _ => []; syscall := fun c w => (chain_call c, w) |}.

#[export] Instance chain_tree : ShrinkingTree chain.
Proof.
  refine {| nesting := fun _ fd => Z.to_nat fd |}.
  - intros w fd name flags mode r w' _ H. injection H as <- <-. split; [done|].
    intros x Hx. destruct (0 <? fd) eqn:E; [|discriminate]. injection Hx as <-. lia.
  - intros c w r w' x _ H. injection H as _ <-. lia.
Defined.

Definition chain_host : @Host chain := @mkHost chain tt None None ∅.


Example chain_removed :
  (remove_dir_contents 4 3 chain_host).1 = Ok tt
  /\ match (remove_dir_contents 3 3 chain_host).1 with Err e => err_kind e = ModelFuel | Ok _ => False end.
Proof. split; vm_compute; reflexivity. Qed.
