(* ===== verification/Fuzz.v ===== *)
(** * fuzz/fuzz_targets: what the fuzzers assert

    The two fuzz targets of the repository, as the functions from input bytes to
    whether every assertion of the target holds, and the proof that no input makes
    one fail. *)

From S2P Require Import Prelude RustStd StrFacts Http HttpFacts Paths Fsutil FsutilFacts.

(** ** request-head.rs *)

(** [data.windows(4).position(|w| w == pattern)]. *)
Fixpoint position (pattern data : str) : option nat :=
  if starts_with pattern data then Some O
  else match data with [] => None | _ :: rest => S <$> position pattern rest end.

Definition as_head (data : str) : str :=
  let head := match position (CRLF ++ CRLF) data with
              | Some at_ => take (at_ + 4) data
              | None => data ++ CRLF ++ CRLF
              end in
  take (Z.to_nat (64 * 1024)) head.

Definition same_framing (request again : Request) : bool :=
  eqs (method request) (method again) && eqs (path request) (path again)
  && eqs (raw_query request) (raw_query again)
  && (content_length request =? content_length again)
  && Bool.eqb (keep_alive request) (keep_alive again).

Definition method_asserts (request : Request) : bool :=
  negb (is_empty (method request)) && forallb is_ascii_uppercase (method request).

Definition header_asserts (h : str * str) : bool :=
  let '(name, value) := h in
  eqs name (to_ascii_lowercase name) && negb (is_empty name)
  && forallb (fun b => is_ascii_alphanumeric b || existsb (eqc b) (lit "!#$%&'*+-.^_`|~")) name
  && negb (contains CRLF value).

Definition framing_asserts (request : Request) : bool :=
  negb (bool_decide (is_Some (headers request !! lit "content-length"))
        && bool_decide (is_Some (headers request !! lit "transfer-encoding")))
  && match headers request !! lit "content-length" with
     | None => content_length request =? 0
     | Some raw => bool_decide (parse_uint u64_max raw = Some (content_length request))
     end.

Definition fuzz_request_head (data : str) : bool :=
  let data := as_head data in
  match parse_head data with
  | Err _ => true
  | Ok request =>
      match parse_head data with
      | Err _ => false
      | Ok again => same_framing request again
      end
      && method_asserts request
      && forallb header_asserts (map_to_list (headers request))
      && framing_asserts request
      && negb (existsb (eqc "?"%char) (path request))
  end.

(** ** normalize-relative.rs *)

Definition component_asserts (component : Component) : bool :=
  match component with
  | Normal name => negb (is_empty name) && negb (eqs name DOTDOT) && negb (existsb (eqc SLASH) name)
  | _ => false
  end.

(** [Component::as_os_str], and [FromIterator] for [PathBuf]. *)
Definition component_str (component : Component) : str :=
  match component with RootDir => [SLASH] | CurDir => DOT | ParentDir => DOTDOT | Normal name => name end.
Definition collect_path (cs : list Component) : str := fold_left push_path (map component_str cs) [].

Definition FUZZ_HOME : str := lit "/home/sbx-1".

Definition fuzz_normalize_relative (data : str) : bool :=
  let raw := from_utf8_lossy data in
  let out := normalize_relative raw in
  let joined := join_path FUZZ_HOME out in
  forallb component_asserts (components out)
  && negb (is_absolute out)
  && negb (path_starts_with out DOTDOT)
  && path_starts_with joined FUZZ_HOME
  && (length (components joined) =? length (components FUZZ_HOME) + length (components out))%nat
  && match from_utf8 out with
     | Some text => path_eq (normalize_relative text) out
     | None => true
     end
  && path_eq (collect_path (components out)) out.

(** ** No assertion can fail *)

Lemma contains_elem p s a : contains p s = true -> a ∈ p -> a ∈ s.
Proof.
  intros H Ha. induction s as [|b s IH]; apply orb_prop in H as [H|H]; try done.
  - apply starts_with_true in H as [s' H]. destruct p; [set_solver|done].
  - apply starts_with_true in H as [s' ->]. set_solver.
  - apply elem_of_cons. auto.
Qed.

Lemma same_framing_refl r : same_framing r r = true.
Proof. unfold same_framing, eqs. rewrite !bool_decide_true, Z.eqb_refl, Bool.eqb_reflx by done. done. Qed.

Lemma wf_header_asserts r : wf_request r -> forallb header_asserts (map_to_list (headers r)) = true.
Proof.
  intros Hwf. apply forallb_Forall. pose proof (wf_headers _ Hwf) as Hh. apply map_Forall_to_list in Hh.
  eapply Forall_impl; [exact Hh|]. intros [name value] (Hne & Ht & Hlow & Hv & _). simpl.
  rewrite Hlow, (proj2 (eqs_true name name)), (proj2 (is_empty_false name)) by done.
  rewrite (proj2 (forallb_Forall _ _)) by done. simpl. apply negb_true_iff, not_true_iff_false.
  intros Hc. apply (contains_elem _ _ CR) in Hc; [|set_solver].
  rewrite Forall_forall in Hv. by specialize (Hv _ Hc).
Qed.

Lemma wf_framing_asserts r : wf_request r -> framing_asserts r = true.
Proof.
  intros Hwf. pose proof (wf_not_both _ Hwf) as Hb. pose proof (wf_length _ Hwf) as Hl. unfold framing_asserts.
  apply andb_true_intro. split.
  - apply negb_true_iff, andb_false_iff. destruct Hb as [->| ->]; [left|right]; by rewrite bool_decide_false by (intros []; done).
  - destruct (headers r !! _) as [raw|]; [|lia]. destruct Hl as (_ & _ & ->). by apply bool_decide_eq_true.
Qed.

(** C20: the head fuzzer never finds anything: for every input, every assertion of
    fuzz_targets/request-head.rs holds of the head made from it: an accepted head
    parses the same way again, its method and header names are in the case the
    router looks them up in, no value holds a line break, the framing headers
    exclude each other and the length round-trips, and the path has no query. *)
Theorem fuzz_request_head_passes data : fuzz_request_head data = true.
Proof.
  unfold fuzz_request_head. destruct (parse_head (as_head data)) as [r|e] eqn:E; [|done].
  apply accepted_wf in E as Hwf. rewrite same_framing_refl, wf_header_asserts, wf_framing_asserts by done.
  destruct (wf_method _ Hwf) as [Hm Hu]. destruct (wf_path _ Hwf) as (_ & Hq & _).
  unfold method_asserts. rewrite (proj2 (is_empty_false _)), (proj2 (forallb_Forall _ _)) by done. simpl.
  apply negb_true_iff, existsb_false, Forall_forall. intros c Hc. apply eqc_false. congruence.
Qed.

Lemma names_assert names : Forall normal_name names -> forallb component_asserts (map Normal names) = true.
Proof.
  intros Hf. apply forallb_Forall, Forall_map. eapply Forall_impl; [exact Hf|]. intros n (H1 & _ & H3 & Hs). simpl.
  rewrite (proj2 (is_empty_false n)), (proj2 (eqs_false n DOTDOT)) by done. simpl.
  apply negb_true_iff, existsb_false, Forall_forall. intros c Hc. apply eqc_false. congruence.
Qed.

Lemma join_home names : Forall normal_name names ->
  components (join_path FUZZ_HOME (join [SLASH] names)) = components FUZZ_HOME ++ map Normal names.
Proof.
  intros Hf. unfold join_path, push_path.
  assert (Hrel : is_absolute (join [SLASH] names) = false).
  { destruct (decide (names = [])) as [->|]; [done|]. by apply join_first. }
  rewrite Hrel. change (match rev FUZZ_HOME with [] => _ | _ => _ end) with (FUZZ_HOME ++ SLASH :: join [SLASH] names).
  unfold components. change (FUZZ_HOME ++ ?x) with ([] ++ SLASH :: lit "home" ++ SLASH :: lit "sbx-1" ++ x).
  rewrite !split_char_app by (vm_compute; set_solver).
  change (is_absolute ([] ++ SLASH :: _)) with true. cbn [map concat].
  change (is_absolute FUZZ_HOME) with true. change (split_char SLASH FUZZ_HOME) with [[]; lit "home"; lit "sbx-1"].
  cbn [map concat]. rewrite !app_nil_r, <- !app_assoc. do 3 f_equal.
  destruct (decide (names = [])) as [->|Hne]; [done|]. rewrite split_join_normal by done.
  clear Hrel Hne. induction Hf as [|n names Hn Hf IH]; [done|]. cbn [map concat].
  rewrite component_normal by done. simpl. by f_equal.
Qed.

Lemma collect_names acc names : Forall normal_name acc -> Forall normal_name names ->
  fold_left push_path names (join [SLASH] acc) = join [SLASH] (acc ++ names).
Proof.
  intros Ha Hf. revert acc Ha. induction Hf as [|n names Hn Hf IH]; intros acc Ha; simpl; [by rewrite app_nil_r|].
  rewrite push_join by done. rewrite IH by (apply Forall_app; split; [done|by constructor]). by rewrite <- app_assoc.
Qed.

Lemma prefix_comps_app a b : prefix_comps a (a ++ b) = true.
Proof. induction a as [|c a IH]; simpl; [done|]. by rewrite bool_decide_true. Qed.

(** C36: nor does the path fuzzer: for every input, every assertion of
    fuzz_targets/normalize-relative.rs holds of the resolved path: plain names
    only, relative, not above the home, joined to a home it stays under it with
    exactly its own components added, and normalizing or collecting it again
    changes nothing. *)
Theorem fuzz_normalize_relative_passes data : fuzz_normalize_relative data = true.
Proof.
  unfold fuzz_normalize_relative. destruct (normalize_joins (from_utf8_lossy data)) as [-> Hf].
  set (names := lexical _) in *. set (out := join [SLASH] names).
  assert (Hc : components out = map Normal names) by by apply components_join.
  rewrite Hc, names_assert by done.
  assert (Hrel : is_absolute out = false).
  { destruct (decide (names = [])) as [Hn|]; [unfold out; by rewrite Hn|]. by apply join_first. }
  assert (Hup : path_starts_with out DOTDOT = false).
  { unfold path_starts_with. rewrite Hc. by destruct names. }
  rewrite Hrel, Hup. unfold path_starts_with.
  rewrite (join_home names Hf : components (join_path FUZZ_HOME out) = _), prefix_comps_app.
  rewrite length_app, Nat.eqb_refl. unfold from_utf8, path_eq, collect_path, out.
  rewrite map_map. cbn [component_str]. rewrite map_id.
  rewrite (collect_names [] names (Forall_nil_2 _) Hf : fold_left push_path names [] = _).
  cbn [app negb andb]. rewrite (bool_decide_true (components _ = _)), andb_true_r by done.
  destruct (utf8_valid _); [|done]. by rewrite normalize_of_names, bool_decide_true.
Qed.
