(* ===== verification/Files.v ===== *)
(** * src/files.rs

    The file endpoints, on a container path in dedicated mode and below the
    sandbox's home in host mode.  The theorems are in file FilesFacts. *)

From S2P Require Import Prelude RustStd Json Net Http HttpResponse Kernel Host Paths State Fsutil.

Inductive Target : Type :=
| Direct (path : str)
| Scoped (root : ScopedRoot) (rel : str).

(** [Path::display] and [to_string_lossy]. *)
Definition shown_path (path : str) : str := from_utf8_lossy path.

(** [sort_by] on the names: stable. *)
Fixpoint insert_named {A} (x : str * A) (l : list (str * A)) : list (str * A) :=
  match l with
  | [] => [x]
  | y :: rest => if str_leb x.1 y.1 then x :: l else y :: insert_named x rest
  end.
Definition sort_named {A} (l : list (str * A)) : list (str * A) := foldr insert_named [] l.

Section Files.
Context {SJ : SerdeJson} {K : Kernel}.

(** ** [Target] *)

Definition target_display (t : Target) : str :=
  match t with Direct path => path | Scoped root rel => display root rel end.

Definition target_open_read (t : Target) : io Host Z :=
  match t with
  | Direct path =>
      file <- path_sys path (Open path (Z.lor (Z.lor O_RDONLY O_CLOEXEC) O_NONBLOCK) 438) ;;
      io_on_error
        (metadata <- file_metadata file ;;
         if is_dir metadata then io_fail EISDIR_ERROR
         else if negb (is_file metadata) then io_fail not_regular
         else io_ret file)
        (close file)
  | Scoped root rel => open_read root rel
  end.

Definition target_open_write (t : Target) (create_parents : bool) (offset : option Z) : io Host Z :=
  match t with
  | Direct path =>
      (match parent path with
       | Some parent =>
           if create_parents && negb (is_empty parent) then path_sys parent (CreateDirAll parent) else io_ret tt
       | None => io_ret tt
       end) ;;;
      let flags := Z.lor (Z.lor O_WRONLY O_CREAT) O_CLOEXEC in
      path_sys path (Open path (match offset with None => Z.lor flags O_TRUNC | Some _ => flags end) 438)
  | Scoped root rel => open_write root rel create_parents offset
  end.

Definition target_metadata (t : Target) : io Host Metadata :=
  match t with
  | Direct path => path_sys path (Lstat path)
  | Scoped root rel => metadata root rel
  end.

(** An entry's metadata is that of its name in the directory being read. *)
Fixpoint direct_entries (path : str) (names : list (result str Z)) : io Host (list (str * Metadata)) :=
  match names with
  | [] => io_ret []
  | Err e :: _ => io_fail (from_raw_os_error e)
  | Ok name :: rest =>
      found <- io_try (hsys (Lstat (join_path path name))) ;;
      others <- direct_entries path rest ;;
      io_ret (match found with Ok metadata => (join_path path name, metadata) :: others | Err _ => others end)
  end.

Definition target_list (t : Target) : io Host (list (str * Metadata)) :=
  match t with
  | Direct path => names <- path_sys path (ReadDir path) ;; direct_entries path names
  | Scoped root rel => list_dir root rel
  end.

Definition target_delete (depth : nat) (t : Target) (recursive : bool) : io Host unit :=
  match t with
  | Direct path =>
      metadata <- path_sys path (Lstat path) ;;
      if is_dir metadata then
        if recursive then path_sys path (RemoveDirAll path) else path_sys path (RemoveDir path)
      else path_sys path (RemoveFile path)
  | Scoped root rel => delete_at depth root rel recursive
  end.

Definition target_mkdir_all (t : Target) : io Host unit :=
  match t with
  | Direct path => path_sys path (CreateDirAll path)
  | Scoped root rel => mkdir_all root rel
  end.

Definition drop_target (t : Target) : io Host unit :=
  match t with Direct _ => io_ret tt | Scoped root _ => close (dir root) end.

(** ** Requests *)

Definition param (key : String.string) : io Ctx (option str) := io_gets (fun c => params (request c) !! lit key).
Definition param_u64 (key : String.string) : io Ctx (option Z) :=
  v <- param key ;; io_ret (v ≫= parse_uint u64_max).
Definition param_bool (key : String.string) (default : bool) : io Ctx bool :=
  io_gets (fun c => bool_param (params (request c)) (lit key) default).

Definition require_path (sandbox : option SandboxEntry) : io Ctx (option Target) :=
  raw <- param "path" ;;
  match raw with
  | None | Some [] => with_resp (error 400 (lit "missing 'path' query parameter")) ;;; io_ret None
  | Some raw =>
      match sandbox with
      | None => io_ret (Some (Direct raw))
      | Some sbx =>
          root <- io_try (ctx_host (scoped_open (home sbx) (uid sbx))) ;;
          match root with
          | Ok root => io_ret (Some (Scoped root (normalize_relative raw)))
          | Err e => with_resp (error 500 (lit "cannot open sandbox home: " ++ err_text e)) ;;; io_ret None
          end
      end
  end.

(** [let Some(target) = require_path(..)? else ..] and the rest of the handler,
    which holds the target to its end. *)
Definition with_target (sandbox : option SandboxEntry) (rest : Target -> io Ctx unit) : io Ctx unit :=
  target <- require_path sandbox ;;
  match target with
  | None => io_ret tt
  | Some target => io_finally (rest target) (ctx_host (drop_target target))
  end.

Definition fs_error (action path : str) (e : io_error) : io Ctx unit :=
  let path := shown_path path in
  if bool_decide (raw_os_error e = Some ELOOP) then
    with_resp (error 400 (lit "cannot " ++ action ++ lit " " ++ path
                          ++ lit ": a path component is a symlink, which this API does not follow"))
  else if bool_decide (err_kind e = NotFound) then
    with_resp (error 404 (lit "no such path: " ++ path))
  else with_resp (error 400 (lit "cannot " ++ action ++ lit " " ++ path ++ lit ": " ++ err_text e)).

Definition is_a_directory (path : str) : io Ctx unit :=
  with_resp (error 409 (lit "is a directory: " ++ shown_path path)).

(** ** Reading *)

Definition READ_BUF : Z := 256 * 1024.

(** The copy loop; a read gives at most what the buffer holds.  Each iteration but
    the last sends at least one byte. *)
Fixpoint copy_loop (fuel : nat) (file buf_len remaining : Z) : io Ctx Z :=
  match fuel with
  | O => io_fail fuel_error
  | S fuel' =>
      if 0 <? remaining then
        let max := Z.to_nat (Z.min buf_len remaining) in
        got <- ctx_host (hsys (ReadFd file max)) ;;
        let got := take max got in
        if is_empty got then io_ret remaining
        else
          with_resp (raw got) ;;;
          copy_loop fuel' file buf_len (remaining - slen got)
      else io_ret remaining
  end.

Definition shrank : io_error :=
  error_new UnexpectedEof (lit "file shrank during read; closing the connection to avoid a desynchronised response").

Definition send_file (file length : Z) : io Ctx unit :=
  with_resp (start_fixed 200 (lit "application/octet-stream") length) ;;;
  remaining <- copy_loop (S (Z.to_nat length)) file (Z.min length READ_BUF) length ;;
  with_resp flush ;;;
  if 0 <? remaining then io_fail shrank else io_ret tt.

Definition seek (file offset : Z) : io Host unit := hsys (Lseek file (wrap_i64 offset)).

Definition handle_read (sandbox : option SandboxEntry) : io Ctx unit :=
  with_target sandbox (fun target =>
    let display := target_display target in
    opened <- io_try (ctx_host (target_open_read target)) ;;
    match opened with
    | Err e => if bool_decide (raw_os_error e = Some EISDIR) then is_a_directory display
               else fs_error (lit "open") display e
    | Ok file =>
        io_finally
          (metadata <- ctx_host (file_metadata file) ;;
           if is_dir metadata then is_a_directory display
           else
             offset <- param_u64 "offset" ;;
             asked <- param_u64 "length" ;;
             let offset := default 0 offset in
             let length := Z.min (default u64_max asked) (sat_sub (m_size metadata) offset) in
             (if 0 <? offset then ctx_host (seek file offset) else io_ret tt) ;;;
             send_file file length)
          (ctx_host (close file))
    end).

(** ** Writing *)

(** [File::set_len]: the size must fit an [i64]. *)
Definition set_len (file size : Z) : io Host unit :=
  if i64_max <? size then
    io_fail (error_new InvalidInput (lit "out of range integral type conversion attempted"))
  else hsys (Ftruncate file size).

Definition write_chunk (file : Z) (chunk : str) : io Host unit := hsys (WriteFd file chunk).

(** [stream_body] with the file as its consumer. *)
Definition body_to_file (file : Z) : io Ctx Z :=
  io_lens (fun c => ((request c, reader c), host (state c)))
    (fun s c => set_state (set_host s.2 (state c)) (set_reader s.1.2 (set_request s.1.1 c)))
    (stream_body (write_chunk file)).

Definition handle_write (sandbox : option SandboxEntry) : io Ctx unit :=
  with_target sandbox (fun target =>
    let display := target_display target in
    mkdir <- param_bool "mkdir" true ;;
    mode <- param "mode" ;;
    let mode := mode ≫= from_str_radix u32_max 8 in
    offset <- param_u64 "offset" ;;
    truncate_to <- param_u64 "truncate_to" ;;
    opened <- io_try (ctx_host (target_open_write target mkdir offset)) ;;
    match opened with
    | Err e => fs_error (lit "write") display e
    | Ok file =>
        io_finally
          (sought <- io_try (match offset with
                             | Some offset => ctx_host (seek file offset)
                             | None => io_ret tt
                             end) ;;
           match sought with
           | Err e => with_resp (error 400 (lit "cannot seek in " ++ shown_path display ++ lit ": " ++ err_text e))
           | Ok _ =>
               size <- body_to_file file ;;
               cut <- io_try (match truncate_to with
                              | Some final_size => ctx_host (set_len file final_size)
                              | None => io_ret tt
                              end) ;;
               match cut with
               | Err e =>
                   with_resp (error 400 (lit "cannot truncate " ++ shown_path display ++ lit " to "
                                         ++ show (default 0 truncate_to) ++ lit ": " ++ err_text e))
               | Ok _ =>
                   (match mode with
                    | Some mode => io_ignore (ctx_host (fchmod file mode))
                    | None => io_ret tt
                    end) ;;;
                   with_resp (json 200 (jobj [("path", VString (shown_path display)); ("size", jint size)]%string))
               end
           end)
          (ctx_host (close file))
    end).

(** ** Directories *)

Definition entry_name (path : str) : str := from_utf8_lossy (default [] (file_name path)).

Definition mtime_ms (m : Metadata) : option Z :=
  if 0 <=? m_mtime_ns m then Some (wrap_i64 (m_mtime_ns m / 1000000)) else None.

Definition entry_json (path : str) (m : Metadata) : Value Number :=
  jobj [("name", VString (entry_name path)); ("path", VString (shown_path path));
        ("type", VString (if is_dir m then lit "dir" else if is_symlink m then lit "symlink" else lit "file"));
        ("size", jint (m_size m)); ("mtime_ms", jopt jint (mtime_ms m));
        ("mode", VString (show_oct (Z.land (m_mode m) 4095)))]%string.

(** One page: the entries after [after] in name order, at most [limit] of them. *)
Definition page (limit : Z) (after : str) (entries : list (str * Value Number))
    : list (str * Value Number) * bool * option str :=
  let named := sort_named (List.filter (fun e => str_ltb after e.1) entries) in
  let truncated := limit <? Z.of_nat (length named) in
  let named := take (Z.to_nat limit) named in
  (named, truncated, if truncated then fst <$> last named else None).

Definition handle_list (sandbox : option SandboxEntry) : io Ctx unit :=
  with_target sandbox (fun target =>
    let display := target_display target in
    limit <- param_u64 "limit" ;;
    let limit := Z.min (default 10000 limit) 50000 in
    after <- param "after" ;;
    listed <- io_try (ctx_host (target_list target)) ;;
    match listed with
    | Err e => fs_error (lit "list") display e
    | Ok entries =>
        let named := map (fun '(path, m) => (entry_name path, entry_json path m)) entries in
        let '(named, truncated, next) := page limit (default [] after) named in
        with_resp (json 200 (jobj [("entries", VArray named.*2); ("truncated", VBool truncated);
                                   ("next", jopt VString next)]%string))
    end).

Definition handle_stat (sandbox : option SandboxEntry) : io Ctx unit :=
  with_target sandbox (fun target =>
    let display := target_display target in
    found <- io_try (ctx_host (target_metadata target)) ;;
    match found with
    | Ok metadata => with_resp (json 200 (entry_json display metadata))
    | Err e => fs_error (lit "stat") display e
    end).

Definition handle_delete (depth : nat) (sandbox : option SandboxEntry) : io Ctx unit :=
  with_target sandbox (fun target =>
    let display := target_display target in
    recursive <- param_bool "recursive" false ;;
    r <- io_try (ctx_host (target_delete depth target recursive)) ;;
    match r with
    | Ok _ => with_resp (json 200 (jobj [("deleted", VString (shown_path display))]%string))
    | Err e => fs_error (lit "delete") display e
    end).

Definition handle_mkdir (sandbox : option SandboxEntry) : io Ctx unit :=
  with_target sandbox (fun target =>
    let display := target_display target in
    r <- io_try (ctx_host (target_mkdir_all target)) ;;
    match r with
    | Ok _ => with_resp (json 200 (jobj [("created", VString (shown_path display))]%string))
    | Err e => fs_error (lit "mkdir") display e
    end).

End Files.
