(* ===== verification/FilesFacts.v ===== *)
(** * The file endpoints

    Confinement of every request in host mode, the framing of a download, and the
    paging of a listing. *)

From stdpp Require Import gmultiset.
From S2P Require Import Prelude RustStd StrFacts Json Net Http HttpResponse Kernel Sim Wp Host Ledger Paths.
From S2P Require Import State Samples Replies Fsutil FsutilFacts Files.

(** ** Host mode never leaves the home *)

Section Confinement.
Context {SJ : SerdeJson} {K : Kernel} {HD : DirNames K} (sbx : SandboxEntry).
Implicit Types D : gmultiset Z.

(** The calls made so far by a connection's handler. *)
Definition ctx_trace (c : @Ctx SJ (Traced K)) : list event := trace (host (state c)).

Abbreviation confined_c := (audit (ledger_step (home sbx)) ctx_trace).
Abbreviation confined_h := (audit (ledger_step (home sbx)) (@trace K)).

Lemma ctx_host_audit {A} D (m : io (@Host (Traced K)) A) Q : confined_h D m Q -> confined_c D (ctx_host m) Q.
Proof. intros Hm c. apply wp_lens, wp_lens. apply Hm. Qed.

Lemma with_resp_keeps {A} D (m : io ResponseWriter A) : confined_c D (with_resp m) (keeps D).
Proof. apply audit_quiet. intros c. apply wp_lens. by apply wp_any. Qed.

(** An [Err] reply that ends the handler, or the request's parameters. *)
Lemma param_keeps D key : confined_c D (param key) (keeps D).
Proof. by apply audit_gets. Qed.
Lemma param_bool_keeps D key b : confined_c D (param_bool key b) (keeps D).
Proof. by apply audit_gets. Qed.

Lemma keeps_bind {A B} D (m : io (@Ctx SJ (Traced K)) A) (k : A -> io (@Ctx SJ (Traced K)) B) :
  confined_c D m (keeps D) -> (forall a, confined_c D (k a) (keeps D)) -> confined_c D (io_bind m k) (keeps D).
Proof. intros Hm Hk. eapply audit_bind; [apply Hm| |done]. intros a D' ->. apply Hk. Qed.

Lemma keeps_try {A} D (m : io (@Ctx SJ (Traced K)) A) : confined_c D m (keeps D) -> confined_c D (io_try m) (keeps D).
Proof. intros Hm. apply audit_try. apply Hm. Qed.
Lemma keeps_ignore {A} D (m : io (@Ctx SJ (Traced K)) A) : confined_c D m (keeps D) -> confined_c D (io_ignore m) (keeps D).
Proof. intros Hm. apply audit_ignore. apply Hm. Qed.
Lemma keeps_ret {A} D (a : A) : confined_c D (io_ret a) (keeps D).
Proof. by apply audit_ret. Qed.
Lemma keeps_fail {A} D e : confined_c D (io_fail (A:=A) e) (keeps D).
Proof. by apply audit_fail. Qed.

Lemma param_u64_keeps D key : confined_c D (param_u64 key) (keeps D).
Proof. apply keeps_bind; [apply param_keeps|]. intros a. apply keeps_ret. Qed.

Lemma fs_error_keeps D action path e : confined_c D (fs_error action path e) (keeps D).
Proof. unfold fs_error. repeat case_match; apply with_resp_keeps. Qed.

Lemma with_body_keeps {A} D (m : io (Request * Reader) A) : confined_c D (with_body m) (keeps D).
Proof. apply audit_quiet. intros c. apply wp_lens. by apply wp_any. Qed.
Lemma gets_keeps {A} D (f : @Ctx SJ (Traced K) -> A) : confined_c D (io_gets f) (keeps D).
Proof. by apply audit_gets. Qed.

End Confinement.

#[export] Hint Resolve with_resp_keeps with_body_keeps gets_keeps param_keeps param_bool_keeps param_u64_keeps fs_error_keeps keeps_ret keeps_fail : confined.

(** Steps through code that keeps the ledger. *)
Ltac keep :=
  repeat lazymatch goal with
    | |- forall _, _ => intro
    | |- audit _ _ _ (io_bind _ _) _ => apply keeps_bind
    | |- audit _ _ _ (io_try _) _ => apply keeps_try
    | |- audit _ _ _ (io_ignore _) _ => apply keeps_ignore
    | |- audit _ _ _ (if ?b then _ else _) _ => destruct b
    | |- audit _ _ _ (match ?x with _ => _ end) _ => destruct x
    | |- audit _ _ _ _ _ => solve [eauto with confined]
    end.

Section Requests.
Context {SJ : SerdeJson} {K : Kernel} {HD : DirNames K} (sbx : SandboxEntry).
Implicit Types D : gmultiset Z.
Abbreviation confined_c := (audit (ledger_step (home sbx)) (@ctx_trace SJ K)).
Abbreviation confined_h := (audit (ledger_step (home sbx)) (@trace K)).

Lemma held_call fd c D :
  fd ∈ D -> (forall r, ledger_step (home sbx) D (Event c r) = if bool_decide (fd ∈ D) then Some D else None) ->
  confined_h D (hsys c) (keeps D).
Proof.
  intros Hd Hs. apply audit_call. intros r w w' _. exists D. rewrite Hs, bool_decide_eq_true_2; done.
Qed.

(** ** The target *)

Definition scoped_in D (r : result (option Target) io_error) (D' : gmultiset Z) : Prop :=
  match r with
  | Ok (Some (Scoped root _)) => D' = {[+ dir root +]} ⊎ D
  | Ok (Some (Direct _)) => False
  | _ => D' = D
  end.

Lemma scoped_open_in D uid :
  confined_h D (scoped_open (home sbx) uid)
    (fun r D' => match r with Ok root => D' = {[+ dir root +]} ⊎ D | Err _ => D' = D end).
Proof.
  eapply audit_bind; [by apply confined_c_path| |by intros e D' [-> _]].
  intros p D' [-> [[= ->]|[? ?]]]; [|done].
  eapply audit_bind with (P := gives D).
  - lazymatch goal with |- audit _ _ _ (hsys ?c) _ => apply (audit_call _ D c) end.
    intros r w w' _. cbn [ledger_step]. rewrite eqs_refl. eexists. split; [reflexivity|]. by destruct r.
  - intros fd D' ->. by apply audit_ret.
  - done.
Qed.

Lemma require_path_in D : confined_c D (require_path (Some sbx)) (scoped_in D).
Proof.
  eapply audit_bind; [apply param_keeps| |done]. intros raw D' ->.
  assert (Hmissing : confined_c D
    (with_resp (error 400 (lit "missing 'path' query parameter")) ;;; io_ret None) (scoped_in D)).
  { eapply audit_bind; [apply with_resp_keeps| |done]. intros _ D' ->. by apply audit_ret. }
  destruct raw as [[|a raw]|]; [done| |done].
  eapply audit_bind; [apply audit_try, ctx_host_audit| |].
  - eapply audit_mono; [apply scoped_open_in|]. intros r D' H.
    instantiate (1 := fun r D' => match r with
      | Ok (Ok root) => D' = {[+ dir root +]} ⊎ D | Ok (Err _) => D' = D | Err _ => False end).
    exact H.
  - intros [root|e] D' ->; [by apply audit_ret|].
    eapply audit_bind; [apply with_resp_keeps| |done]. intros _ D' ->. by apply audit_ret.
  - done.
Qed.

Lemma with_target_keeps D (rest : Target -> io (@Ctx SJ (Traced K)) unit) :
  (forall root rel, confined_c ({[+ dir root +]} ⊎ D) (rest (Scoped root rel)) (keeps ({[+ dir root +]} ⊎ D))) ->
  confined_c D (with_target (Some sbx) rest) (keeps D).
Proof.
  intros Hr. eapply audit_bind; [apply require_path_in| |by intros e D' ->].
  intros [[p|root rel]|] D' H; [done| |by apply audit_ret]. simpl in H. subst D'.
  eapply audit_finally; [apply Hr|]. intros r D' ->. apply ctx_host_audit.
  eapply audit_mono; [apply close_drops|]. by intros _ D' [_ ->].
Qed.

(** Code that works on a file it was given and that is then closed. *)
Lemma with_file_keeps D (m : io (@Host (Traced K)) Z) (failed : io_error -> io (@Ctx SJ (Traced K)) unit) (rest : Z -> io (@Ctx SJ (Traced K)) unit) :
  confined_h D m (gives D) ->
  (forall e, confined_c D (failed e) (keeps D)) ->
  (forall file, confined_c ({[+ file +]} ⊎ D) (rest file) (keeps ({[+ file +]} ⊎ D))) ->
  confined_c D (opened <- io_try (ctx_host m) ;;
                match opened with
                | Err e => failed e
                | Ok file => io_finally (rest file) (ctx_host (close file))
                end) (keeps D).
Proof.
  intros Hm Hf Hr. eapply audit_bind with (P := fun r D' => match r with
    | Ok (Ok fd) => D' = {[+ fd +]} ⊎ D | Ok (Err _) => D' = D | Err _ => False end); [| |done].
  - apply audit_try, ctx_host_audit. eapply audit_mono; [apply Hm|]. by intros [fd|e] D'.
  - intros [fd|e] D' ->; [|apply Hf]. eapply audit_finally; [apply Hr|]. intros r D' ->.
    apply ctx_host_audit. eapply audit_mono; [apply close_drops|]. by intros _ D' [_ ->].
Qed.

(** ** Each operation *)

Lemma copy_loop_keeps fuel file len remaining D :
  file ∈ D -> confined_c D (copy_loop fuel file len remaining) (keeps D).
Proof.
  intros Hf. revert remaining. induction fuel as [|fuel IH]; intros remaining; cbn [copy_loop]; [apply keeps_fail|].
  assert (Hr : forall n, confined_c D (ctx_host (hsys (ReadFd file n))) (keeps D)).
  { intros n. apply ctx_host_audit, (held_call file (ReadFd file n)); done. }
  keep.
Qed.

Lemma send_file_keeps file len D : file ∈ D -> confined_c D (send_file file len) (keeps D).
Proof. intros Hf. unfold send_file. keep. by apply copy_loop_keeps. Qed.

(** The body's chunks go to a file that is held. *)
Lemma stream_loop_keeps file fuel remaining D :
  file ∈ D ->
  audit (ledger_step (home sbx)) (fun s : (Request * Reader) * @Host (Traced K) => trace s.2) D
    (stream_loop (write_chunk file) fuel remaining) (keeps D).
Proof.
  intros Hf. revert remaining. induction fuel as [|fuel IH]; intros remaining; [by apply audit_fail|].
  unfold stream_loop; fold (stream_loop (write_chunk (K:=Traced K) file)).
  destruct (0 <? remaining); [|by apply audit_ret].
  eapply audit_bind with (P := keeps D); [| |done].
  { apply audit_quiet. intros s. apply wp_lens, wp_lens. by apply wp_any. }
  intros [|b got] D' ->; [by apply audit_fail|].
  eapply audit_bind with (P := keeps D); [| |done].
  { intros s. apply wp_lens. unfold write_chunk. apply (held_call file (WriteFd file (b :: got))); done. }
  intros _ D' ->. eapply audit_bind with (P := keeps D); [by apply audit_gets| |done].
  intros q D' ->. eapply audit_bind with (P := keeps D); [| |done].
  { apply audit_quiet. intros s. apply wp_lens. by apply wp_any. }
  intros _ D' ->. apply IH.
Qed.

Lemma body_to_file_keeps file D : file ∈ D -> confined_c D (body_to_file file) (keeps D).
Proof.
  intros Hf.
  assert (H : audit (ledger_step (home sbx)) (fun s : (Request * Reader) * @Host (Traced K) => trace s.2) D
                (stream_body (write_chunk file)) (keeps D)).
  { unfold stream_body. eapply audit_bind with (P := keeps D); [by apply audit_gets| |done]. intros q D' ->.
    eapply audit_bind with (P := keeps D); [| |done].
    { apply audit_quiet. intros s. apply wp_lens. by apply wp_any. }
    intros fuel D' ->. eapply audit_bind with (P := keeps D); [by apply stream_loop_keeps| |done].
    intros _ D' ->. by apply audit_ret. }
  intros c. apply wp_lens. apply H.
Qed.

Lemma seek_keeps file offset D : file ∈ D -> confined_h D (seek file offset) (keeps D).
Proof. intros Hf. by apply (held_call file (Lseek file (wrap_i64 offset))). Qed.

Lemma set_len_keeps file size D : file ∈ D -> confined_h D (set_len file size) (keeps D).
Proof. intros Hf. unfold set_len. destruct (i64_max <? size); [by apply audit_fail|]. by apply (held_call file (Ftruncate file size)). Qed.

Hint Resolve ctx_host_audit seek_keeps set_len_keeps send_file_keeps body_to_file_keeps file_metadata_keeps
  fchmod_keeps metadata_keeps list_dir_keeps delete_at_keeps mkdir_all_keeps : confined.

Lemma handle_read_keeps D : confined_c D (handle_read (Some sbx)) (keeps D).
Proof.
  apply with_target_keeps. intros root rel. apply with_file_keeps.
  - apply open_read_gives. auto with confined.
  - intros e. unfold is_a_directory. keep.
  - intros file. unfold is_a_directory. keep.
Qed.

Lemma handle_write_keeps D : confined_c D (handle_write (Some sbx)) (keeps D).
Proof.
  apply with_target_keeps. intros root rel.
  do 4 (apply keeps_bind; [solve [keep]|intros ?]). apply with_file_keeps.
  - apply open_write_gives. auto with confined.
  - intros e. keep.
  - intros file. keep.
Qed.

Lemma handle_list_keeps D : confined_c D (handle_list (Some sbx)) (keeps D).
Proof. apply with_target_keeps. intros root rel. unfold target_list. keep. Qed.

Lemma handle_stat_keeps D : confined_c D (handle_stat (Some sbx)) (keeps D).
Proof. apply with_target_keeps. intros root rel. unfold target_metadata. keep. Qed.

Lemma handle_delete_keeps depth D : confined_c D (handle_delete depth (Some sbx)) (keeps D).
Proof. apply with_target_keeps. intros root rel. unfold target_delete. keep. Qed.

Lemma handle_mkdir_keeps D : confined_c D (handle_mkdir (Some sbx)) (keeps D).
Proof. apply with_target_keeps. intros root rel. unfold target_mkdir_all. keep. Qed.

(** The file endpoints of src/main.rs. *)
Inductive file_handler : (option SandboxEntry -> io (@Ctx SJ (Traced K)) unit) -> Prop :=
| fh_read : file_handler handle_read
| fh_write : file_handler handle_write
| fh_list : file_handler handle_list
| fh_stat : file_handler handle_stat
| fh_delete depth : file_handler (handle_delete depth)
| fh_mkdir : file_handler handle_mkdir.

(** C5: no file request of a sandbox leaves its home, whatever the request says and
    whatever the sandbox's processes do to the tree meanwhile: the server opens one
    path by name, the sandbox's home, as a directory and without following a link;
    every other call names one entry (no separator, not [.] or [..]) of a directory
    it holds, with [O_NOFOLLOW], or acts on a descriptor it holds; and when the
    handler ends every descriptor it opened has been closed, on every path. *)
Theorem file_requests_confined handler c :
  file_handler handler ->
  exists evs, ctx_trace (handler (Some sbx) c).2 = ctx_trace c ++ evs
    /\ ledger (ledger_step (home sbx)) ∅ evs = Some ∅.
Proof.
  intros Hh. assert (Hk : confined_c ∅ (handler (Some sbx)) (keeps ∅)).
  { destruct Hh; [apply handle_read_keeps|apply handle_write_keeps|apply handle_list_keeps
      |apply handle_stat_keeps|apply handle_delete_keeps|apply handle_mkdir_keeps]. }
  destruct (Hk c) as (evs & D' & Ht & Hl & ->). by exists evs.
Qed.

End Requests.

(** ** Every request gets one reply *)

Section Answers.
Context {SJ : SerdeJson} {K : Kernel}.

Lemma require_path_replies sandbox c :
  wp (require_path sandbox) c (fun r c' => match r with
    | Ok (Some _) => resp c' = resp c
    | Ok None => replied (resp c) (resp c')
    | Err _ => True
    end).
Proof.
  assert (Hno : forall status m c, wp (with_resp (error status m) ;;; io_ret (A:=option Target) None) c (fun r c' => match r with
    | Ok (Some _) => resp c' = resp c
    | Ok None => replied (resp c) (resp c')
    | Err _ => True
    end)).
  { intros status m c1. apply wp_bind. eapply wp_mono; [apply replies_error|].
    intros [[]|e] c2 Hr; [|done]. by apply wp_ret, Hr. }
  unfold require_path. apply wp_bind, wp_gets. destruct (params _ !! _) as [[|a raw]|]; [apply Hno| |apply Hno].
  destruct sandbox as [sbx|]; [|by apply wp_ret]. apply wp_bind, wp_try.
  eapply wp_mono; [apply silent_host|]. intros [root|e] c1 H1; simpl in H1; rewrite <- H1; [by apply wp_ret|apply Hno].
Qed.

Lemma with_target_replies sandbox rest : (forall t, replies (rest t)) -> replies (with_target sandbox rest).
Proof.
  intros Hr c. apply wp_bind. eapply wp_mono; [apply require_path_replies|].
  intros [[t|]|e] c1 H1; [|by apply wp_ret|done]. rewrite <- H1. apply replies_finally; [apply Hr|apply silent_host].
Qed.

Lemma raw_ok d rw u rw' : raw d rw = (Ok u, rw') -> out rw' = out rw ++ d /\ chunked rw' = chunked rw.
Proof. intros H. by apply on_writer_ok in H as (? & ? & _). Qed.

(** What the copy loop sends is what it says it sent, and it never runs out of fuel. *)
Lemma copy_loop_sends fuel file len remaining c :
  0 <= remaining ->
  wp (copy_loop fuel file len remaining) c (fun r c' => match r with
    | Ok still => exists body, out (resp c') = out (resp c) ++ body /\ chunked (resp c') = chunked (resp c)
                   /\ slen body + still = remaining /\ 0 <= still
    | Err _ => True
    end).
Proof.
  revert remaining c. induction fuel as [|fuel IH]; intros remaining c Hr; cbn [copy_loop]; [by apply wp_fail|].
  assert (Hnil : exists body, out (resp c) = out (resp c) ++ body /\ chunked (resp c) = chunked (resp c)
                   /\ slen body + remaining = remaining /\ 0 <= remaining).
  { exists []. rewrite app_nil_r. unfold slen. simpl. split_and!; lia || done. }
  destruct (0 <? remaining) eqn:Hpos; [|by apply wp_ret].
  apply wp_bind. eapply wp_mono; [apply silent_host|]. intros [got|e] c1 H1; [|done].
  set (d := take _ got). assert (Hd : slen d <= remaining).
  { unfold slen, d. rewrite length_take. lia. }
  destruct (is_empty d) eqn:He; [by apply wp_ret; rewrite H1|].
  apply wp_bind, wp_lens, wp_intro. intros [u|e] rw Hraw; [|done]. apply raw_ok in Hraw as [Ho Hc].
  eapply wp_mono; [apply IH; lia|]. intros [still|e] c2; [|done]. simpl.
  intros (body & Hb & Hk & Hl & Hge). exists (d ++ body).
  rewrite Hb, Ho, H1, app_assoc. unfold slen in *. rewrite length_app. split_and!; [done|congruence|lia|done].
Qed.

Lemma send_file_replies file len : 0 <= len -> replies (send_file file len).
Proof.
  intros Hlen c. unfold send_file. apply wp_bind, wp_lens, wp_intro. intros [u|e] rw Hs; [|done].
  apply write_head_ok in Hs as (Ho & Hc & _ & _). apply wp_bind.
  eapply wp_mono; [by apply copy_loop_sends|]. intros [still|e] c1; [|done]. simpl.
  intros (body & Hb & Hk & Hl & Hge). apply wp_bind, wp_lens, wp_intro. intros [u1|e] rw1 Hf; [|done].
  apply on_writer_ok in Hf as (Hof & Hcf & _). destruct (0 <? still) eqn:Hpos; [by apply wp_fail|].
  apply wp_ret. intros _. simpl. apply (replied_fixed _ _ 200 (lit "application/octet-stream") body).
  - rewrite Hof, app_nil_r, Hb, Ho. assert (slen body = len) as <- by lia. unfold fixed_reply. by rewrite <- !app_assoc.
  - congruence.
Qed.

Lemma fs_error_replies action path e : replies (fs_error action path e).
Proof. unfold fs_error. replying. Qed.

Hint Resolve fs_error_replies send_file_replies : replies.

Lemma param_u64_silent key : silent (param_u64 key).
Proof. unfold param_u64, param. replying. Qed.
Lemma body_to_file_silent file : silent (body_to_file file).
Proof. intros c. apply wp_lens. by apply wp_any. Qed.
Hint Resolve param_u64_silent body_to_file_silent : replies.

(** The length a download promises. *)
Lemma file_length_nonneg key k :
  (forall asked : option Z, (forall v, asked = Some v -> 0 <= v) -> replies (k asked)) ->
  replies (io_bind (param_u64 key) k).
Proof.
  intros Hk c. apply wp_bind. unfold param_u64, param. apply wp_bind, wp_gets, wp_ret. apply Hk.
  intros v Hv. apply bind_Some in Hv as (s & _ & Hv). apply parse_uint_range in Hv. apply Hv.
Qed.

Lemma handle_read_replies sandbox : replies (handle_read sandbox).
Proof.
  apply with_target_replies. intros t. apply replies_bind; [replying|].
  intros [file|e]; [|unfold is_a_directory; replying]. apply replies_finally; [|replying].
  apply replies_bind; [replying|]. intros m. destruct (is_dir m); [unfold is_a_directory; replying|].
  apply file_length_nonneg. intros offset _. apply file_length_nonneg. intros asked Ha.
  apply replies_bind; [replying|]. intros _. apply send_file_replies.
  unfold sat_sub. destruct asked; simpl; [specialize (Ha _ eq_refl)|unfold u64_max]; lia.
Qed.

Lemma handle_write_replies sandbox : replies (handle_write sandbox).
Proof. apply with_target_replies. intros t. unfold param_bool, param. replying. Qed.
Lemma handle_list_replies sandbox : replies (handle_list sandbox).
Proof. apply with_target_replies. intros t. unfold param. replying. Qed.
Lemma handle_stat_replies sandbox : replies (handle_stat sandbox).
Proof. apply with_target_replies. intros t. replying. Qed.
Lemma handle_delete_replies depth sandbox : replies (handle_delete depth sandbox).
Proof. apply with_target_replies. intros t. unfold param_bool. replying. Qed.
Lemma handle_mkdir_replies sandbox : replies (handle_mkdir sandbox).
Proof. apply with_target_replies. intros t. replying. Qed.

End Answers.

Definition read_b : Request := a_request "GET" "/v1/sandboxes/a/files/read" [(lit "path", lit "../a/./b")] "t".

Lemma file_requests_confined_witness :
  length (ctx_trace (handle_read (Some a_sandbox) (a_ctx true (traced_host tree) read_b)).2) = 11%nat
  /\ exists evs, ctx_trace (handle_read (Some a_sandbox) (a_ctx true (traced_host tree) read_b)).2 = [] ++ evs
    /\ ledger (ledger_step (home a_sandbox)) ∅ evs = Some ∅.
Proof.
  split; [vm_compute; reflexivity|].
  exact (file_requests_confined a_sandbox handle_read (a_ctx true (traced_host tree) read_b) fh_read).
Defined.
