(* ===== verification/ListingFacts.v ===== *)
(** * Listing a directory page by page

    The order of names, the sort of src/files.rs, and that following [next] gives
    every entry once. *)

From Stdlib Require Import Sorting.Sorted.
From S2P Require Import Prelude RustStd StrFacts Json Files.

(** ** The order of names *)

Lemma byte_eq c d : byte c = byte d -> c = d.
Proof. intros H. rewrite <- (chr_byte c), <- (chr_byte d). by rewrite H. Qed.

Lemma str_ltb_irrefl a : str_ltb a a = false.
Proof. induction a as [|c a IH]; simpl; [done|]. by rewrite Z.ltb_irrefl, Z.eqb_refl. Qed.

Lemma str_ltb_cons c a d b : str_ltb (c :: a) (d :: b) = true <-> byte c < byte d \/ c = d /\ str_ltb a b = true.
Proof.
  simpl. destruct (byte c <? byte d) eqn:H; simpl.
  - apply Z.ltb_lt in H. split; [by left|done].
  - apply Z.ltb_ge in H. rewrite andb_true_iff, Z.eqb_eq. split; [intros [He ?]; right; split; [by apply byte_eq|done]|].
    intros [?|[-> ?]]; [lia|done].
Qed.

Lemma str_ltb_trans a b c : str_ltb a b = true -> str_ltb b c = true -> str_ltb a c = true.
Proof.
  revert b c. induction a as [|x a IH]; intros [|y b] [|z c]; try done.
  rewrite !str_ltb_cons. intros [?|[-> ?]] [?|[-> ?]]; [left; lia|by left|by left|right; eauto].
Qed.

Lemma str_ltb_total a b : str_ltb a b = false -> str_ltb b a = false -> a = b.
Proof.
  revert b. induction a as [|x a IH]; intros [|y b]; try done. intros H1 H2.
  assert (Hlt : ~ byte x < byte y). { intros H. apply not_true_iff_false in H1. apply H1, str_ltb_cons. by left. }
  assert (Hgt : ~ byte y < byte x). { intros H. apply not_true_iff_false in H2. apply H2, str_ltb_cons. by left. }
  assert (x = y) as -> by (apply byte_eq; lia). f_equal. apply IH; apply not_true_iff_false; intros H.
  - apply not_true_iff_false in H1. apply H1, str_ltb_cons. by right.
  - apply not_true_iff_false in H2. apply H2, str_ltb_cons. by right.
Qed.

Lemma str_ltb_asym a b : str_ltb a b = true -> str_ltb b a = false.
Proof.
  intros H. destruct (str_ltb b a) eqn:H'; [|done]. pose proof (str_ltb_trans _ _ _ H H') as Hbad. by rewrite str_ltb_irrefl in Hbad.
Qed.

Section Sort.
Context {A : Type}.
Implicit Types l : list (str * A).

(** In the order of names; two entries can have the same one. *)
Definition upto (x y : str * A) : Prop := str_ltb y.1 x.1 = false.
Abbreviation sorted := (StronglySorted upto).

Lemma upto_cases x y : upto x y -> str_ltb x.1 y.1 = true \/ x.1 = y.1.
Proof. unfold upto. intros H. destruct (str_ltb x.1 y.1) eqn:H'; [by left|right]. by apply str_ltb_total. Qed.

Lemma upto_trans x y z : upto x y -> upto y z -> upto x z.
Proof.
  intros Hxy Hyz. destruct (upto_cases _ _ Hxy) as [H|H]; [|unfold upto in *; congruence].
  apply str_ltb_asym. destruct (upto_cases _ _ Hyz) as [H'|H']; [by eapply str_ltb_trans|by rewrite <- H'].
Qed.

Lemma insert_named_perm x l : insert_named x l ≡ₚ x :: l.
Proof.
  induction l as [|y l IH]; simpl; [done|]. destruct (str_leb x.1 y.1); [done|]. rewrite IH. by apply Permutation_swap.
Qed.

Lemma insert_named_sorted x l : sorted l -> sorted (insert_named x l).
Proof.
  induction 1 as [|y l Hl IH Hy]; simpl; [by repeat constructor|]. unfold str_leb.
  destruct (str_ltb y.1 x.1) eqn:Hyx; simpl.
  - constructor; [done|]. rewrite insert_named_perm. constructor; [|done]. by apply str_ltb_asym.
  - constructor; [by constructor|]. constructor; [done|]. eapply Forall_impl; [exact Hy|].
    intros z. by apply upto_trans.
Qed.

Lemma insert_min x l : Forall (upto x) l -> insert_named x l = x :: l.
Proof. destruct 1 as [|y l Hy _]; [done|]. simpl. unfold str_leb. by rewrite Hy. Qed.

Lemma filter_insert p x l : sorted l ->
  List.filter p (insert_named x l) = if p x then insert_named x (List.filter p l) else List.filter p l.
Proof.
  induction 1 as [|y l Hl IH Hy]; cbn [insert_named]; [by simpl; destruct (p x)|].
  unfold str_leb at 1. destruct (str_ltb y.1 x.1) eqn:Hyx; cbn [negb].
  - cbn [List.filter]. rewrite IH by done. destruct (p y), (p x); simpl; unfold str_leb; rewrite ?Hyx; done.
  - cbn [List.filter]. destruct (p x); [|done]. symmetry. apply insert_min.
    assert (Hall : Forall (upto x) (y :: l)).
    { constructor; [done|]. eapply Forall_impl; [exact Hy|]. intros z. by apply upto_trans. }
    change (Forall (upto x) (List.filter p (y :: l))).
    apply Forall_forall. intros z Hz. rewrite Forall_forall in Hall. apply Hall.
    apply list_elem_of_In. apply list_elem_of_In, filter_In in Hz. apply Hz.
Qed.

Lemma sort_named_perm l : sort_named l ≡ₚ l.
Proof. induction l as [|x l IH]; simpl; [done|]. by rewrite insert_named_perm, IH. Qed.

Lemma sort_named_sorted l : sorted (sort_named l).
Proof. induction l as [|x l IH]; [constructor|]. by apply insert_named_sorted. Qed.

Lemma filter_sort p l : sort_named (List.filter p l) = List.filter p (sort_named l).
Proof.
  induction l as [|x l IH]; [done|]. cbn [sort_named foldr List.filter].
  change (foldr insert_named [] l) with (sort_named l). rewrite filter_insert by apply sort_named_sorted.
  rewrite <- IH. by destruct (p x).
Qed.

Lemma filter_sorted p l : sorted l -> sorted (List.filter p l).
Proof.
  induction 1 as [|x l Hl IH Hx]; simpl; [constructor|]. destruct (p x); [|done]. constructor; [done|].
  apply Forall_forall. intros y Hy. rewrite Forall_forall in Hx. apply Hx.
  apply list_elem_of_In in Hy. apply filter_In in Hy as [Hy _]. by apply list_elem_of_In.
Qed.

Lemma filter_all p l : Forall (fun x => p x = true) l -> List.filter p l = l.
Proof. induction 1 as [|x l Hx _ IH]; simpl; [done|]. by rewrite Hx, IH. Qed.
Lemma filter_none p l : Forall (fun x => p x = false) l -> List.filter p l = [].
Proof. induction 1 as [|x l Hx _ IH]; simpl; [done|]. by rewrite Hx. Qed.
Lemma filter_sublist p l : sublist (List.filter p l) l.
Proof. induction l as [|x l IH]; simpl; [done|]. destruct (p x); by constructor. Qed.

(** In a sorted list, the entries after the last [x] of a prefix are among the rest:
    all of it but the entries with the name of [x]. *)
Lemma after_prefix pre x rest : sorted (pre ++ x :: rest) ->
  List.filter (fun e => str_ltb x.1 e.1) (pre ++ x :: rest) = List.filter (fun e => str_ltb x.1 e.1) rest
  /\ Forall (upto x) rest.
Proof.
  intros Hs. apply StronglySorted_app in Hs as (Hcross & _ & Hrest). apply StronglySorted_inv in Hrest as [_ Hr].
  split; [|done]. rewrite List.filter_app, filter_none; [cbn [List.filter app]; by rewrite str_ltb_irrefl|].
  apply Forall_forall. intros y Hy. apply Hcross; [done|set_solver].
Qed.

(** A later point to start from. *)
Lemma filter_later a b l : str_ltb a b = true ->
  List.filter (fun e : str * A => str_ltb b e.1) (List.filter (fun e => str_ltb a e.1) l)
  = List.filter (fun e => str_ltb b e.1) l.
Proof.
  intros Hab. induction l as [|x l IH]; simpl; [done|]. destruct (str_ltb a x.1) eqn:Ha; simpl; rewrite IH; [done|].
  destruct (str_ltb b x.1) eqn:Hb; [|done]. by rewrite (str_ltb_trans _ _ _ Hab Hb) in Ha.
Qed.
End Sort.

(** ** Pages *)

Section Pages.
Context {SJ : SerdeJson}.
Implicit Types entries : list (str * Value Number).

(** What a client gets that asks again with [next] as long as there is one. *)
Fixpoint all_pages (requests : nat) (limit : Z) (after : str) entries : list (str * Value Number) :=
  match requests with
  | O => []
  | S n =>
      let '(named, _, next) := page limit after entries in
      named ++ match next with Some name => all_pages n limit name entries | None => [] end
  end.

(** The entries a page chooses from. *)
Definition remaining (after : str) entries : list (str * Value Number) :=
  List.filter (fun e => str_ltb after e.1) (sort_named entries).

Lemma page_sorted limit after entries :
  page limit after entries =
    (let todo := remaining after entries in
     let truncated := limit <? Z.of_nat (length todo) in
     (take (Z.to_nat limit) todo, truncated,
      if truncated then fst <$> last (take (Z.to_nat limit) todo) else None)).
Proof. unfold page, remaining. by rewrite filter_sort. Qed.

(** After a page that ends with [x], the rest but the entries with its name. *)
Lemma remaining_next after entries page' x rest :
  remaining after entries = page' ++ x :: rest ->
  remaining x.1 entries = List.filter (fun e => str_ltb x.1 e.1) rest /\ Forall (upto x) rest.
Proof.
  intros Hr. assert (Hs : StronglySorted upto (page' ++ x :: rest)).
  { rewrite <- Hr. apply filter_sorted, sort_named_sorted. }
  assert (Hx : str_ltb after x.1 = true).
  { assert (Hin : In x (remaining after entries)) by (rewrite Hr; apply in_or_app; right; by left).
    by apply filter_In in Hin as [_ ?]. }
  destruct (after_prefix _ _ _ Hs) as [Hf Hup]. split; [|done].
  rewrite <- Hf, <- Hr. unfold remaining. by rewrite filter_later.
Qed.

(** From any point on, the pages give some of what remains: all of it but entries that
    have the name of one given. *)
Lemma pages_rest requests limit after entries :
  0 < limit -> (length (remaining after entries) < requests)%nat ->
  let got := all_pages requests limit after entries in
  sublist got (remaining after entries)
  /\ (forall e, e ∈ remaining after entries -> e.1 ∈ got.*1)
  /\ (NoDup (remaining after entries).*1 -> got = remaining after entries).
Proof.
  intros Hlim. revert after. induction requests as [|n IH]; intros after Hlen; [lia|].
  cbn [all_pages]. rewrite page_sorted. cbv zeta. set (todo := remaining after entries) in *.
  destruct (Z.ltb_spec limit (Z.of_nat (length todo))) as [Ht|Ht].
  2:{ rewrite take_ge, app_nil_r by lia. split_and!; [done| |done]. intros e. apply list_elem_of_fmap_2. }
  set (k := Z.to_nat limit).
  assert (Hpage : take k todo <> []) by (intros E; apply (f_equal length) in E; rewrite length_take in E; simpl in E; lia).
  destruct (exists_last Hpage) as (page' & x & Hx). rewrite Hx, last_snoc. cbn [fmap option_fmap option_map].
  assert (Hsplit : todo = page' ++ x :: drop k todo).
  { transitivity (take k todo ++ drop k todo); [by rewrite take_drop|]. by rewrite Hx, <- app_assoc. }
  destruct (remaining_next after entries page' x (drop k todo) Hsplit) as [Hnext Hup].
  pose proof (filter_sublist (fun e => str_ltb x.1 e.1) (drop k todo)) as Hsub. rewrite <- Hnext in Hsub.
  destruct (IH x.1) as (I1 & I2 & I3).
  { apply sublist_length in Hsub. rewrite length_drop in Hsub. lia. }
  split_and!.
  - rewrite Hsplit at 1. rewrite <- app_assoc. apply sublist_app; [done|]. simpl. constructor. by etrans.
  - intros e He. rewrite Hsplit in He. rewrite !fmap_app, !elem_of_app. simpl.
    apply elem_of_app in He as [He|He]; [left; left; by apply list_elem_of_fmap_2|].
    apply elem_of_cons in He as [->|He]; [left; right; left|]. rewrite Forall_forall in Hup.
    destruct (upto_cases _ _ (Hup e He)) as [Hlt|Heq]; [right|left; right; rewrite Heq; left].
    apply I2. rewrite Hnext. apply list_elem_of_In, filter_In. split; [by apply list_elem_of_In|done].
  - intros Hnd. assert (Hall : remaining x.1 entries = drop k todo).
    { rewrite Hnext. apply filter_all. rewrite Forall_forall in Hup |- *. intros e He.
      destruct (upto_cases _ _ (Hup e He)) as [Hlt|Heq]; [done|]. exfalso.
      rewrite Hsplit, fmap_app in Hnd. apply NoDup_app in Hnd as (_ & _ & Hnd). apply NoDup_cons in Hnd as [Hnin _].
      apply Hnin. rewrite Heq. by apply list_elem_of_fmap_2. }
    rewrite I3; [rewrite Hall, <- app_assoc; symmetry; exact Hsplit|]. rewrite Hall.
    rewrite Hsplit, fmap_app in Hnd. apply NoDup_app in Hnd as (_ & _ & Hnd). by apply NoDup_cons in Hnd as [_ Hnd].
Qed.

(** The entries as the handler names them: each file name decoded, what is not UTF-8
    replaced. *)
Definition decoded (files : list (str * Value Number)) : list (str * Value Number) :=
  map (fun f => (from_utf8_lossy f.1, f.2)) files.

(** Two files whose names are not UTF-8. *)
Definition twins : list (str * Value Number) := [([chr 255], VNull); ([chr 254], VNull)].

Lemma lossy_nonempty s : s <> [] -> from_utf8_lossy s <> [].
Proof.
  destruct s as [|b s]; [done|]. intros _. unfold from_utf8_lossy. cbn [length utf8_loop].
  destruct (utf8_chunk b s) as [ok n] eqn:Hc. pose proof (utf8_chunk_len _ _ _ _ Hc) as Hn.
  destruct (utf8_loop _ _) as [out all]. destruct ok; [|done]. destruct n; [lia|done].
Qed.

(** C35: paging through a directory, by asking again with [after] set to the [next] of
    the page before, with any limit above zero: the pages give entries of the one
    sorted listing, in its order, none twice, and some entry for every name shown.
    When all file names are UTF-8 they give the whole listing.  When some are not,
    two files can be shown under one name, and then an entry can be lost: of [twins],
    asked for one at a time, the second never appears.  (No directory has two files
    of one name, or one with an empty name.) *)
Theorem pages_complete limit files :
  NoDup files.*1 -> Forall (fun f => f.1 <> []) files -> 0 < limit ->
  let entries := decoded files in
  let got := all_pages (S (length entries)) limit [] entries in
  sublist got (sort_named entries) /\ sort_named entries ≡ₚ entries /\ StronglySorted upto (sort_named entries)
  /\ (forall e, e ∈ entries -> e.1 ∈ got.*1)
  /\ (Forall (fun f => utf8_valid f.1 = true) files -> got = sort_named entries)
  /\ length (decoded twins) = 2%nat
  /\ forall requests, length (all_pages (S requests) 1 [] (decoded twins)) = 1%nat.
Proof.
  intros Hnd Hne Hlim entries got. assert (Hall : remaining [] entries = sort_named entries).
  { apply filter_all. rewrite sort_named_perm. unfold entries, decoded. apply Forall_map.
    eapply Forall_impl; [exact Hne|]. intros [n v] H%lossy_nonempty. simpl in *. by destruct (from_utf8_lossy n). }
  destruct (pages_rest (S (length entries)) limit [] entries Hlim) as (H1 & H2 & H3).
  { rewrite Hall, sort_named_perm. lia. }
  rewrite Hall in *. split_and!; [exact H1|apply sort_named_perm|apply sort_named_sorted| | |done|].
  - intros e He. apply H2. by rewrite sort_named_perm.
  - intros Hv. apply H3. rewrite sort_named_perm. unfold entries, decoded.
    replace (map _ files).*1 with files.*1; [done|]. clear -Hv.
    induction Hv as [|f files Hf _ IH]; [done|]. cbn [map fmap list_fmap fst]. by rewrite (from_utf8_lossy_valid _ Hf), <- IH.
  - intros [|requests]; vm_compute; reflexivity.
Qed.

End Pages.

Definition three : list (str * Value (@Number Sample.sample)) := [(lit "b", VNull); (lit "c", VNull); (lit "a", VNull)].

Lemma pages_complete_witness :
  map fst (all_pages (SJ:=Sample.sample) (S (length (decoded three))) 2 [] (decoded three)) = [lit "a"; lit "b"; lit "c"].
Proof.
  destruct (pages_complete (SJ:=Sample.sample) 2 three) as (_ & _ & _ & _ & H & _).
  - apply (bool_decide_unpack (NoDup three.*1)). vm_compute. exact I.
  - repeat constructor; discriminate.
  - lia.
  - rewrite H; [vm_compute; reflexivity|]. repeat constructor.
Defined.
