(* ===== verification/Proxy.v ===== *)
(** * src/proxy.rs

    Reaching a server inside a sandbox: the target, the vetting of the sandbox's
    socket, the head replayed to the backend and the copying that follows.  The
    theorems are in file ProxyFacts. *)

From S2P Require Import Prelude RustStd Json Net Http HttpResponse Kernel Host Paths State Sandboxes Fsutil.

Inductive Backend : Type := Tcp (fd : Z) | Unix (fd : Z).

Definition backend_fd (b : Backend) : Z := match b with Tcp fd | Unix fd => fd end.

(** What src/main.rs makes of a path. *)
Definition path_segments (path : str) : list str := split_char SLASH (trim_matches (eqc SLASH) path).

Definition split_target (segments : list str) : option (Z * str) :=
  match segments with
  | [] => None
  | port :: rest =>
      match parse_uint u16_max port with
      | Some port =>
          if 0 <? port then
            Some (port, match rest with [] => lit "/" | _ => SLASH :: join [SLASH] rest end)
          else None
      | None => None
      end
  end.

(** The credentials of this hop, which are not forwarded. *)
Definition is_credential (name : str) : bool := eqs name (lit "x-sandbox-token") || eqs name (lit "authorization").

Definition forwarded_headers (request : Request) : list (str * str) :=
  List.filter (fun h => negb (is_credential h.1)) (map_to_list (headers request)).

Definition build_head (request : Request) (forward_path : str) : str :=
  let target := match raw_query request with [] => forward_path | q => forward_path ++ "?"%char :: q end in
  method request ++ [SP] ++ target ++ [SP] ++ lit "HTTP/1.1" ++ CRLF
  ++ concat (map (fun h => h.1 ++ lit ": " ++ h.2 ++ CRLF) (forwarded_headers request)) ++ CRLF.

Definition socket_error (message : String.string) : io_error := error_new InvalidInput (lit message).

(** [std::io::copy]: about to read; with a chunk to write; returned. *)
Inductive mover : Type := MRead | MWrite (data : str) | MOver.

(** The next call of [std::io::copy] between a reader [rd] and a writer [wr]: until
    the end of the stream or an error, retrying interrupted reads. *)
Section Copy.
Context {S : Type} (rd : io S str) (wr : str -> io S unit).
Definition copy_call (m : mover) : io S mover :=
  match m with
  | MRead =>
      got <- io_try rd ;;
      io_ret (match got with
              | Err e => if bool_decide (err_kind e = Interrupted) then MRead else MOver
              | Ok [] => MOver
              | Ok data => MWrite data
              end)
  | MWrite data =>
      sent <- io_try (wr data) ;;
      io_ret (match sent with Ok _ => MRead | Err _ => MOver end)
  | MOver => io_ret MOver
  end.
End Copy.

(** [pump]: copying; backend shut for writing; client shut for reading: returned. *)
Inductive pump_pc : Type := PCopy | PShut | PDone.
(** The handler: copying; backend shut; client shut, joining; returned. *)
Inductive handler_pc : Type := HCopy | HShut | HJoin | HDone.

(** Where the two threads of a tunnel are. *)
Record Threads : Type := mkThreads {
  up_at : mover;
  pump_now : pump_pc;
  down_at : mover;
  handler_now : handler_pc;
}.

Section Proxy.
Context {SJ : SerdeJson} {K : Kernel}.

Definition drop_dir (d : option Z) : io Host unit := match d with Some fd => close fd | None => io_ret tt end.

(** The loop of [open_sandbox_socket] over the directories of [PROXY_SUBDIR]. *)
Fixpoint walk_down (root : Z) (d : option Z) (names : list str) : io Host (option Z) :=
  match names with
  | [] => io_ret d
  | name :: rest =>
      next <- io_on_error (open_dir_at (default root d) name) (drop_dir d) ;;
      drop_dir d ;;;
      walk_down root (Some next) rest
  end.

Definition vet_socket (socket uid : Z) : io Host Z :=
  metadata <- file_metadata socket ;;
  if is_symlink metadata then io_fail (socket_error "socket path is a symlink")
  else if negb (Z.land (m_mode metadata) S_IFMT =? S_IFSOCK) then io_fail (socket_error "not a unix socket")
  else if negb (m_uid metadata =? uid) then
    io_fail (error_new PermissionDenied (lit "socket is not owned by this sandbox"))
  else io_ret socket.

Definition open_sandbox_socket (entry : SandboxEntry) (port : Z) : io Host Z :=
  root <- scoped_open (home entry) (uid entry) ;;
  io_finally
    (d <- walk_down (dir_fd root) None (components_of PROXY_SUBDIR) ;;
     match d with
     | None => io_fail (socket_error "empty proxy subdir")
     | Some d =>
         io_finally
           (socket <- open_path_at d (show port ++ lit ".sock") ;;
            io_on_error (vet_socket socket (uid entry)) (close socket))
           (close d)
     end)
    (close (dir root)).

Definition check_peer_uid (stream expected_uid : Z) : io Host unit :=
  cred_uid <- hsys (PeerUid stream) ;;
  if negb (cred_uid =? expected_uid) then
    io_fail (error_new PermissionDenied
      (lit "peer runs as uid " ++ show cred_uid ++ lit ", expected the sandbox's uid " ++ show expected_uid))
  else io_ret tt.

Definition connect_backend (sandbox : option SandboxEntry) (port : Z) : io Host Backend :=
  match sandbox with
  | Some entry =>
      socket <- open_sandbox_socket entry port ;;
      io_finally
        (stream <- hsys (ConnectUnix (proc_fd_path socket)) ;;
         io_on_error (check_peer_uid stream (uid entry) ;;; io_ret (Unix stream)) (close stream))
        (close socket)
  | None => stream <- hsys (ConnectTcp port) ;; io_ret (Tcp stream)
  end.

Definition try_clone (b : Backend) : io Host Z := hsys (DupSocket (backend_fd b)).

(** [write_all] to the backend: nothing is sent for an empty buffer. *)
Definition send_all (fd : Z) (data : str) : io Host unit :=
  if is_empty data then io_ret tt else hsys (SendAll fd data).

Definition COPY_BUF : nat := Z.to_nat 8192.

(** [io::copy] from the client to the backend. *)
Definition copy_to_backend (backend_wr : Z) : mover -> io Ctx mover :=
  copy_call (with_body (on_reader (read COPY_BUF))) (fun data => ctx_host (send_all backend_wr data)).

(** [io::copy] from the backend to the client, whose socket the handler now writes
    itself. *)
Definition copy_to_client (backend_rd : Z) : mover -> io Ctx mover :=
  copy_call (ctx_host (hsys (ReadFd backend_rd COPY_BUF))) (fun data => with_resp (raw data)).

(** [reader.consume(leftover_len)]. *)
Definition consume_buffer : io Reader unit :=
  io_modify (fun r => {| rd_buf := []; rd_events := rd_events r; rd_clock := rd_clock r |}).

Section Splice.
Variables outer_rd outer_wr backend_wr backend_rd : Z.

(** The next call of the thread [pump]. *)
Definition pump_call (t : Threads) : io Ctx Threads :=
  match pump_now t, up_at t with
  | PCopy, MOver =>
      ctx_host (hsys_ (Shutdown backend_wr SHUT_WR)) ;;;
      io_ret (mkThreads MOver PShut (down_at t) (handler_now t))
  | PCopy, m =>
      m <- copy_to_backend backend_wr m ;;
      io_ret (mkThreads m PCopy (down_at t) (handler_now t))
  | PShut, m =>
      ctx_host (hsys_ (Shutdown outer_rd SHUT_RD)) ;;;
      io_ret (mkThreads m PDone (down_at t) (handler_now t))
  | PDone, _ => io_ret t
  end.

(** The next call of the handler's own thread; [pump.join()] waits for the other. *)
Definition handler_call (t : Threads) : io Ctx Threads :=
  match handler_now t, down_at t with
  | HCopy, MOver =>
      ctx_host (hsys_ (Shutdown backend_rd SHUT_RDWR)) ;;;
      io_ret (mkThreads (up_at t) (pump_now t) MOver HShut)
  | HCopy, m =>
      m <- copy_to_client backend_rd m ;;
      io_ret (mkThreads (up_at t) (pump_now t) m HCopy)
  | HShut, m =>
      ctx_host (hsys_ (Shutdown outer_wr SHUT_RDWR)) ;;;
      io_ret (mkThreads (up_at t) (pump_now t) m HJoin)
  | HJoin, m =>
      io_ret (match pump_now t with PDone => mkThreads (up_at t) PDone m HDone | _ => t end)
  | HDone, _ => io_ret t
  end.

(** The two threads run at the same time: their calls return in the order of
    [turns], [true] when it is the pump's. *)
Fixpoint interleave (turns : list bool) (t : Threads) : io Ctx Threads :=
  match turns with
  | [] => io_ret t
  | b :: rest => t <- (if b : bool then pump_call t else handler_call t) ;; interleave rest t
  end.

(** From [thread::spawn] to the end of [handle_proxy], which returns when the pump
    was joined.  After the [turns] the tunnel may still be open; it is followed no
    further ([fuel_error] then leads straight to the closes of [handle_proxy]). *)
Definition splice (turns : list bool) : io Ctx unit :=
  t <- interleave turns (mkThreads MRead PCopy MRead HCopy) ;;
  match handler_now t with HDone => io_ret tt | _ => io_fail fuel_error end.

End Splice.

(** A descriptor of the client's socket, held for [m]. *)
Definition with_client_clone (m : Z -> io Ctx unit) : io Ctx unit :=
  fd <- ctx_host (hsys ClientClone) ;;
  io_finally (m fd) (ctx_host (close fd)).

Definition handle_proxy (turns : list bool) (sandbox : option SandboxEntry) (segments : list str) : io Ctx unit :=
  match split_target segments with
  | None =>
      with_resp (error 404 (lit "proxy target must be /proxy/<port>/<path>, with port in 1-65535"))
  | Some (port, forward_path) =>
      connected <- io_try (ctx_host (connect_backend sandbox port)) ;;
      match connected with
      | Err e =>
          with_resp (error 502 (lit "cannot reach port " ++ show port ++ lit " in sandbox: " ++ err_text e))
      | Ok backend =>
          head <- io_gets (fun c => build_head (request c) forward_path) ;;
          io_finally
            (backend_wr <- ctx_host (try_clone backend) ;;
             io_finally
               (with_client_clone (fun outer_rd =>
                  with_resp hijack ;;;
                  with_client_clone (fun outer_wr =>
                    ctx_host (hsys_ (ClientReadTimeout None)) ;;;
                    ctx_host (hsys_ (ClientWriteTimeout None)) ;;;
                    leftover <- io_gets (fun c => rd_buf (reader c)) ;;
                    ctx_host (send_all backend_wr head) ;;;
                    ctx_host (send_all backend_wr leftover) ;;;
                    with_body (on_reader consume_buffer) ;;;
                    splice outer_rd outer_wr backend_wr (backend_fd backend) turns)))
               (ctx_host (close backend_wr)))
            (ctx_host (close (backend_fd backend)))
      end
  end.

End Proxy.
