(* ===== verification/ProxyFacts.v ===== *)
(** * The port proxy

    What the server makes sure of before it talks to a socket in a sandbox's home,
    and what the backend gets to read. *)

From stdpp Require Import gmultiset.
From S2P Require Import Prelude RustStd StrFacts Json Net Http HttpFacts HttpResponse Kernel Sim Wp Host.
From S2P Require Import Ledger Paths State Samples Sandboxes Fsutil FsutilFacts Files FilesFacts Proxy.

(** ** The socket is vetted *)

Definition DIR_FLAGS : Z := Z.lor (Z.lor O_RDONLY O_DIRECTORY) BASE_FLAGS.
Definition PATH_FLAGS : Z := Z.lor O_PATH BASE_FLAGS.
Definition HOME_FLAGS : Z := Z.lor (Z.lor (Z.lor O_RDONLY O_DIRECTORY) O_CLOEXEC) O_NOFOLLOW.

Section Vetting.
Context {K : Kernel}.

(** The calls of a successful connect, in order. *)
Inductive vetted_calls (entry : SandboxEntry) (port fd : Z) : list event -> Prop :=
| vetted root sbx proxy socket m r1 r2 r3 r4 :
    Z.land (m_mode m) S_IFMT = S_IFSOCK -> m_uid m = uid entry ->
    vetted_calls entry port fd
      [Event (Open (home entry) HOME_FLAGS 0) (Ok root);
       Event (Openat root (lit ".sbx") DIR_FLAGS 0) (Ok sbx);
       Event (Openat sbx (lit "proxy") DIR_FLAGS 0) (Ok proxy);
       Event (Close sbx) r1;
       Event (Openat proxy (show port ++ lit ".sock") PATH_FLAGS 0) (Ok socket);
       Event (Fstat socket) (Ok m);
       Event (Close proxy) r2;
       Event (Close root) r3;
       Event (ConnectUnix (proc_fd_path socket)) (Ok fd);
       Event (PeerUid fd) (Ok (uid entry));
       Event (Close socket) r4].

Definition vetted_run (entry : SandboxEntry) (port : Z) (h : @Host (Traced K))
    (r : result Backend io_error) (h' : @Host (Traced K)) : Prop :=
  forall b, r = Ok b -> exists fd evs, b = Unix fd /\ trace h' = trace h ++ evs /\ vetted_calls entry port fd evs.

Lemma c_path_ok p a : c_path p = Ok a -> a = p.
Proof. unfold c_path. case_match; by intros [= <-]. Qed.

(** Runs to the end of every failing branch. *)
Ltac connect_steps :=
  repeat first
    [ solve [intros ? [=]]
    | lazymatch goal with
      | |- match ?x with _ => _ end => destruct x eqn:?
      | |- wp (vet_socket _ _) _ _ => unfold vet_socket, file_metadata
      | |- wp (check_peer_uid _ _) _ _ => unfold check_peer_uid
      end
    | progress wp_go ].

Lemma connect_vetted entry port h : wp (connect_backend (Some entry) port) h (vetted_run entry port h).
Proof.
  unfold connect_backend, open_sandbox_socket, scoped_open.
  change (components_of PROXY_SUBDIR) with [lit ".sbx"; lit "proxy"].
  unfold walk_down, open_dir_at, open_path_at, open_at, drop_dir, close, dir_fd, default, from_option.
  change (c_path (lit ".sbx")) with (Ok (E := io_error) (lit ".sbx")).
  change (c_path (lit "proxy")) with (Ok (E := io_error) (lit "proxy")).
  connect_steps.
  intros b [= <-].
  repeat match goal with
    | H : c_path _ = Ok _ |- _ => apply c_path_ok in H; subst
    | H : match ?r with Ok _ => _ | Err _ => _ end = Ok _ |- _ => destruct r; [injection H as ->|done]
    | H : negb _ = false |- _ => apply negb_false_iff, Z.eqb_eq in H
    end.
  subst. eexists _, _. split; [reflexivity|]. rewrite !trace_after, <- !app_assoc. split; [reflexivity|].
  cbn [app dir]. by constructor.
Qed.

End Vetting.

(** ** Nothing else is touched *)

Section Confinement.
Context {SJ : SerdeJson} {K : Kernel} {HD : DirNames K} (sbx : SandboxEntry).
Implicit Types D : gmultiset Z.
Abbreviation confined_c := (audit (ledger_step (home sbx)) (@ctx_trace SJ K)).
Abbreviation confined_h := (audit (ledger_step (home sbx)) (@trace K)).

Definition maybe_held (d : option Z) D : gmultiset Z := match d with Some fd => {[+ fd +]} ⊎ D | None => D end.

Lemma drop_dir_surely d D : confined_h (maybe_held d D) (drop_dir d) (surely D).
Proof. destruct d; [apply close_drops|]. by apply audit_ret. Qed.

Lemma drop_under fd d D : confined_h ({[+ fd +]} ⊎ maybe_held d D) (drop_dir d) (surely ({[+ fd +]} ⊎ D)).
Proof. destruct d; [apply close_under|]. by apply audit_ret. Qed.

Lemma walk_down_holds root d names D :
  root ∈ D -> Forall normal_name names ->
  confined_h (maybe_held d D) (walk_down root d names)
    (fun r D' => match r with Ok d' => D' = maybe_held d' D | Err _ => D' = D end).
Proof.
  intros Hr Hn. revert d. induction Hn as [|name names Hname _ IH]; intros d; cbn [walk_down]; [by apply audit_ret|].
  assert (Hd : default root d ∈ maybe_held d D) by (destruct d; simpl; auto with confined).
  eapply audit_bind with (P := fun r D' => match r with
    | Ok fd => D' = {[+ fd +]} ⊎ maybe_held d D | Err _ => D' = D end); [| |done].
  - eapply audit_on_error; [by apply open_at_gives|done|]. intros e D' ->.
    eapply audit_mono; [apply drop_dir_surely|]. by intros r D' [_ ->].
  - intros fd D' ->. eapply audit_bind; [apply drop_under| |by intros e D' [[=] _]].
    intros _ D' [_ ->]. apply (IH (Some fd)).
Qed.

(** Failing, the file's descriptor is closed; succeeding, it is returned. *)
Lemma vet_socket_gives socket uid D :
  confined_h ({[+ socket +]} ⊎ D) (io_on_error (vet_socket socket uid) (close socket)) (gives D).
Proof.
  apply vetted_gives. unfold vet_socket.
  eapply audit_bind; [apply file_metadata_keeps; auto with confined| |by intros e D' ->].
  intros m D' ->. repeat case_match; try (by apply audit_fail).
  apply audit_ret. split; [done|]. by intros got [= <-].
Qed.

(** A number and a suffix name one entry. *)
Lemma socket_name port : 0 <= port -> normal_name (show port ++ lit ".sock").
Proof.
  intros Hp. pose proof (show_digits port Hp) as Hd. pose proof (show_radix_nonempty 10 port) as Hne.
  unfold show in *. destruct (show_radix 10 port) as [|c s]; [done|]. split_and!; try done.
  - intros [= -> _]. apply Forall_inv in Hd. discriminate.
  - intros [= -> _]. apply Forall_inv in Hd. discriminate.
  - intros Hin. apply elem_of_app in Hin as [Hin|Hin].
    + rewrite Forall_forall in Hd. specialize (Hd _ Hin). discriminate.
    + vm_compute in Hin. set_solver.
Qed.

Lemma open_sandbox_socket_gives port D :
  0 <= port -> confined_h D (open_sandbox_socket sbx port) (gives D).
Proof.
  intros Hp. eapply audit_bind; [apply scoped_open_in| |by intros e D' ->]. intros root D' ->.
  eapply audit_finally with (P := fun r D' => match r with
    | Ok fd => D' = {[+ fd +]} ⊎ ({[+ dir root +]} ⊎ D) | Err _ => D' = {[+ dir root +]} ⊎ D end).
  - eapply audit_bind; [apply (walk_down_holds _ None); [apply held_add|apply components_of_normal]| |by intros e D' ->].
    intros [d|] D' ->; [|by apply audit_fail]. simpl.
    eapply audit_finally with (P := gives ({[+ d +]} ⊎ ({[+ dir root +]} ⊎ D))).
    + eapply audit_bind; [apply open_at_gives; [auto with confined|by apply socket_name]| |done].
      intros socket D' ->. apply vet_socket_gives.
    + intros [fd|e] D' ->.
      * eapply audit_mono; [apply close_under|]. by intros r D' [_ ->].
      * eapply audit_mono; [apply close_drops|]. by intros r D' [_ ->].
  - intros [fd|e] D' ->.
    + eapply audit_mono; [apply close_under|]. by intros r D' [_ ->].
    + eapply audit_mono; [apply close_drops|]. by intros r D' [_ ->].
Qed.

Definition connected D (r : result Backend io_error) (D' : gmultiset Z) : Prop :=
  match r with Ok b => D' = {[+ backend_fd b +]} ⊎ D | Err _ => D' = D end.

Lemma connect_backend_gives port D : 0 <= port -> confined_h D (connect_backend (Some sbx) port) (connected D).
Proof.
  intros Hp. eapply audit_bind; [by apply open_sandbox_socket_gives| |by intros e D' ->]. intros socket D' ->.
  eapply audit_finally with (P := connected ({[+ socket +]} ⊎ D)).
  - eapply audit_bind with (P := gives ({[+ socket +]} ⊎ D)); [| |by intros e D' ->].
    + lazymatch goal with |- audit _ _ ?D (hsys ?c) ?Q => apply (audit_call _ D c Q) end.
      intros r w w' _. cbn [ledger_step]. rewrite held_path by auto with confined.
      eexists. split; [reflexivity|]. by destruct r.
    + intros fd D' ->. eapply audit_on_error with (P := fun r D' => D' = {[+ fd +]} ⊎ ({[+ socket +]} ⊎ D)
        /\ forall b, r = Ok b -> b = Unix fd).
      * eapply audit_bind with (P := keeps _); [| |by intros e D' ->].
        { unfold check_peer_uid. eapply audit_bind with (P := keeps _); [| |by intros e D' ->].
          - apply (held_call sbx fd (PeerUid fd)); [auto with confined|done].
          - intros u D' ->. case_match; [by apply audit_fail|by apply audit_ret]. }
        intros _ D' ->. apply audit_ret. split; [done|]. by intros b [= <-].
      * intros b D' [-> Hb]. by rewrite (Hb b eq_refl).
      * intros e D' [-> _]. eapply audit_mono; [apply close_drops|]. by intros r D' [_ ->].
  - intros [b|e] D' ->.
    + eapply audit_mono; [apply close_under|]. by intros r D' [_ ->].
    + eapply audit_mono; [apply close_drops|]. by intros r D' [_ ->].
Qed.

Lemma send_all_keeps fd data D : fd ∈ D -> confined_h D (send_all fd data) (keeps D).
Proof.
  intros Hd. unfold send_all. destruct (is_empty data); [by apply audit_ret|].
  by apply (held_call sbx fd (SendAll fd data)).
Qed.

Lemma read_fd_keeps fd n D : fd ∈ D -> confined_h D (hsys (ReadFd fd n)) (keeps D).
Proof. intros Hd. by apply (held_call sbx fd (ReadFd fd n)). Qed.

Lemma shutdown_keeps fd how D : fd ∈ D -> confined_h D (hsys_ (Shutdown fd how)) (keeps D).
Proof.
  intros Hd. apply audit_call_. intros r. exists D. cbn [ledger_step].
  by rewrite bool_decide_eq_true_2 by done.
Qed.

Hint Resolve ctx_host_audit send_all_keeps read_fd_keeps shutdown_keeps : confined.

Lemma copy_to_backend_keeps fd m D : fd ∈ D -> confined_c D (copy_to_backend fd m) (keeps D).
Proof. intros Hd. destruct m; unfold copy_to_backend, copy_call; keep. Qed.

Lemma copy_to_client_keeps fd m D : fd ∈ D -> confined_c D (copy_to_client fd m) (keeps D).
Proof. intros Hd. destruct m; unfold copy_to_client, copy_call; keep. Qed.

Hint Resolve copy_to_backend_keeps copy_to_client_keeps : confined.

Lemma splice_keeps turns outer_rd outer_wr wr rd D :
  outer_rd ∈ D -> outer_wr ∈ D -> wr ∈ D -> rd ∈ D -> confined_c D (splice outer_rd outer_wr wr rd turns) (keeps D).
Proof.
  intros Ho1 Ho2 Hw Hr. assert (Hall : forall t, confined_c D (interleave outer_rd outer_wr wr rd turns t) (keeps D)).
  { induction turns as [|[] turns IH]; intros t; cbn [interleave]; [by apply audit_ret|unfold pump_call|unfold handler_call];
      (eapply keeps_bind; [repeat case_match; keep|apply IH]). }
  unfold splice. eapply keeps_bind; [apply Hall|]. intros t. destruct (handler_now t); keep.
Qed.
Hint Resolve splice_keeps : confined.

Lemma timeouts_keep ms D :
  confined_h D (hsys_ (ClientReadTimeout ms)) (keeps D) /\ confined_h D (hsys_ (ClientWriteTimeout ms)) (keeps D).
Proof. by split; apply audit_call_; intros r; exists D. Qed.

(** A file held for the duration of [m]. *)
Lemma holding_keeps fd (m : io (@Ctx SJ (Traced K)) unit) D :
  confined_c ({[+ fd +]} ⊎ D) m (keeps ({[+ fd +]} ⊎ D)) ->
  confined_c ({[+ fd +]} ⊎ D) (io_finally m (ctx_host (close fd))) (keeps D).
Proof.
  intros Hm. eapply audit_finally; [apply Hm|]. intros r D' ->. apply ctx_host_audit.
  eapply audit_mono; [apply close_drops|]. by intros _ D' [_ ->].
Qed.

Lemma client_clone_keeps (m : Z -> io (@Ctx SJ (Traced K)) unit) D :
  (forall fd, confined_c ({[+ fd +]} ⊎ D) (m fd) (keeps ({[+ fd +]} ⊎ D))) ->
  confined_c D (with_client_clone m) (keeps D).
Proof.
  intros Hm. eapply audit_bind with (P := gives D); [| |done].
  - apply ctx_host_audit.
    lazymatch goal with |- audit _ _ ?D (hsys ?c) ?Q => apply (audit_call _ D c Q) end.
    intros r w w' _. cbn [ledger_step]. eexists. split; [reflexivity|]. by destruct r.
  - intros fd D' ->. by apply holding_keeps.
Qed.

Lemma split_target_port segs port fp : split_target segs = Some (port, fp) -> 0 < port <= u16_max.
Proof.
  unfold split_target. intros H. repeat case_match; simplify_eq.
  all: match goal with H : parse_uint _ _ = Some _ |- _ => apply parse_uint_range in H end; lia.
Qed.

Lemma handle_proxy_keeps turns segs D : confined_c D (handle_proxy turns (Some sbx) segs) (keeps D).
Proof.
  unfold handle_proxy. destruct (split_target segs) as [[port fp]|] eqn:Hs; [|apply with_resp_keeps].
  apply split_target_port in Hs.
  eapply audit_bind with (P := fun r D' => match r with
    | Ok (Ok b) => D' = {[+ backend_fd b +]} ⊎ D | Ok (Err _) => D' = D | Err _ => False end); [| |done].
  { apply audit_try, ctx_host_audit. eapply audit_mono; [apply connect_backend_gives; lia|]. by intros [b|e] D'. }
  intros [b|e] D' ->; [|apply with_resp_keeps].
  eapply audit_bind with (P := fun r D' => is_ok r = true /\ D' = {[+ backend_fd b +]} ⊎ D);
    [by apply audit_gets| |by intros e D' [[=] _]].
  intros head D' [_ ->]. apply holding_keeps.
  eapply audit_bind with (P := gives _); [| |done].
  - apply ctx_host_audit. unfold try_clone.
    lazymatch goal with |- audit _ _ ?D (hsys ?c) ?Q => apply (audit_call _ D c Q) end.
    intros r w w' _. cbn [ledger_step]. rewrite bool_decide_eq_true_2 by auto with confined.
    eexists. split; [reflexivity|]. by destruct r.
  - intros wr D' ->. apply holding_keeps, client_clone_keeps. intros outer_rd.
    eapply keeps_bind; [apply with_resp_keeps|]. intros _. apply client_clone_keeps. intros outer_wr.
    eapply keeps_bind; [apply ctx_host_audit, timeouts_keep|]. intros _.
    eapply keeps_bind; [apply ctx_host_audit, timeouts_keep|]. intros _. keep.
    apply splice_keeps; eauto 10 with confined.
Qed.

(** C6: the proxy of a sandbox talks to that sandbox only, whatever its processes do
    to the tree meanwhile: all calls name one entry of a directory held since the
    home was opened, without following links, or act on a descriptor held, and all
    are closed at the end; and a connection is made only through a descriptor that
    was walked to as [.sbx/proxy/<port>.sock], reported to be a socket of the
    sandbox's uid after it was pinned, and whose peer runs under that uid. *)
Theorem proxy_vetted :
  (forall turns segs (c : @Ctx SJ (Traced K)), exists evs,
     ctx_trace (handle_proxy turns (Some sbx) segs c).2 = ctx_trace c ++ evs
     /\ ledger (ledger_step (home sbx)) ∅ evs = Some ∅)
  /\ (forall port b h h', connect_backend (Some sbx) port h = (Ok b, h') ->
        exists fd evs, b = Unix fd /\ trace h' = trace h ++ evs /\ vetted_calls sbx port fd evs).
Proof.
  split.
  - intros turns segs c. destruct (handle_proxy_keeps turns segs ∅ c) as (evs & D' & Ht & Hl & ->). by exists evs.
  - intros port b h h' Hr. exact (wp_run _ _ _ _ _ Hr (connect_vetted sbx port h) b eq_refl).
Qed.

End Confinement.

(** ** What the backend reads *)

Lemma forward_path_facts segs port fp :
  split_target segs = Some (port, fp) -> Forall (fun s => Forall (fun c => is_bad_target_byte c = false) s
    /\ ascii_only s /\ "?"%char ∉ s) segs ->
  (exists u, fp = "/"%char :: u) /\ Forall (fun c => is_bad_target_byte c = false) fp /\ ascii_only fp /\ "?"%char ∉ fp.
Proof.
  intros Hs Hf. unfold split_target in Hs. destruct segs as [|p rest]; [done|]. apply Forall_inv_tail in Hf.
  destruct (parse_uint _ p); [|done]. destruct (0 <? z); [|done]. injection Hs as _ <-.
  destruct rest as [|s rest]; [by split_and!; [eexists| | |]; try (by repeat constructor); set_solver|].
  split; [by eexists|].
  assert (Hj : forall P : ascii -> Prop, P SLASH -> Forall (Forall P) (s :: rest) -> Forall P (SLASH :: join [SLASH] (s :: rest))).
  { intros P HP HF. constructor; [done|]. apply Forall_join; [by repeat constructor|done]. }
  split_and!.
  - apply Hj; [done|]. eapply Forall_impl; [exact Hf|]. by intros x (? & _).
  - apply Hj; [done|]. eapply Forall_impl; [exact Hf|]. by intros x (_ & ? & _).
  - apply (Forall_notin (fun c => c <> "?"%char)); [|by intros H; apply H].
    apply Hj; [discriminate|]. eapply Forall_impl; [exact Hf|]. intros x (_ & _ & Hx).
    apply Forall_forall. intros c Hc ->. done.
Qed.

Lemma path_segments_facts q k :
  wf_request q -> Forall (fun s => Forall (fun c => is_bad_target_byte c = false) s
    /\ ascii_only s /\ "?"%char ∉ s) (drop k (path_segments (path q))).
Proof.
  intros [_ _ _ _ _ (_ & Hq & Hb & _ & Ha & _) _]. apply Forall_drop. unfold path_segments.
  assert (Hall : forall P : ascii -> Prop, Forall P (path q) ->
    Forall (Forall P) (split_char SLASH (trim_matches (eqc SLASH) (path q)))).
  { intros P HP. apply (join_Forall _ [SLASH]). rewrite join_split_char. by apply trim_matches_Forall. }
  assert (Hq' : Forall (fun c => c <> "?"%char) (path q)) by (apply Forall_forall; intros c Hc ->; done).
  pose proof (Hall _ Hb) as H1. pose proof (Hall _ Ha) as H2. pose proof (Hall _ Hq') as H3.
  rewrite Forall_forall in *. intros s Hs. split_and!; [by apply H1|by apply H2|].
  intros Hin. specialize (H3 s Hs). rewrite Forall_forall in H3. by apply (H3 _ Hin).
Qed.

(** The headers without the credentials of this hop. *)
Definition uncredentialed (m : gmap str str) : gmap str str :=
  base.delete (lit "authorization") (base.delete (lit "x-sandbox-token") m).

Lemma is_credential_true n : is_credential n = true <-> n = lit "x-sandbox-token" \/ n = lit "authorization".
Proof. unfold is_credential. by rewrite orb_true_iff, !eqs_true. Qed.

Lemma uncredentialed_lookup m n : uncredentialed m !! n = if is_credential n then None else m !! n.
Proof.
  unfold uncredentialed. destruct (is_credential n) eqn:Hn.
  - apply is_credential_true in Hn as [->| ->].
    + rewrite lookup_delete_ne by discriminate. apply lookup_delete_eq.
    + apply lookup_delete_eq.
  - rewrite !lookup_delete_ne; [done| |]; intros <-; discriminate.
Qed.

Lemma forwarded_elem q n v :
  (n, v) ∈ forwarded_headers q <-> headers q !! n = Some v /\ is_credential n = false.
Proof.
  unfold forwarded_headers. rewrite list_elem_of_In, filter_In, <- list_elem_of_In, elem_of_map_to_list.
  by rewrite negb_true_iff.
Qed.

Lemma filter_names_NoDup (p : str * str -> bool) l : NoDup l.*1 -> NoDup (List.filter p l).*1.
Proof.
  induction l as [|x l IH]; cbn [fmap list_fmap List.filter]; [done|]. intros [Hx Hl]%NoDup_cons.
  destruct (p x); [|by apply IH]. cbn [fmap list_fmap]. apply NoDup_cons. split; [|by apply IH].
  intros Hin. apply Hx. apply list_elem_of_fmap in Hin as (y & -> & Hy).
  apply list_elem_of_In, filter_In in Hy as [Hy _]. apply list_elem_of_fmap. exists y. split; [done|].
  by apply list_elem_of_In.
Qed.

Lemma forwarded_map q : list_to_map (forwarded_headers q) = uncredentialed (headers q).
Proof.
  assert (Hnd : NoDup (forwarded_headers q).*1) by apply filter_names_NoDup, NoDup_fst_map_to_list.
  apply map_eq. intros n. rewrite uncredentialed_lookup.
  destruct (list_to_map (forwarded_headers q) !! n) as [v|] eqn:E.
  - apply elem_of_list_to_map in E; [|done]. apply forwarded_elem in E as [E ->]. done.
  - destruct (is_credential n) eqn:Hn; [done|]. destruct (headers q !! n) as [v|] eqn:Hv; [|done].
    assert (Hin : (n, v) ∈ forwarded_headers q) by by apply forwarded_elem.
    apply (elem_of_list_to_map (M := gmap str)) in Hin; [|done]. congruence.
Qed.

Lemma framing_uncredentialed m : framing (uncredentialed m) = framing m.
Proof. unfold framing. by rewrite !uncredentialed_lookup. Qed.

(** C25: the backend reads the client's request and cannot tell its framing
    differently: parsing the head the proxy sends gives the same method, query,
    parameters and body length, the path below the port, and the same headers
    without the two that carry this hop's credential. *)
Theorem proxied_head head q k port fp :
  parse_head head = Ok q -> split_target (drop k (path_segments (path q))) = Some (port, fp) ->
  0 < port <= u16_max
  /\ parse_head (build_head q fp)
     = Ok {| method := method q; path := fp; params := params q; raw_query := raw_query q;
             headers := uncredentialed (headers q); content_length := content_length q; body_consumed := 0;
             keep_alive := keep_alive_of (uncredentialed (headers q)) (lit "HTTP/1.1") |}.
Proof.
  intros Hq Hs. split; [by eapply split_target_port|]. pose proof (accepted_wf _ _ Hq) as Hwf.
  destruct (forward_path_facts _ _ _ Hs (path_segments_facts q k Hwf)) as ([u Hu] & Hgood & Hascii & Hmark).
  apply parse_head_inv in Hq as (_ & l & m & v & _ & _ & _ & _ & _ & Hurl & _).
  set (target := match raw_query q with [] => fp | qq => fp ++ "?"%char :: qq end).
  change (build_head q fp) with (render_head (method q) target (lit "HTTP/1.1") (forwarded_headers q)).
  pose proof Hwf as [[Hm Hup] Hhs Hc _ _ (_ & _ & _ & Hqb & _ & Hqa) _].
  rewrite (parse_render _ _ _ _ (content_length q)).
  - rewrite forwarded_map. unfold target. rewrite parse_url_join by done. cbn [fst snd].
    rewrite (parse_url_params _ _ _ _ Hurl). by rewrite to_ascii_uppercase_id.
  - split.
    + split; [done|]. eapply Forall_impl; [done|]. intros c. by_bytes.
    + unfold target. destruct (raw_query q) as [|c qq] eqn:E; [split_and!; by eauto|].
      rewrite Hu in *. split_and!; [by eexists| |]; apply (Forall_app_2 _ ("/"%char :: u)); done || by constructor.
    + by right.
    + split_and!.
      * apply Forall_forall. intros [n w] Hin. apply forwarded_elem in Hin as [Hin _]. by apply (Hhs n w).
      * apply filter_names_NoDup, NoDup_fst_map_to_list.
      * unfold forwarded_headers.
        pose proof (List.filter_length_le (fun h : str * str => negb (is_credential h.1)) (map_to_list (headers q))) as Hle.
        rewrite length_map_to_list in Hle. lia.
  - rewrite forwarded_map, framing_uncredentialed. by apply framing_wf.
Qed.

(** A sandbox at [/h] that listens on port 8000. *)
Definition listening : SimWorld :=
  mkSim 1000 {[ ROOT := NDir 0 493 [(lit "h", 2)]; 2 := NDir 20000 448 [(lit ".sbx", 3)];
                3 := NDir 20000 448 [(lit "proxy", 4)]; 4 := NDir 20000 448 [(lit "8000.sock", 5)];
                5 := NSock 20000 ]} ∅ 10 ∅ 6.

Lemma proxy_vetted_witness :
  exists h', connect_backend (Some a_sandbox) 8000 (traced_host listening) = (Ok (Unix 14), h')
    /\ exists fd evs, Unix 14 = Unix fd /\ trace h' = trace (traced_host listening) ++ evs
      /\ vetted_calls a_sandbox 8000 fd evs.
Proof.
  assert (Hr : (connect_backend (Some a_sandbox) 8000 (traced_host listening)).1 = Ok (Unix 14)) by (vm_compute; reflexivity).
  apply io_run in Hr. eexists. split; [exact Hr|].
  exact (proj2 (proxy_vetted (SJ:=Sample.sample) (K:=sim) a_sandbox) 8000 _ _ _ Hr).
Defined.

Definition proxied_sample : str :=
  lit "GET /v1/sandboxes/a/proxy/8000/ws?x=1 HTTP/1.1" ++ CRLF ++ lit "X-Sandbox-Token: t" ++ CRLF
  ++ lit "Upgrade: websocket" ++ CRLF ++ CRLF.
Definition proxied_request : Request :=
  match parse_head proxied_sample with Ok r => r | Err _ => mkRequest [] [] ∅ [] ∅ 0 0 false end.

Lemma proxied_head_witness :
  (fun q => (path q, map_to_list (headers q))) <$> (match parse_head (build_head proxied_request (lit "/ws")) with
    | Ok q => Some q | Err _ => None end)
  = Some (lit "/ws", [(lit "upgrade", lit "websocket")]).
Proof.
  assert (H1 : parse_head proxied_sample = Ok proxied_request) by (vm_compute; reflexivity).
  assert (H2 : split_target (drop 4 (path_segments (path proxied_request))) = Some (8000, lit "/ws"))
    by (vm_compute; reflexivity).
  rewrite (proj2 (proxied_head proxied_sample proxied_request 4 8000 (lit "/ws") H1 H2)).
  vm_compute. reflexivity.
Defined.
