(* ===== verification/Tunnel.v ===== *)
(** * src/proxy.rs: the two threads of a tunnel

    Once a request is proxied, the thread [pump] copies client to backend and the
    handler copies backend to client.  A lane is one direction: what its sender has
    sent, what is unread, the copy between a read and a write, what was delivered.
    The threads shut each other's sockets down when they end; the peers act when
    they like. *)

From S2P Require Import Prelude RustStd Proxy.

(** ** One direction *)

Record lane : Type := mkLane {
  (** All the sender has sent, and its part that was not read. *)
  sent : str;
  unread : str;
  (** The sender has closed its side. *)
  ended : bool;
  (** The socket read, and the one written, were shut down here. *)
  rd_shut : bool;
  wr_shut : bool;
  at_ : mover;
  taken : str;
  delivered : str;
  (** A read or a write has failed. *)
  faulty : bool;
}.

Definition lane_start (before : str) : lane := mkLane [] [] false false false MRead [] before false.

Definition shut (rd wr : bool) (l : lane) : lane :=
  mkLane (sent l) (unread l) (ended l) (rd_shut l || rd) (wr_shut l || wr) (at_ l) (taken l) (delivered l) (faulty l).

(** Who acts: the two peers, or the copying thread. *)
Inductive lane_step : bool -> lane -> lane -> Prop :=
| lane_send l data : ended l = false ->
    lane_step false l (mkLane (sent l ++ data) (unread l ++ data) (ended l) (rd_shut l) (wr_shut l)
                         (at_ l) (taken l) (delivered l) (faulty l))
| lane_end l :
    lane_step false l (mkLane (sent l) (unread l) true (rd_shut l) (wr_shut l)
                         (at_ l) (taken l) (delivered l) (faulty l))
| lane_read l data rest : at_ l = MRead -> data <> [] -> unread l = data ++ rest ->
    lane_step true l (mkLane (sent l) rest (ended l) (rd_shut l) (wr_shut l)
                        (MWrite data) (taken l ++ data) (delivered l) (faulty l))
(* a read gives nothing at the end of the stream, and never blocks on a socket that
   was shut down *)
| lane_eof l : at_ l = MRead -> unread l = [] -> ended l || rd_shut l = true ->
    lane_step true l (mkLane (sent l) (unread l) (ended l) (rd_shut l) (wr_shut l)
                        MOver (taken l) (delivered l) (faulty l))
(* only a read that blocks is interrupted *)
| lane_interrupted l : at_ l = MRead -> unread l = [] -> ended l || rd_shut l = false -> lane_step true l l
| lane_read_fails l : at_ l = MRead ->
    lane_step true l (mkLane (sent l) (unread l) (ended l) (rd_shut l) (wr_shut l)
                        MOver (taken l) (delivered l) true)
| lane_write l data : at_ l = MWrite data -> wr_shut l = false ->
    lane_step true l (mkLane (sent l) (unread l) (ended l) (rd_shut l) (wr_shut l)
                        MRead (taken l) (delivered l ++ data) (faulty l))
(* [write_all] fails after some of it; it cannot succeed on a socket that was shut down *)
| lane_write_fails l data k : at_ l = MWrite data ->
    lane_step true l (mkLane (sent l) (unread l) (ended l) (rd_shut l) (wr_shut l)
                        MOver (taken l) (delivered l ++ take k data) true).

(** ** Both directions *)

Record tunnel : Type := mkTunnel { up : lane; down : lane; pump_at : pump_pc; handler_at : handler_pc }.

(** [head] was replayed to the backend, with what had been prefetched after it. *)
Definition tunnel_start (head : str) : tunnel := mkTunnel (lane_start head) (lane_start []) PCopy HCopy.

Inductive tunnel_step : bool -> tunnel -> tunnel -> Prop :=
| ts_up b t l : lane_step b (up t) l -> tunnel_step b t (mkTunnel l (down t) (pump_at t) (handler_at t))
| ts_down b t l : lane_step b (down t) l -> tunnel_step b t (mkTunnel (up t) l (pump_at t) (handler_at t))
(* [backend_wr.shutdown(Write)], then [outer_rd.shutdown(Read)] *)
| ts_pump_backend t : at_ (up t) = MOver -> pump_at t = PCopy ->
    tunnel_step true t (mkTunnel (shut false true (up t)) (down t) PShut (handler_at t))
| ts_pump_client t : pump_at t = PShut ->
    tunnel_step true t (mkTunnel (shut true false (up t)) (down t) PDone (handler_at t))
(* [backend_rd.shutdown(Both)], then [outer_wr.shutdown(Both)], then [pump.join()] *)
| ts_handler_backend t : at_ (down t) = MOver -> handler_at t = HCopy ->
    tunnel_step true t (mkTunnel (shut false true (up t)) (shut true false (down t)) (pump_at t) HShut)
| ts_handler_client t : handler_at t = HShut ->
    tunnel_step true t (mkTunnel (shut true false (up t)) (shut false true (down t)) (pump_at t) HJoin)
| ts_join t : handler_at t = HJoin -> pump_at t = PDone ->
    tunnel_step true t (mkTunnel (up t) (down t) (pump_at t) HDone).

(** Runs, with the number of steps the two threads made. *)
Inductive runs : nat -> tunnel -> tunnel -> Prop :=
| runs_refl t : runs 0 t t
| runs_step (b : bool) n t t1 t2 : tunnel_step b t t1 -> runs n t1 t2 -> runs ((if b then 1 else 0) + n) t t2.

(** ** What is delivered *)

(** [before] was delivered first; what follows is a prefix of what was taken, all of
    it but the chunk in hand unless a write failed. *)
Record lane_ok (before : str) (l : lane) : Prop := {
  lane_conserves : sent l = taken l ++ unread l;
  lane_delivers :
    match at_ l with
    | MRead => delivered l = before ++ taken l
    | MWrite data => exists written, taken l = written ++ data /\ delivered l = before ++ written
    | MOver => exists written, delivered l = before ++ written /\ written `prefix_of` taken l
                 /\ (faulty l = false -> written = taken l)
    end;
}.

(** The copy has returned without a failure only at the sender's end. *)
Definition lane_clean (l : lane) : Prop := at_ l = MOver -> faulty l = false -> ended l = true /\ unread l = [].

Lemma lane_ok_start before : lane_ok before (lane_start before).
Proof. split; simpl; [done|by rewrite app_nil_r]. Qed.

Lemma lane_ok_step before b l l' : lane_step b l l' -> lane_ok before l -> lane_ok before l'.
Proof.
  intros Hs [Hc Hd]. destruct Hs as [l data Hf|l|l data rest Ha Hne Hu|l Ha Hu Hf|l Ha Hu Hf|l Ha|l data Ha Hw|l data k Ha];
    try rewrite Ha in Hd; split; simpl; try done.
  - by rewrite Hc, app_assoc.
  - by rewrite Hc, Hu, app_assoc.
  - by exists (taken l).
  - by exists (taken l).
  - by rewrite Ha.
  - by exists (taken l).
  - destruct Hd as (written & Ht & Hd). by rewrite Hd, Ht, app_assoc.
  - destruct Hd as (written & Ht & Hd). exists (written ++ take k data). rewrite Hd, Ht. split_and!; [by rewrite app_assoc| |done].
    exists (drop k data). by rewrite <- app_assoc, take_drop.
Qed.

Lemma lane_ok_shut before rd wr l : lane_ok before l -> lane_ok before (shut rd wr l).
Proof. by intros []. Qed.

Lemma lane_clean_step b l l' :
  lane_step b l l' -> (rd_shut l = true -> at_ l = MOver) -> lane_clean l -> lane_clean l'.
Proof.
  intros Hs Hr Hc. destruct Hs as [l data Hf|l|l data rest Ha Hne Hu|l Ha Hu Hf|l Ha Hu Hf|l Ha|l data Ha Hw|l data k Ha];
    intros Ho Hg; simpl in *; try done.
  - destruct (Hc Ho Hg). congruence.
  - split; [done|]. by apply Hc.
  - split; [|done]. apply orb_prop in Hf as [?|?]; [done|]. by rewrite Hr in Ha.
  - by apply Hc.
Qed.

Lemma lane_prefix before l : lane_ok before l -> exists got, delivered l = before ++ got /\ got `prefix_of` sent l.
Proof.
  intros [Hc Hd]. assert (Ht : taken l `prefix_of` sent l) by (rewrite Hc; apply prefix_app_r; done).
  destruct (at_ l) as [|data|].
  - by exists (taken l).
  - destruct Hd as (written & Hw & Hd). exists written. split; [done|]. etrans; [|exact Ht]. rewrite Hw. by apply prefix_app_r.
  - destruct Hd as (written & Hd & Hw & _). exists written. split; [done|]. by etrans.
Qed.

(** Who has shut what: the handler both sockets, the pump its two halves. *)
Definition pump_past (p : pump_pc) : bool := match p with PCopy => false | _ => true end.
Definition pump_done (p : pump_pc) : bool := match p with PDone => true | _ => false end.
Definition handler_past (h : handler_pc) : bool := match h with HCopy => false | _ => true end.
Definition handler_joins (h : handler_pc) : bool := match h with HJoin | HDone => true | _ => false end.

Record tunnel_ok (head : str) (t : tunnel) : Prop := {
  up_ok : lane_ok head (up t);
  down_ok : lane_ok [] (down t);
  pump_over : pump_past (pump_at t) = true -> at_ (up t) = MOver;
  handler_over : handler_past (handler_at t) = true -> at_ (down t) = MOver;
  up_rd : rd_shut (up t) = pump_done (pump_at t) || handler_joins (handler_at t);
  up_wr : wr_shut (up t) = pump_past (pump_at t) || handler_past (handler_at t);
  down_rd : rd_shut (down t) = handler_past (handler_at t);
  down_wr : wr_shut (down t) = handler_joins (handler_at t);
  up_clean : handler_joins (handler_at t) = false -> lane_clean (up t);
  down_clean : lane_clean (down t);
}.

Lemma tunnel_ok_start head : tunnel_ok head (tunnel_start head).
Proof. split; simpl; try apply lane_ok_start; done. Qed.

(** A copying thread that has returned does not move, and never shuts anything. *)
Lemma lane_step_flags b l l' : lane_step b l l' ->
  rd_shut l' = rd_shut l /\ wr_shut l' = wr_shut l /\ (at_ l = MOver -> at_ l' = MOver).
Proof. destruct 1; simpl; split_and!; try done; congruence. Qed.

Lemma tunnel_ok_step head b t t' : tunnel_step b t t' -> tunnel_ok head t -> tunnel_ok head t'.
Proof.
  intros Hs [Hu Hd Hp Hh H1 H2 H3 H4 Hcu Hcd].
  destruct Hs as [b t l Hl|b t l Hl|t Ha Hpc|t Hpc|t Ha Hpc|t Hpc|t Hpc Hq].
  1,2: pose proof (lane_step_flags _ _ _ Hl) as (Hr & Hw & Ho); split; simpl; rewrite ?Hr, ?Hw; auto;
    try by eapply lane_ok_step.
  - intros Hj. eapply lane_clean_step; [exact Hl| |auto]. rewrite H1, Hj, orb_false_r. intros Hpd. apply Hp.
    by destruct (pump_at t).
  - eapply lane_clean_step; [exact Hl| |done]. rewrite H3. auto.
  - rewrite Hpc in *; split; simpl; try apply lane_ok_shut; rewrite ?H1, ?H2, ?H3, ?H4, ?Hpc; auto.
    all: by destruct (handler_at t).
  - rewrite Hpc in *; split; simpl; try apply lane_ok_shut; rewrite ?H1, ?H2, ?H3, ?H4, ?Hpc; auto.
    all: by destruct (handler_at t).
  - rewrite Hpc in *; split; simpl; try apply lane_ok_shut; rewrite ?H1, ?H2, ?H3, ?H4, ?Hpc; auto.
    all: by destruct (pump_at t).
  - rewrite Hpc in *; split; simpl; try apply lane_ok_shut; rewrite ?H1, ?H2, ?H3, ?H4, ?Hpc; auto; try done.
    all: by destruct (pump_at t).
  - rewrite Hpc, Hq in *; split; simpl; rewrite ?H1, ?H2, ?H3, ?H4, ?Hpc, ?Hq; auto; done.
Qed.

Lemma tunnel_ok_runs head n t t' : runs n t t' -> tunnel_ok head t -> tunnel_ok head t'.
Proof. induction 1; eauto using tunnel_ok_step. Qed.

(** C14: a tunnel delivers what it is given: under every interleaving of the two
    threads and the peers, the backend gets the replayed head and then a prefix of
    what the client sent, the client a prefix of what the backend sent.  When no
    call has failed, an end is only passed on after everything: the backend sees
    the client's end (while the handler still copies) with every byte the client
    sent before it, and the handler ends the connection with every byte of the
    backend delivered. *)
Theorem tunnel_faithful head n t :
  runs n (tunnel_start head) t ->
  (exists got, delivered (up t) = head ++ got /\ got `prefix_of` sent (up t))
  /\ delivered (down t) `prefix_of` sent (down t)
  /\ (handler_at t = HCopy -> wr_shut (up t) = true -> faulty (up t) = false ->
       ended (up t) = true /\ delivered (up t) = head ++ sent (up t))
  /\ (wr_shut (down t) = true -> faulty (down t) = false ->
       ended (down t) = true /\ delivered (down t) = sent (down t)).
Proof.
  intros Hruns. apply (tunnel_ok_runs head) in Hruns as [[Hcu Hdu] [Hcd Hdd] Hp Hh H1 H2 H3 H4 Hlu Hld]; [|apply tunnel_ok_start].
  split_and!.
  - eapply lane_prefix; eauto using Build_lane_ok.
  - destruct (lane_prefix [] (down t)) as (got & -> & Hg); eauto using Build_lane_ok.
  - intros Hc Hw Hf. rewrite Hc in *. rewrite Hw, orb_false_r in H2.
    specialize (Hp (eq_sym H2)). destruct (Hlu eq_refl Hp Hf) as [He Hn]. split; [done|].
    rewrite Hp in Hdu. destruct Hdu as (written & -> & _ & Ht). by rewrite Hcu, Hn, app_nil_r, Ht.
  - intros Hw Hf. rewrite Hw in H4. assert (Ho : at_ (down t) = MOver) by (apply Hh; by destruct (handler_at t)).
    destruct (Hld Ho Hf) as [He Hn]. split; [done|].
    rewrite Ho in Hdd. destruct Hdd as (written & -> & _ & Ht). by rewrite Hcd, Hn, app_nil_r, Ht.
Qed.

(** ** The end of a tunnel *)

(** Bounds the steps the threads have left once both sockets are shut down. *)
Definition work (t : tunnel) : nat :=
  match at_ (up t) with MRead => 2 | MWrite _ => 1 | MOver => 0 end
  + match pump_at t with PCopy => 2 | PShut => 1 | PDone => 0 end
  + match handler_at t with HDone => 0 | _ => 1 end.

Lemma lane_step_peer l l' : lane_step false l l' -> at_ l' = at_ l.
Proof. by inversion 1. Qed.

Lemma work_step head b t t' :
  tunnel_step b t t' -> tunnel_ok head t -> handler_joins (handler_at t) = true ->
  handler_joins (handler_at t') = true /\ ((if b then 1 else 0) + work t' <= work t)%nat.
Proof.
  intros Hs Hok Hj. pose proof (up_rd _ _ Hok) as Hr. pose proof (up_wr _ _ Hok) as Hw.
  assert (Hd : at_ (down t) = MOver) by (apply (handler_over _ _ Hok); by destruct (handler_at t)).
  rewrite Hj, orb_true_r in Hr. assert (Hw' : wr_shut (up t) = true).
  { rewrite Hw. destruct (handler_at t); simpl in *; try done; by rewrite orb_true_r. }
  unfold work. destruct Hs as [b t l Hl|b t l Hl|t Ha Hpc|t Hpc|t Ha Hpc|t Hpc|t Hpc Hq]; simpl in *.
  - split; [done|]. destruct Hl; simpl in *; rewrite ?H, ?Hr, ?orb_true_r in *; try done; try congruence; lia.
  - split; [done|]. destruct b; [|lia]. exfalso. inversion Hl; congruence.
  - rewrite Ha, Hpc. split; [done|]. lia.
  - rewrite Hpc. split; [done|]. lia.
  - by rewrite Hpc in Hj.
  - by rewrite Hpc in Hj.
  - rewrite Hpc. split; [done|]. lia.
Qed.

Lemma work_enabled head t :
  tunnel_ok head t -> handler_joins (handler_at t) = true -> handler_at t = HDone \/ exists t', tunnel_step true t t'.
Proof.
  intros Hok Hj. pose proof (up_rd _ _ Hok) as Hr. rewrite Hj, orb_true_r in Hr.
  destruct (handler_at t) eqn:Hh; try done; [right|by left]. destruct (at_ (up t)) as [|data|] eqn:Ha.
  - destruct (unread (up t)) as [|c rest] eqn:Hu.
    + eexists. apply ts_up, lane_eof; [done|done|]. by rewrite Hr, orb_true_r.
    + eexists. eapply ts_up, (lane_read _ [c] rest); [done|done|by rewrite Hu].
  - eexists. by eapply ts_up, (lane_write_fails _ data 0%nat).
  - destruct (pump_at t) eqn:Hp; eexists; [by apply ts_pump_backend|by apply ts_pump_client|by apply ts_join].
Qed.

(** C17: a tunnel does not outlive its backend: once the handler has shut both sockets
    down, whatever the pump was doing and whatever the peers still do, the two
    threads make at most five more steps, and as long as the handler has not
    returned one of them can move; so the [join] returns and the connection's slot
    is given back. *)
Theorem tunnel_ends head n t k t' :
  runs n (tunnel_start head) t -> handler_at t = HJoin -> runs k t t' ->
  (k <= 5)%nat /\ (handler_at t' = HDone \/ exists t'', tunnel_step true t' t'').
Proof.
  intros Hn Hj Hk. assert (Hok : tunnel_ok head t) by (eapply tunnel_ok_runs; [exact Hn|apply tunnel_ok_start]).
  assert (H : forall k t t', runs k t t' -> tunnel_ok head t -> handler_joins (handler_at t) = true ->
    handler_joins (handler_at t') = true /\ (k + work t' <= work t)%nat).
  { clear. induction 1 as [t|b n t t1 t2 Hs _ IH]; intros Hok Hj; [split; [done|lia]|].
    destruct (work_step head b t t1 Hs Hok Hj) as [Hj1 Hw].
    destruct (IH (tunnel_ok_step _ _ _ _ Hs Hok) Hj1) as [Hj2 Hw2]. split; [done|]. lia. }
  destruct (H k t t' Hk Hok) as [Hj' Hw]; [by rewrite Hj|]. split.
  - revert Hw. unfold work. rewrite Hj. destruct (at_ (up t)), (pump_at t); lia.
  - apply (work_enabled head); [by eapply tunnel_ok_runs|done].
Qed.

(** ** A tunnel: the client sends [x] and closes, the backend answers nothing and
    closes. *)

Definition after_client : tunnel :=
  mkTunnel (mkLane (lit "x") [] true false true MOver (lit "x") (lit "HEADx") false) (lane_start []) PShut HCopy.
Definition after_backend : tunnel :=
  mkTunnel (mkLane [] [] false true true MRead [] (lit "HEAD") false)
    (mkLane [] [] true true true MOver [] [] false) PCopy HJoin.

Lemma client_closes : exists n, runs n (tunnel_start (lit "HEAD")) after_client.
Proof.
  eexists. eapply (runs_step false); [by apply ts_up, (lane_send _ (lit "x"))|simpl].
  eapply (runs_step false); [by apply ts_up, lane_end|simpl].
  eapply (runs_step true); [by apply ts_up, (lane_read _ (lit "x") [])|simpl].
  eapply (runs_step true); [by eapply ts_up, lane_write|simpl].
  eapply (runs_step true); [by apply ts_up, lane_eof|simpl].
  eapply (runs_step true); [by apply ts_pump_backend|]. apply runs_refl.
Qed.

Lemma backend_closes : exists n, runs n (tunnel_start (lit "HEAD")) after_backend.
Proof.
  eexists. eapply (runs_step false); [by apply ts_down, lane_end|].
  eapply (runs_step true); [by apply ts_down, lane_eof|].
  eapply (runs_step true); [by apply ts_handler_backend|].
  eapply (runs_step true); [by apply ts_handler_client|]. apply runs_refl.
Qed.

Lemma tunnel_faithful_witness :
  ended (up after_client) = true /\ delivered (up after_client) = lit "HEAD" ++ sent (up after_client).
Proof.
  destruct client_closes as [n Hn].
  destruct (tunnel_faithful (lit "HEAD") n after_client Hn) as (_ & _ & H & _).
  exact (H eq_refl eq_refl eq_refl).
Defined.

Lemma tunnel_ends_witness : handler_at after_backend = HDone \/ exists t'', tunnel_step true after_backend t''.
Proof.
  destruct backend_closes as [n Hn].
  exact (proj2 (tunnel_ends (lit "HEAD") n after_backend 0 after_backend Hn eq_refl (runs_refl _))).
Defined.
