(* ===== verification/TunnelCode.v ===== *)
(** * src/proxy.rs: the code behind the tunnel

    File Tunnel states the two copying threads as steps.  Here the code of file Proxy
    is shown to take them: whatever the order in which the calls of the two threads
    return, [splice] is a run of the tunnel whose lanes carry exactly the bytes of
    the system calls made; and once both sockets are shut down it ends. *)

From S2P Require Import Prelude RustStd StrFacts Json Net Http HttpResponse Kernel Sim Wp Host State Samples.
From S2P Require Import Fsutil Files FilesFacts Proxy Tunnel.

(** ** One lane *)

Definition lane_runs : lane -> lane -> Prop := rtc (fun l l' => exists b, lane_step b l l').

(** A lane whose copy is at [m], with all that was taken and delivered; until the
    copy is over, its sender has sent no more than that. *)
Record on_lane (m : mover) (got gave : str) (l : lane) : Prop := {
  on_at : at_ l = m;
  on_taken : taken l = got;
  on_delivered : delivered l = gave;
  on_open : m <> MOver -> unread l = [] /\ ended l = false;
}.

(** [l'] follows [l], failing only if [fault], and ending only if [eof]. *)
Definition moves (fault eof : Prop) (l l' : lane) : Prop :=
  lane_runs l l' /\ rd_shut l' = rd_shut l /\ wr_shut l' = wr_shut l
  /\ (faulty l' = true -> faulty l = true \/ fault) /\ (ended l' = true -> ended l = true \/ eof).

Lemma lane_runs_step b l1 l2 l3 : lane_step b l1 l2 -> lane_runs l2 l3 -> lane_runs l1 l3.
Proof. intros H. eapply rtc_l. eauto. Qed.
Lemma lane_runs_once b l1 l2 : lane_step b l1 l2 -> lane_runs l1 l2.
Proof. intros H. eapply lane_runs_step; [exact H|apply rtc_refl]. Qed.

(** Its sender sends [data], which is read. *)
Lemma lane_takes data got gave l : on_lane MRead got gave l -> data <> [] ->
  exists l', moves False False l l' /\ on_lane (MWrite data) (got ++ data) gave l'.
Proof.
  intros [Ha <- <- Ho] Hne. destruct Ho as [Hu He]; [done|]. eexists. split; [split_and!|split].
  - eapply lane_runs_step; [by apply (lane_send _ data)|].
    eapply lane_runs_once, (lane_read _ data []); [done|done|]. simpl. by rewrite Hu, app_nil_r.
  - done.
  - done.
  - auto.
  - auto.
  - done.
  - done.
  - done.
  - done.
Qed.

(** Its sender closes its side, which ends the copy. *)
Lemma lane_ends got gave l (eof : Prop) : on_lane MRead got gave l -> eof ->
  exists l', moves False eof l l' /\ on_lane MOver got gave l'.
Proof.
  intros [Ha <- <- Ho] Heof. destruct Ho as [Hu He]; [done|]. eexists. split; [split_and!|split].
  - eapply lane_runs_step; [by apply lane_end|]. eapply lane_runs_once, lane_eof; simpl; auto.
  - done.
  - done.
  - auto.
  - auto.
  - done.
  - done.
  - done.
  - done.
Qed.

Lemma lane_breaks got gave l (fault : Prop) : on_lane MRead got gave l -> fault ->
  exists l', moves fault False l l' /\ on_lane MOver got gave l'.
Proof.
  intros [Ha <- <- Ho] Hf. eexists. split; [split_and!|].
  - by eapply lane_runs_once, lane_read_fails.
  - done.
  - done.
  - auto.
  - auto.
  - split; auto; done.
Qed.

Lemma lane_gives data got gave l : on_lane (MWrite data) got gave l -> wr_shut l = false ->
  exists l', moves False False l l' /\ on_lane MRead got (gave ++ data) l'.
Proof.
  intros [Ha <- <- Ho] Hw. destruct Ho as [Hu He]; [done|]. eexists. split; [split_and!|].
  - by eapply lane_runs_once, lane_write.
  - done.
  - done.
  - auto.
  - auto.
  - split; auto; done.
Qed.

Lemma lane_drops k data got gave l (fault : Prop) : on_lane (MWrite data) got gave l -> fault ->
  exists l', moves fault False l l' /\ on_lane MOver got (gave ++ take k data) l'.
Proof.
  intros [Ha <- <- Ho] Hf. eexists. split; [split_and!|].
  - by eapply lane_runs_once, (lane_write_fails _ data k).
  - done.
  - done.
  - auto.
  - auto.
  - split; auto; done.
Qed.

Lemma on_lane_shut m got gave rd wr l : on_lane m got gave l -> on_lane m got gave (shut rd wr l).
Proof. by intros []. Qed.

(** ** Runs of a tunnel *)

Definition runs_to (t t' : tunnel) : Prop := exists n, runs n t t'.

Lemma runs_to_trans t1 t2 t3 : runs_to t1 t2 -> runs_to t2 t3 -> runs_to t1 t3.
Proof.
  intros [n Hn] [m Hm]. induction Hn as [|b n t t1 t2 Hs Hr IH]; [by exists m|]. destruct (IH Hm) as [k Hk].
  eexists. by eapply runs_step.
Qed.
Lemma runs_to_step b t t' : tunnel_step b t t' -> runs_to t t'.
Proof. intros Hs. eexists. eapply runs_step; [exact Hs|apply runs_refl]. Qed.

Lemma runs_up t l : lane_runs (up t) l -> runs_to t (mkTunnel l (down t) (pump_at t) (handler_at t)).
Proof.
  intros Hr. remember (up t) as l0 eqn:E. revert t E. induction Hr as [l|l l1 l2 [b Hs] _ IH]; intros t ->.
  - exists 0%nat. destruct t. apply runs_refl.
  - eapply runs_to_trans; [eapply runs_to_step; by apply ts_up|].
    exact (IH (mkTunnel l1 (down t) (pump_at t) (handler_at t)) eq_refl).
Qed.
Lemma runs_down t l : lane_runs (down t) l -> runs_to t (mkTunnel (up t) l (pump_at t) (handler_at t)).
Proof.
  intros Hr. remember (down t) as l0 eqn:E. revert t E. induction Hr as [l|l l1 l2 [b Hs] _ IH]; intros t ->.
  - exists 0%nat. destruct t. apply runs_refl.
  - eapply runs_to_trans; [eapply runs_to_step; by apply ts_down|].
    exact (IH (mkTunnel (up t) l1 (pump_at t) (handler_at t)) eq_refl).
Qed.

(** [l] is the calls [l1] and [l2] in some order that keeps both. *)
Inductive interleaved {A} : list A -> list A -> list A -> Prop :=
| interleaved_nil : interleaved [] [] []
| interleaved_left x l1 l2 l : interleaved l1 l2 l -> interleaved (l1 ++ [x]) l2 (l ++ [x])
| interleaved_right x l1 l2 l : interleaved l1 l2 l -> interleaved l1 (l2 ++ [x]) (l ++ [x]).

(** ** The calls of a tunnel *)

(** The chunks handed to the backend's socket, those of them it accepted, and those
    read from it. *)
Definition handed (evs : list event) : list str :=
  omap (fun e => match e with Event (SendAll _ data) _ => Some data | _ => None end) evs.
Definition accepted (evs : list event) : list str :=
  omap (fun e => match e with Event (SendAll _ data) (Ok _) => Some data | _ => None end) evs.
Definition chunks (evs : list event) : list str :=
  omap (fun e => match e with Event (ReadFd _ _) (Ok (b :: data)) => Some (b :: data) | _ => None end) evs.

(** What a copy has read and not yet written. *)
Definition in_hand (m : mover) : str := match m with MWrite data => data | _ => [] end.
Definition holds_chunk (m : mover) : nat := match m with MWrite _ => 1 | _ => 0 end.

Definition turns_of (who : bool) (turns : list bool) : nat := length (List.filter (Bool.eqb who) turns).

Lemma turns_of_snoc who turns b : turns_of who (turns ++ [b]) = (turns_of who turns + if Bool.eqb who b then 1 else 0)%nat.
Proof. unfold turns_of. rewrite List.filter_app, length_app. simpl. by destruct (Bool.eqb who b). Qed.

Section Code.
Context {SJ : SerdeJson} {K : Kernel}.
Variables outer_rd outer_wr wr rd : Z.
Variable head : str.
Variable c0 : @Ctx SJ (Traced K).
Implicit Types c : @Ctx SJ (Traced K).

Abbreviation pump_turn := (pump_call outer_rd wr).
Abbreviation handler_turn := (handler_call outer_wr rd).
Abbreviation take_turns := (interleave outer_rd outer_wr wr rd).

(** The calls of the pump, which has handed on [data], and those of the handler,
    which has read [reads] times. *)
Definition pump_did (p : pump_pc) (data : list str) : list call :=
  map (SendAll wr) data ++ match p with
    | PCopy => []
    | PShut => [Shutdown wr SHUT_WR]
    | PDone => [Shutdown wr SHUT_WR; Shutdown outer_rd SHUT_RD]
    end.
Definition handler_did (h : handler_pc) (reads : nat) : list call :=
  replicate reads (ReadFd rd COPY_BUF) ++ match h with
    | HCopy => []
    | HShut => [Shutdown rd SHUT_RDWR]
    | HJoin | HDone => [Shutdown rd SHUT_RDWR; Shutdown outer_wr SHUT_RDWR]
    end.

(** shutdown(2): no write to the backend's socket succeeds once both its halves were
    shut down ([wr] and [rd] are descriptors of one socket). *)
Definition cut_off (evs : list event) : Prop :=
  forall before after r data, evs = before ++ Event (Shutdown rd SHUT_RDWR) r :: after ->
  Event (SendAll wr data) (Ok tt) ∉ after.

(** What makes a lane fail: a failed call, but not an interrupted read. *)
Definition up_fault (evs : list event) : Prop :=
  (exists data e, Event (SendAll wr data) (Err e) ∈ evs)
  \/ (exists ms e, RErr ms e ∈ rd_events (reader c0) /\ err_kind e <> Interrupted).
Definition down_fault (evs : list event) : Prop :=
  (exists e, Event (ReadFd rd COPY_BUF) (Err e) ∈ evs /\ decode_error_kind e <> Interrupted)
  \/ (exists k, Some k ∈ w_outcomes (writer (resp c0))).

(** The state [c], reached from [c0] after [turns] by the calls [evs] with the threads
    at [t], is the tunnel [T]. *)
Record tracks (turns : list bool) (evs : list event) c (t : Threads) (T : tunnel) : Prop := {
  k_trace : ctx_trace c = ctx_trace c0 ++ evs;
  k_runs : runs_to (tunnel_start head) T;
  k_up : on_lane (up_at t) (concat (handed evs) ++ in_hand (up_at t)) (head ++ concat (accepted evs)) (up T);
  k_chunk : up_at t <> MWrite [];
  k_down : exists gave, on_lane (down_at t) (concat (chunks evs)) gave (down T) /\ out (resp c) = out (resp c0) ++ gave;
  k_pump : pump_at T = pump_now t;
  k_handler : handler_at T = handler_now t;
  k_shut : handler_past (handler_now t) = true -> exists e, e ∈ evs /\ ev_call e = Shutdown rd SHUT_RDWR;
  k_client : rd_bytes (reader c0) = taken (up T) ++ rd_bytes (reader c);
  k_events : rd_events (reader c) `suffix_of` rd_events (reader c0);
  k_outcomes : w_outcomes (writer (resp c)) `suffix_of` w_outcomes (writer (resp c0));
  k_up_fault : faulty (up T) = true -> up_fault evs;
  k_down_fault : faulty (down T) = true -> down_fault evs;
  k_up_end : ended (up T) = true -> at_end (reader c);
  k_down_end : ended (down T) = true -> Event (ReadFd rd COPY_BUF) (Ok []) ∈ evs;
  k_pump_turns : (length (handed evs) <= turns_of true turns)%nat;
  k_calls : exists reads,
    interleaved (pump_did (pump_now t) (handed evs)) (handler_did (handler_now t) reads) (map ev_call evs)
    /\ (handler_joins (handler_now t) = false ->
        (turns_of false turns + holds_chunk (down_at t) =
         reads + length (chunks evs) + if handler_past (handler_now t) then 1 else 0)%nat);
}.

Lemma tracks_start : tracks [] [] c0 (mkThreads MRead PCopy MRead HCopy) (tunnel_start head).
Proof.
  split; try done.
  - by rewrite app_nil_r.
  - exists 0%nat. apply runs_refl.
  - split; simpl; try done. by rewrite app_nil_r.
  - exists []. rewrite app_nil_r. by split.
  - exists 0%nat. split; [apply interleaved_nil|done].
Qed.

Lemma host_event k c : exists a c',
  ctx_host (hsys (K:=Traced K) k) c = (match a with Ok x => Ok x | Err e => Err (from_raw_os_error e) end, c')
  /\ ctx_trace c' = ctx_trace c ++ [Event k a] /\ resp c' = resp c /\ reader c' = reader c.
Proof.
  destruct (hsys_runs k (host (state c))) as (a & w & E). unfold ctx_host, with_state, with_host, io_lens.
  rewrite E. by eexists a, _.
Qed.

Lemma host_event_ k c : exists a c', ctx_host (hsys_ (K:=Traced K) k) c = (Ok tt, c')
  /\ ctx_trace c' = ctx_trace c ++ [Event k a] /\ resp c' = resp c /\ reader c' = reader c.
Proof.
  destruct (host_event k c) as (a & c' & E & H). exists a, c'. split; [|exact H].
  unfold ctx_host, with_state, with_host, hsys, hsys_, on_world, sys_, io_lens, io_ignore in *.
  destruct (sys _ _). by injection E as _ <-.
Qed.

Abbreviation from_client := (with_body (on_reader (read COPY_BUF))) (only parsing).
Abbreviation to_client := (fun data => with_resp (raw data)) (only parsing).

Lemma client_read c : exists c', from_client c = ((read COPY_BUF (reader c)).1, c')
  /\ ctx_trace c' = ctx_trace c /\ resp c' = resp c /\ reader c' = (read COPY_BUF (reader c)).2.
Proof.
  unfold with_body, on_reader, io_lens. cbn [fst snd]. destruct (read COPY_BUF (reader c)) as [a r]. by eexists.
Qed.

Lemma read_events r : rd_events (read COPY_BUF r).2 `suffix_of` rd_events r
  /\ forall e, (read COPY_BUF r).1 = Err e -> exists ms, RErr ms e ∈ rd_events r.
Proof.
  unfold read. destruct r as [[|b bs] [|[ms s|ms e] ev] clock]; cbn [rd_buf rd_events rd_clock fst snd]; split; try done.
  - destruct s; [apply suffix_nil|by apply suffix_cons_r].
  - by apply suffix_cons_r.
  - intros e' [= ->]. exists ms. left.
Qed.

Lemma client_write data c : exists a c' k, with_resp (raw data) c = (a, c')
  /\ ctx_trace c' = ctx_trace c /\ reader c' = reader c
  /\ out (resp c') = out (resp c) ++ (match a with Ok _ => data | Err _ => take k data end)
  /\ w_outcomes (writer (resp c')) `suffix_of` w_outcomes (writer (resp c))
  /\ (is_ok a = false -> Some k ∈ w_outcomes (writer (resp c))).
Proof.
  unfold with_resp, raw, on_writer, write_all, io_lens, out. destruct (w_outcomes (writer (resp c))) as [|[k|] rest] eqn:E.
  - by eexists _, _, 0%nat.
  - eexists _, _, k. split_and!; [reflexivity|done|done|done| |].
    + simpl. by apply suffix_cons_r.
    + intros _. left.
  - eexists _, _, 0%nat. split_and!; [reflexivity|done|done|done| |done]. simpl. by apply suffix_cons_r.
Qed.

(** ** Every call is a step of the tunnel *)

(** One call [m] of a thread, by which the schedule grows by [b] and the threads go
    to [t']: the tunnel follows it, as long as shut sockets take no writes. *)
Definition follows (b : bool) turns evs (m : io (@Ctx SJ (Traced K)) Threads) c : Prop :=
  exists t' c' e, m c = (Ok t', c') /\ ctx_trace c' = ctx_trace c0 ++ evs ++ e
    /\ (cut_off (evs ++ e) -> exists T', tracks (turns ++ [b]) (evs ++ e) c' t' T').

Lemma up_fault_app evs e : up_fault evs -> up_fault (evs ++ e).
Proof. intros [(d & x & H)|H]; [left; exists d, x; rewrite elem_of_app; auto|by right]. Qed.
Lemma down_fault_app evs e : down_fault evs -> down_fault (evs ++ e).
Proof. intros [(x & H & ?)|H]; [left; exists x; rewrite elem_of_app; auto|by right]. Qed.

Lemma faults_move (P Q : Prop) l l' f e : moves f e l l' -> (faulty l = true -> P) -> (P -> Q) -> (f -> Q) -> faulty l' = true -> Q.
Proof. intros (_ & _ & _ & Hf & _) HP HQ Hf' [H|H]%Hf; auto. Qed.

Lemma ends_move (P Q : Prop) l l' f e : moves f e l l' -> (ended l = true -> P) -> (P -> Q) -> (e -> Q) -> ended l' = true -> Q.
Proof. intros (_ & _ & _ & _ & He) HP HQ He' [H|H]%He; auto. Qed.

Lemma runs_up_lane T l f e : moves f e (up T) l -> runs_to (tunnel_start head) T ->
  runs_to (tunnel_start head) (mkTunnel l (down T) (pump_at T) (handler_at T)).
Proof. intros (Hl & _) Hr. eapply runs_to_trans; [exact Hr|by apply runs_up]. Qed.
Lemma runs_down_lane T l f e : moves f e (down T) l -> runs_to (tunnel_start head) T ->
  runs_to (tunnel_start head) (mkTunnel (up T) l (pump_at T) (handler_at T)).
Proof. intros (Hl & _) Hr. eapply runs_to_trans; [exact Hr|by apply runs_down]. Qed.

(** A call that leaves the tunnel and the handler's turns as they are. *)
Lemma tracks_idle b turns evs c t T :
  tracks turns evs c t T -> (b = false -> handler_joins (handler_now t) = true) -> tracks (turns ++ [b]) evs c t T.
Proof.
  intros [] Hb. split; try done.
  - rewrite turns_of_snoc. lia.
  - destruct k_calls0 as (reads & Hi & Ht). exists reads. split; [done|]. intros Hj. rewrite <- Ht by done.
    rewrite turns_of_snoc. destruct b; simpl; [lia|]. by rewrite Hb in Hj.
Qed.

(** The client's stream has failed. *)
Abbreviation client_failed := (exists ms e, RErr ms e ∈ rd_events (reader c0) /\ err_kind e <> Interrupted).

Lemma moves_any (f f' e e' : Prop) l l' : moves f e l l' -> (f -> f') -> (e -> e') -> moves f' e' l l'.
Proof. intros (? & ? & ? & Hf & He) Hff Hee. split_and!; try done; [intros Hx%Hf|intros Hx%He]; tauto. Qed.

(** The pump has read the client, and goes to [m]. *)
Lemma tracks_read turns evs c c' t T m l :
  tracks turns evs c t T -> pump_now t = PCopy -> ctx_trace c' = ctx_trace c -> resp c' = resp c ->
  rd_events (reader c') `suffix_of` rd_events (reader c) ->
  rd_bytes (reader c0) = taken l ++ rd_bytes (reader c') -> m <> MWrite [] ->
  on_lane m (concat (handed evs) ++ in_hand m) (head ++ concat (accepted evs)) l ->
  moves client_failed (at_end (reader c')) (up T) l -> ended (up T) = false ->
  tracks (turns ++ [true]) evs c' (mkThreads m PCopy (down_at t) (handler_now t))
    (mkTunnel l (down T) (pump_at T) (handler_at T)).
Proof.
  intros [] Hp Htr Hre Hsuf Hb Hne Hl Hm Hopen. split; simpl; rewrite ?Htr, ?Hre; try done; rewrite <- ?Hp; try done.
  - by eapply runs_up_lane.
  - by etrans.
  - apply (faults_move _ _ _ _ _ _ Hm k_up_fault0); [done|]. by right.
  - apply (ends_move False _ _ _ _ _ Hm); [by rewrite Hopen|done|done].
  - rewrite turns_of_snoc. lia.
  - destruct k_calls0 as (reads & Hi & Ht). exists reads. rewrite Hp in *. split; [done|].
    by rewrite turns_of_snoc, Nat.add_0_r.
Qed.

Lemma pump_reads turns evs c t T :
  tracks turns evs c t T -> pump_now t = PCopy -> up_at t = MRead -> follows true turns evs (pump_turn t) c.
Proof.
  intros Hk Hp Hu. unfold follows, Proxy.pump_call. rewrite Hp, Hu. unfold copy_to_backend, copy_call.
  destruct (client_read c) as (c' & E & Htr & Hre & Hrd). destruct (read_events (reader c)) as [Hsuf Herr].
  destruct (read COPY_BUF (reader c)) as [a r] eqn:Hread. cbn [fst snd] in *. subst r.
  pose proof (k_up _ _ _ _ _ Hk) as Hl0. rewrite Hu in Hl0. simpl in Hl0. rewrite app_nil_r in Hl0.
  pose proof (k_client _ _ _ _ _ Hk) as Hb. rewrite (on_taken _ _ _ _ Hl0) in Hb.
  pose proof (fun m l => tracks_read _ _ _ _ _ _ m l Hk Hp Htr Hre Hsuf) as Hgo.
  eexists _, c', []. rewrite app_nil_r. unfold io_bind, io_try. rewrite E.
  split_and!; [reflexivity|rewrite Htr; apply Hk|]. intros _.
  assert (Hopen : ended (up T) = false) by (by apply (on_open _ _ _ _ Hl0)).
  destruct a as [[|d data]|e]; cbn [fst].
  - apply read_end in Hread as [Hend Hnil]; [|unfold COPY_BUF; lia]. destruct (lane_ends _ _ _ _ Hl0 Hend) as (l & Hm & Hl).
    eexists. apply (Hgo MOver l); [|done| |by eapply moves_any|done].
    + by rewrite Hb, (on_taken _ _ _ _ Hl), Hnil, (at_end_bytes _ Hend).
    + simpl. by rewrite app_nil_r.
  - destruct (lane_takes (d :: data) _ _ _ Hl0) as (l & Hm & Hl); [done|].
    eexists. apply (Hgo (MWrite (d :: data)) l); [|done|exact Hl|by eapply moves_any|done].
    by rewrite Hb, (on_taken _ _ _ _ Hl), (read_ok_bytes _ _ _ _ Hread), app_assoc by done.
  - rewrite (read_err_bytes _ _ _ _ Hread) in Hb. case_bool_decide as Hint.
    + eexists. apply (Hgo MRead (up T)); [by rewrite (on_taken _ _ _ _ Hl0)|done|by rewrite app_nil_r| |done].
      split_and!; [apply rtc_refl|done|done|auto|auto].
    + destruct (Herr e eq_refl) as [ms Hin]. destruct (lane_breaks _ _ _ client_failed Hl0) as (l & Hm & Hl).
      { exists ms, e. split; [|done]. destruct (k_events _ _ _ _ _ Hk) as [pre ->]. apply elem_of_app. auto. }
      eexists. apply (Hgo MOver l); [by rewrite (on_taken _ _ _ _ Hl)|done|simpl; by rewrite app_nil_r|by eapply moves_any|done].
Qed.

(** The pump writes to the backend. *)
Lemma tracks_sent turns evs c c' t T d m l (a : result (answer (SendAll wr d)) Z) :
  tracks turns evs c t T -> pump_now t = PCopy -> up_at t = MWrite d ->
  ctx_trace c' = ctx_trace c ++ [Event (SendAll wr d) a] -> resp c' = resp c -> reader c' = reader c ->
  m <> MWrite [] -> in_hand m = [] -> taken l = taken (up T) ->
  on_lane m (concat (handed evs) ++ d) (head ++ concat (accepted (evs ++ [Event (SendAll wr d) a]))) l ->
  moves (is_ok a = false) False (up T) l ->
  tracks (turns ++ [true]) (evs ++ [Event (SendAll wr d) a]) c' (mkThreads m PCopy (down_at t) (handler_now t))
    (mkTunnel l (down T) (pump_at T) (handler_at T)).
Proof.
  intros [] Hp Hu Htr Hre Hrd Hne Hin Ht Hl Hm.
  assert (Hh : handed (evs ++ [Event (SendAll wr d) a]) = handed evs ++ [d]) by (unfold handed; by rewrite omap_app).
  assert (Hc : chunks (evs ++ [Event (SendAll wr d) a]) = chunks evs) by (unfold chunks; rewrite omap_app; apply app_nil_r).
  split; simpl; rewrite ?Hh, ?Hc, ?Hin, ?Hre, ?Hrd; try done; rewrite <- ?Hp; try done.
  - by rewrite Htr, k_trace0, app_assoc.
  - by eapply runs_up_lane.
  - rewrite concat_app. simpl. by rewrite !app_nil_r.
  - intros Hx. destruct (k_shut0 Hx) as (e & He & ?). exists e. rewrite elem_of_app. auto.
  - by rewrite Ht.
  - apply (faults_move _ _ _ _ _ _ Hm k_up_fault0); [apply up_fault_app|]. intros Ha. left. destruct a as [|e]; [done|].
    exists d, e. apply elem_of_app. right. left.
  - intros Hx. by apply down_fault_app, k_down_fault0.
  - apply (ends_move _ _ _ _ _ _ Hm k_up_end0); [done|by intros []].
  - intros Hx. apply elem_of_app. left. by apply k_down_end0.
  - rewrite turns_of_snoc, length_app. simpl. lia.
  - destruct k_calls0 as (reads & Hi & Hn). exists reads. rewrite Hp in *. split.
    + rewrite !map_app. unfold pump_did in *. rewrite map_app, app_nil_r in *. by apply interleaved_left.
    + by rewrite turns_of_snoc, Nat.add_0_r.
Qed.

(** No write succeeds on a socket that was shut down. *)
Lemma write_open turns evs c t T d :
  tracks turns evs c t T -> pump_now t = PCopy -> cut_off (evs ++ [Event (SendAll wr d) (Ok tt)]) ->
  wr_shut (up T) = false.
Proof.
  intros [] Hp Hcut. destruct k_runs0 as [n Hr]. pose proof (up_wr _ _ (tunnel_ok_runs head _ _ _ Hr (tunnel_ok_start head))) as Hw.
  rewrite Hw, k_pump0, Hp, k_handler0. simpl. destruct (handler_past (handler_now t)) eqn:E; [|done].
  destruct (k_shut0 eq_refl) as ([k r] & Hin & Hc). simpl in Hc. subst k. apply list_elem_of_split in Hin as (l1 & l2 & ->).
  exfalso. apply (Hcut l1 (l2 ++ [Event (SendAll wr d) (Ok tt)]) r d); [by rewrite <- app_assoc|].
  apply elem_of_app. right. left.
Qed.

Lemma pump_writes turns evs c t T d :
  tracks turns evs c t T -> pump_now t = PCopy -> up_at t = MWrite d -> follows true turns evs (pump_turn t) c.
Proof.
  intros Hk Hp Hu. unfold follows, Proxy.pump_call. rewrite Hp, Hu. unfold copy_to_backend, copy_call, send_all.
  pose proof (k_chunk _ _ _ _ _ Hk) as Hne. rewrite Hu in Hne. destruct d as [|b d]; [done|]. cbn [is_empty].
  destruct (host_event (SendAll wr (b :: d)) c) as (a & c' & E & Htr & Hre & Hrd).
  pose proof (k_up _ _ _ _ _ Hk) as Hl0. rewrite Hu in Hl0. cbn [in_hand] in Hl0.
  eexists _, c', [_]. unfold io_bind, io_try. cbn beta. cbn [is_empty answer] in *. rewrite E.
  split_and!; [reflexivity|by rewrite Htr, (k_trace _ _ _ _ _ Hk), app_assoc|]. intros Hcut.
  assert (Hacc : accepted (evs ++ [Event (SendAll wr (b :: d)) a]) = accepted evs ++ (if is_ok a then [b :: d] else [])).
  { unfold accepted. rewrite omap_app. by destruct a. }
  destruct a as [[]|e]; cbn [fst is_ok] in *.
  - destruct (lane_gives _ _ _ _ Hl0) as (l & Hm & Hl); [by eapply write_open|].
    eexists. apply (tracks_sent _ _ _ _ _ _ _ MRead l _ Hk Hp Hu Htr Hre Hrd); [done..| | |by eapply moves_any].
    + by rewrite (on_taken _ _ _ _ Hl), (on_taken _ _ _ _ Hl0).
    + rewrite Hacc, concat_app. simpl. by rewrite app_nil_r, app_assoc.
  - destruct (lane_drops 0 _ _ _ _ True Hl0) as (l & Hm & Hl); [done|].
    eexists. apply (tracks_sent _ _ _ _ _ _ _ MOver l _ Hk Hp Hu Htr Hre Hrd); [done..| | |].
    + by rewrite (on_taken _ _ _ _ Hl), (on_taken _ _ _ _ Hl0).
    + rewrite Hacc, app_nil_r. simpl in Hl. by rewrite app_nil_r in Hl.
    + by eapply moves_any.
Qed.

(** A call that is neither a read nor a write. *)
Definition no_data (e : event) : Prop :=
  match ev_call e with SendAll _ _ | ReadFd _ _ => False | _ => True end.

Lemma no_data_logs evs e : no_data e ->
  handed (evs ++ [e]) = handed evs /\ accepted (evs ++ [e]) = accepted evs /\ chunks (evs ++ [e]) = chunks evs.
Proof.
  intros He. unfold handed, accepted, chunks. rewrite !omap_app. destruct e as [[] a]; try done; by rewrite !app_nil_r.
Qed.

(** The pump shuts down one half of a socket, by the call [k]. *)
Lemma tracks_pump_shut turns evs c c' t T k (a : result (answer k) Z) p w1 w2 :
  tracks turns evs c t T -> no_data (Event k a) ->
  ctx_trace c' = ctx_trace c ++ [Event k a] -> resp c' = resp c -> reader c' = reader c ->
  tunnel_step true T (mkTunnel (shut w1 w2 (up T)) (down T) p (handler_at T)) ->
  (forall data, pump_did p data = pump_did (pump_now t) data ++ [k]) ->
  exists T', tracks (turns ++ [true]) (evs ++ [Event k a]) c' (mkThreads (up_at t) p (down_at t) (handler_now t)) T'.
Proof.
  intros [] Hk Htr Hre Hrd Hs Hd. destruct (no_data_logs evs _ Hk) as (Hh & Ha & Hc).
  exists (mkTunnel (shut w1 w2 (up T)) (down T) p (handler_at T)).
  split; simpl; rewrite ?Hh, ?Ha, ?Hc, ?Hre, ?Hrd; try done.
  - by rewrite Htr, k_trace0, app_assoc.
  - eapply runs_to_trans; [exact k_runs0|by eapply runs_to_step].
  - by apply on_lane_shut.
  - intros Hx. destruct (k_shut0 Hx) as (e & He & ?). exists e. rewrite elem_of_app. auto.
  - intros Hx. by apply up_fault_app, k_up_fault0.
  - intros Hx. by apply down_fault_app, k_down_fault0.
  - intros Hx. apply elem_of_app. left. by apply k_down_end0.
  - rewrite turns_of_snoc. lia.
  - destruct k_calls0 as (reads & Hi & Hn). exists reads. split.
    + rewrite map_app, Hd. by apply interleaved_left.
    + by rewrite turns_of_snoc, Nat.add_0_r.
Qed.

Lemma pump_shuts turns evs c t T :
  tracks turns evs c t T -> up_at t = MOver /\ pump_now t = PCopy \/ pump_now t = PShut ->
  follows true turns evs (pump_turn t) c.
Proof.
  intros Hk Hp. unfold follows, Proxy.pump_call. destruct Hp as [[Hu Hp]|Hp]; rewrite Hp, ?Hu; unfold io_bind.
  - destruct (host_event_ (Shutdown wr SHUT_WR) c) as (a & c' & -> & Htr & Hre & Hrd).
    eexists _, c', [_]. split_and!; [reflexivity|by rewrite Htr, (k_trace _ _ _ _ _ Hk), app_assoc|]. intros _. rewrite <- Hu.
    eapply tracks_pump_shut; try done.
    + apply ts_pump_backend; [rewrite <- Hu; apply Hk|by rewrite (k_pump _ _ _ _ _ Hk)].
    + intros data. rewrite Hp. unfold pump_did. by rewrite app_nil_r.
  - destruct (host_event_ (Shutdown outer_rd SHUT_RD) c) as (a & c' & -> & Htr & Hre & Hrd).
    eexists _, c', [_]. split_and!; [reflexivity|by rewrite Htr, (k_trace _ _ _ _ _ Hk), app_assoc|]. intros _.
    eapply tracks_pump_shut; try done.
    + apply ts_pump_client. by rewrite (k_pump _ _ _ _ _ Hk).
    + intros data. rewrite Hp. unfold pump_did. by rewrite <- app_assoc.
Qed.

Lemma pump_follows turns evs c t T : tracks turns evs c t T -> follows true turns evs (pump_turn t) c.
Proof.
  intros Hk. destruct (pump_now t) eqn:Hp.
  - destruct (up_at t) eqn:Hu; [by eapply pump_reads|by eapply pump_writes|by eapply pump_shuts; eauto].
  - eapply pump_shuts; eauto.
  - exists t, c, []. unfold Proxy.pump_call. rewrite Hp, app_nil_r. split_and!; [done|apply Hk|].
    intros _. exists T. by apply tracks_idle.
Qed.

(** The handler reads the backend. *)
Lemma tracks_got turns evs c c' t T m l gave (a : result (answer (ReadFd rd COPY_BUF)) Z) :
  tracks turns evs c t T -> handler_now t = HCopy -> down_at t = MRead ->
  ctx_trace c' = ctx_trace c ++ [Event (ReadFd rd COPY_BUF) a] -> resp c' = resp c -> reader c' = reader c ->
  out (resp c) = out (resp c0) ++ gave ->
  length (chunks (evs ++ [Event (ReadFd rd COPY_BUF) a])) = (length (chunks evs) + holds_chunk m)%nat ->
  on_lane m (concat (chunks (evs ++ [Event (ReadFd rd COPY_BUF) a]))) gave l ->
  moves (exists e, a = Err e /\ decode_error_kind e <> Interrupted) (a = Ok []) (down T) l ->
  tracks (turns ++ [false]) (evs ++ [Event (ReadFd rd COPY_BUF) a]) c' (mkThreads (up_at t) (pump_now t) m HCopy)
    (mkTunnel (up T) l (pump_at T) (handler_at T)).
Proof.
  intros [] Hp Hu Htr Hre Hrd Hout Hlen Hl Hm. set (ev := Event (ReadFd rd COPY_BUF) a) in *.
  assert (Hh : handed (evs ++ [ev]) = handed evs) by (unfold handed; rewrite omap_app; apply app_nil_r).
  assert (Ha : accepted (evs ++ [ev]) = accepted evs) by (unfold accepted; rewrite omap_app; apply app_nil_r).
  split; simpl; rewrite ?Hh, ?Ha, ?Hre, ?Hrd; try done; rewrite <- ?Hp; try done.
  - by rewrite Htr, k_trace0, app_assoc.
  - by eapply runs_down_lane.
  - eauto.
  - intros Hx. by apply up_fault_app, k_up_fault0.
  - apply (faults_move _ _ _ _ _ _ Hm k_down_fault0); [apply down_fault_app|]. intros (e & He & Hi). left.
    exists e. split; [|done]. apply elem_of_app. right. unfold ev. rewrite He. left.
  - apply (ends_move _ _ _ _ _ _ Hm k_down_end0); [intros Hin; apply elem_of_app; auto|].
    intros Ha'. apply elem_of_app. right. unfold ev. rewrite Ha'. left.
  - rewrite turns_of_snoc. lia.
  - destruct k_calls0 as (reads & Hi & Hn). rewrite Hp in *. exists (S reads). split.
    + rewrite map_app. unfold handler_did in *. rewrite replicate_S_end, app_nil_r in *. by apply interleaved_right.
    + intros Hj. specialize (Hn Hj). rewrite Hu in Hn. rewrite turns_of_snoc, Hlen. simpl in *. lia.
Qed.

Lemma handler_reads turns evs c t T :
  tracks turns evs c t T -> handler_now t = HCopy -> down_at t = MRead -> follows false turns evs (handler_turn t) c.
Proof.
  intros Hk Hp Hu. unfold follows, Proxy.handler_call. rewrite Hp, Hu. unfold copy_to_client, copy_call.
  destruct (host_event (ReadFd rd COPY_BUF) c) as (a & c' & E & Htr & Hre & Hrd).
  destruct (k_down _ _ _ _ _ Hk) as (gave & Hl0 & Hout). rewrite Hu in Hl0.
  eexists _, c', [_]. unfold io_bind, io_try. cbn [answer] in *. rewrite E.
  split_and!; [reflexivity|by rewrite Htr, (k_trace _ _ _ _ _ Hk), app_assoc|]. intros _.
  pose proof (fun m l => tracks_got _ _ _ _ _ _ m l gave _ Hk Hp Hu Htr Hre Hrd Hout) as Hgo.
  assert (Hch : chunks (evs ++ [Event (ReadFd rd COPY_BUF) a])
    = chunks evs ++ match a with Ok (b :: d) => [b :: d] | _ => [] end).
  { unfold chunks. rewrite omap_app. simpl. f_equal. by destruct a as [[|]|]. }
  rewrite Hch in Hgo. destruct a as [[|b d]|e]; cbn [fst].
  - rewrite app_nil_r in Hgo. destruct (lane_ends _ _ _ True Hl0 I) as (l & Hm & Hl).
    eexists. apply (Hgo MOver l); [simpl; lia|done|by eapply moves_any].
  - destruct (lane_takes (b :: d) _ _ _ Hl0) as (l & Hm & Hl); [done|].
    eexists. apply (Hgo (MWrite (b :: d)) l); [by rewrite length_app| |by eapply moves_any].
    rewrite concat_app. simpl. by rewrite app_nil_r.
  - rewrite app_nil_r in Hgo. case_bool_decide as Hint.
    + eexists. apply (Hgo MRead (down T)); [simpl; lia|done|]. split_and!; [apply rtc_refl|done|done|auto|auto].
    + destruct (lane_breaks _ _ _ (exists e', @Err str Z e = Err e' /\ decode_error_kind e' <> Interrupted) Hl0)
        as (l & Hm & Hl); [by exists e|].
      eexists. apply (Hgo MOver l); [simpl; lia|done|by eapply moves_any].
Qed.

(** The handler writes to the client. *)
Lemma tracks_gave turns evs c c' t T d m l gave :
  tracks turns evs c t T -> handler_now t = HCopy -> down_at t = MWrite d ->
  ctx_trace c' = ctx_trace c -> reader c' = reader c -> out (resp c') = out (resp c0) ++ gave ->
  w_outcomes (writer (resp c')) `suffix_of` w_outcomes (writer (resp c)) ->
  holds_chunk m = 0%nat -> on_lane m (concat (chunks evs)) gave l ->
  moves (exists k, Some k ∈ w_outcomes (writer (resp c0))) False (down T) l ->
  tracks (turns ++ [false]) evs c' (mkThreads (up_at t) (pump_now t) m HCopy)
    (mkTunnel (up T) l (pump_at T) (handler_at T)).
Proof.
  intros [] Hp Hu Htr Hrd Hout Hsuf Hm0 Hl Hm. split; simpl; rewrite ?Htr, ?Hrd; try done; rewrite <- ?Hp; try done.
  - by eapply runs_down_lane.
  - eauto.
  - by etrans.
  - apply (faults_move _ _ _ _ _ _ Hm k_down_fault0); [done|]. by right.
  - apply (ends_move _ _ _ _ _ _ Hm k_down_end0); [done|by intros []].
  - rewrite turns_of_snoc. lia.
  - destruct k_calls0 as (reads & Hi & Hn). rewrite Hp in *. exists reads. split; [done|].
    intros Hj. specialize (Hn Hj). rewrite Hu in Hn. rewrite turns_of_snoc, Hm0. simpl in *. lia.
Qed.

Lemma handler_writes turns evs c t T d :
  tracks turns evs c t T -> handler_now t = HCopy -> down_at t = MWrite d -> follows false turns evs (handler_turn t) c.
Proof.
  intros Hk Hp Hu. unfold follows, Proxy.handler_call. rewrite Hp, Hu. unfold copy_to_client, copy_call.
  destruct (client_write d c) as (a & c' & k & E & Htr & Hrd & Hout & Hsuf & Hfail).
  destruct (k_down _ _ _ _ _ Hk) as (gave & Hl0 & Hout0). rewrite Hu in Hl0. rewrite Hout0, <- app_assoc in Hout.
  eexists _, c', []. rewrite app_nil_r. unfold io_bind, io_try. rewrite E.
  split_and!; [reflexivity|rewrite Htr; apply Hk|]. intros _.
  destruct a as [u|e]; cbn [fst].
  - destruct (lane_gives _ _ _ _ Hl0) as (l & Hm & Hl).
    { destruct (k_runs _ _ _ _ _ Hk) as [n Hr].
      pose proof (down_wr _ _ (tunnel_ok_runs head _ _ _ Hr (tunnel_ok_start head))) as Hw.
      by rewrite Hw, (k_handler _ _ _ _ _ Hk), Hp. }
    eexists. apply (tracks_gave _ _ _ _ _ _ _ MRead l _ Hk Hp Hu Htr Hrd Hout Hsuf); [done|exact Hl|by eapply moves_any].
  - destruct (lane_drops k _ _ _ _ (exists k, Some k ∈ w_outcomes (writer (resp c0))) Hl0) as (l & Hm & Hl).
    { exists k. destruct (k_outcomes _ _ _ _ _ Hk) as [pre ->]. apply elem_of_app. auto. }
    eexists. apply (tracks_gave _ _ _ _ _ _ _ MOver l _ Hk Hp Hu Htr Hrd Hout Hsuf); [done|exact Hl|done].
Qed.

(** The handler shuts down a socket, by the call [k]. *)
Lemma tracks_handler_shut turns evs c c' t T k (a : result (answer k) Z) h w1 w2 w3 w4 :
  tracks turns evs c t T -> no_data (Event k a) ->
  ctx_trace c' = ctx_trace c ++ [Event k a] -> resp c' = resp c -> reader c' = reader c ->
  tunnel_step true T (mkTunnel (shut w1 w2 (up T)) (shut w3 w4 (down T)) (pump_at T) h) ->
  (forall n, handler_did h n = handler_did (handler_now t) n ++ [k]) ->
  (k = Shutdown rd SHUT_RDWR \/ handler_past (handler_now t) = true) ->
  (handler_joins h = false -> handler_now t = HCopy /\ handler_past h = true) ->
  exists T', tracks (turns ++ [false]) (evs ++ [Event k a]) c' (mkThreads (up_at t) (pump_now t) (down_at t) h) T'.
Proof.
  intros [] Hk Htr Hre Hrd Hs Hd Hsh Hj. destruct (no_data_logs evs _ Hk) as (Hh & Ha & Hc).
  exists (mkTunnel (shut w1 w2 (up T)) (shut w3 w4 (down T)) (pump_at T) h).
  split; simpl; rewrite ?Hh, ?Ha, ?Hc, ?Hre, ?Hrd; try done.
  - by rewrite Htr, k_trace0, app_assoc.
  - eapply runs_to_trans; [exact k_runs0|by eapply runs_to_step].
  - by apply on_lane_shut.
  - destruct k_down0 as (gave & Hl & Ho). exists gave. split; [by apply on_lane_shut|done].
  - intros _. destruct Hsh as [->|Hx].
    + eexists. split; [apply elem_of_app; right; left|done].
    + destruct (k_shut0 Hx) as (e & He & ?). exists e. rewrite elem_of_app. auto.
  - intros Hx. by apply up_fault_app, k_up_fault0.
  - intros Hx. by apply down_fault_app, k_down_fault0.
  - intros Hx. apply elem_of_app. left. by apply k_down_end0.
  - rewrite turns_of_snoc. lia.
  - destruct k_calls0 as (reads & Hi & Hn). exists reads. split.
    + rewrite map_app, Hd. by apply interleaved_right.
    + intros Hx. destruct (Hj Hx) as [Hp ->]. rewrite Hp in Hn. specialize (Hn eq_refl). simpl in Hn.
      rewrite turns_of_snoc. simpl. lia.
Qed.

Lemma handler_shuts turns evs c t T :
  tracks turns evs c t T -> down_at t = MOver /\ handler_now t = HCopy \/ handler_now t = HShut ->
  follows false turns evs (handler_turn t) c.
Proof.
  intros Hk Hp. unfold follows, Proxy.handler_call. destruct Hp as [[Hu Hp]|Hp]; rewrite Hp, ?Hu; unfold io_bind.
  - destruct (host_event_ (Shutdown rd SHUT_RDWR) c) as (a & c' & -> & Htr & Hre & Hrd).
    eexists _, c', [_]. split_and!; [reflexivity|by rewrite Htr, (k_trace _ _ _ _ _ Hk), app_assoc|]. intros _. rewrite <- Hu.
    eapply tracks_handler_shut; try done; try (by rewrite ?Hp; auto).
    + apply ts_handler_backend; [|by rewrite (k_handler _ _ _ _ _ Hk)].
      destruct (k_down _ _ _ _ _ Hk) as (gave & Hl & _). rewrite <- Hu. apply Hl.
    + intros n. rewrite Hp. unfold handler_did. by rewrite app_nil_r.
  - destruct (host_event_ (Shutdown outer_wr SHUT_RDWR) c) as (a & c' & -> & Htr & Hre & Hrd).
    eexists _, c', [_]. split_and!; [reflexivity|by rewrite Htr, (k_trace _ _ _ _ _ Hk), app_assoc|]. intros _.
    eapply tracks_handler_shut; try done; try (by rewrite ?Hp; auto).
    + apply ts_handler_client. by rewrite (k_handler _ _ _ _ _ Hk).
    + intros n. rewrite Hp. unfold handler_did. by rewrite <- app_assoc.
Qed.

(** The handler joins the pump, or still waits for it. *)
Lemma handler_joins_pump turns evs c t T :
  tracks turns evs c t T -> handler_now t = HJoin -> follows false turns evs (handler_turn t) c.
Proof.
  intros Hk Hp. unfold follows, Proxy.handler_call. rewrite Hp. eexists _, c, []. rewrite app_nil_r.
  split_and!; [reflexivity|apply Hk|]. intros _.
  assert (Hi : tracks (turns ++ [false]) evs c t T) by (apply tracks_idle; [done|by rewrite Hp]).
  destruct (pump_now t) eqn:Hq; [by exists T..|]. exists (mkTunnel (up T) (down T) (pump_at T) HDone).
  destruct Hi. split; simpl; try done; rewrite ?Hq in *; rewrite ?Hp in *; try done.
  eapply runs_to_trans; [exact k_runs0|]. by eapply runs_to_step, ts_join.
Qed.

Lemma handler_follows turns evs c t T : tracks turns evs c t T -> follows false turns evs (handler_turn t) c.
Proof.
  intros Hk. destruct (handler_now t) eqn:Hp.
  - destruct (down_at t) eqn:Hu; [by eapply handler_reads|by eapply handler_writes|eapply handler_shuts; eauto].
  - eapply handler_shuts; eauto.
  - by eapply handler_joins_pump.
  - exists t, c, []. unfold Proxy.handler_call. rewrite Hp, app_nil_r. split_and!; [done|apply Hk|].
    intros _. exists T. apply tracks_idle; [done|by rewrite Hp].
Qed.

Lemma cut_off_prefix evs e : cut_off (evs ++ e) -> cut_off evs.
Proof.
  intros Hc before after r data -> Hin. apply (Hc before (after ++ e) r data); [by rewrite <- app_assoc|].
  apply elem_of_app. auto.
Qed.

(** Every call returns, whatever the tunnel. *)
Definition returns (m : io (@Ctx SJ (Traced K)) Threads) c : Prop :=
  exists t' c' e, m c = (Ok t', c') /\ ctx_trace c' = ctx_trace c ++ e.

Lemma returns_ret t c : returns (io_ret t) c.
Proof. exists t, c, []. by rewrite app_nil_r. Qed.

Lemma returns_host_ k t c : returns (ctx_host (hsys_ (K:=Traced K) k) ;;; io_ret t) c.
Proof. destruct (host_event_ k c) as (a & c' & E & Htr & _). unfold returns, io_bind. rewrite E. eauto 10. Qed.

(** A copy whose read and write make at most some calls. *)
Lemma returns_copy (rd' : io (@Ctx SJ (Traced K)) str) wr' m (f : mover -> Threads) c :
  (exists e, ctx_trace (rd' c).2 = ctx_trace c ++ e) ->
  (forall d, exists e, ctx_trace (wr' d c).2 = ctx_trace c ++ e) ->
  returns (m' <- copy_call rd' wr' m ;; io_ret (f m')) c.
Proof.
  intros [e1 H1] H2. unfold returns, io_bind, copy_call, io_try. destruct m as [|d|]; simpl.
  - eauto.
  - destruct (H2 d) as [e2 He]. eauto.
  - exists (f MOver), c, []. by rewrite app_nil_r.
Qed.

Lemma pump_returns t c : returns (pump_turn t) c.
Proof.
  assert (Hcopy : forall m f, returns (m' <- copy_to_backend wr m ;; io_ret (f m')) c).
  { intros m f. apply returns_copy.
    - destruct (client_read c) as (c' & -> & Htr & _). exists []. by rewrite app_nil_r.
    - intros d. unfold send_all. destruct (is_empty d); [exists []; by rewrite app_nil_r|].
      destruct (host_event (SendAll wr d) c) as (a & c' & E & Htr & _). cbn [answer] in *. rewrite E. eauto. }
  unfold Proxy.pump_call. destruct (pump_now t); [destruct (up_at t)| |]; auto using returns_host_, returns_ret.
Qed.

Lemma handler_returns t c : returns (handler_turn t) c.
Proof.
  assert (Hcopy : forall m f, returns (m' <- copy_to_client rd m ;; io_ret (f m')) c).
  { intros m f. apply returns_copy.
    - destruct (host_event (ReadFd rd COPY_BUF) c) as (a & c' & E & Htr & _). cbn [answer] in *. rewrite E. eauto.
    - intros d. destruct (client_write d c) as (a & c' & k & -> & Htr & _). exists []. by rewrite app_nil_r. }
  unfold Proxy.handler_call. destruct (handler_now t); [destruct (down_at t)| | |]; auto using returns_host_, returns_ret.
Qed.

Lemma interleave_returns turns t c : returns (take_turns turns t) c.
Proof.
  revert t c. induction turns as [|b rest IH]; intros t c; [apply returns_ret|]. cbn [Proxy.interleave].
  assert (Hb : returns (if b then pump_turn t else handler_turn t) c) by (destruct b; [apply pump_returns|apply handler_returns]).
  destruct Hb as (t1 & c1 & e1 & E1 & H1). destruct (IH t1 c1) as (t2 & c2 & e2 & E2 & H2).
  exists t2, c2, (e1 ++ e2). rewrite (io_bind_run _ _ _ _ _ E1), H2, H1, app_assoc. by split.
Qed.

Lemma interleave_tracks turns' turns evs c t T t' c' e :
  tracks turns evs c t T -> take_turns turns' t c = (Ok t', c') -> ctx_trace c' = ctx_trace c0 ++ evs ++ e ->
  cut_off (evs ++ e) -> exists T', tracks (turns ++ turns') (evs ++ e) c' t' T'.
Proof.
  revert turns evs c t T e. induction turns' as [|b rest IH]; intros turns evs c t T e Hk Hrun Htr Hcut.
  { injection Hrun as <- <-. pose proof (k_trace _ _ _ _ _ Hk) as Ht. rewrite Htr in Ht. apply app_inv_head in Ht.
    rewrite Ht, app_nil_r. eauto. }
  assert (Hf : follows b turns evs (if b then pump_turn t else handler_turn t) c).
  { destruct b; [by eapply pump_follows|by eapply handler_follows]. }
  destruct Hf as (t1 & c1 & e1 & E1 & Htr1 & H1). cbn [Proxy.interleave] in Hrun.
  rewrite (io_bind_run _ _ _ _ _ E1) in Hrun. destruct (interleave_returns rest t1 c1) as (t2 & c2 & e2 & E2 & Htr2).
  rewrite E2 in Hrun. injection Hrun as -> ->.
  assert (He : e = e1 ++ e2).
  { rewrite Htr2, Htr1, <- !app_assoc in Htr. do 2 apply app_inv_head in Htr. done. }
  subst e. rewrite app_assoc in Hcut. destruct (H1 (cut_off_prefix _ _ Hcut)) as [T1 Hk1].
  destruct (IH _ _ _ _ _ e2 Hk1 E2) as [T2 Hk2]; [by rewrite Htr, !app_assoc|done|].
  exists T2. by rewrite <- !app_assoc in Hk2.
Qed.

Lemma joined_runs n t t' : runs n t t' -> (handler_at t = HDone -> pump_at t = PDone) ->
  handler_at t' = HDone -> pump_at t' = PDone.
Proof.
  induction 1 as [|b n t t1 t2 Hs Hr IH]; [auto|]. intros Ht. apply IH.
  destruct Hs; simpl in *; auto; try congruence; intros Hd; try done; specialize (Ht Hd); congruence.
Qed.

(** C24: the code of a tunnel takes the steps of the model, in whatever order the
    calls of its two threads return ([turns]) and whatever the kernel answers, as
    long as a socket shut down takes no more writes: [splice] is a run of the tunnel.
    It returns when the run has both threads at their end; when the turns are used
    up before, the tunnel is still open.  The lanes of that run are the calls made:
    what was taken from the client is what its stream lost, and the chunks handed to
    the backend's socket in order, with the one in hand; what was delivered there,
    the head and the chunks the socket accepted; what was taken from the backend,
    the chunks read from it; what was delivered to the client, all that was written
    to it.  A lane fails only where a call has failed, an interrupted read apart, and
    ends only where a read has given the end of the stream.
    The calls are those of the two threads in some order: the pump's writes, then
    its two half shutdowns; the handler's reads, then its two shutdowns.  No thread
    waits for the other before the join: each of the handler's turns has been a read
    of the backend, a write to the client or a shutdown, even if the pump never ran. *)
Theorem splice_refines turns :
  exists r c' evs, splice outer_rd outer_wr wr rd turns c0 = (r, c') /\ ctx_trace c' = ctx_trace c0 ++ evs
  /\ (cut_off evs -> exists n T reads, runs n (tunnel_start head) T
    /\ match r with
       | Ok _ => handler_at T = HDone /\ pump_at T = PDone
       | Err e => e = fuel_error /\ handler_at T <> HDone
       end
    /\ rd_bytes (reader c0) = taken (up T) ++ rd_bytes (reader c')
    /\ taken (up T) = concat (handed evs) ++ in_hand (at_ (up T))
    /\ delivered (up T) = head ++ concat (accepted evs)
    /\ taken (down T) = concat (chunks evs)
    /\ out (resp c') = out (resp c0) ++ delivered (down T)
    /\ (faulty (up T) = true -> up_fault evs) /\ (faulty (down T) = true -> down_fault evs)
    /\ (ended (up T) = true -> at_end (reader c'))
    /\ (ended (down T) = true -> Event (ReadFd rd COPY_BUF) (Ok []) ∈ evs)
    /\ interleaved (pump_did (pump_at T) (handed evs)) (handler_did (handler_at T) reads) (map ev_call evs)
    /\ (length (handed evs) <= turns_of true turns)%nat
    /\ (handler_joins (handler_at T) = false ->
        (turns_of false turns + holds_chunk (at_ (down T)) =
         reads + length (chunks evs) + if handler_past (handler_at T) then 1 else 0)%nat)).
Proof.
  destruct (interleave_returns turns (mkThreads MRead PCopy MRead HCopy) c0) as (t & c' & evs & E & Htr).
  unfold splice. rewrite (io_bind_run _ _ _ _ _ E).
  exists (if handler_now t is HDone then Ok tt else Err fuel_error), c', evs. split_and!; [by destruct (handler_now t)|done|].
  intros Hcut. destruct (interleave_tracks _ _ _ _ _ _ _ _ _ tracks_start E Htr Hcut) as [T Hk].
  destruct (k_runs _ _ _ _ _ Hk) as [n Hr]. destruct (k_calls _ _ _ _ _ Hk) as (reads & Hi & Hn).
  destruct (k_down _ _ _ _ _ Hk) as (gave & Hd & Ho). pose proof (k_up _ _ _ _ _ Hk) as Hu.
  exists n, T, reads. rewrite (on_at _ _ _ _ Hu), (on_at _ _ _ _ Hd), (k_pump _ _ _ _ _ Hk), (k_handler _ _ _ _ _ Hk).
  split_and!; try done; try apply Hk; try apply Hu; try apply Hd.
  - pose proof (joined_runs _ _ _ Hr) as Hj. rewrite (k_pump _ _ _ _ _ Hk), (k_handler _ _ _ _ _ Hk) in Hj.
    destruct (handler_now t); try done. split; [done|]. by apply Hj.
  - by rewrite (on_delivered _ _ _ _ Hd).
Qed.

(** ** The end of the code *)

(** Bounds the calls the pump has left: each read takes something from the stream. *)
Definition pump_left (t : Threads) (r : Reader) : nat :=
  match pump_now t with
  | PDone => 0
  | PShut => 1
  | PCopy => 2 + match up_at t with MOver => 0 | MRead => 1 + 2 * rd_size r | MWrite _ => 2 + 2 * rd_size r end
  end.

Lemma read_shrinks max r a r' : read max r = (a, r') -> a <> Ok [] -> (rd_size r' < rd_size r)%nat.
Proof.
  intros Hr Ha. destruct a as [s|e].
  - assert (Hs : s <> []) by congruence. pose proof (read_ok_size _ _ _ _ Hr Hs). destruct s; [done|]. simpl in *. lia.
  - unfold read, rd_size in *. destruct r as [[|b bs] [|[ms d|ms x] ev] clock]; simpl in *; simplify_eq; simpl; lia.
Qed.

Lemma pump_progress t c : exists t' c', pump_turn t c = (Ok t', c') /\ handler_now t' = handler_now t
  /\ (pump_left t' (reader c') <= pump_left t (reader c) - 1)%nat.
Proof.
  unfold Proxy.pump_call, pump_left. destruct (pump_now t) eqn:Hp; [destruct (up_at t) as [|d|] eqn:Hu| |];
    unfold copy_to_backend, copy_call, io_bind, io_try.
  - destruct (client_read c) as (c' & -> & _ & _ & Hrd). destruct (read COPY_BUF (reader c)) as [a r] eqn:Hr. cbn [fst snd] in *.
    pose proof (read_shrinks _ _ _ _ Hr) as Hs. eexists _, _. split_and!; [reflexivity|done|]. rewrite Hrd. simpl.
    destruct a as [[|b d]|e]; [lia|specialize (Hs ltac:(done)); lia|]. specialize (Hs ltac:(done)). case_bool_decide; lia.
  - assert (Hw : exists a c', ctx_host (send_all (K:=Traced K) wr d) c = (a, c') /\ reader c' = reader c).
    { unfold send_all. destruct (is_empty d); [by exists (Ok tt), c; destruct c as [[]]|].
      destruct (host_event (SendAll wr d) c) as (a & c' & E & _ & _ & Hrd). cbn [answer] in E. eauto. }
    destruct Hw as (a & c' & E & Hrd). cbn beta. rewrite E. eexists _, c'. split_and!; [reflexivity|done|]. rewrite Hrd.
    destruct a; simpl; lia.
  - destruct (host_event_ (Shutdown wr SHUT_WR) c) as (a & c' & -> & _ & _ & Hrd). eexists _, _. split_and!; [reflexivity|done|]. simpl. lia.
  - destruct (host_event_ (Shutdown outer_rd SHUT_RD) c) as (a & c' & -> & _ & _ & Hrd). eexists _, _. split_and!; [reflexivity|done|]. simpl. lia.
  - exists t, c. split_and!; [done..|]. rewrite Hp. lia.
Qed.

Lemma join_progress turns t c : handler_now t = HJoin -> exists t' c', take_turns (turns ++ [false]) t c = (Ok t', c')
  /\ (handler_now t' = HJoin \/ handler_now t' = HDone)
  /\ ((pump_left t (reader c) <= turns_of true turns)%nat -> handler_now t' = HDone).
Proof.
  revert t c. induction turns as [|b turns IH]; intros t c Hj; cbn [app Proxy.interleave].
  - unfold io_bind. unfold Proxy.handler_call. rewrite Hj. cbn [io_ret]. eexists _, c. split; [reflexivity|].
    unfold pump_left. destruct (pump_now t); simpl; (split; [by eauto|]); intros Hle; try done.
    all: unfold turns_of in Hle; simpl in Hle; lia.
  - assert (Hdone : forall t c, handler_now t = HDone -> pump_now t = PDone -> take_turns (turns ++ [false]) t c = (Ok t, c)).
    { clear. induction turns as [|b turns IH]; intros t c Hh Hp; cbn [app Proxy.interleave];
        unfold io_bind, Proxy.pump_call, Proxy.handler_call; rewrite Hh, ?Hp; [done|destruct b; by apply IH]. }
    destruct b.
    + destruct (pump_progress t c) as (t1 & c1 & E & Hh & Hl). rewrite (io_bind_run _ _ _ _ _ E).
      destruct (IH t1 c1) as (t2 & c2 & E2 & H2 & H3); [by rewrite Hh|]. exists t2, c2. split_and!; [done..|].
      intros Hle. apply H3. unfold turns_of in *. simpl in *. lia.
    + destruct (pump_now t) eqn:Hp.
      3:{ eexists _, c. unfold io_bind. unfold Proxy.handler_call at 1. rewrite Hj, Hp. cbn [io_ret]. rewrite Hdone by done.
          split_and!; [reflexivity|by right|done]. }
      all: destruct (IH t c Hj) as (t2 & c2 & E2 & H2 & H3); exists t2, c2; unfold io_bind; unfold Proxy.handler_call at 1;
        rewrite Hj, Hp; cbn [io_ret]; (split_and!; [done..|]; intros Hle; apply H3); unfold turns_of in *; simpl in *; lia.
Qed.

Lemma interleave_app turns turns' t c t1 c1 :
  take_turns turns t c = (Ok t1, c1) -> take_turns (turns ++ turns') t c = take_turns turns' t1 c1.
Proof.
  revert t c. induction turns as [|b turns IH]; intros t c H; cbn [app Proxy.interleave] in *.
  - by injection H as -> ->.
  - unfold io_bind in *. destruct ((if b then pump_turn t else handler_turn t) c) as [[t2|e] c2]; [by apply IH|done].
Qed.

End Code.

(** ** A tunnel on the simulated machine *)

(** Whether no write to a backend's socket follows the shutdown of both its halves. *)
Fixpoint cut_off_test (rd : Z) (evs : list event) : bool :=
  match evs with
  | [] => true
  | e :: rest =>
      (match ev_call e with
       | Shutdown fd how =>
           negb ((fd =? rd) && (how =? SHUT_RDWR))
           || forallb (fun e => match ev_call e with SendAll _ _ => false | _ => true end) rest
       | _ => true
       end) && cut_off_test rd rest
  end.

Lemma cut_off_tested wr rd evs : cut_off_test rd evs = true -> cut_off wr rd evs.
Proof.
  intros Ht before after r data ->. induction before as [|e before IH]; simpl in Ht; apply andb_prop in Ht as [H1 H2]; [|by apply IH].
  rewrite !Z.eqb_refl in H1. simpl in H1. intros Hin. rewrite forallb_forall in H1.
  apply list_elem_of_In in Hin. by specialize (H1 _ Hin).
Qed.

(** The backend's socket is descriptor 7, which has an answer to give; the client has
    sent a frame. *)
Definition tunnel_world : Sim.SimWorld :=
  Sim.with_fds {[ 7 := (9, 0) ]} (Sim.with_nodes {[ 9 := Sim.NFile 0 0 (lit "HTTP/1.1 200 OK") ]} Sim.boot).
Definition tunnel_ctx : @Ctx Sample.sample (Traced Sim.sim) :=
  set_reader {| rd_buf := []; rd_events := [RData 5 (lit "ping")]; rd_clock := 0 |}
    (a_ctx true (traced_host tunnel_world) (a_request "GET" "/" [] "")).
Definition in_turns (n : nat) : list bool := concat (replicate n [false; true]).

Lemma splice_refines_witness :
  exists c' n T, splice 11 12 8 7 (in_turns 6) tunnel_ctx = (Ok tt, c') /\ runs n (tunnel_start []) T
    /\ handler_at T = HDone /\ delivered (up T) = lit "ping" /\ delivered (down T) = lit "HTTP/1.1 200 OK".
Proof.
  destruct (splice_refines 11 12 8 7 [] tunnel_ctx (in_turns 6)) as (r & c' & evs & Hrun & Htr & H).
  set (ok := fun x : result unit io_error * @Ctx Sample.sample (Traced Sim.sim) =>
    match x with
    | (Ok _, c) => cut_off_test 7 (ctx_trace c)
        && bool_decide (concat (accepted (ctx_trace c)) = lit "ping") && bool_decide (out (resp c) = lit "HTTP/1.1 200 OK")
    | _ => false
    end).
  assert (Hok : ok (splice 11 12 8 7 (in_turns 6) tunnel_ctx) = true) by (vm_compute; reflexivity).
  rewrite Hrun in Hok. destruct r as [[]|e]; [|discriminate Hok]. cbn [ok] in Hok.
  apply andb_prop in Hok as [Hok Ho]. apply andb_prop in Hok as [Hc Ha].
  apply bool_decide_eq_true in Ho, Ha. assert (Hevs : ctx_trace c' = evs) by exact Htr. rewrite Hevs in Hc, Ha.
  destruct (H (cut_off_tested 8 7 evs Hc)) as (n & T & reads & Hr & [Hh _] & _ & _ & Hu & _ & Hd & _).
  exists c', n, T. split; [exact Hrun|]. split; [exact Hr|]. split; [exact Hh|]. split.
  - rewrite Hu. exact Ha.
  - rewrite Ho in Hd. symmetry. exact Hd.
Defined.

