(* ===== verification/SandboxHandlers.v ===== *)
(** * src/sandboxes.rs: the handlers

    Creating and deleting sandboxes over HTTP, on the registry of file Sandboxes. *)

From S2P Require Import Prelude RustStd Json Net Http HttpResponse Kernel Host State Sandboxes Exec.

Section Handlers.
Context {SJ : SerdeJson} {K : Kernel}.

Definition created_json (e : SandboxEntry) : Value Number :=
  jobj [("id", VString (id e)); ("token", VString (token e)); ("uid", jint (uid e)); ("home", VString (home e));
        ("confinement", VString (label (confinement e)))]%string.

(** What the loop of [handle_create] ends with. *)
Inductive create_loop_result : Type :=
| Placed (created : list (Value Number)) (rejected : Z)
| Failed (e : io_error).

(** The iterations left, the entries created so far in order. *)
Fixpoint create_loop (count : Z) (n : nat) (env : gmap str str) (max_procs max_mem_mb : option Z)
    (idle_timeout_ms : Z) (created : list (Value Number)) : io State create_loop_result :=
  match n with
  | O => io_ret (Placed created 0)
  | S n' =>
      r <- with_sandboxes (create env max_procs max_mem_mb idle_timeout_ms) ;;
      match r with
      | Ok entry => create_loop count n' env max_procs max_mem_mb idle_timeout_ms (created ++ [created_json entry])
      | Err Full => io_ret (Placed created (count - Z.of_nat (length created)))
      | Err (CreateIo e) => io_ret (Failed e)
      end
  end.

(** A limit the body may set, which must be in 1..=ceiling. *)
Definition checked_limit (json : Value Number) (key : String.string) (ceiling : Z) : result (option Z) str :=
  match Json.get json (lit key) ≫= as_u64 with
  | Some value =>
      if (value =? 0) || (ceiling <? value) then Err (lit key ++ lit " must be 1..=" ++ show ceiling) else Ok (Some value)
  | None => Ok None
  end.

Definition env_size (env : gmap str str) : Z :=
  foldr (fun kv n => slen kv.1 + slen kv.2 + n) 0 (map_to_list env).

Definition create_body (body : str) : Value Number :=
  match body with
  | [] => VObject []
  | _ => match from_slice body with Ok json => json | Err _ => VObject [] end
  end.

Definition handle_create : io Ctx unit :=
  body <- with_body (read_body (1024 * 1024)) ;;
  let parsed := create_body body in
  let env := json_string_map parsed (lit "env") in
  let env_bytes := env_size env in
  if MAX_ENV_BYTES <? env_bytes then
    with_resp (error 400 (lit "env too large (" ++ show env_bytes ++ lit " bytes, max " ++ show MAX_ENV_BYTES ++ lit ")"))
  else
    let requested := Z.max 1 (default 1 (Json.get parsed (lit "count") ≫= as_u64)) in
    remaining <- io_gets (fun c => remaining_capacity (sandboxes (state c))) ;;
    let count := Z.min requested remaining in
    match checked_limit parsed "max_procs" MAX_PROCS_CEILING with
    | Err e => with_resp (error 400 e)
    | Ok max_procs =>
        match checked_limit parsed "max_mem_mb" MAX_MEM_MB_CEILING with
        | Err e => with_resp (error 400 e)
        | Ok max_mem_mb =>
            let idle_timeout_ms := wrap_i64 (default 0 (Json.get parsed (lit "idle_timeout_secs") ≫= as_i64) * 1000) in
            r <- with_state (create_loop count (Z.to_nat count) env max_procs max_mem_mb idle_timeout_ms []) ;;
            match r with
            | Failed e => with_resp (error 500 (lit "failed to create sandbox: " ++ err_text e))
            | Placed created rejected =>
                with_resp (json 200 (jobj [("sandboxes", VArray created); ("rejected", jint rejected)]%string))
            end
        end
    end.

Definition forget_processes (id : str) : io State unit :=
  with_registry (fun r => (tt, remove_for_sandbox id r)).

Definition handle_delete (id : str) : io Ctx unit :=
  deleted <- with_state (with_sandboxes (delete id)) ;;
  match deleted with
  | None => with_resp (error 404 (lit "no such sandbox: " ++ id))
  | Some (Ok _) =>
      with_state (forget_processes id) ;;;
      with_resp (json 200 (jobj [("id", VString id); ("deleted", VBool true)]%string))
  | Some (Err message) =>
      with_state (forget_processes id) ;;;
      with_resp (json 500 (jobj [("id", VString id); ("deleted", VBool true); ("error", VString message)]%string))
  end.

(** Deletes each sandbox in turn, giving the messages of those that failed. *)
Fixpoint delete_each (ids : list str) : io State (list str) :=
  match ids with
  | [] => io_ret []
  | id :: rest =>
      outcome <- with_sandboxes (delete id) ;;
      forget_processes id ;;;
      errors <- delete_each rest ;;
      io_ret (match outcome with Some (Err message) => message :: errors | _ => errors end)
  end.

Definition handle_delete_all : io Ctx unit :=
  ids <- io_gets (fun c => ids (sandboxes (state c))) ;;
  errors <- with_state (delete_each ids) ;;
  let n := Z.of_nat (length ids) in
  match errors with
  | [] => with_resp (json 200 (jobj [("deleted", jint n)]%string))
  | _ => with_resp (json 500 (jobj [("deleted", jint n); ("errors", VArray (map VString errors))]%string))
  end.

End Handlers.
