(* ===== verification/Server.v ===== *)
(** * src/main.rs: the server

    Credentials, the router, the connection loop, the connection limit, the idle
    watchdog and the start-up.  The theorems are in files ServerFacts and
    ServerLoop. *)

From S2P Require Import Prelude RustStd Json Net Http HttpResponse Kernel Host Landlock Paths State Sandboxes.
From S2P Require Import Exec Fsutil Files Proxy SandboxHandlers.

Definition PROTOCOL : Z := 3.

(** The byte differences of the two strings, or-ed. *)
Definition ct_eq (a b : str) : bool :=
  if negb (Nat.eqb (length a) (length b)) then false
  else fold_left (fun acc xy => Z.lor acc (Z.lxor (byte xy.1) (byte xy.2))) (zip a b) 0 =? 0.

Definition accepts (auth : Auth) (provided : option str) : bool :=
  match auth with
  | Required expected => match provided with Some token => ct_eq token expected | None => false end
  | DisabledForDevelopment => true
  end.

Inductive Scope : Type := HostScope | SandboxScope.

Inductive RouteAuth : Type := Management | SandboxRoute (id : str) | UnknownRoute.

(** A path segment with a given text. *)
Definition seg_is (s : str) (text : String.string) : bool := eqs s (lit text).

Definition host_route_auth (segments : list str) : RouteAuth :=
  match segments with
  | [v1; sb] => if seg_is v1 "v1" && seg_is sb "sandboxes" then Management else UnknownRoute
  | [v1; sb; id; tk] =>
      if seg_is v1 "v1" && seg_is sb "sandboxes" then if seg_is tk "token" then Management else SandboxRoute id
      else UnknownRoute
  | v1 :: sb :: id :: _ => if seg_is v1 "v1" && seg_is sb "sandboxes" then SandboxRoute id else UnknownRoute
  | _ => UnknownRoute
  end.

Definition classify_scoped_token (provided sandbox_token : str) : option Scope :=
  if ct_eq provided sandbox_token then Some SandboxScope else None.

Definition route_mode_allowed (host_mode : bool) (segments : list str) : bool :=
  let host_scoped := match segments with v1 :: sb :: _ => seg_is v1 "v1" && seg_is sb "sandboxes" | _ => false end in
  Bool.eqb host_mode host_scoped.

(** ** Live connections *)

(** The [fetch_add] of [ConnectionSlot::acquire], and the [fetch_sub] of its refusal
    and of [Drop for ConnectionSlot]. *)
Definition try_add (max live : Z) : bool * Z := (negb (max <=? live), wrap_u64 (live + 1)).
Definition release_slot (live : Z) : Z := wrap_u64 (live - 1).

Definition acquire (max live : Z) : bool * Z :=
  let '(granted, live) := try_add max live in
  if granted then (true, live) else (false, release_slot live).

(** A connection over the limit is answered without a worker; each call's failure is
    ignored. *)
Definition too_many_connections : str :=
  lit "HTTP/1.1 503 Service Unavailable" ++ CRLF ++ lit "Content-Length: 0" ++ CRLF ++ lit "Connection: close" ++ CRLF ++ CRLF.

Section Server.
Context {SJ : SerdeJson} {K : Kernel}.
(** [env!("CARGO_PKG_VERSION")]. *)
Variable VERSION : str.

Definition authorize (s : State) (provided : option str) (segments : list str) : option Scope :=
  let management := if accepts (auth s) provided then Some HostScope else None in
  if negb (host_mode s) then management
  else match host_route_auth segments with
  | Management | UnknownRoute => management
  | SandboxRoute id =>
      match Sandboxes.get id (sandboxes s) with
      | None => None
      | Some entry => match provided with Some p => classify_scoped_token p (token entry) | None => None end
      end
  end.

Definition authorized (s : State) (request : Request) : bool := accepts (auth s) (header request (lit "x-sandbox-token")).

(** ** Health *)

Definition public_health : Value Number := jobj [("status", VString (lit "ok")); ("protocol", jint PROTOCOL)]%string.

Definition authenticated_health : io State (Value Number) :=
  now <- with_host hnow ;;
  abi <- with_host abi ;;
  s <- io_get ;;
  io_ret (jobj [("status", VString (lit "ok")); ("protocol", jint PROTOCOL); ("version", VString VERSION);
                ("uptime_ms", jint (wrap_i64 (now - started_at_ms s)));
                ("sandboxes", jint (count (sandboxes s)));
                ("mode", VString (if host_mode s then lit "host" else lit "dedicated"));
                ("auth", VString (match auth s with Required _ => lit "required" | DisabledForDevelopment => lit "disabled" end));
                ("landlock", jobj [("abi", jint abi); ("features", VArray (map VString (features abi)))])]%string).

(** ** The router *)

(** What the rest of the machine decides during a request: what the command's
    channel delivers, how deep a tree is, whose turn it is in a tunnel. *)
Record Circumstances : Type := mkCircumstances {
  rx : list recv;
  depth : nat;
  turns : list bool;
}.
Variable env : Circumstances.

Definition no_such_sandbox (id : str) : io Ctx unit := with_resp (error 404 (lit "no such sandbox: " ++ id)).

(** [match state.sandboxes.get(id)]. *)
Definition with_sandbox (id : str) (f : SandboxEntry -> io Ctx unit) : io Ctx unit :=
  entry <- io_gets (fun c => Sandboxes.get id (sandboxes (state c))) ;;
  match entry with Some entry => f entry | None => no_such_sandbox id end.

(** What a path and method name below [/v1], or below one sandbox: the two surfaces
    mirror each other. *)
Inductive FileOp : Type := FRead | FWrite | FList | FStat | FDelete | FMkdir.
Inductive Endpoint : Type :=
| EExec
| EProcessStart
| EProcessList
| EProcessDelete (id : str)
| EFiles (op : FileOp)
| EProxy (rest : list str).
Inductive Route : Type :=
| Dedicated (e : Endpoint)
| SandboxCreate
| SandboxList
| SandboxDeleteAll
| SandboxToken (id : str)
| SandboxDelete (id : str)
| InSandbox (id : str) (e : Endpoint)
| NoRoute.

Definition file_op (method op : str) : option FileOp :=
  if seg_is method "GET" && seg_is op "read" then Some FRead
  else if seg_is method "PUT" && seg_is op "write" then Some FWrite
  else if seg_is method "GET" && seg_is op "list" then Some FList
  else if seg_is method "GET" && seg_is op "stat" then Some FStat
  else if seg_is method "DELETE" && seg_is op "delete" then Some FDelete
  else if seg_is method "POST" && seg_is op "mkdir" then Some FMkdir
  else None.

Definition endpoint_of (method : str) (tail : list str) : option Endpoint :=
  match tail with
  | [] => None
  | name :: rest =>
      if seg_is name "proxy" then Some (EProxy rest)
      else match rest with
      | [] =>
          if seg_is method "POST" && seg_is name "exec" then Some EExec
          else if seg_is method "POST" && seg_is name "processes" then Some EProcessStart
          else if seg_is method "GET" && seg_is name "processes" then Some EProcessList
          else None
      | [arg] =>
          if seg_is method "DELETE" && seg_is name "processes" then Some (EProcessDelete arg)
          else if seg_is name "files" then EFiles <$> file_op method arg
          else None
      | _ => None
      end
  end.

Definition route_of (method : str) (segments : list str) : Route :=
  match segments with
  | v1 :: tail =>
      if negb (seg_is v1 "v1") then NoRoute
      else match tail with
      | sb :: rest =>
          if negb (seg_is sb "sandboxes") then
            match endpoint_of method tail with Some e => Dedicated e | None => NoRoute end
          else match rest with
          | [] =>
              if seg_is method "POST" then SandboxCreate
              else if seg_is method "GET" then SandboxList
              else if seg_is method "DELETE" then SandboxDeleteAll
              else NoRoute
          | [id] => if seg_is method "DELETE" then SandboxDelete id else NoRoute
          | id :: below =>
              if seg_is method "GET" && bool_decide (below = [lit "token"]) then SandboxToken id
              else match endpoint_of method below with Some e => InSandbox id e | None => NoRoute end
          end
      | [] => NoRoute
      end
  | [] => NoRoute
  end.

Definition file_handler (op : FileOp) : option SandboxEntry -> io Ctx unit :=
  match op with
  | FRead => handle_read
  | FWrite => handle_write
  | FList => handle_list
  | FStat => handle_stat
  | FDelete => Files.handle_delete (depth env)
  | FMkdir => handle_mkdir
  end.

Definition list_reply (sandbox : option str) : io Ctx unit :=
  v <- io_gets (fun c => list_processes sandbox (proc_registry (state c))) ;; with_resp (json 200 v).

Definition dedicated (e : Endpoint) : io Ctx unit :=
  match e with
  | EExec => handle_exec (rx env) None
  | EProcessStart => handle_process_start None
  | EProcessList => list_reply None
  | EProcessDelete id => handle_process_delete id None
  | EFiles op => file_handler op None
  | EProxy rest => handle_proxy (turns env) None rest
  end.

Definition in_sandbox_route (id : str) (e : Endpoint) : io Ctx unit :=
  match e with
  | EExec => with_sandbox id (fun entry => handle_exec (rx env) (Some entry))
  | EProcessStart => with_sandbox id (fun entry => handle_process_start (Some entry))
  | EProcessList => list_reply (Some id)
  | EProcessDelete proc_id => handle_process_delete proc_id (Some id)
  | EFiles op => with_sandbox id (fun entry => file_handler op (Some entry))
  | EProxy rest => with_sandbox id (fun entry => handle_proxy (turns env) (Some entry) rest)
  end.

Definition token_reply (entry : SandboxEntry) : io Ctx unit :=
  with_resp (json 200 (jobj [("id", VString (State.id entry)); ("token", VString (token entry))]%string)).

Definition dispatch (method path : str) (r : Route) : io Ctx unit :=
  match r with
  | Dedicated e => dedicated e
  | SandboxCreate => handle_create
  | SandboxList =>
      v <- io_gets (fun c => list_json (sandboxes (state c))) ;; with_resp (json 200 v)
  | SandboxDeleteAll => handle_delete_all
  | SandboxToken id => with_sandbox id token_reply
  | SandboxDelete id => SandboxHandlers.handle_delete id
  | InSandbox id e => in_sandbox_route id e
  | NoRoute => with_resp (error 404 (lit "no route: " ++ method ++ lit " " ++ path))
  end.

(** Any request scoped to a sandbox resets its idle timer. *)
Definition touch_scoped (segments : list str) : io State unit :=
  match segments with
  | v1 :: sb :: id :: _ => if seg_is v1 "v1" && seg_is sb "sandboxes" then with_sandboxes (touch id) else io_ret tt
  | _ => io_ret tt
  end.

Definition route : io Ctx unit :=
  request <- io_gets request ;;
  s <- io_gets state ;;
  let path := path request in
  let method := method request in
  if seg_is method "GET" && seg_is path "/health" then
    if negb (authorized s request) then with_resp (json 200 public_health)
    else v <- with_state authenticated_health ;; with_resp (json 200 v)
  else
    let segments := path_segments path in
    match authorize s (header request (lit "x-sandbox-token")) segments with
    | None => with_resp (error 403 (lit "invalid or missing X-Sandbox-Token"))
    | Some _ =>
        if bool_decide (is_Some (header request (lit "transfer-encoding"))) then
          with_resp (error 411 (lit "chunked request bodies not supported; send Content-Length"))
        else
          with_state touch_activity ;;;
          if negb (route_mode_allowed (host_mode s) segments) then
            with_resp (error 404 (lit "no route in this server mode: " ++ method ++ lit " " ++ path))
          else
            with_state (touch_scoped segments) ;;;
            dispatch method path (route_of method segments)
    end.

End Server.

(** ** A connection *)

Section Connection.
Context {SJ : SerdeJson} {K : Kernel}.
Variable VERSION : str.

(** A request begins: a response on the same socket. *)
Definition begin_response (keep_alive : bool) (c : Ctx) : Ctx :=
  set_resp (response_new (writer (resp c)) keep_alive) c.

Definition refusal_status (e : io_error) : Z :=
  match err_kind e with
  | InvalidData => 400
  | TimedOut | WouldBlock => 408
  | _ => 0
  end.

(** What is left to do once [route] returned: whether the connection goes on. *)
Definition settle (result : result unit io_error) : io Ctx bool :=
  rw <- io_gets resp ;;
  keep_alive <- io_gets (fun c => keep_alive (request c)) ;;
  if hijacked rw then io_ret false
  else
    finished <- io_try (match result with Ok _ => with_resp finish | Err e => io_fail e end) ;;
    if negb (is_ok finished) then io_ret false
    else
      drained <- io_try (with_body drain_body) ;;
      io_ret (is_ok drained && keep_alive).

(** The loop of [handle_connection].  [env n] is what happens around the request
    when [n] iterations are left, [others n] what other connections did to the
    shared state before it. *)
Fixpoint connection_loop (n : nat) (env : nat -> Circumstances) (others : nat -> State -> State) : io Ctx unit :=
  match n with
  | O => io_fail fuel_error
  | S n' =>
      io_modify (fun c => set_state (others n' (state c)) c) ;;;
      ctx_host (hsys_ (ClientReadTimeout (Some HEAD_TIMEOUT))) ;;;
      got <- io_try (with_body (on_reader read_request)) ;;
      match got with
      | Ok None => io_ret tt
      | Err e =>
          if refusal_status e =? 0 then io_ret tt
          else
            io_modify (begin_response false) ;;;
            io_ignore (with_resp (error (refusal_status e) (err_text e)))
      | Ok (Some request) =>
          ctx_host (hsys_ (ClientReadTimeout (Some BODY_TIMEOUT))) ;;;
          io_modify (fun c => begin_response (keep_alive request) (set_request request c)) ;;;
          result <- io_try (route VERSION (env n')) ;;
          again <- settle result ;;
          if again : bool then connection_loop n' env others else io_ret tt
      end
  end.

(** The reader has a descriptor of its own.  The fuel is what the client sends. *)
Definition handle_connection (env : nat -> Circumstances) (others : nat -> State -> State) : io Ctx unit :=
  ctx_host (hsys_ ClientNodelay) ;;;
  ctx_host (hsys_ (ClientReadTimeout (Some HEAD_TIMEOUT))) ;;;
  ctx_host (hsys_ (ClientWriteTimeout (Some WRITE_TIMEOUT))) ;;;
  read_half <- io_try (ctx_host (hsys ClientClone)) ;;
  match read_half with
  | Err _ => io_ret tt
  | Ok fd =>
      fuel <- io_gets (fun c => S (rd_size (reader c))) ;;
      io_finally (connection_loop fuel env others) (ctx_host (close fd))
  end.

Definition turn_away : io Ctx unit :=
  ctx_host (hsys_ (ClientWriteTimeout (Some 5000))) ;;;
  with_resp (on_writer (io_ignore (write_all too_many_connections) ;;; io_ignore flush_writer)).

(** One turn of the accept loop, on the count of live connections and a fresh
    connection, with the thread that serves it: the slot is dropped when it ends. *)
Definition accept_stream (max : Z) (env : nat -> Circumstances) (others : nat -> State -> State) : io (Z * Ctx) unit :=
  granted <- (fun s => let '(granted, live) := acquire max s.1 in (Ok granted, (live, s.2))) ;;
  if (granted : bool) then
    io_finally (on_snd (handle_connection env others)) (io_modify (fun s => (release_slot s.1, s.2)))
  else on_snd turn_away.

End Connection.

(** ** Start-up *)

(** What [main] runs with, once it has read its environment and arguments. *)
Record Config : Type := mkConfig {
  port : Z;
  cfg_auth : Auth;
  idle_timeout_secs : option Z;
  cfg_capacity : Z;
  cfg_host_mode : bool;
  max_connections : Z;
  cfg_allow_unconfined : bool;
  min_abi : Z;
}.

Section Startup.
(** [std::env::var(name).ok()] and [std::env::args().skip(1)]. *)
Variables (var : str -> option str) (args : list str).

Definition env_number (parse : str -> option Z) (name : String.string) (default : Z) : result Z str :=
  match var (lit name) with
  | None => Ok default
  | Some raw => ok_or (parse raw) (lit "sbx-server: " ++ lit name ++ lit " is not a valid number")
  end.

Definition has_arg (flag : String.string) : bool := existsb (fun arg => eqs arg (lit flag)) args.

(** An [Err] is the message the process exits with. *)
Definition read_auth : result Auth str :=
  match var (lit "SBX_TOKEN") with
  | Some (c :: t) => Ok (Required (c :: t))
  | _ => if has_arg "--allow-no-auth" then Ok DisabledForDevelopment
         else Err (lit "sbx-server: SBX_TOKEN is required.")
  end.

Definition at_least_one (name : String.string) (n : Z) : result Z str :=
  if n =? 0 then Err (lit "sbx-server: " ++ lit name ++ lit " must be at least 1") else Ok n.

Definition read_config : result Config str :=
  let? port := env_number (parse_uint u16_max) "SBX_PORT" 8000 in
  let? auth := read_auth in
  let? idle := match var (lit "SBX_IDLE_TIMEOUT") with
               | None => Ok None
               | Some _ => let? n := env_number (parse_uint u64_max) "SBX_IDLE_TIMEOUT" 0 in Ok (Some n)
               end in
  let? capacity := env_number (parse_uint u64_max) "SBX_CAPACITY" 64 in
  let? capacity := at_least_one "SBX_CAPACITY" capacity in
  let host_mode := match var (lit "SBX_HOST_MODE") with Some v => eqs v (lit "1") | None => false end in
  let? max_connections := env_number (parse_uint u64_max) "SBX_MAX_CONNECTIONS" 512 in
  let? max_connections := at_least_one "SBX_MAX_CONNECTIONS" max_connections in
  let allow_unconfined := has_arg "--allow-unconfined" in
  let? min_abi := env_number (parse_int i32_min i32_max) "SBX_MIN_LANDLOCK_ABI" FULL_ABI in
  Ok {| port := port; cfg_auth := auth; idle_timeout_secs := idle; cfg_capacity := capacity;
        cfg_host_mode := host_mode; max_connections := max_connections;
        cfg_allow_unconfined := allow_unconfined; min_abi := min_abi |}.

Context {SJ : SerdeJson} {K : Kernel}.

(** The process ends, with this status; or goes on. *)
Inductive started : Type := Exits (code : Z) | Serving (s : State) (config : Config).

Definition initial_state (config : Config) : io Host State :=
  started_at <- hnow ;;
  active_at <- hnow ;;
  registry <- registry_new (cfg_capacity config) (cfg_allow_unconfined config) ;;
  h <- io_get ;;
  io_ret (mkState (cfg_auth config) started_at active_at (mkProcRegistry [] 0 0 ∅ ∅ 0) registry
            (cfg_host_mode config) h).

(** [main] up to the accept loop, [bound] being whether the port could be bound. *)
Definition start (bound : bool) : io Host started :=
  match read_config with
  | Err _ => io_ret (Exits 1)
  | Ok config =>
      hsys_ (RemoveVar (lit "SBX_TOKEN")) ;;;
      hsys_ (Prctl PR_SET_CHILD_SUBREAPER 1) ;;;
      s <- initial_state config ;;
      if negb bound then io_ret (Exits 1)
      else
        landlock_ok <- available ;;
        abi <- abi ;;
        if cfg_host_mode config && (abi <? min_abi config) && negb (cfg_allow_unconfined config) then io_ret (Exits 1)
        else
          (if cfg_host_mode config && landlock_ok then io_ignore system_dir_rules else io_ret tt) ;;;
          h <- io_get ;;
          io_ret (Serving (set_host h s) config)
  end.
End Startup.

(** ** The idle watchdog *)

Section Watchdog.
Context {SJ : SerdeJson} {K : Kernel}.

Definition evict (id : str) : io State unit :=
  busy <- io_gets (fun s => negb ((running_count_for id (proc_registry s) =? 0) && (active_ops (proc_registry s) =? 0))) ;;
  if busy : bool then io_ret tt
  else
    with_sandboxes (delete id) ;;;
    forget_processes id.

Fixpoint evict_all (ids : list str) : io State unit :=
  match ids with
  | [] => io_ret tt
  | id :: rest => evict id ;;; evict_all rest
  end.

Definition idle_ms (idle_secs : Z) : Z := wrap_i64 (wrap_u64 (idle_secs * 1000)).

(** One turn of the loop, after its sleep: the process exits with status 0, or the
    next turn starts from the new [empty_since]. *)
Definition watchdog_tick (idle_ms empty_since : Z) : io State (option Z) :=
  now <- with_host hnow ;;
  host_mode <- io_gets host_mode ;;
  if host_mode : bool then
    candidates <- io_gets (fun s => idle_candidates now (sandboxes s)) ;;
    evict_all candidates ;;;
    n <- io_gets (fun s => count (sandboxes s)) ;;
    if negb (n =? 0) then io_ret (Some now)
    else if idle_ms <? wrap_i64 (now - empty_since) then io_ret None
    else io_ret (Some empty_since)
  else
    quiet_ms <- io_gets (fun s => wrap_i64 (now - last_activity_ms s)) ;;
    busy <- io_gets (fun s => wrap_u64 (running_count (proc_registry s) + active_ops (proc_registry s))) ;;
    if (idle_ms <? quiet_ms) && (busy =? 0) then io_ret None else io_ret (Some empty_since).
End Watchdog.
