(* ===== verification/ServerFacts.v ===== *)
(** * The server: credentials, routes, limits, start-up and the watchdog *)

From Stdlib Require Import Relations.Relation_Operators.
From S2P Require Import Prelude RustStd StrFacts Json Net Wp Http HttpResponse Kernel Sim Host Landlock Paths.
From S2P Require Import State Samples Uids Sandboxes Exec Files Proxy SandboxHandlers Server.

#[local] Arguments endpoint_of : simpl never.

(** ** The constant-time comparison *)

Lemma lor_fold l acc :
  fold_left (fun acc (xy : ascii * ascii) => Z.lor acc (Z.lxor (byte xy.1) (byte xy.2))) l acc = 0
  <-> acc = 0 /\ Forall (fun xy => xy.1 = xy.2) l.
Proof.
  revert acc. induction l as [|[x y] l IH]; intros acc; simpl.
  { split; [by intros ->|by intros [-> _]]. }
  rewrite IH, Z.lor_eq_0_iff, Z.lxor_eq_0_iff, Forall_cons. simpl. split.
  - intros [[-> He] Hl]. split_and!; [done| |done]. rewrite <- (chr_byte x), <- (chr_byte y). by rewrite He.
  - by intros (-> & -> & Hl).
Qed.

Lemma zip_same (a b : str) : length a = length b -> Forall (fun xy => xy.1 = xy.2) (zip a b) <-> a = b.
Proof.
  revert b. induction a as [|x a IH]; intros [|y b] Hl; simplify_eq/=; [by split|].
  rewrite Forall_cons, IH by done. simpl. split; [by intros [-> ->]|by intros [= -> ->]].
Qed.

Lemma ct_eq_true a b : ct_eq a b = true <-> a = b.
Proof.
  unfold ct_eq. destruct (Nat.eqb_spec (length a) (length b)) as [Hl|Hl]; simpl.
  - rewrite Z.eqb_eq, lor_fold, zip_same by done. by split; [intros [_ ?]|].
  - split; [done|]. by intros ->.
Qed.

(** ** Who may do what *)

Section Auth.
Context {SJ : SerdeJson} {K : Kernel} (VERSION : str) (env : Circumstances).

(** The server's token, or that of some sandbox. *)
Definition holds_credential (s : State) (provided : option str) : Prop :=
  accepts (auth s) provided = true
  \/ exists id entry, sandbox_map (sandboxes s) !! id = Some entry /\ provided = Some (token entry).

(** The credential a route asks for, in the mode that has the route. *)
Definition entitled (s : State) (provided : option str) (r : Route) : Prop :=
  match r with
  | Dedicated _ => host_mode s = false /\ accepts (auth s) provided = true
  | SandboxCreate | SandboxList | SandboxDeleteAll | SandboxToken _ =>
      host_mode s = true /\ accepts (auth s) provided = true
  | InSandbox id _ | SandboxDelete id =>
      host_mode s = true /\ exists entry, sandbox_map (sandboxes s) !! id = Some entry /\ provided = Some (token entry)
  | NoRoute => holds_credential s provided
  end.

Lemma seg_is_true s t : seg_is s t = true <-> s = lit t.
Proof. apply eqs_true. Qed.

(** What the routes of one sandbox look like. *)
Lemma route_of_shape method segs :
  match route_of method segs with
  | Dedicated _ => exists b rest, segs = lit "v1" :: b :: rest /\ b <> lit "sandboxes"
  | SandboxCreate | SandboxList | SandboxDeleteAll => segs = [lit "v1"; lit "sandboxes"]
  | SandboxToken id => segs = [lit "v1"; lit "sandboxes"; id; lit "token"]
  | InSandbox id _ | SandboxDelete id => exists rest, segs = lit "v1" :: lit "sandboxes" :: id :: rest
      /\ rest <> [lit "token"]
  | NoRoute => True
  end.
Proof.
  unfold route_of. destruct segs as [|v1 tail]; [done|].
  destruct (seg_is v1 "v1") eqn:Hv; simpl; [|done]. apply seg_is_true in Hv as ->.
  destruct tail as [|sb rest]; [done|].
  destruct (seg_is sb "sandboxes") eqn:Hs; simpl.
  - apply seg_is_true in Hs as ->. destruct rest as [|id [|b below]].
    + by destruct (seg_is method "POST"), (seg_is method "GET"), (seg_is method "DELETE").
    + destruct (seg_is method "DELETE"); [|done]. by exists [].
    + case_bool_decide as Hb; [rewrite Hb|]; destruct (seg_is method "GET") eqn:Hm; cbn [andb]; try done.
      * assert (Hend : forall e, endpoint_of method [lit "token"] <> Some e).
        { intros e. unfold endpoint_of. destruct (seg_is method "POST"), (seg_is method "GET"); discriminate. }
        destruct (endpoint_of method [lit "token"]) eqn:He; [by destruct (Hend e)|done].
      * destruct (endpoint_of _ _); [|done]. by exists (b :: below).
      * destruct (endpoint_of _ _); [|done]. by exists (b :: below).
  - destruct (endpoint_of method (sb :: rest)); [|done]. exists sb, rest. split; [done|].
    intros Hsb. apply seg_is_true in Hsb. congruence.
Qed.

(** A route of one sandbox asks for that sandbox's token. *)
Lemma host_route_sandbox id rest : rest <> [lit "token"] ->
  host_route_auth (lit "v1" :: lit "sandboxes" :: id :: rest) = SandboxRoute id.
Proof.
  intros Hr. destruct rest as [|tk [|x rest]]; try reflexivity. cbn [host_route_auth].
  destruct (seg_is tk "token") eqn:Ht; [|done]. apply seg_is_true in Ht as ->. done.
Qed.

Lemma authorize_holds s provided segs : authorize s provided segs <> None -> holds_credential s provided.
Proof.
  unfold authorize, holds_credential. destruct (accepts (auth s) provided); [by left|]. intros H. right.
  destruct (negb (host_mode s)); [done|]. destruct (host_route_auth segs) as [|id|]; [done| |done].
  unfold Sandboxes.get in H. destruct (sandbox_map (sandboxes s) !! id) as [entry|] eqn:Hi; [|done].
  exists id, entry. split; [done|]. destruct provided as [p|]; [|done]. unfold classify_scoped_token in H.
  destruct (ct_eq p (token entry)) eqn:Hc; [|done]. apply ct_eq_true in Hc. by rewrite Hc.
Qed.

Lemma authorize_entitled s provided method segs :
  authorize s provided segs <> None -> route_mode_allowed (host_mode s) segs = true ->
  entitled s provided (route_of method segs).
Proof.
  intros Ha Hm. pose proof (route_of_shape method segs) as Hshape.
  assert (Hman : host_route_auth segs = Management \/ host_mode s = false ->
    authorize s provided segs <> None -> accepts (auth s) provided = true).
  { unfold authorize. intros H H'. destruct (accepts (auth s) provided); [done|]. exfalso.
    destruct H as [H|H]; rewrite H in H'; [by destruct (host_mode s)|done]. }
  assert (Hown : forall id rest, segs = lit "v1" :: lit "sandboxes" :: id :: rest -> rest <> [lit "token"] ->
    host_mode s = true /\ exists entry, sandbox_map (sandboxes s) !! id = Some entry /\ provided = Some (token entry)).
  { intros id rest -> Hr. apply eqb_prop in Hm. change (host_mode s = true) in Hm. split; [done|].
    unfold authorize in Ha. rewrite Hm in Ha. cbn [negb] in Ha.
    rewrite host_route_sandbox in Ha by done. unfold Sandboxes.get in Ha.
    destruct (sandbox_map (sandboxes s) !! id) as [entry|]; [|done]. exists entry. split; [done|].
    destruct provided as [p|]; [|done]. unfold classify_scoped_token in Ha.
    destruct (ct_eq p (token entry)) eqn:Hc; [|done]. apply ct_eq_true in Hc. by rewrite Hc. }
  destruct (route_of method segs) as [e| | | |id|id|id e|]; simpl; try by eapply authorize_holds.
  all: try (subst segs; apply eqb_prop in Hm; change (host_mode s = true) in Hm; split; [done|]; apply Hman; [by left|done]).
  - destruct Hshape as (b & rest & -> & Hb). unfold route_mode_allowed in Hm.
    assert (Hn : seg_is b "sandboxes" = false).
    { destruct (seg_is b "sandboxes") eqn:E; [|done]. by apply seg_is_true in E. }
    rewrite Hn, andb_false_r in Hm. apply eqb_prop in Hm. split; [done|]. apply Hman; [by right|done].
  - destruct Hshape as (rest & Hs & Hr). by eapply Hown.
  - destruct Hshape as (rest & Hs & Hr). by eapply Hown.
Qed.

(** And whoever is entitled to a route is let in. *)
Lemma entitled_authorize s provided method segs :
  route_of method segs <> NoRoute -> entitled s provided (route_of method segs) -> authorize s provided segs <> None.
Proof.
  intros Hn He. pose proof (route_of_shape method segs) as Hshape.
  assert (Hman : accepts (auth s) provided = true -> host_mode s = false \/ host_route_auth segs = Management ->
    authorize s provided segs <> None).
  { unfold authorize. intros -> [->| ->]; [done|]. by destruct (negb (host_mode s)). }
  assert (Hown : forall id rest, segs = lit "v1" :: lit "sandboxes" :: id :: rest -> rest <> [lit "token"] ->
    host_mode s = true /\ (exists entry, sandbox_map (sandboxes s) !! id = Some entry /\ provided = Some (token entry)) ->
    authorize s provided segs <> None).
  { intros id rest -> Hr (Hh & entry & Hi & ->). unfold authorize, Sandboxes.get. rewrite Hh, host_route_sandbox, Hi by done.
    cbn [negb]. unfold classify_scoped_token. by rewrite (proj2 (ct_eq_true _ _) eq_refl). }
  destruct (route_of method segs) as [e| | | |id|id|id e|]; simpl in He; try done; try (subst segs; apply Hman; [apply He|by right]).
  - apply Hman; [apply He|left; apply He].
  - destruct Hshape as (rest & Hs & Hr). by eapply Hown.
  - destruct Hshape as (rest & Hs & Hr). by eapply Hown.
Qed.

Definition provided_token (c : Ctx) : option str := header (request c) (lit "x-sandbox-token").

(** What a request may have changed before its handler runs: not the sandboxes, not
    the processes, not the credentials. *)
Definition same_tenants (s s' : State) : Prop :=
  sandbox_map (sandboxes s') = sandbox_map (sandboxes s) /\ proc_registry s' = proc_registry s
  /\ auth s' = auth s /\ host_mode s' = host_mode s.

Lemma same_tenants_refl s : same_tenants s s.
Proof. done. Qed.
Lemma same_tenants_trans s1 s2 s3 : same_tenants s1 s2 -> same_tenants s2 s3 -> same_tenants s1 s3.
Proof. unfold same_tenants. intros (?&?&?&?) (?&?&?&?). split_and!; congruence. Qed.

Lemma entitled_same s s' p r : same_tenants s s' -> entitled s p r -> entitled s' p r.
Proof.
  intros (H1 & H2 & H3 & H4). unfold entitled, holds_credential. rewrite H1, H3, H4. done.
Qed.

Lemma touch_activity_same s : wp touch_activity s (fun _ s' => same_tenants s s').
Proof.
  unfold touch_activity. apply wp_bind, wp_lens, wp_intro. intros [t|e] h _; [|done].
  by apply wp_modify.
Qed.

Lemma touch_scoped_same segs s : wp (touch_scoped segs) s (fun _ s' => same_tenants s s').
Proof.
  unfold touch_scoped. destruct segs as [|a [|b [|id rest]]]; try by apply wp_ret.
  destruct (_ && _); [|by apply wp_ret]. unfold with_sandboxes. apply wp_lens.
  unfold touch. apply wp_bind, wp_gets. destruct (Sandboxes.get _ _) as [entry|]; [|by apply wp_ret].
  apply wp_bind, wp_lens, wp_intro. intros [t|e] h _; [|done]. by apply wp_modify.
Qed.

Lemma health_same s : wp (authenticated_health VERSION) s (fun _ s' => same_tenants s s').
Proof.
  unfold authenticated_health. apply wp_bind, wp_lens, wp_intro. intros [t|e] h _; [|done].
  apply wp_bind, wp_lens, wp_intro. intros [a|e] h' _; [|done].
  apply wp_bind, wp_get, wp_ret. done.
Qed.

Lemma with_state_run {A B} (m : io State A) (k : A -> io Ctx B) c :
  io_bind (with_state m) k c = match m (state c) with
    | (Ok a, s1) => k a (set_state s1 c) | (Err e, s1) => (Err e, set_state s1 c) end.
Proof. unfold io_bind, with_state, io_lens. by destruct (m (state c)) as [[a|e] s1]. Qed.

(** The fixed replies of [route], each with what it says of the request [q] that a
    server in state [s] gives it to: anyone may learn that the server lives and what
    it speaks; the details, and which routes exist, are for holders of a credential;
    and nobody is turned away from a route they are entitled to. *)
Inductive fixed_answer (s : State) (q : Request) : Z -> Value Number -> Prop :=
| answer_health : path q = lit "/health" ->
    fixed_answer s q 200 (jobj [("status", VString (lit "ok")); ("protocol", jint PROTOCOL)]%string)
| answer_detail v s1 : path q = lit "/health" -> accepts (auth s) (header q (lit "x-sandbox-token")) = true ->
    authenticated_health VERSION s = (Ok v, s1) -> fixed_answer s q 200 v
| answer_forbidden r : route_of (method q) (path_segments (path q)) = r ->
    (r <> NoRoute -> ~ entitled s (header q (lit "x-sandbox-token")) r) ->
    fixed_answer s q 403 (jobj [("error", VString (lit "invalid or missing X-Sandbox-Token"))]%string)
| answer_chunked : holds_credential s (header q (lit "x-sandbox-token")) ->
    header q (lit "transfer-encoding") <> None ->
    fixed_answer s q 411 (jobj [("error", VString (lit "chunked request bodies not supported; send Content-Length"))]%string)
| answer_mode : holds_credential s (header q (lit "x-sandbox-token")) ->
    fixed_answer s q 404
      (jobj [("error", VString (lit "no route in this server mode: " ++ method q ++ lit " " ++ path q))]%string).

(** C1: no request gets further than its credential allows: whatever it says, [route]
    either answers it with one fixed reply, sandboxes, processes and credentials as
    they were (the public health, its details for the server's token, 403, and for
    holders of a credential 411 and 404, the texts spelled out), or runs the handler
    of a route the request is entitled to: in dedicated mode with the server's token;
    in host mode never a handler of the dedicated surface, the pool's management and
    the recovery of tokens only with the server's token, and a sandbox's own routes
    only with that sandbox's token.  A 403 is never given for an entitled request. *)
Theorem route_entitled c :
  (exists status v c1, fixed_answer (state c) (request c) status v
     /\ same_tenants (state c) (state c1) /\ resp c1 = resp c
     /\ route VERSION env c = with_resp (json status v) c1)
  \/ (exists e c1, same_tenants (state c) (state c1) /\ resp c1 = resp c /\ route VERSION env c = (Err e, c1))
  \/ (exists r c1, same_tenants (state c) (state c1) /\ request c1 = request c
        /\ entitled (state c1) (provided_token c) r
        /\ route VERSION env c = dispatch env (method (request c)) (path (request c)) r c1).
Proof.
  unfold route. rewrite !io_bind_gets.
  set (q := request c). set (s := state c).
  destruct (seg_is (method q) "GET" && seg_is (path q) "/health") eqn:Hh.
  { apply andb_prop in Hh as [_ Hh%seg_is_true]. destruct (authorized s q) eqn:Ha; cbn [negb].
    - pose proof (health_same s) as Hs. unfold wp in Hs.
      rewrite with_state_run. fold s. destruct (authenticated_health VERSION s) as [[v|e] s1] eqn:Hd.
      + left. exists 200, v, (set_state s1 c). split_and!; [by eapply answer_detail|done..].
      + right; left. by exists e, (set_state s1 c).
    - left. exists 200, public_health, c. split_and!; [by apply answer_health|done..]. }
  destruct (authorize s (header q (lit "x-sandbox-token")) (path_segments (path q))) as [sc|] eqn:Ha.
  2:{ left. unfold error. eexists 403, _, c. split_and!; [|done..]. eapply answer_forbidden; [done|].
      intros Hn He. by apply entitled_authorize in He. }
  assert (Hcred : holds_credential s (header q (lit "x-sandbox-token"))) by (eapply authorize_holds; by rewrite Ha).
  case_bool_decide as Hte.
  { left. unfold error. eexists 411, _, c. split_and!; [|done..]. apply answer_chunked; [done|]. by destruct Hte as [? ->]. }
  pose proof (touch_activity_same s) as Hs. unfold wp in Hs.
  rewrite with_state_run. fold s. destruct (touch_activity s) as [[[]|e] s1]; cbn [fst snd] in Hs.
  2:{ right; left. by exists e, (set_state s1 c). }
  destruct (route_mode_allowed (host_mode s) (path_segments (path q))) eqn:Hm; cbn [negb].
  2:{ left. unfold error. eexists 404, _, (set_state s1 c). split_and!; [by apply answer_mode|done..]. }
  pose proof (touch_scoped_same (path_segments (path q)) s1) as Hs2. unfold wp in Hs2.
  rewrite with_state_run. cbn [state set_state].
  destruct (touch_scoped (path_segments (path q)) s1) as [[[]|e] s2]; cbn [fst snd] in Hs2.
  2:{ right; left. exists e, (set_state s2 c). split; [|done]. exact (same_tenants_trans _ _ _ Hs Hs2). }
  pose proof (same_tenants_trans _ _ _ Hs Hs2) as Hsame.
  right; right. exists (route_of (method q) (path_segments (path q))), (set_state s2 c).
  split_and!; [done|done| |done]. apply (entitled_same s); [done|].
  apply authorize_entitled; [unfold provided_token; fold q; by rewrite Ha|done].
Qed.
End Auth.

(** ** The connection limit *)

(** The counter, the connections that hold a slot, and whether the accept loop is
    between the two operations of a refused [acquire]. *)
Record slots : Type := mkSlots {
  live : Z;
  holders : Z;
  refusing : bool;
}.

(** Only the accept loop acquires; connections end at any time. *)
Inductive slot_step (max : Z) : slots -> slots -> Prop :=
| slot_granted s n : refusing s = false -> try_add max (live s) = (true, n) ->
    slot_step max s (mkSlots n (holders s + 1) false)
| slot_refused s n : refusing s = false -> try_add max (live s) = (false, n) ->
    slot_step max s (mkSlots n (holders s) true)
| slot_undone s : refusing s = true ->
    slot_step max s (mkSlots (release_slot (live s)) (holders s) false)
| slot_dropped s : 0 < holders s ->
    slot_step max s (mkSlots (release_slot (live s)) (holders s - 1) (refusing s)).

Definition slots_ok (max : Z) (s : slots) : Prop :=
  0 <= holders s <= max /\ live s = wrap_u64 (holders s + if refusing s then 1 else 0).

Lemma wrap_add a b : wrap_u64 (wrap_u64 a + b) = wrap_u64 (a + b).
Proof. unfold wrap_u64. apply Zplus_mod_idemp_l. Qed.

Lemma slot_step_ok max s s' : max <= u64_max -> slots_ok max s -> slot_step max s s' -> slots_ok max s'.
Proof.
  intros Hmax [Hh Hl] Hs. destruct Hs as [s n Hr Ha|s n Hr Ha|s Hr|s Hp]; unfold slots_ok; simpl;
    unfold try_add, release_slot in *; rewrite ?Hr in *; simplify_eq; rewrite Hl.
  - split; [|by rewrite wrap_add, !Z.add_0_r].
    match goal with H : negb _ = true |- _ => apply negb_true_iff, Z.leb_gt in H end.
    unfold wrap_u64 in *. rewrite Hl, Z.mod_small in * by (unfold u64_max in *; lia). lia.
  - split; [done|]. by rewrite wrap_add, Z.add_0_r.
  - split; [done|]. unfold Z.sub. rewrite wrap_add. f_equal. lia.
  - split; [lia|]. unfold Z.sub. rewrite wrap_add. f_equal. lia.
Qed.

(** C28: at most [max] connections are served at a time, under every interleaving of
    accepts and ends of connections; and whenever the accept loop is not in the
    middle of a refusal the counter is the number of connections served, so none is
    refused while a slot is free. *)
Theorem connections_bounded max s :
  0 <= max <= u64_max -> clos_refl_trans_1n _ (slot_step max) (mkSlots 0 0 false) s ->
  0 <= holders s <= max
  /\ (refusing s = false -> live s = holders s /\ (acquire max (live s)).1 = bool_decide (holders s < max)).
Proof.
  intros Hmax Hs. assert (Hok : slots_ok max s).
  { assert (H0 : slots_ok max (mkSlots 0 0 false)) by (split; simpl; [lia|done]).
    revert H0. induction Hs as [|s0 s1 s2 H1 _ IH]; [done|]. intros H0. apply IH.
    eapply slot_step_ok; [apply Hmax|exact H0|done]. }
  destruct Hok as [Hh Hl]. split; [done|]. intros Hr. rewrite Hr in Hl.
  assert (Hlive : live s = holders s).
  { rewrite Hl. unfold wrap_u64. rewrite Z.mod_small; unfold u64_max in *; lia. }
  split; [done|]. rewrite Hlive. unfold acquire, try_add. case_bool_decide as Hb.
  - by rewrite (proj2 (Z.leb_gt _ _)).
  - by rewrite (proj2 (Z.leb_le _ _)) by lia.
Qed.

Lemma connections_bounded_witness :
  exists s, clos_refl_trans_1n _ (slot_step 1) (mkSlots 0 0 false) s /\ refusing s = true /\ 0 <= holders s <= 1.
Proof.
  assert (Hs : clos_refl_trans_1n _ (slot_step 1) (mkSlots 0 0 false) (mkSlots 2 1 true)).
  { eapply rt1n_trans; [by apply (slot_granted 1 _ 1)|]. eapply rt1n_trans; [by apply (slot_refused 1 _ 2)|]. apply rt1n_refl. }
  eexists. split; [exact Hs|]. split; [done|]. exact (proj1 (connections_bounded 1 _ ltac:(unfold u64_max; lia) Hs)).
Defined.

(** ** Start-up *)

Section Start.
Context {SJ : SerdeJson} {K : Kernel} (var : str -> option str) (args : list str).

Lemma has_arg_true flag : has_arg args flag = true <-> lit flag ∈ args.
Proof.
  unfold has_arg. rewrite existsb_exists. split.
  - intros (x & Hx & ->%eqs_true). by apply list_elem_of_In.
  - intros H. exists (lit flag). split; [by apply list_elem_of_In|apply eqs_refl].
Qed.

(** What is true of a configuration [main] goes on with. *)
Definition config_ok (config : Config) : Prop :=
  match cfg_auth config with
  | Required t => t <> [] /\ var (lit "SBX_TOKEN") = Some t
  | DisabledForDevelopment => lit "--allow-no-auth" ∈ args /\ default [] (var (lit "SBX_TOKEN")) = []
  end
  /\ (cfg_allow_unconfined config = true <-> lit "--allow-unconfined" ∈ args)
  /\ 0 <= port config <= u16_max /\ 1 <= cfg_capacity config <= u64_max /\ 1 <= max_connections config <= u64_max
  /\ (var (lit "SBX_MIN_LANDLOCK_ABI") = None -> min_abi config = FULL_ABI).

Lemma env_number_range max name d n :
  0 <= d <= max -> env_number var (parse_uint max) name d = Ok n -> 0 <= n <= max.
Proof.
  unfold env_number. intros Hd. destruct (var (lit name)) as [raw|]; [|intros [= <-]; lia].
  unfold ok_or. destruct (parse_uint max raw) eqn:E; [|done]. intros [= <-]. by apply parse_uint_range in E.
Qed.

Lemma at_least_one_ok name n m : at_least_one name n = Ok m -> m = n /\ n <> 0.
Proof. unfold at_least_one. destruct (Z.eqb_spec n 0); [done|]. by intros [= <-]. Qed.

Lemma read_config_ok config : read_config var args = Ok config -> config_ok config.
Proof.
  unfold read_config. intros H.
  destruct (env_number _ _ "SBX_PORT" _) as [port|] eqn:Hport; [|done].
  destruct (read_auth _ _) as [auth|] eqn:Hauth; [|done].
  destruct (match var (lit "SBX_IDLE_TIMEOUT") with Some _ => _ | None => _ end) as [idle|]; [|done].
  destruct (env_number _ _ "SBX_CAPACITY" _) as [cap0|] eqn:Hcap; [|done].
  destruct (at_least_one "SBX_CAPACITY" cap0) as [cap|] eqn:Hc1; [|done].
  destruct (env_number _ _ "SBX_MAX_CONNECTIONS" _) as [con0|] eqn:Hcon; [|done].
  destruct (at_least_one "SBX_MAX_CONNECTIONS" con0) as [con|] eqn:Hc2; [|done].
  destruct (env_number _ _ "SBX_MIN_LANDLOCK_ABI" _) as [abi|] eqn:Habi; [|done].
  injection H as <-. unfold config_ok. simpl.
  apply env_number_range in Hport, Hcap, Hcon; try (unfold u16_max, u64_max; lia).
  apply at_least_one_ok in Hc1 as [-> Hc1], Hc2 as [-> Hc2].
  split_and!; try lia.
  - unfold read_auth in Hauth. destruct (var (lit "SBX_TOKEN")) as [[|c t]|] eqn:Ht.
    + destruct (has_arg args "--allow-no-auth") eqn:Ha; [|done]. injection Hauth as <-. by apply has_arg_true in Ha.
    + by injection Hauth as <-.
    + destruct (has_arg args "--allow-no-auth") eqn:Ha; [|done]. injection Hauth as <-. by apply has_arg_true in Ha.
  - apply has_arg_true.
  - intros Hv. unfold env_number in Habi. rewrite Hv in Habi. by injection Habi as <-.
Qed.

Lemma initial_state_ok {L : Kernel} config h s h' :
  initial_state (K:=L) config h = (Ok s, h') ->
  auth s = cfg_auth config /\ host_mode s = cfg_host_mode config /\ capacity (sandboxes s) = cfg_capacity config
  /\ allow_unconfined (sandboxes s) = cfg_allow_unconfined config /\ sandbox_map (sandboxes s) = ∅
  /\ procs (proc_registry s) = [].
Proof.
  unfold initial_state. intros H.
  apply io_bind_ok in H as (t1 & h1 & _ & H). apply io_bind_ok in H as (t2 & h2 & _ & H).
  apply io_bind_ok in H as (r & h3 & Hr & H). apply io_bind_ok in H as (h4 & h5 & _ & H). injection H as <- <-.
  unfold registry_new in Hr. apply io_bind_ok in Hr as (u & h6 & _ & Hr). injection Hr as <- <-. done.
Qed.

(** *** The version of Landlock that start-up has found *)

#[local] Create HintDb abi.

(** Code that makes calls but leaves [ABI] alone. *)
Definition abi_kept {A} (m : io (@Host (Traced K)) A) : Prop :=
  forall h, wp m h (fun _ h' => extends (fun _ => True) h h' /\ ABI h' = ABI h).

Lemma abi_kept_pure {A} (m : io (@Host (Traced K)) A) :
  (forall h, trace (m h).2 = trace h /\ ABI (m h).2 = ABI h) -> abi_kept m.
Proof. intros Hm h. destruct (Hm h) as [Ht Ha]. split; [exists []; by rewrite Ht, app_nil_r|exact Ha]. Qed.
Lemma abi_kept_bind {A B} (m : io (@Host (Traced K)) A) (k : A -> io (@Host (Traced K)) B) :
  abi_kept m -> (forall a, abi_kept (k a)) -> abi_kept (io_bind m k).
Proof.
  intros Hm Hk h. apply wp_bind. eapply wp_mono; [apply Hm|]. intros [a|e] h1 [H1 E1]; [|done].
  eapply wp_mono; [apply Hk|]. intros r h2 [H2 E2]. split; [by etrans|congruence].
Qed.
Lemma abi_kept_call (c : call) : abi_kept (hsys c).
Proof. intros h. apply (wp_hsys c). intros r w. split; [by apply extends_after|done]. Qed.
Lemma abi_kept_call_ (c : call) : abi_kept (hsys_ c).
Proof. intros h. apply (wp_hsys_ c). intros r w. split; [by apply extends_after|done]. Qed.
Lemma abi_kept_clock : abi_kept hnow.
Proof.
  intros h. destruct (clock_calls h) as (now & h' & E & (evs & Ht & _) & _). unfold wp. rewrite E.
  split; [exists evs; by rewrite Forall_forall|]. unfold hnow, on_world, io_lens in E.
  destruct (now_ms (world h)). by injection E as _ <-.
Qed.
Lemma abi_kept_try {A} (m : io (@Host (Traced K)) A) : abi_kept m -> abi_kept (io_try m).
Proof. intros Hm h. apply wp_try, Hm. Qed.
Hint Resolve abi_kept_call abi_kept_call_ abi_kept_clock abi_kept_try : abi.
Ltac abi_kept :=
  repeat first [ solve [eauto with abi] | apply abi_kept_bind; [|intros ?]
    | solve [by apply abi_kept_pure] | progress case_match ].

Lemma registry_abi_kept cap allow : abi_kept (registry_new cap allow).
Proof.
  assert (Hread : forall path, abi_kept (read_to_string path)).
  { intros path. apply abi_kept_bind; [apply abi_kept_try, (abi_kept_call (ReadFile path))|intros a; by apply abi_kept_pure]. }
  assert (Hprocs : forall names, abi_kept (proc_statuses names)).
  { induction names as [|[name|e] names IH]; simpl; abi_kept. }
  unfold registry_new, uids_already_in_use, all_statuses. abi_kept.
Qed.

Lemma initial_abi_kept config : abi_kept (initial_state config).
Proof. unfold initial_state. pose proof (registry_abi_kept (cfg_capacity config) (cfg_allow_unconfined config)). abi_kept. Qed.

(** What the process takes for the version of a kernel that answers so. *)
Definition version_of (answer : result Z Z) : Z := match answer with Ok v => v | Err _ => -1 end.

(** [v] is the kernel's answer to a question asked after [h0], and cached. *)
Definition asked (h0 : @Host (Traced K)) (v : Z) (h : @Host (Traced K)) : Prop :=
  exists evs answer, trace h = trace h0 ++ evs /\ Kernel.Event LandlockAbi answer ∈ evs
    /\ v = version_of answer /\ ABI h = Some v.

Lemma cached_abi_asks h0 h :
  extends (fun _ => True) h0 h -> ABI h = None ->
  wp (@cached_abi (Traced K)) h (fun r h' => exists v, r = Ok v /\ asked h0 v h').
Proof.
  unfold wp, cached_abi. intros (evs & Ht & _) ->. destruct (syscall LandlockAbi (world h)) as [answer w] eqn:E.
  assert (Hw : w.2 = trace h ++ [Kernel.Event LandlockAbi answer]).
  { unfold trace. simpl in E. destruct (world h) as [w0 tr]. destruct (syscall LandlockAbi w0) as [r w1].
    by injection E as <- <-. }
  exists (version_of answer). destruct answer as [v|e]; simpl; (split; [done|]).
  all: eexists (evs ++ [_]), _; split_and!; [unfold trace at 1; simpl; by rewrite Hw, Ht, app_assoc
    |apply elem_of_app; right; left|done|done].
Qed.

Lemma cached_abi_again h0 v h :
  asked h0 v h -> wp (@cached_abi (Traced K)) h (fun r h' => r = Ok v /\ asked h0 v h').
Proof. intros Ha. pose proof Ha as (evs & answer & _ & _ & _ & Hv). unfold wp, cached_abi. by rewrite Hv. Qed.

Lemma asked_kept {A} h0 v (m : io (@Host (Traced K)) A) h :
  abi_kept m -> asked h0 v h -> wp m h (fun _ h' => asked h0 v h').
Proof.
  intros Hm (evs & answer & Ht & Hin & Hv & Ha). eapply wp_mono; [apply Hm|]. intros r h' [(evs' & Ht' & _) He].
  exists (evs ++ evs'), answer. split_and!; [by rewrite Ht', Ht, app_assoc|apply elem_of_app; auto|done|by rewrite He].
Qed.

Lemma system_rules_asked h0 v h :
  asked h0 v h -> wp (io_ignore (@system_dir_rules (Traced K))) h (fun _ h' => asked h0 v h').
Proof.
  assert (Hopen : forall dirs access rules, abi_kept (open_rules dirs access rules)).
  { induction dirs as [|dir dirs IH]; intros access rules; simpl; [by apply abi_kept_pure|].
    apply abi_kept_bind; [|intros fd; apply IH]. unfold open_o_path. case_match; [by apply abi_kept_pure|].
    apply abi_kept_bind; [apply abi_kept_try, (abi_kept_call (Open dir _ _))|intros a; by apply abi_kept_pure]. }
  intros Hh. unfold system_dir_rules. do 2 wp_step. apply wp_gets. destruct (RULES h); [done|].
  wp_step. eapply wp_mono; [by apply cached_abi_again|]. intros r h1 [-> H1].
  eapply asked_kept; [|exact H1]. do 4 (apply abi_kept_bind; [apply Hopen|intros ?]).
  apply abi_kept_bind; [by apply abi_kept_pure|intros; by apply abi_kept_pure].
Qed.

(** C27: the server fails closed: it serves only with a token of its own, unless an
    argument (which the environment cannot set) turned authentication off; it takes
    at least one sandbox and one connection; and in host mode it has asked the
    kernel for the version of Landlock (by default the full one is needed), and
    serves only if the answer is at least the version configured, unless an argument
    allowed unconfined sandboxes.  It starts with no sandbox.  ([ABI] is the
    static that caches the answer, unset when the process starts; no answer counts
    as -1.) *)
Theorem start_fails_closed bound h s config h' :
  ABI h = None -> start (K:=Traced K) var args bound h = (Ok (Serving s config), h') ->
  config_ok config /\ bound = true
  /\ auth s = cfg_auth config /\ host_mode s = cfg_host_mode config /\ capacity (sandboxes s) = cfg_capacity config
  /\ allow_unconfined (sandboxes s) = cfg_allow_unconfined config /\ sandbox_map (sandboxes s) = ∅
  /\ exists evs answer, trace h' = trace h ++ evs /\ Kernel.Event LandlockAbi answer ∈ evs
       /\ ABI h' = Some (version_of answer)
       /\ (host_mode s = true -> ~ lit "--allow-unconfined" ∈ args -> min_abi config <= version_of answer).
Proof.
  unfold start. intros Hnone H. destruct (read_config var args) as [cfg|] eqn:Hc; [|done].
  apply read_config_ok in Hc. apply io_bind_ok in H as ([] & h01 & Hr1 & H). apply io_bind_ok in H as ([] & h02 & Hr2 & H).
  apply io_bind_ok in H as (s0 & h1 & Hs0 & H).
  destruct (wp_run _ _ _ _ _ Hr1 (abi_kept_call_ _ h)) as [X1 E1]. destruct (wp_run _ _ _ _ _ Hr2 (abi_kept_call_ _ h01)) as [X2 E2].
  destruct (wp_run _ _ _ _ _ Hs0 (initial_abi_kept cfg h02)) as [X3 E3].
  apply initial_state_ok in Hs0 as (Ha & Hm & Hcap & Hu & Hmap & _).
  destruct bound; [|done]. cbn [negb] in H.
  apply io_bind_ok in H as (ok & h2 & Hav & H). apply io_bind_ok in H as (v & h3 & Hv & H).
  unfold available in Hav. apply io_bind_ok in Hav as (v0 & h2' & Hav & Hret). injection Hret as _ <-.
  destruct (wp_run _ _ _ _ _ Hav (cached_abi_asks h h1 ltac:(by etrans; [etrans|]) ltac:(congruence))) as (v1 & _ & A2).
  destruct (wp_run _ _ _ _ _ Hv (cached_abi_again h v1 h2' A2)) as [[= ->] A3].
  destruct (cfg_host_mode cfg && (v1 <? min_abi cfg) && negb (cfg_allow_unconfined cfg)) eqn:Hx; [done|].
  apply io_bind_ok in H as (u & h4 & Hrules & H). apply io_bind_ok in H as (h5 & h6 & [= <- <-] & H). injection H as <- <- <-.
  assert (A4 : asked h v1 h4).
  { destruct (cfg_host_mode cfg && ok); [exact (wp_run _ _ _ _ _ Hrules (system_rules_asked h v1 h3 A3))|by injection Hrules as _ <-]. }
  simpl. split_and!; try done. destruct A4 as (evs & answer & Ht & Hin & -> & Habi).
  exists evs, answer. split_and!; try done. rewrite Hm. intros Hhost Hno.
  destruct Hc as (_ & Hun & _). rewrite Hhost in Hx. cbn [andb] in Hx.
  destruct (cfg_allow_unconfined cfg) eqn:Hcu; [by destruct Hno; apply Hun|].
  rewrite andb_true_r in Hx. by apply Z.ltb_ge in Hx.
Qed.
End Start.

(** The variables of a pool host. *)
Definition pool_var (name : str) : option str :=
  if eqs name (lit "SBX_TOKEN") then Some (lit "secret")
  else if eqs name (lit "SBX_HOST_MODE") then Some (lit "1") else None.

Lemma start_fails_closed_witness :
  exists (s : @State Sample.sample (Traced sim)) config h' answer,
    start (K:=Traced sim) pool_var [] true (traced_host boot) = (Ok (Serving s config), h')
    /\ auth s = Required (lit "secret") /\ Kernel.Event LandlockAbi answer ∈ trace h' /\ min_abi config <= version_of answer.
Proof.
  destruct (start (SJ:=Sample.sample) (K:=Traced sim) pool_var [] true (traced_host boot)) as [r h'] eqn:E.
  assert (Hr : match r with Ok (Serving s config) => Some (auth s, host_mode s) | _ => None end
               = Some (Required (lit "secret"), true)).
  { change r with (r, h').1. rewrite <- E. vm_compute. reflexivity. }
  destruct r as [[code|s config]|e]; [discriminate| |discriminate]. injection Hr as Ha Hm.
  destruct (start_fails_closed pool_var [] true (traced_host boot) s config h' eq_refl E)
    as (_ & _ & _ & _ & _ & _ & _ & evs & answer & Ht & Hin & _ & H).
  exists s, config, h', answer. split; [reflexivity|]. split; [exact Ha|]. split.
  - rewrite Ht. exact Hin.
  - apply H; [exact Hm|]. apply not_elem_of_nil.
Defined.

(** ** The watchdog *)

Section Watchdog.
Context {SJ : SerdeJson} {K : Kernel}.

(** A process on the list whose exit has not been recorded. *)
Definition still_runs (reg : ProcRegistry) (p : Proc) : Prop :=
  p ∈ procs reg /\ forall info, exit_cells reg !! exit_cell p <> Some (Some info).

(** A sandbox with work: a background command of its own that runs, or any foreground
    command. *)
Definition works (id : str) (s : State) : Prop :=
  active_ops (proc_registry s) <> 0 \/ exists p, sandbox_id p = Some id /\ still_runs (proc_registry s) p.

(** Nothing of sandbox [id] has changed between two states. *)
Record spared (id : str) (s s' : State) : Prop := {
  spared_entry : sandbox_map (sandboxes s') !! id = sandbox_map (sandboxes s) !! id;
  spared_procs p : sandbox_id p = Some id -> p ∈ procs (proc_registry s) -> p ∈ procs (proc_registry s');
  spared_exits : exit_cells (proc_registry s') = exit_cells (proc_registry s);
  spared_active : active_ops (proc_registry s') = active_ops (proc_registry s);
}.

Lemma spared_refl id s : spared id s s.
Proof. by split. Qed.
Lemma spared_trans id s1 s2 s3 : spared id s1 s2 -> spared id s2 s3 -> spared id s1 s3.
Proof. intros [A1 B1 C1 D1] [A2 B2 C2 D2]. split; [congruence|auto|congruence|congruence]. Qed.
Lemma spared_works id s s' : spared id s s' -> works id s -> works id s'.
Proof.
  intros [_ Hp He Ha] [Hw|(p & Hid & Hin & Hx)]; [left; congruence|right]. exists p. unfold still_runs.
  rewrite He. auto.
Qed.

Lemma finished_exit reg p : is_finished reg p = true <-> exists info, exit_cells reg !! exit_cell p = Some (Some info).
Proof.
  unfold is_finished, exit_of. rewrite bool_decide_eq_true. destruct (exit_cells reg !! exit_cell p) as [[x|]|]; simpl; split; eauto.
  - by intros [? [=]].
  - by intros [? [=]].
  - by intros [? [=]].
  - by intros [? [=]].
Qed.

Lemma still_runs_unfinished reg p : still_runs reg p <-> p ∈ procs reg /\ is_finished reg p = false.
Proof.
  unfold still_runs. rewrite <- not_true_iff_false, finished_exit. split; (intros [Hin H]; split; [done|]).
  - intros [info Hx]. by apply (H info).
  - intros info Hx. apply H. eauto.
Qed.

Lemma no_length {A} (f : A -> bool) l : Z.of_nat (length (List.filter f l)) = 0 <-> forall x, x ∈ l -> f x = false.
Proof.
  destruct (List.filter f l) as [|y l'] eqn:E; simpl; split; try done; try lia.
  - intros _ x Hx. destruct (f x) eqn:Hf; [|done]. assert (Hin : In x (List.filter f l)).
    { apply filter_In. split; [by apply list_elem_of_In|done]. }
    by rewrite E in Hin.
  - intros Hall. assert (Hin : In y (List.filter f l)) by (rewrite E; by left). apply filter_In in Hin as [Hin Hf].
    apply list_elem_of_In in Hin. by rewrite Hall in Hf.
Qed.

(** Removal takes one entry from the map, and nothing else does. *)
Lemma delete_map id (rh : SandboxRegistry * @Host K) :
  wp (Sandboxes.delete id) rh (fun _ rh' => forall k, k <> id -> sandbox_map rh'.1 !! k = sandbox_map rh.1 !! k).
Proof.
  unfold Sandboxes.delete, update, remove_entry. destruct rh as [r h]. unfold wp, io_bind. simpl.
  set (r0 := set_map _ _).
  assert (Hr0 : forall k, k <> id -> sandbox_map r0 !! k = sandbox_map r !! k).
  { intros k Hk. unfold r0. simpl. by rewrite lookup_delete_ne. }
  destruct (sandbox_map r !! id) as [e|]; [|exact Hr0].
  assert (Hkeep : wp (teardown id e) (r0, h) (fun _ rh' => sandbox_map rh'.1 = sandbox_map r0)).
  { unfold teardown, change, quarantine_locked, release_locked, change. do 2 (wp_step; apply wp_modify; simpl).
    wp_step. unfold on_snd. wp_step. apply wp_intro. intros [b|x] h1 _; [|done]. simpl.
    do 3 wp_step. apply wp_intro. intros y h2 _. simpl. destruct b; simpl; [destruct y|]; wp_step; apply wp_modify; by apply wp_ret. }
  unfold wp in Hkeep. destruct (teardown id e (r0, h)) as [[x|x] [r1 h1]]; simpl in *; intros k Hk; rewrite Hkeep; by apply Hr0.
Qed.

Lemma evict_others id s : wp (evict id) s (fun _ s' => host_mode s' = host_mode s
  /\ (works id s -> s' = s) /\ forall k, k <> id -> spared k s s').
Proof.
  unfold evict. wp_step. apply wp_gets. destruct (negb _) eqn:Hb.
  { apply wp_ret. split_and!; [done|done|]. intros k _. apply spared_refl. }
  apply negb_false_iff, andb_prop in Hb as [H1%Z.eqb_eq H2%Z.eqb_eq].
  assert (Hidle : works id s -> False).
  { intros [Hw|(p & Hid & Hp)]; [done|]. unfold running_count_for in H1. rewrite no_length in H1.
    apply still_runs_unfinished in Hp as [Hin Hf]. specialize (H1 p Hin). rewrite bool_decide_eq_true_2 in H1 by done.
    by rewrite Hf in H1. }
  unfold with_sandboxes. wp_step. wp_step. eapply wp_mono; [apply delete_map|]. intros [o|x] [r h] Hmap; simpl in *.
  - unfold forget_processes, with_registry. apply wp_intro. intros x s2 Hrun. injection Hrun as _ <-.
    split_and!; [done|by intros ?%Hidle|]. intros k Hk. split; simpl; [by apply Hmap| |done|done].
    intros p Hid Hin. apply list_elem_of_In, filter_In. split; [by apply list_elem_of_In|].
    rewrite bool_decide_eq_false_2; [done|]. congruence.
  - split_and!; [done|by intros ?%Hidle|]. intros k Hk. split; simpl; [by apply Hmap|done..].
Qed.

Lemma evict_all_spares ids s : wp (evict_all ids) s (fun _ s' => host_mode s' = host_mode s
  /\ forall k, works k s \/ k ∉ ids -> spared k s s').
Proof.
  revert s. induction ids as [|id ids IH]; intros s; simpl.
  { apply wp_ret. split; [done|]. intros k _. apply spared_refl. }
  wp_step. eapply wp_mono; [apply evict_others|]. intros r s1 (Hm & Hw & Hs).
  assert (Hstep : forall k, works k s \/ k ∉ id :: ids -> spared k s s1).
  { intros k Hk. destruct (decide (k = id)) as [->|]; [|by apply Hs]. destruct Hk as [Hk|Hk]; [|set_solver].
    rewrite (Hw Hk). apply spared_refl. }
  destruct r as [[]|x]; [|done].
  eapply wp_mono; [apply IH|]. intros r' s2 [Hm2 Hs2]. split; [congruence|]. intros k Hk.
  eapply spared_trans; [by apply Hstep|]. apply Hs2. destruct Hk as [Hk|Hk]; [left|right; set_solver].
  eapply spared_works; [apply Hstep|]; auto.
Qed.

Lemma hnow_ok (h : @Host K) : exists now h', hnow h = (Ok now, h').
Proof. unfold hnow, on_world, io_lens, now_ms. destruct (syscall Clock (world h)) as [[t|e] w]; eauto. Qed.

(** C29: a turn of the watchdog does not stop work.  On a pool host it leaves a
    sandbox with a running background command (one on the process list with no exit
    recorded) alone, with its processes, and every sandbox while a foreground
    command runs; it only removes a sandbox that was idle for longer than its own
    timeout, by the clock as read at the start of the turn; and it exits only when
    no sandbox is left.  A dedicated server it stops only when no foreground command
    runs and every background command has exited. *)
Theorem watchdog_spares_work idle empty_since (s : State) r s' :
  0 <= active_ops (proc_registry s) ->
  Z.of_nat (length (procs (proc_registry s))) + active_ops (proc_registry s) <= u64_max ->
  watchdog_tick idle empty_since s = (r, s') ->
  (forall id e, sandbox_map (sandboxes s) !! id = Some e -> works id s ->
     sandbox_map (sandboxes s') !! id = Some e
     /\ forall p, sandbox_id p = Some id -> p ∈ procs (proc_registry s) -> p ∈ procs (proc_registry s'))
  /\ (forall k e, sandbox_map (sandboxes s) !! k = Some e -> sandbox_map (sandboxes s') !! k <> Some e ->
       host_mode s = true /\ exists now k' e', (hnow (host s)).1 = Ok now
         /\ sandbox_map (sandboxes s) !! k' = Some e' /\ State.id e' = k
         /\ 0 < idle_timeout_ms e' < wrap_i64 (now - last_activity e' (sandboxes s)))
  /\ (r = Ok None ->
       if host_mode s then sandbox_map (sandboxes s') = ∅
       else active_ops (proc_registry s) = 0
         /\ forall p, p ∈ procs (proc_registry s) ->
              exists info, exit_cells (proc_registry s) !! exit_cell p = Some (Some info)).
Proof.
  intros Hact Hbusy H. unfold watchdog_tick in H.
  destruct (hnow_ok (host s)) as (now & h1 & Hnow).
  assert (Hn : with_host hnow s = (Ok now, set_host h1 s)) by (unfold with_host, io_lens; by rewrite Hnow).
  rewrite (io_bind_run _ _ _ _ _ Hn), io_bind_gets in H. set (s1 := set_host h1 s) in *.
  assert (Hs1 : forall k, spared k s s1) by by split. change (host_mode s1) with (host_mode s) in H.
  destruct (host_mode s) eqn:Hm.
  - rewrite io_bind_gets in H. destruct (evict_all (idle_candidates now (sandboxes s1)) s1) as [x s2] eqn:He.
    destruct (wp_run _ _ _ _ _ He (evict_all_spares _ _)) as [_ Hsp].
    assert (Hfin : s' = s2 /\ (r = Ok None -> sandbox_map (sandboxes s2) = ∅)).
    { unfold io_bind at 1 in H. rewrite He in H. destruct x as [[]|x]; [|by injection H as <- <-].
      rewrite io_bind_gets in H. destruct (Z.eqb_spec (count (sandboxes s2)) 0) as [Hc|Hc]; cbn [negb] in H; [|by injection H as <- <-].
      unfold count in Hc. destruct (_ <? _); injection H as <- <-; (split; [done|]); intros Hr; [|done].
      apply map_size_empty_iff. lia. }
    destruct Hfin as [-> Hexit]. split_and!; [| |exact Hexit].
    + intros id e Hid Hw. destruct (spared_trans _ _ _ _ (Hs1 id) (Hsp id ltac:(left; exact Hw))) as [Hx Hp _ _].
      split; [by rewrite Hx|auto].
    + intros k e Hk Hne. split; [done|]. destruct (decide (k ∈ idle_candidates now (sandboxes s1))) as [Hin|Hnin].
      2:{ destruct Hne. destruct (Hsp k ltac:(by right)) as [Hx _ _ _]. rewrite Hx. exact Hk. }
      unfold idle_candidates in Hin. apply list_elem_of_fmap in Hin as (e' & -> & Hin).
      apply list_elem_of_In, filter_In in Hin as [Hin Hidle]. apply list_elem_of_In in Hin.
      unfold entries in Hin. apply list_elem_of_fmap in Hin as ([k' e''] & -> & Hin). apply elem_of_map_to_list in Hin.
      unfold is_idle in Hidle. exists now, k', e''. rewrite Hnow. split_and!; try done; simpl in *; lia.
  - rewrite !io_bind_gets in H.
    assert (Hfin : s' = s1) by (destruct (_ && _); by injection H as _ <-). subst s'. split_and!.
    + intros id e Hid _. by split.
    + intros k e Hk Hne. by destruct Hne.
    + intros ->. destruct (_ && _) eqn:Hx; [|done]. apply andb_true_iff in Hx as [_ Hx].
      change (proc_registry s1) with (proc_registry s) in Hx.
      assert (Hr : 0 <= running_count (proc_registry s) <= Z.of_nat (length (procs (proc_registry s)))).
      { unfold running_count. pose proof (filter_length_le (fun p => negb (is_finished (proc_registry s) p)) (procs (proc_registry s))). lia. }
      apply Z.eqb_eq in Hx. unfold wrap_u64 in Hx. rewrite Z.mod_small in Hx by (unfold u64_max in *; lia).
      assert (Hz : running_count (proc_registry s) = 0 /\ active_ops (proc_registry s) = 0) by lia. destruct Hz as [Hz Ha].
      split; [done|]. intros p Hp. apply finished_exit. unfold running_count in Hz. rewrite no_length in Hz.
      specialize (Hz p Hp). by apply negb_false_iff in Hz.
Qed.
End Watchdog.

(** A pool host whose sandbox [a] is idle past its timeout, with a command that has
    exited and, if [busy], one that runs. *)
Definition idle_sandbox : SandboxEntry := {|
  id := lit "a"; uid := 20000; home := lit "/h"; created_at_ms := 0; env := ∅; max_procs := 16;
  max_mem_mb := 64; token := lit "t"; confinement := UidOnly; deleted := 0; entry_activity := 1;
  idle_timeout_ms := 100 |}.
Definition a_command (n cell : Z) : Proc (SJ:=Sample.sample) :=
  mkProc (lit "p") n (mkProcHandle n None cell) None VNull 0 (Some (lit "a")) cell.
Definition idle_host (busy : bool) : @State Sample.sample sim :=
  mkState (Required (lit "host")) 0 0
    (mkProcRegistry (a_command 7 0 :: (if busy then [a_command 8 1] else [])) 2 0
       {[ 0 := Some (mkExitInfo (Some 0) None false 5); 1 := None ]} ∅ 2)
    (mkSandboxRegistry {[ lit "a" := idle_sandbox ]} 4 1 true {| next := 1; free := []; quarantined := [] |}
       {[ 0 := false ]} {[ 1 := 0 ]} 2)
    true (sim_host boot).

Example idle_host_evicted : size (sandbox_map (sandboxes (watchdog_tick 60000 0 (idle_host false)).2)) = 0%nat.
Proof. vm_compute. reflexivity. Qed.

Lemma watchdog_spares_work_witness :
  sandbox_map (sandboxes (watchdog_tick 60000 0 (idle_host true)).2) !! lit "a" = Some idle_sandbox.
Proof.
  destruct (watchdog_tick 60000 0 (idle_host true)) as [r s'] eqn:E.
  destruct (watchdog_spares_work 60000 0 (idle_host true) r s') as [H _].
  - vm_compute. discriminate.
  - vm_compute. discriminate.
  - exact E.
  - apply (H (lit "a") idle_sandbox).
    + reflexivity.
    + right. exists (a_command 8 1). split; [reflexivity|]. split; [right; left|]. intros info Hx. discriminate Hx.
Defined.
