(* ===== verification/ServerLoop.v ===== *)
(** * A keep-alive connection stays in step

    Every handler takes from the connection only the body of its own request, and
    says how much of it ([accounts]); with one reply per request (file Replies) the
    connection loop never mistakes the bytes of one exchange for another's. *)

From S2P Require Import Prelude RustStd StrFacts Json Net Wp Http HttpFacts HttpRead ReaderProgress.
From S2P Require Import HttpResponse Kernel Sim Host Paths State Samples Replies Sandboxes Exec ExecFacts.
From S2P Require Import Fsutil Files FilesFacts Proxy SandboxHandlers Server.

Section Accounts.
Context {SJ : SerdeJson} {K : Kernel}.

(** The bytes a handler took are the next ones of the request's body, and it noted
    them. *)
Definition took (c c' : Ctx) : Prop :=
  exists taken, rd_bytes (reader c) = taken ++ rd_bytes (reader c')
    /\ request c' = set_consumed (body_consumed (request c) + slen taken) (request c)
    /\ body_consumed (request c) + slen taken <= content_length (request c)
    /\ fed (reader c) (reader c').

(** A request just read off the connection. *)
Definition unread (c : Ctx) : Prop :=
  body_consumed (request c) = 0 /\ 0 <= content_length (request c) <= u64_max.

Definition hands_off {A} (m : io Ctx A) : Prop :=
  forall c, wp m c (fun _ c' => request c' = request c /\ reader c' = reader c).

Definition accounts {A} (m : io Ctx A) : Prop :=
  forall c, unread c -> wp m c (fun r c' => is_ok r = true -> took c c').

Lemma took_same c c' :
  unread c -> request c' = request c -> reader c' = reader c -> took c c'.
Proof.
  intros [H0 Hc] Hq Hr. exists []. rewrite Hr, Hq. split_and!; [done| |unfold slen; simpl; lia|reflexivity].
  destruct (request c). unfold set_consumed. simpl in *. f_equal. unfold slen. simpl. lia.
Qed.

Lemma off_accounts {A} (m : io Ctx A) : hands_off m -> accounts m.
Proof. intros Hm c Hc. eapply wp_mono; [apply Hm|]. intros r c' [Hq Hr] _. by apply took_same. Qed.

Lemma off_bind {A B} (m : io Ctx A) (k : A -> io Ctx B) :
  hands_off m -> (forall a, hands_off (k a)) -> hands_off (io_bind m k).
Proof.
  intros Hm Hk c. apply wp_bind. eapply wp_mono; [apply Hm|]. intros [a|e] c1 [Hq Hr]; [|done].
  eapply wp_mono; [apply Hk|]. intros r c2 [Hq2 Hr2]. split; congruence.
Qed.
Lemma off_ret {A} (a : A) : hands_off (io_ret a).
Proof. by intros c. Qed.
Lemma off_fail {A} e : hands_off (io_fail (A:=A) e).
Proof. by intros c. Qed.
Lemma off_gets {A} (f : Ctx -> A) : hands_off (io_gets f).
Proof. by intros c. Qed.
Lemma off_try {A} (m : io Ctx A) : hands_off m -> hands_off (io_try m).
Proof. intros Hm c. apply wp_try. apply Hm. Qed.
Lemma off_ignore {A} (m : io Ctx A) : hands_off m -> hands_off (io_ignore m).
Proof. intros Hm c. apply wp_ignore. apply Hm. Qed.
Lemma off_finally {A} (m : io Ctx A) clean : hands_off m -> hands_off clean -> hands_off (io_finally m clean).
Proof.
  intros Hm Hc c. apply wp_finally. eapply wp_mono; [apply Hm|]. intros r c1 [Hq Hr].
  eapply wp_mono; [apply Hc|]. intros _ c2 [Hq2 Hr2]. split; congruence.
Qed.
Lemma off_state {A} (m : io State A) : hands_off (with_state m).
Proof. intros c. apply wp_lens. by apply wp_any. Qed.
Lemma off_host {A} (m : io Host A) : hands_off (ctx_host m).
Proof. apply off_state. Qed.
Lemma off_resp {A} (m : io ResponseWriter A) : hands_off (with_resp m).
Proof. intros c. apply wp_lens. by apply wp_any. Qed.

(** The body may be read after, or before, code that keeps its hands off. *)
Lemma accounts_after {A B} (m : io Ctx A) (k : A -> io Ctx B) :
  hands_off m -> (forall a, accounts (k a)) -> accounts (io_bind m k).
Proof.
  intros Hm Hk c Hc. apply wp_bind. eapply wp_mono; [apply Hm|]. intros [a|e] c1 [Hq Hr]; [|done].
  assert (Hc1 : unread c1) by (unfold unread in *; by rewrite Hq).
  eapply wp_mono; [by apply Hk|]. intros r c2 Ht Ho. unfold took in *. rewrite <- Hq, <- Hr. auto.
Qed.
Lemma accounts_before {A B} (m : io Ctx A) (k : A -> io Ctx B) :
  accounts m -> (forall a, hands_off (k a)) -> accounts (io_bind m k).
Proof.
  intros Hm Hk c Hc. apply wp_bind. eapply wp_mono; [by apply Hm|]. intros [a|e] c1 Ht; [|done].
  eapply wp_mono; [apply Hk|]. intros r c2 [Hq Hr] _. unfold took in *. rewrite Hq, Hr. auto.
Qed.
Lemma accounts_finally {A} (m : io Ctx A) clean : accounts m -> hands_off clean -> accounts (io_finally m clean).
Proof.
  intros Hm Hc c Hu. apply wp_finally. eapply wp_mono; [by apply Hm|]. intros r c1 Ht.
  eapply wp_mono; [apply Hc|]. intros _ c2 [Hq Hr] Ho. unfold took in *. rewrite Hq, Hr. auto.
Qed.

Lemma accounts_read_body max : accounts (with_body (read_body max)).
Proof.
  intros c [H0 Hc]. apply wp_lens, wp_intro. intros [body|e] [q r] Hr; [|done]. intros _.
  pose proof (read_body_feeds max (request c) (reader c)) as Hf. unfold wp in Hf. rewrite Hr in Hf.
  apply read_body_takes in Hr as (Hq & Hb & Hl & _); [|lia]. simpl in *. exists body. simpl. rewrite H0, Hl.
  split_and!; [done|done|lia|exact Hf].
Qed.

Lemma accounts_body_to_file file : accounts (body_to_file file).
Proof.
  intros c [H0 Hc]. apply wp_lens, wp_intro. intros [n|e] [[q r] h] Hr; [|done]. intros _.
  pose proof (stream_body_feeds (write_chunk file) (request c) (reader c) (host (state c))) as Hf.
  unfold wp in Hf. rewrite Hr in Hf. apply stream_body_takes in Hr as (cs & Hb & Hl & _ & Hq & _); [|lia|lia].
  simpl in *. exists (concat cs). rewrite H0, Hl in *. split_and!; [done| |lia|exact Hf].
  simpl. rewrite Hq. f_equal. lia.
Qed.
End Accounts.

Create HintDb accounts.
#[export] Hint Resolve off_ret off_fail off_gets off_state off_host off_resp accounts_read_body accounts_body_to_file : accounts.

(** Code that keeps its hands off the request and the reader. *)
Ltac hands :=
  repeat lazymatch goal with
    | |- forall _, _ => intro
    | |- _ (let _ := _ in _) => cbv zeta
    | |- hands_off (io_bind _ _) => apply off_bind
    | |- hands_off (io_try _) => apply off_try
    | |- hands_off (io_ignore _) => apply off_ignore
    | |- hands_off (io_finally _ _) => apply off_finally
    | |- _ (if ?b then _ else _) => destruct b
    | |- _ (match ?x with _ => _ end) => destruct x
    | |- _ => solve [eauto with accounts]
    end.

(** Code that reads the body once. *)
Ltac accounting :=
  repeat lazymatch goal with
    | |- forall _, _ => intro
    | |- _ (let _ := _ in _) => cbv zeta
    | |- accounts (io_bind _ _) =>
        first [ apply accounts_after; [solve [hands]|] | apply accounts_before; [|solve [hands]] ]
    | |- accounts (io_finally _ _) => apply accounts_finally; [|solve [hands]]
    | |- accounts (if ?b then _ else _) => destruct b
    | |- accounts (match ?x with _ => _ end) => destruct x
    | |- accounts _ => first [solve [eauto with accounts] | solve [apply off_accounts; hands]]
    end.

(** ** The handlers *)

Section Handlers.
Context {SJ : SerdeJson} {K : Kernel}.

Lemma with_op_parts {A} (m : io Ctx A) c : exists c0 c1 r,
  reader c0 = reader c /\ request c0 = request c /\ resp c0 = resp c /\ m c0 = (r, c1)
  /\ with_op m c = (r, (with_op m c).2)
  /\ reader (with_op m c).2 = reader c1 /\ request (with_op m c).2 = request c1 /\ resp (with_op m c).2 = resp c1.
Proof.
  unfold with_op. set (c0 := set_state _ c). destruct (m c0) as [r c1] eqn:E. exists c0, c1, r. done.
Qed.

Lemma off_with_op {A} (m : io Ctx A) : hands_off m -> hands_off (with_op m).
Proof.
  intros Hm c. destruct (with_op_parts m c) as (c0 & c1 & r & Hr & Hq & _ & E & _ & Hr1 & Hq1 & _).
  pose proof (Hm c0) as H. unfold wp in *. rewrite E in H. simpl in H. destruct H. split; congruence.
Qed.

Lemma stream_events_off rx : hands_off (stream_events rx).
Proof. induction rx as [|[e| |] rx IH]; cbn [stream_events]; hands. Qed.

Hint Resolve off_with_op stream_events_off : accounts.

Lemma reply_stream_replies rx pid : replies (reply_stream rx pid).
Proof.
  intros c. apply wp_intro. intros r c' H ->. apply reply_stream_ok in H as (Ho & Hc & _).
  eapply replied_stream; [|done]. rewrite Ho. unfold stream_reply. reflexivity.
Qed.

Lemma handle_exec_replies rx sandbox : replies (handle_exec rx sandbox).
Proof.
  unfold handle_exec. apply replies_bind; [replying|]. intros body. destruct (parse_spec body) as [spec|e]; [|replying].
  cbv zeta. destruct (background _); [replying|]. apply replies_bind; [replying|]. intros t.
  apply replies_bind; [replying|]. intros [cmd|e]; [|replying]. apply (reply_stream_replies rx (child_pid cmd)).
Qed.

Lemma handle_exec_accounts rx sandbox : accounts (handle_exec rx sandbox).
Proof.
  unfold handle_exec. apply accounts_before; [auto with accounts|]. intros body.
  destruct (parse_spec body) as [spec|e]; [|hands]. cbv zeta. destruct (background _); [hands|].
  apply off_bind; [hands|]. intros t. apply off_bind; [hands|]. intros [cmd|e]; [|hands].
  apply off_with_op. hands.
Qed.

Lemma handle_process_start_replies sandbox : replies (handle_process_start sandbox).
Proof. unfold handle_process_start. replying. Qed.
Lemma handle_process_start_accounts sandbox : accounts (handle_process_start sandbox).
Proof. unfold handle_process_start. accounting. Qed.

Lemma handle_process_delete_replies id sandbox : replies (handle_process_delete id sandbox).
Proof. unfold handle_process_delete. replying. Qed.
Lemma handle_process_delete_accounts id sandbox : accounts (handle_process_delete id sandbox).
Proof. unfold handle_process_delete. accounting. Qed.

Lemma list_reply_replies sandbox : replies (list_reply sandbox).
Proof. unfold list_reply. replying. Qed.
Lemma list_reply_accounts sandbox : accounts (list_reply sandbox).
Proof. unfold list_reply. accounting. Qed.

Lemma handle_create_replies : replies handle_create.
Proof. unfold handle_create. replying. Qed.
Lemma handle_create_accounts : accounts handle_create.
Proof. unfold handle_create. accounting. Qed.

Lemma delete_sandbox_replies id : replies (SandboxHandlers.handle_delete id).
Proof. unfold SandboxHandlers.handle_delete. replying. Qed.
Lemma delete_sandbox_accounts id : accounts (SandboxHandlers.handle_delete id).
Proof. unfold SandboxHandlers.handle_delete. accounting. Qed.

Lemma delete_all_replies : replies handle_delete_all.
Proof. unfold handle_delete_all. replying. Qed.
Lemma delete_all_accounts : accounts handle_delete_all.
Proof. unfold handle_delete_all. accounting. Qed.

(** The file handlers: what the target is does not matter here. *)
Lemma require_path_off sandbox : hands_off (require_path sandbox).
Proof. unfold require_path, param. hands. Qed.

Lemma with_target_accounts sandbox rest : (forall t, accounts (rest t)) -> accounts (with_target sandbox rest).
Proof.
  intros Hr. unfold with_target. apply accounts_after; [apply require_path_off|]. intros [t|]; [|accounting].
  apply accounts_finally; [apply Hr|hands].
Qed.

Lemma fs_error_off action path e : hands_off (fs_error action path e).
Proof. unfold fs_error. hands. Qed.
Lemma param_u64_off key : hands_off (param_u64 key).
Proof. unfold param_u64, param. hands. Qed.
Lemma copy_loop_off fuel file len remaining : hands_off (copy_loop fuel file len remaining).
Proof. revert remaining. induction fuel as [|fuel IH]; intros remaining; cbn [copy_loop]; hands. Qed.
Hint Resolve fs_error_off param_u64_off copy_loop_off : accounts.
Lemma send_file_off file len : hands_off (send_file file len).
Proof. unfold send_file. hands. Qed.
Hint Resolve send_file_off : accounts.

Lemma file_handler_accounts env op sandbox : accounts (file_handler env op sandbox).
Proof.
  destruct op; apply with_target_accounts; intros t; unfold param_bool, is_a_directory, param; accounting.
Qed.

Lemma file_handler_replies env op sandbox : replies (file_handler env op sandbox).
Proof.
  destruct op; [apply handle_read_replies|apply handle_write_replies|apply handle_list_replies
    |apply handle_stat_replies|apply handle_delete_replies|apply handle_mkdir_replies].
Qed.
End Handlers.

(** ** A tunnel takes the connection over *)

Section Serves.
Context {SJ : SerdeJson} {K : Kernel}.

(** What a handler that ends well has done: taken the connection over, or left one
    reply and accounted for the body. *)
Definition serves (m : io Ctx unit) : Prop :=
  forall c, unread c -> wp m c (fun r c' => r = Ok tt ->
    hijacked (resp c') = true \/ (replied (resp c) (resp c') /\ took c c')).

Lemma serves_of m : replies m -> accounts m -> serves m.
Proof.
  intros Hr Ha c Hc. eapply wp_mono; [apply wp_conj; [apply Hr|by apply Ha]|].
  intros r c' [H1 H2] ->. right. split; [by apply H1|by apply H2].
Qed.

Lemma serves_after {A} (m : io Ctx A) (k : A -> io Ctx unit) :
  silent m -> hands_off m -> (forall a, serves (k a)) -> serves (io_bind m k).
Proof.
  intros Hs Hm Hk c Hc. apply wp_bind. eapply wp_mono; [apply wp_conj; [apply Hs|apply Hm]|].
  intros [a|e] c1 [Hr [Hq Hrd]]; [|done].
  assert (Hc1 : unread c1) by (unfold unread in *; by rewrite Hq).
  eapply wp_mono; [by apply Hk|]. unfold took. rewrite Hr, Hq, Hrd. auto.
Qed.

(** Code that leaves a connection taken over once it is. *)
Definition keeps_tunnel {A} (m : io Ctx A) : Prop :=
  forall c, hijacked (resp c) = true -> wp m c (fun _ c' => hijacked (resp c') = true).

Lemma tunnel_bind {A B} (m : io Ctx A) (k : A -> io Ctx B) :
  keeps_tunnel m -> (forall a, keeps_tunnel (k a)) -> keeps_tunnel (io_bind m k).
Proof.
  intros Hm Hk c Hc. apply wp_bind. eapply wp_mono; [by apply Hm|]. intros [a|e] c1 H1; [by apply Hk|done].
Qed.
Lemma tunnel_silent {A} (m : io Ctx A) : silent m -> keeps_tunnel m.
Proof. intros Hm c Hc. eapply wp_mono; [apply Hm|]. by intros r c' ->. Qed.
Lemma tunnel_try {A} (m : io Ctx A) : keeps_tunnel m -> keeps_tunnel (io_try m).
Proof. intros Hm c Hc. apply wp_try. by apply Hm. Qed.
Lemma tunnel_raw data : keeps_tunnel (with_resp (raw data)).
Proof.
  intros c Hc. apply wp_lens. unfold raw, on_writer. apply wp_lens. by apply wp_any.
Qed.

Lemma copy_to_client_tunnel fd m : keeps_tunnel (copy_to_client fd m).
Proof.
  destruct m; unfold copy_to_client, copy_call; [| |apply tunnel_silent, silent_ret].
  - apply tunnel_bind; [apply tunnel_silent, silent_try, silent_host|]. intros got. apply tunnel_silent, silent_ret.
  - apply tunnel_bind; [apply tunnel_try, tunnel_raw|]. intros sent. apply tunnel_silent, silent_ret.
Qed.

Lemma copy_to_backend_tunnel fd m : keeps_tunnel (copy_to_backend fd m).
Proof.
  destruct m; unfold copy_to_backend, copy_call; [| |apply tunnel_silent, silent_ret].
  - apply tunnel_bind; [apply tunnel_silent, silent_try, silent_body|]. intros got. apply tunnel_silent, silent_ret.
  - apply tunnel_bind; [apply tunnel_silent, silent_try, silent_host|]. intros sent. apply tunnel_silent, silent_ret.
Qed.

Lemma calls_tunnel outer_rd outer_wr wr rd t :
  keeps_tunnel (pump_call outer_rd wr t) /\ keeps_tunnel (handler_call outer_wr rd t).
Proof.
  split; [unfold pump_call|unfold handler_call]; repeat case_match;
    try apply tunnel_silent, silent_ret; (apply tunnel_bind; [|intros m; apply tunnel_silent, silent_ret]);
    try apply copy_to_backend_tunnel; try apply copy_to_client_tunnel; apply tunnel_silent, silent_host.
Qed.

Lemma splice_tunnel turns outer_rd outer_wr wr rd : keeps_tunnel (splice outer_rd outer_wr wr rd turns).
Proof.
  apply tunnel_bind; [|intros t; destruct (handler_now t); apply tunnel_silent; apply silent_ret || apply silent_fail].
  generalize (mkThreads MRead PCopy MRead HCopy). induction turns as [|[] turns IH]; intros t; cbn [interleave].
  - apply tunnel_silent, silent_ret.
  - apply tunnel_bind; [by apply (calls_tunnel _ outer_wr _ rd)|exact IH].
  - apply tunnel_bind; [by apply (calls_tunnel outer_rd _ wr)|exact IH].
Qed.

Lemma tunnel_clone m : (forall fd, keeps_tunnel (m fd)) -> keeps_tunnel (with_client_clone m).
Proof.
  intros Hm. apply tunnel_bind; [apply tunnel_silent, silent_host|]. intros fd c Hc. apply wp_finally.
  eapply wp_mono; [by apply Hm|]. intros r c1 H1. eapply wp_mono; [apply silent_host|]. by intros _ c2 ->.
Qed.

(** Code that takes the connection over when it ends well. *)
Definition tunnels (m : io Ctx unit) : Prop := forall c, wp m c (fun r c' => r = Ok tt -> hijacked (resp c') = true).

Lemma tunnels_after {A} (m : io Ctx A) (k : A -> io Ctx unit) : (forall a, tunnels (k a)) -> tunnels (io_bind m k).
Proof. intros Hk c. apply wp_bind, wp_intro. intros [a|e] c1 _; [apply Hk|done]. Qed.
Lemma tunnels_finally m clean : tunnels m -> silent clean -> tunnels (io_finally m clean).
Proof.
  intros Hm Hc c. apply wp_finally. eapply wp_mono; [apply Hm|]. intros r c1 Hr.
  eapply wp_mono; [apply Hc|]. intros _ c2 ->. apply Hr.
Qed.

Lemma tunnels_clone (m : Z -> io Ctx unit) : (forall fd, tunnels (m fd)) -> tunnels (with_client_clone m).
Proof. intros Hm. apply tunnels_after. intros fd. apply tunnels_finally; [apply Hm|apply silent_host]. Qed.

Lemma hijack_tunnels (k : unit -> io Ctx unit) :
  (forall a, keeps_tunnel (k a)) -> tunnels (io_bind (with_resp hijack) k).
Proof.
  intros Hk c. apply wp_bind, wp_lens, wp_intro. intros [u|e] rw Hh; [|done].
  unfold hijack in Hh. apply io_bind_ok in Hh as (v & rw1 & _ & Hh). injection Hh as _ <-.
  eapply wp_mono; [by apply Hk|]. auto.
Qed.

Lemma handle_proxy_serves turns sandbox segs : serves (handle_proxy turns sandbox segs).
Proof.
  unfold handle_proxy. destruct (split_target segs) as [[port fp]|]; [|by apply serves_of; [replying|accounting]].
  apply serves_after; [by replying|by hands|]. intros [b|e]; [|by apply serves_of; [replying|accounting]].
  intros c _. eapply wp_mono; [|intros r c' H Hr; left; exact (H Hr)].
  apply tunnels_after. intros head. apply tunnels_finally; [|apply silent_host].
  apply tunnels_after. intros wr. apply tunnels_finally; [|apply silent_host].
  apply tunnels_clone. intros outer_rd. apply hijack_tunnels. intros _. apply tunnel_clone. intros outer_wr.
  do 2 (apply tunnel_bind; [apply tunnel_silent, silent_host|]; intros _).
  apply tunnel_bind; [apply tunnel_silent, silent_gets|]. intros leftover.
  do 2 (apply tunnel_bind; [apply tunnel_silent, silent_host|]; intros _).
  apply tunnel_bind; [apply tunnel_silent, silent_body|]. intros _. apply splice_tunnel.
Qed.

(** ** Every route *)

Variables (VERSION : str) (env : Circumstances).

Lemma with_sandbox_serves id f : (forall entry, serves (f entry)) -> serves (with_sandbox id f).
Proof.
  intros Hf. unfold with_sandbox. apply serves_after; [by replying|by hands|].
  intros [entry|]; [apply Hf|]. unfold no_such_sandbox. by apply serves_of; [replying|accounting].
Qed.

Lemma dispatch_serves method path r : serves (dispatch env method path r).
Proof.
  destruct r as [e| | | |id|id|id e|]; cbn [dispatch].
  - destruct e; cbn [dedicated].
    + apply serves_of; [apply handle_exec_replies|apply handle_exec_accounts].
    + apply serves_of; [apply handle_process_start_replies|apply handle_process_start_accounts].
    + apply serves_of; [apply list_reply_replies|apply list_reply_accounts].
    + apply serves_of; [apply handle_process_delete_replies|apply handle_process_delete_accounts].
    + apply serves_of; [apply file_handler_replies|apply file_handler_accounts].
    + apply handle_proxy_serves.
  - apply serves_of; [apply handle_create_replies|apply handle_create_accounts].
  - by apply serves_of; [replying|accounting].
  - apply serves_of; [apply delete_all_replies|apply delete_all_accounts].
  - apply with_sandbox_serves. intros entry. unfold token_reply. by apply serves_of; [replying|accounting].
  - apply serves_of; [apply delete_sandbox_replies|apply delete_sandbox_accounts].
  - destruct e; cbn [in_sandbox_route]; try (apply with_sandbox_serves; intros entry).
    + apply serves_of; [apply handle_exec_replies|apply handle_exec_accounts].
    + apply serves_of; [apply handle_process_start_replies|apply handle_process_start_accounts].
    + apply serves_of; [apply list_reply_replies|apply list_reply_accounts].
    + apply serves_of; [apply handle_process_delete_replies|apply handle_process_delete_accounts].
    + apply serves_of; [apply file_handler_replies|apply file_handler_accounts].
    + apply handle_proxy_serves.
  - by apply serves_of; [replying|accounting].
Qed.

Lemma route_serves : serves (route VERSION env).
Proof.
  unfold route. do 2 (apply serves_after; [apply silent_gets|apply off_gets|]; intros ?). cbv zeta.
  destruct (_ && _).
  { destruct (negb _); [by apply serves_of; [replying|accounting]|].
    apply serves_after; [apply silent_state|apply off_state|]. intros v. by apply serves_of; [replying|accounting]. }
  destruct (authorize _ _ _); [|by apply serves_of; [replying|accounting]].
  destruct (bool_decide _); [by apply serves_of; [replying|accounting]|].
  apply serves_after; [apply silent_state|apply off_state|]. intros _.
  destruct (negb _); [by apply serves_of; [replying|accounting]|].
  apply serves_after; [apply silent_state|apply off_state|]. intros _. apply dispatch_serves.
Qed.
End Serves.

(** ** The connection *)

Section Dialogue.
Context {SJ : SerdeJson} {K : Kernel}.
Variables (VERSION : str) (env : nat -> Circumstances) (others : nat -> State -> State).

(** After a call whose outcome is ignored. *)
Definition called (k : call) (c : Ctx) : Ctx := (ctx_host (hsys_ k) c).2.

Lemma call_run k c : ctx_host (hsys_ k) c = (Ok tt, called k c).
Proof. done. Qed.
Lemma called_reader k c : reader (called k c) = reader c.
Proof. done. Qed.
Lemma called_resp k c : resp (called k c) = resp c.
Proof. done. Qed.

(** The connection when [n] iterations are left: what the other connections did to
    the shared state has been seen and the deadline is that of a head; then [q] was
    read off. *)
Definition arrived (n : nat) (c : Ctx) : Ctx :=
  called (ClientReadTimeout (Some HEAD_TIMEOUT)) (set_state (others n (state c)) c).
Definition asked (n : nat) (c : Ctx) (q : Request) (r : Reader) : Ctx :=
  begin_response (keep_alive q) (set_request q
    (called (ClientReadTimeout (Some BODY_TIMEOUT)) (set_reader r (arrived n c)))).
Definition routed (n : nat) (c : Ctx) (q : Request) (r : Reader) : result unit io_error * Ctx :=
  route VERSION (env n) (asked n c q r).

(** The body of [q] between the readers [r] and [r2]: all of it, unless the stream
    ended before; nothing is left then to be taken for a request. *)
Definition whole_body (q : Request) (r r2 : Reader) : Prop :=
  exists body, rd_bytes r = body ++ rd_bytes r2
    /\ (slen body = content_length q \/ (slen body < content_length q /\ at_end r2)).

(** A refusal, or what got out of it before a write failed. *)
Definition refusal (e : io_error) (s : str) : Prop :=
  if refusal_status e =? 0 then s = []
  else exists ct body, s `prefix_of` fixed_reply (refusal_status e) ct false body.

(** What [handle_connection] does for a client with [n] iterations left, and all it
    has written in the end: exchanges of one request and one message, in order, and
    an end for which there is a reason. *)
Inductive dialogue : nat -> Ctx -> str -> Prop :=
| no_more n c r : read_request (reader c) = (Ok None, r) -> dialogue (S n) c (out (resp c))
| not_understood n c e r s :
    read_request (reader c) = (Err e, r) -> refusal e s -> dialogue (S n) c (out (resp c) ++ s)
| broken_off n c q r :
    read_request (reader c) = (Ok (Some q), r) ->
    let after := routed n c q r in
    is_ok after.1 = false \/ hijacked (resp after.2) = true -> dialogue (S n) c (out (resp after.2))
| unfinished n c q r e rw :
    read_request (reader c) = (Ok (Some q), r) ->
    finish (resp (routed n c q r).2) = (Err e, rw) -> dialogue (S n) c (out rw)
| last_exchange n c q r s :
    read_request (reader c) = (Ok (Some q), r) -> message (keep_alive q) s ->
    let after := (routed n c q r).2 in
    keep_alive q = false \/ is_ok (drain_body (request after, reader after)).1 = false ->
    dialogue (S n) c (out (resp c) ++ s)
| exchange n c q r s c2 o :
    read_request (reader c) = (Ok (Some q), r) -> keep_alive q = true -> message true s ->
    whole_body q r (reader c2) ->
    state c2 = state (routed n c q r).2 -> out (resp c2) = out (resp c) ++ s ->
    dialogue n c2 o -> dialogue (S n) c o.

Lemma parsed_unread r q r' : read_request r = (Ok (Some q), r') -> body_consumed q = 0 /\ 0 <= content_length q <= u64_max.
Proof.
  unfold read_request. rewrite io_bind_gets. intros H. apply io_bind_ok in H as ([h|] & r1 & _ & H); [|done].
  destruct (parse_head h) as [q'|] eqn:E; [|done]. injection H as -> _. pose proof (accepted_wf _ _ E) as Hwf.
  split; [apply Hwf|]. pose proof (wf_length _ Hwf) as Hl. destruct (headers q !! _).
  - destruct Hl as (_ & _ & Hl). by apply parse_uint_range in Hl.
  - rewrite Hl. unfold u64_max. lia.
Qed.

(** [settle] lets the connection go on after a finished reply and a drained body
    only. *)
Lemma settle_cases (res : result unit io_error) c : exists go c', settle res c = (Ok go, c')
  /\ (is_ok res = false \/ hijacked (resp c) = true -> go = false /\ out (resp c') = out (resp c))
  /\ (res = Ok tt -> hijacked (resp c) = false ->
       match finish (resp c) with
       | (Err e, rw) => go = false /\ out (resp c') = out rw
       | (Ok u, rw) =>
           let '(r, qr) := drain_body (request c, reader c) in
           go = is_ok r && keep_alive (request c)
           /\ c' = set_reader qr.2 (set_request qr.1 (set_resp rw c))
       end).
Proof.
  unfold settle. rewrite !io_bind_gets. destruct (hijacked (resp c)).
  { eexists _, _. split; [reflexivity|]. split; [done|by intros]. }
  rewrite io_bind_try. destruct res as [[]|e]; cycle 1.
  { eexists _, _. split; [reflexivity|]. split; [done|by intros]. }
  unfold with_resp at 1 2, io_lens. destruct (finish (resp c)) as [[[]|e] rw]; cbn [fst snd is_ok negb]; cycle 1.
  { eexists _, _. split; [reflexivity|]. split; [by intros [?|?]|done]. }
  rewrite io_bind_try. unfold with_body, io_lens. cbn [set_resp request reader].
  destruct (drain_body _) as [r qr]. cbn [fst snd].
  eexists _, _. split; [reflexivity|]. split; [by intros [?|?]|]. done.
Qed.

(** What a handler took and what [drain_body] skipped is the body. *)
Lemma whole_after q r taken r1 q2 r2 :
  body_consumed q = 0 -> 0 <= content_length q <= u64_max -> rd_bytes r = taken ++ rd_bytes r1 ->
  body_consumed q + slen taken <= content_length q ->
  drain_body (set_consumed (body_consumed q + slen taken) q, r1) = (Ok tt, (q2, r2)) -> whole_body q r r2.
Proof.
  intros H0 Hmax Hb Hl Hd. pose proof (slen_nonneg taken).
  destruct (Z_le_gt_dec (content_length q - (body_consumed q + slen taken)) MAX_DRAIN_BYTES) as [Hle|Hgt].
  - destruct (drain_body_small (set_consumed (body_consumed q + slen taken) q) r1)
      as (o & r' & E & Hs); [simpl; lia..|]. cbn [set_consumed content_length body_consumed] in *. rewrite E in Hd.
    injection Hd as -> _ ->. destruct Hs as (skipped & Hb' & Hs).
    exists (taken ++ skipped). rewrite Hb, Hb', app_assoc, slen_app. split; [done|].
    destruct Hs as [Hs|[Hs Hn]]; [left|right; split; [|done]]; lia.
  - destruct (drain_body_large (set_consumed (body_consumed q + slen taken) q) r1) as [e E];
      [simpl; lia..|]. congruence.
Qed.

(** One request, served and settled. *)
Lemma routed_step n c q r : read_request (reader c) = (Ok (Some q), r) ->
  exists go c2, settle (routed n c q r).1 (routed n c q r).2 = (Ok go, c2)
    /\ (go = false -> dialogue (S n) c (out (resp c2)))
    /\ (go = true -> (rd_size (reader c2) < rd_size (reader c))%nat
          /\ forall o, dialogue n c2 o -> dialogue (S n) c o).
Proof.
  intros Hq. destruct (parsed_unread _ _ _ Hq) as [H0 Hmax]. pose proof (read_request_eats _ _ _ Hq) as Heat.
  assert (Hs : wp (route VERSION (env n)) (asked n c q r) (fun res c1 => res = Ok tt ->
    hijacked (resp c1) = true \/ (replied (resp (asked n c q r)) (resp c1) /\ took (asked n c q r) c1))).
  { by apply route_serves. }
  unfold wp in Hs. fold (routed n c q r) in Hs.
  destruct (settle_cases (routed n c q r).1 (routed n c q r).2) as (go & c2 & E & Hcut & Hok).
  exists go, c2. split; [exact E|].
  destruct (routed n c q r) as [res c1] eqn:Es. cbn [fst snd] in *.
  destruct (decide (is_ok res = false \/ hijacked (resp c1) = true)) as [Hb|Hb].
  { destruct (Hcut Hb) as [-> Ho]. split; [|done]. intros _. rewrite Ho.
    pose proof (broken_off n c q r Hq) as Hd. rewrite Es in Hd. by apply Hd. }
  assert (Hres : res = Ok tt) by (destruct res as [[]|e]; [done|naive_solver]).
  assert (Hh : hijacked (resp c1) = false) by (destruct (hijacked (resp c1)); naive_solver).
  destruct (Hs Hres) as [Hh'|[Hr (taken & Hb1 & Hq1 & Hl1 & Hf1)]]; [congruence|].
  change (reader (asked n c q r)) with r in Hb1, Hf1. change (request (asked n c q r)) with q in Hq1, Hl1.
  change (resp (asked n c q r)) with (response_new (writer (resp c)) (keep_alive q)) in Hr.
  specialize (Hok Hres Hh).
  destruct (finish (resp c1)) as [[[]|e] rw] eqn:Ef; cycle 1.
  { destruct Hok as [-> Ho]. split; [|done]. intros _. rewrite Ho.
    eapply (unfinished n c q r e); [done|]. by rewrite Es. }
  edestruct (fun H => replied_finish _ _ _ H Hr Ef) as (s & Hout & Hmsg); [reflexivity|].
  destruct (drain_body (request c1, reader c1)) as [dr [q2 r2]] eqn:Ed. destruct Hok as [-> ->].
  cbn [set_reader set_request set_resp resp reader fst snd] in *. rewrite Hq1. cbn [set_consumed keep_alive].
  rewrite Hout. split.
  - intros Hgo. apply (last_exchange n c q r s); [done|exact Hmsg|]. rewrite Es. cbn [snd]. rewrite Ed.
    apply andb_false_iff in Hgo as [?|?]; auto.
  - intros Hgo. apply andb_true_iff in Hgo as [Hdr Hka]. destruct dr as [[]|]; [|done].
    pose proof (drain_body_feeds (request c1) (reader c1)) as Hf2. unfold wp in Hf2. rewrite Ed in Hf2.
    pose proof Hf1 as [_ Hf1']. pose proof Hf2 as [_ Hf2']. cbn [snd] in *. split; [lia|].
    intros o. eapply exchange; [done|done|by rewrite <- Hka| |by rewrite Es|exact Hout].
    cbn [set_reader reader]. eapply whole_after; [exact H0|exact Hmax|exact Hb1|exact Hl1|].
    rewrite <- Hq1. exact Ed.
Qed.

(** The loop ends, and has enough fuel: an iteration that is not the last one takes
    a byte at least. *)
Lemma loop_dialogue n c : (rd_size (reader c) < n)%nat ->
  exists c', connection_loop VERSION n env others c = (Ok tt, c') /\ dialogue n c (out (resp c')).
Proof.
  revert c. induction n as [|n IH]; intros c Hn; [lia|]. cbn [connection_loop]. rewrite io_bind_modify.
  rewrite (io_bind_run _ _ _ _ _ (call_run _ _)). fold (arrived n c). rewrite io_bind_try.
  unfold with_body at 1 2, on_reader at 1 2, io_lens. cbn [snd arrived set_state reader request].
  change (reader (arrived n c)) with (reader c).
  destruct (read_request (reader c)) as [[[q|]|e] r] eqn:Hq; cbn [fst snd].
  - rewrite (io_bind_run _ _ _ _ _ (call_run _ _)), io_bind_modify, io_bind_try. change (begin_response _ _) with (asked n c q r). fold (routed n c q r).
    destruct (routed_step n c q r Hq) as (go & c2 & E & Hstop & Hgo).
    rewrite (io_bind_run _ _ _ _ _ E). destruct go; [|by eauto].
    destruct (Hgo eq_refl) as [Hsize Hd]. destruct (IH c2 ltac:(lia)) as (c' & Hrun & Hdia). eauto.
  - eexists. split; [reflexivity|]. exact (no_more n c r Hq).
  - pose proof (not_understood n c e r) as Hd. unfold refusal in Hd. destruct (refusal_status e =? 0).
    + eexists. split; [reflexivity|]. specialize (Hd [] Hq eq_refl). by rewrite app_nil_r in Hd.
    + rewrite io_bind_modify. eexists. split; [reflexivity|]. unfold with_resp, io_lens.
      match goal with |- context [error ?s ?t ?w] => set (rw := w); pose proof (fixed_writes s (lit "application/json")
        (to_vec (jobj [("error"%string, VString t)])) rw) as (p & Hp & Hpre);
        change (error s t rw) with (fixed s (lit "application/json") (to_vec (jobj [("error"%string, VString t)])) rw) end.
      destruct (fixed _ _ _ rw) as [x rw1]. cbn [snd set_resp resp] in *. rewrite Hp. apply Hd; [done|]. eauto.
Qed.

(** The connection as the loop finds it: socket options set, socket duplicated. *)
Definition set_up (c : Ctx) : Ctx :=
  called (ClientWriteTimeout (Some WRITE_TIMEOUT)) (called (ClientReadTimeout (Some HEAD_TIMEOUT)) (called ClientNodelay c)).
Definition duplicated (c : Ctx) : result Z io_error * Ctx := ctx_host (hsys ClientClone) (set_up c).

Lemma duplicated_same c : reader (duplicated c).2 = reader c /\ resp (duplicated c).2 = resp c.
Proof.
  unfold duplicated, ctx_host, with_state, with_host, io_lens. by destruct (hsys ClientClone _) as [r h].
Qed.

Lemma handle_connection_runs c : exists c', handle_connection VERSION env others c = (Ok tt, c')
  /\ match (duplicated c).1 with
     | Ok _ => exists c1, dialogue (S (rd_size (reader c))) (duplicated c).2 (out (resp c1)) /\ out (resp c') = out (resp c1)
     | Err _ => out (resp c') = out (resp c)
     end.
Proof.
  unfold handle_connection. do 3 rewrite (io_bind_run _ _ _ _ _ (call_run _ _)). rewrite io_bind_try.
  fold (set_up c). fold (duplicated c). destruct (duplicated_same c) as [Hr Ho].
  destruct (duplicated c) as [[fd|e] c0]; cbn [fst snd] in *; [|eexists; split; [reflexivity|by rewrite Ho]].
  rewrite io_bind_gets, Hr. destruct (loop_dialogue (S (rd_size (reader c))) c0) as (c' & Hrun & Hd); [rewrite Hr; lia|].
  unfold io_finally. rewrite Hrun. eexists. split; [reflexivity|]. exists c'. split; [exact Hd|].
  pose proof (silent_host (close fd) c') as Hs. unfold wp in Hs. cbn [fst snd] in *. by rewrite Hs.
Qed.

(** C2: a keep-alive connection stays in step.  Whatever the client sends, the network
    does and other connections change meanwhile, [handle_connection] returns, and
    what it did (unless the socket could not be duplicated: then nothing is written)
    is a sequence of exchanges and an end: each exchange is one request (which
    [read_request] took off the stream under the head deadline), its whole body,
    however much of it the handler read and whatever reads were interrupted, and
    exactly one complete message with the framing the client needs to find its end,
    so that the next head is read from the byte after the body and no body byte is
    taken for a request (a body cut short is the end of the stream); the connection ends
    only when there is no other request, or one that is refused, when the route
    failed or took the connection over, when a write failed, when the client asked
    for it, or when the unread rest of a body is too long or unreadable. *)
Theorem connection_in_step c :
  exists c', handle_connection VERSION env others c = (Ok tt, c')
    /\ match (duplicated c).1 with
       | Ok _ => dialogue (S (rd_size (reader c))) (duplicated c).2 (out (resp c'))
       | Err _ => out (resp c') = out (resp c)
       end.
Proof.
  destruct (handle_connection_runs c) as (c' & E & H). exists c'. split; [exact E|].
  destruct (duplicated c).1; [|exact H]. by destruct H as (c1 & Hd & ->).
Qed.

Lemma turn_away_runs c : exists c', turn_away c = (Ok tt, c')
  /\ (exists k, out (resp c') = out (resp c) ++ take k too_many_connections)
  /\ (w_outcomes (writer (resp c)) = [] -> out (resp c') = out (resp c) ++ too_many_connections).
Proof.
  unfold turn_away. rewrite (io_bind_run _ _ _ _ _ (call_run _ _)).
  set (c1 := called _ c). assert (Hc : resp c1 = resp c) by done.
  unfold with_resp, on_writer, io_lens, io_ignore, io_bind. rewrite Hc.
  destruct (write_all too_many_connections (writer (resp c))) as [r w1] eqn:E1. cbn [snd].
  destruct (flush_writer w1) as [r2 w2] eqn:E2. cbn [snd]. eexists. split; [reflexivity|].
  destruct (write_all_prefix _ _ _ _ E1) as [k Hk]. destruct (write_all_prefix _ _ _ _ E2) as [k2 Hk2].
  unfold out. cbn [resp set_resp writer set_writer]. split.
  - exists k. by rewrite Hk2, Hk, take_nil, app_nil_r.
  - intros Ho. unfold write_all in E1. rewrite Ho in E1. simplify_eq. by rewrite Hk2, take_nil, app_nil_r.
Qed.

(** Every turn of the accept loop returns and leaves the count as it was: a stream
    within the limit is served to its end, one over it is told so and no more. *)
Lemma accept_stream_runs max live c : 0 <= live <= u64_max ->
  exists c', accept_stream VERSION max env others (live, c) = (Ok tt, (live, c'))
    /\ if max <=? live then turn_away c = (Ok tt, c') else handle_connection VERSION env others c = (Ok tt, c').
Proof.
  intros Hl. assert (Hw : release_slot (wrap_u64 (live + 1)) = live).
  { unfold release_slot, Z.sub, wrap_u64. rewrite Zplus_mod_idemp_l. replace (live + 1 + - (1)) with live by lia.
    apply Z.mod_small. unfold u64_max in *. lia. }
  unfold accept_stream, io_bind at 1, acquire, try_add. cbn [fst snd]. destruct (max <=? live); cbn [negb fst snd].
  - destruct (turn_away_runs c) as (c' & E & _). exists c'. unfold on_snd, io_lens. cbn [fst snd]. by rewrite E, Hw.
  - destruct (handle_connection_runs c) as (c' & E & _). exists c'. unfold io_finally, on_snd, io_lens. cbn [fst snd]. rewrite E.
    cbn. by rewrite Hw.
Qed.
End Dialogue.

(** Two requests in one packet, the second cut by a packet boundary, an unread body
    between them: two replies. *)
Definition pipelined : list rd_event :=
  [RData 5 (lit "GET /health HTTP/1.1" ++ CRLF ++ lit "Content-Length: 3" ++ CRLF ++ CRLF ++ lit "GETGET /nowh");
   RData 6 (lit "ere HTTP/1.1" ++ CRLF ++ CRLF)].

Example two_exchanges :
  let start := set_reader {| rd_buf := []; rd_events := pipelined; rd_clock := 0 |}
                 (a_ctx true (sim_host boot) (a_request "GET" "/" [] "")) in
  let '(r, c) := handle_connection (K:=sim) (lit "1") (fun _ => mkCircumstances [] 0 []) (fun _ s => s) start in
  (r, out (resp c), rd_bytes (reader c))
  = (Ok tt,
     fixed_reply 200 (lit "application/json") true (to_vec (SerdeJson:=Sample.sample) public_health)
     ++ fixed_reply 403 (lit "application/json") true
          (to_vec (SerdeJson:=Sample.sample) (jobj [("error"%string, VString (lit "invalid or missing X-Sandbox-Token"))])), []).
Proof. vm_compute. reflexivity. Qed.
