(* ===== verification/UnitTests.v ===== *)
(** * The repository's unit tests

    The [#[test]] functions of the modules that compute on values (src/http.rs,
    src/main.rs, src/exec.rs, src/landlock.rs, src/proxy.rs), each a boolean under
    its own name, evaluated on the model: where the program's authors say what the
    code does, the model does it too.  Those that need a file system or processes
    are in file MachineTests. *)

From S2P Require Import Prelude RustStd Json Net Http HttpResponse Kernel Sim Host Landlock State Sandboxes.
From S2P Require Import Exec Proxy Samples Server.

Definition is_err {A E} (r : result A E) : bool := negb (is_ok r).
Definition all_of {A} (l : list A) (f : A -> bool) : bool := forallb f l.
(** [assert_eq!]. *)
Definition same {A} `{EqDecision A} (x y : A) : bool := bool_decide (x = y).
Definition on_ok {A E} (r : result A E) (f : A -> bool) : bool := match r with Ok a => f a | Err _ => false end.

(** ** src/http.rs *)

Definition test_head (extra : str) : str :=
  lit "GET /v1/sandboxes HTTP/1.1" ++ CRLF ++ lit "Host: x" ++ CRLF ++ extra ++ CRLF ++ CRLF.

Definition a_well_formed_request_parses : bool :=
  on_ok (parse_head (test_head (lit "X-Sandbox-Token: abc" ++ CRLF ++ lit "Content-Length: 3"))) (fun request =>
    same (method request) (lit "GET") && same (path request) (lit "/v1/sandboxes")
    && (content_length request =? 3)
    && same (header request (lit "x-sandbox-token")) (Some (lit "abc"))
    && keep_alive request).

Definition ambiguous_framing_is_refused : bool :=
  all_of [lit "X-Test: a" ++ [LF] ++ lit "b"; lit "X-Test: a" ++ [CR] ++ lit "b"; lit "X-Test: " ++ [NUL];
          lit "Content-Length: abc"; lit "Content-Length: "; lit "Content-Length: -1"; lit "Content-Length: +1";
          lit "Content-Length: 0x10"; lit "Content-Length: 1, 1";
          lit "Content-Length: 5" ++ CRLF ++ lit "Content-Length: 6";
          lit "Content-Length: 5" ++ CRLF ++ lit "Transfer-Encoding: chunked";
          lit "Content-Length : 5"; lit "Content-Length" ++ [HT] ++ lit ": 5"; lit "Content-Length";
          lit " Content-Length: 5"; lit "Content-Le" ++ [NUL] ++ lit "ngth: 5"]
    (fun extra => is_err (parse_head (test_head extra))).

Definition control_characters_in_targets_are_refused : bool :=
  all_of [LF; CR; NUL; HT; chr 127] (fun c =>
    is_err (parse_head (lit "GET " ++ (lit "/a" ++ [c] ++ lit "b") ++ lit " HTTP/1.1" ++ CRLF ++ lit "Host: x" ++ CRLF ++ CRLF))).

Definition identical_duplicates_are_allowed : bool :=
  on_ok (parse_head (test_head (lit "Content-Length: 5" ++ CRLF ++ lit "Content-Length: 5")))
    (fun request => content_length request =? 5).

Definition a_malformed_request_line_is_refused : bool :=
  all_of (map lit ["GET /x"; "GET  /x HTTP/1.1"; "GET /x HTTP/1.1 extra"; "GET /x HTTP/2.0"; "GET /x ICY/1.0";
                   "G3T /x HTTP/1.1"; " GET /x HTTP/1.1"; "/x HTTP/1.1"]%string)
    (fun line => is_err (parse_head (line ++ CRLF ++ lit "Host: x" ++ CRLF ++ CRLF))).

Definition a_non_ascii_head_is_refused : bool :=
  is_err (parse_head (lit "GET /x HTTP/1.1" ++ CRLF ++ lit "X-Tag: caf" ++ [chr 195; chr 169] ++ CRLF ++ CRLF)).

Definition too_many_headers_is_refused : bool :=
  let many := concat (map (fun i => lit "X-H" ++ show i ++ lit ": v" ++ CRLF) (seqZ 0 (MAX_HEADERS + 1))) in
  is_err (parse_head (lit "GET /x HTTP/1.1" ++ CRLF ++ many ++ CRLF)).

Definition keep_alive_follows_the_version_and_the_connection_header : bool :=
  let parsed line extra := parse_head (lit line ++ CRLF ++ lit extra ++ CRLF ++ CRLF) in
  on_ok (parsed "GET /x HTTP/1.1" "Host: x")%string keep_alive
  && on_ok (parsed "GET /x HTTP/1.0" "Host: x")%string (fun r => negb (keep_alive r))
  && on_ok (parsed "GET /x HTTP/1.1" "Connection: close")%string (fun r => negb (keep_alive r))
  && on_ok (parsed "GET /x HTTP/1.0" "Connection: keep-alive")%string keep_alive.

Definition the_method_is_normalized_but_the_target_is_not : bool :=
  on_ok (parse_head (lit "get /V1/Files/Read?path=/A HTTP/1.1" ++ CRLF ++ lit "Host: x" ++ CRLF ++ CRLF)) (fun request =>
    same (method request) (lit "GET") && same (path request) (lit "/V1/Files/Read")
    && same (params request !! lit "path") (Some (lit "/A"))).

Definition http_tests : bool :=
  a_well_formed_request_parses && ambiguous_framing_is_refused && control_characters_in_targets_are_refused
  && identical_duplicates_are_allowed && a_malformed_request_line_is_refused && a_non_ascii_head_is_refused
  && too_many_headers_is_refused && keep_alive_follows_the_version_and_the_connection_header
  && the_method_is_normalized_but_the_target_is_not.

Example http_tests_pass : http_tests = true.
Proof. vm_compute. reflexivity. Qed.

(** ** src/main.rs *)

#[local] Existing Instance Sample.sample.

Definition segments (path : String.string) : list str := path_segments (lit path).

(** [ProcRegistry::default()]. *)
Definition no_processes : ProcRegistry (SJ:=Sample.sample) := mkProcRegistry [] 0 0 ∅ ∅ 0.

(** [SandboxRegistry::new(4, true)] and the default process registry. *)
Definition test_state : @State Sample.sample sim :=
  mkState (Required (lit "host-management-token")) 0 0 no_processes
    (mkSandboxRegistry ∅ 4 0 true {| next := 0; free := []; quarantined := [] |} ∅ ∅ 0) true (sim_host boot).

Definition test_version : str := lit "1.2.3".
Definition test_health : Value Number :=
  match (authenticated_health test_version test_state).1 with Ok payload => payload | Err _ => VNull end.

Definition health_advertises_the_protocol_as_an_integer : bool :=
  all_of [public_health; test_health] (fun payload => same (Json.get payload (lit "protocol") ≫= as_u64) (Some PROTOCOL))
  && same (Json.get test_health (lit "version") ≫= as_str) (Some test_version).

Definition the_public_health_payload_carries_no_server_detail : bool :=
  all_of (map lit ["version"; "uptime_ms"; "sandboxes"; "mode"; "auth"; "landlock"]%string)
    (fun field => match Json.get public_health field with None => true | Some _ => false end)
  && same (Json.get public_health (lit "status") ≫= as_str) (Some (lit "ok")).

Definition route_surfaces_are_mutually_exclusive : bool :=
  all_of ["/v1/exec"; "/v1/processes"; "/v1/processes/p-1"; "/v1/files/read"; "/v1/files/write"; "/v1/files/list";
          "/v1/files/stat"; "/v1/files/delete"; "/v1/files/mkdir"; "/v1/proxy/8000"; "/v1/proxy/8000/ws"]%string
    (fun path => route_mode_allowed false (segments path) && negb (route_mode_allowed true (segments path)))
  && all_of ["/v1/sandboxes"; "/v1/sandboxes/abc"; "/v1/sandboxes/abc/exec"; "/v1/sandboxes/abc/processes";
             "/v1/sandboxes/abc/processes/p-1"; "/v1/sandboxes/abc/files/read"; "/v1/sandboxes/abc/files/write";
             "/v1/sandboxes/abc/proxy/8000"; "/v1/sandboxes/abc/proxy/8000/ws"]%string
       (fun path => route_mode_allowed true (segments path) && negb (route_mode_allowed false (segments path))).

Definition a_required_token_must_match_exactly : bool :=
  let auth := Required (lit "s3cret") in
  accepts auth (Some (lit "s3cret")) && negb (accepts auth None)
  && all_of (map lit [""; "s3cre"; "s3crets"; "S3CRET"]%string) (fun token => negb (accepts auth (Some token))).

Definition disabled_auth_has_to_be_asked_for_by_name : bool :=
  accepts DisabledForDevelopment None && negb (accepts (Required []) None).

Definition constant_time_compare_agrees_with_equality : bool :=
  all_of [("", ""); ("a", "a"); ("a", "b"); ("ab", "a"); ("a", "ab"); ("token", "token")]%string
    (fun '(a, b) => Bool.eqb (ct_eq (lit a) (lit b)) (eqs (lit a) (lit b))).

#[export] Instance Scope_eq_dec : EqDecision Scope.
Proof. solve_decision. Defined.
#[export] Instance RouteAuth_eq_dec : EqDecision RouteAuth.
Proof. solve_decision. Defined.

Definition a_sandbox_token_addresses_only_its_own_sandbox : bool :=
  let mine := lit "sandbox-a-token" in
  let theirs := lit "sandbox-b-token" in
  same (classify_scoped_token mine mine) (Some SandboxScope)
  && same (classify_scoped_token theirs mine) None
  && same (classify_scoped_token [] mine) None
  && same (classify_scoped_token (lit "sandbox-a-toke") mine) None.

Definition the_host_token_is_never_a_scoped_credential : bool :=
  same (classify_scoped_token (lit "host-management-token") (lit "sandbox-a-token")) None.

Definition pool_lifecycle_and_token_recovery_are_management_routes : bool :=
  same (host_route_auth (segments "/v1/sandboxes")) Management
  && same (host_route_auth (segments "/v1/sandboxes/abc/token")) Management
  && all_of ["/v1/sandboxes/abc"; "/v1/sandboxes/abc/exec"; "/v1/sandboxes/abc/processes";
             "/v1/sandboxes/abc/files/read"; "/v1/sandboxes/abc/proxy/8000/ws"]%string
       (fun path => same (host_route_auth (segments path)) (SandboxRoute (lit "abc"))).

Definition token_recovery_is_not_reachable_with_a_sandbox_token : bool :=
  same (host_route_auth (segments "/v1/sandboxes/victim/token")) Management.

Definition main_tests : bool :=
  health_advertises_the_protocol_as_an_integer && the_public_health_payload_carries_no_server_detail
  && route_surfaces_are_mutually_exclusive && a_required_token_must_match_exactly
  && disabled_auth_has_to_be_asked_for_by_name && constant_time_compare_agrees_with_equality
  && a_sandbox_token_addresses_only_its_own_sandbox && the_host_token_is_never_a_scoped_credential
  && pool_lifecycle_and_token_recovery_are_management_routes
  && token_recovery_is_not_reachable_with_a_sandbox_token.

Example main_tests_pass : main_tests = true.
Proof. vm_compute. reflexivity. Qed.

(** ** src/exec.rs *)

Definition only_server_assigned_ids_are_accepted : bool :=
  all_of (map lit ["p-0"; "p-1"; "p-42"; "p-9007199254740993"]%string) is_opaque_process_id
  && all_of (map lit [""; "p-"; "p"; "0"; "42"; "9000"; "-1"; "p-1a"; "p--1"; "P-1"; " p-1"; "p-1 "]%string)
       (fun id => negb (is_opaque_process_id id)).

Definition allocated_ids_have_the_accepted_shape : bool :=
  let '(first, registry) := alloc_id (SJ:=Sample.sample) no_processes in
  let '(second, registry) := alloc_id registry in
  let '(third, _) := alloc_id registry in
  all_of [first; second; third] is_opaque_process_id.

Definition test_proc (id sandbox : str) : Proc (SJ:=Sample.sample) :=
  mkProc id 1 (mkProcHandle 1 None 0) None VNull 0 (Some sandbox) 0.

Definition ids_are_unique_and_scoped_lookup_does_not_cross_sandboxes : bool :=
  let '(first, registry) := alloc_id no_processes in
  let '(second, registry) := alloc_id registry in
  let registry := Exec.insert (test_proc first (lit "mine")) registry in
  let mine := Some (lit "mine") in
  let '(crossed, registry) := remove_by_id first (Some (lit "theirs")) registry in
  let '(unknown, registry) := remove_by_id second mine registry in
  let '(removed, registry) := remove_by_id first mine registry in
  let '(again, _) := remove_by_id first mine registry in
  negb (eqs first second)
  && match crossed, unknown, removed, again with None, None, Some _, None => true | _, _, _, _ => false end.

Definition exec_tests : bool :=
  only_server_assigned_ids_are_accepted && allocated_ids_have_the_accepted_shape
  && ids_are_unique_and_scoped_lookup_does_not_cross_sandboxes.

Example exec_tests_pass : exec_tests = true.
Proof. vm_compute. reflexivity. Qed.

(** ** src/landlock.rs and src/proxy.rs *)

Definition has_feature (name : String.string) (abi : Z) : bool := existsb (fun f => eqs f (lit name)) (features abi).

Definition network_and_socket_scoping_need_a_recent_abi : bool :=
  negb (has_feature "no_tcp_bind" 1) && negb (has_feature "no_tcp_bind" 3) && has_feature "no_tcp_bind" 4
  && negb (has_feature "scoped_abstract_unix" 5) && has_feature "scoped_abstract_unix" 6
  && has_feature "no_tcp_bind" FULL_ABI && has_feature "scoped_abstract_unix" FULL_ABI
  && negb (has_feature "scoped_abstract_unix" (FULL_ABI - 1)).

Definition features_grow_monotonically_with_the_abi : bool :=
  all_of (seqZ 1 FULL_ABI) (fun abi =>
    all_of (features (abi - 1)) (fun f => existsb (eqs f) (features abi)))
  && match features 0 with [] => true | _ => false end.

Definition handled_bits_only_ever_widen : bool :=
  all_of (seqZ 2 (FULL_ABI - 1)) (fun abi =>
    let lower := handled_fs_for (abi - 1) in Z.land lower (handled_fs_for abi) =? lower).

Definition port_must_be_a_number_in_range : bool :=
  same (split_target [lit "8000"]) (Some (8000, lit "/"))
  && same (split_target [lit "8000"; lit "ws"]) (Some (8000, lit "/ws"))
  && all_of ([lit ""; lit "0"; lit "65536"; lit "-1"; lit "abc"; lit ".."; lit "8000.sock"; lit "08000" ++ [LF]])
       (fun bad => same (split_target [bad]) None).

Definition landlock_tests : bool :=
  network_and_socket_scoping_need_a_recent_abi && features_grow_monotonically_with_the_abi && handled_bits_only_ever_widen.

Example landlock_tests_pass : landlock_tests && port_must_be_a_number_in_range = true.
Proof. vm_compute. reflexivity. Qed.
