(* ===== verification/MachineTests.v ===== *)
(** * The repository's unit tests on a machine

    The [#[test]] functions that need a file system, processes or Landlock
    (src/files.rs, src/sandboxes.rs, src/proxy.rs, src/landlock.rs), run on the
    simulated kernel of file Sim; what a test does with [std::fs] itself is done on
    the simulated tree directly.  The others are in file UnitTests. *)

From S2P Require Import Prelude RustStd Json Kernel Sim Host Landlock Paths State Uids Fsutil Proxy UnitTests.

Abbreviation machine := (io (@Host sim)) (only parsing).

(** A test passes when it ends with [true] on the machine [w]. *)
Definition passes (w : SimWorld) (test : machine bool) : bool := on_ok (test (sim_host w)).1 (fun b => b).

(** ** What the tests do themselves *)

Definition EUID : Z := 1000.
Definition TREE_HOME : str := lit "/t/home".
Definition OUTSIDE : str := lit "/t/outside".

(** [layout]: [<base>/home] and [<base>/outside]. *)
Definition layout : SimWorld :=
  mkSim 1000 {[ ROOT := NDir 0 493 [(lit "t", 2)]; 2 := NDir EUID 493 [(lit "home", 3); (lit "outside", 4)];
                3 := NDir EUID 493 []; 4 := NDir EUID 493 [] ]} ∅ 10 {[ 1 := EUID ]} 6.

Definition on_sim (f : SimWorld -> SimWorld) : machine unit := io_modify (fun h : @Host sim => set_world (K:=sim) (f (world h)) h).

(** A new entry at [path], whose parent exists. *)
Definition placed (path : str) (n : node) (w : SimWorld) : SimWorld :=
  match walk w ROOT (split_last path).1 with
  | Some dir => (new_node dir (split_last path).2 n w).2
  | None => w
  end.
Definition place (path : str) (n : node) : machine unit := on_sim (placed path n).
Definition fs_write (path data : str) : machine unit := on_sim (fun w =>
  match resolve w path with
  | Some i => with_nodes (<[i := NFile EUID 420 data]> (s_nodes w)) w
  | None => placed path (NFile EUID 420 data) w
  end).
Definition symlink (target link : str) : machine unit := place link (NLink target).
Definition create_dir (path : str) : machine unit := place path (NDir EUID 493 []).
Definition mkfifo (path : str) : machine unit := place path (NFifo EUID 384).
Definition fs_read (path : str) : machine str := hsys (ReadFile path).
Definition exists_ (path : str) : machine bool := io_gets (fun h : @Host sim => bool_decide (is_Some (resolve (world h) path))).
Definition home_path (rel : String.string) : str := TREE_HOME ++ SLASH :: lit rel.
Definition outside_path (rel : String.string) : str := OUTSIDE ++ SLASH :: lit rel.
Definition test_root : machine ScopedRoot := scoped_open TREE_HOME EUID.

(** [is_err] and [unwrap]. *)
Definition errs {A} (m : machine A) : machine bool := r <- io_try m ;; io_ret (is_err r).
Definition reads (path data : str) : machine bool := got <- fs_read path ;; io_ret (eqs got data).
Fixpoint every (checks : list (machine bool)) : machine bool :=
  match checks with
  | [] => io_ret true
  | check :: rest => ok <- check ;; others <- every rest ;; io_ret (ok && others)
  end.

(** ** src/files.rs *)

Definition TREE_DEPTH : nat := 8.

Definition normalization_cannot_name_anything_outside_the_home : bool :=
  all_of (map lit ["/etc/passwd"; "../../etc/passwd"; "a/../../../etc/passwd"; "/"; "./x"]%string) (fun path =>
    let rel := normalize_relative path in
    negb (is_absolute rel) && negb (existsb (fun c => bool_decide (c = ParentDir)) (components rel)))
  && path_eq (normalize_relative (lit "/a/b/../c")) (lit "a/c").

Definition final_symlink_is_not_followed : bool := passes layout (
  fs_write (outside_path "secret") (lit "secret") ;;;
  symlink (outside_path "secret") (home_path "escape") ;;;
  root <- test_root ;;
  every [errs (open_read root (lit "escape")); errs (open_write root (lit "escape") true None);
         reads (outside_path "secret") (lit "secret")]).

Definition intermediate_symlink_is_not_followed : bool := passes layout (
  symlink OUTSIDE (home_path "escape") ;;;
  root <- test_root ;;
  every [errs (open_write root (lit "escape/created") true None); errs (open_read root (lit "escape/anything"));
         errs (list_dir root (lit "escape"));
         (there <- exists_ (outside_path "created") ;; io_ret (negb there))]).

Definition deleting_a_symlink_leaves_its_target_alone : bool := passes layout (
  fs_write (outside_path "secret") (lit "secret") ;;;
  symlink OUTSIDE (home_path "escape") ;;;
  root <- test_root ;;
  delete_at TREE_DEPTH root (lit "escape") true ;;;
  every [reads (outside_path "secret") (lit "secret"); errs (hsys (Lstat (home_path "escape")))]).

Definition stat_reports_the_link_not_its_target : bool := passes layout (
  fs_write (outside_path "secret") (lit "0123456789") ;;;
  symlink (outside_path "secret") (home_path "escape") ;;;
  root <- test_root ;;
  m <- metadata root (lit "escape") ;;
  io_ret (is_symlink m && negb (m_size m =? 10))).

Definition listing_reports_symlinks_without_following_them : bool := passes layout (
  symlink OUTSIDE (home_path "escape") ;;;
  root <- test_root ;;
  entries <- list_dir root [] ;;
  io_ret (match List.find (fun e => bool_decide (file_name e.1 = Some (lit "escape"))) entries with
          | Some (_, m) => is_symlink m
          | None => false
          end)).

Definition writes_create_the_parent_chain_and_round_trip : bool := passes layout (
  root <- test_root ;;
  file <- open_write root (lit "a/b/file") true None ;;
  hsys (WriteFd file (lit "hello")) ;;;
  close file ;;;
  written <- reads (home_path "a/b/file") (lit "hello") ;;
  read_back <- open_read root (lit "a/b/file") ;;
  content <- hsys (ReadFd read_back 100) ;;
  io_ret (written && eqs content (lit "hello"))).

Definition a_plain_write_truncates_and_a_ranged_write_does_not : bool := passes layout (
  root <- test_root ;;
  fs_write (home_path "f") (lit "0123456789") ;;;
  file <- open_write root (lit "f") false None ;;
  hsys (WriteFd file (lit "ab")) ;;;
  close file ;;;
  plain <- reads (home_path "f") (lit "ab") ;;
  fs_write (home_path "f") (lit "0123456789") ;;;
  file <- open_write root (lit "f") false (Some 2) ;;
  hsys (Lseek file 2) ;;;
  hsys (WriteFd file (lit "ab")) ;;;
  ranged <- reads (home_path "f") (lit "01ab456789") ;;
  io_ret (plain && ranged)).

Definition recursive_delete_walks_by_descriptor_and_skips_symlinked_trees : bool := passes layout (
  create_dir (home_path "tree") ;;; create_dir (home_path "tree/sub") ;;;
  fs_write (home_path "tree/sub/file") (lit "x") ;;;
  fs_write (outside_path "keep") (lit "keep") ;;;
  symlink OUTSIDE (home_path "tree/link") ;;;
  root <- test_root ;;
  delete_at TREE_DEPTH root (lit "tree") true ;;;
  every [(there <- exists_ (home_path "tree") ;; io_ret (negb there)); reads (outside_path "keep") (lit "keep")]).

Definition special_files_are_refused_rather_than_blocking : bool := passes layout (
  mkfifo (home_path "pipe") ;;;
  root <- test_root ;;
  errs (open_read root (lit "pipe"))).

Definition the_home_itself_cannot_be_deleted : bool := passes layout (
  root <- test_root ;;
  every [errs (delete_at TREE_DEPTH root [] true); exists_ TREE_HOME]).

Definition files_tests : bool :=
  normalization_cannot_name_anything_outside_the_home && final_symlink_is_not_followed
  && intermediate_symlink_is_not_followed && deleting_a_symlink_leaves_its_target_alone
  && stat_reports_the_link_not_its_target && listing_reports_symlinks_without_following_them
  && writes_create_the_parent_chain_and_round_trip && a_plain_write_truncates_and_a_ranged_write_does_not
  && recursive_delete_walks_by_descriptor_and_skips_symlinked_trees && special_files_are_refused_rather_than_blocking
  && the_home_itself_cannot_be_deleted.

Example files_tests_pass : files_tests = true.
Proof. vm_compute. reflexivity. Qed.

(** ** src/sandboxes.rs *)

Definition pool_default : UidPool := {| next := 0; free := []; quarantined := [] |}.

(** [pool.take()], [release] and [quarantine] on a pool that lives with the machine. *)
Abbreviation pool_test := (io (UidPool * @Host sim) bool) (only parsing).
Definition passes_with (pool : UidPool) (test : pool_test) : bool :=
  on_ok (test (pool, sim_host layout)).1 (fun b => b).
Definition pool_release (uid : Z) : io (UidPool * @Host sim) unit := io_modify (fun s => (release uid s.1, s.2)).
Definition pool_quarantine (uid : Z) : io (UidPool * @Host sim) unit := io_modify (fun s => (quarantine uid s.1, s.2)).
Definition takes (expected : option Z) : pool_test := got <- take_uid ;; io_ret (same got expected).

Definition a_released_uid_is_reused_before_a_fresh_one : bool := passes_with pool_default (
  a <- takes (Some UID_BASE) ;; b <- takes (Some (UID_BASE + 1)) ;;
  pool_release UID_BASE ;;;
  c <- takes (Some UID_BASE) ;; d <- takes (Some (UID_BASE + 2)) ;;
  io_ret (a && b && c && d)).

Definition a_quarantined_uid_is_never_handed_out : bool :=
  passes_with pool_default (
    pool_quarantine UID_BASE ;;; pool_quarantine (UID_BASE + 2) ;;;
    a <- takes (Some (UID_BASE + 1)) ;; b <- takes (Some (UID_BASE + 3)) ;;
    io_ret (a && b))
  && passes_with pool_default (
    uid <- take_uid ;;
    match uid with
    | None => io_ret false
    | Some uid =>
        pool_quarantine uid ;;;
        io_modify (fun s : UidPool * @Host sim => (with_reserved [uid], s.2)) ;;;
        got <- takes (Some uid) ;; io_ret (negb got)
    end).

Definition uids_already_used_by_the_image_are_reserved : bool :=
  passes_with (with_reserved [UID_BASE; UID_BASE + 1]) (takes (Some (UID_BASE + 2))).

Definition exhaustion_is_reported_rather_than_wrapping : bool :=
  passes_with {| next := UID_MAX - UID_BASE - 1; free := []; quarantined := [] |} (
    a <- takes (Some (UID_MAX - 1)) ;; b <- takes None ;; c <- takes None ;;
    io_ret (a && b && c)).

Definition the_range_stays_inside_the_container_uid_map : bool :=
  (20000 <=? UID_BASE) && (UID_MAX <=? 65535) && (UID_BASE <? UID_MAX).

Definition a_free_uid_with_live_processes_is_quarantined_at_hand_out : bool :=
  passes_with {| next := 0; free := [EUID]; quarantined := [] |} (
    got <- takes (Some EUID) ;;
    quarantined <- io_gets (fun s : UidPool * @Host sim => contains_z EUID (quarantined s.1)) ;;
    io_ret (negb got && quarantined)).

Definition zombies_do_not_count_as_live_processes : bool := passes layout (
  mine <- pids_of_uid EUID ;; nobody <- pids_of_uid (u32_max - 1) ;;
  io_ret (negb (bool_decide (mine = [])) && bool_decide (nobody = []))).

Definition sandboxes_tests : bool :=
  a_released_uid_is_reused_before_a_fresh_one && a_quarantined_uid_is_never_handed_out
  && uids_already_used_by_the_image_are_reserved && exhaustion_is_reported_rather_than_wrapping
  && the_range_stays_inside_the_container_uid_map && a_free_uid_with_live_processes_is_quarantined_at_hand_out
  && zombies_do_not_count_as_live_processes.

Example sandboxes_tests_pass : sandboxes_tests = true.
Proof. vm_compute. reflexivity. Qed.

(** ** src/proxy.rs *)

Definition test_entry (uid : Z) : SandboxEntry := {|
  id := lit "test"; uid := uid; home := TREE_HOME; created_at_ms := 0; env := ∅; max_procs := 16; max_mem_mb := 16;
  token := lit "sandbox-capability-token"; confinement := UidOnly; deleted := 0; entry_activity := 0;
  idle_timeout_ms := 0 |}.

Definition proxy_layout : machine unit := create_dir (home_path ".sbx") ;;; create_dir (home_path ".sbx/proxy").
(** [UnixListener::bind]. *)
Definition bind (path : str) : machine unit := place path (NSock EUID).

Definition a_real_socket_owned_by_the_sandbox_is_accepted : bool := passes layout (
  proxy_layout ;;; bind (home_path ".sbx/proxy/8000.sock") ;;;
  refused <- errs (open_sandbox_socket (test_entry EUID) 8000) ;; io_ret (negb refused)).

Definition a_symlinked_socket_is_refused : bool := passes layout (
  proxy_layout ;;; bind (outside_path "victim.sock") ;;;
  symlink (outside_path "victim.sock") (home_path ".sbx/proxy/8000.sock") ;;;
  errs (open_sandbox_socket (test_entry EUID) 8000)).

Definition a_symlinked_proxy_directory_is_refused : bool := passes layout (
  proxy_layout ;;; bind (outside_path "8000.sock") ;;;
  hsys (RemoveDirAll (home_path ".sbx/proxy")) ;;;
  symlink OUTSIDE (home_path ".sbx/proxy") ;;;
  errs (open_sandbox_socket (test_entry EUID) 8000)).

Definition a_non_socket_is_refused : bool := passes layout (
  proxy_layout ;;; fs_write (home_path ".sbx/proxy/8000.sock") (lit "not a socket") ;;;
  errs (open_sandbox_socket (test_entry EUID) 8000)).

Definition a_socket_owned_by_another_uid_is_refused : bool := passes layout (
  proxy_layout ;;; bind (home_path ".sbx/proxy/8000.sock") ;;;
  errs (open_sandbox_socket (test_entry (EUID + 1)) 8000)).

(** The exchange of bytes that follows in the test is the kernel's. *)
Definition connecting_through_the_pinned_descriptor_reaches_the_backend : bool := passes layout (
  proxy_layout ;;; bind (home_path ".sbx/proxy/8000.sock") ;;;
  backend <- connect_backend (Some (test_entry EUID)) 8000 ;;
  io_ret (match backend with Unix _ => true | Tcp _ => false end)).

Definition proxy_tests : bool :=
  port_must_be_a_number_in_range && a_real_socket_owned_by_the_sandbox_is_accepted && a_symlinked_socket_is_refused
  && a_symlinked_proxy_directory_is_refused && a_non_socket_is_refused && a_socket_owned_by_another_uid_is_refused
  && connecting_through_the_pinned_descriptor_reaches_the_backend.

Example proxy_tests_pass : proxy_tests = true.
Proof. vm_compute. reflexivity. Qed.

(** ** src/landlock.rs *)

Definition building_a_ruleset_for_a_missing_home_fails : bool := passes layout (
  available <- available ;;
  if negb available then io_ret true else errs (build_ruleset (lit "/nonexistent/sandbox/home"))).

Example missing_home_test_passes : building_a_ruleset_for_a_missing_home_fails = true.
Proof. vm_compute. reflexivity. Qed.
